(* ===== verification/_CoqProject ===== *)
-Q . S2P
Prelude.v
GoBytes.v
GoSort.v
Wal.v
SkipList.v
Memtable.v
RaftTypes.v
RaftStorage.v
Raft.v
RaftLog.v
RaftInv.v
RaftVote.v
RaftStable.v
RaftSend.v
RaftNode.v
RaftProps.v
RaftReads.v
RaftApp.v
RaftCluster.v
RaftView.v
RaftMoves.v
RaftSafety.v
RaftAgree.v
RaftLoss.v
GoState.v
TransportCodec.v
Transport.v
TransportInv.v
TransportOwn.v
TransportProps.v
TransportFrames.v
Command.v
GoVarint.v
Bloom.v
BlockCache.v
SSTableFormat.v
SSTableWriter.v
SSTableReader.v
SSTable.v
GoFmt.v
CmdConfig.v
Engine.v
EngineLayers.v
EngineDisk.v
EngineReplay.v
EngineSpec.v
EngineInv.v
EngineOpen.v
EngineWrite.v
EngineFlush.v
EngineSnapshot.v
EngineRestore.v
EngineRun.v
EngineProps.v
EngineFindings.v
Naive.v
Server.v
ServerHTTP.v
ServerReplies.v
ServerSteps.v
ServerLog.v
ServerCareful.v
ServerImpl.v
ServerNode.v
ServerProps.v
ServerHTTPProps.v
CmdMain.v
CmdLife.v
ServerFindings.v
CmdCluster.v
CmdFindings.v
