(* ===== verification/Prelude.v ===== *)
(** * A verification library for the key-value store

    The program under src/ is a replicated key-value store.  Clients talk HTTP
    to any node; a write becomes a command that the Raft leader replicates;
    every node applies the committed commands to its own storage engine; a read
    is served from the local engine, on request after a majority has confirmed
    the leader.

    ** Parts and files

    - wal (src/wal): an append-only file of checksummed records with replay and
      truncation of torn tails.  [Wal], modules [Record], [Replay], [Appender].
    - memtable (src/memtable): a skip list on a heap of nodes, the table over it
      and its iterator.  [SkipList], [Memtable].
    - sstable (src/sstable): the immutable table files.  [GoVarint], [Bloom],
      [BlockCache], [SSTableFormat] (block.go), [SSTableWriter], [SSTableReader];
      [SSTable] puts writer, file, reader and cache together.
    - engine (src/engine): log, memtables and tables under one API, with a
      background flush, snapshots and restore.  [Engine] holds every method and
      the stages of the flush; [EngineLayers], [EngineDisk], [EngineReplay],
      [EngineSpec] and [EngineInv] the abstraction and the invariant;
      [EngineOpen], [EngineWrite], [EngineFlush], [EngineSnapshot],
      [EngineRestore] what each operation does; [EngineRun] runs with crashes;
      [EngineProps] the theorems; [EngineFindings] runs outside their conditions.
    - raft (src/raft): [RaftTypes] (message.go and the types of raft.go), [Raft]
      (every method of raft.go), [RaftStorage] (storage.go), [RaftNode]
      (node.go).  [RaftLog] and [RaftInv] hold the log invariant, [RaftVote] the
      facts about terms and votes, [RaftStable] what must reach the disk,
      [RaftSend] what is sent, [RaftProps] the contract of each operation,
      [RaftReads] the confirmation of reads, [RaftApp] what the application is
      told, [RaftCluster] a cluster of nodes with disks and a network.  [RaftView]
      is the protocol seen from outside (terms on disk, messages sent, the log of
      each term's leader) with its invariant, [RaftMoves] every operation of a
      node as moves of that view, [RaftSafety] the safety of the cluster,
      [RaftAgree] the one log of a run, [RaftLoss] schedules in which a committed
      entry is lost: with snapshots, and of a node without peers.
    - transport (src/transport): [TransportCodec] is codec.go; [Transport] is
      transport.go, its goroutines as threads over a shared state;
      [TransportInv], [TransportOwn], [TransportProps], [TransportFrames] its
      invariants and theorems.
    - server (src/server): [Command] (command.go), [Server] (the event loop of
      server.go over the interfaces [raftNode] and [kvEngine]), [ServerReplies]
      (who is answered), [ServerSteps] (what an event does to the node),
      [ServerLog] (the server as a replicated state machine), [ServerCareful]
      (runs in which no call on the engine fails), [ServerImpl] and [ServerNode]
      (the engine and the Raft node behind the interfaces, and that they keep
      the promises), [ServerProps], [ServerFindings];
      [ServerHTTP] is http.go, with the handlers of src/cmd/kvstore/handlers.go as
      its module [Api], [ServerHTTPProps] their theorems.
    - command (src/cmd/kvstore): [CmdConfig] (the command line), [CmdMain]
      (main.go: how the parts are put together and taken down), [CmdLife] (the
      process over any number of crashes and restarts), [CmdCluster] (a cluster of
      such processes over a network), [CmdFindings] (a read that is not
      linearizable).
    - bench (src/bench): [Naive], the baseline store of the benchmarks.
    This file, [GoBytes], [GoSort], [GoState], [GoFmt] and [GoVarint] model what
    the program uses of Go and its standard library.

    ** How code becomes definitions

    A struct is a record, an enum an inductive type, a method a function from
    the state of its receiver to a new state and a result [res]: a value, an
    error ([error] keeps the text and the chain of wrapped errors; numbers and
    names that are formatted into a message are left out) or a run-time panic.
    Slicing and indexing check their bounds and panic as in Go; a make of more
    than 2^48 bytes panics.  64- and 32-bit arithmetic wraps where the code can
    leave the range ([u64], [u32], [inc64]).  A method that holds a lock for its
    whole body is one step; code that works between critical sections (the flush
    goroutine, the transport) is a sequence of steps that interleave with the
    others.  Map iteration order is an arbitrary permutation or does not matter
    where the model fixes it.  Random draws and the answers of the operating
    system and the network are arguments, so a theorem holds for all of them.

    Files have synced and unsynced contents.  A write may stop anywhere, a sync
    may fail, and a crash keeps a prefix of what was not synced (of the
    write-ahead log [Wal.wal_crash_recovery] treats any bytes at all in its
    place); what is found on the disk after a crash is durable; creating,
    renaming and removing a file are atomic and durable.  Reads may fail.  Recursion that is not structural runs on fuel; running out is a
    [Panic] (or an explicit failure), the fuel is the length of the data or the
    number of possible rounds, and the theorems show that it suffices.

    ** What is proved

    - Durability: [Wal.wal_crash_recovery], [RaftStorage.storage_crash_recovery],
      [RaftNode.persisted_state_recovers], [RaftNode.crash_restart_safe] and
      [EngineProps.engine_crash_recovery]: everything reported as done is there
      after a crash and recovery, under any failures of the log and the node's
      storage, and of the engine in the runs of [EngineRun].
    - The engine is a map: [EngineProps.engine_refines_map] over the runs of
      [EngineRun] (no failed or interrupted table write, no failed restore, no
      overlapping flushes), [Memtable.memtable_refines_map], [SSTable.table_lookup],
      [SSTable.table_scan], the cache as a bounded LRU list, the filter without
      false negatives, snapshot and restore.
    - Raft: at most one leader per term in every reachable state of a cluster
      with crashes, the vote given once per term, the log invariant, the commit
      rule, replication at the follower, compaction, confirmed reads.  While no
      node has compacted its log, over any network and any crashes: logs match,
      leaders have every committed entry, no two nodes ever commit different
      entries at an index and none panics ([RaftSafety]).
    - The server: behind its interfaces the engine always holds the map of the
      committed log up to [lastApplied] (after a restart, once it has passed what
      it had applied before), success means committed and applied, replicas
      agree, nobody is answered twice; the same of a client over HTTP
      ([ServerHTTPProps]).  [ServerNode] proves that the Raft node keeps its side
      of the interface, [ServerImpl] that the engine does as long as its calls
      succeed.
    - The process ([CmdLife.process_follows_log]): real node, real engine and the
      code that wires them, started from the disks that earlier lives have left
      behind, starts and serves the map of the log, as long as no call on the
      engine fails; when it ends, every component that came up has been closed
      ([CmdMain.process_cleans_up]).
    - The system ([CmdCluster.cluster_serves_one_log]): a cluster of processes,
      each the real loop, node and engine, with any network, crashes and restarts,
      serves one log, as long as no process has compacted its own and no call on
      an engine fails or is interrupted by a crash.
    - The transport: no panic under any interleaving, no connection leaked,
      [Close] returns, frames of concurrent senders never mix; the codecs round
      trip and reject arbitrary bytes without panic.

    ** Bounds

    Log indexes stay below 2^63 and terms below 2^64; data in a record below
    2^32 - 38 bytes; snapshots below 4 GiB; engine file numbers have six digits;
    no flush goroutine is alive when another flush starts; the clusters
    of [RaftSafety] have at least two nodes.  Each bound that the code does not
    enforce has a run in [EngineFindings], [RaftInv], [RaftLoss], [SSTable],
    [ServerFindings] or [TransportProps] that shows what happens outside it.

    ** Abstractions and what is not modelled

    - The two floating-point formulas that size a bloom filter are parameters
      ([EngineProps.sized_bits] is an instance).
    - Writing one table file is one stage of a flush; a crash inside it is
      treated in [EngineFindings.torn_table_blocks_open].  Snapshot and restore
      are one step each.
    - Time appears as events: a tick, the batch timer, a timeout.  The event
      loop reads its channels in any order.
    - The theorems on the server speak of the runs in which the committed entries
      of its node are those of one log ([ServerLog.agreeable]).  For a cluster
      this is state machine safety, which [RaftSafety] proves of the runs in
      which no node has compacted its log, and [CmdCluster] puts the two together;
      [RaftLoss.snapshots_lose_committed] shows that the code does not have state
      machine safety once snapshots are sent.  The network of a cluster is a set
      of messages; that frames arrive whole is [TransportFrames].
    - The server goes on after a call on its engine has failed, and so does the
      model ([ServerImpl.world_kvEngine]); the theorems on the contents of the
      engine behind it are about runs in which none fails or leaves the bounds
      above ([ServerCareful.spared_run]), [ServerFindings] shows what happens in
      others.  The flush goroutine runs between the calls on the engine.
    - Crashes of the process fall between two calls on the engine, or between the
      save of the node and the calls that follow; a process that is killed
      without the machine is treated as a crash of the machine.
    - Open file handles are not counted: that RestoreSnapshot replaces the
      engine's log without closing it is a finding without a theorem.
    - Not modelled: what package flag makes of the argument list (a parameter of
      [CmdConfig.parseArgs]), the HTTP protocol and the JSON encoder beyond the
      status text, log output, and the tests and benchmarks. *)

From Stdlib Require Export ZArith Lia.
From Stdlib Require Import Strings.Byte.
From stdpp Require Export prelude gmap strings list.

#[global] Open Scope Z_scope.

(** ** Errors and results *)

(** Go's [error] values as the code builds them: the sentinel
    [raft.ErrNotLeader], a fresh error ([errors.New], [fmt.Errorf]) and a
    wrapped one ([fmt.Errorf] with [%w]). *)
Inductive error :=
  | ErrNotLeader
  | Errorf (msg : string)
  | Wrapf (msg : string) (cause : error).

#[global] Instance error_eq_dec : EqDecision error.
Proof. solve_decision. Defined.

(** [errors.Is(err, raft.ErrNotLeader)] walks the chain of wrapped errors. *)
Fixpoint is_not_leader (e : error) : bool :=
  match e with
  | ErrNotLeader => true
  | Errorf _ => false
  | Wrapf _ c => is_not_leader c
  end.

(** The outcome of a Go call: a value, a returned error, or a run-time
    panic (slice out of range, negative length). *)
Inductive res (A : Type) :=
  | Ok (a : A)
  | Err (e : error)
  | Panic.
Arguments Ok {A} a.
Arguments Err {A} e.
Arguments Panic {A}.

#[global] Instance res_eq_dec {A} `{EqDecision A} : EqDecision (res A).
Proof. solve_decision. Defined.

Definition res_bind {A B} (r : res A) (k : A -> res B) : res B :=
  match r with
  | Ok a => k a
  | Err e => Err e
  | Panic => Panic
  end.

(** Replaces the error of a failed call, as every [if err != nil] that
    returns [fmt.Errorf("...: %w", err)] does. *)
Definition res_wrap {A} (msg : string) (r : res A) : res A :=
  match r with
  | Ok a => Ok a
  | Err e => Err (Wrapf msg e)
  | Panic => Panic
  end.

Declare Scope go_scope.
Delimit Scope go_scope with go.
Notation "'let*' x ':=' c 'in' k" := (res_bind c (fun x => k))
  (at level 10, x name, c at level 200, k at level 200) : go_scope.
Notation "'let*' ' p ':=' c 'in' k" := (res_bind c (fun x => let 'p := x in k))
  (at level 10, p pattern, c at level 200, k at level 200) : go_scope.
#[global] Open Scope go_scope.

Definition is_ok {A} (r : res A) : bool :=
  match r with Ok _ => true | _ => false end.
Definition no_panic {A} (r : res A) : Prop := r <> Panic.

Lemma res_bind_ok {A B} (r : res A) (k : A -> res B) b :
  res_bind r k = Ok b -> exists a, r = Ok a /\ k a = Ok b.
Proof. destruct r; simpl; intros H; [eauto | discriminate H..]. Qed.

Lemma no_panic_bind {A B} (r : res A) (k : A -> res B) :
  no_panic r -> (forall a, r = Ok a -> no_panic (k a)) -> no_panic (res_bind r k).
Proof. unfold no_panic. destruct r; simpl; naive_solver. Qed.

Lemma no_panic_ok {A} (a : A) : no_panic (Ok a).
Proof. discriminate. Qed.
Lemma no_panic_err {A} e : no_panic (@Err A e).
Proof. discriminate. Qed.

(** ** Machine integers *)

(** Go's [uint64], [uint32] arithmetic wraps; values are integers and every
    operation that can leave the range reduces. *)
Definition u64 (z : Z) : Z := z mod 2 ^ 64.
Definition u32 (z : Z) : Z := z mod 2 ^ 32.

Definition is_u64 (z : Z) : Prop := 0 <= z < 2 ^ 64.
Definition is_u32 (z : Z) : Prop := 0 <= z < 2 ^ 32.

(** The 64-bit successor. It does not reduce on its own, so that a proof that
    computes with stored bounds does not unfold it. *)
Definition inc64 (z : Z) : Z := u64 (z + 1).

Lemma u64_small z : is_u64 z -> u64 z = z.
Proof. apply Z.mod_small. Qed.
Lemma u32_small z : is_u32 z -> u32 z = z.
Proof. apply Z.mod_small. Qed.
Lemma u64_range z : is_u64 (u64 z).
Proof. apply Z.mod_pos_bound. lia. Qed.
Lemma u32_range z : is_u32 (u32 z).
Proof. apply Z.mod_pos_bound. lia. Qed.
Lemma u32_le z : 0 <= z -> u32 z <= z.
Proof. intros. apply Z.mod_le; lia. Qed.
Lemma inc64_small z : 0 <= z < 2 ^ 64 - 1 -> inc64 z = z + 1.
Proof. intros. apply u64_small. unfold is_u64. lia. Qed.

(** ** Lists with integer length *)

Definition len {A} (l : list A) : Z := Z.of_nat (length l).

Lemma len_nil {A} : len (@nil A) = 0.
Proof. reflexivity. Qed.
Lemma len_cons {A} (x : A) l : len (x :: l) = 1 + len l.
Proof. unfold len; simpl length. lia. Qed.
Lemma len_app {A} (l k : list A) : len (l ++ k) = len l + len k.
Proof. unfold len. rewrite length_app. lia. Qed.
Lemma len_nonneg {A} (l : list A) : 0 <= len l.
Proof. unfold len. lia. Qed.
Lemma len_zero {A} (l : list A) : len l = 0 -> l = [].
Proof. destruct l; [done | rewrite len_cons; pose proof (len_nonneg l); lia]. Qed.
Lemma len_map {A B} (f : A -> B) l : len (map f l) = len l.
Proof. unfold len. by rewrite length_map. Qed.

Lemma len_to_nat {A} (l : list A) : Z.to_nat (len l) = length l.
Proof. apply Nat2Z.id. Qed.
Lemma drop_len_app {A} (l k : list A) : drop (Z.to_nat (len l)) (l ++ k) = k.
Proof. by rewrite len_to_nat, drop_app_length. Qed.
Lemma take_len_app {A} (l k : list A) : take (Z.to_nat (len l)) (l ++ k) = l.
Proof. by rewrite len_to_nat, take_app_length. Qed.

(** Filters that keep everything, or nothing. *)
Lemma filter_id {A} (P : A -> Prop) `{forall x, Decision (P x)} l : Forall P l -> filter P l = l.
Proof.
  induction 1 as [|x l Hx _ IH]; [done |]. rewrite filter_cons_True by done. by rewrite IH.
Qed.
Lemma filter_none {A} (P : A -> Prop) `{forall x, Decision (P x)} l :
  Forall (fun x => ~ P x) l -> filter P l = [].
Proof. induction 1 as [|x l Hx _ IH]; [done |]. by rewrite filter_cons_False. Qed.

(** [l[a:b]] with Go's bounds check. *)
Definition slice {A} (l : list A) (a b : Z) : res (list A) :=
  if (0 <=? a) && (a <=? b) && (b <=? len l)
  then Ok (take (Z.to_nat (b - a)) (drop (Z.to_nat a) l))
  else Panic.

(** [l[a:]] *)
Definition slice_from {A} (l : list A) (a : Z) : res (list A) := slice l a (len l).

(** [l[i]] *)
Definition index {A} (l : list A) (i : Z) : res A :=
  if 0 <=? i then
    match l !! Z.to_nat i with Some x => Ok x | None => Panic end
  else Panic.

Lemma slice_ok {A} (l : list A) a b :
  0 <= a <= b -> b <= len l ->
  slice l a b = Ok (take (Z.to_nat (b - a)) (drop (Z.to_nat a) l)).
Proof.
  intros [Ha Hab] Hb. unfold slice.
  by rewrite !(proj2 (Z.leb_le _ _)) by lia.
Qed.

Lemma slice_no_panic {A} (l : list A) a b :
  0 <= a <= b -> b <= len l -> no_panic (slice l a b).
Proof. intros. rewrite slice_ok by lia. discriminate. Qed.

(** The slice that lies between a prefix and a suffix. *)
Lemma slice_mid {A} (pre l suf : list A) :
  slice (pre ++ l ++ suf) (len pre) (len pre + len l) = Ok l.
Proof.
  rewrite slice_ok; cycle 1.
  { pose proof (len_nonneg pre); pose proof (len_nonneg l); lia. }
  { rewrite !len_app. pose proof (len_nonneg suf). lia. }
  f_equal. unfold len.
  replace (Z.to_nat (_ - _)) with (length l) by lia.
  rewrite Nat2Z.id, drop_app_length, take_app_length. done.
Qed.

Lemma slice_len {A} (l l' : list A) a b :
  slice l a b = Ok l' -> len l' = b - a.
Proof.
  unfold slice. destruct ((_ && _) && _) eqn:E; [|done].
  intros [= <-]. apply andb_prop in E as [[E1 E2]%andb_prop E3].
  unfold len in *. rewrite length_take, length_drop. lia.
Qed.

Lemma index_ok {A} (l : list A) (i : nat) x :
  l !! i = Some x -> index l (Z.of_nat i) = Ok x.
Proof.
  intros H. unfold index. rewrite (proj2 (Z.leb_le 0 _)) by lia.
  by rewrite Nat2Z.id, H.
Qed.

(** ** Automation *)

Create HintDb kv.
Create Rewrite HintDb len.
#[export] Hint Resolve no_panic_ok no_panic_err u64_range u32_range : kv.
#[export] Hint Rewrite @len_app @len_cons @len_nil @len_map : len.

(** Normalises list lengths and calls [lia], with the non-negativity of every
    length in sight. *)
Ltac pose_len :=
  repeat match goal with
  | |- context [len ?l] =>
      lazymatch goal with H : 0 <= len l |- _ => fail | _ => pose proof (len_nonneg l) end
  | _ : context [len ?l] |- _ =>
      lazymatch goal with H : 0 <= len l |- _ => fail | _ => pose proof (len_nonneg l) end
  end.
Ltac len_lia := autorewrite with len in *; pose_len; lia.

(** Case analysis on the comparisons of executable code. *)
Ltac zcase :=
  repeat match goal with
  | H : context [?a <? ?b] |- _ => destruct (Z.ltb_spec a b)
  | |- context [?a <? ?b] => destruct (Z.ltb_spec a b)
  | H : context [?a <=? ?b] |- _ => destruct (Z.leb_spec a b)
  | |- context [?a <=? ?b] => destruct (Z.leb_spec a b)
  | H : context [?a =? ?b] |- _ => destruct (Z.eqb_spec a b)
  | |- context [?a =? ?b] => destruct (Z.eqb_spec a b)
  end.

(** One [let*] of a hypothesis that a run succeeded. *)
Ltac bind_ok H x Hx :=
  apply res_bind_ok in H; destruct H as (x & Hx & H).
