(* ===== verification/GoBytes.v ===== *)
(** * Byte slices, [encoding/binary] and [hash/crc32]

    The parts of Go's standard library that the codecs of the program use:
    bytes as [Byte.byte], the little-endian fixed-width integers of
    [binary.LittleEndian], the Castagnoli CRC, and lemmas and tactics that
    evaluate a decoder on the fields an encoder wrote. *)

From Stdlib Require Import Strings.Byte.
From S2P Require Import Prelude.

Abbreviation byte := Byte.byte.
Abbreviation bytes := (list Byte.byte).

(** ** Bytes as integers *)

Definition byte_val (b : byte) : Z := Z.of_N (Byte.to_N b).

(** [byte(z)]: conversion to [uint8] keeps the low eight bits. *)
Definition to_byte (z : Z) : byte :=
  match Byte.of_N (Z.to_N (z mod 256)) with
  | Some b => b
  | None => x00
  end.

Lemma byte_val_range b : 0 <= byte_val b < 256.
Proof. unfold byte_val. pose proof (Byte.to_N_bounded b). lia. Qed.

Lemma byte_val_to_byte z : byte_val (to_byte z) = z mod 256.
Proof.
  unfold byte_val, to_byte.
  pose proof (Z.mod_pos_bound z 256 ltac:(lia)) as Hz.
  destruct (Byte.of_N _) as [b|] eqn:E.
  - apply Byte.to_of_N in E. rewrite E. lia.
  - apply Byte.of_N_None_iff in E. lia.
Qed.

Lemma byte_val_inj b c : byte_val b = byte_val c -> b = c.
Proof.
  unfold byte_val. intros H%N2Z.inj.
  pose proof (Byte.of_to_N b) as Hb. pose proof (Byte.of_to_N c) as Hc.
  rewrite H in Hb. congruence.
Qed.

Lemma to_byte_val b : to_byte (byte_val b) = b.
Proof.
  apply byte_val_inj. rewrite byte_val_to_byte.
  apply Z.mod_small, byte_val_range.
Qed.

#[global] Instance byte_eq_dec : EqDecision byte := Byte.byte_eq_dec.
Lemma byte_decode_N b : default x00 (Byte.of_N (Byte.to_N b)) = b.
Proof. by rewrite Byte.of_to_N. Qed.
#[global] Instance byte_countable : Countable byte :=
  inj_countable' Byte.to_N (fun n => default x00 (Byte.of_N n)) byte_decode_N.

(** ** Little-endian integers *)

(** [binary.LittleEndian.PutUintN]: [n] bytes, least significant first. *)
Fixpoint le_put (n : nat) (z : Z) : bytes :=
  match n with
  | O => []
  | S n => to_byte z :: le_put n (Z.shiftr z 8)
  end.

(** [binary.LittleEndian.UintN] of the bytes it is given. *)
Fixpoint le_get (l : bytes) : Z :=
  match l with
  | [] => 0
  | b :: l => Z.lor (byte_val b) (Z.shiftl (le_get l) 8)
  end.

Definition put_u32 (z : Z) : bytes := le_put 4 z.
Definition put_u64 (z : Z) : bytes := le_put 8 z.

(** Reads at an offset: [binary.LittleEndian.Uint64(data[off:])] panics when
    fewer than eight bytes remain. *)
Definition get_u32 (data : bytes) (off : Z) : res Z :=
  let* b := slice data off (off + 4) in Ok (le_get b).
Definition get_u64 (data : bytes) (off : Z) : res Z :=
  let* b := slice data off (off + 8) in Ok (le_get b).

#[global] Arguments put_u32 : simpl never.
#[global] Arguments put_u64 : simpl never.
#[global] Arguments get_u32 : simpl never.
#[global] Arguments get_u64 : simpl never.

Lemma lor_shiftl_add a b : 0 <= a < 256 -> Z.lor a (Z.shiftl b 8) = a + 256 * b.
Proof.
  intros Ha. pose proof (Z.add_lor_land a (Z.shiftl b 8)) as Hsum.
  enough (Z.land a (Z.shiftl b 8) = 0).
  - rewrite Z.shiftl_mul_pow2 in * by lia. lia.
  - apply Z.bits_inj'. intros n Hn.
    rewrite Z.land_spec, Z.bits_0.
    destruct (Z.ltb_spec n 8).
    + rewrite Z.shiftl_spec_low by lia. apply andb_false_r.
    + rewrite (Z.bits_above_log2 a n); [done | lia |].
      destruct (Z.eq_dec a 0) as [->|]; [simpl; lia |].
      apply Z.log2_lt_pow2; [lia |].
      apply Z.lt_le_trans with (2 ^ 8); [lia | apply Z.pow_le_mono_r; lia].
Qed.

Lemma le_get_cons b l : le_get (b :: l) = byte_val b + 256 * le_get l.
Proof. simpl le_get. apply lor_shiftl_add, byte_val_range. Qed.

Lemma le_put_length n z : length (le_put n z) = n.
Proof. revert z; induction n; intros; simpl; auto. Qed.

Lemma len_le_put n z : len (le_put n z) = Z.of_nat n.
Proof. unfold len. by rewrite le_put_length. Qed.

Lemma length_put_u32 z : length (put_u32 z) = 4%nat.
Proof. apply le_put_length. Qed.
Lemma length_put_u64 z : length (put_u64 z) = 8%nat.
Proof. apply le_put_length. Qed.
Lemma len_put_u32 z : len (put_u32 z) = 4.
Proof. apply len_le_put. Qed.
Lemma len_put_u64 z : len (put_u64 z) = 8.
Proof. apply len_le_put. Qed.
#[export] Hint Rewrite len_put_u32 len_put_u64 len_le_put : len.

Lemma le_get_put n z : le_get (le_put n z) = z mod 256 ^ Z.of_nat n.
Proof.
  revert z; induction n as [|n IH]; intros z.
  { simpl. by rewrite Z.mod_1_r. }
  cbn [le_put]. rewrite le_get_cons, byte_val_to_byte, IH.
  rewrite Z.shiftr_div_pow2 by lia.
  change (2 ^ 8) with 256.
  rewrite Nat2Z.inj_succ, Z.pow_succ_r by lia.
  by rewrite Z.rem_mul_r by lia.
Qed.

Lemma le_get_range l : 0 <= le_get l < 256 ^ len l.
Proof.
  induction l as [|b l IH]; [vm_compute; split; congruence |].
  rewrite le_get_cons, len_cons, Z.pow_add_r by len_lia.
  pose proof (byte_val_range b). lia.
Qed.

Lemma le_put_get l : le_put (length l) (le_get l) = l.
Proof.
  induction l as [|b l IH]; [done |].
  cbn [length le_put]. rewrite le_get_cons.
  pose proof (byte_val_range b). f_equal.
  - apply byte_val_inj. rewrite byte_val_to_byte.
    rewrite Z.mul_comm, Z.mod_add by lia. by apply Z.mod_small.
  - rewrite Z.shiftr_div_pow2 by lia. change (2 ^ 8) with 256.
    rewrite Z.mul_comm, Z.div_add by lia.
    by rewrite Z.div_small, Z.add_0_l by lia.
Qed.

Lemma le_get_put_u32 z : le_get (put_u32 z) = u32 z.
Proof. apply (le_get_put 4). Qed.
Lemma le_get_put_u64 z : le_get (put_u64 z) = u64 z.
Proof. apply (le_get_put 8). Qed.

(** A read of a field that follows a prefix of known length. *)
Lemma get_u32_at pre z suf off :
  off = len pre -> get_u32 (pre ++ put_u32 z ++ suf) off = Ok (u32 z).
Proof.
  intros ->. unfold get_u32. rewrite <- (len_put_u32 z).
  rewrite slice_mid. cbn [res_bind]. by rewrite le_get_put_u32.
Qed.
Lemma get_u64_at pre z suf off :
  off = len pre -> get_u64 (pre ++ put_u64 z ++ suf) off = Ok (u64 z).
Proof.
  intros ->. unfold get_u64. rewrite <- (len_put_u64 z).
  rewrite slice_mid. cbn [res_bind]. by rewrite le_get_put_u64.
Qed.

Lemma get_u32_inv data off v :
  get_u32 data off = Ok v -> is_u32 v.
Proof.
  unfold get_u32. intros H. bind_ok H b Hb. injection H as <-.
  apply slice_len in Hb. pose proof (le_get_range b).
  replace (len b) with 4 in * by lia. done.
Qed.
Lemma get_u32_no_panic data off :
  0 <= off -> off + 4 <= len data -> no_panic (get_u32 data off).
Proof.
  intros. unfold get_u32. apply no_panic_bind; [|auto with kv].
  apply slice_no_panic; lia.
Qed.
Lemma get_u64_no_panic data off :
  0 <= off -> off + 8 <= len data -> no_panic (get_u64 data off).
Proof.
  intros. unfold get_u64. apply no_panic_bind; [|auto with kv].
  apply slice_no_panic; lia.
Qed.

(** ** [hash/crc32] with the Castagnoli polynomial *)

Definition crc_poly : Z := 0x82f63b78.

(** One bit of the reflected division. *)
Definition crc_shift (c : Z) : Z :=
  if Z.testbit c 0 then Z.lxor (Z.shiftr c 1) crc_poly else Z.shiftr c 1.

Definition crc_byte (c : Z) (b : byte) : Z :=
  Nat.iter 8 crc_shift (Z.lxor c (byte_val b)).

(** [crc32.Checksum(data, crc32.MakeTable(crc32.Castagnoli))]. *)
Definition crc32c (data : bytes) : Z :=
  Z.lxor (fold_left crc_byte data 0xffffffff) 0xffffffff.

(** The standard check value of CRC-32C, over the ASCII digits 1 to 9. *)
Example crc32c_check_value :
  crc32c [x31; x32; x33; x34; x35; x36; x37; x38; x39] = 0xe3069283.
Proof. vm_compute. reflexivity. Qed.

Lemma lxor_u32 a b : is_u32 a -> is_u32 b -> is_u32 (Z.lxor a b).
Proof.
  unfold is_u32. intros Ha Hb. split; [apply Z.lxor_nonneg; lia |].
  destruct (Z.eq_dec (Z.lxor a b) 0) as [->|]; [lia |].
  apply Z.log2_lt_cancel. rewrite Z.log2_pow2 by lia.
  eapply Z.le_lt_trans; [apply Z.log2_lxor; lia |].
  apply Z.max_lub_lt;
    match goal with |- Z.log2 ?x < _ => destruct (Z.eq_dec x 0) as [->|] end;
    solve [vm_compute; done | apply Z.log2_lt_pow2; lia].
Qed.

Lemma crc_shift_range c : is_u32 c -> is_u32 (crc_shift c).
Proof.
  intros Hc. assert (Hs : is_u32 (Z.shiftr c 1)).
  { unfold is_u32 in *. rewrite Z.shiftr_div_pow2 by lia. change (2 ^ 1) with 2.
    split; [apply Z.div_pos; lia | apply Z.div_lt_upper_bound; lia]. }
  unfold crc_shift. destruct (Z.testbit c 0); [|done].
  apply lxor_u32; [done | unfold is_u32, crc_poly; lia].
Qed.

Lemma crc32c_range data : is_u32 (crc32c data).
Proof.
  unfold crc32c. apply lxor_u32; [|unfold is_u32; lia].
  generalize (4294967295) as c, (ltac:(unfold is_u32; lia) : is_u32 4294967295).
  induction data as [|b data IH]; intros c Hc; [done |]. cbn [fold_left].
  apply IH. unfold crc_byte.
  assert (H : is_u32 (Z.lxor c (byte_val b))).
  { apply lxor_u32; [done |]. unfold is_u32. pose proof (byte_val_range b). lia. }
  revert H. generalize (Z.lxor c (byte_val b)) as x.
  generalize 8%nat as n. induction n; intros x Hx; [done |].
  cbn [Nat.iter nat_rect]. apply crc_shift_range, IHn, Hx.
Qed.

#[global] Opaque crc32c.

(** ** Reading fields in sequence

    A decoder reads fields at increasing offsets of one buffer.  When the
    buffer is a concatenation of encoded fields, a read either skips the
    leading field or hits it. *)

Lemma slice_skip {A} (pre l : list A) a b :
  len pre <= a -> slice (pre ++ l) a b = slice l (a - len pre) (b - len pre).
Proof.
  intros Ha. unfold slice. rewrite len_app. pose_len.
  replace (0 <=? a - len pre) with (0 <=? a) by lia.
  replace (a - len pre <=? b - len pre) with (a <=? b) by lia.
  replace (b - len pre <=? len l) with (b <=? len pre + len l) by lia.
  destruct (_ && _); [|done]. do 2 f_equal; [lia |].
  unfold len in *. rewrite drop_app_ge by lia. f_equal. lia.
Qed.

Lemma slice_hit {A} (l suf : list A) a b :
  a = 0 -> b = len l -> slice (l ++ suf) a b = Ok l.
Proof.
  intros -> ->. replace (len l) with (len (@nil A) + len l) by len_lia.
  apply (slice_mid [] l suf).
Qed.

Lemma slice_all {A} (l : list A) a b : a = 0 -> b = len l -> slice l a b = Ok l.
Proof. intros. rewrite <- (app_nil_r l) at 1. by apply slice_hit. Qed.

Lemma get_u32_skip pre l off :
  len pre <= off -> get_u32 (pre ++ l) off = get_u32 l (off - len pre).
Proof.
  intros. unfold get_u32. rewrite slice_skip by done.
  do 2 f_equal. lia.
Qed.
Lemma get_u64_skip pre l off :
  len pre <= off -> get_u64 (pre ++ l) off = get_u64 l (off - len pre).
Proof.
  intros. unfold get_u64. rewrite slice_skip by done.
  do 2 f_equal. lia.
Qed.
Lemma get_u32_hit z suf off : off = 0 -> get_u32 (put_u32 z ++ suf) off = Ok (u32 z).
Proof. intros. by apply (get_u32_at []). Qed.
Lemma get_u64_hit z suf off : off = 0 -> get_u64 (put_u64 z ++ suf) off = Ok (u64 z).
Proof. intros. by apply (get_u64_at []). Qed.
Lemma index_skip {A} (pre l : list A) i :
  len pre <= i -> index (pre ++ l) i = index l (i - len pre).
Proof.
  intros Hi. unfold index, len in *.
  rewrite !(proj2 (Z.leb_le 0 _)) by lia.
  rewrite lookup_app_r by lia.
  by replace (Z.to_nat i - length pre)%nat
    with (Z.to_nat (i - Z.of_nat (length pre))) by lia.
Qed.
Lemma index_hit {A} (x : A) suf i : i = 0 -> index ([x] ++ suf) i = Ok x.
Proof. by intros ->. Qed.

(** Evaluates the next read of a decoder run on encoded fields. *)
Ltac read_field :=
  repeat first
    [ rewrite get_u64_hit by len_lia
    | rewrite get_u32_hit by len_lia
    | rewrite index_hit by len_lia
    | rewrite slice_hit by len_lia
    | rewrite slice_all by len_lia
    | rewrite get_u64_skip by len_lia
    | rewrite get_u32_skip by len_lia
    | rewrite index_skip by len_lia
    | rewrite slice_skip by len_lia ];
  cbn [res_bind].

Lemma index_no_panic {A} (l : list A) i : 0 <= i < len l -> no_panic (index l i).
Proof.
  unfold index, len. intros Hi. rewrite (proj2 (Z.leb_le 0 i)) by lia.
  destruct (lookup_lt_is_Some_2 l (Z.to_nat i) ltac:(lia)) as [x ->].
  discriminate.
Qed.

Lemma guard_u32 x v : 0 <= x -> (u32 x <? v) = false -> v <= x.
Proof. intros Hx H%Z.ltb_ge. pose proof (u32_le x Hx). lia. Qed.

(** Walks through a decoder and discharges the bounds check of every read
    from the guards passed so far. *)
Ltac np_facts :=
  repeat match goal with
  | H : get_u32 _ _ = Ok _ |- _ => apply get_u32_inv in H; unfold is_u32 in H
  | H : (u32 _ <? _) = false |- _ => apply guard_u32 in H; [|lia]
  | H : (_ <? _) = false |- _ => apply Z.ltb_ge in H
  | H : (_ <? _) = true |- _ => apply Z.ltb_lt in H
  end.
Ltac np :=
  repeat match goal with
  | |- no_panic (Ok _) => apply no_panic_ok
  | |- no_panic (Err _) => apply no_panic_err
  | |- no_panic (if ?b then _ else _) => destruct b eqn:?
  | |- no_panic (res_bind _ _) => apply no_panic_bind; [|intros ? ?]
  | |- no_panic (slice _ _ _) => np_facts; apply slice_no_panic; pose_len; lia
  | |- no_panic (get_u32 _ _) => np_facts; apply get_u32_no_panic; pose_len; lia
  | |- no_panic (get_u64 _ _) => np_facts; apply get_u64_no_panic; pose_len; lia
  | |- no_panic (index _ _) => np_facts; apply index_no_panic; pose_len; lia
  end.
