(* ===== verification/GoSort.v ===== *)
(** * [bytes.Compare], [bytes.Equal] and [sort.Search]

    The ordering of keys that the memtable and the tables share, with its
    order laws, sorted key lists, and Go's binary search. *)

From Stdlib Require Import Strings.Byte.
From Stdlib Require Export Sorting.Sorted.
From S2P Require Import Prelude GoBytes.

(** ** [bytes.Compare] *)

(** Lexicographic, byte by byte, a prefix before its extensions. *)
Fixpoint compare (a b : bytes) : Z :=
  match a, b with
  | [], [] => 0
  | [], _ => -1
  | _, [] => 1
  | x :: a, y :: b =>
      if byte_val x <? byte_val y then -1
      else if byte_val y <? byte_val x then 1
      else compare a b
  end.

(** [bytes.Equal] *)
Definition equal (a b : bytes) : bool := bool_decide (a = b).

Definition key_lt (a b : bytes) : Prop := compare a b < 0.
Definition key_le (a b : bytes) : Prop := compare a b <= 0.
#[global] Instance key_lt_dec a b : Decision (key_lt a b).
Proof. unfold key_lt. apply _. Defined.
#[global] Instance key_le_dec a b : Decision (key_le a b).
Proof. unfold key_le. apply _. Defined.

Lemma compare_refl a : compare a a = 0.
Proof. induction a as [|x a IH]; [done |]. simpl. by rewrite Z.ltb_irrefl. Qed.

Lemma compare_antisym a : forall b, compare b a = - compare a b.
Proof.
  induction a as [|x a IH]; intros [|y b]; try done. simpl.
  destruct (Z.ltb_spec (byte_val x) (byte_val y)), (Z.ltb_spec (byte_val y) (byte_val x)); try done; lia.
Qed.

Lemma compare_eq a : forall b, compare a b = 0 -> a = b.
Proof.
  induction a as [|x a IH]; intros [|y b]; try done. simpl.
  destruct (Z.ltb_spec (byte_val x) (byte_val y)), (Z.ltb_spec (byte_val y) (byte_val x)); try done.
  intros E%IH. f_equal; [| done]. apply byte_val_inj. lia.
Qed.

Lemma compare_trans a : forall b c, compare a b < 0 -> compare b c < 0 -> compare a c < 0.
Proof.
  induction a as [|x a IH]; intros [|y b] [|z c]; simpl; try done.
  destruct (Z.ltb_spec (byte_val x) (byte_val y)), (Z.ltb_spec (byte_val y) (byte_val z)),
    (Z.ltb_spec (byte_val x) (byte_val z)); try lia;
    destruct (Z.ltb_spec (byte_val y) (byte_val x)), (Z.ltb_spec (byte_val z) (byte_val y)),
    (Z.ltb_spec (byte_val z) (byte_val x)); try lia. apply IH.
Qed.

#[global] Instance key_lt_strict : StrictOrder key_lt.
Proof.
  split.
  - intros a. unfold complement, key_lt. rewrite compare_refl. lia.
  - intros a b c. apply compare_trans.
Qed.

Lemma key_lt_neq a b : key_lt a b -> a <> b.
Proof. intros H ->. exact (irreflexivity key_lt _ H). Qed.
Lemma key_le_cases a b : key_le a b <-> key_lt a b \/ a = b.
Proof.
  unfold key_le, key_lt. split.
  - intros H. destruct (Z.eq_dec (compare a b) 0) as [E|]; [right; by apply compare_eq | left; lia].
  - intros [? | ->]; [lia | rewrite compare_refl; lia].
Qed.
Lemma key_not_lt a b : ~ key_lt a b <-> key_le b a.
Proof. unfold key_lt, key_le. rewrite (compare_antisym b a). lia. Qed.
Lemma key_lt_le_trans a b c : key_lt a b -> key_le b c -> key_lt a c.
Proof. intros H [H2 | <-]%key_le_cases; [exact (transitivity H H2) | done]. Qed.
Lemma key_le_lt_trans a b c : key_le a b -> key_lt b c -> key_lt a c.
Proof. intros [H2 | <-]%key_le_cases H; [exact (transitivity H2 H) | done]. Qed.

(** The tests the code makes. *)
Lemma compare_ltb a b : (compare a b <? 0) = bool_decide (key_lt a b).
Proof. destruct (Z.ltb_spec (compare a b) 0); symmetry;
    [by apply bool_decide_eq_true | apply bool_decide_eq_false; unfold key_lt; lia]. Qed.

(** ** Strictly sorted key lists *)

Abbreviation sorted := (StronglySorted key_lt).

Lemma sorted_app l k :
  sorted (l ++ k) <-> sorted l /\ sorted k /\ (forall a b, a ∈ l -> b ∈ k -> key_lt a b).
Proof.
  induction l as [|x l IH]; simpl.
  - split; [intros; split_and!; [constructor | done | by intros ? ? ?%not_elem_of_nil] | by intros (_ & ? & _)].
  - split.
    + intros [H Hx]%StronglySorted_inv. apply Forall_app in Hx as [Hl Hk]. apply IH in H as (? & ? & Hlt).
      split_and!; [by constructor | done |]. intros a b [-> | Ha]%elem_of_cons Hb; [| by apply Hlt].
      by apply (proj1 (Forall_forall _ _) Hk).
    + intros ([H Hx]%StronglySorted_inv & Hk & Hlt). constructor.
      * apply IH. split_and!; [done | done |]. intros a b Ha Hb. apply Hlt; [by right | done].
      * apply Forall_app. split; [done |]. apply Forall_forall. intros b Hb. apply Hlt; [by left | done].
Qed.

Lemma sorted_NoDup l : sorted l -> NoDup l.
Proof.
  induction l as [|x l IH]; [constructor |]. intros [H Hx]%StronglySorted_inv. constructor; [| by apply IH].
  intros Hin. rewrite Forall_forall in Hx. exact (irreflexivity key_lt _ (Hx _ Hin)).
Qed.

Lemma sorted_lookup {A} (f : A -> bytes) l i j x y :
  sorted (f <$> l) -> l !! i = Some x -> l !! j = Some y -> (i < j)%nat -> key_lt (f x) (f y).
Proof.
  intros Hs Hi Hj Hij. rewrite <- (take_drop_middle l i x Hi), fmap_app, fmap_cons in Hs.
  apply sorted_app in Hs as (_ & [_ Hall]%StronglySorted_inv & _). rewrite Forall_forall in Hall.
  apply Hall, list_elem_of_fmap. exists y. split; [done |].
  apply (list_elem_of_lookup_2 _ (j - S i)). rewrite lookup_drop.
  by replace (S i + (j - S i))%nat with j by lia.
Qed.

(** Dropping what precedes a position where the keys reach [target]. *)
Lemma sorted_cut {A} (f : A -> bytes) l n target :
  (forall i x, l !! i = Some x -> (i < n)%nat -> key_lt (f x) target) ->
  (forall i x, l !! i = Some x -> (n <= i)%nat -> key_le target (f x)) ->
  drop n l = filter (fun x => key_le target (f x)) l.
Proof.
  intros Hlo Hhi. rewrite <- (take_drop n l) at 2. rewrite filter_app.
  rewrite (filter_none _ (take n l)), filter_id; [done | |]; apply Forall_forall;
    intros x (i & Hi)%list_elem_of_lookup.
  - rewrite lookup_drop in Hi. by apply (Hhi (n + i)%nat); [| lia].
  - apply lookup_take_Some in Hi as [Hi Hir]. rewrite <- key_not_lt. intros H.
    by apply H, (Hlo i).
Qed.

(** ** [sort.Search] *)

(** [for i < j { h := int(uint(i+j) >> 1); ... }]; [f] may panic. *)
Fixpoint search_loop (fuel : nat) (f : Z -> res bool) (i j : Z) : res Z :=
  match fuel with
  | O => Ok i
  | S fuel =>
      if i <? j then
        let h := Z.shiftr (i + j) 1 in
        let* b := f h in
        if b then search_loop fuel f i h else search_loop fuel f (h + 1) j
      else Ok i
  end.

(** Every round halves [j - i], which starts at [n]. *)
Definition search (n : Z) (f : Z -> res bool) : res Z := search_loop (S (Z.to_nat n)) f 0 n.

Lemma search_loop_spec fuel : forall f (g : Z -> bool) i j n,
  (forall k, 0 <= k < n -> f k = Ok (g k)) ->
  (forall k l, 0 <= k -> k <= l -> l < n -> g k = true -> g l = true) ->
  0 <= i <= j -> j <= n -> (Z.to_nat (j - i) < fuel)%nat ->
  (forall k, 0 <= k < i -> g k = false) -> (forall k, j <= k < n -> g k = true) ->
  exists r, search_loop fuel f i j = Ok r /\ 0 <= r <= n /\
    (forall k, 0 <= k < r -> g k = false) /\ (forall k, r <= k < n -> g k = true).
Proof.
  induction fuel as [|fuel IH]; intros f g i j n Hf Hm Hij Hjn Hfuel Hlo Hhi; [lia |]. cbn [search_loop].
  destruct (Z.ltb_spec i j).
  - set (h := Z.shiftr (i + j) 1).
    assert (i <= h < j) as Hh.
    { subst h. rewrite Z.shiftr_div_pow2 by lia. change (2 ^ 1) with 2.
      split; [apply Z.div_le_lower_bound; lia | apply Z.div_lt_upper_bound; lia]. }
    rewrite Hf by lia. cbn [res_bind]. destruct (g h) eqn:Hg.
    + apply (IH f g i h n); try done; try lia. intros k Hk. apply (Hm h k); done || lia.
    + apply (IH f g (h + 1) j n); try done; try lia. intros k Hk.
      destruct (g k) eqn:Hgk; [| done]. assert (g h = true) by (apply (Hm k h); done || lia). congruence.
  - exists i. split_and!; try done; try lia. intros k Hk. apply Hhi. lia.
Qed.

(** [sort.Search] finds the boundary of a monotone predicate. *)
Lemma search_spec n f (g : Z -> bool) :
  0 <= n -> (forall k, 0 <= k < n -> f k = Ok (g k)) ->
  (forall k l, 0 <= k -> k <= l -> l < n -> g k = true -> g l = true) ->
  exists r, search n f = Ok r /\ 0 <= r <= n /\
    (forall k, 0 <= k < r -> g k = false) /\ (forall k, r <= k < n -> g k = true).
Proof.
  intros Hn Hf Hm. apply (search_loop_spec _ f g 0 n n); try done; try lia; intros; lia.
Qed.

(** The search both iterators and readers make: the first element of a list
    sorted by key whose key reaches [target]. *)
Lemma search_sorted {A} (f : A -> bytes) l target :
  sorted (f <$> l) ->
  exists r : nat,
    search (len l) (fun i => let* e := index l i in Ok (0 <=? compare (f e) target)) = Ok (Z.of_nat r) /\
    (r <= length l)%nat /\
    (forall i x, l !! i = Some x -> (i < r)%nat -> key_lt (f x) target) /\
    (forall i x, l !! i = Some x -> (r <= i)%nat -> key_le target (f x)).
Proof.
  intros Hs. set (g := fun i => match l !! Z.to_nat i with
                                | Some e => 0 <=? compare (f e) target | None => true end).
  destruct (search_spec (len l) (fun i => let* e := index l i in Ok (0 <=? compare (f e) target)) g)
    as (r & Hr & Hb & Hlo & Hhi); [apply len_nonneg | | |].
  - intros i Hi. subst g. unfold index. simpl. rewrite (proj2 (Z.leb_le 0 i)) by lia.
    destruct (lookup_lt_is_Some_2 l (Z.to_nat i)) as [e ->]; [unfold len in *; lia | done].
  - intros i j Hi Hij Hj. subst g. simpl. destruct (l !! Z.to_nat j) as [e'|] eqn:Ej; [| done].
    destruct (decide (i = j)) as [-> | Hne]; [by rewrite Ej |].
    destruct (l !! Z.to_nat i) as [e|] eqn:Ei.
    2:{ apply lookup_ge_None_1 in Ei. apply lookup_lt_Some in Ej. lia. }
    rewrite !Z.leb_le, !(compare_antisym target). intros Hge.
    pose proof (sorted_lookup f l _ _ e e' Hs Ei Ej ltac:(lia)) as Hlt.
    pose proof (key_le_lt_trans target (f e) (f e') ltac:(unfold key_le; lia) Hlt) as H. unfold key_lt in H. lia.
  - exists (Z.to_nat r). rewrite Hr, Z2Nat.id by lia. unfold len in *. split_and!; [done | lia | |];
      intros i e Hi Hir; pose proof (lookup_lt_Some _ _ _ Hi).
    + specialize (Hlo (Z.of_nat i) ltac:(lia)). subst g. simpl in Hlo. rewrite Nat2Z.id, Hi in Hlo.
      apply Z.leb_gt in Hlo. done.
    + specialize (Hhi (Z.of_nat i) ltac:(lia)). subst g. simpl in Hhi. rewrite Nat2Z.id, Hi in Hhi.
      apply Z.leb_le in Hhi. unfold key_le. rewrite compare_antisym. lia.
Qed.
