(* ===== verification/Wal.v ===== *)
(** * Write-ahead log: record framing, the appender, and replay

    Models src/wal/record.go ([encode], [decodePayload]), src/wal/wal.go
    ([Open], [AppendBatch], [Sync], [Close]) and src/wal/replay.go
    ([replayFrom], [truncateAndReturn]). *)

From Stdlib Require Import Strings.Byte.
From S2P Require Import Prelude GoBytes.

(** ** Records and framing (record.go) *)
Module Record.

(** [RecordType] is a [uint8]; decoding accepts every value of it. *)
Definition RecordType := byte.
Definition RecordPut : RecordType := x00.
Definition RecordDelete : RecordType := x01.

Record t := mk {
  SeqNum : Z;
  Type_ : RecordType;
  Key : bytes;
  Value : bytes
}.

#[global] Instance t_eq_dec : EqDecision t.
Proof. solve_decision. Defined.

Definition headerSize : Z := 8.

(** The payload [encode] lays out behind the header. *)
Definition payload (rec : t) : bytes :=
  [Type_ rec] ++ put_u64 (SeqNum rec) ++ put_u32 (len (Key rec)) ++ Key rec ++
  put_u32 (len (Value rec)) ++ Value rec.

Definition encode (rec : t) : bytes :=
  let p := payload rec in
  put_u32 (crc32c p) ++ put_u32 (len p) ++ p.

#[global] Arguments payload : simpl never.
#[global] Arguments encode : simpl never.

Definition errCorruptRecord : error := Errorf "wal: corrupt record".

Definition decodePayload (payload : bytes) : res t :=
  if len payload <? 13 then Err errCorruptRecord else
  let* ty := index payload 0 in
  let* seq := get_u64 payload 1 in
  let* keyLen := get_u32 payload 9 in
  let off := 13 in
  if u32 (len payload - off) <? keyLen then Err errCorruptRecord else
  let* key := slice payload off (off + keyLen) in
  let off := off + keyLen in
  if len payload - off <? 4 then Err errCorruptRecord else
  let* valLen := get_u32 payload off in
  let off := off + 4 in
  if u32 (len payload - off) <? valLen then Err errCorruptRecord else
  let* value := (if 0 <? valLen then slice payload off (off + valLen) else Ok []) in
  Ok (mk seq ty key value).

(** What fits the on-disk format: a 64-bit sequence number and a payload
    whose length, like those of its key and value, fits 32 bits. *)
Definition wf (rec : t) : Prop :=
  is_u64 (SeqNum rec) /\ len (payload rec) < 2 ^ 32.

Lemma len_payload rec :
  len (payload rec) = 17 + len (Key rec) + len (Value rec).
Proof. unfold payload. len_lia. Qed.

Lemma len_encode rec : len (encode rec) = 8 + len (payload rec).
Proof. unfold encode. cbv zeta. len_lia. Qed.

Lemma decodePayload_payload rec : wf rec -> decodePayload (payload rec) = Ok rec.
Proof.
  intros [Hseq Hlen]. rewrite len_payload in Hlen.
  unfold decodePayload. rewrite len_payload. pose_len.
  rewrite (proj2 (Z.ltb_ge _ _)) by lia.
  destruct rec as [seq ty key value]; simpl in *.
  unfold payload; simpl SeqNum; simpl Type_; simpl Key; simpl Value.
  read_field. rewrite !u64_small, !u32_small by (unfold is_u32; lia || done).
  rewrite (proj2 (Z.ltb_ge _ _)) by lia.
  read_field. rewrite (proj2 (Z.ltb_ge _ _)) by lia.
  read_field. rewrite !u32_small by (unfold is_u32; lia).
  rewrite (proj2 (Z.ltb_ge _ _)) by lia.
  destruct (Z.ltb_spec 0 (len value)).
  - by read_field.
  - by rewrite (len_zero value) by lia.
Qed.

Lemma decodePayload_no_panic p : no_panic (decodePayload p).
Proof. unfold decodePayload. np. Qed.

End Record.

(** ** Replay (replay.go) *)
Module Replay.
Import Record.

(** The [replaySource] of the replay loop: the bytes of the file, the offset
    from which reads fail with an I/O error other than end of file (if any),
    and whether [Truncate] fails. *)
Record replaySource := {
  rs_data : bytes;
  rs_fault : option Z;
  rs_truncate_fails : bool
}.

(** A healthy file with the given contents. *)
Definition healthy (data : bytes) : replaySource :=
  {| rs_data := data; rs_fault := None; rs_truncate_fails := false |}.

(** The outcomes of [io.ReadFull]: all bytes, [io.EOF] with none read,
    [io.ErrUnexpectedEOF], and another error after [n] bytes. *)
Inductive read_result :=
  | RFull (b : bytes)
  | REOF
  | RUnexpectedEOF
  | RFail (n : Z).

Definition readFull (f : replaySource) (pos n : Z) : read_result :=
  let readable := match rs_fault f with
                  | Some k => take (Z.to_nat k) (rs_data f)
                  | None => rs_data f
                  end in
  let rem := drop (Z.to_nat pos) readable in
  if n <=? len rem then RFull (take (Z.to_nat n) rem)
  else match rs_fault f with
       | Some _ => RFail (len rem)
       | None => if len rem =? 0 then REOF else RUnexpectedEOF
       end.

Record RecoveryStats := {
  RecordsRecovered : Z;
  TornWriteTruncated : bool;
  BytesTruncated : Z
}.

#[global] Instance RecoveryStats_eq_dec : EqDecision RecoveryStats.
Proof. solve_decision. Defined.

(** What a replay leaves behind: the records, the statistics, the file. *)
Definition outcome := (list t * RecoveryStats * bytes)%type.

Definition truncateAndReturn (f : replaySource) (records : list t)
    (validOffset fileSize : Z) : res outcome :=
  let truncated := fileSize - validOffset in
  if rs_truncate_fails f then
    Err (Wrapf "wal: truncate torn tail" (Errorf "truncate"))
  else Ok (records,
           {| RecordsRecovered := len records;
              TornWriteTruncated := 0 <? truncated;
              BytesTruncated := truncated |},
           take (Z.to_nat validOffset) (rs_data f)).

(** The body of the [for] loop; [fuel] bounds the number of records, each of
    which takes at least a header. *)
Fixpoint replay_loop (fuel : nat) (f : replaySource) (fileSize : Z)
    (records : list t) (offset : Z) : res outcome :=
  match fuel with
  | O => Panic
  | S fuel =>
    match readFull f offset headerSize with
    | REOF =>
        Ok (records,
            {| RecordsRecovered := len records;
               TornWriteTruncated := false;
               BytesTruncated := 0 |},
            rs_data f)
    | RUnexpectedEOF => truncateAndReturn f records offset fileSize
    | RFail n =>
        if (0 <? n) && (n <? headerSize)
        then truncateAndReturn f records offset fileSize
        else Err (Wrapf "wal: read header" (Errorf "read"))
    | RFull header =>
        let* crc := get_u32 header 0 in
        let* length := get_u32 header 4 in
        let remaining := fileSize - offset - headerSize in
        if remaining <? length then truncateAndReturn f records offset fileSize
        else
          match readFull f (offset + headerSize) length with
          | RFull payload =>
              if negb (crc32c payload =? crc)
              then truncateAndReturn f records offset fileSize
              else
                match decodePayload payload with
                | Ok rec => replay_loop fuel f fileSize (records ++ [rec])
                              (offset + headerSize + length)
                | Err _ => truncateAndReturn f records offset fileSize
                | Panic => Panic
                end
          | _ => truncateAndReturn f records offset fileSize
          end
    end
  end.

Definition replayFrom (f : replaySource) (fileSize : Z) : res outcome :=
  replay_loop (S (length (rs_data f))) f fileSize [] 0.

(** [Replay(path)]: a missing file replays to nothing. *)
Definition Replay (file : option replaySource)
    : res (list t * RecoveryStats * option bytes) :=
  match file with
  | None => Ok ([], {| RecordsRecovered := 0; TornWriteTruncated := false;
                       BytesTruncated := 0 |}, None)
  | Some f =>
      let* '(records, stats, data) := replayFrom f (len (rs_data f)) in
      Ok (records, stats, Some data)
  end.

(** *** Reading at an offset of a healthy file *)

Lemma readFull_healthy pre b suf n :
  n = len b -> readFull (healthy (pre ++ b ++ suf)) (len pre) n = RFull b.
Proof.
  intros ->. unfold readFull; simpl. rewrite drop_len_app, take_len_app.
  by rewrite (proj2 (Z.leb_le _ _)) by len_lia.
Qed.

Lemma readFull_short pre b n :
  len b < n ->
  readFull (healthy (pre ++ b)) (len pre) n
  = if len b =? 0 then REOF else RUnexpectedEOF.
Proof.
  intros Hn. unfold readFull; simpl. rewrite drop_len_app.
  by rewrite (proj2 (Z.leb_gt _ _)) by lia.
Qed.

Definition clean (records : list t) : RecoveryStats :=
  {| RecordsRecovered := len records; TornWriteTruncated := false;
     BytesTruncated := 0 |}.
Definition torn (records : list t) (n : Z) : RecoveryStats :=
  {| RecordsRecovered := len records; TornWriteTruncated := 0 <? n;
     BytesTruncated := n |}.

Lemma truncate_healthy pre suf records :
  truncateAndReturn (healthy (pre ++ suf)) records (len pre) (len (pre ++ suf))
  = Ok (records, torn records (len suf), pre).
Proof.
  unfold truncateAndReturn, torn; simpl. rewrite len_app.
  rewrite take_len_app.
  by replace (len pre + len suf - len pre) with (len suf) by lia.
Qed.

Lemma loop_end fuel pre records :
  replay_loop (S fuel) (healthy pre) (len pre) records (len pre)
  = Ok (records, clean records, pre).
Proof.
  cbn [replay_loop].
  pose proof (readFull_short pre [] headerSize eq_refl) as H.
  rewrite app_nil_r in H. by rewrite H.
Qed.

(** A complete frame at the current offset is decoded and consumed. *)
Lemma loop_record fuel pre rec suf records :
  wf rec ->
  replay_loop (S fuel) (healthy (pre ++ encode rec ++ suf))
    (len (pre ++ encode rec ++ suf)) records (len pre)
  = replay_loop fuel (healthy (pre ++ encode rec ++ suf))
      (len (pre ++ encode rec ++ suf)) (records ++ [rec])
      (len (pre ++ encode rec)).
Proof.
  intros Hwf. cbn [replay_loop]. unfold encode at 1; cbv zeta.
  set (p := payload rec). set (d := pre ++ encode rec ++ suf).
  rewrite <- !app_assoc, (app_assoc (put_u32 _)).
  rewrite readFull_healthy by (unfold headerSize; len_lia).
  rewrite <- (app_nil_r (_ ++ put_u32 (len p))), <- app_assoc. read_field.
  pose proof (proj2 Hwf) as Hp. fold p in Hp.
  rewrite !u32_small by (apply crc32c_range || (unfold is_u32; pose_len; lia)).
  rewrite (proj2 (Z.ltb_ge _ _))
    by (unfold d, headerSize; rewrite !len_app, len_encode; fold p; len_lia).
  replace d with ((pre ++ put_u32 (crc32c p) ++ put_u32 (len p)) ++ p ++ suf)
    by (unfold d, encode; cbv zeta; by rewrite <- !app_assoc).
  replace (len pre + headerSize)
    with (len (pre ++ put_u32 (crc32c p) ++ put_u32 (len p)))
    by (unfold headerSize; len_lia).
  rewrite readFull_healthy by done. rewrite Z.eqb_refl. simpl negb. cbv iota.
  rewrite (decodePayload_payload rec Hwf : decodePayload p = Ok rec).
  f_equal. unfold encode; cbv zeta. fold p. unfold headerSize. len_lia.
Qed.

(** A frame cut short, at the current offset, ends the replay there. *)
Lemma loop_torn fuel pre rec k records :
  wf rec -> (k < length (encode rec))%nat -> (0 < k)%nat ->
  replay_loop (S fuel) (healthy (pre ++ take k (encode rec)))
    (len (pre ++ take k (encode rec))) records (len pre)
  = Ok (records, torn records (Z.of_nat k), pre).
Proof.
  intros Hwf Hk Hk0. cbn [replay_loop].
  set (fr := take k (encode rec)).
  assert (Hfr : len fr = Z.of_nat k) by (unfold fr, len; rewrite length_take; lia).
  assert (HlenZ : len (encode rec) = Z.of_nat (length (encode rec))) by done.
  rewrite len_encode in HlenZ. rewrite <- Hfr.
  destruct (decide (k < 8)%nat) as [Hk8|Hk8].
  { rewrite readFull_short by (unfold headerSize; lia).
    rewrite (proj2 (Z.eqb_neq _ _)) by lia. apply truncate_healthy. }
  set (p := payload rec) in *.
  assert (Hsplit : fr = (put_u32 (crc32c p) ++ put_u32 (len p)) ++ take (k - 8) p).
  { unfold fr, encode; cbv zeta. fold p. rewrite app_assoc, take_app_ge by
      (rewrite length_app, !length_put_u32; lia).
    by rewrite length_app, !length_put_u32. }
  rewrite Hsplit at 1. rewrite readFull_healthy by (unfold headerSize; len_lia).
  rewrite <- (app_nil_r (_ ++ put_u32 (len p))), <- app_assoc. read_field.
  pose proof (proj2 Hwf) as Hp. fold p in Hp.
  rewrite !u32_small by (apply crc32c_range || (unfold is_u32; pose_len; lia)).
  rewrite (proj2 (Z.ltb_lt _ _)) by (unfold headerSize; rewrite len_app; lia).
  apply truncate_healthy.
Qed.

(** *** Replaying what an appender wrote *)

Definition encode_all (recs : list t) : bytes := concat (map encode recs).

Lemma encode_all_cons rec recs : encode_all (rec :: recs) = encode rec ++ encode_all recs.
Proof. done. Qed.
Lemma encode_all_app r1 r2 : encode_all (r1 ++ r2) = encode_all r1 ++ encode_all r2.
Proof. unfold encode_all. by rewrite map_app, concat_app. Qed.

(** The records whose frames lie entirely within the first [n] bytes. *)
Fixpoint complete (recs : list t) (n : nat) : list t :=
  match recs with
  | [] => []
  | r :: rs => if (length (encode r) <=? n)%nat
               then r :: complete rs (n - length (encode r))%nat else []
  end.

Lemma complete_all recs n :
  (length (encode_all recs) <= n)%nat -> complete recs n = recs.
Proof.
  revert n; induction recs as [|r rs IH]; intros n Hn; [done |].
  rewrite encode_all_cons, length_app in Hn. cbn [complete].
  rewrite (proj2 (Nat.leb_le _ _)) by lia. rewrite IH by lia. done.
Qed.

Lemma complete_prefix recs n : complete recs n `prefix_of` recs.
Proof.
  revert n; induction recs as [|r rs IH]; intros n; cbn [complete]; [done |].
  destruct (_ <=? _)%nat; [apply prefix_cons, IH | apply prefix_nil].
Qed.

Lemma complete_app r1 r2 n :
  (length (encode_all r1) <= n)%nat ->
  complete (r1 ++ r2) n = r1 ++ complete r2 (n - length (encode_all r1)).
Proof.
  revert n; induction r1 as [|r rs IH]; intros n Hn; cbn [complete app].
  { by rewrite Nat.sub_0_r. }
  rewrite encode_all_cons, length_app in *. cbn [complete].
  rewrite (proj2 (Nat.leb_le _ _)) by lia. rewrite IH by lia. do 3 f_equal. lia.
Qed.

(** The bytes of an incomplete trailing frame, among the first [n]. *)
Definition tail_bytes (recs : list t) (n : nat) : nat :=
  (length (take n (encode_all recs)) - length (encode_all (complete recs n)))%nat.

Definition stats_of (records : list t) (n : nat) : RecoveryStats :=
  if (n =? 0)%nat then clean records else torn records (Z.of_nat n).

Lemma encode_length_pos rec : (8 < length (encode rec))%nat.
Proof.
  pose proof (len_encode rec) as H. pose proof (len_payload rec).
  unfold len at 1 in H. pose_len. lia.
Qed.

Lemma loop_encoded recs : forall n fuel pre records,
  Forall wf recs -> (n < fuel)%nat ->
  let d := pre ++ take n (encode_all recs) in
  replay_loop fuel (healthy d) (len d) records (len pre)
  = Ok (records ++ complete recs n,
        stats_of (records ++ complete recs n) (tail_bytes recs n),
        pre ++ encode_all (complete recs n)).
Proof.
  induction recs as [|r rs IH]; intros n fuel pre records Hwf Hfuel d; subst d.
  { simpl complete. unfold tail_bytes, encode_all; simpl. rewrite take_nil.
    rewrite !app_nil_r. destruct fuel; [lia |]. apply loop_end. }
  apply Forall_cons in Hwf as [Hr Hrs]. destruct fuel as [|fuel]; [lia |].
  pose proof (encode_length_pos r) as Hpos.
  rewrite encode_all_cons. unfold tail_bytes. rewrite encode_all_cons.
  cbn [complete]. destruct (Nat.leb_spec (length (encode r)) n) as [Hle|Hlt].
  - rewrite take_app_ge by lia. rewrite loop_record by done.
    rewrite app_assoc.
    rewrite (IH (n - length (encode r))%nat fuel (pre ++ encode r)) by (done || lia).
    rewrite encode_all_cons, <- !app_assoc. unfold tail_bytes.
    rewrite !length_app. cbn [app].
    rewrite Nat.sub_add_distr, (Nat.add_comm (length (encode r))), Nat.add_sub.
    done.
  - rewrite take_app_le by lia. rewrite !app_nil_r.
    rewrite length_take, Nat.min_l, Nat.sub_0_r by lia.
    destruct (decide (n = 0)%nat) as [->|Hn0].
    { rewrite take_0, app_nil_r. apply loop_end. }
    unfold stats_of. rewrite (proj2 (Nat.eqb_neq _ _)) by done.
    by apply loop_torn; [| lia..].
Qed.

(** *** Replay on arbitrary files *)

Lemma readFull_inv f pos n b :
  0 <= pos -> 0 < n -> readFull f pos n = RFull b ->
  len b = n /\ pos + n <= len (rs_data f) /\
  b = take (Z.to_nat n) (drop (Z.to_nat pos) (rs_data f)).
Proof.
  intros Hpos Hn. unfold readFull.
  set (rd := match rs_fault f with Some _ => _ | None => _ end).
  destruct (Z.leb_spec n (len (drop (Z.to_nat pos) rd))) as [Hle|];
    [| by destruct (rs_fault f); [|destruct (_ =? 0)]].
  intros [= <-]. unfold len in *. rewrite length_take, length_drop in *.
  destruct (rs_fault f) as [k|]; subst rd; [|split_and!; [lia | lia | done]].
  rewrite length_take in *. split_and!; [lia | lia |].
  by rewrite skipn_firstn_comm, take_take, Nat.min_l by lia.
Qed.

Lemma readFull_take data m pos n :
  0 <= pos -> 0 <= n -> pos + n <= m -> m <= len data ->
  readFull (healthy (take (Z.to_nat m) data)) pos n
  = RFull (take (Z.to_nat n) (drop (Z.to_nat pos) data)).
Proof.
  intros. unfold readFull; simpl. unfold len in *.
  rewrite skipn_firstn_comm, take_take, Nat.min_l by lia.
  by rewrite (proj2 (Z.leb_le _ _))
    by (rewrite length_take, length_drop; lia).
Qed.

Lemma truncateAndReturn_no_panic f records off size :
  no_panic (truncateAndReturn f records off size).
Proof. unfold truncateAndReturn. by destruct (rs_truncate_fails f). Qed.

Lemma loop_no_panic fuel : forall f size records off,
  0 <= off -> len (rs_data f) - off < Z.of_nat fuel ->
  (0 < fuel)%nat -> no_panic (replay_loop fuel f size records off).
Proof.
  induction fuel as [|fuel IH]; intros f size records off Hoff Hfuel Hpos; [lia |].
  cbn [replay_loop]. pose proof truncateAndReturn_no_panic as Htr.
  destruct (readFull f off headerSize) as [header| | |n] eqn:Hh;
    [| done | apply Htr | destruct (_ && _); [apply Htr | done]].
  apply readFull_inv in Hh as (Hhl & Hhr & _); [| lia | unfold headerSize; lia].
  unfold headerSize in *.
  apply no_panic_bind; [apply get_u32_no_panic; lia | intros crc _].
  apply no_panic_bind; [apply get_u32_no_panic; lia | intros length Hl].
  apply get_u32_inv in Hl. unfold is_u32 in Hl.
  destruct (_ <? _); [apply Htr |].
  destruct (readFull f _ length) as [payload| | |n]; [| apply Htr..].
  destruct (negb _); [apply Htr |].
  pose proof (decodePayload_no_panic payload) as Hd.
  destruct (decodePayload payload); [| apply Htr | done].
  apply IH; lia.
Qed.

(** Fuel beyond what a run needs changes nothing. *)
Lemma loop_fuel fuel : forall f size records off k,
  no_panic (replay_loop fuel f size records off) ->
  replay_loop (fuel + k) f size records off = replay_loop fuel f size records off.
Proof.
  induction fuel as [|fuel IH]; intros f size records off k; [done |].
  cbn [replay_loop Nat.add].
  destruct (readFull f off headerSize) as [header| | |n]; try done.
  destruct (get_u32 header 0) as [crc|e|]; try done; cbn [res_bind].
  destruct (get_u32 header 4) as [length|e|]; try done; cbn [res_bind].
  destruct (_ <? _); [done |].
  destruct (readFull f _ length) as [payload| | |n]; try done.
  destruct (negb _); [done |].
  destruct (decodePayload payload); [apply IH | done..].
Qed.

Lemma loop_healthy_ok fuel : forall data size records off,
  no_panic (replay_loop fuel (healthy data) size records off) ->
  exists out, replay_loop fuel (healthy data) size records off = Ok out.
Proof.
  induction fuel as [|fuel IH]; intros data size records off; [done |].
  cbn [replay_loop]. unfold truncateAndReturn; simpl rs_truncate_fails; cbv iota.
  destruct (readFull (healthy data) off headerSize) as [header| | |n] eqn:Hh;
    [| by eauto..|].
  - destruct (get_u32 header 0) as [crc|e|] eqn:E0; [| | done]; cbn [res_bind];
      [| unfold get_u32, slice in E0; by destruct (_ && _)].
    destruct (get_u32 header 4) as [n|e|] eqn:E4; [| | done]; cbn [res_bind];
      [| unfold get_u32, slice in E4; by destruct (_ && _)].
    destruct (_ <? _); [by eauto |].
    destruct (readFull _ _ n) as [p| | |m]; [| by eauto..].
    destruct (negb _); [by eauto |].
    destruct (decodePayload p); [apply IH | by eauto | done].
  - exfalso. unfold readFull in Hh. simpl in Hh.
    by destruct (_ <=? _); [|destruct (_ =? 0)].
Qed.

(** What a successful replay of a healthy file leaves: a prefix of the file
    that ends where the last good record ends, on which the same loop would
    run to a clean end with the same records. *)
Definition recovered (fuel : nat) (data : bytes) (records : list t) (off : Z)
    (out : outcome) : Prop :=
  let '(recs', st, d') := out in
  exists off', off <= off' <= len data /\ d' = take (Z.to_nat off') data /\
    st = torn recs' (len data - off') /\
    replay_loop fuel (healthy d') (len d') records off = Ok (recs', clean recs', d').

Lemma len_take_Z (data : bytes) n :
  0 <= n <= len data -> len (take (Z.to_nat n) data) = n.
Proof. unfold len. rewrite length_take. lia. Qed.

Lemma recovered_stop fuel data records off out :
  0 <= off <= len data ->
  truncateAndReturn (healthy data) records off (len data) = Ok out ->
  recovered (S fuel) data records off out.
Proof.
  intros Hoff [= <-]. exists off. split_and!; [lia | lia | done | done |].
  rewrite len_take_Z by done. rewrite <- (len_take_Z data off) at 2 3 by done.
  apply loop_end.
Qed.

Lemma readFull_payload f off n p :
  rs_fault f = None -> 0 <= off -> 0 <= n -> readFull f off n = RFull p ->
  p = take (Z.to_nat n) (drop (Z.to_nat off) (rs_data f)).
Proof.
  intros Hf Hoff Hn Hp. destruct (decide (n = 0)) as [->|].
  - unfold readFull in Hp. rewrite Hf in Hp.
    rewrite (proj2 (Z.leb_le _ _)) in Hp by len_lia. by injection Hp as <-.
  - by apply readFull_inv in Hp as (_ & _ & ->); [| lia..].
Qed.

Lemma loop_recovered fuel : forall data records off out,
  0 <= off <= len data ->
  replay_loop fuel (healthy data) (len data) records off = Ok out ->
  recovered fuel data records off out.
Proof.
  induction fuel as [|fuel IH]; intros data records off out Hoff; [done |].
  pose proof (recovered_stop fuel data records off out Hoff) as Hstop.
  cbn [replay_loop]. unfold headerSize.
  destruct (readFull (healthy data) off 8) as [header| | |n] eqn:Hh;
    [| | done | by destruct (_ && _); [apply Hstop |]].
  - pose proof (readFull_inv _ off 8 header ltac:(lia) ltac:(lia) Hh) as (Hhl & Hhr & Hhd).
    simpl in Hhr, Hhd. intros H. bind_ok H crc Hcrc. bind_ok H n Hn.
    pose proof (get_u32_inv _ _ _ Hn) as Hl. unfold is_u32 in Hl.
    destruct (Z.ltb_spec (len data - off - 8) n) as [|Hrem]; [by apply Hstop |].
    destruct (readFull (healthy data) (off + 8) n) as [p| | |k] eqn:Hp;
      [| by apply Hstop..].
    destruct (negb (crc32c p =? crc)) eqn:Hc; [by apply Hstop |].
    destruct (decodePayload p) as [rec|e|] eqn:Hd; [| by apply Hstop | done].
    apply readFull_payload in Hp; [| done | lia | lia]. simpl in Hp.
    destruct out as [[recs' st] d'].
    apply IH in H as (off' & Hoff' & -> & -> & Hrun); [| lia].
    exists off'. split_and!; [lia | lia | done | done |].
    cbn [replay_loop]. unfold headerSize.
    rewrite readFull_take, <- Hhd, Hcrc by lia; cbn [res_bind].
    rewrite Hn; cbn [res_bind]. rewrite len_take_Z in * by lia.
    rewrite (proj2 (Z.ltb_ge _ _)), readFull_take, <- Hp by lia.
    by rewrite Hc, Hd.
  - intros [= <-]. exists (len data). simpl rs_data.
    rewrite len_to_nat, firstn_all.
    split_and!; [lia | lia | done | unfold torn; by rewrite Z.sub_diag |].
    cbn [replay_loop]. unfold headerSize. by rewrite Hh.
Qed.

(** *** Replaying whatever a crash left *)

(** The frame of a payload, as [encode] lays it out. *)
Definition framing (p : bytes) : bytes := put_u32 (crc32c p) ++ put_u32 (len p) ++ p.

(** The file agrees with what was written up to a point where it holds a frame
    that was not written there, with a checksum that matches nevertheless. *)
Definition forged (written image : bytes) : Prop :=
  exists pre p, pre ++ framing p `prefix_of` image /\ pre `prefix_of` written /\
    ~ pre ++ framing p `prefix_of` written.

Lemma framing_len p : len (framing p) = 8 + len p.
Proof. unfold framing. len_lia. Qed.

Lemma get_u32_put data off v : 0 <= off -> get_u32 data off = Ok v ->
  put_u32 v = take 4 (drop (Z.to_nat off) data).
Proof.
  intros Ho. unfold get_u32. intros H. bind_ok H b Hb. injection H as <-. pose proof (slice_len _ _ _ _ Hb) as Hl.
  assert (length b = 4%nat) as Hb4 by (unfold len in Hl; lia). unfold put_u32. rewrite <- Hb4 at 1. rewrite le_put_get.
  unfold slice in Hb. destruct (_ && _); [| done]. injection Hb as <-. by replace (Z.to_nat (off + 4 - off)) with 4%nat by lia.
Qed.

(** One round of the loop: it stops at the current offset, or it has read a
    frame there. *)
Lemma loop_round fuel data records off out :
  0 <= off <= len data ->
  replay_loop (S fuel) (healthy data) (len data) records off = Ok out ->
  (out.1.1 = records /\ out.2 = take (Z.to_nat off) data) \/
  exists p rec, framing p `prefix_of` drop (Z.to_nat off) data /\ len p < 2 ^ 32 /\ decodePayload p = Ok rec /\
    replay_loop fuel (healthy data) (len data) (records ++ [rec]) (off + len (framing p)) = Ok out.
Proof.
  intros Hoff. cbn [replay_loop]. unfold headerSize.
  assert (truncateAndReturn (healthy data) records off (len data) = Ok out ->
    out.1.1 = records /\ out.2 = take (Z.to_nat off) data) as Hstop by (by intros [= <-]).
  destruct (readFull (healthy data) off 8) as [header| | |n] eqn:Hh; [| | by left; apply Hstop | by destruct (_ && _); [left; apply Hstop |]].
  - pose proof (readFull_inv _ off 8 header ltac:(lia) ltac:(lia) Hh) as (Hhl & Hhr & Hhd). simpl in Hhr, Hhd.
    intros H. bind_ok H crc Hcrc. bind_ok H n Hn. pose proof (get_u32_inv _ _ _ Hn) as Hl. unfold is_u32 in Hl.
    destruct (Z.ltb_spec (len data - off - 8) n) as [|Hrem]; [by left; apply Hstop |].
    destruct (readFull (healthy data) (off + 8) n) as [p| | |k] eqn:Hp; [| by left; apply Hstop..].
    destruct (Z.eqb_spec (crc32c p) crc) as [<-|]; cbn [negb] in H; [| by left; apply Hstop].
    destruct (decodePayload p) as [rec|e|] eqn:Hd; [| by left; apply Hstop | done].
    apply readFull_payload in Hp; [| done | lia | lia]. simpl in Hp. right. exists p, rec.
    assert (len p = n) as Hlp by (rewrite Hp; unfold len in *; rewrite length_take, length_drop; lia).
    rewrite framing_len, Hlp, Z.add_assoc. split_and!; [| lia | done | done].
    apply get_u32_put in Hcrc, Hn; [| lia..]. unfold framing. rewrite Hlp, Hcrc, Hn, app_assoc, <- (take_drop 8 (drop _ data)).
    change (Z.to_nat 8) with 8%nat in Hhd. rewrite drop_0, <- Hhd. change (Z.to_nat 4) with 4%nat.
    rewrite (firstn_all2 (n := 4) (drop 4 header)) by (unfold len in Hhl; rewrite length_drop; lia). rewrite take_drop.
    apply prefix_app. rewrite Hp, drop_drop. replace (Z.to_nat (off + 8)) with (Z.to_nat off + 8)%nat by lia. apply prefix_take.
  - intros [= <-]. left. split; [done |]. simpl. symmetry. apply firstn_all2. revert Hh. unfold readFull. simpl.
    destruct (8 <=? _); [done |]. destruct (Z.eqb_spec (len (drop (Z.to_nat off) data)) 0) as [H0|]; [| done]. intros _.
    unfold len in H0. rewrite length_drop in H0. lia.
Qed.

Lemma loop_extends fuel : forall data records off out,
  0 <= off <= len data -> replay_loop fuel (healthy data) (len data) records off = Ok out -> records `prefix_of` out.1.1.
Proof.
  induction fuel as [|fuel IH]; intros data records off out Hoff; [done |].
  intros [[-> _] | (p & rec & Hp & _ & _ & H)]%loop_round; [done | | done]. apply prefix_length in Hp.
  rewrite length_drop in Hp. pose proof (framing_len p). etrans; [| eapply IH; [| exact H]]; [by apply prefix_app_r | unfold len in *; lia].
Qed.

(** Two frames that start the same bytes are the same. *)
Lemma framing_prefix p q rest : len p < 2 ^ 32 -> len q < 2 ^ 32 -> framing p `prefix_of` framing q ++ rest -> p = q.
Proof.
  intros Hp Hq [more H]. unfold framing in H. rewrite <- !app_assoc in H.
  apply app_inj_1 in H as [_ H]; [| by rewrite !length_put_u32].
  apply app_inj_1 in H as [Hl H]; [| by rewrite !length_put_u32].
  apply (f_equal le_get) in Hl. rewrite !le_get_put_u32, !u32_small in Hl by (unfold is_u32; pose_len; lia).
  apply app_inj_1 in H as [? _]; [done | unfold len in Hl; lia].
Qed.

(** Where the file begins with what was written, the loop returns records that
    were written, unless it meets a forged frame. *)
Lemma loop_written fuel : forall data before rest out,
  Forall wf rest -> encode_all before `prefix_of` data ->
  replay_loop fuel (healthy data) (len data) before (len (encode_all before)) = Ok out ->
  (out.1.1 `prefix_of` before ++ rest /\ out.2 = encode_all out.1.1) \/ forged (encode_all (before ++ rest)) data.
Proof.
  induction fuel as [|fuel IH]; intros data before rest out Hwf Hb; [done |].
  assert (0 <= len (encode_all before) <= len data) as Hoff by (pose proof (prefix_length _ _ Hb); unfold len in *; lia).
  pose proof Hb as [tail Hdata]. intros [[-> ->] | (p & rec & Hp & Hlp & Hd & H)]%(loop_round _ _ _ _ _ Hoff).
  { left. split; [by apply prefix_app_r |]. by rewrite Hdata, take_len_app. }
  rewrite Hdata, drop_len_app in Hp.
  assert (encode_all before ++ framing p `prefix_of` data) as Hin by (rewrite Hdata; by apply prefix_app).
  destruct (decide (framing p `prefix_of` encode_all rest)) as [Hw|Hw].
  - destruct rest as [|r rest]; [apply prefix_nil_inv in Hw; pose proof (framing_len p) as Hfl; rewrite Hw in Hfl; unfold len in Hfl; simpl in Hfl; lia |].
    apply Forall_cons in Hwf as [Hr Hwf]. rewrite encode_all_cons in Hw.
    apply (framing_prefix p (payload r)) in Hw as ->; [| done | apply Hr]. rewrite (decodePayload_payload r Hr) in Hd. injection Hd as <-.
    change (framing (payload r)) with (encode r) in *.
    assert (encode_all (before ++ [r]) = encode_all before ++ encode r) as Hsnoc.
    { rewrite encode_all_app, encode_all_cons. unfold encode_all at 3. simpl. by rewrite app_nil_r. }
    rewrite <- len_app, <- Hsnoc in H. rewrite <- Hsnoc in Hin.
    destruct (IH data (before ++ [r]) rest out Hwf Hin H) as [Hok | Hf]; rewrite <- app_assoc in *; [by left | by right].
  - right. exists (encode_all before), p. split_and!; [done | rewrite encode_all_app; by apply prefix_app_r |].
    rewrite encode_all_app. intros [more Heq]. rewrite <- app_assoc in Heq. apply app_inv_head in Heq. apply Hw. by exists more.
Qed.

End Replay.

(** ** The appender (wal.go) *)
Module Appender.
Import Record.

(** The file behind the log.  [synced] survives a crash; [cached] was handed
    to the operating system but not fsynced yet.  [script] lists the outcomes
    of the calls to come: [None] for success, [Some k] for a failure (a write
    fails after accepting [k] bytes); calls beyond the script succeed. *)
Record walFile := {
  synced : bytes;
  cached : bytes;
  script : list (option nat)
}.

Definition contents (f : walFile) : bytes := synced f ++ cached f.

Definition fWrite (f : walFile) (p : bytes) : walFile * nat * bool :=
  match script f with
  | Some k :: s =>
      ({| synced := synced f; cached := cached f ++ take k p; script := s |},
       Nat.min k (length p), false)
  | s =>
      ({| synced := synced f; cached := cached f ++ p; script := tail s |},
       length p, true)
  end.

Definition fSync (f : walFile) : walFile * bool :=
  match script f with
  | Some _ :: s => ({| synced := synced f; cached := cached f; script := s |}, false)
  | s => ({| synced := contents f; cached := []; script := tail s |}, true)
  end.

Definition fClose (f : walFile) : walFile * bool :=
  match script f with
  | Some _ :: s => ({| synced := synced f; cached := cached f; script := s |}, false)
  | s => ({| synced := synced f; cached := cached f; script := tail s |}, true)
  end.

(** [bufio.Writer] with its default 4096-byte buffer and sticky error. *)
Definition bufSize : nat := 4096.
#[global] Opaque bufSize.
Record bufio := { wr : walFile; pend : bytes; werr : bool }.

Definition bFlush (b : bufio) : bufio * bool :=
  if werr b then (b, false)
  else match pend b with
       | [] => (b, true)
       | p => let '(f, n, ok) := fWrite (wr b) p in
              if ok then ({| wr := f; pend := []; werr := false |}, true)
              else ({| wr := f; pend := drop n p; werr := true |}, false)
       end.

Fixpoint bWrite_loop (fuel : nat) (b : bufio) (p : bytes) : bufio * bool :=
  let avail := (bufSize - length (pend b))%nat in
  if negb (length p <=? avail)%nat && negb (werr b) then
    match fuel with
    | O => (b, false)
    | S fuel =>
      match pend b with
      | [] => let '(f, n, ok) := fWrite (wr b) p in
              bWrite_loop fuel {| wr := f; pend := []; werr := negb ok |} (drop n p)
      | q => let '(b', _) := bFlush {| wr := wr b; pend := q ++ take avail p;
                                       werr := werr b |} in
             bWrite_loop fuel b' (drop avail p)
      end
    end
  else if werr b then (b, false)
  else ({| wr := wr b; pend := pend b ++ p; werr := false |}, true).

(** Two rounds always suffice: one that fills and flushes a non-empty buffer,
    one that hands a long rest straight to the file. *)
Definition bWrite (b : bufio) (p : bytes) : bufio * bool := bWrite_loop 2 b p.

Record WAL := {
  writer : bufio;
  path : string;
  syncOnWrite : bool;
  closed : bool;
  lastSeq : Z
}.

Definition file (w : WAL) : walFile := wr (writer w).
Definition with_writer (w : WAL) (b : bufio) : WAL :=
  {| writer := b; path := path w; syncOnWrite := syncOnWrite w;
     closed := closed w; lastSeq := lastSeq w |}.
Definition with_file (w : WAL) (f : walFile) : WAL :=
  with_writer w {| wr := f; pend := pend (writer w); werr := werr (writer w) |}.

(** [Open]: opens for appending; existing contents stay. *)
Definition Open (p : string) (sync : bool) (f : walFile) : WAL :=
  {| writer := {| wr := f; pend := []; werr := false |}; path := p;
     syncOnWrite := sync; closed := false; lastSeq := 0 |}.

(** The [for _, rec := range recs] loop of [AppendBatch]. *)
Fixpoint write_records (w : WAL) (recs : list t) : WAL * bool :=
  match recs with
  | [] => (w, true)
  | rec :: recs =>
      let '(b, ok) := bWrite (writer w) (encode rec) in
      if ok then
        write_records {| writer := b; path := path w; syncOnWrite := syncOnWrite w;
                         closed := closed w;
                         lastSeq := if lastSeq w <? SeqNum rec then SeqNum rec
                                    else lastSeq w |} recs
      else (with_writer w b, false)
  end.

Definition AppendBatch (w : WAL) (recs : list t) : WAL * option error :=
  match recs with
  | [] => (w, None)
  | _ =>
    if closed w then (w, Some (Errorf "wal: append to closed log"))
    else
      let '(w, ok) := write_records w recs in
      if negb ok then (w, Some (Wrapf "wal: write" (Errorf "write"))) else
      let '(b, ok) := bFlush (writer w) in
      let w := with_writer w b in
      if negb ok then (w, Some (Wrapf "wal: flush" (Errorf "write"))) else
      if syncOnWrite w then
        let '(f, ok) := fSync (file w) in
        let w := with_file w f in
        if negb ok then (w, Some (Wrapf "wal: fsync" (Errorf "sync"))) else (w, None)
      else (w, None)
  end.

Definition Append (w : WAL) (rec : t) : WAL * option error := AppendBatch w [rec].

Definition Sync (w : WAL) : WAL * option error :=
  if closed w then (w, None) else
  let '(b, ok) := bFlush (writer w) in
  let w := with_writer w b in
  if negb ok then (w, Some (Wrapf "wal: flush" (Errorf "write"))) else
  let '(f, ok) := fSync (file w) in
  (with_file w f, if ok then None else Some (Errorf "sync")).

Definition LastSeq (w : WAL) : Z := lastSeq w.

Definition Close (w : WAL) : WAL * option error :=
  if closed w then (w, None) else
  let w := {| writer := writer w; path := path w; syncOnWrite := syncOnWrite w;
              closed := true; lastSeq := lastSeq w |} in
  let '(b, ok) := bFlush (writer w) in
  let w := with_writer w b in
  if negb ok then
    (with_file w (fst (fClose (file w))), Some (Wrapf "wal: flush on close" (Errorf "write")))
  else
    let '(f, ok) := fSync (file w) in
    let w := with_file w f in
    if negb ok then
      (with_file w (fst (fClose (file w))), Some (Wrapf "wal: fsync on close" (Errorf "sync")))
    else
      let '(f, ok) := fClose (file w) in
      (with_file w f, if ok then None else Some (Errorf "close")).

(** *** The stream invariant

    As long as no write failed, file and buffer hold exactly the bytes handed
    to the writer; after a failure the file holds a prefix of them and the
    sticky error keeps it that way. *)
Definition binv (total : bytes) (b : bufio) : Prop :=
  if werr b then contents (wr b) `prefix_of` total
  else contents (wr b) ++ pend b = total.

Lemma binv_prefix total b : binv total b -> contents (wr b) `prefix_of` total.
Proof.
  unfold binv. destruct (werr b); [done |]. intros <-. by apply prefix_app_r.
Qed.

Lemma fWrite_spec f p f' n ok :
  fWrite f p = (f', n, ok) ->
  synced f' = synced f /\ contents f' = contents f ++ take n p /\
  (ok = true -> n = length p).
Proof.
  unfold fWrite, contents. destruct (script f) as [|[k|] s]; intros [= <- <- <-]; simpl.
  all: rewrite ?firstn_all, <- ?app_assoc; split_and!; try done.
  by rewrite <- (take_take p), firstn_all.
Qed.

Lemma fSync_spec f f' ok :
  fSync f = (f', ok) ->
  contents f' = contents f /\ synced f `prefix_of` synced f' /\
  (ok = true -> synced f' = contents f).
Proof.
  unfold fSync, contents. destruct (script f) as [|[k|] s]; intros [= <- <-]; simpl.
  all: rewrite ?app_nil_r; split_and!; try done; by apply prefix_app_r.
Qed.

Lemma fClose_spec f :
  contents (fst (fClose f)) = contents f /\ synced (fst (fClose f)) = synced f.
Proof. unfold fClose, contents. by destruct (script f) as [|[k|] s]. Qed.

Lemma bFlush_spec total b b' ok :
  binv total b -> bFlush b = (b', ok) ->
  binv total b' /\ synced (wr b') = synced (wr b) /\
  (if ok then pend b' = [] /\ werr b' = false else werr b' = true).
Proof.
  unfold bFlush, binv. destruct (werr b) eqn:He.
  { intros Hb [= <- <-]. by rewrite He. }
  intros Hb. destruct (pend b) as [|x q] eqn:Hq.
  { intros [= <- <-]. rewrite He, Hq. done. }
  destruct (fWrite (wr b) (x :: q)) as [[f n] okw] eqn:Hw.
  apply fWrite_spec in Hw as (Hs & Hc & Hn).
  destruct okw; intros [= <- <-]; simpl; split_and!; try done.
  - rewrite Hc, Hn, firstn_all by done. by rewrite app_nil_r.
  - rewrite Hc, <- Hb. apply prefix_app, prefix_take.
Qed.

(** A failed writer refuses everything. *)
Lemma bWrite_loop_err fuel b p : werr b = true -> bWrite_loop fuel b p = (b, false).
Proof. intros He. destruct fuel; simpl; by rewrite He, andb_false_r. Qed.

(** An empty buffer takes the rest in one more round at most. *)
Lemma bWrite_loop_empty fuel total f p b' ok :
  contents f = total ->
  bWrite_loop (S fuel) {| wr := f; pend := []; werr := false |} p = (b', ok) ->
  binv (total ++ p) b' /\ synced (wr b') = synced f /\ werr b' = negb ok.
Proof.
  intros <-. cbn [bWrite_loop pend werr wr].
  destruct (negb (length p <=? _)%nat && negb false).
  - destruct (fWrite f p) as [[f1 n] okw] eqn:Hw.
    apply fWrite_spec in Hw as (Hs & Hc & Hn). destruct okw; simpl negb.
    + rewrite Hn, drop_all by done. intros H.
      assert (b' = {| wr := f1; pend := []; werr := false |} /\ ok = true) as [-> ->]
        by (destruct fuel; by injection H as <- <-).
      unfold binv; simpl. by rewrite Hc, Hn, firstn_all, app_nil_r.
    + rewrite bWrite_loop_err by done. intros [= <- <-]. unfold binv; simpl.
      split_and!; try done. rewrite Hc. apply prefix_app, prefix_take.
  - intros [= <- <-]. done.
Qed.

Lemma bWrite_spec total b p b' ok :
  binv total b -> bWrite b p = (b', ok) ->
  binv (total ++ p) b' /\ synced (wr b') = synced (wr b) /\ werr b' = negb ok.
Proof.
  unfold bWrite. destruct b as [f q err]. intros Hb. destruct err.
  { rewrite bWrite_loop_err by done. intros [= <- <-]. split_and!; try done.
    by apply prefix_app_r. }
  destruct q as [|x q].
  { apply bWrite_loop_empty. unfold binv in Hb; simpl in Hb. by rewrite app_nil_r in Hb. }
  unfold binv in Hb; simpl in Hb. remember 1%nat as round eqn:Hround.
  cbn [bWrite_loop pend werr wr]. set (avail := (bufSize - length (x :: q))%nat).
  destruct (negb (length p <=? avail)%nat && negb false).
  - destruct (bFlush _) as [b1 okf] eqn:Hf. intros H.
    apply (bFlush_spec (total ++ take avail p)) in Hf as (Hb1 & Hs1 & Hok);
      [| unfold binv; simpl; by rewrite <- Hb, <- !app_assoc].
    simpl in Hs1. rewrite <- (take_drop avail p), app_assoc, <- Hs1.
    destruct okf; [| rewrite bWrite_loop_err in H by done].
    + destruct b1 as [f1 q1 e1]; simpl in Hok; destruct Hok as [-> ->].
      rewrite Hround in H. eapply bWrite_loop_empty, H. unfold binv in Hb1; simpl in Hb1.
      by rewrite app_nil_r in Hb1.
    + injection H as <- <-. split_and!; try done.
      unfold binv in *. rewrite Hok in *. by apply prefix_app_r.
  - intros [= <- <-]. simpl. split_and!; try done.
    unfold binv; simpl. by rewrite <- Hb, <- app_assoc.
Qed.

(** *** Every operation keeps the stream invariant *)

(** The invariant of a log opened over [base], once [recs] were passed to it:
    a closed log is only known to hold a prefix. *)
Definition winv (base : bytes) (recs : list t) (w : WAL) : Prop :=
  if closed w then contents (file w) `prefix_of` base ++ Replay.encode_all recs
  else binv (base ++ Replay.encode_all recs) (writer w).

Lemma winv_prefix base recs w :
  winv base recs w -> contents (file w) `prefix_of` base ++ Replay.encode_all recs.
Proof. unfold winv. destruct (closed w); [done | apply binv_prefix]. Qed.

(** Passing more records to a log that refuses them keeps the invariant. *)
Lemma binv_weaken total more b : werr b = true -> binv total b -> binv (total ++ more) b.
Proof. unfold binv. intros ->. intros. by apply prefix_app_r. Qed.

Lemma write_records_spec recs : forall total w w' ok,
  binv total (writer w) -> werr (writer w) = false ->
  write_records w recs = (w', ok) ->
  binv (total ++ Replay.encode_all recs) (writer w') /\
  synced (file w') = synced (file w) /\ closed w' = closed w /\
  syncOnWrite w' = syncOnWrite w /\ werr (writer w') = negb ok.
Proof.
  induction recs as [|r rs IH]; intros total w w' ok Hw Hw0.
  { intros [= <- <-]. unfold Replay.encode_all; simpl. by rewrite app_nil_r. }
  cbn [write_records]. destruct (bWrite (writer w) (encode r)) as [b okb] eqn:Hb.
  apply (bWrite_spec total) in Hb as (Hb & Hs & He); [| done].
  rewrite Replay.encode_all_cons, app_assoc. destruct okb.
  - intros H. apply (IH (total ++ encode r)) in H; [| done | done].
    destruct H as (? & Hsy & ? & ? & ?). split_and!; try done. by rewrite Hsy.
  - intros [= <- <-]. split_and!; try done. by apply binv_weaken.
Qed.

Lemma write_records_err w recs :
  werr (writer w) = true -> recs <> [] ->
  exists w', write_records w recs = (w', false) /\ writer w' = writer w /\
             closed w' = closed w /\ syncOnWrite w' = syncOnWrite w.
Proof.
  intros He Hne. destruct recs as [|r rs]; [done |]. cbn [write_records].
  unfold bWrite. rewrite bWrite_loop_err by done. eauto.
Qed.

(** The flush (and fsync) that ends an append, a [Sync] or a [Close]. *)
Lemma flush_sync_spec total w b okf f oks :
  binv total (writer w) -> bFlush (writer w) = (b, okf) -> fSync (wr b) = (f, oks) ->
  contents f = contents (wr b) /\ synced (file w) `prefix_of` synced f /\
  (okf = true -> oks = true -> synced f = total) /\
  (okf = true -> contents f ++ [] = total).
Proof.
  intros Hb Hf Hs. apply (bFlush_spec total) in Hf as (Hb' & Hsy & Hok); [| done].
  apply fSync_spec in Hs as (Hc & Hp & Hall). unfold file. rewrite <- Hsy.
  assert (okf = true -> contents (wr b) = total) as Htot.
  { intros ->. destruct Hok as [Hpe He]. unfold binv in Hb'.
    by rewrite He, Hpe, app_nil_r in Hb'. }
  split_and!; [done | done | intros; rewrite Hall by done; auto |].
  intros. rewrite Hc, app_nil_r. auto.
Qed.

(** A successful append on a syncing log has fsynced everything. *)
Lemma AppendBatch_spec base old recs w w' err :
  winv base old w -> AppendBatch w recs = (w', err) ->
  winv base (old ++ recs) w' /\ synced (file w) `prefix_of` synced (file w') /\
  syncOnWrite w' = syncOnWrite w /\
  (err = None -> recs <> [] -> syncOnWrite w = true ->
   synced (file w') = base ++ Replay.encode_all (old ++ recs)).
Proof.
  intros Hw. destruct recs as [|r rs].
  { intros [= <- <-]. by rewrite app_nil_r. }
  cbn [AppendBatch]. unfold winv in *. rewrite Replay.encode_all_app, app_assoc.
  destruct (closed w) eqn:Hcl.
  { intros [= <- <-]. rewrite Hcl. split_and!; try done. by apply prefix_app_r. }
  destruct (werr (writer w)) eqn:He.
  { destruct (write_records_err w (r :: rs) He) as (w1 & -> & Hw1 & Hcl1 & Hso1); [done |].
    simpl negb. cbv iota. intros [= <- <-]. unfold file. rewrite Hcl1, Hcl, Hw1.
    split_and!; try done. by apply binv_weaken. }
  destruct (write_records w (r :: rs)) as [w1 ok1] eqn:H1.
  apply (write_records_spec _ (base ++ Replay.encode_all old)) in H1
    as (Hb1 & Hs1 & Hcl1 & Hso1 & He1); [| done..].
  rewrite <- Hs1, <- Hso1. rewrite <- Hcl1 in Hcl. clear Hs1 Hso1 Hcl1 Hw He w.
  destruct ok1; simpl negb; cbv iota;
    [| intros [= <- <-]; rewrite Hcl; by split_and!].
  destruct (bFlush (writer w1)) as [b okf] eqn:Hf.
  pose proof (bFlush_spec _ _ _ _ Hb1 Hf) as (Hb & Hsy & Hok).
  destruct okf; simpl negb; cbv iota;
    [| intros [= <- <-]; simpl; rewrite Hcl; split_and!; try done;
       unfold file; simpl; by rewrite Hsy].
  destruct Hok as [Hpe He]. cbn [with_writer syncOnWrite].
  destruct (syncOnWrite w1) eqn:Hso.
  - destruct (fSync _) as [f oks] eqn:Hfs. unfold file in Hfs; simpl in Hfs.
    destruct (flush_sync_spec _ w1 b true f oks Hb1 Hf Hfs) as (Hc & Hp & Hall & Htot).
    destruct oks; intros [= <- <-]; simpl; rewrite Hcl, Hpe, He;
      (split_and!; [unfold binv; simpl; auto | done | done |]); [| done].
    intros. unfold file; simpl. by apply Hall.
  - intros [= <- <-]. simpl. rewrite Hcl. split_and!; try done.
    unfold file; simpl. by rewrite Hsy.
Qed.

Lemma Sync_spec base old w w' err :
  winv base old w -> Sync w = (w', err) ->
  winv base old w' /\ synced (file w) `prefix_of` synced (file w') /\
  syncOnWrite w' = syncOnWrite w /\
  (err = None -> closed w = false ->
   synced (file w') = base ++ Replay.encode_all old).
Proof.
  unfold Sync, winv. intros Hw. destruct (closed w) eqn:Hcl.
  { intros [= <- <-]. by rewrite Hcl. }
  destruct (bFlush (writer w)) as [b okf] eqn:Hf.
  pose proof (bFlush_spec _ _ _ _ Hw Hf) as (Hb & Hsy & Hok).
  destruct okf; simpl negb; cbv iota;
    [| intros [= <- <-]; simpl; rewrite Hcl; unfold file; simpl; by rewrite Hsy].
  destruct (fSync _) as [f oks] eqn:Hfs. unfold file in Hfs; simpl in Hfs.
  destruct (flush_sync_spec _ w b true f oks Hw Hf Hfs) as (Hc & Hp & Hall & Htot).
  destruct Hok as [Hpe He]. intros [= <- <-]. simpl. rewrite Hcl, Hpe, He.
  split_and!; [unfold binv; simpl; auto | done | done |].
  intros. unfold file; simpl. destruct oks; [by apply Hall | done].
Qed.

Lemma Close_spec base old w w' err :
  winv base old w -> Close w = (w', err) ->
  winv base old w' /\ synced (file w) `prefix_of` synced (file w') /\
  syncOnWrite w' = syncOnWrite w /\ closed w' = true.
Proof.
  unfold Close, winv. intros Hw. destruct (closed w) eqn:Hcl.
  { intros [= <- <-]. by rewrite Hcl. }
  cbn [writer with_writer file]. destruct (bFlush (writer w)) as [b okf] eqn:Hf.
  pose proof (bFlush_spec _ _ _ _ Hw Hf) as (Hb & Hsy & Hok).
  destruct okf; simpl negb; cbv iota; cycle 1.
  { intros [= <- <-]. unfold file; simpl.
    destruct (fClose_spec (wr b)) as [-> ->]. rewrite Hsy.
    split_and!; try done. by eapply binv_prefix. }
  destruct (fSync _) as [f oks] eqn:Hfs. unfold file in Hfs; simpl in Hfs.
  destruct (flush_sync_spec _ w b true f oks Hw Hf Hfs) as (Hc & Hp & Hall & Htot).
  assert (contents f `prefix_of` base ++ Replay.encode_all old) as Hpre.
  { rewrite <- (Htot eq_refl), app_nil_r. done. }
  destruct (fClose_spec f) as [Hcc Hcs].
  destruct oks; simpl negb; cbv iota; unfold file; simpl;
    [destruct (fClose f) as [f' okc] eqn:Hfc; simpl in Hcc, Hcs |];
    intros [= <- <-]; simpl; by rewrite Hcc, Hcs.
Qed.

End Appender.

(** ** Crash durability

    A run of the log: a sequence of calls on one open log, with ghost lists of
    the records ever passed to it and of those a completed call promised to be
    durable. *)
Module Durability.
Import Record Replay Appender.

Inductive op :=
  | OAppend (recs : list t)
  | OSync
  | OClose.

Record run_state := {
  log : WAL;
  attempted : list t;
  durable : list t
}.

Definition exec (s : run_state) (o : op) : run_state :=
  match o with
  | OAppend recs =>
      let '(w, err) := AppendBatch (log s) recs in
      {| log := w; attempted := attempted s ++ recs;
         durable := match err, recs with
                    | None, _ :: _ => if syncOnWrite w then attempted s ++ recs
                                      else durable s
                    | _, _ => durable s
                    end |}
  | OSync =>
      let '(w, err) := Sync (log s) in
      {| log := w; attempted := attempted s;
         durable := match err with
                    | None => if closed (log s) then durable s else attempted s
                    | Some _ => durable s
                    end |}
  | OClose =>
      {| log := fst (Close (log s)); attempted := attempted s; durable := durable s |}
  end.

Definition exec_all (s : run_state) (ops : list op) : run_state := fold_left exec ops s.

(** A log opened on a file that already holds the frames of [old]. *)
Definition start (p : string) (sync : bool) (old : list t)
    (faults : list (option nat)) : run_state :=
  {| log := Open p sync {| synced := encode_all old; cached := []; script := faults |};
     attempted := []; durable := [] |}.

(** What a crash leaves of a file when the system writes its pages in order: the
    fsynced bytes and some prefix of the rest.  [torn_image] is the crash that
    may leave anything at all behind the fsynced bytes: a header without its
    payload, later pages without earlier ones, zeroes. *)
Definition torn_image (f : walFile) (tail : bytes) : bytes := synced f ++ tail.
Definition crash_image (f : walFile) (n : nat) : bytes := synced f ++ take n (cached f).

Definition rinv (base : bytes) (s : run_state) : Prop :=
  winv base (attempted s) (log s) /\
  base ++ encode_all (durable s) `prefix_of` synced (file (log s)) /\
  durable s `prefix_of` attempted s.

Lemma rinv_exec base s o : rinv base s -> rinv base (exec s o).
Proof.
  intros (Hw & Hd & Hp). destruct o as [recs| |]; simpl.
  - destruct (AppendBatch (log s) recs) as [w err] eqn:Ha.
    apply (AppendBatch_spec base (attempted s)) in Ha as (Hw' & Hsy & Hso & Hall); [| done].
    unfold rinv; simpl. split; [done |]. rewrite Hso.
    assert (durable s `prefix_of` attempted s ++ recs) by (by apply prefix_app_r).
    assert (base ++ encode_all (durable s) `prefix_of` synced (file w)) by (by etrans).
    destruct err as [e|]; [done |]. destruct recs as [|r rs]; [done |].
    destruct (syncOnWrite (log s)); [| done].
    split; [| done]. by rewrite Hall by done.
  - destruct (Sync (log s)) as [w err] eqn:Hs.
    apply (Sync_spec base (attempted s)) in Hs as (Hw' & Hsy & _ & Hall); [| done].
    unfold rinv; simpl. split; [done |].
    assert (base ++ encode_all (durable s) `prefix_of` synced (file w)) by (by etrans).
    destruct err as [e|]; [done |]. destruct (closed (log s)); [done |].
    split; [| done]. by rewrite Hall by done.
  - destruct (Close (log s)) as [w err] eqn:Hc.
    apply (Close_spec base (attempted s)) in Hc as (Hw' & Hsy & _); [| done].
    unfold rinv; simpl. split_and!; [done | by etrans | done].
Qed.

Lemma rinv_exec_all base ops : forall s, rinv base s -> rinv base (exec_all s ops).
Proof. induction ops as [|o ops IH]; intros s Hs; [done |]. apply IH, rinv_exec, Hs. Qed.

Lemma rinv_start p sync old faults : rinv (encode_all old) (start p sync old faults).
Proof.
  unfold rinv, winv, binv, contents; simpl. by rewrite !app_nil_r.
Qed.

Definition op_records (o : op) : list t :=
  match o with OAppend recs => recs | _ => [] end.

Lemma exec_attempted s o : attempted (exec s o) = attempted s ++ op_records o.
Proof.
  destruct o as [recs| |]; simpl; rewrite ?app_nil_r; try done;
    [by destruct (AppendBatch _ _) | by destruct (Sync _)].
Qed.

Lemma exec_all_wf ops : forall s,
  Forall wf (attempted s) -> Forall (Forall wf) (map op_records ops) ->
  Forall wf (attempted (exec_all s ops)).
Proof.
  induction ops as [|o ops IH]; intros s Hs Ho; [done |].
  apply Forall_cons in Ho as [Ho Hops]. apply IH; [| done].
  rewrite exec_attempted. by apply Forall_app.
Qed.

(** A file that begins with the frames of [before] replays to these records and
    others that were written, unless it holds a forged frame. *)
Lemma replay_written before rest data :
  Forall wf before -> Forall wf rest -> encode_all before `prefix_of` data ->
  exists recs st d, Replay (Some (healthy data)) = Ok (recs, st, Some d) /\ before `prefix_of` recs /\
    ((recs `prefix_of` before ++ rest /\ d = encode_all recs) \/ forged (encode_all (before ++ rest)) data).
Proof.
  intros Hb Hr Hpre.
  assert (no_panic (replay_loop (S (length data)) (healthy data) (len data) [] 0)) as Hnp by (apply loop_no_panic; unfold len; simpl; lia).
  destruct (loop_healthy_ok _ _ _ _ _ Hnp) as [[[recs st] d] Hrun].
  exists recs, st, d. unfold Replay, replayFrom. simpl rs_data. rewrite Hrun. split; [done |].
  destruct Hpre as [tail ->].
  assert (forall more done fuel, Forall wf more -> (length (encode_all more) <= fuel)%nat -> before = done ++ more ->
    exists fuel', replay_loop (S fuel) (healthy (encode_all before ++ tail)) (len (encode_all before ++ tail)) done (len (encode_all done)) =
      replay_loop (S fuel') (healthy (encode_all before ++ tail)) (len (encode_all before ++ tail)) before (len (encode_all before))) as Hskip.
  { induction more as [|r more IH]; intros done fuel Hm Hf Heq; [rewrite app_nil_r in Heq; subst; by eexists |].
    apply Forall_cons in Hm as [Hw Hm]. rewrite encode_all_cons, length_app in Hf. pose proof (encode_length_pos r).
    destruct fuel as [|fuel]; [lia |].
    destruct (IH (done ++ [r]) fuel Hm ltac:(lia) ltac:(by rewrite <- app_assoc)) as [fuel' Hgo]. exists fuel'. rewrite <- Hgo.
    assert (encode_all before ++ tail = encode_all done ++ encode r ++ encode_all more ++ tail) as ->.
    { rewrite Heq, encode_all_app, encode_all_cons. by rewrite <- !app_assoc. }
    rewrite loop_record by done. do 2 f_equal. rewrite encode_all_app, encode_all_cons. unfold encode_all at 3. simpl. by rewrite app_nil_r. }
  destruct (Hskip before [] (length (encode_all before ++ tail)) Hb ltac:(rewrite length_app; lia) eq_refl) as [fuel' Hgo].
  change (len (encode_all [])) with 0 in Hgo. rewrite Hgo in Hrun. split.
  - apply loop_extends in Hrun; [done | len_lia].
  - apply (loop_written _ _ _ rest) in Hrun; [done | done | by apply prefix_app_r].
Qed.

(** Any prefix of a framed sequence replays to the records it holds whole. *)
Lemma replay_prefix recs d :
  Forall wf recs -> d `prefix_of` encode_all recs ->
  exists st, Replay (Some (healthy d))
    = Ok (complete recs (length d), st, Some (encode_all (complete recs (length d)))).
Proof.
  intros Hwf [rest Hd].
  assert (d = take (length d) (encode_all recs)) as Htake
    by (by rewrite Hd, take_app_length).
  unfold Replay, replayFrom; simpl rs_data.
  pose proof (loop_encoded recs (length d) (S (length d)) [] [] Hwf ltac:(lia)) as H.
  cbv zeta in H. rewrite !app_nil_l in H. rewrite <- Htake in H.
  change (len []) with 0 in H. rewrite H. cbn [res_bind app]. eauto.
Qed.

Lemma complete_durable r1 r2 d :
  encode_all r1 `prefix_of` d -> r1 `prefix_of` r2 -> r1 `prefix_of` complete r2 (length d).
Proof.
  intros Hd%prefix_length [more ->]. rewrite complete_app by done. by eexists.
Qed.

End Durability.

(** ** Properties of the write-ahead log *)
Section Properties.
Import Record Replay Appender Durability.


Definition sample_put : t := mk 1 RecordPut [x61] [x78; x79].
Definition sample_del : t := mk 2 RecordDelete [x61] [].

Lemma sample_wf : Forall wf [sample_put; sample_del].
Proof. repeat constructor; vm_compute; congruence. Qed.

(** The second append failed in the middle of its write; the crash left the
    header of the frame and zeroes in place of its payload. *)
Definition sample_torn : run_state :=
  exec_all (start "000000.wal" true [sample_put] [None; None; Some 5%nat]) [OAppend [sample_del]; OAppend [sample_put]].
Definition sample_zeroes : bytes := take 8 (encode sample_put) ++ repeat x00 20.


(** The checksum gives the torn frame away. *)
Example sample_torn_replayed :
  Replay (Some (healthy (torn_image (file (log sample_torn)) sample_zeroes))) =
    Ok ([sample_put; sample_del], torn [sample_put; sample_del] 28, Some (encode_all [sample_put; sample_del])).
Proof. vm_compute. reflexivity. Qed.

(** Replay terminates without a run-time panic on every source: any file
    contents, any read fault, any failing truncation, any claimed size. *)
Theorem replay_no_panic f size : no_panic (replayFrom f size).
Proof. apply loop_no_panic; unfold len; lia. Qed.

(** Replaying a readable file always succeeds, whatever bytes it holds.
    It leaves a prefix of the file, reports exactly the bytes it dropped, and
    a second replay of what it left returns the same records and drops
    nothing. *)
Theorem replay_repairs data :
  exists recs st d',
    Replay (Some (healthy data)) = Ok (recs, st, Some d') /\
    d' `prefix_of` data /\
    RecordsRecovered st = len recs /\
    BytesTruncated st = len data - len d' /\
    TornWriteTruncated st = (0 <? len data - len d') /\
    Replay (Some (healthy d')) = Ok (recs, clean recs, Some d').
Proof.
  assert (forall d : bytes, no_panic (replay_loop (S (length d)) (healthy d) (len d) [] 0))
    as Hnp by (intros d; apply loop_no_panic; unfold len; simpl; lia).
  destruct (loop_healthy_ok _ _ _ _ _ (Hnp data)) as [[[recs st] d'] Hrun].
  destruct (loop_recovered (S (length data)) data [] 0 (recs, st, d'))
    as (off & Hoff & Hd' & Hst & Hagain); [len_lia | done |].
  assert (Hld : len d' = off) by (subst d'; by apply len_take_Z).
  exists recs, st, d'. unfold Replay, replayFrom; simpl rs_data.
  rewrite Hrun, Hst, Hld. split_and!; try done; [subst d'; apply prefix_take |].
  replace (S (length data)) with (S (length d') + (length data - length d'))%nat in Hagain
    by (unfold len in *; lia).
  rewrite loop_fuel in Hagain by apply Hnp. rewrite Hld in *. by rewrite Hagain.
Qed.

(** A read error is not told apart from a torn write.  When the device
    fails to read inside the payload of an intact record, replay reports
    success, drops that record and every one behind it and truncates the file
    on disk to match. *)
Theorem replay_read_fault_truncates :
  let data := encode_all [sample_put; sample_del] in
  let f := {| rs_data := data; rs_fault := Some (len (encode sample_put) + 12);
              rs_truncate_fails := false |} in
  Replay (Some (healthy data))
    = Ok ([sample_put; sample_del], clean [sample_put; sample_del], Some data) /\
  Replay (Some f)
    = Ok ([sample_put], torn [sample_put] (len (encode sample_del)),
          Some (encode sample_put)).
Proof. vm_compute. done. Qed.
End Properties.
