(* ===== verification/SkipList.v ===== *)
(** * The skip list of the memtable (src/memtable/skiplist.go)

    Nodes live in a heap of addresses, as the Go pointers do: the forward
    pointers of a node name other nodes, and [put] mutates them in place.  The
    representation invariant says that at every level the pointers thread the
    nodes tall enough for it, in key order; under it the searches terminate,
    never dereference nil and land on the right predecessors, whatever
    levels the random source picks. *)

From S2P Require Import Prelude GoBytes GoSort.

Definition maxHeight : nat := 16.
Definition nodeOverheadBytes : Z := 48.

(** A pointer is an address in the heap, nil is [None]. *)
Record node := mkNode {
  key : bytes;
  value : bytes;
  deleted : bool;
  seq : Z;
  forward : list (option nat)
}.

Definition entrySize (key value : bytes) : Z := len key + len value + nodeOverheadBytes.

(** The head is the node at address 0.  [rnd] are the outcomes of the coming
    tests [s.rnd.Float64() < p]. *)
Record skipList := mkList {
  heap : list node;
  height : nat;
  length_ : Z;
  rnd : list bool
}.
Definition head_addr : nat := 0.

Definition newSkipList (draws : list bool) : skipList :=
  mkList [mkNode [] [] false 0 (replicate maxHeight None)] 1 0 draws.

(** [for level < maxHeight && s.rnd.Float64() < p { level++ }] *)
Fixpoint promote (fuel level : nat) (draws : list bool) : nat * list bool :=
  match fuel with
  | O => (level, draws)
  | S fuel =>
      match draws with
      | true :: draws => promote fuel (S level) draws
      | _ => (level, tail draws)
      end
  end.
Definition randomLevel (s : skipList) : nat * list bool := promote (maxHeight - 1) 1 (rnd s).

(** ** Pointers *)

Definition deref (h : list node) (x : nat) : res node :=
  match h !! x with Some n => Ok n | None => Panic end.

(** [x.forward[i]] *)
Definition fwd (h : list node) (x i : nat) : res (option nat) :=
  let* n := deref h x in
  match forward n !! i with Some p => Ok p | None => Panic end.

(** [x.forward[i] = p] *)
Definition set_fwd (h : list node) (x i : nat) (p : option nat) : res (list node) :=
  let* n := deref h x in
  if bool_decide (i < length (forward n))%nat
  then Ok (<[x := mkNode (key n) (value n) (deleted n) (seq n) (<[i := p]> (forward n))]> h)
  else Panic.

(** ** Searching *)

(** [for x.forward[i] != nil && bytes.Compare(x.forward[i].key, key) < 0].
    Running out of fuel stands for a loop that does not end. *)
Fixpoint walk (fuel : nat) (h : list node) (i : nat) (k : bytes) (x : nat) : res nat :=
  match fuel with
  | O => Panic
  | S fuel =>
      let* next := fwd h x i in
      match next with
      | None => Ok x
      | Some y =>
          let* n := deref h y in
          if compare (key n) k <? 0 then walk fuel h i k y else Ok x
      end
  end.

(** [for i := s.height - 1; i >= 0; i-- { ...; update[i] = x }]; the result
    lists [update[0]], [update[1]], ... *)
Fixpoint descend (i : nat) (h : list node) (k : bytes) (x : nat) (update : list nat)
    : res (nat * list nat) :=
  match i with
  | O => Ok (x, update)
  | S i =>
      let* x := walk (length h) h i k x in
      descend i h k x (x :: update)
  end.

Definition get (s : skipList) (k : bytes) : res (option node) :=
  let* '(x, _) := descend (height s) (heap s) k head_addr [] in
  let* next := fwd (heap s) x 0 in
  match next with
  | None => Ok None
  | Some y =>
      let* n := deref (heap s) y in
      Ok (if equal (key n) k then Some n else None)
  end.

(** ** Insertion *)

(** [for i := 0; i < level; i++ { n.forward[i] = update[i].forward[i];
    update[i].forward[i] = n }], from level [i] on. *)
Fixpoint link (h : list node) (n i : nat) (update : list nat) : res (list node) :=
  match update with
  | [] => Ok h
  | u :: update =>
      let* next := fwd h u i in
      let* h := set_fwd h n i next in
      let* h := set_fwd h u i (Some n) in
      link h n (S i) update
  end.

Definition insert_new (s : skipList) (update : list nat) (k v : bytes) (sq : Z) (del : bool)
    : res (skipList * Z) :=
  let '(level, draws) := randomLevel s in
  let '(update, hgt) :=
    if (height s <? level)%nat
    then (update ++ replicate (level - height s) head_addr, level) else (update, height s) in
  let n := length (heap s) in
  let* h := link (heap s ++ [mkNode k v del sq (replicate level None)]) n 0 (take level update) in
  Ok (mkList h hgt (length_ s + 1) draws, entrySize k v).

Definition put (s : skipList) (k v : bytes) (sq : Z) (del : bool) : res (skipList * Z) :=
  let* '(x, update) := descend (height s) (heap s) k head_addr [] in
  let* existing := fwd (heap s) x 0 in
  match existing with
  | Some e =>
      let* n := deref (heap s) e in
      if equal (key n) k then
        let h := <[e := mkNode (key n) v del sq (forward n)]> (heap s) in
        Ok (mkList h (height s) (length_ s) (rnd s),
            entrySize (key n) v - entrySize (key n) (value n))
      else insert_new s update k v sq del
  | None => insert_new s update k v sq del
  end.

(** The traversal of [NewIterator]: [for n := head.forward[0]; n != nil; n =
    n.forward[0]]. *)
Fixpoint traverse (fuel : nat) (h : list node) (x : nat) : res (list node) :=
  match fuel with
  | O => Panic
  | S fuel =>
      let* next := fwd h x 0 in
      match next with
      | None => Ok []
      | Some y =>
          let* n := deref h y in
          let* rest := traverse fuel h y in
          Ok (n :: rest)
      end
  end.

(** ** The representation invariant *)

Definition tall (h : list node) (i a : nat) : Prop :=
  exists n, h !! a = Some n /\ (i < length (forward n))%nat.
#[global] Instance tall_dec h i a : Decision (tall h i a).
Proof.
  destruct (h !! a) as [n|] eqn:E.
  - destruct (decide (i < length (forward n))%nat); [left; by exists n |].
    right. intros (m & Hm & ?). congruence.
  - right. intros (m & Hm & ?). congruence.
Defined.

Definition keyof (h : list node) (a : nat) : bytes := default [] (key <$> h !! a).

(** The pointers of level [i] from [x] on visit exactly [l]. *)
Fixpoint links (h : list node) (i x : nat) (l : list nat) : Prop :=
  match l with
  | [] => fwd h x i = Ok None
  | y :: l => fwd h x i = Ok (Some y) /\ links h i y l
  end.

Definition chain (h : list node) (i : nat) (order : list nat) : list nat :=
  filter (tall h i) order.

Record wf (s : skipList) (order : list nat) : Prop := {
  wf_head : exists n, heap s !! head_addr = Some n /\ length (forward n) = maxHeight;
  wf_nodes : forall a, a ∈ order -> a <> head_addr /\ tall (heap s) 0 a /\ ~ tall (heap s) (height s) a;
  wf_sorted : sorted (keyof (heap s) <$> order);
  wf_height : (1 <= height s <= maxHeight)%nat;
  wf_links : forall i, (i < maxHeight)%nat -> links (heap s) i head_addr (chain (heap s) i order);
  wf_size : length (heap s) = S (length order);
  wf_length : length_ s = len order
}.

(** The last address of a chain, the head when it is empty. *)
Definition pred (l : list nat) : nat := default head_addr (last l).

(** ** Chains *)

Lemma links_app h i x l1 l2 : links h i x (l1 ++ l2) -> links h i (default x (last l1)) l2.
Proof.
  revert x. induction l1 as [|y l1 IH]; intros x; simpl; [done |].
  intros [_ H]. apply IH in H. rewrite last_cons. by destruct (last l1).
Qed.

Lemma links_next h i x l1 l2 :
  links h i x (l1 ++ l2) -> fwd h (default x (last l1)) i = Ok (head l2).
Proof. intros H%links_app. destruct l2; [done | by destruct H]. Qed.

Lemma tall_le h i j a : (i <= j)%nat -> tall h j a -> tall h i a.
Proof. intros ? (n & ? & ?). exists n. split; [done | lia]. Qed.

Lemma pred_in l : pred l = head_addr \/ pred l ∈ l.
Proof.
  unfold pred. destruct (last l) as [a|] eqn:E; [right | by left].
  apply last_Some in E as [k ->]. simpl. set_solver.
Qed.

(** The search along one level stops at the last node with a smaller key. *)
Lemma walk_spec fuel : forall h i k x l1 l2,
  links h i x (l1 ++ l2) -> (length l1 < fuel)%nat ->
  (forall a, a ∈ l1 ++ l2 -> is_Some (h !! a)) ->
  (forall a, a ∈ l1 -> key_lt (keyof h a) k) -> (forall a, a ∈ l2 -> key_le k (keyof h a)) ->
  walk fuel h i k x = Ok (default x (last l1)).
Proof.
  induction fuel as [|fuel IH]; intros h i k x l1 l2 Hl Hf Hs Hlt Hge; [lia |]. cbn [walk].
  destruct l1 as [|y l1].
  - simpl in Hl. destruct l2 as [|y l2]; [by rewrite Hl |]. destruct Hl as [-> _]. cbn [res_bind].
    destruct (Hs y ltac:(set_solver)) as [n Hn]. specialize (Hge y ltac:(set_solver)).
    unfold deref, keyof in *. rewrite Hn in *. cbn [res_bind].
    by rewrite compare_ltb, bool_decide_eq_false_2 by (by apply key_not_lt).
  - destruct Hl as [-> Hl]. cbn [res_bind].
    destruct (Hs y ltac:(set_solver)) as [n Hn]. pose proof (Hlt y ltac:(set_solver)) as Hy.
    unfold deref, keyof in Hy |- *. rewrite Hn in *. cbn [res_bind].
    rewrite compare_ltb, bool_decide_eq_true_2 by done.
    rewrite (IH h i k y l1 l2); [| done | simpl in Hf; lia | set_solver | set_solver | done].
    rewrite last_cons. by destruct (last l1).
Qed.

(** ** Searching *)

Section searching.
Context (s : skipList) (order lt ge : list nat) (k : bytes).
Context (Hwf : wf s order) (Hsplit : order = lt ++ ge).
Context (Hlt : forall a, a ∈ lt -> key_lt (keyof (heap s) a) k).
Context (Hge : forall a, a ∈ ge -> key_le k (keyof (heap s) a)).

Abbreviation chain_lt i := (chain (heap s) i lt).
Abbreviation chain_ge i := (chain (heap s) i ge).

Lemma chain_split i : (i < maxHeight)%nat -> links (heap s) i head_addr (chain_lt i ++ chain_ge i).
Proof. intros Hi. pose proof (wf_links _ _ Hwf i Hi) as H. rewrite Hsplit in H.
  unfold chain in *. by rewrite <- filter_app. Qed.

Lemma chain_alive i a : a ∈ chain_lt i ++ chain_ge i -> is_Some (heap s !! a).
Proof.
  rewrite elem_of_app. unfold chain. rewrite !list_elem_of_filter.
  intros [[(n & -> & _) _] | [(n & -> & _) _]]; done.
Qed.

(** One level, from the head or from a smaller node of that level. *)
Lemma walk_level i x :
  (i < maxHeight)%nat -> x = head_addr \/ x ∈ chain_lt i ->
  walk (length (heap s)) (heap s) i k x = Ok (pred (chain_lt i)).
Proof.
  intros Hi Hx. pose proof (chain_split i Hi) as Hl.
  assert (length (chain_lt i) < length (heap s))%nat as Hlen.
  { rewrite (wf_size _ _ Hwf), Hsplit, length_app.
    pose proof (length_filter (tall (heap s) i) lt). unfold chain. lia. }
  assert (forall a, a ∈ chain_lt i -> key_lt (keyof (heap s) a) k) as Hlt'.
  { intros a [_ ?]%list_elem_of_filter. by apply Hlt. }
  assert (forall a, a ∈ chain_ge i -> key_le k (keyof (heap s) a)) as Hge'.
  { intros a [_ ?]%list_elem_of_filter. by apply Hge. }
  pose proof (chain_alive i) as Hal.
  destruct Hx as [-> | Hx].
  - by rewrite (walk_spec _ _ _ _ _ (chain_lt i) (chain_ge i)).
  - apply list_elem_of_split in Hx as (A & B & HAB). rewrite HAB in *.
    rewrite <- app_assoc in Hl, Hal. rewrite length_app in Hlen. simpl in Hlen.
    apply links_app in Hl. destruct Hl as [_ Hl].
    rewrite (walk_spec _ _ _ _ _ B (chain_ge i)); [| done | lia | set_solver | set_solver | done].
    unfold pred. rewrite last_app, last_cons. by destruct (last B).
Qed.

Lemma descend_spec i : forall x update,
  (i <= maxHeight)%nat -> x = head_addr \/ (forall j, (j < i)%nat -> x ∈ chain_lt j) ->
  descend i (heap s) k x update
  = Ok (if bool_decide (i = O) then x else pred (chain_lt 0),
        map (fun j => pred (chain_lt j)) (List.seq 0 i) ++ update).
Proof.
  induction i as [|i IH]; intros x update Hi Hx; [done |]. cbn [descend].
  rewrite walk_level; [| lia | destruct Hx as [-> | Hx]; [by left | right; apply Hx; lia]].
  cbn [res_bind]. rewrite IH; [| lia |].
  - rewrite seq_S, map_app, <- app_assoc. simpl. f_equal. f_equal. by destruct i.
  - destruct (pred_in (chain_lt i)) as [-> | Hp]; [by left | right].
    intros j Hj. apply list_elem_of_filter in Hp as [Ht Hin]. apply list_elem_of_filter.
    split; [by apply (tall_le _ j i); [lia |] | done].
Qed.

Definition preds : list nat := map (fun j => pred (chain_lt j)) (List.seq 0 (height s)).

Lemma descend_top : descend (height s) (heap s) k head_addr [] = Ok (pred (chain_lt 0), preds).
Proof.
  pose proof (wf_height _ _ Hwf). rewrite descend_spec; [| lia | by left].
  rewrite bool_decide_eq_false_2, app_nil_r by lia. done.
Qed.

Lemma chain_bottom l : (forall a, a ∈ l -> a ∈ order) -> chain (heap s) 0 l = l.
Proof.
  intros H. unfold chain. apply filter_id, Forall_forall.
  intros a Ha. by apply (wf_nodes _ _ Hwf), H.
Qed.

Lemma search_next : fwd (heap s) (pred (chain_lt 0)) 0 = Ok (head ge).
Proof.
  pose proof (chain_split 0 ltac:(unfold maxHeight; lia)) as Hl. apply links_next in Hl.
  fold (pred (chain_lt 0)) in Hl. rewrite Hl. f_equal. rewrite chain_bottom; [done |].
  subst order. set_solver.
Qed.
End searching.

(** ** Heaps that differ in pointers only *)

Definition shape (n : node) := (key n, value n, deleted n, seq n, length (forward n)).
Definition same_shape (h h' : list node) : Prop := forall a, shape <$> h !! a = shape <$> h' !! a.

#[global] Instance same_shape_equiv : Equivalence same_shape.
Proof.
  split; [by intros h a | by intros h h' H a | intros h1 h2 h3 H12 H23 a; by rewrite H12].
Qed.

Lemma shape_lookup h h' a n :
  same_shape h h' -> h !! a = Some n -> exists n', h' !! a = Some n' /\ shape n' = shape n.
Proof.
  intros Hs Hn. specialize (Hs a). rewrite Hn in Hs. simpl in Hs.
  destruct (h' !! a) as [n'|]; [| done]. injection Hs as ????. exists n'. split; [done |].
  unfold shape. congruence.
Qed.

Lemma shape_tall h h' i a : same_shape h h' -> tall h i a <-> tall h' i a.
Proof.
  intros H. split; intros (n & Hn & Hi); [| symmetry in H];
    destruct (shape_lookup _ _ _ _ H Hn) as (n' & ? & [= ? ? ? ? ?]); exists n'; split; [done | lia | done | lia].
Qed.

Lemma shape_keyof h h' a : same_shape h h' -> keyof h' a = keyof h a.
Proof.
  intros H. specialize (H a). unfold keyof.
  destruct (h !! a), (h' !! a); simpl in *; try done. by injection H.
Qed.

Lemma shape_length h h' : same_shape h h' -> length h' = length h.
Proof.
  assert (forall h h', same_shape h h' -> (length h' <= length h)%nat) as Hle.
  { intros h1 h2 H. apply Nat.nlt_ge. intros Hlt.
    destruct (lookup_lt_is_Some_2 h2 (length h1) Hlt) as [n Hn].
    specialize (H (length h1)). rewrite Hn, lookup_ge_None_2 in H by lia. done. }
  intros H. assert (same_shape h' h) as H' by (by symmetry). pose proof (Hle _ _ H). pose proof (Hle _ _ H'). lia.
Qed.

Lemma chain_shape h h' i l : same_shape h h' -> chain h' i l = chain h i l.
Proof. intros H. apply list_filter_iff. intros a. symmetry. by apply shape_tall. Qed.

Lemma set_fwd_spec h x i p :
  tall h i x ->
  exists h', set_fwd h x i p = Ok h' /\ same_shape h h' /\
    forall y j, fwd h' y j = if decide (y = x /\ j = i) then Ok p else fwd h y j.
Proof.
  intros (n & Hn & Hi). unfold set_fwd, deref. rewrite Hn. cbn [res_bind].
  rewrite bool_decide_eq_true_2 by done. eexists. split; [reflexivity |].
  pose proof (lookup_lt_Some _ _ _ Hn) as Hx. split.
  - intros a. destruct (decide (a = x)) as [-> |].
    + rewrite list_lookup_insert_eq, Hn by done. simpl. unfold shape. simpl. by rewrite length_insert.
    + by rewrite list_lookup_insert_ne.
  - intros y j. unfold fwd, deref. destruct (decide (y = x)) as [-> | Hne].
    + rewrite list_lookup_insert_eq, Hn by done. simpl. destruct (decide (j = i)) as [-> | Hj].
      * rewrite list_lookup_insert_eq by done. by rewrite decide_True.
      * rewrite list_lookup_insert_ne by done. rewrite decide_False by tauto. done.
    + rewrite list_lookup_insert_ne by done. rewrite decide_False by tauto. done.
Qed.

(** The pointers after linking [n] behind [update]. *)
Definition linked (h : list node) (n i : nat) (update : list nat) (y j : nat) : res (option nat) :=
  match update !! (j - i)%nat with
  | Some u =>
      if decide (j < i)%nat then fwd h y j
      else if decide (y = u) then Ok (Some n)
      else if decide (y = n) then fwd h u j
      else fwd h y j
  | None => fwd h y j
  end.

Lemma link_spec update : forall h n i,
  (forall j, (j < length update)%nat -> tall h (i + j) n) ->
  (forall j u, update !! j = Some u -> tall h (i + j) u /\ u <> n) ->
  exists h', link h n i update = Ok h' /\ same_shape h h' /\
    forall y j, fwd h' y j = linked h n i update y j.
Proof.
  induction update as [|u update IH]; intros h n i Hn Hu; cbn [link].
  { exists h. split_and!; try done. }
  assert (tall h i n) as Hni by (rewrite <- (Nat.add_0_r i); apply Hn; simpl; lia).
  destruct (Hu 0%nat u eq_refl) as [Hui Hune]. rewrite Nat.add_0_r in Hui.
  assert (exists next, fwd h u i = Ok next) as [next Hnext].
  { destruct Hui as (nd & Hnd & Hi). unfold fwd, deref. rewrite Hnd. simpl.
    destruct (lookup_lt_is_Some_2 _ _ Hi) as [q ->]. by exists q. }
  rewrite Hnext. cbn [res_bind].
  destruct (set_fwd_spec h n i next Hni) as (h1 & -> & Hs1 & Hf1). cbn [res_bind].
  destruct (set_fwd_spec h1 u i (Some n)) as (h2 & -> & Hs2 & Hf2); [by apply (shape_tall h h1) |].
  cbn [res_bind]. assert (same_shape h h2) as Hs by (by etrans).
  destruct (IH h2 n (S i)) as (h' & Hl & Hs' & Hf').
  { intros j Hj. apply (shape_tall h h2); [done |].
    replace (S i + j)%nat with (i + S j)%nat by lia. apply Hn. simpl. lia. }
  { intros j w Hw. destruct (Hu (S j) w Hw) as [Ht ?]. split; [| done].
    apply (shape_tall h h2); [done |]. by replace (S i + j)%nat with (i + S j)%nat by lia. }
  exists h'. rewrite Hl. split_and!; [done | by etrans |]. intros y j. rewrite Hf'.
  unfold linked. destruct (decide (j < i)%nat).
  - replace (j - S i)%nat with O by lia. replace (j - i)%nat with O by lia. simpl.
    assert (fwd h2 y j = fwd h y j) as -> by (rewrite Hf2, Hf1, !decide_False by lia; done).
    destruct update; simpl; [done |]. by rewrite decide_True by lia.
  - destruct (decide (j = i)) as [-> | Hji].
    + replace (i - S i)%nat with O by lia. rewrite Nat.sub_diag. simpl.
      assert (fwd h2 y i = if decide (y = u) then Ok (Some n) else if decide (y = n) then fwd h u i else fwd h y i) as Hy.
      { rewrite Hf2, Hf1, Hnext. repeat destruct (decide _); naive_solver. }
      rewrite <- Hy. destruct update; simpl; [done |]. by rewrite decide_True by lia.
    + replace (j - i)%nat with (S (j - S i)) by lia. simpl.
      assert (forall z, fwd h2 z j = fwd h z j) as Hsame.
      { intros z. rewrite Hf2, Hf1, !decide_False by lia. done. }
      destruct (update !! (j - S i)%nat); rewrite !Hsame; [| done].
      rewrite !(decide_False (P := (j < S i)%nat)) by lia. done.
Qed.

Lemma links_frame h h' i x l :
  (forall y, y ∈ x :: l -> fwd h' y i = fwd h y i) -> links h i x l -> links h' i x l.
Proof.
  revert x. induction l as [|y l IH]; intros x Hf; simpl.
  - by rewrite Hf by set_solver.
  - intros [H1 H2]. rewrite Hf by set_solver. split; [done |]. apply IH; [set_solver | done].
Qed.

(** Splicing [n] into the chain of one level. *)
Lemma links_insert h h' i n l1 l2 : forall x,
  links h i x (l1 ++ l2) -> NoDup (x :: l1 ++ l2) -> n ∉ x :: l1 ++ l2 ->
  fwd h' (default x (last l1)) i = Ok (Some n) -> fwd h' n i = fwd h (default x (last l1)) i ->
  (forall y, y <> default x (last l1) -> y <> n -> fwd h' y i = fwd h y i) ->
  links h' i x (l1 ++ n :: l2).
Proof.
  induction l1 as [|z l1 IH]; intros x Hl Hnd Hn Hu Hnew Hf.
  - simpl in *. split; [done |]. apply NoDup_cons in Hnd as [Hx Hnd].
    destruct l2 as [|y l2]; simpl in *; [congruence |]. destruct Hl as [Hy Hl].
    split; [congruence |]. revert Hl. apply links_frame. intros w Hw. apply Hf; set_solver.
  - rewrite last_cons in *. apply NoDup_cons in Hnd as [Hx Hnd]. destruct Hl as [Hz Hl].
    replace (default x (match last l1 with Some y => Some y | None => Some z end))
      with (default z (last l1)) in * by (by destruct (last l1)).
    split; [| apply (IH z); try done; set_solver]. rewrite Hf; [done | | set_solver].
    intros Hx'. apply Hx. rewrite Hx'. destruct (last l1) as [w|] eqn:E; simpl; [| set_solver].
    apply last_Some in E as [k ->]. set_solver.
Qed.

(** ** What the list holds *)

Definition meta (n : node) : bytes * bool * Z := (value n, deleted n, seq n).
Definition entry (n : node) : bytes * (bytes * bool * Z) := (key n, meta n).
Definition entry_of (h : list node) (a : nat) : bytes * (bytes * bool * Z) :=
  (keyof h a, default ([], false, 0) (meta <$> h !! a)).
Definition content (s : skipList) (order : list nat) : list (bytes * (bytes * bool * Z)) :=
  map (entry_of (heap s)) order.

Lemma content_keys s order : (content s order).*1 = keyof (heap s) <$> order.
Proof. unfold content. induction order as [|a l IH]; [done |]. simpl. f_equal. exact IH. Qed.

Lemma shape_entry h h' a : same_shape h h' -> entry_of h' a = entry_of h a.
Proof.
  intros H. unfold entry_of. rewrite (shape_keyof h h') by done. specialize (H a). f_equal.
  destruct (h !! a), (h' !! a); simpl in *; try done. unfold meta. injection H. congruence.
Qed.

Lemma keyof_split h order k :
  sorted (keyof h <$> order) ->
  exists lt ge, order = lt ++ ge /\ (forall a, a ∈ lt -> key_lt (keyof h a) k) /\
    (forall a, a ∈ ge -> key_le k (keyof h a)).
Proof.
  induction order as [|a order IH]; simpl.
  { exists [], []. split_and!; [done | by intros ? ?%not_elem_of_nil..]. }
  intros [Hs Ha]%StronglySorted_inv. destruct (decide (key_lt (keyof h a) k)) as [Hlt | Hge].
  - destruct (IH Hs) as (lt & ge & -> & Hl & Hg). exists (a :: lt), ge. split_and!; try done.
    intros b [-> | Hb]%elem_of_cons; auto.
  - apply key_not_lt in Hge. exists [], (a :: order). split_and!; [done | by intros ? ?%not_elem_of_nil |].
    intros b [-> | Hb]%elem_of_cons; [done |]. apply key_le_cases. left.
    eapply key_le_lt_trans; [exact Hge |]. rewrite Forall_forall in Ha. apply Ha.
    apply list_elem_of_fmap. by exists b.
Qed.

Lemma promote_bounds fuel : forall level draws,
  (level <= fst (promote fuel level draws) <= level + fuel)%nat.
Proof.
  induction fuel as [|fuel IH]; intros level draws; simpl; [lia |].
  destruct draws as [|[] draws]; simpl; [lia | | lia]. specialize (IH (S level) draws). lia.
Qed.

Lemma randomLevel_bounds s : (1 <= fst (randomLevel s) <= maxHeight)%nat.
Proof. unfold randomLevel. pose proof (promote_bounds (maxHeight - 1) 1 (rnd s)). unfold maxHeight in *. lia. Qed.

(** ** Inserting a node *)

Section inserting.
Context (s : skipList) (order lt ge : list nat) (k v : bytes) (sq : Z) (del : bool) (level : nat).
Context (Hwf : wf s order) (Hsplit : order = lt ++ ge).
Context (Hlt : forall a, a ∈ lt -> key_lt (keyof (heap s) a) k).
Context (Hgt : forall a, a ∈ ge -> key_lt k (keyof (heap s) a)).
Context (Hlevel : (1 <= level <= maxHeight)%nat).

Let n := length (heap s).
Let h1 := heap s ++ [mkNode k v del sq (replicate level None)].
Let hgt := Nat.max (height s) level.
Let pred_at j := pred (chain (heap s) j lt).

Lemma in_lt a : a ∈ lt -> a ∈ order.
Proof. rewrite Hsplit, elem_of_app. tauto. Qed.
Lemma in_ge a : a ∈ ge -> a ∈ order.
Proof. rewrite Hsplit, elem_of_app. tauto. Qed.

Lemma order_alive a : a ∈ order -> (a < n)%nat.
Proof. intros (_ & (m & Hm & _) & _)%(wf_nodes _ _ Hwf). by apply lookup_lt_Some in Hm. Qed.

Lemma head_alive : (head_addr < n)%nat.
Proof. destruct (wf_head _ _ Hwf) as (m & Hm & _). by apply lookup_lt_Some in Hm. Qed.

Lemma lookup_old a : (a < n)%nat -> h1 !! a = heap s !! a.
Proof. intros. by apply lookup_app_l. Qed.
Lemma lookup_new : h1 !! n = Some (mkNode k v del sq (replicate level None)).
Proof. unfold h1. rewrite lookup_app_r by done. unfold n. by rewrite Nat.sub_diag. Qed.

Lemma fwd_old a i : (a < n)%nat -> fwd h1 a i = fwd (heap s) a i.
Proof. intros. unfold fwd, deref. by rewrite lookup_old. Qed.
Lemma tall_old a i : (a < n)%nat -> tall h1 i a <-> tall (heap s) i a.
Proof. intros. unfold tall. by rewrite lookup_old. Qed.
Lemma tall_new i : tall h1 i n <-> (i < level)%nat.
Proof.
  unfold tall. rewrite lookup_new. split.
  - intros (m & [= <-] & Hi). simpl in Hi. by rewrite length_replicate in Hi.
  - intros Hi. eexists. split; [done |]. simpl. by rewrite length_replicate.
Qed.
Lemma chain_old i l : (forall a, a ∈ l -> a ∈ order) -> chain h1 i l = chain (heap s) i l.
Proof.
  intros Hl. unfold chain. induction l as [|a l IH]; [done |]. rewrite !filter_cons.
  rewrite IH by set_solver. assert (a < n)%nat as Ha by (apply order_alive; set_solver).
  destruct (decide (tall h1 i a)) as [H1|H1], (decide (tall (heap s) i a)) as [H2|H2]; try done;
    by apply tall_old in H1 || (exfalso; apply H1; by apply tall_old).
Qed.
Lemma keyof_old a : (a < n)%nat -> keyof h1 a = keyof (heap s) a.
Proof. intros. unfold keyof. by rewrite lookup_old. Qed.
Lemma entry_old a : (a < n)%nat -> entry_of h1 a = entry_of (heap s) a.
Proof. intros. unfold entry_of, keyof. by rewrite lookup_old. Qed.

Lemma chain_above j : (height s <= j)%nat -> chain (heap s) j lt = [].
Proof.
  intros Hj. unfold chain.
  assert (forall a, a ∈ lt -> ~ tall (heap s) j a) as Hno.
  { intros a Ha Ht. apply (wf_nodes _ _ Hwf a); [by apply in_lt |].
    by apply (tall_le _ _ j). }
  apply filter_none, Forall_forall. exact Hno.
Qed.

Lemma preds_update :
  take level (if (height s <? level)%nat
              then preds s lt ++ replicate (level - height s) head_addr else preds s lt)
  = map pred_at (List.seq 0 level).
Proof.
  unfold preds. fold (map pred_at (List.seq 0 (height s))).
  destruct (Nat.ltb_spec (height s) level).
  - replace (List.seq 0 level) with (List.seq 0 (height s) ++ List.seq (height s) (level - height s)).
    2:{ rewrite <- List.seq_app. f_equal. lia. }
    rewrite map_app, take_ge by (rewrite length_app, length_map, length_seq, length_replicate; lia).
    f_equal. apply replicate_as_elem_of. split; [by rewrite length_map, length_seq |].
    intros y Hy. apply list_elem_of_In, in_map_iff in Hy as (j & <- & [Hj _]%in_seq).
    unfold pred_at, pred. by rewrite chain_above.
  - replace (List.seq 0 (height s)) with (List.seq 0 level ++ List.seq level (height s - level)).
    2:{ rewrite <- List.seq_app. f_equal. lia. }
    rewrite map_app, take_app_length'; [done |]. by rewrite length_map, length_seq.
Qed.

Lemma pred_at_lookup j u :
  map pred_at (List.seq 0 level) !! j = Some u -> u = pred_at j /\ (j < level)%nat.
Proof.
  intros H. pose proof (lookup_lt_Some _ _ _ H) as Hj. rewrite length_map, length_seq in Hj.
  split; [| done]. change (map pred_at (List.seq 0 level)) with (pred_at <$> List.seq 0 level) in H.
  rewrite list_lookup_fmap, lookup_seq_lt in H by done. by injection H as <-.
Qed.

Lemma pred_at_tall j : (j < maxHeight)%nat -> (pred_at j < n)%nat /\ tall (heap s) j (pred_at j).
Proof.
  intros Hj. unfold pred_at. destruct (pred_in (chain (heap s) j lt)) as [-> | Hp].
  - split; [apply head_alive |]. destruct (wf_head _ _ Hwf) as (m & Hm & Hl). exists m.
    split; [done | lia].
  - apply list_elem_of_filter in Hp as [Ht Hin]. split; [| done].
    by apply order_alive, in_lt.
Qed.

(** The new heap. *)
Lemma link_new :
  exists h, link h1 n 0 (map pred_at (List.seq 0 level)) = Ok h /\ same_shape h1 h /\
    (forall i, (i < level)%nat ->
       fwd h (pred_at i) i = Ok (Some n) /\ fwd h n i = fwd (heap s) (pred_at i) i /\
       (forall y, (y < n)%nat -> y <> pred_at i -> fwd h y i = fwd (heap s) y i)) /\
    (forall i y, (level <= i)%nat -> (y < n)%nat -> fwd h y i = fwd (heap s) y i).
Proof.
  destruct (link_spec (map pred_at (List.seq 0 level)) h1 n 0) as (h & Hh & Hs & Hf).
  { intros j Hj. rewrite length_map, length_seq in Hj. by apply tall_new. }
  { intros j u [-> Hj]%pred_at_lookup. destruct (pred_at_tall j ltac:(lia)) as [Ha Ht].
    split; [by apply tall_old | lia]. }
  exists h. split_and!; [done | done | |].
  - intros i Hi. destruct (pred_at_tall i ltac:(lia)) as [Ha _].
    assert (map pred_at (List.seq 0 level) !! i = Some (pred_at i)) as Hu.
    { change (map pred_at (List.seq 0 level)) with (pred_at <$> List.seq 0 level).
      by rewrite list_lookup_fmap, lookup_seq_lt. }
    assert (forall y, fwd h y i = if decide (y = pred_at i) then Ok (Some n)
      else if decide (y = n) then fwd h1 (pred_at i) i else fwd h1 y i) as Hfi.
    { intros y. rewrite Hf. unfold linked. rewrite Nat.sub_0_r, Hu. by rewrite decide_False by lia. }
    split_and!.
    + by rewrite Hfi, decide_True.
    + rewrite Hfi, decide_False, decide_True by (done || lia). by apply fwd_old.
    + intros y Hy Hne. rewrite Hfi, decide_False, decide_False by (done || lia). by apply fwd_old.
  - intros i y Hi Hy. rewrite Hf. unfold linked. rewrite Nat.sub_0_r, lookup_ge_None_2.
    + by apply fwd_old.
    + by rewrite length_map, length_seq.
Qed.

Lemma order_NoDup : NoDup (head_addr :: order).
Proof.
  constructor.
  - intros Hin. by apply (wf_nodes _ _ Hwf) in Hin as [].
  - eapply NoDup_fmap_1, sorted_NoDup, (wf_sorted _ _ Hwf).
Qed.

Lemma insert_links h i :
  same_shape h1 h ->
  (forall i, (i < level)%nat ->
     fwd h (pred_at i) i = Ok (Some n) /\ fwd h n i = fwd (heap s) (pred_at i) i /\
     (forall y, (y < n)%nat -> y <> pred_at i -> fwd h y i = fwd (heap s) y i)) ->
  (forall i y, (level <= i)%nat -> (y < n)%nat -> fwd h y i = fwd (heap s) y i) ->
  (i < maxHeight)%nat -> links h i head_addr (chain h i (lt ++ n :: ge)).
Proof.
  intros Hs Hin Hout Hi. rewrite (chain_shape h1 h) by done.
  assert (chain h1 i (lt ++ n :: ge) = chain (heap s) i lt ++ chain h1 i [n] ++ chain (heap s) i ge) as ->.
  { rewrite cons_middle. unfold chain at 1. rewrite !filter_app. fold (chain h1 i lt) (chain h1 i ge).
    rewrite (chain_old i lt in_lt), (chain_old i ge in_ge). done. }
  pose proof (chain_split s order lt ge Hwf Hsplit i Hi) as Hl.
  assert (forall y, y ∈ head_addr :: chain (heap s) i lt ++ chain (heap s) i ge -> (y < n)%nat) as Hold.
  { intros y [-> | Hy]%elem_of_cons; [apply head_alive |]. apply order_alive.
    apply elem_of_app in Hy as [Hy | Hy]; apply list_elem_of_filter in Hy as [_ ?];
      [by apply in_lt | by apply in_ge]. }
  destruct (decide (i < level)%nat) as [Hlv | Hlv].
  - unfold chain at 2. rewrite filter_cons_True, filter_nil by (by apply tall_new). simpl.
    destruct (Hin i Hlv) as (Hu & Hn & Hy). eapply links_insert; [exact Hl | | | exact Hu | exact Hn |].
    + eapply (sublist_NoDup _ _ order_NoDup). rewrite Hsplit. apply sublist_skip.
      apply sublist_app; apply sublist_filter.
    + intros Hnin%Hold. lia.
    + intros y Hne Hyn. destruct (decide (y < n)%nat); [by apply Hy |].
      unfold fwd, deref. rewrite (lookup_ge_None_2 (heap s)) by (unfold n in *; lia).
      rewrite (lookup_ge_None_2 h); [done |]. rewrite (shape_length h1 h) by done.
      unfold h1. rewrite length_app. simpl. fold n. lia.
  - unfold chain at 2. rewrite filter_cons_False, filter_nil by (by rewrite tall_new). simpl.
    revert Hl. apply links_frame. intros y Hy%Hold. apply Hout; [lia | done].
Qed.

(** Everything else the invariant asks of the new heap. *)
Context (h : list node) (Hs : same_shape h1 h).

Lemma new_entry a : (a < n)%nat -> entry_of h a = entry_of (heap s) a.
Proof. intros. rewrite (shape_entry h1 h) by done. by apply entry_old. Qed.
Lemma new_entry_n : entry_of h n = (k, (v, del, sq)).
Proof. rewrite (shape_entry h1 h) by done. unfold entry_of, keyof. by rewrite lookup_new. Qed.

Lemma new_entries l : (forall a, a ∈ l -> a ∈ order) -> map (entry_of h) l = content s l.
Proof. intros Hl. apply map_ext_in. intros a Ha%list_elem_of_In. by apply new_entry, order_alive, Hl. Qed.

Lemma new_content :
  map (entry_of h) (lt ++ n :: ge) = content s lt ++ (k, (v, del, sq)) :: content s ge.
Proof. by rewrite map_app, map_cons, new_entry_n, (new_entries lt in_lt), (new_entries ge in_ge). Qed.

Lemma new_sorted : sorted (keyof h <$> lt ++ n :: ge).
Proof.
  pose proof (content_keys (mkList h 0 0 []) (lt ++ n :: ge)) as Hk. simpl in Hk. rewrite <- Hk.
  unfold content at 1. simpl heap. rewrite new_content, fmap_app, fmap_cons, !content_keys. clear Hk. simpl.
  pose proof (wf_sorted _ _ Hwf) as Hso. rewrite Hsplit, fmap_app in Hso.
  apply sorted_app in Hso as (Hs1 & Hs2 & Hs12). apply sorted_app. split_and!; [done | |].
  - constructor; [done |]. apply Forall_forall. intros x (a & -> & Ha)%list_elem_of_fmap. by apply Hgt.
  - intros x y (a & -> & Ha)%list_elem_of_fmap [-> | Hy]%elem_of_cons; [by apply Hlt |].
    apply Hs12; [| done]. apply list_elem_of_fmap. by exists a.
Qed.

Lemma new_nodes a :
  a ∈ lt ++ n :: ge -> a <> head_addr /\ tall h 0 a /\ ~ tall h (height s `max` level) a.
Proof.
  rewrite elem_of_app, elem_of_cons, <- !(shape_tall h1 h) by done. intros Ha.
  assert (a = n \/ a ∈ order) as [-> | Ha'] by (destruct Ha as [?%in_lt | [? | ?%in_ge]]; tauto).
  - rewrite !tall_new. pose proof head_alive. unfold head_addr in *. lia.
  - rewrite !tall_old by (by apply order_alive).
    destruct (wf_nodes _ _ Hwf a Ha') as (? & ? & Ht). split_and!; [done | done |].
    intros Hx. apply Ht. by apply (tall_le _ _ (height s `max` level)); [lia |].
Qed.

Lemma new_head : exists m, h !! head_addr = Some m /\ length (forward m) = maxHeight.
Proof.
  destruct (wf_head _ _ Hwf) as (m & Hm & Hl).
  destruct (shape_lookup h1 h head_addr m Hs) as (m' & Hm' & [= _ _ _ _ Hf]).
  - by rewrite lookup_old by apply head_alive.
  - exists m'. split; [done | congruence].
Qed.
End inserting.

Lemma insert_new_spec s order lt ge k v sq del :
  wf s order -> order = lt ++ ge ->
  (forall a, a ∈ lt -> key_lt (keyof (heap s) a) k) ->
  (forall a, a ∈ ge -> key_lt k (keyof (heap s) a)) ->
  exists s', insert_new s (preds s lt) k v sq del = Ok (s', entrySize k v) /\
    wf s' (lt ++ length (heap s) :: ge) /\
    content s' (lt ++ length (heap s) :: ge) = content s lt ++ (k, (v, del, sq)) :: content s ge.
Proof.
  intros Hwf Hsplit Hlt Hgt. unfold insert_new. pose proof (randomLevel_bounds s) as Hlevel.
  destruct (randomLevel s) as [level draws]. simpl in Hlevel.
  pose proof (preds_update s order lt ge level Hwf Hsplit) as Hup.
  replace (if (height s <? level)%nat then (preds s lt ++ replicate (level - height s) head_addr, level)
           else (preds s lt, height s))
    with (if (height s <? level)%nat then preds s lt ++ replicate (level - height s) head_addr
          else preds s lt, Nat.max (height s) level)
    by (destruct (Nat.ltb_spec (height s) level); f_equal; lia).
  cbv iota beta. rewrite Hup by done.
  destruct (link_new s order lt ge k v sq del level Hwf Hsplit Hlevel) as (h & Hh & Hs & Hin & Hout).
  rewrite Hh. cbn [res_bind]. eexists. split; [reflexivity |]. split.
  - pose proof (wf_height _ _ Hwf). constructor; simpl.
    + eapply new_head; [exact Hwf | exact Hs].
    + eapply new_nodes; [exact Hwf | exact Hsplit | exact Hlevel | exact Hs].
    + eapply new_sorted; [exact Hwf | exact Hsplit | exact Hlt | exact Hgt | exact Hlevel | exact Hs].
    + lia.
    + intros i Hi. eapply insert_links; [exact Hwf | exact Hsplit | exact Hlt | exact Hgt | exact Hlevel | exact Hs | exact Hin | exact Hout | exact Hi].
    + rewrite (shape_length _ _ Hs), !length_app, (wf_size _ _ Hwf), Hsplit, length_app. simpl. lia.
    + rewrite (wf_length _ _ Hwf), Hsplit. len_lia.
  - eapply new_content; eauto.
Qed.

(** ** Overwriting a node in place *)

Lemma update_spec s order lt e ge n k v sq del :
  wf s order -> order = lt ++ e :: ge -> heap s !! e = Some n -> key n = k ->
  let s' := mkList (<[e := mkNode k v del sq (forward n)]> (heap s)) (height s) (length_ s) (rnd s) in
  wf s' order /\ content s' order = content s lt ++ (k, (v, del, sq)) :: content s ge.
Proof.
  intros Hwf Hsplit Hn Hk s'. set (h := <[e := _]> (heap s)) in *.
  pose proof (lookup_lt_Some _ _ _ Hn) as He.
  assert (forall a, a <> e -> h !! a = heap s !! a) as Hother by (intros; by apply list_lookup_insert_ne).
  assert (h !! e = Some (mkNode k v del sq (forward n))) as Hat by (by apply list_lookup_insert_eq).
  assert (forall a i, fwd h a i = fwd (heap s) a i) as Hfwd.
  { intros a i. unfold fwd, deref. destruct (decide (a = e)) as [-> | ?]; [by rewrite Hat, Hn | by rewrite Hother]. }
  assert (forall a i, tall h i a <-> tall (heap s) i a) as Htall.
  { intros a i. unfold tall. destruct (decide (a = e)) as [-> | ?]; [| by rewrite Hother].
    rewrite Hat, Hn. split; intros (m & [= <-] & ?); eauto. }
  assert (forall a, keyof h a = keyof (heap s) a) as Hkey.
  { intros a. unfold keyof. destruct (decide (a = e)) as [-> | ?]; [| by rewrite Hother].
    rewrite Hat, Hn. simpl. congruence. }
  assert (NoDup order) as Hnd by (eapply NoDup_fmap_1, sorted_NoDup, (wf_sorted _ _ Hwf)).
  rewrite Hsplit in Hnd. apply NoDup_app in Hnd as (_ & Hlt & [Hge _]%NoDup_cons).
  split.
  - destruct Hwf as [(hd & Hhd & Hhl) Hnodes Hsorted Hh Hlinks Hsize Hlen]. constructor; simpl; try done.
    + assert (tall h 15 head_addr) as (m & Hm & _) by (apply Htall; exists hd; unfold maxHeight in *; split; [done | lia]).
      exists m. split; [done |]. destruct (decide (head_addr = e)) as [<- | ?].
      * rewrite Hat in Hm. injection Hm as <-. simpl. congruence.
      * rewrite Hother in Hm by done. congruence.
    + intros a Ha. rewrite !Htall. by apply Hnodes.
    + erewrite list_fmap_ext; [exact Hsorted |]. intros i a _. apply Hkey.
    + intros i Hi. unfold chain; erewrite (list_filter_iff _ (tall (heap s) i)) by (intros a; apply Htall).
      apply (links_frame (heap s)); [intros; apply Hfwd | by apply Hlinks].
    + unfold h. by rewrite length_insert.
  - rewrite Hsplit. unfold content. rewrite map_app, map_cons. simpl heap.
    assert (forall l, e ∉ l -> map (entry_of h) l = map (entry_of (heap s)) l) as Hsame.
    { intros l Hl. apply map_ext_in. intros a Ha%list_elem_of_In. unfold entry_of, keyof.
      rewrite Hother; [done |]. by intros ->. }
    rewrite !Hsame; [| done | intros Hin; eapply Hlt; [exact Hin | by left]]. do 2 f_equal.
    unfold entry_of, keyof. by rewrite Hat.
Qed.

(** ** [put] and [get] *)

Lemma put_spec s order k v sq del :
  wf s order ->
  exists s' d order' A old B,
    put s k v sq del = Ok (s', d) /\ wf s' order' /\
    content s order = A ++ old ++ B /\ content s' order' = A ++ (k, (v, del, sq)) :: B /\
    ((old = [] /\ d = entrySize k v) \/
     (exists v0 m, old = [(k, (v0, m.1, m.2))] /\ d = entrySize k v - entrySize k v0)).
Proof.
  intros Hwf. destruct (keyof_split (heap s) order k (wf_sorted _ _ Hwf)) as (lt & ge & Hsplit & Hlt & Hge).
  unfold put. rewrite (descend_top s order lt ge k Hwf Hsplit Hlt Hge). cbn [res_bind].
  rewrite (search_next s order lt ge k Hwf Hsplit) by done. cbn [res_bind].
  assert ((forall a, a ∈ ge -> key_lt k (keyof (heap s) a)) ->
    exists s' d order' A old B,
      insert_new s (preds s lt) k v sq del = Ok (s', d) /\ wf s' order' /\
      content s order = A ++ old ++ B /\ content s' order' = A ++ (k, (v, del, sq)) :: B /\
      ((old = [] /\ d = entrySize k v) \/
       (exists v0 m, old = [(k, (v0, m.1, m.2))] /\ d = entrySize k v - entrySize k v0))) as Hins.
  { intros Hgt. destruct (insert_new_spec s order lt ge k v sq del Hwf Hsplit Hlt Hgt) as (s' & Hr & Hw & Hc).
    exists s', (entrySize k v), (lt ++ length (heap s) :: ge), (content s lt), [], (content s ge).
    split_and!; try done; [| by left]. unfold content. by rewrite Hsplit, map_app. }
  destruct ge as [|e ge]; cbn [head]; [apply Hins; by intros ? ?%not_elem_of_nil |].
  destruct (wf_nodes _ _ Hwf e) as (_ & (n & Hn & _) & _); [rewrite Hsplit; set_solver |].
  unfold deref. rewrite Hn. cbn [res_bind]. unfold equal. case_bool_decide as Hk.
  - destruct (update_spec s order lt e ge n k v sq del Hwf Hsplit Hn Hk) as [Hw Hc].
    rewrite Hk. eexists _, _, order, (content s lt), [(k, (value n, deleted n, seq n))], (content s ge).
    split; [reflexivity |]. split; [exact Hw |]. split; [| split; [exact Hc |]].
    + unfold content. rewrite Hsplit, map_app, map_cons. unfold entry_of at 2, keyof. by rewrite Hn, <- Hk.
    + right. by exists (value n), (deleted n, seq n).
  - apply Hins. intros a Ha. assert (key_lt k (keyof (heap s) e)) as Hke.
    { assert (keyof (heap s) e = key n) as Hkn by (unfold keyof; by rewrite Hn).
      destruct (proj1 (key_le_cases _ _) (Hge e ltac:(set_solver))) as [? | ->]; [done | congruence]. }
    apply elem_of_cons in Ha as [-> | Ha]; [done |]. transitivity (keyof (heap s) e); [done |].
    pose proof (wf_sorted _ _ Hwf) as Hso. rewrite Hsplit, fmap_app, fmap_cons in Hso.
    apply sorted_app in Hso as (_ & [_ Hall]%StronglySorted_inv & _). rewrite Forall_forall in Hall.
    apply Hall, list_elem_of_fmap. by exists a.
Qed.

Lemma get_spec s order k :
  wf s order ->
  exists r, get s k = Ok r /\
    match r with
    | Some n => key n = k /\ (k, meta n) ∈ content s order
    | None => k ∉ (content s order).*1
    end.
Proof.
  intros Hwf. destruct (keyof_split (heap s) order k (wf_sorted _ _ Hwf)) as (lt & ge & Hsplit & Hlt & Hge).
  unfold get. rewrite (descend_top s order lt ge k Hwf Hsplit Hlt Hge). cbn [res_bind].
  rewrite (search_next s order lt ge k Hwf Hsplit) by done. cbn [res_bind]. rewrite content_keys.
  assert (forall a, a ∈ lt -> keyof (heap s) a <> k) as Hlt' by (intros a Ha; by apply key_lt_neq, Hlt).
  destruct ge as [|e ge]; cbn [head].
  { exists None. split; [done |]. intros (a & Hk & Ha)%list_elem_of_fmap. rewrite Hsplit, app_nil_r in Ha.
    by apply Hlt' in Ha. }
  destruct (wf_nodes _ _ Hwf e) as (_ & (n & Hn & _) & _); [rewrite Hsplit; set_solver |].
  unfold deref. rewrite Hn. cbn [res_bind]. unfold equal. eexists. split; [reflexivity |].
  case_bool_decide as Hk.
  - split; [done |]. apply list_elem_of_In, in_map_iff. exists e. split.
    + unfold entry_of, keyof. rewrite Hn. simpl. congruence.
    + apply list_elem_of_In. rewrite Hsplit. set_solver.
  - intros (a & Hka & Ha)%list_elem_of_fmap. rewrite Hsplit in Ha.
    assert (keyof (heap s) e = key n) as Hkn by (unfold keyof; by rewrite Hn).
    pose proof (wf_sorted _ _ Hwf) as Hso. rewrite Hsplit, fmap_app, fmap_cons in Hso.
    apply sorted_app in Hso as (_ & [_ Hall]%StronglySorted_inv & _). rewrite Forall_forall in Hall.
    apply elem_of_app in Ha as [Ha | [-> | Ha]%elem_of_cons]; [by apply Hlt' in Ha | congruence |].
    assert (key_lt (keyof (heap s) e) k) as Hek.
    { rewrite Hka. apply Hall, list_elem_of_fmap. by exists a. }
    apply (irreflexivity key_lt k). apply (key_le_lt_trans _ (keyof (heap s) e)); [| done].
    apply Hge. by left.
Qed.

(** The level-0 traversal lists the entries in key order. *)
Lemma traverse_links fuel : forall h x l,
  links h 0 x l -> (length l < fuel)%nat -> (forall a, a ∈ l -> is_Some (h !! a)) ->
  exists ns, traverse fuel h x = Ok ns /\ map entry ns = map (entry_of h) l.
Proof.
  induction fuel as [|fuel IH]; intros h x l Hl Hf Hal; [lia |]. cbn [traverse].
  destruct l as [|y l]; simpl in Hl; [rewrite Hl; by exists [] |]. destruct Hl as [-> Hl].
  destruct (Hal y) as [n Hn]; [by left |]. cbn [res_bind]. unfold deref. rewrite Hn. cbn [res_bind].
  destruct (IH h y l) as (ns & -> & Hns); [done | simpl in Hf; lia | intros a Ha; apply Hal; by right |].
  exists (n :: ns). split; [done |]. simpl. rewrite Hns. f_equal. unfold entry_of, keyof. by rewrite Hn.
Qed.

Lemma traverse_spec s order :
  wf s order ->
  exists ns, traverse (length (heap s)) (heap s) head_addr = Ok ns /\ map entry ns = content s order.
Proof.
  intros Hwf. pose proof (wf_links _ _ Hwf 0%nat ltac:(unfold maxHeight; lia)) as Hl.
  rewrite (chain_bottom s order Hwf) in Hl by done.
  apply traverse_links; [done | rewrite (wf_size _ _ Hwf); lia |].
  intros a Ha. by destruct (wf_nodes _ _ Hwf a Ha) as (_ & (n & -> & _) & _).
Qed.

Lemma newSkipList_wf draws : wf (newSkipList draws) [].
Proof.
  constructor; simpl; try done.
  - eexists. split; [reflexivity |]. done.
  - by intros a ?%not_elem_of_nil.
  - constructor.
  - unfold maxHeight. lia.
  - intros i Hi. change (fwd (heap (newSkipList draws)) head_addr i = Ok None).
    unfold fwd, deref, newSkipList. cbn [heap lookup list_lookup head_addr res_bind forward].
    by rewrite lookup_replicate_2.
Qed.
