(* ===== verification/Memtable.v ===== *)
(** * The memtable (src/memtable/memtable.go, src/memtable/iterator.go)

    The write buffer over the skip list and its snapshot iterator.  The
    methods hold the table's lock for their whole body, so each is one step.
    The table refines a finite map from keys to (value, tombstone, sequence
    number), for every outcome of the random levels. *)

From S2P Require Import Prelude GoBytes GoSort SkipList.

Record Memtable := mkMem {
  list_ : skipList;
  approxSize : Z
}.

(** [draws]: the random source seeded from the clock. *)
Definition New (draws : list bool) : Memtable := mkMem (newSkipList draws) 0.

Definition Put (m : Memtable) (k v : bytes) (sq : Z) : res Memtable :=
  let* '(l, d) := put (list_ m) k v sq false in
  Ok (mkMem l (approxSize m + d)).

Definition Delete (m : Memtable) (k : bytes) (sq : Z) : res Memtable :=
  let* '(l, d) := put (list_ m) k [] sq true in
  Ok (mkMem l (approxSize m + d)).

(** [(value, seq, deleted, found)] *)
Definition Get (m : Memtable) (k : bytes) : res (bytes * Z * bool * bool) :=
  let* n := get (list_ m) k in
  Ok (match n with
      | None => ([], 0, false, false)
      | Some n => (value n, seq n, deleted n, true)
      end).

Definition ApproxSize (m : Memtable) : Z := approxSize m.
Definition Len (m : Memtable) : Z := length_ (list_ m).

(** ** The iterator *)

Record entrySnapshot := mkEntry { e_key : bytes; e_value : bytes; e_deleted : bool; e_seq : Z }.
Record Iterator := mkIter { entries : list entrySnapshot; idx : Z }.

Definition snapshot_of (n : node) : entrySnapshot := mkEntry (key n) (value n) (deleted n) (seq n).

Definition NewIterator (m : Memtable) : res Iterator :=
  let* ns := traverse (length (heap (list_ m))) (heap (list_ m)) head_addr in
  Ok (mkIter (map snapshot_of ns) (-1)).

Definition SeekToFirst (it : Iterator) : Iterator := mkIter (entries it) 0.

Definition Seek (it : Iterator) (target : bytes) : res Iterator :=
  let* i := search (len (entries it)) (fun i =>
    let* e := index (entries it) i in Ok (0 <=? compare (e_key e) target)) in
  Ok (mkIter (entries it) i).

Definition Valid (it : Iterator) : bool := (0 <=? idx it) && (idx it <? len (entries it)).

Definition Next (it : Iterator) : Iterator :=
  if idx it <? len (entries it) then mkIter (entries it) (idx it + 1) else it.

Definition Key (it : Iterator) : res bytes := let* e := index (entries it) (idx it) in Ok (e_key e).
Definition Value (it : Iterator) : res bytes := let* e := index (entries it) (idx it) in Ok (e_value e).
Definition Deleted (it : Iterator) : res bool := let* e := index (entries it) (idx it) in Ok (e_deleted e).
Definition SeqNum (it : Iterator) : res Z := let* e := index (entries it) (idx it) in Ok (e_seq e).

(** The loop every client runs: [for ; it.Valid(); it.Next()] reading the
    current entry. *)
Fixpoint drain (fuel : nat) (it : Iterator) : res (list entrySnapshot) :=
  match fuel with
  | O => Panic
  | S fuel =>
      if Valid it then
        let* k := Key it in let* v := Value it in let* d := Deleted it in let* s := SeqNum it in
        let* rest := drain fuel (Next it) in
        Ok (mkEntry k v d s :: rest)
      else Ok []
  end.

(** ** The abstract table *)

Inductive mop := MPut (k v : bytes) (sq : Z) | MDelete (k : bytes) (sq : Z).

Definition mexec (m : Memtable) (o : mop) : res Memtable :=
  match o with MPut k v sq => Put m k v sq | MDelete k sq => Delete m k sq end.
Fixpoint mrun (m : Memtable) (ops : list mop) : res Memtable :=
  match ops with
  | [] => Ok m
  | o :: ops => let* m := mexec m o in mrun m ops
  end.

(** A key's (value, tombstone, sequence number). *)
Abbreviation table := (gmap bytes (bytes * bool * Z)).
Definition mspec (M : table) (o : mop) : table :=
  match o with
  | MPut k v sq => <[k := (v, false, sq)]> M
  | MDelete k sq => <[k := ([], true, sq)]> M
  end.

Definition total (l : list (bytes * (bytes * bool * Z))) : Z :=
  foldr (fun e acc => entrySize e.1 e.2.1.1 + acc) 0 l.

Lemma total_perm l l' : l ≡ₚ l' -> total l = total l'.
Proof. induction 1; simpl; lia. Qed.
Lemma total_app l l' : total (l ++ l') = total l + total l'.
Proof. induction l as [|e l IH]; simpl; [done | rewrite IH; lia]. Qed.

Definition refines (m : Memtable) (M : table) : Prop :=
  exists order, wf (list_ m) order /\ list_to_map (content (list_ m) order) = M /\
    approxSize m = total (content (list_ m) order).

Lemma content_NoDup s order : wf s order -> NoDup (content s order).*1.
Proof. intros H. rewrite content_keys. apply sorted_NoDup, (wf_sorted _ _ H). Qed.

Lemma put_refines m M k v sq del :
  refines m M ->
  exists l d, put (list_ m) k v sq del = Ok (l, d) /\
    refines (mkMem l (approxSize m + d)) (<[k := (v, del, sq)]> M).
Proof.
  intros (order & Hwf & HM & Hsize).
  destruct (put_spec _ order k v sq del Hwf) as (s' & d & order' & A & old & B & Hput & Hwf' & HA & HB & Hd).
  exists s', d. split; [done |]. exists order'. simpl. rewrite HB. split_and!; [done | |].
  - pose proof (content_NoDup _ _ Hwf') as Hnd'. rewrite HB in Hnd'.
    pose proof (content_NoDup _ _ Hwf) as Hnd. rewrite HA in Hnd.
    rewrite (list_to_map_proper (M := gmap bytes) _ ((k, (v, del, sq)) :: A ++ B)) by (done || by rewrite <- Permutation_middle).
    rewrite <- HM, HA. simpl. destruct Hd as [[-> _] | (v0 & mt & -> & _)]; [done |].
    rewrite (list_to_map_proper (M := gmap bytes) (A ++ [_] ++ B) ((k, (v0, mt.1, mt.2)) :: A ++ B))
      by (done || by simpl; rewrite <- Permutation_middle).
    simpl. by rewrite insert_insert_eq.
  - rewrite Hsize, HA, !total_app. simpl. destruct Hd as [[-> ->] | (v0 & mt & -> & ->)]; simpl; lia.
Qed.

Lemma mexec_refines m M o : refines m M -> exists m', mexec m o = Ok m' /\ refines m' (mspec M o).
Proof.
  intros H. destruct o as [k v sq|k sq]; simpl; unfold Put, Delete.
  - destruct (put_refines m M k v sq false H) as (l & d & -> & ?). simpl. eauto.
  - destruct (put_refines m M k [] sq true H) as (l & d & -> & ?). simpl. eauto.
Qed.

Lemma mrun_refines ops : forall m M, refines m M ->
  exists m', mrun m ops = Ok m' /\ refines m' (fold_left mspec ops M).
Proof.
  induction ops as [|o ops IH]; intros m M H; simpl; [by exists m |].
  destruct (mexec_refines m M o H) as (m1 & -> & H1). simpl. by apply IH.
Qed.

Lemma New_refines draws : refines (New draws) ∅.
Proof. exists []. split_and!; [apply newSkipList_wf | done | done]. Qed.

Lemma Get_refines m M k :
  refines m M ->
  Get m k = Ok (match M !! k with Some (v, d, sq) => (v, sq, d, true) | None => ([], 0, false, false) end).
Proof.
  intros (order & Hwf & HM & _). unfold Get. destruct (get_spec _ _ k Hwf) as (r & -> & Hr). simpl.
  rewrite <- HM. destruct r as [n|].
  - destruct Hr as [_ Hin]. apply elem_of_list_to_map in Hin; [| by apply content_NoDup].
    rewrite Hin. done.
  - by rewrite (proj1 (not_elem_of_list_to_map _ _) Hr).
Qed.

Definition as_pair (e : entrySnapshot) : bytes * (bytes * bool * Z) :=
  (e_key e, (e_value e, e_deleted e, e_seq e)).

Lemma NewIterator_refines m M :
  refines m M ->
  exists it, NewIterator m = Ok it /\ idx it = -1 /\ sorted (e_key <$> entries it) /\
    map as_pair (entries it) ≡ₚ map_to_list M.
Proof.
  intros (order & Hwf & HM & _). unfold NewIterator.
  destruct (traverse_spec _ _ Hwf) as (ns & -> & Hns). simpl. eexists. split; [done |]. simpl.
  assert (map as_pair (map snapshot_of ns) = content (list_ m) order) as Hc by (rewrite map_map; exact Hns).
  split_and!; [done | |].
  - pose proof (wf_sorted _ _ Hwf) as Hs. rewrite <- content_keys, <- Hc in Hs.
    replace ((map as_pair (map snapshot_of ns)).*1) with (e_key <$> map snapshot_of ns) in Hs; [done |].
    generalize (map snapshot_of ns). intros l. induction l as [|e l IH]; [done |]. simpl. f_equal. exact IH.
  - rewrite Hc, <- HM. symmetry. apply map_to_list_to_map. by apply content_NoDup.
Qed.

Lemma refines_size m M : refines m M -> Len m = Z.of_nat (size M) /\ ApproxSize m = total (map_to_list M).
Proof.
  intros (order & Hwf & HM & Hs).
  assert (content (list_ m) order ≡ₚ map_to_list M) as Hp.
  { rewrite <- HM. symmetry. apply map_to_list_to_map. by apply content_NoDup. }
  split; [| by rewrite <- (total_perm _ _ Hp)].
  unfold Len. rewrite (wf_length _ _ Hwf). unfold len.
  replace (size M) with (length (map_to_list M)) by (by rewrite length_map_to_list).
  rewrite <- (Permutation_length Hp). unfold content. by rewrite length_map.
Qed.

(** ** Scanning *)

Lemma drain_from es : forall fuel i,
  0 <= i -> (length es - Z.to_nat i < fuel)%nat ->
  drain fuel (mkIter es i) = Ok (drop (Z.to_nat i) es).
Proof.
  intros fuel. induction fuel as [|fuel IH]; intros i Hi Hf; [lia |]. cbn [drain]. unfold Valid. simpl.
  rewrite (proj2 (Z.leb_le 0 i)) by done. simpl. destruct (Z.ltb_spec i (len es)) as [Hlt | Hge].
  - destruct (lookup_lt_is_Some_2 es (Z.to_nat i)) as [e He]; [unfold len in *; lia |].
    unfold Key, Value, Deleted, SeqNum, index. simpl.
    rewrite (proj2 (Z.leb_le 0 i)), He by done. cbn [res_bind].
    unfold Next. simpl. rewrite (proj2 (Z.ltb_lt _ _)) by done.
    rewrite IH by (unfold len in *; lia). cbn [res_bind].
    rewrite (drop_S _ _ _ He). replace (Z.to_nat (i + 1)) with (S (Z.to_nat i)) by lia. by destruct e.
  - by rewrite drop_ge by (unfold len in *; lia).
Qed.

(** Searching a sorted snapshot. *)
Lemma Seek_spec es i0 target :
  sorted (e_key <$> es) ->
  exists i, Seek (mkIter es i0) target = Ok (mkIter es (Z.of_nat i)) /\
    drop i es = filter (fun e => key_le target (e_key e)) es.
Proof.
  intros Hs. unfold Seek. simpl. destruct (search_sorted e_key es target Hs) as (r & -> & _ & Hlo & Hhi).
  exists r. split; [done |]. by apply sorted_cut.
Qed.

(** ** Properties *)

(** C25: the memtable is a map.  After any sequence of [Put]s and [Delete]s on
    a new table, whatever levels the skip list draws, every call has
    returned, without a nil dereference and without an endless search;
    [Get] answers exactly what the last write of the key said (a tombstone
    counts as found), [Len] counts the keys ever written, and [ApproxSize] is
    the sum of the sizes of the entries held. *)
Theorem memtable_refines_map draws ops :
  exists m, mrun (New draws) ops = Ok m /\
    let M := fold_left mspec ops ∅ in
    (forall k, Get m k = Ok (match M !! k with
                             | Some (v, d, sq) => (v, sq, d, true)
                             | None => ([], 0, false, false) end)) /\
    Len m = Z.of_nat (size M) /\ ApproxSize m = total (map_to_list M).
Proof.
  destruct (mrun_refines ops _ _ (New_refines draws)) as (m & Hm & Hr).
  exists m. split; [done |]. split; [intros k; by apply Get_refines | by apply refines_size].
Qed.

(** Scans are sorted and complete.  On a table reached by any writes, an
    iterator from the start visits every key exactly once in strictly
    increasing byte order, with the value, tombstone and sequence number the
    map holds; [Seek] skips exactly the keys smaller than the target. *)
Theorem iterator_scans_map draws ops target :
  exists m it, mrun (New draws) ops = Ok m /\ NewIterator m = Ok it /\
    let all := entries it in
    map as_pair all ≡ₚ map_to_list (fold_left mspec ops (∅ : table)) /\ sorted (e_key <$> all) /\
    drain (S (length all)) (SeekToFirst it) = Ok all /\
    exists it', Seek it target = Ok it' /\
      drain (S (length all)) it' = Ok (filter (fun e => key_le target (e_key e)) all).
Proof.
  destruct (mrun_refines ops _ _ (New_refines draws)) as (m & Hm & Hr).
  destruct (NewIterator_refines m _ Hr) as (it & Hit & _ & Hs & Hp).
  exists m, it. split_and!; [done | done |]. cbv zeta. split_and!; [done | done | |].
  - unfold SeekToFirst. by rewrite drain_from by lia.
  - destruct it as [es i0]. destruct (Seek_spec es i0 target Hs) as (i & Hseek & Hd).
    exists (mkIter es (Z.of_nat i)). split; [done |]. simpl entries.
    rewrite drain_from by lia. by rewrite Nat2Z.id, Hd.
Qed.

(** Two writes, an overwrite and a delete, with levels 3, 1 and 1. *)
Example memtable_run :
  let k1 := put_u32 1 in let k2 := put_u32 2 in
  (let* m := mrun (New [true; true; false]) [MPut k2 k1 1; MPut k1 k1 2; MPut k2 k2 3; MDelete k1 4] in
   let* a := Get m k1 in let* b := Get m k2 in Ok (a, b, Len m, ApproxSize m))
  = Ok (([], 4, true, true), (k2, 3, false, true), 2, 108).
Proof. vm_compute. reflexivity. Qed.
