(* ===== verification/RaftTypes.v ===== *)
(** * Raft: data types

    Models src/raft/message.go (roles, log entries, messages, read states,
    snapshots) and the type declarations of src/raft/raft.go ([Config] and its
    [validate], [HardState], [Ready], [Status], the [Raft] struct). *)

From S2P Require Import Prelude GoBytes.

Inductive Role := Follower | PreCandidate | Candidate | Leader.

#[global] Instance Role_eq_dec : EqDecision Role.
Proof. solve_decision. Defined.

(** [Role.String]. *)
Definition role_string (r : Role) : string :=
  match r with
  | Follower => "Follower"
  | PreCandidate => "PreCandidate"
  | Candidate => "Candidate"
  | Leader => "Leader"
  end.

Definition role_eqb (a b : Role) : bool := bool_decide (a = b).

Module LogEntry.
Record t := mk { Term : Z; Index : Z; Data : bytes }.
#[global] Instance t_eq_dec : EqDecision t.
Proof. solve_decision. Defined.
End LogEntry.

Module ReadState.
Record t := mk { Index : Z; Context : Z }.
#[global] Instance t_eq_dec : EqDecision t.
Proof. solve_decision. Defined.
End ReadState.

Module Snapshot.
Record t := mk { LastIncludedIndex : Z; LastIncludedTerm : Z; Data : bytes }.
#[global] Instance t_eq_dec : EqDecision t.
Proof. solve_decision. Defined.
(** The zero value: no snapshot taken yet. *)
Definition zero : t := mk 0 0 [].
End Snapshot.

(** [MessageType] is an integer; a value outside the eight constants is
    ignored by [Step]. *)
Inductive MessageType :=
  | MsgPreVote
  | MsgPreVoteResponse
  | MsgRequestVote
  | MsgRequestVoteResponse
  | MsgAppendEntries
  | MsgAppendEntriesResponse
  | MsgInstallSnapshot
  | MsgInstallSnapshotResponse
  | MsgUnknown (n : Z).

#[global] Instance MessageType_eq_dec : EqDecision MessageType.
Proof. solve_decision. Defined.

(** [MessageType.String]. *)
Definition message_type_string (t : MessageType) : string :=
  match t with
  | MsgPreVote => "PreVote"
  | MsgPreVoteResponse => "PreVoteResponse"
  | MsgRequestVote => "RequestVote"
  | MsgRequestVoteResponse => "RequestVoteResponse"
  | MsgAppendEntries => "AppendEntries"
  | MsgAppendEntriesResponse => "AppendEntriesResponse"
  | MsgInstallSnapshot => "InstallSnapshot"
  | MsgInstallSnapshotResponse => "InstallSnapshotResponse"
  | MsgUnknown _ => "Unknown"
  end.

Module Message.
Record t := mk {
  Type_ : MessageType;
  From : Z;
  To : Z;
  Term : Z;
  LastLogIndex : Z;
  LastLogTerm : Z;
  VoteGranted : bool;
  PrevLogIndex : Z;
  PrevLogTerm : Z;
  Entries : list LogEntry.t;
  LeaderCommit : Z;
  Success : bool;
  MatchIndex : Z;
  ReadContext : Z;
  Snapshot : Snapshot.t
}.
#[global] Instance t_eq_dec : EqDecision t.
Proof. solve_decision. Defined.

(** Composite literals: the fields a message type uses, the rest zero. *)
Definition vote_request (ty : MessageType) (to lastIndex lastTerm : Z) : t :=
  mk ty 0 to 0 lastIndex lastTerm false 0 0 [] 0 false 0 0 Snapshot.zero.
Definition vote_response (ty : MessageType) (to : Z) (granted : bool) : t :=
  mk ty 0 to 0 0 0 granted 0 0 [] 0 false 0 0 Snapshot.zero.
Definition append_request (to prev prevTerm : Z) (es : list LogEntry.t)
    (commit ctx : Z) : t :=
  mk MsgAppendEntries 0 to 0 0 0 false prev prevTerm es commit false 0 ctx Snapshot.zero.
Definition append_response (to : Z) (ok : bool) (mi ctx : Z) : t :=
  mk MsgAppendEntriesResponse 0 to 0 0 0 false 0 0 [] 0 ok mi ctx Snapshot.zero.
Definition snapshot_request (to : Z) (s : Snapshot.t) : t :=
  mk MsgInstallSnapshot 0 to 0 0 0 false 0 0 [] 0 false 0 0 s.
Definition snapshot_response (to mi : Z) : t :=
  mk MsgInstallSnapshotResponse 0 to 0 0 0 false 0 0 [] 0 false mi 0 Snapshot.zero.

(** The two fields [send] stamps. *)
Definition stamp (from term : Z) (m : t) : t :=
  mk (Type_ m) from (To m) term (LastLogIndex m) (LastLogTerm m) (VoteGranted m)
    (PrevLogIndex m) (PrevLogTerm m) (Entries m) (LeaderCommit m) (Success m)
    (MatchIndex m) (ReadContext m) (Snapshot m).
End Message.

Module HardState.
Record t := mk { Term : Z; Vote : Z }.
#[global] Instance t_eq_dec : EqDecision t.
Proof. solve_decision. Defined.
End HardState.

Module Config.
Record t := mk { ID : Z; Peers : list Z; ElectionTick : Z; HeartbeatTick : Z }.

Fixpoint check_peers (self : Z) (ps : list Z) : option error :=
  match ps with
  | [] => None
  | p :: ps =>
      if p =? 0 then Some (Errorf "raft: peer IDs must be nonzero")
      else if p =? self then
        Some (Errorf "raft: Peers must not include this node's own ID")
      else check_peers self ps
  end.

Definition validate (c : t) : option error :=
  if ID c =? 0 then Some (Errorf "raft: Config.ID must be nonzero")
  else match check_peers (ID c) (Peers c) with
  | Some e => Some e
  | None =>
      if (ElectionTick c <=? 0) || (HeartbeatTick c <=? 0) then
        Some (Errorf "raft: ElectionTick and HeartbeatTick must be positive")
      else if ElectionTick c <? HeartbeatTick c * 2 then
        Some (Errorf "raft: ElectionTick should be at least 2x HeartbeatTick")
      else None
  end.
End Config.

Module Ready.
Record t := mk {
  HardState : option HardState.t;
  UnstableEntries : list LogEntry.t;
  FirstUnstableIndex : Z;
  Messages : list Message.t;
  ReadStates : list ReadState.t;
  Snapshot : option Snapshot.t;
  SnapshotToApply : option Snapshot.t
}.
End Ready.

Module Status.
Record t := mk {
  ID : Z;
  Term : Z;
  role : Role;
  Leader : Z;
  CommitIndex : Z;
  LastLogIndex : Z
}.
End Status.

Record pendingRead := { pr_index : Z; pr_acked : gset Z }.

(** The [Raft] struct.  A Go map read at an absent key is zero, so the
    progress maps are finite maps read with default 0; the vote maps only ever
    hold [true] and are sets.  [rnd] is the sequence of draws the node's
    random generator has still to make. *)
Record Raft := mkRaft {
  id : Z;
  peers : list Z;
  role : Role;
  currentTerm : Z;
  votedFor : Z;
  leaderID : Z;
  log : list LogEntry.t;
  snapshot : Snapshot.t;
  pendingSnapshotToApply : option Snapshot.t;
  commitIndex : Z;
  lastApplied : Z;
  stableTerm : Z;
  stableVote : Z;
  unstableIndex : Z;
  stableSnapshotIndex : Z;
  nextIndex : gmap Z Z;
  matchIndex : gmap Z Z;
  sentIndex : gmap Z Z;
  votesReceived : gset Z;
  preVotesReceived : gset Z;
  pendingReads : gmap Z pendingRead;
  readStates : list ReadState.t;
  electionTick : Z;
  heartbeatTick : Z;
  electionElapsed : Z;
  heartbeatElapsed : Z;
  randomizedElectionTimeout : Z;
  rnd : list Z;
  msgs : list Message.t
}.

(** Field updates. *)
Definition set_role (v : Role) (r : Raft) : Raft :=
  mkRaft (id r) (peers r) v (currentTerm r) (votedFor r) (leaderID r) (log r)
    (snapshot r) (pendingSnapshotToApply r) (commitIndex r) (lastApplied r)
    (stableTerm r) (stableVote r) (unstableIndex r) (stableSnapshotIndex r)
    (nextIndex r) (matchIndex r) (sentIndex r) (votesReceived r)
    (preVotesReceived r) (pendingReads r) (readStates r) (electionTick r)
    (heartbeatTick r) (electionElapsed r) (heartbeatElapsed r)
    (randomizedElectionTimeout r) (rnd r) (msgs r).
Definition set_currentTerm (v : Z) (r : Raft) : Raft :=
  mkRaft (id r) (peers r) (role r) v (votedFor r) (leaderID r) (log r)
    (snapshot r) (pendingSnapshotToApply r) (commitIndex r) (lastApplied r)
    (stableTerm r) (stableVote r) (unstableIndex r) (stableSnapshotIndex r)
    (nextIndex r) (matchIndex r) (sentIndex r) (votesReceived r)
    (preVotesReceived r) (pendingReads r) (readStates r) (electionTick r)
    (heartbeatTick r) (electionElapsed r) (heartbeatElapsed r)
    (randomizedElectionTimeout r) (rnd r) (msgs r).
Definition set_votedFor (v : Z) (r : Raft) : Raft :=
  mkRaft (id r) (peers r) (role r) (currentTerm r) v (leaderID r) (log r)
    (snapshot r) (pendingSnapshotToApply r) (commitIndex r) (lastApplied r)
    (stableTerm r) (stableVote r) (unstableIndex r) (stableSnapshotIndex r)
    (nextIndex r) (matchIndex r) (sentIndex r) (votesReceived r)
    (preVotesReceived r) (pendingReads r) (readStates r) (electionTick r)
    (heartbeatTick r) (electionElapsed r) (heartbeatElapsed r)
    (randomizedElectionTimeout r) (rnd r) (msgs r).
Definition set_leaderID (v : Z) (r : Raft) : Raft :=
  mkRaft (id r) (peers r) (role r) (currentTerm r) (votedFor r) v (log r)
    (snapshot r) (pendingSnapshotToApply r) (commitIndex r) (lastApplied r)
    (stableTerm r) (stableVote r) (unstableIndex r) (stableSnapshotIndex r)
    (nextIndex r) (matchIndex r) (sentIndex r) (votesReceived r)
    (preVotesReceived r) (pendingReads r) (readStates r) (electionTick r)
    (heartbeatTick r) (electionElapsed r) (heartbeatElapsed r)
    (randomizedElectionTimeout r) (rnd r) (msgs r).
Definition set_log (v : list LogEntry.t) (r : Raft) : Raft :=
  mkRaft (id r) (peers r) (role r) (currentTerm r) (votedFor r) (leaderID r) v
    (snapshot r) (pendingSnapshotToApply r) (commitIndex r) (lastApplied r)
    (stableTerm r) (stableVote r) (unstableIndex r) (stableSnapshotIndex r)
    (nextIndex r) (matchIndex r) (sentIndex r) (votesReceived r)
    (preVotesReceived r) (pendingReads r) (readStates r) (electionTick r)
    (heartbeatTick r) (electionElapsed r) (heartbeatElapsed r)
    (randomizedElectionTimeout r) (rnd r) (msgs r).
Definition set_snapshot (v : Snapshot.t) (r : Raft) : Raft :=
  mkRaft (id r) (peers r) (role r) (currentTerm r) (votedFor r) (leaderID r)
    (log r) v (pendingSnapshotToApply r) (commitIndex r) (lastApplied r)
    (stableTerm r) (stableVote r) (unstableIndex r) (stableSnapshotIndex r)
    (nextIndex r) (matchIndex r) (sentIndex r) (votesReceived r)
    (preVotesReceived r) (pendingReads r) (readStates r) (electionTick r)
    (heartbeatTick r) (electionElapsed r) (heartbeatElapsed r)
    (randomizedElectionTimeout r) (rnd r) (msgs r).
Definition set_pendingSnapshotToApply (v : option Snapshot.t) (r : Raft) : Raft :=
  mkRaft (id r) (peers r) (role r) (currentTerm r) (votedFor r) (leaderID r)
    (log r) (snapshot r) v (commitIndex r) (lastApplied r) (stableTerm r)
    (stableVote r) (unstableIndex r) (stableSnapshotIndex r) (nextIndex r)
    (matchIndex r) (sentIndex r) (votesReceived r) (preVotesReceived r)
    (pendingReads r) (readStates r) (electionTick r) (heartbeatTick r)
    (electionElapsed r) (heartbeatElapsed r) (randomizedElectionTimeout r)
    (rnd r) (msgs r).
Definition set_commitIndex (v : Z) (r : Raft) : Raft :=
  mkRaft (id r) (peers r) (role r) (currentTerm r) (votedFor r) (leaderID r)
    (log r) (snapshot r) (pendingSnapshotToApply r) v (lastApplied r)
    (stableTerm r) (stableVote r) (unstableIndex r) (stableSnapshotIndex r)
    (nextIndex r) (matchIndex r) (sentIndex r) (votesReceived r)
    (preVotesReceived r) (pendingReads r) (readStates r) (electionTick r)
    (heartbeatTick r) (electionElapsed r) (heartbeatElapsed r)
    (randomizedElectionTimeout r) (rnd r) (msgs r).
Definition set_stableTerm (v : Z) (r : Raft) : Raft :=
  mkRaft (id r) (peers r) (role r) (currentTerm r) (votedFor r) (leaderID r)
    (log r) (snapshot r) (pendingSnapshotToApply r) (commitIndex r)
    (lastApplied r) v (stableVote r) (unstableIndex r) (stableSnapshotIndex r)
    (nextIndex r) (matchIndex r) (sentIndex r) (votesReceived r)
    (preVotesReceived r) (pendingReads r) (readStates r) (electionTick r)
    (heartbeatTick r) (electionElapsed r) (heartbeatElapsed r)
    (randomizedElectionTimeout r) (rnd r) (msgs r).
Definition set_stableVote (v : Z) (r : Raft) : Raft :=
  mkRaft (id r) (peers r) (role r) (currentTerm r) (votedFor r) (leaderID r)
    (log r) (snapshot r) (pendingSnapshotToApply r) (commitIndex r)
    (lastApplied r) (stableTerm r) v (unstableIndex r) (stableSnapshotIndex r)
    (nextIndex r) (matchIndex r) (sentIndex r) (votesReceived r)
    (preVotesReceived r) (pendingReads r) (readStates r) (electionTick r)
    (heartbeatTick r) (electionElapsed r) (heartbeatElapsed r)
    (randomizedElectionTimeout r) (rnd r) (msgs r).
Definition set_unstableIndex (v : Z) (r : Raft) : Raft :=
  mkRaft (id r) (peers r) (role r) (currentTerm r) (votedFor r) (leaderID r)
    (log r) (snapshot r) (pendingSnapshotToApply r) (commitIndex r)
    (lastApplied r) (stableTerm r) (stableVote r) v (stableSnapshotIndex r)
    (nextIndex r) (matchIndex r) (sentIndex r) (votesReceived r)
    (preVotesReceived r) (pendingReads r) (readStates r) (electionTick r)
    (heartbeatTick r) (electionElapsed r) (heartbeatElapsed r)
    (randomizedElectionTimeout r) (rnd r) (msgs r).
Definition set_stableSnapshotIndex (v : Z) (r : Raft) : Raft :=
  mkRaft (id r) (peers r) (role r) (currentTerm r) (votedFor r) (leaderID r)
    (log r) (snapshot r) (pendingSnapshotToApply r) (commitIndex r)
    (lastApplied r) (stableTerm r) (stableVote r) (unstableIndex r) v
    (nextIndex r) (matchIndex r) (sentIndex r) (votesReceived r)
    (preVotesReceived r) (pendingReads r) (readStates r) (electionTick r)
    (heartbeatTick r) (electionElapsed r) (heartbeatElapsed r)
    (randomizedElectionTimeout r) (rnd r) (msgs r).
Definition set_nextIndex (v : gmap Z Z) (r : Raft) : Raft :=
  mkRaft (id r) (peers r) (role r) (currentTerm r) (votedFor r) (leaderID r)
    (log r) (snapshot r) (pendingSnapshotToApply r) (commitIndex r)
    (lastApplied r) (stableTerm r) (stableVote r) (unstableIndex r)
    (stableSnapshotIndex r) v (matchIndex r) (sentIndex r) (votesReceived r)
    (preVotesReceived r) (pendingReads r) (readStates r) (electionTick r)
    (heartbeatTick r) (electionElapsed r) (heartbeatElapsed r)
    (randomizedElectionTimeout r) (rnd r) (msgs r).
Definition set_matchIndex (v : gmap Z Z) (r : Raft) : Raft :=
  mkRaft (id r) (peers r) (role r) (currentTerm r) (votedFor r) (leaderID r)
    (log r) (snapshot r) (pendingSnapshotToApply r) (commitIndex r)
    (lastApplied r) (stableTerm r) (stableVote r) (unstableIndex r)
    (stableSnapshotIndex r) (nextIndex r) v (sentIndex r) (votesReceived r)
    (preVotesReceived r) (pendingReads r) (readStates r) (electionTick r)
    (heartbeatTick r) (electionElapsed r) (heartbeatElapsed r)
    (randomizedElectionTimeout r) (rnd r) (msgs r).
Definition set_sentIndex (v : gmap Z Z) (r : Raft) : Raft :=
  mkRaft (id r) (peers r) (role r) (currentTerm r) (votedFor r) (leaderID r)
    (log r) (snapshot r) (pendingSnapshotToApply r) (commitIndex r)
    (lastApplied r) (stableTerm r) (stableVote r) (unstableIndex r)
    (stableSnapshotIndex r) (nextIndex r) (matchIndex r) v (votesReceived r)
    (preVotesReceived r) (pendingReads r) (readStates r) (electionTick r)
    (heartbeatTick r) (electionElapsed r) (heartbeatElapsed r)
    (randomizedElectionTimeout r) (rnd r) (msgs r).
Definition set_votesReceived (v : gset Z) (r : Raft) : Raft :=
  mkRaft (id r) (peers r) (role r) (currentTerm r) (votedFor r) (leaderID r)
    (log r) (snapshot r) (pendingSnapshotToApply r) (commitIndex r)
    (lastApplied r) (stableTerm r) (stableVote r) (unstableIndex r)
    (stableSnapshotIndex r) (nextIndex r) (matchIndex r) (sentIndex r) v
    (preVotesReceived r) (pendingReads r) (readStates r) (electionTick r)
    (heartbeatTick r) (electionElapsed r) (heartbeatElapsed r)
    (randomizedElectionTimeout r) (rnd r) (msgs r).
Definition set_preVotesReceived (v : gset Z) (r : Raft) : Raft :=
  mkRaft (id r) (peers r) (role r) (currentTerm r) (votedFor r) (leaderID r)
    (log r) (snapshot r) (pendingSnapshotToApply r) (commitIndex r)
    (lastApplied r) (stableTerm r) (stableVote r) (unstableIndex r)
    (stableSnapshotIndex r) (nextIndex r) (matchIndex r) (sentIndex r)
    (votesReceived r) v (pendingReads r) (readStates r) (electionTick r)
    (heartbeatTick r) (electionElapsed r) (heartbeatElapsed r)
    (randomizedElectionTimeout r) (rnd r) (msgs r).
Definition set_pendingReads (v : gmap Z pendingRead) (r : Raft) : Raft :=
  mkRaft (id r) (peers r) (role r) (currentTerm r) (votedFor r) (leaderID r)
    (log r) (snapshot r) (pendingSnapshotToApply r) (commitIndex r)
    (lastApplied r) (stableTerm r) (stableVote r) (unstableIndex r)
    (stableSnapshotIndex r) (nextIndex r) (matchIndex r) (sentIndex r)
    (votesReceived r) (preVotesReceived r) v (readStates r) (electionTick r)
    (heartbeatTick r) (electionElapsed r) (heartbeatElapsed r)
    (randomizedElectionTimeout r) (rnd r) (msgs r).
Definition set_readStates (v : list ReadState.t) (r : Raft) : Raft :=
  mkRaft (id r) (peers r) (role r) (currentTerm r) (votedFor r) (leaderID r)
    (log r) (snapshot r) (pendingSnapshotToApply r) (commitIndex r)
    (lastApplied r) (stableTerm r) (stableVote r) (unstableIndex r)
    (stableSnapshotIndex r) (nextIndex r) (matchIndex r) (sentIndex r)
    (votesReceived r) (preVotesReceived r) (pendingReads r) v (electionTick r)
    (heartbeatTick r) (electionElapsed r) (heartbeatElapsed r)
    (randomizedElectionTimeout r) (rnd r) (msgs r).
Definition set_electionElapsed (v : Z) (r : Raft) : Raft :=
  mkRaft (id r) (peers r) (role r) (currentTerm r) (votedFor r) (leaderID r)
    (log r) (snapshot r) (pendingSnapshotToApply r) (commitIndex r)
    (lastApplied r) (stableTerm r) (stableVote r) (unstableIndex r)
    (stableSnapshotIndex r) (nextIndex r) (matchIndex r) (sentIndex r)
    (votesReceived r) (preVotesReceived r) (pendingReads r) (readStates r)
    (electionTick r) (heartbeatTick r) v (heartbeatElapsed r)
    (randomizedElectionTimeout r) (rnd r) (msgs r).
Definition set_heartbeatElapsed (v : Z) (r : Raft) : Raft :=
  mkRaft (id r) (peers r) (role r) (currentTerm r) (votedFor r) (leaderID r)
    (log r) (snapshot r) (pendingSnapshotToApply r) (commitIndex r)
    (lastApplied r) (stableTerm r) (stableVote r) (unstableIndex r)
    (stableSnapshotIndex r) (nextIndex r) (matchIndex r) (sentIndex r)
    (votesReceived r) (preVotesReceived r) (pendingReads r) (readStates r)
    (electionTick r) (heartbeatTick r) (electionElapsed r) v
    (randomizedElectionTimeout r) (rnd r) (msgs r).
Definition set_randomizedElectionTimeout (v : Z) (r : Raft) : Raft :=
  mkRaft (id r) (peers r) (role r) (currentTerm r) (votedFor r) (leaderID r)
    (log r) (snapshot r) (pendingSnapshotToApply r) (commitIndex r)
    (lastApplied r) (stableTerm r) (stableVote r) (unstableIndex r)
    (stableSnapshotIndex r) (nextIndex r) (matchIndex r) (sentIndex r)
    (votesReceived r) (preVotesReceived r) (pendingReads r) (readStates r)
    (electionTick r) (heartbeatTick r) (electionElapsed r) (heartbeatElapsed
    r) v (rnd r) (msgs r).
Definition set_rnd (v : list Z) (r : Raft) : Raft :=
  mkRaft (id r) (peers r) (role r) (currentTerm r) (votedFor r) (leaderID r)
    (log r) (snapshot r) (pendingSnapshotToApply r) (commitIndex r)
    (lastApplied r) (stableTerm r) (stableVote r) (unstableIndex r)
    (stableSnapshotIndex r) (nextIndex r) (matchIndex r) (sentIndex r)
    (votesReceived r) (preVotesReceived r) (pendingReads r) (readStates r)
    (electionTick r) (heartbeatTick r) (electionElapsed r) (heartbeatElapsed
    r) (randomizedElectionTimeout r) v (msgs r).
Definition set_msgs (v : list Message.t) (r : Raft) : Raft :=
  mkRaft (id r) (peers r) (role r) (currentTerm r) (votedFor r) (leaderID r)
    (log r) (snapshot r) (pendingSnapshotToApply r) (commitIndex r)
    (lastApplied r) (stableTerm r) (stableVote r) (unstableIndex r)
    (stableSnapshotIndex r) (nextIndex r) (matchIndex r) (sentIndex r)
    (votesReceived r) (preVotesReceived r) (pendingReads r) (readStates r)
    (electionTick r) (heartbeatTick r) (electionElapsed r) (heartbeatElapsed
    r) (randomizedElectionTimeout r) (rnd r) v.
