(* ===== verification/RaftStorage.v ===== *)
(** * Raft: persistent storage

    Models src/raft/storage.go: the four record shapes and their codecs,
    [OpenStorage], [SaveHardState], [SaveEntries] and [SaveSnapshot] (the
    compaction that rewrites the file and renames it into place), on top of
    the write-ahead log of [Wal]. *)

From Stdlib Require Import Strings.Byte.
From S2P Require Import Prelude GoBytes Wal RaftTypes.
Import Wal.Record Wal.Replay Wal.Appender.

(** ** Record encoding *)
Module Codec.

Definition recordKind := byte.
Definition recordHardState : recordKind := x00.
Definition recordLogEntry : recordKind := x01.
Definition recordTruncateFrom : recordKind := x02.
Definition recordSnapshot : recordKind := x03.

Definition encodeRecord (kind : recordKind) (payload : bytes) : bytes := [kind] ++ payload.

Definition decodeRecord (data : bytes) : res (recordKind * bytes) :=
  if len data <? 1 then Err (Errorf "raft: empty persisted record") else
  let* kind := index data 0 in
  let* rest := slice_from data 1 in
  Ok (kind, rest).

Definition encodeHardStatePayload (term vote : Z) : bytes := put_u64 term ++ put_u64 vote.

Definition decodeHardStatePayload (data : bytes) : res HardState.t :=
  if negb (len data =? 16) then Err (Errorf "raft: malformed hard state record") else
  let* term := get_u64 data 0 in
  let* vote := get_u64 data 8 in
  Ok (HardState.mk term vote).

Definition encodeLogEntryPayload (e : LogEntry.t) : bytes :=
  put_u64 (LogEntry.Term e) ++ put_u64 (LogEntry.Index e) ++
  put_u32 (len (LogEntry.Data e)) ++ LogEntry.Data e.

Definition decodeLogEntryPayload (data : bytes) : res LogEntry.t :=
  if len data <? 20 then Err (Errorf "raft: malformed log entry record") else
  let* term := get_u64 data 0 in
  let* idx := get_u64 data 8 in
  let* dlen := get_u32 data 16 in
  if negb (u32 (len data - 20) =? dlen)
  then Err (Errorf "raft: log entry data length mismatch") else
  let* d := (if 0 <? dlen then slice data 20 (u32 (20 + dlen)) else Ok []) in
  Ok (LogEntry.mk term idx d).

Definition encodeTruncateFromPayload (from : Z) : bytes := put_u64 from.

Definition decodeTruncateFromPayload (data : bytes) : res Z :=
  if negb (len data =? 8) then Err (Errorf "raft: malformed truncate record")
  else get_u64 data 0.

Definition encodeSnapshotPayload (snap : Snapshot.t) : bytes :=
  put_u64 (Snapshot.LastIncludedIndex snap) ++ put_u64 (Snapshot.LastIncludedTerm snap) ++
  put_u32 (len (Snapshot.Data snap)) ++ Snapshot.Data snap.

Definition decodeSnapshotPayload (data : bytes) : res Snapshot.t :=
  if len data <? 20 then Err (Errorf "raft: malformed snapshot record") else
  let* idx := get_u64 data 0 in
  let* term := get_u64 data 8 in
  let* dlen := get_u32 data 16 in
  if negb (u32 (len data - 20) =? dlen)
  then Err (Errorf "raft: snapshot data length mismatch") else
  let* d := (if 0 <? dlen then slice data 20 (u32 (20 + dlen)) else Ok []) in
  Ok (Snapshot.mk idx term d).

(** The records as data, with the encoding of each. *)
Inductive item :=
  | IHardState (hs : HardState.t)
  | ILogEntry (e : LogEntry.t)
  | ITruncateFrom (from : Z)
  | ISnapshot (s : Snapshot.t).

Definition encode_item (i : item) : bytes :=
  match i with
  | IHardState hs =>
      encodeRecord recordHardState (encodeHardStatePayload (HardState.Term hs) (HardState.Vote hs))
  | ILogEntry e => encodeRecord recordLogEntry (encodeLogEntryPayload e)
  | ITruncateFrom from => encodeRecord recordTruncateFrom (encodeTruncateFromPayload from)
  | ISnapshot s => encodeRecord recordSnapshot (encodeSnapshotPayload s)
  end.

(** What an item must satisfy to be stored exactly: integers of 64 bits, data
    that leaves the record below 4 GiB. *)
Definition dataMax : Z := 2 ^ 32 - 38.
Definition entry_wf (e : LogEntry.t) : Prop :=
  is_u64 (LogEntry.Term e) /\ is_u64 (LogEntry.Index e) /\ len (LogEntry.Data e) < dataMax.
Definition snapshot_wf (s : Snapshot.t) : Prop :=
  is_u64 (Snapshot.LastIncludedTerm s) /\ is_u64 (Snapshot.LastIncludedIndex s) /\
  len (Snapshot.Data s) < dataMax.
Definition hard_wf (hs : HardState.t) : Prop :=
  is_u64 (HardState.Term hs) /\ is_u64 (HardState.Vote hs).
Definition item_wf (i : item) : Prop :=
  match i with
  | IHardState hs => hard_wf hs
  | ILogEntry e => entry_wf e
  | ITruncateFrom from => is_u64 from
  | ISnapshot s => snapshot_wf s
  end.

Lemma decodeRecord_encode kind payload :
  decodeRecord (encodeRecord kind payload) = Ok (kind, payload).
Proof.
  unfold decodeRecord, encodeRecord, slice_from. rewrite len_app. pose_len.
  rewrite (proj2 (Z.ltb_ge _ _)) by len_lia. read_field. done.
Qed.

Lemma decodeHardState_encode term vote :
  is_u64 term -> is_u64 vote ->
  decodeHardStatePayload (encodeHardStatePayload term vote) = Ok (HardState.mk term vote).
Proof.
  intros Ht Hv. unfold decodeHardStatePayload, encodeHardStatePayload.
  rewrite (proj2 (Z.eqb_eq _ _)) by len_lia. simpl negb. cbv iota.
  read_field. rewrite <- (app_nil_r (put_u64 vote)). read_field. by rewrite !u64_small.
Qed.

Lemma decodeTruncateFrom_encode from :
  is_u64 from -> decodeTruncateFromPayload (encodeTruncateFromPayload from) = Ok from.
Proof.
  intros Hf. unfold decodeTruncateFromPayload, encodeTruncateFromPayload.
  rewrite (proj2 (Z.eqb_eq _ _)) by len_lia. simpl negb. cbv iota.
  rewrite <- (app_nil_r (put_u64 from)). read_field. by rewrite u64_small.
Qed.

Lemma decodeLogEntry_encode e :
  entry_wf e -> decodeLogEntryPayload (encodeLogEntryPayload e) = Ok e.
Proof.
  destruct e as [term idx d]. intros (Ht & Hi & Hd). unfold dataMax in *; simpl in *.
  unfold decodeLogEntryPayload, encodeLogEntryPayload; simpl LogEntry.Term;
    simpl LogEntry.Index; simpl LogEntry.Data.
  autorewrite with len. pose_len.
  rewrite (proj2 (Z.ltb_ge _ _)) by lia. read_field.
  rewrite !u64_small, !u32_small by (unfold is_u32; lia || done).
  rewrite (proj2 (Z.eqb_eq _ _)) by lia. simpl negb. cbv iota.
  destruct (Z.ltb_spec 0 (len d)); [by read_field |].
  by rewrite (len_zero d) by lia.
Qed.

Lemma decodeSnapshot_encode s :
  snapshot_wf s -> decodeSnapshotPayload (encodeSnapshotPayload s) = Ok s.
Proof.
  destruct s as [idx term d]. intros (Ht & Hi & Hd). unfold dataMax in *; simpl in *.
  unfold decodeSnapshotPayload, encodeSnapshotPayload; simpl Snapshot.LastIncludedTerm;
    simpl Snapshot.LastIncludedIndex; simpl Snapshot.Data.
  autorewrite with len. pose_len.
  rewrite (proj2 (Z.ltb_ge _ _)) by lia. read_field.
  rewrite !u64_small, !u32_small by (unfold is_u32; lia || done).
  rewrite (proj2 (Z.eqb_eq _ _)) by lia. simpl negb. cbv iota.
  destruct (Z.ltb_spec 0 (len d)); [by read_field |].
  by rewrite (len_zero d) by lia.
Qed.

End Codec.
Import Codec.

(** ** Recovery *)

(** The variables of [OpenStorage]'s replay loop. *)
Record loaded := mkLoaded {
  l_hs : HardState.t;
  l_log : list LogEntry.t;
  l_snap : Snapshot.t;
  l_maxSeq : Z
}.
Definition loaded_zero : loaded := mkLoaded (HardState.mk 0 0) [] Snapshot.zero 0.

(** One round of the [for _, rec := range records] loop. *)
Definition load_record (st : loaded) (rec : Record.t) : res loaded :=
  let maxSeq := if l_maxSeq st <? SeqNum rec then SeqNum rec else l_maxSeq st in
  let* '(kind, payload) := res_wrap "raft: decoding persisted record" (decodeRecord (Value rec)) in
  if bool_decide (kind = recordHardState) then
    let* hs := decodeHardStatePayload payload in
    Ok (mkLoaded hs (l_log st) (l_snap st) maxSeq)
  else if bool_decide (kind = recordLogEntry) then
    let* e := decodeLogEntryPayload payload in
    Ok (mkLoaded (l_hs st) (l_log st ++ [e]) (l_snap st) maxSeq)
  else if bool_decide (kind = recordTruncateFrom) then
    let* from := decodeTruncateFromPayload payload in
    Ok (mkLoaded (l_hs st) (filter (fun e => LogEntry.Index e < from) (l_log st))
          (l_snap st) maxSeq)
  else if bool_decide (kind = recordSnapshot) then
    let* s := decodeSnapshotPayload payload in
    Ok (mkLoaded (l_hs st)
          (filter (fun e => Snapshot.LastIncludedIndex s < LogEntry.Index e) (l_log st)) s maxSeq)
  else Err (Errorf "raft: unknown persisted record kind").

Fixpoint load_records (st : loaded) (recs : list Record.t) : res loaded :=
  match recs with
  | [] => Ok st
  | rec :: recs => let* st := load_record st rec in load_records st recs
  end.

(** The dummy entry in front of the log. *)
Definition sentinel (snap : Snapshot.t) : LogEntry.t :=
  if 0 <? Snapshot.LastIncludedIndex snap
  then LogEntry.mk (Snapshot.LastIncludedTerm snap) (Snapshot.LastIncludedIndex snap) []
  else LogEntry.mk 0 0 [].

(** The handle.  [at_path] is the file under [path] when a compaction renamed
    a new one into place but failed before [w] was pointed at it. *)
Record PersistentStorage := {
  w : WAL;
  seq : Z;
  path : string;
  at_path : option walFile
}.

(** The file a recovery would read. *)
Definition disk (s : PersistentStorage) : walFile :=
  match at_path s with Some f => f | None => file (w s) end.

Definition recovery := (HardState.t * list LogEntry.t * Snapshot.t)%type.

(** [opens] tells whether [openWALLog] succeeds, [faults] the outcomes of the
    file's later calls.  The file is what a crash of the machine has left on the
    disk, so the bytes that are replayed count as synced; that a process which
    was only killed finds bytes in the page cache, and could lose them when the
    machine crashes later, is not modelled. *)
Definition OpenStorage (p : string) (f : option replaySource) (opens : bool)
    (faults : list (option nat)) : res (PersistentStorage * recovery) :=
  let* '(records, _, data) := res_wrap "raft: replaying storage log" (Replay f) in
  let* st := load_records loaded_zero records in
  let fullLog := sentinel (l_snap st) :: l_log st in
  if opens then
    Ok ({| w := Open p true {| synced := default [] data; cached := []; script := faults |};
           seq := l_maxSeq st; path := p; at_path := None |},
        (l_hs st, fullLog, l_snap st))
  else Err (Wrapf "raft: opening storage log" (Errorf "open")).

(** ** Saving *)

Definition set_w (x : WAL) (s : PersistentStorage) : PersistentStorage :=
  {| w := x; seq := seq s; path := path s; at_path := at_path s |}.
Definition nextSeq (s : PersistentStorage) : PersistentStorage * Z :=
  ({| w := w s; seq := inc64 (seq s); path := path s; at_path := at_path s |}, inc64 (seq s)).

Definition record_of (n : Z) (i : item) : Record.t := mk n RecordPut [] (encode_item i).

Definition SaveHardState (s : PersistentStorage) (hs : HardState.t)
    : PersistentStorage * option error :=
  let '(s, n) := nextSeq s in
  let '(x, err) := Append (w s) (record_of n (IHardState hs)) in
  (set_w x s, match err with
              | Some e => Some (Wrapf "raft: persisting hard state" e)
              | None => None
              end).

(** Numbers the records of a batch. *)
Fixpoint number (s : PersistentStorage) (items : list item) : PersistentStorage * list Record.t :=
  match items with
  | [] => (s, [])
  | i :: items => let '(s, n) := nextSeq s in
               let '(s, recs) := number s items in
               (s, record_of n i :: recs)
  end.

Definition SaveEntries (s : PersistentStorage) (firstIndex : Z) (entries : list LogEntry.t)
    : PersistentStorage * option error :=
  match entries with
  | [] => (s, None)
  | _ =>
      let '(s, recs) := number s (ITruncateFrom firstIndex :: map ILogEntry entries) in
      let '(x, err) := AppendBatch (w s) recs in
      (set_w x s, match err with
                  | Some e => Some (Wrapf "raft: persisting log entries" e)
                  | None => None
                  end)
  end.

(** The calls of [SaveSnapshot] that can fail outside the log itself.
    [tmp_left] is what the temporary file holds after the best-effort
    removal. *)
Record compaction_env := {
  tmp_left : bytes;
  tmp_opens : bool;
  tmp_faults : list (option nat);
  rename_ok : bool;
  reopens : bool;
  new_faults : list (option nat)
}.

(** The records of the temporary file, numbered from 1 by [nextTmpSeq]. *)
Fixpoint tmp_records (n : Z) (items : list item) : list Record.t :=
  match items with
  | [] => []
  | i :: items => record_of (inc64 n) i :: tmp_records (inc64 n) items
  end.

Definition SaveSnapshot (env : compaction_env) (s : PersistentStorage) (hs : HardState.t)
    (snap : Snapshot.t) (survivingEntries : list LogEntry.t)
    : PersistentStorage * option error :=
  let fail msg e := (s, Some (Wrapf msg e)) in
  if negb (tmp_opens env) then
    fail "raft: opening compaction temp file" (Errorf "open")
  else
    let tmp := Open (path s +:+ ".compact.tmp") true
                 {| synced := tmp_left env; cached := []; script := tmp_faults env |} in
    match Append tmp (record_of 1 (IHardState hs)) with
    | (_, Some e) => fail "raft: writing hard state to compaction temp file" e
    | (tmp, None) =>
    match Append tmp (record_of 2 (ISnapshot snap)) with
    | (_, Some e) => fail "raft: writing snapshot to compaction temp file" e
    | (tmp, None) =>
    match (if 0 <? len survivingEntries
           then AppendBatch tmp (tmp_records 2 (map ILogEntry survivingEntries))
           else (tmp, None)) with
    | (_, Some e) => fail "raft: writing surviving entries to compaction temp file" e
    | (tmp, None) =>
    match Close tmp with
    | (_, Some e) => fail "raft: closing compaction temp file" e
    | (tmp, None) =>
    if negb (rename_ok env) then
      fail "raft: replacing storage log with its compacted version" (Errorf "rename")
    else
      let renamed := {| synced := synced (file tmp); cached := cached (file tmp);
                        script := new_faults env |} in
      let '(old, err) := Close (w s) in
      let s := {| w := old; seq := seq s; path := path s; at_path := Some renamed |} in
      match err with
      | Some e => (s, Some (Wrapf "raft: closing pre-compaction storage log handle" e))
      | None =>
      if negb (reopens env) then
        (s, Some (Wrapf "raft: reopening storage log after compaction" (Errorf "open")))
      else
        ({| w := Open (path s) true renamed; seq := u64 (2 + len survivingEntries);
            path := path s; at_path := None |}, None)
      end
    end end end end.

(** ** The abstract contents of the storage log *)

(** Reference semantics: what each item does to the durable state. *)
Definition apply_item (st : HardState.t * list LogEntry.t * Snapshot.t) (i : item)
    : HardState.t * list LogEntry.t * Snapshot.t :=
  let '(hs, l, snap) := st in
  match i with
  | IHardState hs => (hs, l, snap)
  | ILogEntry e => (hs, l ++ [e], snap)
  | ITruncateFrom from => (hs, filter (fun e => LogEntry.Index e < from) l, snap)
  | ISnapshot s =>
      (hs, filter (fun e => Snapshot.LastIncludedIndex s < LogEntry.Index e) l, s)
  end.

Definition state_of (items : list item) : HardState.t * list LogEntry.t * Snapshot.t :=
  fold_left apply_item items (HardState.mk 0 0, [], Snapshot.zero).

(** What [OpenStorage] hands to its caller. *)
Definition recovery_of (items : list item) : recovery :=
  let '(hs, l, snap) := state_of items in (hs, sentinel snap :: l, snap).

Definition carries (rec : Record.t) (i : item) : Prop := Value rec = encode_item i.

Lemma carries_record_of n i : carries (record_of n i) i.
Proof. done. Qed.

Lemma load_record_ok st rec i :
  carries rec i -> item_wf i ->
  exists sq, load_record st rec
    = Ok (let '(hs, l, snap) := apply_item (l_hs st, l_log st, l_snap st) i in
          mkLoaded hs l snap sq).
Proof.
  unfold carries, load_record. intros -> Hi.
  destruct i; cbn [encode_item item_wf] in *; rewrite decodeRecord_encode; cbn [res_wrap res_bind].
  - destruct Hi. rewrite bool_decide_eq_true_2, decodeHardState_encode by done. cbn [res_bind].
    destruct hs. eauto.
  - rewrite bool_decide_eq_false_2, bool_decide_eq_true_2, decodeLogEntry_encode by done. eauto.
  - rewrite !(bool_decide_eq_false_2 (recordTruncateFrom = _)), bool_decide_eq_true_2,
      decodeTruncateFrom_encode by done. eauto.
  - rewrite !(bool_decide_eq_false_2 (recordSnapshot = _)), bool_decide_eq_true_2,
      decodeSnapshot_encode by done. eauto.
Qed.

Lemma load_records_ok recs items : forall st,
  Forall2 carries recs items -> Forall item_wf items ->
  exists sq, load_records st recs
    = Ok (let '(hs, l, snap) := fold_left apply_item items (l_hs st, l_log st, l_snap st) in
          mkLoaded hs l snap sq).
Proof.
  revert recs. induction items as [|i items IH]; intros recs st Hc Hwf.
  { apply Forall2_nil_inv_r in Hc as ->. destruct st. eauto. }
  apply Forall2_cons_inv_r in Hc as (rec & recs' & Hrec & Hrest & ->).
  apply Forall_cons in Hwf as [Hi Hwf].
  destruct (load_record_ok st rec i Hrec Hi) as [sq Hld]. cbn [load_records fold_left].
  rewrite Hld. cbn [res_bind]. destruct (apply_item _ i) as [[hs l] snap].
  apply (IH recs' (mkLoaded hs l snap sq) Hrest Hwf).
Qed.

Lemma record_of_wf n i : is_u64 n -> item_wf i -> wf (record_of n i).
Proof.
  intros Hn Hi. split; [done |]. rewrite len_payload. simpl Key; simpl Value.
  destruct i as [hs|e|from|s]; cbn [encode_item item_wf] in *;
    unfold encodeRecord, encodeHardStatePayload, encodeLogEntryPayload,
      encodeTruncateFromPayload, encodeSnapshotPayload, entry_wf, snapshot_wf, dataMax in *;
    autorewrite with len; lia.
Qed.

(** ** The storage invariant

    [durable] are the items every recovery is sure to find, [tried] those
    handed to the log so far; a recovery finds some list between the two. *)
Record sinv (durable tried : list item) (s : PersistentStorage) : Prop := mkSinv {
  s_records : exists n rt,
    Forall2 carries rt tried /\ durable = take n tried /\ Forall wf rt /\
    contents (disk s) `prefix_of` encode_all rt /\
    encode_all (take n rt) `prefix_of` synced (disk s) /\
    match at_path s with
    | None => winv [] rt (w s) /\ syncOnWrite (w s) = true
    | Some _ => closed (w s) = true
    end;
  s_wf : Forall item_wf tried
}.

Lemma prefix_as_take {A} (l k : list A) : l `prefix_of` k -> l = take (length l) k.
Proof. intros [r ->]. by rewrite take_app_length. Qed.

Lemma take_prefix_mono {A} (l : list A) n m : (n <= m)%nat -> take n l `prefix_of` take m l.
Proof.
  intros H. replace n with (n `min` m)%nat by lia. rewrite <- take_take. apply prefix_take.
Qed.

(** Whatever a crash leaves of the file, [OpenStorage] succeeds and returns
    the state of an item list between [durable] and [tried], to which the
    repaired file corresponds exactly. *)
Lemma OpenStorage_crash durable tried s p n faults :
  sinv durable tried s ->
  exists items s',
    OpenStorage p (Some (healthy (Durability.crash_image (disk s) n))) true faults
      = Ok (s', recovery_of items) /\
    durable `prefix_of` items /\ items `prefix_of` tried /\ sinv items items s'.
Proof.
  intros [(k & rt & Ht & -> & Hwf & Hc & Hs & _) Hiwf].
  set (d := Durability.crash_image (disk s) n).
  assert (d `prefix_of` encode_all rt) as Hdp.
  { etrans; [| exact Hc]. apply prefix_app, prefix_take. }
  destruct (Durability.replay_prefix rt d Hwf Hdp) as [st Hr].
  set (recs := complete rt (length d)) in *.
  assert (recs = take (length recs) rt) as Hrp by apply prefix_as_take, complete_prefix.
  assert (take k rt `prefix_of` recs) as Hrd%prefix_length.
  { apply Durability.complete_durable; [| apply prefix_take].
    etrans; [exact Hs | by apply prefix_app_r]. }
  set (m := length recs) in *. rewrite length_take in Hrd.
  assert (Forall2 carries recs (take m tried)) as Hi by (rewrite Hrp; by apply Forall2_take).
  assert (Forall item_wf (take m tried)) as Hiw by (by apply Forall_take).
  assert (Forall wf recs) as Hrw by (rewrite Hrp; by apply Forall_take).
  destruct (load_records_ok recs (take m tried) loaded_zero Hi Hiw) as [sq Hld].
  unfold OpenStorage. rewrite Hr. cbn [res_wrap res_bind]. rewrite Hld. cbn [res_bind default].
  unfold recovery_of, state_of. change (l_hs loaded_zero, l_log loaded_zero, l_snap loaded_zero)
    with (HardState.mk 0 0, @nil LogEntry.t, Snapshot.zero).
  exists (take m tried). destruct (fold_left apply_item (take m tried) _) as [[hs l] snap].
  eexists. split; [reflexivity |]. split_and!; [| apply prefix_take |].
  - pose proof (Forall2_length _ _ _ Ht) as Hlen.
    rewrite <- (take_ge tried (length tried)) at 1 by lia. rewrite take_take.
    apply take_prefix_mono. lia.
  - constructor; [| done]. exists m, recs. unfold disk, file, contents, winv, binv; simpl.
    rewrite !app_nil_r, take_take, Nat.min_id, (take_ge recs) by done.
    unfold contents; simpl. rewrite app_nil_r. by split_and!.
Qed.

(** *** Saving *)

(** The durable items after a call that returned [err]. *)
Definition kept (err : option error) (durable saved : list item) : list item :=
  match err with Some _ => durable | None => saved end.

(** One batch of items handed to the log. *)
Lemma append_items durable tried s recs items x err :
  sinv durable tried s -> recs <> [] ->
  Forall2 carries recs items -> Forall wf recs -> Forall item_wf items ->
  AppendBatch (w s) recs = (x, err) ->
  sinv (kept err durable (tried ++ items)) (tried ++ items) (set_w x s).
Proof.
  intros [(k & rt & Ht & -> & Hwf & Hc & Hs & Hw) Hiwf] Hne Hca Hrw Hit Hrun.
  constructor; [| by apply Forall_app]. unfold disk in *; simpl.
  assert (Forall2 carries (rt ++ recs) (tried ++ items)) as Hca' by (by apply Forall2_app).
  assert (Forall wf (rt ++ recs)) by (by apply Forall_app).
  pose proof (Forall2_length _ _ _ Ht) as Hlen.
  set (k' := Nat.min k (length rt)).
  assert (take k tried = take k' (tried ++ items) /\ take k rt = take k' (rt ++ recs))
    as [Hk1 Hk2].
  { subst k'. rewrite !take_app_le by lia. split.
    - rewrite Hlen. rewrite <- (take_ge tried (length tried)) at 1 by lia. by rewrite take_take.
    - rewrite <- (take_ge rt (length rt)) at 1 by lia. by rewrite take_take. }
  destruct (at_path s) as [f|].
  - unfold AppendBatch in Hrun. rewrite Hw in Hrun. destruct recs as [|r0 recs]; [done |].
    injection Hrun as <- <-. exists k', (rt ++ r0 :: recs). rewrite encode_all_app, <- Hk1, <- Hk2.
    split_and!; try done. by apply prefix_app_r.
  - destruct Hw as [Hw Hso].
    apply (AppendBatch_spec [] rt) in Hrun as (Hw' & Hsy & Hso' & Hall); [| done].
    pose proof (winv_prefix _ _ _ Hw') as Hpre. rewrite app_nil_l in Hpre.
    destruct err as [e|].
    + exists k', (rt ++ recs). rewrite <- Hk1, <- Hk2.
      split_and!; try done; [by etrans | congruence].
    + exists (length (rt ++ recs)), (rt ++ recs).
      rewrite (take_ge (rt ++ recs)) by done.
      rewrite (take_ge (tried ++ items)) by (by rewrite (Forall2_length _ _ _ Hca')).
      split_and!; try done; [by rewrite Hall | congruence].
Qed.

Lemma number_spec items : forall s s' recs,
  number s items = (s', recs) -> Forall item_wf items ->
  Forall2 carries recs items /\ Forall wf recs /\ w s' = w s /\ at_path s' = at_path s.
Proof.
  induction items as [|i items IH]; intros s s' recs; cbn [number].
  { intros [= <- <-] _. repeat constructor. }
  unfold nextSeq. set (s0 := {| w := w s; seq := _; path := _; at_path := _ |}).
  destruct (number s0 items) as [s1 recs1] eqn:E. intros [= <- <-] Hwf.
  apply Forall_cons in Hwf as [Hi Hwf]. apply IH in E as (? & ? & Hw & Ha); [| done].
  split_and!; [| | done | done].
  - constructor; [apply carries_record_of | done].
  - constructor; [| done]. apply record_of_wf; [apply u64_range | done].
Qed.

Lemma sinv_ext durable tried s s' :
  w s' = w s -> at_path s' = at_path s -> sinv durable tried s -> sinv durable tried s'.
Proof.
  intros Hw Ha [H ?]. constructor; [| done]. unfold disk in *. by rewrite Hw, Ha.
Qed.

Lemma SaveHardState_spec durable tried s hs s' err :
  sinv durable tried s -> hard_wf hs -> SaveHardState s hs = (s', err) ->
  sinv (kept err durable (tried ++ [IHardState hs])) (tried ++ [IHardState hs]) s'.
Proof.
  intros H Hwf. unfold SaveHardState, nextSeq, Append.
  destruct (AppendBatch _ _) as [x e] eqn:E. intros [= <- <-]. cbn [w seq] in E.
  apply (append_items durable tried s _ [IHardState hs]) in E; try done.
  - eapply sinv_ext; [| | by destruct e]; done.
  - repeat constructor.
  - apply Forall_singleton, record_of_wf; [apply u64_range | done].
  - by apply Forall_singleton.
Qed.

(** The items a suffix is saved as. *)
Definition entry_items (first : Z) (es : list LogEntry.t) : list item :=
  ITruncateFrom first :: map ILogEntry es.

Lemma SaveEntries_spec durable tried s first es s' err :
  sinv durable tried s -> is_u64 first -> Forall entry_wf es -> es <> [] ->
  SaveEntries s first es = (s', err) ->
  sinv (kept err durable (tried ++ entry_items first es))
    (tried ++ entry_items first es) s'.
Proof.
  intros H Hf Hes Hne. unfold SaveEntries. destruct es as [|e0 es0]; [done |].
  fold (entry_items first (e0 :: es0)). set (its := entry_items _ _).
  assert (Forall item_wf its) as Hits.
  { constructor; [done |]. by apply Forall_fmap. }
  assert (its <> []) as Hnil by done. clearbody its.
  destruct (number s its) as [s1 recs] eqn:En.
  apply number_spec in En as (Hca & Hrw & Hw & Ha); [| done].
  destruct (AppendBatch (w s1) recs) as [x er] eqn:E. intros [= <- <-].
  assert (recs <> []) by (intros ->; by apply Forall2_nil_inv_l in Hca).
  apply (append_items durable tried s1 recs its) in E; try done.
  - by destruct er.
  - by eapply sinv_ext.
Qed.

(** *** Compaction *)

Definition tmp_store (x : WAL) : PersistentStorage :=
  {| w := x; seq := 0; path := ""; at_path := None |}.

Lemma Close_closed x : closed (fst (Close x)) = true.
Proof.
  unfold Close. destruct (closed x) eqn:E; [done |]. destruct (bFlush _) as [b []]; [| done].
  simpl. destruct (fSync _) as [f []]; [| done]. simpl. by destruct (fClose _).
Qed.

Lemma sinv_open p faults :
  sinv [] [] (tmp_store (Open p true {| synced := []; cached := []; script := faults |})).
Proof.
  constructor; [| done]. exists 0%nat, []. unfold disk, winv, binv, contents, file; simpl.
  by split_and!.
Qed.

Lemma sinv_Close durable tried x x' err :
  sinv durable tried (tmp_store x) -> Close x = (x', err) -> sinv durable tried (tmp_store x').
Proof.
  intros [(k & rt & Ht & Hd & Hwf & Hc & Hs & Hw & Hso) Hiwf] Hrun.
  apply (Close_spec [] rt) in Hrun as (Hw' & Hsy & Hso' & _); [| done].
  constructor; [| done]. exists k, rt. unfold disk in *; simpl in *.
  pose proof (winv_prefix _ _ _ Hw') as Hpre. rewrite app_nil_l in Hpre.
  split_and!; try done; [by etrans | congruence].
Qed.

(** A file whose items are all durable stays so under a new handle. *)
Lemma sinv_settled items x p old faults n :
  sinv items items (tmp_store x) -> closed old = true ->
  let f := {| synced := synced (file x); cached := cached (file x); script := faults |} in
  sinv items items {| w := old; seq := n; path := p; at_path := Some f |} /\
  forall n', sinv items items {| w := Open p true f; seq := n'; path := p; at_path := None |}.
Proof.
  intros [(k & rt & Ht & Hd & Hwf & Hc & Hs & Hw & Hso) Hiwf] Hcl f.
  pose proof (Forall2_length _ _ _ Ht) as Hlen.
  assert (take k rt = rt) as Hk.
  { apply take_ge. apply (f_equal length) in Hd. rewrite length_take in Hd. lia. }
  rewrite Hk in Hs. unfold disk in *; simpl in Hc, Hs.
  assert (contents f = encode_all rt) as Hcf.
  { apply (anti_symm prefix); [exact Hc |]. etrans; [exact Hs | by apply prefix_app_r]. }
  split; [| intros n']; constructor; try done; exists k, rt; unfold disk, file; simpl;
    unfold winv, binv, contents in *; simpl in *; rewrite Hk, ?app_nil_r, ?Hcf; by split_and!.
Qed.

Definition snapshot_items (hs : HardState.t) (snap : Snapshot.t) (es : list LogEntry.t) : list item :=
  [IHardState hs; ISnapshot snap] ++ map ILogEntry es.

Lemma tmp_records_spec items : forall n,
  Forall item_wf items ->
  Forall2 carries (tmp_records n items) items /\ Forall wf (tmp_records n items).
Proof.
  induction items as [|i items IH]; intros n Hwf; cbn [tmp_records]; [by repeat constructor |].
  apply Forall_cons in Hwf as [Hi Hwf]. destruct (IH (inc64 n) Hwf) as [? ?].
  split; constructor; try done. apply record_of_wf; [apply u64_range | done].
Qed.

(** Compaction is atomic: whatever fails, the file under [path] either is the
    old one, untouched, or holds exactly the new items, all durable; it is the
    latter when the call reports success. *)
Lemma SaveSnapshot_spec env durable tried s hs snap es s' err :
  sinv durable tried s -> tmp_left env = [] ->
  hard_wf hs -> snapshot_wf snap -> Forall entry_wf es ->
  SaveSnapshot env s hs snap es = (s', err) ->
  let items := snapshot_items hs snap es in
  (err <> None /\ s' = s) \/ sinv items items s'.
Proof.
  intros H Htmp Hhs Hsn Hes. unfold SaveSnapshot. rewrite Htmp. cbv zeta.
  destruct (negb (tmp_opens env)); [intros [= <- <-]; by left |].
  pose proof (sinv_open (path s +:+ ".compact.tmp") (tmp_faults env)) as H0.
  set (t0 := Open _ _ _) in *. clearbody t0. unfold Append.
  destruct (AppendBatch t0 _) as [t1 [e|]] eqn:E1; [intros [= <- <-]; by left |].
  apply (append_items [] [] (tmp_store t0) _ [IHardState hs]) in E1;
    [| done | done | by repeat constructor
     | apply Forall_singleton, record_of_wf; [done | done] | by apply Forall_singleton].
  destruct (AppendBatch t1 _) as [t2 [e|]] eqn:E2; [intros [= <- <-]; by left |].
  apply (append_items _ _ (tmp_store t1) _ [ISnapshot snap] _ _ E1) in E2;
    [| done | by repeat constructor
     | apply Forall_singleton, record_of_wf; [done | done] | by apply Forall_singleton].
  change (set_w t2 (tmp_store t1)) with (tmp_store t2) in E2.
  destruct (if 0 <? len es then _ else _) as [t3 [e|]] eqn:E3; [intros [= <- <-]; by left |].
  assert (sinv (snapshot_items hs snap es) (snapshot_items hs snap es) (tmp_store t3)) as H3.
  { destruct (Z.ltb_spec 0 (len es)).
    - assert (Forall item_wf (map ILogEntry es)) as Hiw by (by apply Forall_fmap).
      destruct (tmp_records_spec (map ILogEntry es) 2 Hiw) as [Hca Hrw].
      apply (append_items _ _ (tmp_store t2) _ (map ILogEntry es) _ _ E2) in E3; try done.
      destruct es; [len_lia | done].
    - injection E3 as <-. unfold snapshot_items. rewrite (len_zero es) by (pose_len; lia). done. }
  destruct (Close t3) as [t4 [e|]] eqn:E4; [intros [= <- <-]; by left |].
  apply (sinv_Close _ _ _ _ _ H3) in E4.
  destruct (negb (rename_ok env)); [intros [= <- <-]; by left |].
  pose proof (Close_closed (w s)) as Hcl. destruct (Close (w s)) as [old err0]. simpl in Hcl.
  destruct (sinv_settled _ _ (path s) old (new_faults env) (seq s) E4 Hcl) as [Hsome Hnone].
  destruct err0; [intros [= <- <-]; by right |].
  destruct (negb (reopens env)); intros [= <- <-]; right; [done | apply Hnone].
Qed.

Lemma SaveSnapshot_ok env durable tried s hs snap es s' :
  sinv durable tried s -> tmp_left env = [] ->
  hard_wf hs -> snapshot_wf snap -> Forall entry_wf es ->
  SaveSnapshot env s hs snap es = (s', None) ->
  sinv (snapshot_items hs snap es) (snapshot_items hs snap es) s'.
Proof.
  intros H Ht Hh Hs He Hrun.
  by destruct (SaveSnapshot_spec _ _ _ _ _ _ _ _ _ H Ht Hh Hs He Hrun) as [[] |].
Qed.

(** ** Runs of saves *)

Inductive save :=
  | SHard (hs : HardState.t)
  | SEntries (first : Z) (es : list LogEntry.t)
  | SSnapshot (env : compaction_env) (hs : HardState.t) (snap : Snapshot.t) (es : list LogEntry.t).

Definition do_save (s : PersistentStorage) (o : save) : PersistentStorage * option error :=
  match o with
  | SHard hs => SaveHardState s hs
  | SEntries first es => SaveEntries s first es
  | SSnapshot env hs snap es => SaveSnapshot env s hs snap es
  end.

Definition save_wf (o : save) : Prop :=
  match o with
  | SHard hs => hard_wf hs
  | SEntries first es => is_u64 first /\ Forall entry_wf es
  | SSnapshot env hs snap es =>
      tmp_left env = [] /\ hard_wf hs /\ snapshot_wf snap /\ Forall entry_wf es
  end.

(** What a save adds to the log, and what the log holds after it. *)
Definition save_items (o : save) : list item :=
  match o with
  | SHard hs => [IHardState hs]
  | SEntries first es => if bool_decide (es = []) then [] else entry_items first es
  | SSnapshot _ _ _ _ => []
  end.
Definition save_effect (l : list item) (o : save) : list item :=
  match o with
  | SSnapshot _ hs snap es => snapshot_items hs snap es
  | _ => l ++ save_items o
  end.

(** Saves that all report success. *)
Inductive saves (s : PersistentStorage) : list save -> PersistentStorage -> Prop :=
  | saves_nil : saves s [] s
  | saves_snoc ops o s1 s2 :
      saves s ops s1 -> save_wf o -> do_save s1 o = (s2, None) -> saves s (ops ++ [o]) s2.

(** One save: afterwards the log is between two item lists. *)
Lemma do_save_spec l s o s' err :
  sinv l l s -> save_wf o -> do_save s o = (s', err) ->
  (sinv (save_effect l o) (save_effect l o) s') \/
  (err <> None /\ sinv l (l ++ save_items o) s').
Proof.
  intros H Hwf. destruct o as [hs|first es|env hs snap es]; simpl in *.
  - intros Hrun. apply (SaveHardState_spec _ _ _ _ _ _ H Hwf) in Hrun.
    destruct err; [by right | by left].
  - destruct Hwf as [Hf Hes]. destruct (decide (es = [])) as [-> | Hne].
    + intros [= <- <-]. rewrite bool_decide_eq_true_2, app_nil_r by done. by left.
    + rewrite bool_decide_eq_false_2 by done. intros Hrun.
      apply (SaveEntries_spec _ _ _ _ _ _ _ H Hf Hes Hne) in Hrun.
      destruct err; [by right | by left].
  - destruct Hwf as (Ht & Hh & Hs & He). intros Hrun.
    destruct (SaveSnapshot_spec _ _ _ _ _ _ _ _ _ H Ht Hh Hs He Hrun) as [[? ->] | ?]; [| by left].
    right. by rewrite app_nil_r.
Qed.

Lemma saves_spec s ops s' : saves s ops s' -> sinv [] [] s ->
  let l := fold_left save_effect ops [] in sinv l l s'.
Proof.
  intros Hs H0. induction Hs as [|ops o s1 s2 _ IH Hwf Hrun]; [done |].
  rewrite fold_left_app. simpl. by destruct (do_save_spec _ _ _ _ _ IH Hwf Hrun) as [? | [? _]].
Qed.

(** C26: the storage log is crash safe.  Any sequence of successful saves
    (term and vote, log suffixes with their truncation markers, snapshots
    with compaction), then one more save that may fail at any of its writes,
    syncs, renames or reopens (a left-over temporary file can be removed), then
    a crash that keeps a prefix of what was not yet synced: opening the file
    again succeeds, and it returns the state
    the saves describe.  A save that reported success is always there in
    full; of one that reported an error a leading part may be there, and a
    compaction is there either completely or not at all. *)
Theorem storage_crash_recovery p faults s0 rec0 ops s o s' err n faults' :
  OpenStorage p None true faults = Ok (s0, rec0) -> saves s0 ops s -> save_wf o ->
  do_save s o = (s', err) ->
  let before := fold_left save_effect ops [] in
  exists items s'',
    OpenStorage p (Some (healthy (Durability.crash_image (disk s') n))) true faults'
      = Ok (s'', recovery_of items) /\
    (items = save_effect before o \/
     (err <> None /\ before `prefix_of` items /\ items `prefix_of` before ++ save_items o)).
Proof.
  intros Hopen Hsv Hwf Hrun before. injection Hopen as Hs0 _.
  assert (sinv [] [] s0) as H0 by (rewrite <- Hs0; refine (sinv_ext _ _ _ _ _ _ (sinv_open p faults)); done).
  pose proof (saves_spec _ _ _ Hsv H0) as H. fold before in H.
  destruct (do_save_spec _ _ _ _ _ H Hwf Hrun) as [Hn | [He Hn]];
    destruct (OpenStorage_crash _ _ _ p n faults' Hn) as (items & s'' & Ho & Hlo & Hhi & _);
    exists items, s''; (split; [exact Ho |]).
  - left. by apply (anti_symm prefix).
  - by right.
Qed.

(** A vote and an entry are saved; the next save overwrites the entry, but its
    sync fails. *)
Definition sample_saves : list save := [SHard (HardState.mk 1 2); SEntries 1 [LogEntry.mk 1 1 []]].
Definition sample_store : PersistentStorage :=
  fold_left (fun s o => fst (do_save s o)) sample_saves
    {| w := Open "raft.log" true {| synced := []; cached := [];
              script := [None; None; None; None; None; Some 0%nat] |};
       seq := 0; path := "raft.log"; at_path := None |}.
Definition sample_failed : PersistentStorage * option error :=
  do_save sample_store (SEntries 1 [LogEntry.mk 2 1 []]).

Lemma sample_saves_run s0 rec0 :
  OpenStorage "raft.log" None true [None; None; None; None; None; Some 0%nat] = Ok (s0, rec0) ->
  saves s0 sample_saves sample_store.
Proof.
  intros [= <- _]. change sample_saves with (([] ++ [SHard (HardState.mk 1 2)])
    ++ [SEntries 1 [LogEntry.mk 1 1 []]]).
  eapply saves_snoc; [eapply saves_snoc; [apply saves_nil | | vm_compute; reflexivity] | |
    vm_compute; reflexivity].
  - unfold save_wf, hard_wf, is_u64; simpl. lia.
  - split; [unfold is_u64; lia |]. apply Forall_singleton. unfold entry_wf, is_u64, dataMax, len. simpl. lia.
Qed.

Lemma storage_crash_recovery_witness :
  snd sample_failed <> None /\
  exists items s'',
    OpenStorage "raft.log" (Some (healthy (Durability.crash_image (disk (fst sample_failed)) 60))) true []
      = Ok (s'', recovery_of items) /\
    (items = save_effect (fold_left save_effect sample_saves []) (SEntries 1 [LogEntry.mk 2 1 []]) \/
     (snd sample_failed <> None /\ fold_left save_effect sample_saves [] `prefix_of` items /\
      items `prefix_of` fold_left save_effect sample_saves []
        ++ save_items (SEntries 1 [LogEntry.mk 2 1 []]))).
Proof.
  split; [vm_compute; congruence |].
  destruct (OpenStorage "raft.log" None true [None; None; None; None; None; Some 0%nat])
    as [[s0 rec0]| |] eqn:E; [| discriminate E | discriminate E].
  eapply (storage_crash_recovery "raft.log" _ s0 rec0 sample_saves sample_store).
  - exact E.
  - exact (sample_saves_run s0 rec0 E).
  - split; [unfold is_u64; lia |]. apply Forall_singleton. unfold entry_wf, is_u64, dataMax, len. simpl. lia.
  - apply surjective_pairing.
Defined.
