(* ===== verification/Raft.v ===== *)
(** * Raft: the consensus state machine

    Models the methods of src/raft/raft.go, one definition per method, in the
    order of their dependencies.  Methods that slice the log return [res], so
    that an out-of-range slice is a [Panic] and not a default value. *)

From S2P Require Import Prelude GoBytes RaftTypes.

(** ** Log access *)

(** [r.log[len(r.log)-1]] and [r.log[0]]; the log always holds the sentinel. *)
Definition lastLogIndex (r : Raft) : Z :=
  match last (log r) with Some e => LogEntry.Index e | None => 0 end.
Definition lastLogTerm (r : Raft) : Z :=
  match last (log r) with Some e => LogEntry.Term e | None => 0 end.
Definition firstLogIndex (r : Raft) : Z :=
  match log r with e :: _ => LogEntry.Index e | [] => 0 end.

(** [int(x)] of a [uint64]. *)
Definition to_int (z : Z) : Z := if z <? 2 ^ 63 then z else z - 2 ^ 64.

Definition logPos (r : Raft) (index : Z) : Z :=
  to_int (u64 (index - firstLogIndex r)).

Definition termAt (r : Raft) (index : Z) : Z :=
  if (index <? firstLogIndex r) || (lastLogIndex r <? index) then 0
  else match log r !! Z.to_nat (logPos r index) with
       | Some e => LogEntry.Term e
       | None => 0
       end.

Definition clusterSize (r : Raft) : Z := len (peers r) + 1.
Definition hasMajorityCount (r : Raft) (n : Z) : bool := clusterSize r / 2 + 1 <=? n.

(** [r.rnd.Intn(n)]: the next draw, reduced to [0, n). *)
Definition intn (draws : list Z) (n : Z) : Z * list Z :=
  match draws with
  | [] => (0, [])
  | d :: ds => (d mod n, ds)
  end.

Definition resetElectionTimeout (r : Raft) : Raft :=
  let '(d, ds) := intn (rnd r) (electionTick r) in
  set_rnd ds (set_randomizedElectionTimeout (electionTick r + d)
    (set_electionElapsed 0 r)).

(** ** Construction and recovery *)

(** [New]; [draws] are the values the generator seeded with the node's ID will
    produce. *)
Definition New (cfg : Config.t) (draws : list Z) : res Raft :=
  match Config.validate cfg with
  | Some e => Err e
  | None =>
      Ok (resetElectionTimeout
        {| id := Config.ID cfg; peers := Config.Peers cfg; role := Follower;
           currentTerm := 0; votedFor := 0; leaderID := 0;
           log := [LogEntry.mk 0 0 []]; snapshot := Snapshot.zero;
           pendingSnapshotToApply := None; commitIndex := 0; lastApplied := 0;
           stableTerm := 0; stableVote := 0; unstableIndex := 1;
           stableSnapshotIndex := 0; nextIndex := ∅; matchIndex := ∅;
           sentIndex := ∅; votesReceived := ∅; preVotesReceived := ∅;
           pendingReads := ∅; readStates := [];
           electionTick := Config.ElectionTick cfg;
           heartbeatTick := Config.HeartbeatTick cfg; electionElapsed := 0;
           heartbeatElapsed := 0; randomizedElectionTimeout := 0; rnd := draws;
           msgs := [] |})
  end.

Definition restoreState (hs : HardState.t) (entries : list LogEntry.t) (r : Raft) : Raft :=
  let r := set_stableVote (HardState.Vote hs) (set_stableTerm (HardState.Term hs)
             (set_votedFor (HardState.Vote hs) (set_currentTerm (HardState.Term hs) r))) in
  let r := if 0 <? len entries then set_log entries r else r in
  let r := if commitIndex r <? firstLogIndex r
           then set_commitIndex (firstLogIndex r) r else r in
  set_unstableIndex (inc64 (lastLogIndex r)) r.

Definition status (r : Raft) : Status.t :=
  Status.mk (id r) (currentTerm r) (role r) (leaderID r) (commitIndex r) (lastLogIndex r).

(** ** Ready and Advance *)

Definition ready (r : Raft) : res Ready.t :=
  let hs := if negb (currentTerm r =? stableTerm r) || negb (votedFor r =? stableVote r)
            then Some (HardState.mk (currentTerm r) (votedFor r)) else None in
  let* '(es, first) :=
    (if unstableIndex r <=? lastLogIndex r then
       let* es := slice_from (log r) (logPos r (unstableIndex r)) in
       Ok (es, unstableIndex r)
     else Ok ([], 0)) in
  let snap := if stableSnapshotIndex r <? Snapshot.LastIncludedIndex (snapshot r)
              then Some (snapshot r) else None in
  Ok (Ready.mk hs es first (msgs r) (readStates r) snap (pendingSnapshotToApply r)).

Definition Advance (r : Raft) : Raft :=
  let r := set_stableVote (votedFor r) (set_stableTerm (currentTerm r) r) in
  let r := if unstableIndex r <=? lastLogIndex r
           then set_unstableIndex (inc64 (lastLogIndex r)) r else r in
  let r := set_stableSnapshotIndex (Snapshot.LastIncludedIndex (snapshot r)) r in
  set_readStates [] (set_msgs [] (set_pendingSnapshotToApply None r)).

(** The entries in (start, end]. *)
Definition Entries (r : Raft) (start end_ : Z) : res (list LogEntry.t) :=
  let end_ := if lastLogIndex r <? end_ then lastLogIndex r else end_ in
  let start := if start <? firstLogIndex r then firstLogIndex r else start in
  if end_ <=? start then Ok []
  else slice (log r) (logPos r start + 1) (logPos r end_ + 1).

Definition CreateSnapshot (r : Raft) (index : Z) (data : bytes) : res Raft :=
  if commitIndex r <? index then
    Err (Errorf "raft: cannot snapshot: not yet committed")
  else if index <=? firstLogIndex r then
    Err (Errorf "raft: cannot snapshot: not newer than the existing snapshot boundary")
  else
    let term := termAt r index in
    let pos := logPos r index in
    (* make([]LogEntry, 0, len(r.log)-pos) *)
    if len (log r) - pos <? 0 then Panic else
    let* rest := slice_from (log r) (pos + 1) in
    let r := set_log (LogEntry.mk term index [] :: rest) r in
    let r := if unstableIndex r <=? index then set_unstableIndex (inc64 index) r else r in
    Ok (set_snapshot (Snapshot.mk index term data) r).

(** ** Sending *)

Definition send (m : Message.t) (r : Raft) : Raft :=
  set_msgs (msgs r ++ [Message.stamp (id r) (currentTerm r) m]) r.

(** A progress map read at an absent key. *)
Definition get0 (m : gmap Z Z) (k : Z) : Z := default 0 (m !! k).

Definition sendInstallSnapshot (r : Raft) (peer : Z) : Raft :=
  send (Message.snapshot_request peer (snapshot r)) r.

Definition sendAppendEntries (r : Raft) (peer readContext : Z) : res Raft :=
  if u64 (get0 (nextIndex r) peer - 1) <? firstLogIndex r then
    Ok (sendInstallSnapshot r peer)
  else
    let prevIndex := u64 (get0 (nextIndex r) peer - 1) in
    let prevIndex := if prevIndex <? get0 (sentIndex r) peer
                     then get0 (sentIndex r) peer else prevIndex in
    let prevTerm := termAt r prevIndex in
    let* entries := Entries r prevIndex (lastLogIndex r) in
    let r := send (Message.append_request peer prevIndex prevTerm entries
                     (commitIndex r) readContext) r in
    Ok (if get0 (sentIndex r) peer <? lastLogIndex r
        then set_sentIndex (<[peer := lastLogIndex r]> (sentIndex r)) r else r).

(** [for _, p := range r.peers { r.sendAppendEntries(p, ctx) }] *)
Fixpoint broadcast (r : Raft) (ps : list Z) (ctx : Z) : res Raft :=
  match ps with
  | [] => Ok r
  | p :: ps => let* r := sendAppendEntries r p ctx in broadcast r ps ctx
  end.

Definition sendHeartbeats (r : Raft) : res Raft := broadcast r (peers r) 0.

(** ** Commit *)

(** The peers whose [matchIndex] has reached [n], this node included. *)
Definition replicated (r : Raft) (n : Z) : Z :=
  1 + len (filter (fun p => n <= get0 (matchIndex r) p) (peers r)).

(** [for n := r.lastLogIndex(); n > r.commitIndex; n--] *)
Fixpoint advance_loop (fuel : nat) (r : Raft) (n : Z) : Raft :=
  match fuel with
  | O => r
  | S fuel =>
      if commitIndex r <? n then
        if negb (termAt r n =? currentTerm r) then advance_loop fuel r (n - 1)
        else if hasMajorityCount r (replicated r n) then set_commitIndex n r
        else advance_loop fuel r (n - 1)
      else r
  end.

Definition maybeAdvanceCommitIndex (r : Raft) : Raft :=
  advance_loop (Z.to_nat (lastLogIndex r - commitIndex r)) r (lastLogIndex r).

(** ** Role transitions *)

Definition becomeFollower (term : Z) (r : Raft) : Raft :=
  let r := if currentTerm r <? term then set_votedFor 0 (set_currentTerm term r) else r in
  resetElectionTimeout (set_role Follower r).

Definition init_progress (r : Raft) : Raft :=
  set_matchIndex (list_to_map (map (fun p => (p, 0)) (peers r)))
    (set_nextIndex (list_to_map (map (fun p => (p, inc64 (lastLogIndex r))) (peers r))) r).

Definition becomeLeader (r : Raft) : res Raft :=
  let r := set_leaderID (id r) (set_role Leader r) in
  let r := init_progress (set_pendingReads ∅ (set_sentIndex ∅ r)) in
  let r := set_heartbeatElapsed 0 r in
  let* r := sendHeartbeats r in
  Ok (if len (peers r) =? 0 then maybeAdvanceCommitIndex r else r).

(** [for _, p := range r.peers { r.send(Message{...}) }] *)
Definition request_votes (ty : MessageType) (r : Raft) : Raft :=
  fold_left (fun r p => send (Message.vote_request ty p (lastLogIndex r) (lastLogTerm r)) r)
    (peers r) r.

Definition becomeCandidate (r : Raft) : res Raft :=
  let r := set_currentTerm (inc64 (currentTerm r)) r in
  let r := set_votesReceived {[id r]}
             (set_leaderID 0 (set_votedFor (id r) (set_role Candidate r))) in
  let r := resetElectionTimeout r in
  if len (peers r) =? 0 then becomeLeader r
  else Ok (request_votes MsgRequestVote r).

Definition becomePreCandidate (r : Raft) : res Raft :=
  let r := set_preVotesReceived {[id r]} (set_leaderID 0 (set_role PreCandidate r)) in
  let r := resetElectionTimeout r in
  if len (peers r) =? 0 then becomeCandidate r
  else Ok (request_votes MsgPreVote r).

Definition Tick (r : Raft) : res Raft :=
  if role_eqb (role r) Leader then
    let r := set_heartbeatElapsed (heartbeatElapsed r + 1) r in
    if heartbeatTick r <=? heartbeatElapsed r
    then sendHeartbeats (set_heartbeatElapsed 0 r) else Ok r
  else
    let r := set_electionElapsed (electionElapsed r + 1) r in
    if randomizedElectionTimeout r <=? electionElapsed r
    then becomePreCandidate r else Ok r.

(** ** Message handlers *)

(** The [logOK] test of both vote handlers. *)
Definition log_up_to_date (r : Raft) (m : Message.t) : bool :=
  (lastLogTerm r <? Message.LastLogTerm m) ||
  ((Message.LastLogTerm m =? lastLogTerm r) &&
   (lastLogIndex r <=? Message.LastLogIndex m)).

Definition handlePreVote (r : Raft) (m : Message.t) : Raft :=
  let prospectiveTerm := inc64 (Message.Term m) in
  if prospectiveTerm <? currentTerm r then
    send (Message.vote_response MsgPreVoteResponse (Message.From m) false) r
  else
    let logOK := log_up_to_date r m in
    let canVote := (votedFor r =? 0) || (votedFor r =? Message.From m) ||
                   (currentTerm r <? prospectiveTerm) in
    send (Message.vote_response MsgPreVoteResponse (Message.From m) (canVote && logOK)) r.

Definition handlePreVoteResponse (r : Raft) (m : Message.t) : res Raft :=
  if negb (role_eqb (role r) PreCandidate) then Ok r
  else if negb (Message.VoteGranted m) then Ok r
  else
    let r := set_preVotesReceived ({[Message.From m]} ∪ preVotesReceived r) r in
    if hasMajorityCount r (Z.of_nat (size (preVotesReceived r)))
    then becomeCandidate r else Ok r.

Definition handleRequestVote (r : Raft) (m : Message.t) : Raft :=
  let r := if currentTerm r <? Message.Term m
           then becomeFollower (Message.Term m) r else r in
  if Message.Term m <? currentTerm r then
    send (Message.vote_response MsgRequestVoteResponse (Message.From m) false) r
  else
    let canVote := (votedFor r =? 0) || (votedFor r =? Message.From m) in
    let granted := canVote && log_up_to_date r m in
    let r := if granted
             then resetElectionTimeout (set_votedFor (Message.From m) r) else r in
    send (Message.vote_response MsgRequestVoteResponse (Message.From m) granted) r.

Definition handleRequestVoteResponse (r : Raft) (m : Message.t) : res Raft :=
  if currentTerm r <? Message.Term m then Ok (becomeFollower (Message.Term m) r)
  else if (Message.Term m <? currentTerm r) || negb (role_eqb (role r) Candidate) then Ok r
  else if negb (Message.VoteGranted m) then Ok r
  else
    let r := set_votesReceived ({[Message.From m]} ∪ votesReceived r) r in
    if hasMajorityCount r (Z.of_nat (size (votesReceived r)))
    then becomeLeader r else Ok r.

(** One round of the [for i, e := range m.Entries] loop of
    [handleAppendEntries].  A conflict at or before the sentinel makes the
    slice expression, or the next [lastLogIndex()] on the emptied log, panic. *)
Definition append_one (r : Raft) (idx : Z) (e : LogEntry.t) : res Raft :=
  let* r :=
    (if (idx <=? lastLogIndex r) && negb (termAt r idx =? LogEntry.Term e) then
       let* l := slice (log r) 0 (logPos r idx) in
       let r := set_log l r in
       Ok (if idx <? unstableIndex r then set_unstableIndex idx r else r)
     else Ok r) in
  if len (log r) =? 0 then Panic else
  Ok (if lastLogIndex r <? idx then set_log (log r ++ [e]) r else r).

(** The loop, from entry number [i] on. *)
Fixpoint append_loop (r : Raft) (prev i : Z) (es : list LogEntry.t) : res Raft :=
  match es with
  | [] => Ok r
  | e :: es =>
      let* r := append_one r (u64 (prev + 1 + i)) e in
      append_loop r prev (i + 1) es
  end.

Definition handleAppendEntries (r : Raft) (m : Message.t) : res Raft :=
  if Message.Term m <? currentTerm r then
    Ok (send (Message.append_response (Message.From m) false 0 0) r)
  else
    let r := set_leaderID (Message.From m) (becomeFollower (Message.Term m) r) in
    let reply := Message.append_response (Message.From m) in
    if lastLogIndex r <? Message.PrevLogIndex m then
      Ok (send (reply false 0 (Message.ReadContext m)) r)
    else if negb (termAt r (Message.PrevLogIndex m) =? Message.PrevLogTerm m) then
      Ok (send (reply false 0 (Message.ReadContext m)) r)
    else
      let* r := append_loop r (Message.PrevLogIndex m) 0 (Message.Entries m) in
      let r := if commitIndex r <? Message.LeaderCommit m
               then set_commitIndex (Z.min (Message.LeaderCommit m) (lastLogIndex r)) r
               else r in
      Ok (send (reply true (u64 (Message.PrevLogIndex m + len (Message.Entries m)))
                  (Message.ReadContext m)) r).

Definition ackReadIndex (r : Raft) (ctx peer : Z) : Raft :=
  match pendingReads r !! ctx with
  | None => r
  | Some pr =>
      let pr := {| pr_index := pr_index pr; pr_acked := {[peer]} ∪ pr_acked pr |} in
      let r := set_pendingReads (<[ctx := pr]> (pendingReads r)) r in
      if hasMajorityCount r (Z.of_nat (size (pr_acked pr))) then
        set_pendingReads (delete ctx (pendingReads r))
          (set_readStates (readStates r ++ [ReadState.mk (pr_index pr) ctx]) r)
      else r
  end.

Definition handleAppendEntriesResponse (r : Raft) (m : Message.t) : res Raft :=
  if currentTerm r <? Message.Term m then Ok (becomeFollower (Message.Term m) r)
  else if (Message.Term m <? currentTerm r) || negb (role_eqb (role r) Leader) then Ok r
  else
    let from := Message.From m in
    let r := if Message.ReadContext m =? 0 then r
             else ackReadIndex r (Message.ReadContext m) from in
    if Message.Success m then
      let r := if get0 (matchIndex r) from <? Message.MatchIndex m
               then set_matchIndex (<[from := Message.MatchIndex m]> (matchIndex r)) r
               else r in
      let r := set_nextIndex (<[from := inc64 (Message.MatchIndex m)]> (nextIndex r)) r in
      Ok (maybeAdvanceCommitIndex r)
    else
      let r := if 1 <? get0 (nextIndex r) from
               then set_nextIndex (<[from := get0 (nextIndex r) from - 1]> (nextIndex r)) r
               else r in
      let r := set_sentIndex (<[from := 0]> (sentIndex r)) r in
      sendAppendEntries r from 0.

Definition handleInstallSnapshot (r : Raft) (m : Message.t) : Raft :=
  let reply := Message.snapshot_response (Message.From m) in
  if Message.Term m <? currentTerm r then send (reply (firstLogIndex r)) r
  else
    let r := set_leaderID (Message.From m) (becomeFollower (Message.Term m) r) in
    let s := Message.Snapshot m in
    let last := Snapshot.LastIncludedIndex s in
    if last <=? firstLogIndex r then send (reply (firstLogIndex r)) r
    else
      let r := set_log [LogEntry.mk (Snapshot.LastIncludedTerm s) last []] r in
      let r := if commitIndex r <? last then set_commitIndex last r else r in
      let r := set_unstableIndex (inc64 last) r in
      let r := set_pendingSnapshotToApply (Some s) (set_snapshot s r) in
      send (reply last) r.

Definition handleInstallSnapshotResponse (r : Raft) (m : Message.t) : Raft :=
  if currentTerm r <? Message.Term m then becomeFollower (Message.Term m) r
  else if (Message.Term m <? currentTerm r) || negb (role_eqb (role r) Leader) then r
  else
    let from := Message.From m in
    let mi := Message.MatchIndex m in
    let r := if get0 (matchIndex r) from <? mi
             then set_matchIndex (<[from := mi]> (matchIndex r)) r else r in
    let r := if get0 (nextIndex r) from <? inc64 mi
             then set_nextIndex (<[from := inc64 mi]> (nextIndex r)) r else r in
    maybeAdvanceCommitIndex r.

Definition Step (r : Raft) (m : Message.t) : res Raft :=
  if negb (Message.To m =? id r) then Ok r
  else match Message.Type_ m with
  | MsgPreVote => Ok (handlePreVote r m)
  | MsgPreVoteResponse => handlePreVoteResponse r m
  | MsgRequestVote => Ok (handleRequestVote r m)
  | MsgRequestVoteResponse => handleRequestVoteResponse r m
  | MsgAppendEntries => handleAppendEntries r m
  | MsgAppendEntriesResponse => handleAppendEntriesResponse r m
  | MsgInstallSnapshot => Ok (handleInstallSnapshot r m)
  | MsgInstallSnapshotResponse => Ok (handleInstallSnapshotResponse r m)
  | MsgUnknown _ => Ok r
  end.

(** ** Proposals and reads *)

Fixpoint append_proposals (r : Raft) (datas : list bytes) : Raft * list Z :=
  match datas with
  | [] => (r, [])
  | data :: datas =>
      let entry := LogEntry.mk (currentTerm r) (inc64 (lastLogIndex r)) data in
      let '(r, indices) := append_proposals (set_log (log r ++ [entry]) r) datas in
      (r, LogEntry.Index entry :: indices)
  end.

Definition ProposeBatch (r : Raft) (datas : list bytes) : res (Raft * list Z) :=
  if negb (role_eqb (role r) Leader) then Err ErrNotLeader
  else
    let '(r, indices) := append_proposals r datas in
    let* r := broadcast r (peers r) 0 in
    Ok (if len (peers r) =? 0 then maybeAdvanceCommitIndex r else r, indices).

Definition Propose (r : Raft) (data : bytes) : res Raft :=
  let* '(r, _) := ProposeBatch r [data] in Ok r.

Definition RequestReadIndex (r : Raft) (ctx : Z) : res Raft :=
  if negb (role_eqb (role r) Leader) then Err ErrNotLeader
  else
    let pr := {| pr_index := commitIndex r; pr_acked := {[id r]} |} in
    let r := set_pendingReads (<[ctx := pr]> (pendingReads r)) r in
    if hasMajorityCount r (Z.of_nat (size (pr_acked pr))) then
      Ok (set_pendingReads (delete ctx (pendingReads r))
            (set_readStates (readStates r ++ [ReadState.mk (commitIndex r) ctx]) r))
    else broadcast r (peers r) ctx.
