(* ===== verification/RaftLog.v ===== *)
(** * Raft: the log invariant

    The structural invariant of src/raft/raft.go's [Raft] struct (its comment
    "log[i].Index == log[0].Index + i always holds", the bounds of
    [unstableIndex], the place of the snapshot boundary), the facts about log
    access that follow from it, and its preservation by every helper. *)

From S2P Require Import Prelude GoBytes RaftTypes Raft.

(** Log indexes stay below this bound, so that [int] conversions of index
    differences and the successor of the last index are exact. *)
Definition maxIndex : Z := 2 ^ 63 - 1.

(** ** Contiguous logs *)

Fixpoint contig (b : Z) (l : list LogEntry.t) : Prop :=
  match l with
  | [] => True
  | e :: l => LogEntry.Index e = b /\ contig (b + 1) l
  end.

Lemma contig_app b l k : contig b (l ++ k) <-> contig b l /\ contig (b + len l) k.
Proof.
  revert b; induction l as [|e l IH]; intros b; cbn [contig app].
  - rewrite len_nil, Z.add_0_r. tauto.
  - rewrite IH, len_cons. replace (b + 1 + len l) with (b + (1 + len l)) by lia. tauto.
Qed.

Lemma contig_lookup b l i e :
  contig b l -> l !! i = Some e -> LogEntry.Index e = b + Z.of_nat i.
Proof.
  revert b i; induction l as [|x l IH]; intros b i Hc; [done |].
  destruct Hc as [Hx Hc]. destruct i as [|i]; simpl.
  - intros [= <-]. lia.
  - intros H. rewrite (IH (b + 1) i) by done. lia.
Qed.

Lemma contig_last b l e : contig b l -> last l = Some e -> LogEntry.Index e = b + len l - 1.
Proof.
  intros Hc Hl. rewrite last_lookup in Hl.
  rewrite (contig_lookup b l _ e Hc Hl). unfold len.
  destruct l; [done |]. simpl. lia.
Qed.

Lemma contig_take b l n : contig b l -> contig b (take n l).
Proof.
  intros H. rewrite <- (take_drop n l) in H. by apply contig_app in H as [].
Qed.

Lemma contig_drop b l n :
  (n <= length l)%nat -> contig b l -> contig (b + Z.of_nat n) (drop n l).
Proof.
  intros Hn H. rewrite <- (take_drop n l) in H. apply contig_app in H as [_ H].
  unfold len in H. rewrite length_take in H. by rewrite Nat.min_l in H.
Qed.

(** ** The invariant *)

(** Everything the invariant speaks of. *)
Definition log_view (r : Raft) :=
  (log r, unstableIndex r, commitIndex r, snapshot r, stableSnapshotIndex r).

Record inv (r : Raft) : Prop := {
  inv_nonempty : log r <> [];
  inv_contig : contig (firstLogIndex r) (log r);
  inv_first : 0 <= firstLogIndex r;
  inv_bound : lastLogIndex r < maxIndex;
  inv_unstable : firstLogIndex r < unstableIndex r <= lastLogIndex r + 1;
  inv_commit : firstLogIndex r <= commitIndex r < maxIndex;
  inv_snapshot : Snapshot.LastIncludedIndex (snapshot r) = firstLogIndex r;
  inv_stable : stableSnapshotIndex r <= firstLogIndex r
}.

Lemma inv_frame r r' : log_view r' = log_view r -> inv r -> inv r'.
Proof.
  unfold log_view. intros [= Hl Hu Hc Hs Hss] [].
  constructor; unfold firstLogIndex, lastLogIndex in *; by rewrite ?Hl, ?Hu, ?Hc, ?Hs, ?Hss.
Qed.

(** ** Log access under the invariant *)

Lemma last_first r : inv r -> lastLogIndex r = firstLogIndex r + len (log r) - 1.
Proof.
  intros H. unfold lastLogIndex. destruct (last (log r)) as [e|] eqn:E.
  - by apply (contig_last _ _ _ (inv_contig r H)).
  - apply last_None in E. by destruct (inv_nonempty r H).
Qed.

Lemma len_log_pos r : inv r -> 0 < len (log r).
Proof.
  intros H. pose proof (inv_nonempty r H). destruct (log r); [done |]. len_lia.
Qed.

Lemma first_le_last r : inv r -> firstLogIndex r <= lastLogIndex r.
Proof. intros H. rewrite last_first by done. pose proof (len_log_pos r H). lia. Qed.

Lemma logPos_exact r index :
  inv r -> firstLogIndex r <= index -> index <= lastLogIndex r + 1 ->
  logPos r index = index - firstLogIndex r.
Proof.
  intros H Hlo Hhi. pose proof (inv_bound r H). pose proof (inv_first r H).
  unfold logPos, to_int, maxIndex in *.
  rewrite u64_small by (unfold is_u64; lia). destruct (Z.ltb_spec (index - firstLogIndex r) (2 ^ 63)); lia.
Qed.

(** A position before the sentinel becomes a negative [int]. *)
Lemma logPos_negative r index :
  inv r -> 0 <= index < firstLogIndex r -> logPos r index < 0.
Proof.
  intros H Hi. pose proof (inv_bound r H). pose proof (first_le_last r H).
  unfold logPos, to_int, maxIndex, u64 in *.
  replace ((index - firstLogIndex r) mod 2 ^ 64)
    with (index - firstLogIndex r + 2 ^ 64); cycle 1.
  { apply (Z.mod_unique _ _ (-1)); lia. }
  destruct (Z.ltb_spec (index - firstLogIndex r + 2 ^ 64) (2 ^ 63)); lia.
Qed.

(** The entry a log index names. *)
Definition entry_at (r : Raft) (index : Z) : option LogEntry.t :=
  if index <? firstLogIndex r then None
  else log r !! Z.to_nat (index - firstLogIndex r).

Lemma termAt_entry r index e :
  inv r -> entry_at r index = Some e -> termAt r index = LogEntry.Term e.
Proof.
  intros H. unfold entry_at. destruct (Z.ltb_spec index (firstLogIndex r)); [done |].
  intros He. pose proof (lookup_lt_Some _ _ _ He).
  pose proof (last_first r H). pose proof (len_log_pos r H). unfold len in *.
  unfold termAt. rewrite logPos_exact by (done || lia).
  rewrite (proj2 (Z.ltb_ge index _)), (proj2 (Z.ltb_ge _ index)) by lia.
  simpl. by rewrite He.
Qed.

Lemma entry_at_some r index :
  inv r -> firstLogIndex r <= index <= lastLogIndex r ->
  exists e, entry_at r index = Some e /\ LogEntry.Index e = index.
Proof.
  intros H Hi. pose proof (last_first r H). unfold entry_at, len in *.
  rewrite (proj2 (Z.ltb_ge _ _)) by lia.
  destruct (lookup_lt_is_Some_2 (log r) (Z.to_nat (index - firstLogIndex r))) as [e He];
    [lia |].
  exists e. split; [done |].
  rewrite (contig_lookup _ _ _ _ (inv_contig r H) He). lia.
Qed.

Lemma entry_at_range r index e :
  inv r -> entry_at r index = Some e ->
  firstLogIndex r <= index <= lastLogIndex r /\ LogEntry.Index e = index.
Proof.
  intros H. unfold entry_at. destruct (Z.ltb_spec index (firstLogIndex r)); [done |].
  intros He. pose proof (lookup_lt_Some _ _ _ He). pose proof (last_first r H).
  rewrite (contig_lookup _ _ _ _ (inv_contig r H) He). unfold len in *. lia.
Qed.

(** [Entries] never panics; it returns the log suffix it is asked for. *)
Lemma Entries_ok r start end_ :
  inv r -> 0 <= start ->
  Entries r start end_
  = Ok (let lo := Z.max start (firstLogIndex r) in
        let hi := Z.min end_ (lastLogIndex r) in
        take (Z.to_nat (hi - lo)) (drop (Z.to_nat (lo - firstLogIndex r + 1)) (log r))).
Proof.
  intros H Hs. pose proof (last_first r H) as Hl. pose proof (first_le_last r H).
  unfold Entries. cbv zeta.
  replace (if lastLogIndex r <? end_ then lastLogIndex r else end_)
    with (Z.min end_ (lastLogIndex r)) by (zcase; lia).
  replace (if start <? firstLogIndex r then firstLogIndex r else start)
    with (Z.max start (firstLogIndex r)) by (zcase; lia).
  set (hi := Z.min _ _). set (lo := Z.max _ _).
  destruct (Z.leb_spec hi lo).
  { by rewrite Z2Nat.nonpos, take_0 by lia. }
  rewrite !logPos_exact by (done || lia).
  rewrite slice_ok by lia. do 2 f_equal; lia.
Qed.

(** The whole tail after [start]. *)
Lemma Entries_tail r start :
  inv r -> firstLogIndex r <= start ->
  Entries r start (lastLogIndex r)
  = Ok (drop (Z.to_nat (start - firstLogIndex r + 1)) (log r)).
Proof.
  intros H Hs. pose proof (inv_first r H). pose proof (last_first r H) as Hl.
  rewrite Entries_ok by (done || lia). cbv zeta.
  rewrite Z.max_l, Z.min_id by lia. f_equal.
  apply take_ge. rewrite length_drop. unfold len in *. lia.
Qed.

Lemma ready_no_panic r : inv r -> no_panic (ready r).
Proof.
  intros H. pose proof (inv_unstable r H). pose proof (last_first r H).
  unfold ready. apply no_panic_bind; [| by intros [] _].
  destruct (Z.leb_spec (unstableIndex r) (lastLogIndex r)); [| done].
  apply no_panic_bind; [| done].
  rewrite logPos_exact by (done || lia). unfold slice_from.
  apply slice_no_panic; lia.
Qed.

(** ** Frames

    What each helper may touch, as an equation that rebuilds the result from
    the old state and the fields that changed. *)

Lemma resetElectionTimeout_frame r :
  let r' := resetElectionTimeout r in
  r' = set_rnd (rnd r') (set_randomizedElectionTimeout (randomizedElectionTimeout r')
         (set_electionElapsed 0 r)).
Proof. unfold resetElectionTimeout. by destruct (intn _ _). Qed.

Lemma sendAppendEntries_frame r p ctx r' :
  sendAppendEntries r p ctx = Ok r' ->
  r' = set_msgs (msgs r') (set_sentIndex (sentIndex r') r).
Proof.
  unfold sendAppendEntries. destruct (_ <? _).
  { intros [= <-]. by destruct r. }
  destruct (Entries _ _ _); [| done..]. cbn [res_bind].
  intros [= <-]. destruct (_ <? _); by destruct r.
Qed.

Lemma broadcast_frame ps : forall r ctx r',
  broadcast r ps ctx = Ok r' ->
  r' = set_msgs (msgs r') (set_sentIndex (sentIndex r') r).
Proof.
  induction ps as [|p ps IH]; intros r ctx r'; cbn [broadcast].
  { intros [= <-]. by destruct r. }
  intros H. bind_ok H r1 H1. apply sendAppendEntries_frame in H1.
  rewrite (IH _ _ _ H), H1. done.
Qed.

Lemma advance_loop_frame fuel : forall r n,
  let r' := advance_loop fuel r n in
  r' = set_commitIndex (commitIndex r') r /\
  commitIndex r <= commitIndex r' <= Z.max (commitIndex r) n.
Proof.
  induction fuel as [|fuel IH]; intros r n; cbn [advance_loop].
  { split; [by destruct r | lia]. }
  destruct (Z.ltb_spec (commitIndex r) n); [| split; [by destruct r | lia]].
  pose proof (IH r (n - 1)) as [Heq Hle].
  destruct (negb _); [split; [done | lia] |].
  destruct (hasMajorityCount _ _); [simpl; split; [done | lia] |].
  split; [done | lia].
Qed.

Lemma maybeAdvance_frame r :
  let r' := maybeAdvanceCommitIndex r in
  r' = set_commitIndex (commitIndex r') r /\
  commitIndex r <= commitIndex r' <= Z.max (commitIndex r) (lastLogIndex r).
Proof.
  apply advance_loop_frame.
Qed.

Lemma request_votes_frame ty r : request_votes ty r = set_msgs (msgs (request_votes ty r)) r.
Proof.
  unfold request_votes. generalize (peers r) as ps. intros ps. revert r.
  induction ps as [|p ps IH]; intros r; cbn [fold_left]; [by destruct r |].
  rewrite IH. by destruct r.
Qed.

(** ** Preservation by the helpers *)

Lemma inv_set_commit r c :
  inv r -> firstLogIndex r <= c < maxIndex -> inv (set_commitIndex c r).
Proof. intros [] Hc. by constructor. Qed.

Lemma inv_maybeAdvance r : inv r -> inv (maybeAdvanceCommitIndex r).
Proof.
  intros H. destruct (maybeAdvance_frame r) as [Heq Hc]. rewrite Heq.
  apply inv_set_commit; [done |].
  pose proof (inv_commit r H). pose proof (inv_bound r H). lia.
Qed.

Lemma inv_resetElectionTimeout r : inv r -> inv (resetElectionTimeout r).
Proof. apply inv_frame. by rewrite resetElectionTimeout_frame. Qed.

Lemma inv_becomeFollower term r : inv r -> inv (becomeFollower term r).
Proof.
  intros H. apply inv_resetElectionTimeout. revert H. apply inv_frame.
  by destruct (_ <? _).
Qed.

Lemma sendAppendEntries_ok r p ctx :
  inv r -> exists r', sendAppendEntries r p ctx = Ok r' /\ inv r'.
Proof.
  intros H. assert (exists r', sendAppendEntries r p ctx = Ok r') as [r' Hr'].
  { unfold sendAppendEntries. destruct (_ <? _) eqn:E; [by eexists |].
    rewrite Entries_ok; [by eexists | done |].
    pose proof (u64_range (get0 (nextIndex r) p - 1)) as [? _]. zcase; lia. }
  exists r'. split; [done |]. revert H. apply inv_frame.
  apply sendAppendEntries_frame in Hr'. by rewrite Hr'.
Qed.

Lemma broadcast_ok ps : forall r ctx,
  inv r -> exists r', broadcast r ps ctx = Ok r' /\ inv r'.
Proof.
  induction ps as [|p ps IH]; intros r ctx H; cbn [broadcast]; [by eexists |].
  destruct (sendAppendEntries_ok r p ctx H) as (r1 & -> & H1). by apply IH.
Qed.

Lemma becomeLeader_ok r : inv r -> exists r', becomeLeader r = Ok r' /\ inv r'.
Proof.
  intros H. unfold becomeLeader, sendHeartbeats.
  destruct (broadcast_ok (peers (set_heartbeatElapsed 0 (init_progress
    (set_pendingReads ∅ (set_sentIndex ∅ (set_leaderID (id r) (set_role Leader r)))))))
    (set_heartbeatElapsed 0 (init_progress
    (set_pendingReads ∅ (set_sentIndex ∅ (set_leaderID (id r) (set_role Leader r)))))) 0)
    as (r' & Hr' & H'); [by revert H; apply inv_frame |].
  cbv zeta. simpl id in *. rewrite Hr'. cbn [res_bind]. eexists. split; [done |].
  destruct (_ =? 0); [by apply inv_maybeAdvance | done].
Qed.

Lemma becomeCandidate_ok r : inv r -> exists r', becomeCandidate r = Ok r' /\ inv r'.
Proof.
  intros H. unfold becomeCandidate. cbv zeta.
  set (r1 := resetElectionTimeout _).
  assert (inv r1) as H1 by (apply inv_resetElectionTimeout; by revert H; apply inv_frame).
  destruct (_ =? 0); [by apply becomeLeader_ok |]. eexists. split; [done |].
  revert H1. apply inv_frame. by rewrite request_votes_frame.
Qed.

Lemma becomePreCandidate_ok r : inv r -> exists r', becomePreCandidate r = Ok r' /\ inv r'.
Proof.
  intros H. unfold becomePreCandidate. cbv zeta.
  set (r1 := resetElectionTimeout _).
  assert (inv r1) as H1 by (apply inv_resetElectionTimeout; by revert H; apply inv_frame).
  destruct (_ =? 0); [by apply becomeCandidate_ok |]. eexists. split; [done |].
  revert H1. apply inv_frame. by rewrite request_votes_frame.
Qed.

Lemma Tick_ok r : inv r -> exists r', Tick r = Ok r' /\ inv r'.
Proof.
  intros H. unfold Tick. cbv zeta. destruct (role_eqb _ _); destruct (_ <=? _).
  - apply broadcast_ok. by revert H; apply inv_frame.
  - eexists. split; [done |]. by revert H; apply inv_frame.
  - apply becomePreCandidate_ok. by revert H; apply inv_frame.
  - eexists. split; [done |]. by revert H; apply inv_frame.
Qed.

(** ** The append loop against its reference

    What a follower's log becomes behind the point of agreement: its own
    entries as long as terms match, the leader's from the first conflict or
    from the end on. *)
Fixpoint merge (l es : list LogEntry.t) : list LogEntry.t :=
  match l, es with
  | _, [] => l
  | [], _ => es
  | x :: l', e :: es' =>
      if LogEntry.Term x =? LogEntry.Term e then x :: merge l' es' else es
  end.

(** The index of the first conflict, the first entries sitting at [idx]. *)
Fixpoint conflict (idx : Z) (l es : list LogEntry.t) : option Z :=
  match l, es with
  | x :: l', e :: es' =>
      if LogEntry.Term x =? LogEntry.Term e then conflict (idx + 1) l' es' else Some idx
  | _, _ => None
  end.

Definition lower_unstable (c : option Z) (u : Z) : Z :=
  match c with Some i => Z.min i u | None => u end.

Lemma merge_nil_l es : merge [] es = es.
Proof. by destruct es. Qed.

(** Replacing the log behind a common, non-empty prefix. *)
Definition set_tail (l : list LogEntry.t) (u : Z) (r : Raft) : Raft :=
  set_unstableIndex u (set_log l r).

Lemma inv_set_tail r pre suf suf' u :
  inv r -> log r = pre ++ suf -> pre <> [] ->
  contig (firstLogIndex r + len pre) suf' ->
  firstLogIndex r + len pre + len suf' - 1 < maxIndex ->
  firstLogIndex r < u <= firstLogIndex r + len pre + len suf' ->
  inv (set_tail (pre ++ suf') u r) /\
  firstLogIndex (set_tail (pre ++ suf') u r) = firstLogIndex r /\
  lastLogIndex (set_tail (pre ++ suf') u r) = firstLogIndex r + len pre + len suf' - 1.
Proof.
  intros H Hlog Hpre Hc Hb Hu.
  assert (Hfirst : firstLogIndex (set_tail (pre ++ suf') u r) = firstLogIndex r).
  { unfold firstLogIndex. rewrite Hlog. by destruct pre. }
  assert (Hcontig : contig (firstLogIndex r) (pre ++ suf')).
  { apply contig_app. split; [| done]. pose proof (inv_contig r H) as Hr.
    rewrite Hlog in Hr. by apply contig_app in Hr as []. }
  assert (Hlast : lastLogIndex (set_tail (pre ++ suf') u r)
                  = firstLogIndex r + len pre + len suf' - 1).
  { unfold lastLogIndex; simpl. destruct (last (pre ++ suf')) as [e|] eqn:E.
    - rewrite (contig_last _ _ _ Hcontig E), len_app. lia.
    - apply last_None in E. by destruct pre. }
  split; [| done]. destruct H. constructor; rewrite ?Hfirst, ?Hlast; simpl; try done.
  - by destruct pre.
  - lia.
Qed.

(** One round, by cases on what the log holds at the entry's index. *)
Definition append_result (r : Raft) (idx : Z) (e : LogEntry.t)
    (pre suf : list LogEntry.t) : Raft :=
  match suf with
  | [] => set_tail (pre ++ [e]) (unstableIndex r) r
  | x :: _ => if LogEntry.Term x =? LogEntry.Term e then r
              else set_tail (pre ++ [e]) (Z.min idx (unstableIndex r)) r
  end.

Lemma log_split_facts r pre suf :
  inv r -> log r = pre ++ suf -> pre <> [] ->
  0 < len pre /\ lastLogIndex r = firstLogIndex r + len pre + len suf - 1.
Proof.
  intros H Hlog Hpre. rewrite last_first, Hlog, len_app by done.
  split; [destruct pre; [done | len_lia] | lia].
Qed.

Lemma termAt_split r pre x suf :
  inv r -> log r = pre ++ x :: suf -> pre <> [] ->
  termAt r (firstLogIndex r + len pre) = LogEntry.Term x.
Proof.
  intros H Hlog Hpre. apply termAt_entry; [done |]. unfold entry_at.
  rewrite (proj2 (Z.ltb_ge _ _)) by len_lia.
  replace (Z.to_nat _) with (length pre) by (unfold len; lia).
  rewrite Hlog. by apply list_lookup_middle.
Qed.

Lemma append_one_run r idx e pre suf :
  inv r -> log r = pre ++ suf -> pre <> [] -> idx = firstLogIndex r + len pre ->
  append_one r idx e = Ok (append_result r idx e pre suf).
Proof.
  intros H Hlog Hpre ->. destruct (log_split_facts r pre suf H Hlog Hpre) as [Hpos Hlast].
  unfold append_one, append_result. destruct suf as [|x suf].
  - rewrite (proj2 (Z.leb_gt _ _)) by len_lia. cbn [andb res_bind].
    rewrite Hlog, app_nil_r, (proj2 (Z.eqb_neq _ _)) by lia.
    rewrite (proj2 (Z.ltb_lt _ _)) by len_lia. by destruct r.
  - rewrite (proj2 (Z.leb_le _ _)) by len_lia. rewrite (termAt_split r pre x suf) by done.
    destruct (LogEntry.Term x =? LogEntry.Term e); cbn [andb negb].
    + cbn [res_bind]. rewrite (proj2 (Z.eqb_neq _ _)) by (rewrite Hlog; len_lia).
      by rewrite (proj2 (Z.ltb_ge _ _)) by len_lia.
    + rewrite logPos_exact by (done || len_lia).
      replace (firstLogIndex r + len pre - firstLogIndex r) with (len pre) by lia.
      rewrite Hlog, slice_hit by done. cbn [res_bind].
      assert (Hpre_last : lastLogIndex (set_log pre r) = firstLogIndex r + len pre - 1).
      { pose proof (inv_contig r H) as Hc. rewrite Hlog in Hc. apply contig_app in Hc as [Hc _].
        unfold lastLogIndex; simpl. destruct (last pre) as [y|] eqn:E.
        - apply (contig_last _ _ _ Hc E).
        - by apply last_None in E. }
      set (u := firstLogIndex r + len pre). cbn [unstableIndex set_log].
      assert (Hr1 : (if u <? unstableIndex r then set_unstableIndex u (set_log pre r)
                     else set_log pre r)
                    = set_tail pre (Z.min u (unstableIndex r)) r).
      { unfold set_tail. destruct (Z.ltb_spec u (unstableIndex r));
          [by rewrite Z.min_l by lia | rewrite Z.min_r by lia; by destruct r]. }
      rewrite Hr1. change (log (set_tail _ _ _)) with pre.
      change (lastLogIndex (set_tail _ _ _)) with (lastLogIndex (set_log pre r)).
      rewrite (proj2 (Z.eqb_neq _ _)), Hpre_last, (proj2 (Z.ltb_lt _ _)) by lia.
      by destruct r.
Qed.

Lemma append_result_inv r idx e pre suf :
  inv r -> log r = pre ++ suf -> pre <> [] -> idx = firstLogIndex r + len pre ->
  LogEntry.Index e = idx -> idx < maxIndex ->
  let r1 := append_result r idx e pre suf in
  inv r1 /\ firstLogIndex r1 = firstLogIndex r.
Proof.
  intros H Hlog Hpre Hidx He Hb.
  destruct (log_split_facts r pre suf H Hlog Hpre) as [Hpos Hlast].
  pose proof (inv_unstable r H).
  assert (Hset : forall u, firstLogIndex r < u <= idx + 1 ->
            inv (set_tail (pre ++ [e]) u r) /\
            firstLogIndex (set_tail (pre ++ [e]) u r) = firstLogIndex r).
  { intros u Hu. destruct (inv_set_tail r pre suf [e] u) as (? & ? & _); try done.
    - split; [lia | done].
    - len_lia.
    - len_lia. }
  unfold append_result. destruct suf as [|x suf]; [| destruct (_ =? _); [done |]];
    apply Hset; len_lia.
Qed.

Lemma set_tail_twice l u l' u' r : set_tail l u (set_tail l' u' r) = set_tail l u r.
Proof. done. Qed.

(** The loop computes the reference merge and lowers [unstableIndex] to the
    first conflict. *)
Lemma append_loop_ok es : forall r prev i pre suf,
  inv r -> log r = pre ++ suf -> pre <> [] ->
  prev + 1 + i = firstLogIndex r + len pre ->
  contig (prev + 1 + i) es -> prev + i + len es < maxIndex ->
  let r' := set_tail (pre ++ merge suf es)
              (lower_unstable (conflict (prev + 1 + i) suf es) (unstableIndex r)) r in
  append_loop r prev i es = Ok r' /\ inv r' /\ firstLogIndex r' = firstLogIndex r.
Proof.
  induction es as [|e es IH]; intros r prev i pre suf H Hlog Hpre Hidx Hes Hb; cbv zeta.
  { replace (merge suf []) with suf by (by destruct suf).
    replace (conflict (prev + 1 + i) suf []) with (@None Z) by (by destruct suf).
    simpl. rewrite <- Hlog. by destruct r. }
  destruct Hes as [He Hes]. rewrite len_cons in Hb. cbn [append_loop].
  pose proof (inv_first r H) as Hfst. pose proof (len_nonneg pre). pose proof (len_nonneg es).
  rewrite u64_small by (unfold is_u64, maxIndex in *; lia).
  rewrite (append_one_run r _ e pre suf H Hlog Hpre Hidx). cbn [res_bind].
  destruct (append_result_inv r _ e pre suf H Hlog Hpre Hidx He ltac:(lia)) as [Hi1 Hf1].
  assert (Hsnoc : forall y, prev + 1 + (i + 1) = firstLogIndex r + len (pre ++ [y]))
    by (intros; len_lia).
  assert (Hne : forall y, pre ++ [y] <> []) by (intros; by destruct pre).
  replace (prev + 1 + i + 1) with (prev + 1 + (i + 1)) in Hes by lia.
  revert Hi1 Hf1. unfold append_result.
  destruct suf as [|x suf]; [| destruct (LogEntry.Term x =? LogEntry.Term e) eqn:Ht].
  - intros Hi1 Hf1. cbn [merge conflict lower_unstable].
    destruct (IH _ prev (i + 1) (pre ++ [e]) [] Hi1) as (-> & Hi & Hf); try done.
    { by rewrite app_nil_r. } { by rewrite Hf1. } { lia. }
    rewrite merge_nil_l, <- app_assoc in *.
    replace (conflict (prev + 1 + (i + 1)) [] es) with (@None Z) in * by (by destruct es).
    rewrite <- Hf1. done.
  - intros _ _. cbn [merge conflict]. rewrite Ht.
    destruct (IH r prev (i + 1) (pre ++ [x]) suf H) as (-> & Hi & Hf); try done.
    { by rewrite <- app_assoc. } { lia. }
    rewrite <- app_assoc in *.
    replace (prev + 1 + i + 1) with (prev + 1 + (i + 1)) by lia. done.
  - intros Hi1 Hf1. cbn [merge conflict lower_unstable]. rewrite Ht.
    destruct (IH _ prev (i + 1) (pre ++ [e]) [] Hi1) as (-> & Hi & Hf); try done.
    { by rewrite app_nil_r. } { by rewrite Hf1. } { lia. }
    rewrite merge_nil_l, <- app_assoc in *.
    replace (conflict (prev + 1 + (i + 1)) [] es) with (@None Z) in * by (by destruct es).
    rewrite <- Hf1. done.
Qed.

(** ** Preservation by message handling *)

(** What every message a peer sends satisfies (see [RaftSend]): the entries of
    an append carry consecutive indexes from [PrevLogIndex] on, and indexes
    stay in range. *)
Definition wire_ok (m : Message.t) : Prop :=
  match Message.Type_ m with
  | MsgAppendEntries =>
      0 <= Message.PrevLogIndex m /\
      contig (Message.PrevLogIndex m + 1) (Message.Entries m) /\
      (Message.Entries m = [] \/ Message.PrevLogIndex m + len (Message.Entries m) < maxIndex)
  | MsgInstallSnapshot =>
      0 <= Snapshot.LastIncludedIndex (Message.Snapshot m) < maxIndex
  | _ => True
  end.

(** The bound on the appended indexes, once [PrevLogIndex] was found. *)
Lemma wire_bound r prev (es : list LogEntry.t) :
  inv r -> es = [] \/ prev + len es < maxIndex -> prev <= lastLogIndex r ->
  prev + 0 + len es < maxIndex.
Proof. intros H [-> | ?] Hp; [| lia]. pose proof (inv_bound r H). change (len []) with 0. lia. Qed.

(** An append that does not reach back behind the receiver's own snapshot. *)
Definition fresh (r : Raft) (m : Message.t) : Prop :=
  Message.Type_ m = MsgAppendEntries -> firstLogIndex r <= Message.PrevLogIndex m.

Lemma append_one_inv r idx e r1 :
  inv r -> 0 <= idx <= lastLogIndex r + 1 -> idx < maxIndex -> LogEntry.Index e = idx ->
  append_one r idx e = Ok r1 ->
  inv r1 /\ firstLogIndex r1 = firstLogIndex r /\ idx <= lastLogIndex r1.
Proof.
  intros H Hi Hb He. pose proof (first_le_last r H) as Hfl. pose proof (last_first r H) as Hl.
  destruct (Z.le_gt_cases idx (firstLogIndex r)) as [Hle|Hgt].
  - unfold append_one. rewrite (proj2 (Z.leb_le _ _)) by lia. simpl andb.
    destruct (negb _).
    + destruct (Z.eq_dec idx (firstLogIndex r)) as [->|].
      * rewrite logPos_exact, Z.sub_diag by (done || lia). rewrite slice_ok by len_lia.
        cbn [res_bind]. simpl take. by destruct (_ <? _).
      * pose proof (logPos_negative r idx H ltac:(lia)).
        unfold slice. rewrite (proj2 (Z.leb_gt 0 (logPos r idx))) by lia.
        by rewrite andb_false_r.
    + cbn [res_bind]. destruct (_ =? 0); [done |].
      rewrite (proj2 (Z.ltb_ge _ _)) by lia. intros [= <-]. split_and!; [done | done | lia].
  - set (n := Z.to_nat (idx - firstLogIndex r)).
    assert (len (take n (log r)) = idx - firstLogIndex r) as Hpre
      by (unfold len in *; rewrite length_take; lia).
    assert (take n (log r) <> []) as Hne by (intros E; rewrite E in Hpre; len_lia).
    rewrite (append_one_run r idx e (take n (log r)) (drop n (log r)));
      [| done | by rewrite take_drop | done | lia].
    intros [= <-].
    destruct (append_result_inv r idx e (take n (log r)) (drop n (log r))) as [Hinv Hf];
      [done | by rewrite take_drop | done | lia | done | done |].
    split_and!; [done | done |].
    rewrite last_first, Hf by done. unfold append_result.
    destruct (drop n (log r)) as [|x s] eqn:Hd; [simpl; len_lia |].
    destruct (_ =? _); [| simpl; len_lia].
    rewrite <- (take_drop n (log r)), Hd. len_lia.
Qed.

Lemma append_loop_inv es : forall r prev i r',
  inv r -> 0 <= prev + 1 + i <= lastLogIndex r + 1 ->
  contig (prev + 1 + i) es -> prev + i + len es < maxIndex ->
  append_loop r prev i es = Ok r' ->
  inv r' /\ firstLogIndex r' = firstLogIndex r /\ prev + i + len es <= lastLogIndex r'.
Proof.
  induction es as [|e es IH]; intros r prev i r' H Hi Hes Hb; cbn [append_loop].
  { intros [= <-]. split_and!; [done | done | len_lia]. }
  destruct Hes as [He Hes]. rewrite len_cons in *. pose proof (len_nonneg es).
  rewrite u64_small by (unfold is_u64, maxIndex in *; lia).
  intros Hrun. bind_ok Hrun r1 H1.
  apply append_one_inv in H1 as (Hi1 & Hf1 & Hl1); [| done | lia | lia | done].
  replace (prev + 1 + i + 1) with (prev + 1 + (i + 1)) in Hes by lia.
  apply IH in Hrun as (? & Hf & Hl); [| done | lia | done | lia].
  split_and!; [done | lia | lia].
Qed.
