(* ===== verification/RaftInv.v ===== *)
(** * Raft: every operation preserves the log invariant

    The public operations of src/raft/raft.go as one [exec] function, the
    preservation theorem, and the conditions under which no operation
    panics. *)

From S2P Require Import Prelude GoBytes RaftTypes Raft RaftLog.

(** The pair that must be durable before a message that depends on it is sent. *)
Definition hard (r : Raft) : HardState.t := HardState.mk (currentTerm r) (votedFor r).

(** ** Handlers *)

Lemma inv_send m r : inv r -> inv (send m r).
Proof. by apply inv_frame. Qed.

Lemma inv_handlePreVote r m : inv r -> inv (handlePreVote r m).
Proof. intros. unfold handlePreVote. destruct (_ <? _); by apply inv_send. Qed.

Lemma inv_handleRequestVote r m : inv r -> inv (handleRequestVote r m).
Proof.
  intros H. unfold handleRequestVote. cbv zeta.
  set (r1 := if _ <? _ then becomeFollower _ r else r).
  assert (inv r1) as H1 by (subst r1; destruct (_ <? _); [by apply inv_becomeFollower | done]).
  clearbody r1. destruct (_ <? _); apply inv_send; [done |].
  destruct (_ && _); [apply inv_resetElectionTimeout; by revert H1; apply inv_frame | done].
Qed.

Lemma handlePreVoteResponse_ok r m :
  inv r -> exists r', handlePreVoteResponse r m = Ok r' /\ inv r'.
Proof.
  intros H. unfold handlePreVoteResponse. cbv zeta.
  destruct (negb _); [by eexists |]. destruct (negb _); [by eexists |].
  assert (inv (set_preVotesReceived ({[Message.From m]} ∪ preVotesReceived r) r)) as H1
    by (revert H; by apply inv_frame).
  destruct (hasMajorityCount _ _); [by apply becomeCandidate_ok | by eexists].
Qed.

Lemma handleRequestVoteResponse_ok r m :
  inv r -> exists r', handleRequestVoteResponse r m = Ok r' /\ inv r'.
Proof.
  intros H. unfold handleRequestVoteResponse. cbv zeta.
  destruct (_ <? _); [eexists; split; [done | by apply inv_becomeFollower] |].
  destruct (_ || _); [by eexists |]. destruct (negb _); [by eexists |].
  assert (inv (set_votesReceived ({[Message.From m]} ∪ votesReceived r) r)) as H1
    by (revert H; by apply inv_frame).
  destruct (hasMajorityCount _ _); [by apply becomeLeader_ok | by eexists].
Qed.

(** The state in which [handleAppendEntries] compares logs. *)
Definition adopt_leader (m : Message.t) (r : Raft) : Raft :=
  set_leaderID (Message.From m) (becomeFollower (Message.Term m) r).

Lemma log_view_becomeFollower t r : log_view (becomeFollower t r) = log_view r.
Proof.
  unfold becomeFollower. rewrite resetElectionTimeout_frame. by destruct (_ <? _).
Qed.

Lemma inv_adopt_leader m r : inv r -> inv (adopt_leader m r).
Proof.
  apply inv_frame. rewrite <- (log_view_becomeFollower (Message.Term m) r). done.
Qed.

Lemma log_adopt_leader m r : log (adopt_leader m r) = log r.
Proof.
  pose proof (log_view_becomeFollower (Message.Term m) r) as H. by injection H.
Qed.

Lemma first_adopt_leader m r : firstLogIndex (adopt_leader m r) = firstLogIndex r.
Proof. unfold firstLogIndex. by rewrite log_adopt_leader. Qed.
Lemma last_adopt_leader m r : lastLogIndex (adopt_leader m r) = lastLogIndex r.
Proof. unfold lastLogIndex. by rewrite log_adopt_leader. Qed.

Lemma commit_rule_inv r c :
  inv r ->
  inv (if commitIndex r <? c then set_commitIndex (Z.min c (lastLogIndex r)) r else r).
Proof.
  intros H. destruct (Z.ltb_spec (commitIndex r) c); [| done].
  pose proof (inv_commit r H). pose proof (inv_bound r H). pose proof (first_le_last r H).
  apply inv_set_commit; [done | lia].
Qed.

Lemma handleAppendEntries_inv r m r' :
  inv r -> wire_ok m -> Message.Type_ m = MsgAppendEntries ->
  handleAppendEntries r m = Ok r' -> inv r'.
Proof.
  intros H Hm Hty. unfold wire_ok in Hm. rewrite Hty in Hm. destruct Hm as (Hp & Hc & Hb).
  unfold handleAppendEntries. fold (adopt_leader m r). cbv zeta.
  pose proof (inv_adopt_leader m r H) as H1.
  destruct (_ <? _); [intros [= <-]; by apply inv_send |].
  destruct (Z.ltb_spec (lastLogIndex (adopt_leader m r)) (Message.PrevLogIndex m));
    [intros [= <-]; by apply inv_send |].
  destruct (negb _); [intros [= <-]; by apply inv_send |].
  intros Hrun. bind_ok Hrun r2 Hloop. injection Hrun as <-.
  apply append_loop_inv in Hloop as (H2 & _ & _); [| done | lia | by rewrite Z.add_0_r
    | by apply (wire_bound _ _ _ H1)].
  apply inv_send, commit_rule_inv, H2.
Qed.

Lemma handleAppendEntries_no_panic r m :
  inv r -> wire_ok m -> fresh r m -> Message.Type_ m = MsgAppendEntries ->
  no_panic (handleAppendEntries r m).
Proof.
  intros H Hm Hf Hty. specialize (Hf Hty). unfold wire_ok in Hm. rewrite Hty in Hm.
  destruct Hm as (Hp & Hc & Hb).
  unfold handleAppendEntries. fold (adopt_leader m r). cbv zeta.
  pose proof (inv_adopt_leader m r H) as H1.
  pose proof (last_first _ H1) as Hl. rewrite first_adopt_leader in Hl.
  destruct (_ <? _); [done |].
  destruct (Z.ltb_spec (lastLogIndex (adopt_leader m r)) (Message.PrevLogIndex m)); [done |].
  destruct (negb _); [done |].
  set (n := Z.to_nat (Message.PrevLogIndex m - firstLogIndex r + 1)).
  set (l := log (adopt_leader m r)) in *.
  assert (len (take n l) = Message.PrevLogIndex m - firstLogIndex r + 1) as Hpre
    by (unfold len in *; rewrite length_take; lia).
  destruct (append_loop_ok (Message.Entries m) (adopt_leader m r) (Message.PrevLogIndex m) 0
    (take n l) (drop n l)) as (-> & _ & _); try done.
  - by rewrite take_drop.
  - intros E. rewrite E in Hpre. len_lia.
  - rewrite first_adopt_leader. lia.
  - by rewrite Z.add_0_r.
  - by apply (wire_bound _ _ _ H1).
Qed.

Lemma inv_ackReadIndex r ctx p : inv r -> inv (ackReadIndex r ctx p).
Proof.
  apply inv_frame. unfold ackReadIndex. destruct (_ !! _); [| done].
  by destruct (hasMajorityCount _ _).
Qed.

Lemma handleAppendEntriesResponse_ok r m :
  inv r -> exists r', handleAppendEntriesResponse r m = Ok r' /\ inv r'.
Proof.
  intros H. unfold handleAppendEntriesResponse. cbv zeta.
  destruct (_ <? _); [eexists; split; [done | by apply inv_becomeFollower] |].
  destruct (_ || _); [by eexists |].
  set (r1 := if _ =? 0 then r else _).
  assert (inv r1) as H1 by (subst r1; destruct (_ =? 0); [done | by apply inv_ackReadIndex]).
  clearbody r1.
  destruct (Message.Success m).
  - eexists. split; [done |]. apply inv_maybeAdvance.
    revert H1. apply inv_frame. by destruct (_ <? _).
  - apply sendAppendEntries_ok. revert H1. apply inv_frame. by destruct (_ <? _).
Qed.

Lemma inv_handleInstallSnapshot r m :
  inv r -> wire_ok m -> Message.Type_ m = MsgInstallSnapshot ->
  inv (handleInstallSnapshot r m).
Proof.
  intros H Hm Hty. unfold wire_ok in Hm. rewrite Hty in Hm.
  unfold handleInstallSnapshot. fold (adopt_leader m r). cbv zeta.
  destruct (_ <? _); [by apply inv_send |].
  pose proof (inv_adopt_leader m r H) as H1.
  set (last := Snapshot.LastIncludedIndex (Message.Snapshot m)) in *.
  destruct (Z.leb_spec last (firstLogIndex (adopt_leader m r))); [by apply inv_send |].
  apply inv_send. pose proof (inv_commit _ H1). pose proof (inv_stable _ H1).
  destruct (commitIndex (set_log _ _) <? last) eqn:E; simpl in E; constructor; simpl;
    unfold firstLogIndex, lastLogIndex, maxIndex in *; simpl in *;
    rewrite ?inc64_small by lia; try done; try lia.
  all: apply Z.ltb_ge in E; lia.
Qed.

Lemma inv_handleInstallSnapshotResponse r m :
  inv r -> inv (handleInstallSnapshotResponse r m).
Proof.
  intros H. unfold handleInstallSnapshotResponse. cbv zeta.
  destruct (_ <? _); [by apply inv_becomeFollower |].
  destruct (_ || _); [done |]. apply inv_maybeAdvance. revert H. apply inv_frame.
  by destruct (_ <? _); destruct (_ <? _).
Qed.

Lemma Step_inv r m r' : inv r -> wire_ok m -> Step r m = Ok r' -> inv r'.
Proof.
  intros H Hm. unfold Step. destruct (negb _); [by intros [= <-] |].
  destruct (Message.Type_ m) eqn:Hty.
  - intros [= <-]. by apply inv_handlePreVote.
  - destruct (handlePreVoteResponse_ok r m H) as (x & -> & ?). by intros [= <-].
  - intros [= <-]. by apply inv_handleRequestVote.
  - destruct (handleRequestVoteResponse_ok r m H) as (x & -> & ?). by intros [= <-].
  - by apply handleAppendEntries_inv.
  - destruct (handleAppendEntriesResponse_ok r m H) as (x & -> & ?). by intros [= <-].
  - intros [= <-]. by apply inv_handleInstallSnapshot.
  - intros [= <-]. by apply inv_handleInstallSnapshotResponse.
  - by intros [= <-].
Qed.

Lemma Step_no_panic r m : inv r -> wire_ok m -> fresh r m -> no_panic (Step r m).
Proof.
  intros H Hm Hf. unfold Step. destruct (negb _); [done |].
  destruct (Message.Type_ m) eqn:Hty; try done.
  - by destruct (handlePreVoteResponse_ok r m H) as (x & -> & ?).
  - by destruct (handleRequestVoteResponse_ok r m H) as (x & -> & ?).
  - by apply handleAppendEntries_no_panic.
  - by destruct (handleAppendEntriesResponse_ok r m H) as (x & -> & ?).
Qed.

(** ** Proposals, reads, snapshots, Advance *)

Lemma append_proposals_ok datas : forall r r' indices,
  inv r -> lastLogIndex r + len datas < maxIndex ->
  append_proposals r datas = (r', indices) ->
  inv r' /\ firstLogIndex r' = firstLogIndex r /\
  r' = set_log (log r ++ skipn (length (log r)) (log r')) r /\
  lastLogIndex r' = lastLogIndex r + len datas /\
  indices = map LogEntry.Index (skipn (length (log r)) (log r')) /\
  map LogEntry.Data (skipn (length (log r)) (log r')) = datas /\
  Forall (fun e => LogEntry.Term e = currentTerm r) (skipn (length (log r)) (log r')).
Proof.
  induction datas as [|d datas IH]; intros r r' indices H Hb; cbn [append_proposals].
  { intros [= <- <-]. rewrite drop_all, app_nil_r. split_and!; try done; [by destruct r | len_lia]. }
  rewrite len_cons in *. pose proof (len_nonneg datas) as Hdn.
  pose proof (inv_first r H) as Hfst. pose proof (first_le_last r H) as Hfl.
  pose proof (last_first r H) as Hlf.
  rewrite inc64_small by (unfold maxIndex in *; lia).
  set (e := LogEntry.mk (currentTerm r) (lastLogIndex r + 1) d).
  destruct (append_proposals _ datas) as [r2 ind] eqn:Hrun. intros [= <- <-].
  destruct (inv_set_tail r (log r) [] [e] (unstableIndex r)) as (Hi1 & Hf1 & Hl1);
    try done; [by rewrite app_nil_r | by apply inv_nonempty | split; [simpl; lia | done]
              | len_lia | pose proof (inv_unstable r H); len_lia |].
  replace (set_tail (log r ++ [e]) (unstableIndex r) r) with (set_log (log r ++ [e]) r)
    in * by (by destruct r).
  apply IH in Hrun as (H2 & Hf2 & Heq & Hl2 & Hind & Hdat & Hterm); [| done | len_lia].
  assert (Hlog : log r2 = log r ++ e :: skipn (length (log r ++ [e])) (log r2)).
  { rewrite Heq at 1. simpl log. by rewrite <- app_assoc. }
  simpl log in *. set (rest := skipn (length (log r ++ [e])) (log r2)) in *.
  assert (Htail : skipn (length (log r)) (log r2) = e :: rest) by (rewrite Hlog; apply drop_app_length).
  rewrite Htail. split_and!; try done.
  - lia.
  - rewrite Heq. rewrite <- app_assoc. by destruct r.
  - len_lia.
  - simpl. by f_equal.
  - simpl. by f_equal.
  - by constructor.
Qed.

Lemma ProposeBatch_ok r datas :
  inv r -> lastLogIndex r + len datas < maxIndex ->
  no_panic (ProposeBatch r datas) /\
  forall r' indices, ProposeBatch r datas = Ok (r', indices) -> inv r'.
Proof.
  intros H Hb. unfold ProposeBatch. destruct (negb _); [done |].
  destruct (append_proposals r datas) as [r1 ind] eqn:Hp.
  apply append_proposals_ok in Hp as (H1 & _); [| done..].
  destruct (broadcast_ok (peers r1) r1 0 H1) as (r2 & -> & H2). cbn [res_bind].
  split; [done |]. intros r' indices [= <- _].
  destruct (_ =? 0); [by apply inv_maybeAdvance | done].
Qed.

Lemma RequestReadIndex_ok r ctx :
  inv r -> no_panic (RequestReadIndex r ctx) /\
  forall r', RequestReadIndex r ctx = Ok r' -> inv r'.
Proof.
  intros H. unfold RequestReadIndex. cbv zeta. destruct (negb _); [done |].
  destruct (hasMajorityCount _ _).
  { split; [done |]. intros r' [= <-]. revert H. by apply inv_frame. }
  destruct (broadcast_ok (peers r) (set_pendingReads (<[ctx := {| pr_index := commitIndex r;
    pr_acked := {[id r]} |}]> (pendingReads r)) r) ctx) as (r2 & Hr2 & H2);
    [revert H; by apply inv_frame |].
  simpl peers. rewrite Hr2. split; [done |]. by intros r' [= <-].
Qed.

(** What a successful compaction does to the log. *)
Lemma CreateSnapshot_spec r index data r' :
  inv r -> CreateSnapshot r index data = Ok r' ->
  firstLogIndex r < index <= commitIndex r /\ index <= lastLogIndex r /\
  log r' = LogEntry.mk (termAt r index) index []
             :: drop (Z.to_nat (index - firstLogIndex r + 1)) (log r) /\
  unstableIndex r' = Z.max (unstableIndex r) (index + 1) /\
  snapshot r' = Snapshot.mk index (termAt r index) data /\
  r' = set_snapshot (snapshot r') (set_unstableIndex (unstableIndex r') (set_log (log r') r)).
Proof.
  intros H. pose proof (inv_commit r H). pose proof (inv_first r H).
  pose proof (last_first r H) as Hl. pose proof (len_log_pos r H).
  unfold CreateSnapshot. cbv zeta.
  destruct (Z.ltb_spec (commitIndex r) index); [done |].
  destruct (Z.leb_spec index (firstLogIndex r)); [done |].
  assert (logPos r index = index - firstLogIndex r) as ->.
  { unfold logPos, to_int, maxIndex in *. rewrite u64_small by (unfold is_u64; lia).
    destruct (Z.ltb_spec (index - firstLogIndex r) (2 ^ 63)); lia. }
  destruct (Z.ltb_spec (len (log r) - (index - firstLogIndex r)) 0); [done |].
  intros Hrun. bind_ok Hrun rest Hs. injection Hrun as <-.
  unfold slice_from, slice in Hs. destruct ((_ && _) && _) eqn:E; [| done].
  apply andb_prop in E as [E1 E2]. apply andb_prop in E1 as [E0 E1].
  injection Hs as <-. rewrite inc64_small by (unfold maxIndex in *; lia).
  split_and!; try lia.
  - simpl. destruct (unstableIndex r <=? index); simpl; f_equal; apply take_ge;
      rewrite length_drop; unfold len; lia.
  - simpl. destruct (Z.leb_spec (unstableIndex r) index); simpl; lia.
  - simpl. by destruct (unstableIndex r <=? index).
  - simpl. destruct (unstableIndex r <=? index); by destruct r.
Qed.

Lemma CreateSnapshot_inv r index data r' :
  inv r -> CreateSnapshot r index data = Ok r' -> inv r' /\ lastLogIndex r' = lastLogIndex r.
Proof.
  intros H Hrun. pose proof (last_first r H) as Hl. pose proof (inv_unstable r H).
  pose proof (inv_commit r H) as Hco. pose proof (inv_bound r H). pose proof (inv_stable r H).
  pose proof (inv_first r H).
  apply CreateSnapshot_spec in Hrun as (Hi & Hlast & Hlog & Hu & Hsn & Heq); [| done].
  assert (Hf' : firstLogIndex r' = index) by (unfold firstLogIndex; by rewrite Hlog).
  set (tl := drop (Z.to_nat (index - firstLogIndex r + 1)) (log r)) in *.
  assert (Hct : contig (index + 1) tl).
  { pose proof (contig_drop _ (log r) (Z.to_nat (index - firstLogIndex r + 1))
      ltac:(unfold len in *; lia) (inv_contig r H)) as Hc.
    by replace (firstLogIndex r + _) with (index + 1) in Hc by lia. }
  assert (Hlen : len tl = lastLogIndex r - index)
    by (unfold tl, len in *; rewrite length_drop; lia).
  assert (Hc' : contig index (log r')) by (rewrite Hlog; done).
  assert (Hl' : lastLogIndex r' = lastLogIndex r).
  { unfold lastLogIndex at 1. destruct (last (log r')) as [e|] eqn:E.
    - rewrite (contig_last _ _ _ Hc' E), Hlog. len_lia.
    - apply last_None in E. by rewrite Hlog in E. }
  assert (Hcm : commitIndex r' = commitIndex r) by (by rewrite Heq).
  assert (Hss : stableSnapshotIndex r' = stableSnapshotIndex r) by (by rewrite Heq).
  split; [| done].
  constructor; rewrite ?Hf', ?Hl', ?Hu, ?Hcm, ?Hsn, ?Hss; simpl; try lia; try done.
  by rewrite Hlog.
Qed.

Lemma CreateSnapshot_no_panic r index data :
  inv r -> commitIndex r <= lastLogIndex r -> no_panic (CreateSnapshot r index data).
Proof.
  intros H Hcl. pose proof (last_first r H) as Hl. unfold CreateSnapshot. cbv zeta.
  destruct (Z.ltb_spec (commitIndex r) index); [done |].
  destruct (Z.leb_spec index (firstLogIndex r)); [done |].
  rewrite logPos_exact by (done || lia).
  rewrite (proj2 (Z.ltb_ge _ _)) by lia.
  apply no_panic_bind; [| done]. apply slice_no_panic; lia.
Qed.

Lemma inv_Advance r : inv r -> inv (Advance r).
Proof.
  intros H. pose proof (inv_bound r H). pose proof (inv_first r H).
  pose proof (inv_snapshot r H) as Hs. pose proof (first_le_last r H).
  unfold Advance. destruct r as []. simpl in *.
  unfold firstLogIndex, lastLogIndex in *; simpl in *.
  destruct H; unfold firstLogIndex, lastLogIndex in *; simpl in *.
  destruct (_ <=? _); constructor; simpl; unfold firstLogIndex, lastLogIndex; simpl;
    rewrite ?inc64_small by (unfold maxIndex in *; lia); try done; lia.
Qed.

(** ** Operations *)

Inductive op :=
  | OTick
  | OStep (m : Message.t)
  | OPropose (datas : list bytes)
  | ORead (ctx : Z)
  | OSnapshot (index : Z) (data : bytes)
  | OAdvance.

(** The state after a call that returned; an error leaves it as it was. *)
Definition keep {A} (r : Raft) (f : A -> Raft) (x : res A) : res Raft :=
  match x with
  | Ok a => Ok (f a)
  | Err _ => Ok r
  | Panic => Panic
  end.

Definition exec (r : Raft) (o : op) : res Raft :=
  match o with
  | OTick => Tick r
  | OStep m => Step r m
  | OPropose datas => keep r fst (ProposeBatch r datas)
  | ORead ctx => keep r (fun r => r) (RequestReadIndex r ctx)
  | OSnapshot index data => keep r (fun r => r) (CreateSnapshot r index data)
  | OAdvance => Ok (Advance r)
  end.

Definition op_ok (r : Raft) (o : op) : Prop :=
  match o with
  | OStep m => wire_ok m
  | OPropose datas => lastLogIndex r + len datas < maxIndex
  | _ => True
  end.

Lemma New_inv cfg draws r : New cfg draws = Ok r -> inv r.
Proof.
  unfold New. destruct (Config.validate cfg); [done |]. intros [= <-].
  apply inv_resetElectionTimeout. constructor; unfold firstLogIndex, lastLogIndex, maxIndex;
    simpl; done || lia.
Qed.

(** C33: the documented invariant of the log ("log[i].Index == log[0].Index + i
    always holds", generalised to the snapshot boundary) together with the
    bounds of [unstableIndex], [commitIndex] and the snapshot fields is kept
    by every public operation: [Tick], [Step] on every message type,
    [ProposeBatch], [RequestReadIndex], [CreateSnapshot] and [Advance]. *)
Theorem raft_inv_preserved r o r' :
  inv r -> op_ok r o -> exec r o = Ok r' -> inv r'.
Proof.
  intros H Hok. destruct o; simpl in *.
  - destruct (Tick_ok r H) as (x & -> & ?). by intros [= <-].
  - by apply Step_inv.
  - destruct (ProposeBatch_ok r datas H Hok) as [_ Hp].
    destruct (ProposeBatch r datas) as [[x y]| |] eqn:E; [| by intros [= <-] | done].
    intros [= <-]. by eapply Hp.
  - destruct (RequestReadIndex_ok r ctx H) as [_ Hp].
    destruct (RequestReadIndex r ctx) eqn:E; [| by intros [= <-] | done].
    intros [= <-]. by apply Hp.
  - destruct (CreateSnapshot r index data) eqn:E; [| by intros [= <-] | done].
    intros [= <-]. by apply (CreateSnapshot_inv _ _ _ _ H) in E as [].
  - intros [= <-]. by apply inv_Advance.
Qed.

(** Sample nodes for concrete runs: three nodes 1, 2, 3. *)
Definition sample_config (i : Z) : Config.t :=
  Config.mk i (filter (fun p => p <> i) [1; 2; 3]) 10 1.

Definition sample_node (i : Z) : Raft :=
  match New (sample_config i) [] with Ok r => r | _ => resetElectionTimeout
    {| id := 0; peers := []; role := Follower; currentTerm := 0; votedFor := 0;
       leaderID := 0; log := []; snapshot := Snapshot.zero;
       pendingSnapshotToApply := None; commitIndex := 0; lastApplied := 0;
       stableTerm := 0; stableVote := 0; unstableIndex := 0; stableSnapshotIndex := 0;
       nextIndex := ∅; matchIndex := ∅; sentIndex := ∅; votesReceived := ∅;
       preVotesReceived := ∅; pendingReads := ∅; readStates := []; electionTick := 0;
       heartbeatTick := 0; electionElapsed := 0; heartbeatElapsed := 0;
       randomizedElectionTimeout := 0; rnd := []; msgs := [] |} end.

Lemma sample_node_new i : i = 1 \/ i = 2 \/ i = 3 -> New (sample_config i) [] = Ok (sample_node i).
Proof. intros [-> | [-> | ->]]; vm_compute; reflexivity. Qed.

Definition sample_append : Message.t :=
  Message.stamp 1 1 (Message.append_request 2 0 0 [LogEntry.mk 1 1 []; LogEntry.mk 1 2 []] 0 0).

Lemma raft_inv_preserved_witness :
  exists r', exec (sample_node 2) (OStep sample_append) = Ok r' /\ lastLogIndex r' = 2 /\ inv r'.
Proof.
  eexists. split; [vm_compute; reflexivity |]. split; [vm_compute; reflexivity |].
  apply (raft_inv_preserved (sample_node 2) (OStep sample_append)).
  - apply (New_inv (sample_config 2) []). vm_compute. reflexivity.
  - vm_compute. intuition congruence.
  - vm_compute. reflexivity.
Defined.

Lemma op_no_panic r o :
  inv r -> op_ok r o ->
  (forall m, o = OStep m -> fresh r m) ->
  (forall index data, o = OSnapshot index data -> commitIndex r <= lastLogIndex r) ->
  no_panic (exec r o).
Proof.
  intros H Hok Hf Hc. destruct o; simpl in *.
  - by destruct (Tick_ok r H) as (x & -> & ?).
  - apply Step_no_panic; auto.
  - destruct (ProposeBatch_ok r datas H Hok) as [Hp _]. by destruct (ProposeBatch r datas).
  - destruct (RequestReadIndex_ok r ctx H) as [Hp _]. by destruct (RequestReadIndex r ctx).
  - pose proof (CreateSnapshot_no_panic r index data H ltac:(eauto)) as Hp.
    by destruct (CreateSnapshot r index data).
  - done.
Qed.

(** No operation panics on a node that satisfies the invariant, provided
    an incoming append does not reach back behind the node's own snapshot and
    the commit index lies within the log when a snapshot is taken. *)
Theorem raft_no_panic r o :
  inv r -> op_ok r o ->
  (forall m, o = OStep m -> fresh r m) ->
  (forall index data, o = OSnapshot index data -> commitIndex r <= lastLogIndex r) ->
  no_panic (exec r o) /\ no_panic (ready r).
Proof.
  intros H Hok Hf Hc. split; [by apply op_no_panic | by apply ready_no_panic].
Qed.

Lemma raft_no_panic_witness :
  no_panic (exec (sample_node 2) (OStep sample_append)) /\ no_panic (ready (sample_node 2)).
Proof.
  apply raft_no_panic.
  - apply (New_inv (sample_config 2) []). vm_compute. reflexivity.
  - vm_compute. intuition congruence.
  - intros m [= <-] _. vm_compute. congruence.
  - intros index data [=].
Defined.

(** C38: an append of the current or a newer term that starts at the very
    beginning of the log ([PrevLogIndex] and [PrevLogTerm] zero, as the first
    replication to a peer does) and carries an entry (of a nonzero term) panics
    on a follower that has compacted its log beyond index 1 since: the consistency check passes
    because [termAt 0] is 0, the first entry counts as a conflict and the log
    is sliced at a negative position.  A delayed or repeated copy of such a
    message crashes the node. *)
Theorem stale_append_panics r m e es :
  inv r -> 1 < firstLogIndex r ->
  Message.Type_ m = MsgAppendEntries -> Message.To m = id r ->
  currentTerm r <= Message.Term m ->
  Message.PrevLogIndex m = 0 -> Message.PrevLogTerm m = 0 ->
  Message.Entries m = e :: es -> LogEntry.Term e <> 0 ->
  Step r m = Panic.
Proof.
  intros H Hf Hty Hto Hterm Hp Hpt Hes He.
  pose proof (inv_adopt_leader m r H) as H1.
  pose proof (first_le_last _ H1) as Hfl. rewrite first_adopt_leader in Hfl.
  unfold Step. rewrite Hto, Z.eqb_refl, Hty. simpl negb. cbv iota.
  unfold handleAppendEntries. fold (adopt_leader m r). cbv zeta.
  rewrite Hp, Hpt, Hes, (proj2 (Z.ltb_ge _ _)), (proj2 (Z.ltb_ge (lastLogIndex _) 0)) by lia.
  assert (forall i, i < firstLogIndex r -> termAt (adopt_leader m r) i = 0) as Ht0.
  { intros i Hi. unfold termAt. rewrite first_adopt_leader.
    by rewrite (proj2 (Z.ltb_lt i _)) by lia. }
  rewrite Ht0 by lia. simpl negb. cbv iota. cbn [append_loop].
  change (u64 (0 + 1 + 0)) with 1. unfold append_one.
  rewrite (proj2 (Z.leb_le _ _)), Ht0 by lia. rewrite (proj2 (Z.eqb_neq _ _)) by lia.
  simpl andb. cbv iota. unfold slice.
  pose proof (logPos_negative _ 1 H1) as Hneg. rewrite first_adopt_leader in Hneg.
  rewrite (proj2 (Z.leb_gt 0 (logPos (adopt_leader m r) 1))) by (apply Hneg; lia).
  by rewrite andb_false_r.
Qed.

(** A follower that received two committed entries and compacted them. *)
Definition sample_compacted : Raft :=
  let m := Message.stamp 1 1
    (Message.append_request 2 0 0 [LogEntry.mk 1 1 []; LogEntry.mk 1 2 []] 2 0) in
  match Step (sample_node 2) m with
  | Ok r => match CreateSnapshot r 2 [] with Ok r => r | _ => r end
  | _ => sample_node 2
  end.

Lemma sample_compacted_inv : inv sample_compacted.
Proof. constructor; vm_compute; try done; repeat split; congruence. Qed.

Lemma stale_append_panics_witness : Step sample_compacted sample_append = Panic.
Proof.
  eapply stale_append_panics; try (vm_compute; reflexivity).
  - apply sample_compacted_inv.
  - vm_compute. congruence.
  - vm_compute. congruence.
Defined.
