(* ===== verification/RaftVote.v ===== *)
(** * Raft: votes and leadership of one node

    What a single node of src/raft/raft.go guarantees about terms, votes and
    leadership, whatever operation it runs.  [vote_inv] is stated relative to
    the set [net] of messages that exist in the network, so that the cluster
    argument can use it for every node at once. *)

From S2P Require Import Prelude GoBytes RaftTypes Raft RaftLog RaftInv.

(** Terms stay below this bound, so that the successor of a term is exact. *)
Definition maxTerm : Z := 2 ^ 64 - 1.

(** ** The order on votes *)

(** [(term, vote)] pairs of one node over time: the term never decreases and
    within a term a vote, once cast, is never changed. *)
Definition hard_le (a b : HardState.t) : Prop :=
  HardState.Term a < HardState.Term b \/
  (HardState.Term a = HardState.Term b /\
   (HardState.Vote a = HardState.Vote b \/ HardState.Vote a = 0)).

#[global] Instance hard_le_refl : Reflexive hard_le.
Proof. intros a. right. tauto. Qed.
#[global] Instance hard_le_trans : Transitive hard_le.
Proof. unfold hard_le. intros a b c. lia. Qed.

Lemma hard_le_antisym a b : hard_le a b -> hard_le b a -> a = b.
Proof. destruct a, b; unfold hard_le; simpl. intros. f_equal; lia. Qed.

(** The state shows that the vote of term [t] can only have gone to [c]. *)
Definition voted (h : HardState.t) (t c : Z) : Prop :=
  t < HardState.Term h \/ (t = HardState.Term h /\ HardState.Vote h = c).

Lemma voted_le a b t c : c <> 0 -> hard_le a b -> voted a t c -> voted b t c.
Proof. unfold hard_le, voted. lia. Qed.

(** ** Vote messages *)

Definition is_request (m : Message.t) : Prop := Message.Type_ m = MsgRequestVote.
Definition is_grant (m : Message.t) : Prop :=
  Message.Type_ m = MsgRequestVoteResponse /\ Message.VoteGranted m = true.

(** The term and the candidate a message votes for; a request is the sender's
    vote for itself. *)
Definition ballot (m : Message.t) : option (Z * Z) :=
  match Message.Type_ m with
  | MsgRequestVote => Some (Message.Term m, Message.From m)
  | MsgRequestVoteResponse =>
      if Message.VoteGranted m then Some (Message.Term m, Message.To m) else None
  | _ => None
  end.

Lemma ballot_request m : is_request m -> ballot m = Some (Message.Term m, Message.From m).
Proof. unfold ballot. by intros ->. Qed.
Lemma ballot_grant m : is_grant m -> ballot m = Some (Message.Term m, Message.To m).
Proof. unfold ballot. by intros [-> ->]. Qed.
Lemma ballot_none m : ~ is_request m -> ~ is_grant m -> ballot m = None.
Proof.
  unfold ballot, is_request, is_grant. destruct (Message.Type_ m); try done.
  destruct (Message.VoteGranted m); tauto.
Qed.

Definition ballot_ok (h : HardState.t) (m : Message.t) : Prop :=
  forall t c, ballot m = Some (t, c) -> c <> 0 /\ voted h t c.

Lemma ballot_ok_le h h' m : hard_le h h' -> ballot_ok h m -> ballot_ok h' m.
Proof. intros Hle H t c Hb. destruct (H t c Hb). split; [done | by eapply voted_le]. Qed.

(** Two messages of one sender do not vote for different candidates in one
    term. *)
Definition agree (m1 m2 : Message.t) : Prop :=
  forall t c1 c2, ballot m1 = Some (t, c1) -> ballot m2 = Some (t, c2) -> c1 = c2.

Definition campaigning (r : Raft) : Prop := role r = Candidate \/ role r = Leader.

Definition quorum (r : Raft) : bool :=
  hasMajorityCount r (Z.of_nat (size (votesReceived r))).

Section Net.
Context (net : Message.t -> Prop).

(** A grant from [j] for [c] in term [t] exists. *)
Definition granted (j c t : Z) : Prop :=
  exists m, net m /\ is_grant m /\ Message.From m = j /\ Message.To m = c /\ Message.Term m = t.
(** A request by [c] in term [t] exists. *)
Definition requested (c t : Z) : Prop :=
  exists m, net m /\ is_request m /\ Message.From m = c /\ Message.Term m = t.

Definition msg_ok (r : Raft) (m : Message.t) : Prop :=
  Message.From m = id r /\ ballot_ok (hard r) m /\
  (is_grant m -> requested (Message.To m) (Message.Term m)).

(** The messages of this node, sent or still to be sent. *)
Definition own (r : Raft) (m : Message.t) : Prop :=
  m ∈ msgs r \/ (net m /\ Message.From m = id r).

Record outbox (r : Raft) : Prop := {
  o_msgs : Forall (msg_ok r) (msgs r);
  o_net : forall m, net m -> Message.From m = id r -> ballot_ok (hard r) m;
  o_agree : forall m1 m2, own r m1 -> own r m2 -> agree m1 m2
}.

Record vote_inv (r : Raft) : Prop := {
  v_id : id r <> 0;
  v_term : 0 <= currentTerm r;
  v_self : campaigning r -> votedFor r = id r;
  v_votes : campaigning r -> forall j, j ∈ votesReceived r ->
              j = id r \/ granted j (id r) (currentTerm r);
  v_quorum : role r = Leader -> quorum r = true;
  v_out : outbox r
}.

(** What a step keeps. *)
Definition keeps (r r' : Raft) : Prop :=
  id r' = id r /\ peers r' = peers r /\ hard_le (hard r) (hard r').
Definition vstep (r r' : Raft) : Prop := vote_inv r -> vote_inv r' /\ keeps r r'.

Lemma keeps_trans r1 r2 r3 : keeps r1 r2 -> keeps r2 r3 -> keeps r1 r3.
Proof.
  intros (Hi & Hp & Hl) (Hi' & Hp' & Hl'). split_and!; [congruence.. | by etrans].
Qed.
Lemma vstep_trans r1 r2 r3 : vstep r1 r2 -> vstep r2 r3 -> vstep r1 r3.
Proof.
  intros H1 H2 H. destruct (H1 H) as [Hv Hk]. destruct (H2 Hv) as [Hv' Hk'].
  split; [done | by eapply keeps_trans].
Qed.
Lemma vstep_refl r : vstep r r.
Proof. intros H. split; [done |]. split_and!; done. Qed.

Lemma msg_ok_le r r' m :
  id r' = id r -> hard_le (hard r) (hard r') -> msg_ok r m -> msg_ok r' m.
Proof.
  intros Hi Hle (Hf & Hb & Hg). unfold msg_ok. rewrite Hi.
  split_and!; [done | by eapply ballot_ok_le | done].
Qed.

Lemma own_ok r m : outbox r -> own r m -> ballot_ok (hard r) m.
Proof.
  intros [Ho Hn _] [Hm | [Hm Hf]]; [| auto]. rewrite Forall_forall in Ho. by apply Ho in Hm as (_ & ? & _).
Qed.

(** The outbox under a change of term or vote, when it grows by messages that
    vote as the node did, or not at all. *)
Lemma outbox_step r r' new :
  id r' = id r -> msgs r' = msgs r ++ new -> hard_le (hard r) (hard r') ->
  Forall (msg_ok r') new ->
  Forall (fun m => forall t c, ballot m = Some (t, c) -> (t, c) = (currentTerm r', votedFor r')) new ->
  outbox r -> outbox r'.
Proof.
  intros Hi Hm Hle Hok Hcur Ho. pose proof Ho as [Hms Hn Ha].
  assert (forall m, own r' m -> own r m \/ m ∈ new) as Hown.
  { unfold own. rewrite Hm, Hi. intros m. rewrite elem_of_app. tauto. }
  assert (forall m1 m2, own r m1 -> m2 ∈ new -> agree m1 m2 /\ agree m2 m1) as Hmix.
  { intros m1 m2 H1 H2. rewrite Forall_forall in Hcur. specialize (Hcur m2 H2).
    pose proof (ballot_ok_le _ _ _ Hle (own_ok r m1 Ho H1)) as Hb1.
    split; intros t c1 c2 E1 E2.
    - destruct (Hb1 t c1 E1) as [_ Hv]. apply Hcur in E2. unfold voted, hard in Hv; simpl in Hv.
      injection E2 as -> ->. lia.
    - destruct (Hb1 t c2 E2) as [_ Hv]. apply Hcur in E1. unfold voted, hard in Hv; simpl in Hv.
      injection E1 as -> ->. lia. }
  constructor.
  - rewrite Hm. apply Forall_app. split; [| done]. eapply Forall_impl; [done |].
    intros m. by apply msg_ok_le.
  - intros m Hmn Hf. rewrite Hi in Hf. eapply ballot_ok_le; [done | auto].
  - intros m1 m2 H1 H2. destruct (Hown m1 H1) as [O1|N1], (Hown m2 H2) as [O2|N2];
      [auto | by apply (Hmix m1 m2) | by apply (Hmix m2 m1) |].
    intros t c1 c2 E1 E2. rewrite Forall_forall in Hcur.
    apply Hcur in E1; [| done]. apply Hcur in E2; [| done]. congruence.
Qed.

Lemma outbox_le r r' :
  id r' = id r -> msgs r' = msgs r -> hard_le (hard r) (hard r') -> outbox r -> outbox r'.
Proof.
  intros Hi Hm Hle. apply (outbox_step r r' []); [done | by rewrite app_nil_r | done..].
Qed.

(** ** Quiet steps: neither term, vote, role nor vote messages change *)

Definition vote_view (r : Raft) :=
  (id r, peers r, role r, currentTerm r, votedFor r, votesReceived r).
Definition quiet_msg (r : Raft) (m : Message.t) : Prop :=
  Message.From m = id r /\ Message.Term m = currentTerm r /\ ~ is_request m /\ ~ is_grant m.

Definition quiet (r r' : Raft) : Prop :=
  vote_view r' = vote_view r /\
  exists new, msgs r' = msgs r ++ new /\ Forall (quiet_msg r) new.

Lemma quiet_frame r r' : vote_view r' = vote_view r -> msgs r' = msgs r -> quiet r r'.
Proof. intros Hv Hm. split; [done |]. exists []. by rewrite app_nil_r. Qed.
Lemma quiet_view r r' :
  quiet r r' ->
  id r' = id r /\ peers r' = peers r /\ role r' = role r /\ currentTerm r' = currentTerm r /\
  votedFor r' = votedFor r /\ votesReceived r' = votesReceived r.
Proof. intros [Hv _]. unfold vote_view in Hv. injection Hv. tauto. Qed.
Lemma quiet_refl r : quiet r r.
Proof. by apply quiet_frame. Qed.
Lemma quiet_trans r1 r2 r3 : quiet r1 r2 -> quiet r2 r3 -> quiet r1 r3.
Proof.
  intros [Hv (n1 & Hm1 & Hq1)] [Hv' (n2 & Hm2 & Hq2)]. split; [congruence |].
  exists (n1 ++ n2). rewrite Hm2, Hm1, app_assoc. split; [done |].
  apply Forall_app. split; [done |]. eapply Forall_impl; [exact Hq2 |].
  unfold quiet_msg. injection Hv as -> _ _ -> _ _. done.
Qed.

Lemma quiet_vstep r r' : quiet r r' -> vstep r r'.
Proof.
  intros [Hv (new & Hm & Hq)] []. unfold vote_view in Hv. injection Hv as Hi Hp Hr Ht Hvo Hvr.
  assert (Hle : hard_le (hard r) (hard r')) by (unfold hard; by rewrite Ht, Hvo).
  split; [| done]. constructor; unfold campaigning, quorum, hasMajorityCount, clusterSize in *;
    rewrite ?Hi, ?Hr, ?Ht, ?Hvo, ?Hvr, ?Hp; try done.
  apply (outbox_step r r' new); try done.
  - eapply Forall_impl; [exact Hq |]. intros m (Hf & _ & Hnr & Hng).
    unfold msg_ok, ballot_ok. rewrite Hi, ballot_none by done. split_and!; [done | done | tauto].
  - eapply Forall_impl; [exact Hq |]. intros m (_ & _ & Hnr & Hng).
    by rewrite ballot_none by done.
Qed.

Lemma quiet_send m r : ~ is_request m -> ~ is_grant m -> quiet r (send m r).
Proof.
  intros Hr Hg. split; [done |]. eexists. split; [done |].
  apply Forall_singleton. done.
Qed.

End Net.

#[export] Hint Resolve quiet_refl vstep_refl : kv.

Ltac not_vote := unfold is_request, is_grant; simpl; intuition congruence.

(** ** Quiet helpers *)

Lemma quiet_resetElectionTimeout r : quiet r (resetElectionTimeout r).
Proof. apply quiet_frame; by rewrite resetElectionTimeout_frame. Qed.

Lemma quiet_sendAppendEntries r p ctx r' : sendAppendEntries r p ctx = Ok r' -> quiet r r'.
Proof.
  unfold sendAppendEntries. destruct (_ <? _).
  { intros [= <-]. apply quiet_send; not_vote. }
  destruct (Entries _ _ _); [| done..]. cbn [res_bind]. intros [= <-].
  eapply quiet_trans; [| apply quiet_frame; by destruct (_ <? _)].
  apply quiet_send; not_vote.
Qed.

Lemma quiet_broadcast ps : forall r ctx r', broadcast r ps ctx = Ok r' -> quiet r r'.
Proof.
  induction ps as [|p ps IH]; intros r ctx r'; cbn [broadcast].
  { intros [= <-]. apply quiet_refl. }
  intros H. bind_ok H r1 H1. eapply quiet_trans; [| by eapply IH].
  by eapply quiet_sendAppendEntries.
Qed.

Lemma quiet_maybeAdvance r : quiet r (maybeAdvanceCommitIndex r).
Proof. destruct (maybeAdvance_frame r) as [Heq _]. rewrite Heq. by apply quiet_frame. Qed.

Lemma quiet_request_prevotes r : quiet r (request_votes MsgPreVote r).
Proof.
  unfold request_votes. generalize (peers r) as ps. intros ps. revert r.
  induction ps as [|p ps IH]; intros r; cbn [fold_left]; [apply quiet_refl |].
  eapply quiet_trans; [| apply IH]. apply quiet_send; not_vote.
Qed.

Lemma quiet_ackReadIndex r ctx p : quiet r (ackReadIndex r ctx p).
Proof.
  unfold ackReadIndex. destruct (_ !! _); [| apply quiet_refl].
  apply quiet_frame; by destruct (hasMajorityCount _ _).
Qed.

Lemma quiet_append_one r idx e r' : append_one r idx e = Ok r' -> quiet r r'.
Proof.
  unfold append_one. intros H. bind_ok H r1 H1. revert H. destruct (_ =? 0); [done |].
  intros [= <-]. apply (quiet_trans _ r1); [| apply quiet_frame; by destruct (_ <? _)].
  revert H1. destruct (_ && _); [| intros [= <-]; apply quiet_refl].
  intros H1. bind_ok H1 l Hl. injection H1 as <-. apply quiet_frame; by destruct (_ <? _).
Qed.

Lemma quiet_append_loop es : forall r prev i r', append_loop r prev i es = Ok r' -> quiet r r'.
Proof.
  induction es as [|e es IH]; intros r prev i r'; cbn [append_loop].
  { intros [= <-]. apply quiet_refl. }
  intros H. bind_ok H r1 H1. eapply quiet_trans; [| by eapply IH].
  by eapply quiet_append_one.
Qed.

Lemma quiet_append_proposals datas : forall r r' indices,
  append_proposals r datas = (r', indices) -> quiet r r'.
Proof.
  induction datas as [|d datas IH]; intros r r' indices; cbn [append_proposals].
  { intros [= <- _]. apply quiet_refl. }
  destruct (append_proposals _ datas) as [r2 ind] eqn:E. intros [= <- _].
  eapply quiet_trans; [| by eapply IH]. by apply quiet_frame.
Qed.

(** ** Steps that vote, campaign or lead *)

Section Steps.
Context (net : Message.t -> Prop).
Context (net_from : forall m, net m -> Message.From m <> 0).

Abbreviation vote_inv := (vote_inv net).
Abbreviation vstep := (vstep net).

Lemma vstep_quiet_after r1 r2 r3 : vstep r1 r2 -> quiet r2 r3 -> vstep r1 r3.
Proof. intros H Hq. eapply vstep_trans; [exact H | by apply quiet_vstep]. Qed.
Lemma vstep_quiet_before r1 r2 r3 : quiet r1 r2 -> vstep r2 r3 -> vstep r1 r3.
Proof. intros Hq H. eapply vstep_trans; [by apply quiet_vstep | exact H]. Qed.

Lemma vstep_send m r :
  (is_request m -> votedFor r = id r) ->
  (is_grant m -> Message.To m <> 0 /\ votedFor r = Message.To m /\
                 requested net (Message.To m) (currentTerm r)) ->
  vstep r (send m r).
Proof.
  intros Hr Hg []. split; [| done]. constructor; try done.
  set (m' := Message.stamp (id r) (currentTerm r) m).
  assert (forall t c, ballot m' = Some (t, c) -> (t, c) = (currentTerm r, votedFor r) /\ c <> 0) as Hb.
  { unfold ballot; simpl. intros t c. destruct (Message.Type_ m) eqn:Ht; try done.
    - intros [= <- <-]. by rewrite Hr by done.
    - destruct (Message.VoteGranted m) eqn:Hv; [| done]. intros [= <- <-].
      destruct Hg as (? & -> & _); [by split | done]. }
  eapply (outbox_step net r _ [m']); try done; apply Forall_singleton.
  - split_and!; [done | |].
    + intros t c E. destruct (Hb t c E) as [[= -> ->] ?]. split; [done | by right].
    + intros H. by destruct (Hg H) as (_ & _ & ?).
  - intros t c E. by apply Hb.
Qed.

(** A state change that raises the vote order and ends outside a campaign. *)
Lemma vstep_retire r r' :
  id r' = id r -> peers r' = peers r -> msgs r' = msgs r ->
  hard_le (hard r) (hard r') -> ~ campaigning r' -> vstep r r'.
Proof.
  intros Hi Hp Hm Hle Hc []. split; [| done]. constructor; try tauto.
  - by rewrite Hi.
  - unfold hard_le, hard in Hle; simpl in Hle. lia.
  - intros Hr. destruct Hc. by right.
  - by apply (outbox_le net r).
Qed.

Lemma vstep_becomeFollower t r : vstep r (becomeFollower t r).
Proof.
  unfold becomeFollower. eapply vstep_quiet_after; [| apply quiet_resetElectionTimeout].
  apply vstep_retire; try (by destruct (_ <? _)).
  - unfold hard_le, hard; simpl. destruct (Z.ltb_spec (currentTerm r) t); simpl; lia.
  - unfold campaigning. simpl. intuition congruence.
Qed.

Lemma becomeLeader_vstep r r' :
  role r = Candidate -> quorum r = true -> becomeLeader r = Ok r' -> vstep r r'.
Proof.
  intros Hrole Hq. unfold becomeLeader, sendHeartbeats. cbv zeta.
  set (r1 := set_heartbeatElapsed 0 _). intros H. bind_ok H r2 Hb. injection H as <-.
  assert (vstep r r1) as H1.
  { intros []. split; [| done]. assert (campaigning r) by (by left).
    constructor; simpl; auto. by apply (outbox_le net r). }
  clearbody r1. eapply vstep_quiet_after; [exact H1 |].
  eapply quiet_trans; [by eapply quiet_broadcast |].
  destruct (_ =? 0); [apply quiet_maybeAdvance | apply quiet_refl].
Qed.

Lemma vstep_request_votes r :
  votedFor r = id r -> vstep r (request_votes MsgRequestVote r).
Proof.
  unfold request_votes. generalize (peers r) as ps. intros ps. revert r.
  induction ps as [|p ps IH]; intros r Hv; cbn [fold_left]; [apply vstep_refl |].
  eapply vstep_trans; [| by apply IH]. apply vstep_send; [done |].
  unfold is_grant; simpl. intuition congruence.
Qed.

Lemma quorum_single r : peers r = [] -> votesReceived r = {[id r]} -> quorum r = true.
Proof.
  intros Hp Hv. unfold quorum, hasMajorityCount, clusterSize. rewrite Hp, Hv, size_singleton.
  reflexivity.
Qed.

Lemma becomeCandidate_vstep r r' :
  currentTerm r < maxTerm -> becomeCandidate r = Ok r' -> vstep r r'.
Proof.
  intros Hmax. unfold becomeCandidate. cbv zeta.
  set (r1 := set_votesReceived _ _).
  assert (vstep r r1) as H1.
  { intros []. assert (hard_le (hard r) (hard r1)) as Hle.
    { left. simpl. rewrite inc64_small by (unfold maxTerm in *; lia). lia. }
    split; [| done]. constructor; simpl; try done.
    - rewrite inc64_small; unfold maxTerm in *; lia.
    - intros _ j. rewrite elem_of_singleton. by left.
    - by apply (outbox_le net r). }
  assert (role r1 = Candidate /\ votedFor r1 = id r1 /\ votesReceived r1 = {[id r1]})
    as (Hro & Hvo & Hvr) by done.
  clearbody r1. pose proof (quiet_resetElectionTimeout r1) as Hq.
  destruct (quiet_view _ _ Hq) as (Hi & Hp & Hr & Ht & Hv & Hvs).
  intros Hrun. eapply vstep_trans; [exact H1 |].
  eapply vstep_quiet_before; [exact Hq |].
  destruct (Z.eqb_spec (len (peers (resetElectionTimeout r1))) 0) as [He|].
  - apply becomeLeader_vstep in Hrun; [done | congruence |].
    apply quorum_single; [by apply len_zero | congruence].
  - injection Hrun as <-. apply vstep_request_votes. congruence.
Qed.

Lemma becomePreCandidate_vstep r r' :
  currentTerm r < maxTerm -> becomePreCandidate r = Ok r' -> vstep r r'.
Proof.
  intros Hmax. unfold becomePreCandidate. cbv zeta.
  set (r1 := set_preVotesReceived _ _).
  assert (vstep r r1) as H1.
  { apply vstep_retire; try done. unfold campaigning; simpl. intuition congruence. }
  assert (currentTerm r1 = currentTerm r) as Ht1 by done. clearbody r1.
  destruct (quiet_view _ _ (quiet_resetElectionTimeout r1)) as (_ & _ & _ & Ht & _).
  intros Hrun. eapply vstep_trans; [exact H1 |].
  eapply vstep_quiet_before; [apply quiet_resetElectionTimeout |].
  destruct (_ =? 0).
  - apply becomeCandidate_vstep in Hrun; [done | lia].
  - injection Hrun as <-. apply quiet_vstep, quiet_request_prevotes.
Qed.

Lemma Tick_vstep r r' : currentTerm r < maxTerm -> Tick r = Ok r' -> vstep r r'.
Proof.
  intros Hmax. unfold Tick, sendHeartbeats. cbv zeta. destruct (role_eqb _ _); destruct (_ <=? _).
  - intros H. eapply vstep_quiet_before; [| eapply quiet_vstep, quiet_broadcast, H].
    by apply quiet_frame.
  - intros [= <-]. by apply quiet_vstep, quiet_frame.
  - intros H. eapply vstep_quiet_before; [| eapply becomePreCandidate_vstep, H; done].
    by apply quiet_frame.
  - intros [= <-]. by apply quiet_vstep, quiet_frame.
Qed.

(** ** Handlers *)

Lemma handlePreVote_quiet r m : quiet r (handlePreVote r m).
Proof. unfold handlePreVote. destruct (_ <? _); apply quiet_send; not_vote. Qed.

Lemma handlePreVoteResponse_vstep r m r' :
  currentTerm r < maxTerm -> handlePreVoteResponse r m = Ok r' -> vstep r r'.
Proof.
  intros Hmax. unfold handlePreVoteResponse. cbv zeta.
  destruct (negb _); [intros [= <-]; apply vstep_refl |].
  destruct (negb _); [intros [= <-]; apply vstep_refl |].
  destruct (hasMajorityCount _ _).
  - intros H. eapply vstep_quiet_before; [| eapply becomeCandidate_vstep, H; done].
    by apply quiet_frame.
  - intros [= <-]. by apply quiet_vstep, quiet_frame.
Qed.

Lemma vstep_cast_vote c r :
  c <> 0 -> votedFor r = 0 \/ votedFor r = c -> vstep r (set_votedFor c r).
Proof.
  intros Hc Hv []. assert (hard_le (hard r) (hard (set_votedFor c r))) as Hle.
  { right. simpl. tauto. }
  split; [| done]. constructor; simpl; try done.
  - intros Hca. specialize (v_self0 Hca). lia.
  - by apply (outbox_le net r).
Qed.

Lemma vstep_cond (b : bool) r r' : (b = true -> vstep r r') -> vstep r (if b then r' else r).
Proof. destruct b; intros H; [by apply H | apply vstep_refl]. Qed.

Lemma currentTerm_becomeFollower t r :
  currentTerm (becomeFollower t r) = Z.max t (currentTerm r).
Proof.
  unfold becomeFollower. rewrite resetElectionTimeout_frame. simpl.
  destruct (Z.ltb_spec (currentTerm r) t); simpl; lia.
Qed.

Lemma handleRequestVote_vstep r m :
  net m -> is_request m -> vstep r (handleRequestVote r m).
Proof.
  intros Hm Hreq. unfold handleRequestVote. cbv zeta.
  set (r1 := if _ <? _ then becomeFollower _ r else r).
  assert (vstep r r1) as H1 by (apply vstep_cond; intros; apply vstep_becomeFollower).
  assert (Message.Term m <= currentTerm r1) as Ht1.
  { subst r1. destruct (Z.ltb_spec (currentTerm r) (Message.Term m)); [| lia].
    rewrite currentTerm_becomeFollower. lia. }
  clearbody r1. eapply vstep_trans; [exact H1 |].
  destruct (Z.ltb_spec (Message.Term m) (currentTerm r1)).
  { apply quiet_vstep, quiet_send; not_vote. }
  set (g := (_ && _)). assert (g = true -> votedFor r1 = 0 \/ votedFor r1 = Message.From m) as Hg.
  { subst g. intros [[?%Z.eqb_eq | ?%Z.eqb_eq]%orb_prop _]%andb_prop; tauto. }
  destruct g.
  - eapply vstep_trans; [apply (vstep_cast_vote (Message.From m)); auto |].
    eapply vstep_quiet_before; [apply quiet_resetElectionTimeout |].
    destruct (quiet_view _ _ (quiet_resetElectionTimeout (set_votedFor (Message.From m) r1)))
      as (_ & _ & _ & Ht & Hv & _). simpl in Ht, Hv.
    apply vstep_send; [not_vote |]. intros _. simpl. rewrite Hv, Ht.
    split_and!; [by apply net_from | done |].
    exists m. split_and!; [done | done | done | lia].
  - apply quiet_vstep, quiet_send; not_vote.
Qed.

Lemma handleRequestVoteResponse_vstep r m r' :
  net m -> Message.Type_ m = MsgRequestVoteResponse -> Message.To m = id r ->
  handleRequestVoteResponse r m = Ok r' -> vstep r r'.
Proof.
  intros Hm Hty Hto. unfold handleRequestVoteResponse. cbv zeta.
  destruct (Z.ltb_spec (currentTerm r) (Message.Term m));
    [intros [= <-]; apply vstep_becomeFollower |].
  destruct (_ || _) eqn:E; [intros [= <-]; apply vstep_refl |].
  apply orb_false_elim in E as [E1%Z.ltb_ge E2%negb_false_iff%bool_decide_eq_true].
  destruct (Message.VoteGranted m) eqn:Hg; simpl negb; [| intros [= <-]; apply vstep_refl].
  set (r1 := set_votesReceived _ _).
  assert (vstep r r1) as H1.
  { intros []. split; [| done]. constructor; simpl; try done; [| congruence | by apply (outbox_le net r)].
    intros Hc j. rewrite elem_of_union, elem_of_singleton. intros [-> | Hj]; [| by apply v_votes0].
    right. exists m. unfold is_grant. split_and!; try done. lia. }
  assert (role r1 = Candidate) as Hro by done. clearbody r1.
  fold (quorum r1). destruct (quorum r1) eqn:Hq.
  - intros Hl. eapply vstep_trans; [exact H1 |]. by eapply becomeLeader_vstep.
  - by intros [= <-].
Qed.

Lemma vstep_adopt_leader m r : vstep r (adopt_leader m r).
Proof.
  eapply vstep_quiet_after; [apply (vstep_becomeFollower (Message.Term m)) |].
  by apply quiet_frame.
Qed.

Lemma handleAppendEntries_vstep r m r' : handleAppendEntries r m = Ok r' -> vstep r r'.
Proof.
  unfold handleAppendEntries. fold (adopt_leader m r). cbv zeta.
  pose proof (vstep_adopt_leader m r) as H1.
  assert (forall b i c r2, quiet (adopt_leader m r) r2 -> vstep r
    (send (Message.append_response (Message.From m) b i c) r2)) as Hreply.
  { intros b i c r2 Hq. eapply vstep_quiet_after; [exact H1 |].
    eapply quiet_trans; [exact Hq |]. apply quiet_send; not_vote. }
  destruct (_ <? _); [intros [= <-]; apply quiet_vstep, quiet_send; not_vote |].
  destruct (_ <? _); [intros [= <-]; apply Hreply, quiet_refl |].
  destruct (negb _); [intros [= <-]; apply Hreply, quiet_refl |].
  intros H. bind_ok H r2 H2. injection H as <-. apply Hreply.
  eapply quiet_trans; [by eapply quiet_append_loop |]. apply quiet_frame; by destruct (_ <? _).
Qed.

Lemma handleAppendEntriesResponse_vstep r m r' :
  handleAppendEntriesResponse r m = Ok r' -> vstep r r'.
Proof.
  unfold handleAppendEntriesResponse. cbv zeta.
  destruct (_ <? _); [intros [= <-]; apply vstep_becomeFollower |].
  destruct (_ || _); [intros [= <-]; apply vstep_refl |].
  set (r1 := if _ =? 0 then r else _).
  assert (quiet r r1) as H1
    by (subst r1; destruct (_ =? 0); [apply quiet_refl | apply quiet_ackReadIndex]).
  clearbody r1. destruct (Message.Success m).
  - intros [= <-]. apply quiet_vstep. eapply quiet_trans; [exact H1 |].
    eapply quiet_trans; [| apply quiet_maybeAdvance]. apply quiet_frame; by destruct (_ <? _).
  - intros H. apply quiet_vstep. eapply quiet_trans; [exact H1 |].
    eapply quiet_trans; [| by eapply quiet_sendAppendEntries].
    apply quiet_frame; by destruct (_ <? _).
Qed.

Lemma handleInstallSnapshot_vstep r m : vstep r (handleInstallSnapshot r m).
Proof.
  unfold handleInstallSnapshot. fold (adopt_leader m r). cbv zeta.
  destruct (_ <? _); [apply quiet_vstep, quiet_send; not_vote |].
  eapply vstep_quiet_after; [apply (vstep_adopt_leader m) |].
  destruct (_ <=? _); [apply quiet_send; not_vote |].
  eapply quiet_trans; [| apply quiet_send; not_vote].
  apply quiet_frame; by destruct (_ <? _).
Qed.

Lemma handleInstallSnapshotResponse_vstep r m : vstep r (handleInstallSnapshotResponse r m).
Proof.
  unfold handleInstallSnapshotResponse. cbv zeta.
  destruct (_ <? _); [apply vstep_becomeFollower |].
  destruct (_ || _); [apply vstep_refl |].
  apply quiet_vstep. eapply quiet_trans; [| apply quiet_maybeAdvance].
  apply quiet_frame; destruct (_ <? _); by destruct (_ <? _).
Qed.

Lemma Step_vstep r m r' :
  currentTerm r < maxTerm -> net m -> Step r m = Ok r' -> vstep r r'.
Proof.
  intros Hmax Hm. unfold Step. destruct (Message.To m =? id r) eqn:Hto; simpl negb; cycle 1.
  { intros [= <-]. apply vstep_refl. }
  apply Z.eqb_eq in Hto. destruct (Message.Type_ m) eqn:Hty.
  - intros [= <-]. apply quiet_vstep, handlePreVote_quiet.
  - by apply handlePreVoteResponse_vstep.
  - intros [= <-]. by apply handleRequestVote_vstep.
  - by apply handleRequestVoteResponse_vstep.
  - apply handleAppendEntries_vstep.
  - apply handleAppendEntriesResponse_vstep.
  - intros [= <-]. apply handleInstallSnapshot_vstep.
  - intros [= <-]. apply handleInstallSnapshotResponse_vstep.
  - intros [= <-]. apply vstep_refl.
Qed.

Lemma ProposeBatch_quiet r datas r' indices :
  ProposeBatch r datas = Ok (r', indices) -> quiet r r'.
Proof.
  unfold ProposeBatch. destruct (negb _); [done |].
  destruct (append_proposals r datas) as [r1 ind] eqn:Hp. intros H.
  bind_ok H r2 H2. injection H as <- _. eapply quiet_trans; [by eapply quiet_append_proposals |].
  eapply quiet_trans; [by eapply quiet_broadcast |].
  destruct (_ =? 0); [apply quiet_maybeAdvance | apply quiet_refl].
Qed.

Lemma RequestReadIndex_quiet r ctx r' : RequestReadIndex r ctx = Ok r' -> quiet r r'.
Proof.
  unfold RequestReadIndex. cbv zeta. destruct (negb _); [done |].
  destruct (hasMajorityCount _ _); [intros [= <-]; by apply quiet_frame |].
  intros H. eapply quiet_trans; [| by eapply quiet_broadcast]. by apply quiet_frame.
Qed.

Lemma CreateSnapshot_quiet r index data r' : CreateSnapshot r index data = Ok r' -> quiet r r'.
Proof.
  unfold CreateSnapshot. cbv zeta. destruct (_ <? _); [done |]. destruct (_ <=? _); [done |].
  destruct (_ <? _); [done |]. intros H. bind_ok H l Hl. injection H as <-.
  apply quiet_frame; by destruct (_ <=? _).
Qed.

(** [Advance] only forgets outgoing messages; it is the one operation that
    removes any. *)
Lemma Advance_vstep r : vstep r (Advance r).
Proof.
  intros [].
  assert (outbox net (Advance r)) as Ho.
  { destruct v_out0 as [_ Hn Ha]. unfold Advance. destruct r as []. simpl in *.
    destruct (_ <=? _); (constructor; simpl; [constructor | exact Hn |]);
      intros m1 m2 [H1|H1] [H2|H2]; try (by apply not_elem_of_nil in H1);
      try (by apply not_elem_of_nil in H2); apply Ha; by right. }
  unfold Advance in *. destruct r as []. simpl in *.
  destruct (_ <=? _); (split; [constructor; simpl; try done |]); done.
Qed.

Lemma exec_vstep r o r' :
  currentTerm r < maxTerm -> (forall m, o = OStep m -> net m) ->
  exec r o = Ok r' -> vstep r r'.
Proof.
  intros Hmax Hm. destruct o; simpl.
  - by apply Tick_vstep.
  - apply Step_vstep; auto.
  - destruct (ProposeBatch r datas) as [[x y]| |] eqn:E; simpl; [| by intros [= <-]; apply vstep_refl | done].
    intros [= <-]. by eapply quiet_vstep, ProposeBatch_quiet.
  - destruct (RequestReadIndex r ctx) eqn:E; simpl; [| by intros [= <-]; apply vstep_refl | done].
    intros [= <-]. by eapply quiet_vstep, RequestReadIndex_quiet.
  - destruct (CreateSnapshot r index data) eqn:E; simpl; [| by intros [= <-]; apply vstep_refl | done].
    intros [= <-]. by eapply quiet_vstep, CreateSnapshot_quiet.
  - intros [= <-]. apply Advance_vstep.
Qed.

End Steps.
