(* ===== verification/RaftStable.v ===== *)
(** * Raft: what must reach the disk

    How each operation of src/raft/raft.go moves the boundary between the
    part of the log that is already durable and the part that is not.  The
    relation [srel] says that an operation never changes a durable entry
    without lowering [unstableIndex] to it, which is what makes [Ready] and
    [Persist] save enough. *)

From S2P Require Import Prelude GoBytes RaftTypes Raft RaftLog RaftInv RaftStorage.
Import RaftStorage.Codec.

Definition stable_hard (r : Raft) : HardState.t := HardState.mk (stableTerm r) (stableVote r).

(** A snapshot boundary not yet saved. *)
Definition pending (r : Raft) : Prop :=
  stableSnapshotIndex r < Snapshot.LastIncludedIndex (snapshot r).

Definition below (u : Z) (l : list LogEntry.t) : list LogEntry.t :=
  filter (fun e => LogEntry.Index e < u) l.

(** The state fits the storage format, and the sentinel is the one recovery
    rebuilds from the snapshot. *)
Record store_wf (r : Raft) : Prop := {
  w_entries : Forall entry_wf (log r);
  w_snap : snapshot_wf (snapshot r);
  w_hard : hard_wf (hard r);
  w_id : is_u64 (id r);
  w_head : head (log r) = Some (sentinel (snapshot r));
  w_zero : Snapshot.LastIncludedIndex (snapshot r) = 0 -> snapshot r = Snapshot.zero
}.

(** Messages as the transport decodes them. *)
Record msg_wf (m : Message.t) : Prop := {
  mw_term : is_u64 (Message.Term m);
  mw_from : is_u64 (Message.From m);
  mw_entries : Forall entry_wf (Message.Entries m);
  mw_snap : snapshot_wf (Message.Snapshot m)
}.

Record srel (r r' : Raft) : Prop := {
  r_hard : stable_hard r' = stable_hard r;
  r_index : stableSnapshotIndex r' = stableSnapshotIndex r;
  r_pending : pending r -> pending r';
  r_log : pending r' \/
    (snapshot r' = snapshot r /\ unstableIndex r' <= unstableIndex r /\
     below (unstableIndex r') (tail (log r')) = below (unstableIndex r') (tail (log r)) /\
     (lastLogIndex r' < unstableIndex r' ->
      lastLogIndex r < unstableIndex r /\ unstableIndex r' = unstableIndex r));
  r_wf : store_wf r -> store_wf r'
}.

Lemma below_below u v l : u <= v -> below u (below v l) = below u l.
Proof.
  intros H. unfold below. rewrite list_filter_filter. apply list_filter_iff. intros e. lia.
Qed.

#[global] Instance srel_refl : Reflexive srel.
Proof. intros r. constructor; try done. right. split_and!; try done; lia. Qed.

#[global] Instance srel_trans : Transitive srel.
Proof.
  intros r1 r2 r3 [] []. constructor; try congruence; try tauto.
  destruct r_log1 as [? | (Hs' & Hu' & Hb' & Hl')]; [by left |].
  destruct r_log0 as [Hp | (Hs & Hu & Hb & Hl)]; [left; tauto |].
  right. split_and!; [congruence | lia | | intuition lia].
  rewrite Hb'. rewrite <- (below_below _ (unstableIndex r2) (tail (log r2))) by done.
  by rewrite Hb, below_below.
Qed.

(** ** Calm steps: the log and its durability are not touched *)

Definition stable_view (r : Raft) :=
  (log r, unstableIndex r, snapshot r, stableSnapshotIndex r, stableTerm r, stableVote r, id r).
Definition hw (r : Raft) : Prop := hard_wf (hard r) /\ is_u64 (id r).
Definition calm (r r' : Raft) : Prop := stable_view r' = stable_view r /\ (hw r -> hw r').

Lemma calm_refl r : calm r r.
Proof. done. Qed.
Lemma calm_trans r1 r2 r3 : calm r1 r2 -> calm r2 r3 -> calm r1 r3.
Proof. intros [] []. split; [congruence | auto]. Qed.
Lemma calm_frame r r' :
  stable_view r' = stable_view r -> hard r' = hard r -> calm r r'.
Proof.
  intros Hv Hh. split; [done |]. unfold hw. rewrite Hh. unfold stable_view in Hv.
  injection Hv as _ _ _ _ _ _ ->. done.
Qed.

Lemma calm_srel r r' : calm r r' -> srel r r'.
Proof.
  intros [Hv Hw]. unfold stable_view in Hv. injection Hv as Hl Hu Hs Hss Ht Hvo Hi.
  constructor; unfold stable_hard, pending, lastLogIndex; rewrite ?Hl, ?Hu, ?Hs, ?Hss, ?Ht, ?Hvo;
    try done.
  - right. split_and!; try done; lia.
  - intros []. destruct Hw; [by split |]. constructor; rewrite ?Hl, ?Hs; done.
Qed.

Lemma calm_if (b : bool) r r' : calm r r' -> calm r (if b then r' else r).
Proof. by destruct b. Qed.

Lemma calm_reset r : calm r (resetElectionTimeout r).
Proof. apply calm_frame; by rewrite resetElectionTimeout_frame. Qed.
Lemma calm_send m r : calm r (send m r).
Proof. by apply calm_frame. Qed.
Lemma calm_sendAppendEntries r p ctx r' : sendAppendEntries r p ctx = Ok r' -> calm r r'.
Proof. intros H%sendAppendEntries_frame. rewrite H. by apply calm_frame. Qed.
Lemma calm_broadcast ps r ctx r' : broadcast r ps ctx = Ok r' -> calm r r'.
Proof. intros H%broadcast_frame. rewrite H. by apply calm_frame. Qed.
Lemma calm_maybeAdvance r : calm r (maybeAdvanceCommitIndex r).
Proof. destruct (maybeAdvance_frame r) as [-> _]. by apply calm_frame. Qed.
Lemma calm_request_votes ty r : calm r (request_votes ty r).
Proof. rewrite request_votes_frame. by apply calm_frame. Qed.
Lemma calm_ackReadIndex r ctx p : calm r (ackReadIndex r ctx p).
Proof.
  unfold ackReadIndex. destruct (_ !! _); [| done]. apply calm_frame; by destruct (hasMajorityCount _ _).
Qed.
Lemma calm_becomeFollower t r : is_u64 t -> calm r (becomeFollower t r).
Proof.
  intros Ht. unfold becomeFollower. eapply calm_trans; [| apply calm_reset].
  split; [by destruct (_ <? _) |]. intros [[H1 H2] H3].
  destruct (_ <? _); repeat split; simpl in *; try done; unfold is_u64 in *; lia.
Qed.

Lemma calm_becomeLeader r r' : becomeLeader r = Ok r' -> calm r r'.
Proof.
  unfold becomeLeader, sendHeartbeats. cbv zeta. intros H. bind_ok H r2 Hb. injection H as <-.
  eapply calm_trans; [| apply calm_if, calm_maybeAdvance].
  eapply calm_trans; [| by eapply calm_broadcast]. by apply calm_frame.
Qed.

Lemma calm_becomeCandidate r r' : becomeCandidate r = Ok r' -> calm r r'.
Proof.
  unfold becomeCandidate. cbv zeta. set (r1 := set_votesReceived _ _).
  assert (calm r r1) as H1.
  { split; [done |]. intros [_ Hi]. split; [| done]. split; [apply u64_range | done]. }
  clearbody r1. intros H. eapply calm_trans; [exact H1 |].
  eapply calm_trans; [apply calm_reset |].
  destruct (_ =? 0); [by apply calm_becomeLeader | injection H as <-; apply calm_request_votes].
Qed.

Lemma calm_becomePreCandidate r r' : becomePreCandidate r = Ok r' -> calm r r'.
Proof.
  unfold becomePreCandidate. cbv zeta. set (r1 := set_preVotesReceived _ _).
  assert (calm r r1) as H1 by (by apply calm_frame). clearbody r1.
  intros H. eapply calm_trans; [exact H1 |]. eapply calm_trans; [apply calm_reset |].
  destruct (_ =? 0); [by apply calm_becomeCandidate | injection H as <-; apply calm_request_votes].
Qed.

Lemma calm_Tick r r' : Tick r = Ok r' -> calm r r'.
Proof.
  unfold Tick, sendHeartbeats. cbv zeta. destruct (role_eqb _ _); destruct (_ <=? _).
  - intros H. eapply calm_trans; [| by eapply calm_broadcast]. by apply calm_frame.
  - intros [= <-]. by apply calm_frame.
  - intros H. eapply calm_trans; [| by eapply calm_becomePreCandidate]. by apply calm_frame.
  - intros [= <-]. by apply calm_frame.
Qed.

Lemma calm_handlePreVote r m : calm r (handlePreVote r m).
Proof. unfold handlePreVote. destruct (_ <? _); apply calm_send. Qed.

Lemma calm_handlePreVoteResponse r m r' : handlePreVoteResponse r m = Ok r' -> calm r r'.
Proof.
  unfold handlePreVoteResponse. cbv zeta. destruct (negb _); [by intros [= <-] |].
  destruct (negb _); [by intros [= <-] |]. destruct (hasMajorityCount _ _).
  - intros H. eapply calm_trans; [| by eapply calm_becomeCandidate]. by apply calm_frame.
  - intros [= <-]. by apply calm_frame.
Qed.

Lemma calm_handleRequestVote r m : msg_wf m -> calm r (handleRequestVote r m).
Proof.
  intros []. unfold handleRequestVote. cbv zeta.
  set (r1 := if _ <? _ then becomeFollower _ r else r).
  assert (calm r r1) as H1 by (by apply calm_if, calm_becomeFollower). clearbody r1.
  eapply calm_trans; [exact H1 |]. destruct (_ <? _); [apply calm_send |].
  eapply calm_trans; [| apply calm_send]. apply calm_if.
  eapply calm_trans; [| apply calm_reset]. split; [done |]. intros [[] ?]. done.
Qed.

Lemma calm_handleRequestVoteResponse r m r' :
  msg_wf m -> handleRequestVoteResponse r m = Ok r' -> calm r r'.
Proof.
  intros []. unfold handleRequestVoteResponse. cbv zeta.
  destruct (_ <? _); [intros [= <-]; by apply calm_becomeFollower |].
  destruct (_ || _); [by intros [= <-] |]. destruct (negb _); [by intros [= <-] |].
  destruct (hasMajorityCount _ _).
  - intros H. eapply calm_trans; [| by eapply calm_becomeLeader]. by apply calm_frame.
  - intros [= <-]. by apply calm_frame.
Qed.

Lemma calm_adopt_leader m r : msg_wf m -> calm r (adopt_leader m r).
Proof.
  intros []. eapply calm_trans; [by apply (calm_becomeFollower (Message.Term m)) |].
  by apply calm_frame.
Qed.

Lemma calm_handleAppendEntriesResponse r m r' :
  msg_wf m -> handleAppendEntriesResponse r m = Ok r' -> calm r r'.
Proof.
  intros []. unfold handleAppendEntriesResponse. cbv zeta.
  destruct (_ <? _); [intros [= <-]; by apply calm_becomeFollower |].
  destruct (_ || _); [by intros [= <-] |].
  set (r1 := if _ =? 0 then r else _).
  assert (calm r r1) as H1 by (subst r1; destruct (_ =? 0); [done | apply calm_ackReadIndex]).
  clearbody r1. destruct (Message.Success m).
  - intros [= <-]. eapply calm_trans; [exact H1 |].
    eapply calm_trans; [| apply calm_maybeAdvance]. apply calm_frame; by destruct (_ <? _).
  - intros H. eapply calm_trans; [exact H1 |].
    eapply calm_trans; [| by eapply calm_sendAppendEntries]. apply calm_frame; by destruct (_ <? _).
Qed.

Lemma calm_handleInstallSnapshotResponse r m :
  msg_wf m -> calm r (handleInstallSnapshotResponse r m).
Proof.
  intros []. unfold handleInstallSnapshotResponse. cbv zeta.
  destruct (_ <? _); [by apply calm_becomeFollower |].
  destruct (_ || _); [done |]. eapply calm_trans; [| apply calm_maybeAdvance].
  apply calm_frame; destruct (_ <? _); by destruct (_ <? _).
Qed.

Lemma calm_RequestReadIndex r ctx r' : RequestReadIndex r ctx = Ok r' -> calm r r'.
Proof.
  unfold RequestReadIndex. cbv zeta. destruct (negb _); [done |].
  destruct (hasMajorityCount _ _); [intros [= <-]; by apply calm_frame |].
  intros H. eapply calm_trans; [| by eapply calm_broadcast]. by apply calm_frame.
Qed.

(** ** Steps that write the log *)

Lemma below_app u l k : below u (l ++ k) = below u l ++ below u k.
Proof. apply filter_app. Qed.

Lemma below_contig_ge u b l : contig b l -> u <= b -> below u l = [].
Proof.
  revert b; induction l as [|e l IH]; intros b Hc Hu; [done |]. destruct Hc as [He Hc].
  unfold below. rewrite filter_cons_False by lia. apply (IH (b + 1)); [done | lia].
Qed.

Lemma below_contig_all u b l : contig b l -> b + len l <= u -> below u l = l.
Proof.
  revert b; induction l as [|e l IH]; intros b Hc Hu; [done |]. destruct Hc as [He Hc].
  rewrite len_cons in Hu. pose proof (len_nonneg l).
  unfold below. rewrite filter_cons_True by lia. f_equal. apply (IH (b + 1)); [done | lia].
Qed.

Lemma append_one_cases r idx e r1 :
  inv r -> 0 <= idx <= lastLogIndex r + 1 ->
  append_one r idx e = Ok r1 ->
  r1 = r \/
  exists pre suf, log r = pre ++ suf /\ pre <> [] /\ idx = firstLogIndex r + len pre /\
                  r1 = append_result r idx e pre suf.
Proof.
  intros H Hi. pose proof (first_le_last r H) as Hfl. pose proof (last_first r H) as Hl.
  destruct (Z.le_gt_cases idx (firstLogIndex r)) as [Hle|Hgt].
  - unfold append_one. rewrite (proj2 (Z.leb_le _ _)) by lia. simpl andb. destruct (negb _).
    + destruct (Z.eq_dec idx (firstLogIndex r)) as [->|].
      * rewrite logPos_exact, Z.sub_diag by (done || lia). rewrite slice_ok by len_lia.
        cbn [res_bind]. simpl take. by destruct (_ <? _).
      * pose proof (logPos_negative r idx H ltac:(lia)).
        unfold slice. rewrite (proj2 (Z.leb_gt 0 (logPos r idx))) by lia.
        by rewrite andb_false_r.
    + cbn [res_bind]. destruct (_ =? 0); [done |].
      rewrite (proj2 (Z.ltb_ge _ _)) by lia. intros [= <-]. by left.
  - set (n := Z.to_nat (idx - firstLogIndex r)).
    assert (len (take n (log r)) = idx - firstLogIndex r) as Hpre
      by (unfold len in *; rewrite length_take; lia).
    assert (take n (log r) <> []) as Hne by (intros E; rewrite E in Hpre; len_lia).
    rewrite (append_one_run r idx e (take n (log r)) (drop n (log r)));
      [| done | by rewrite take_drop | done | lia].
    intros [= <-]. right. exists (take n (log r)), (drop n (log r)).
    split_and!; [by rewrite take_drop | done | lia | done].
Qed.

(** Replacing the log from [idx] on, [unstableIndex] lowered to it. *)
Lemma srel_set_tail r idx e pre suf u :
  inv r -> log r = pre ++ suf -> pre <> [] -> idx = firstLogIndex r + len pre ->
  LogEntry.Index e = idx -> entry_wf e -> u <= unstableIndex r -> u <= idx ->
  srel r (set_tail (pre ++ [e]) u r).
Proof.
  intros H Hlog Hpre Hidx He Hewf Hu Hui.
  assert (contig idx suf) as Hsuf.
  { pose proof (inv_contig r H) as Hc. rewrite Hlog in Hc.
    apply contig_app in Hc as [_ Hc]. by subst idx. }
  constructor; try done.
  - right. split_and!; try done; simpl.
    + rewrite Hlog. destruct pre as [|x pre]; [done |]. simpl.
      rewrite !below_app, (below_contig_ge u idx suf), (below_contig_ge u idx [e]); done.
    + unfold lastLogIndex; simpl. rewrite last_snoc. lia.
  - intros []. constructor; try done; simpl.
    + rewrite Hlog in w_entries0. apply Forall_app in w_entries0 as [? _].
      apply Forall_app. by rewrite Forall_singleton.
    + rewrite Hlog in w_head0. by destruct pre.
Qed.

Lemma append_one_srel r idx e r1 :
  inv r -> 0 <= idx <= lastLogIndex r + 1 -> LogEntry.Index e = idx -> entry_wf e ->
  append_one r idx e = Ok r1 -> srel r r1.
Proof.
  intros H Hi He Hewf Hrun. pose proof (inv_unstable r H) as Hun.
  apply append_one_cases in Hrun as [-> | (pre & suf & Hlog & Hpre & Hidx & ->)]; try done.
  destruct (log_split_facts r pre suf H Hlog Hpre) as [Hpos Hlast].
  unfold append_result. destruct suf as [|x suf].
  - eapply srel_set_tail; try done; len_lia.
  - destruct (_ =? _); [done |]. eapply srel_set_tail; try done; lia.
Qed.

Lemma append_loop_srel es : forall r prev i r',
  inv r -> 0 <= prev + 1 + i <= lastLogIndex r + 1 ->
  contig (prev + 1 + i) es -> prev + i + len es < maxIndex -> Forall entry_wf es ->
  append_loop r prev i es = Ok r' -> srel r r'.
Proof.
  induction es as [|e es IH]; intros r prev i r' H Hi Hes Hb Hwf; cbn [append_loop].
  { by intros [= <-]. }
  destruct Hes as [He Hes]. rewrite len_cons in *. pose proof (len_nonneg es).
  apply Forall_cons in Hwf as [Hw Hwf].
  rewrite u64_small by (unfold is_u64, maxIndex in *; lia).
  intros Hrun. bind_ok Hrun r1 H1. etrans; [eapply append_one_srel, H1; done |].
  apply append_one_inv in H1 as (Hi1 & Hf1 & Hl1); [| done | lia | lia | done].
  replace (prev + 1 + i + 1) with (prev + 1 + (i + 1)) in Hes by lia.
  apply IH in Hrun; [done | done | lia | done | lia | done].
Qed.

Lemma handleAppendEntries_srel r m r' :
  inv r -> wire_ok m -> msg_wf m -> Message.Type_ m = MsgAppendEntries ->
  handleAppendEntries r m = Ok r' -> srel r r'.
Proof.
  intros H Hm Hmw Hty. unfold wire_ok in Hm. rewrite Hty in Hm. destruct Hm as (Hp & Hc & Hb).
  unfold handleAppendEntries. fold (adopt_leader m r). cbv zeta.
  pose proof (inv_adopt_leader m r H) as H1.
  pose proof (calm_srel _ _ (calm_adopt_leader m r Hmw)) as Hs1.
  destruct (_ <? _); [intros [= <-]; apply calm_srel, calm_send |].
  destruct (Z.ltb_spec (lastLogIndex (adopt_leader m r)) (Message.PrevLogIndex m));
    [intros [= <-]; etrans; [exact Hs1 | apply calm_srel, calm_send] |].
  destruct (negb _); [intros [= <-]; etrans; [exact Hs1 | apply calm_srel, calm_send] |].
  intros Hrun. bind_ok Hrun r2 Hloop. injection Hrun as <-.
  etrans; [exact Hs1 |]. etrans.
  { eapply append_loop_srel, Hloop; [done | lia | by rewrite Z.add_0_r
      | by apply (wire_bound _ _ _ H1) | apply Hmw]. }
  apply calm_srel. eapply calm_trans; [| apply calm_send]. apply calm_if. by apply calm_frame.
Qed.

(** A new snapshot boundary beyond the old one is pending. *)
Lemma handleInstallSnapshot_srel r m :
  inv r -> msg_wf m -> srel r (handleInstallSnapshot r m).
Proof.
  intros H Hmw. unfold handleInstallSnapshot. fold (adopt_leader m r). cbv zeta.
  destruct (_ <? _); [apply calm_srel, calm_send |].
  etrans; [apply calm_srel, (calm_adopt_leader m r Hmw) |].
  pose proof (inv_adopt_leader m r H) as H1. clear H. set (r1 := adopt_leader m r) in *.
  clearbody r1. pose proof (inv_stable _ H1). pose proof (inv_snapshot _ H1).
  pose proof (inv_first _ H1).
  set (s := Message.Snapshot m). destruct (Z.leb_spec (Snapshot.LastIncludedIndex s) (firstLogIndex r1));
    [apply calm_srel, calm_send |].
  destruct Hmw as [_ _ _ Hsw]. destruct (commitIndex _ <? _); (constructor; [done | done | | |];
    unfold pending; simpl; [lia | left; lia |]; intros []; constructor; try done; simpl; [| | lia]).
  all: try (unfold sentinel; by rewrite (proj2 (Z.ltb_lt _ _)) by lia).
  all: apply Forall_singleton; destruct Hsw as (? & ? & ?); by split_and!.
Qed.

Lemma CreateSnapshot_srel r index data r' :
  inv r -> len data < dataMax -> CreateSnapshot r index data = Ok r' -> srel r r'.
Proof.
  intros H Hd Hrun. pose proof (inv_stable _ H). pose proof (inv_snapshot _ H).
  pose proof (inv_first _ H). pose proof (inv_commit _ H).
  apply CreateSnapshot_spec in Hrun as (Hi & Hlast & Hlog & Hu & Hsn & Heq); [| done].
  assert (stable_hard r' = stable_hard r /\ stableSnapshotIndex r' = stableSnapshotIndex r /\
          hard r' = hard r /\ id r' = id r) as (Hsh & Hss & Hh & Hid)
    by (rewrite Heq; done).
  constructor; [done | done | | |].
  - unfold pending. rewrite Hsn, Hss. simpl. lia.
  - left. unfold pending. rewrite Hsn, Hss. simpl. lia.
  - intros []. assert (is_u64 index) as Hix by (unfold is_u64, maxIndex in *; lia).
    assert (is_u64 (termAt r index)) as Hterm.
    { destruct (entry_at_some r index) as (e & He & _); [done | lia |].
      rewrite (termAt_entry r index e H He). unfold entry_at in He.
      destruct (_ <? _); [done |]. apply list_elem_of_lookup_2 in He.
      rewrite Forall_forall in w_entries0. by apply w_entries0. }
    constructor; rewrite ?Hlog, ?Hsn, ?Hh, ?Hid; try done; simpl.
    + constructor; [done |]. by apply Forall_drop.
    + unfold sentinel. simpl. by rewrite (proj2 (Z.ltb_lt _ _)) by lia.
    + lia.
Qed.

Lemma append_proposals_srel r datas r' indices :
  inv r -> lastLogIndex r + len datas < maxIndex ->
  Forall (fun d => len d < dataMax) datas ->
  append_proposals r datas = (r', indices) -> srel r r'.
Proof.
  intros H Hb Hd Hrun. pose proof (inv_unstable r H) as Hun. pose proof (inv_first r H).
  apply append_proposals_ok in Hrun as (Hi & Hf & Heq & Hl & _ & Hdat & Hterm); [| done..].
  set (tl := drop (length (log r)) (log r')) in *.
  pose proof (last_first r H) as Hlr. pose proof (last_first r' Hi) as Hlr'.
  pose proof (inv_contig r' Hi) as Hc. pose proof (inv_bound r' Hi).
  assert (log r' = log r ++ tl) as Hlog by (rewrite Heq at 1; done).
  rewrite Hlog in Hc, Hlr'. rewrite len_app in Hlr'. apply contig_app in Hc as [_ Hc].
  replace (firstLogIndex r' + len (log r)) with (lastLogIndex r + 1) in Hc by lia.
  rewrite Heq. constructor; try done; simpl.
  - right. split_and!; try done.
    + pose proof (inv_nonempty r H). destruct (log r) as [|x l]; [done |]. simpl.
      rewrite below_app, (below_contig_ge _ _ tl Hc) by lia. by rewrite app_nil_r.
    + rewrite <- Heq, Hl. pose_len. lia.
  - intros []. constructor; try done; simpl.
    + apply Forall_app. split; [done |]. rewrite Forall_lookup. intros i e He.
      rewrite Forall_lookup in Hterm. rewrite (Forall_lookup _ datas) in Hd.
      pose proof (contig_lookup _ _ _ _ Hc He) as Hix. apply lookup_lt_Some in He as Hlt.
      split_and!.
      * rewrite (Hterm i e He). apply w_hard0.
      * unfold is_u64, maxIndex in *. pose proof (first_le_last r H). unfold len in *. lia.
      * apply (Hd i). rewrite <- Hdat. by rewrite list_lookup_fmap, He.
    + pose proof (inv_nonempty r H). by destruct (log r).
Qed.

Lemma ProposeBatch_srel r datas r' indices :
  inv r -> lastLogIndex r + len datas < maxIndex ->
  Forall (fun d => len d < dataMax) datas ->
  ProposeBatch r datas = Ok (r', indices) -> srel r r'.
Proof.
  intros H Hb Hd. unfold ProposeBatch. destruct (negb _); [done |].
  destruct (append_proposals r datas) as [r1 ind] eqn:Hp. intros Hrun.
  bind_ok Hrun r2 H2. injection Hrun as <- _. etrans; [by eapply append_proposals_srel |].
  apply calm_srel. eapply calm_trans; [by eapply calm_broadcast |]. apply calm_if, calm_maybeAdvance.
Qed.

(** ** Every operation *)

(** Inputs that fit the storage format; [Advance] belongs to [Persist]. *)
Definition op_wf (o : op) : Prop :=
  match o with
  | OStep m => msg_wf m
  | OPropose datas => Forall (fun d => len d < dataMax) datas
  | OSnapshot _ data => len data < dataMax
  | OAdvance => False
  | _ => True
  end.

Lemma exec_srel r o r' :
  inv r -> op_ok r o -> op_wf o -> exec r o = Ok r' -> srel r r'.
Proof.
  intros H Hok Hwf. destruct o; simpl in *; try done.
  - intros Hr. by apply calm_srel, calm_Tick.
  - unfold Step. destruct (negb _); [by intros [= <-] |].
    destruct (Message.Type_ m) eqn:Hty; intros Hr; try (injection Hr as <-); try done.
    + apply calm_srel, calm_handlePreVote.
    + by eapply calm_srel, calm_handlePreVoteResponse.
    + by apply calm_srel, calm_handleRequestVote.
    + by eapply calm_srel, calm_handleRequestVoteResponse.
    + by eapply handleAppendEntries_srel.
    + by eapply calm_srel, calm_handleAppendEntriesResponse.
    + by apply handleInstallSnapshot_srel.
    + by apply calm_srel, calm_handleInstallSnapshotResponse.
  - destruct (ProposeBatch r datas) as [[x y]| |] eqn:E; simpl; [| by intros [= <-] | done].
    intros [= <-]. by eapply ProposeBatch_srel.
  - destruct (RequestReadIndex r ctx) eqn:E; simpl; [| by intros [= <-] | done].
    intros [= <-]. by eapply calm_srel, calm_RequestReadIndex.
  - destruct (CreateSnapshot r index data) eqn:E; simpl; [| by intros [= <-] | done].
    intros [= <-]. by eapply CreateSnapshot_srel.
Qed.
