(* ===== verification/RaftSend.v ===== *)
(** * Raft: what a node sends

    Every message a node of src/raft/raft.go puts into its outbox satisfies
    what the receiving handlers rely on: the entries of an append are the
    exact tail of the sender's log behind [PrevLogIndex], indexes are
    consecutive and in range, and everything fits the wire format. *)

From S2P Require Import Prelude GoBytes RaftTypes Raft RaftLog RaftInv RaftStorage RaftStable.
Import RaftStorage.Codec.

Definition good (m : Message.t) : Prop := wire_ok m /\ msg_wf m.
Definition mail (r : Raft) : Prop := Forall good (msgs r).

(** A node whose outbox is in order and that can add to it. *)
Record sendable (r : Raft) : Prop := {
  sd_inv : inv r;
  sd_wf : store_wf r;
  sd_mail : mail r
}.

Lemma sendable_calm r r' : calm r r' -> inv r' -> mail r' -> sendable r -> sendable r'.
Proof.
  intros Hc Hi Hm []. constructor; [done | | done]. by apply (calm_srel _ _ Hc).
Qed.

Lemma sendable_frame r r' :
  calm r r' -> log_view r' = log_view r -> msgs r' = msgs r -> sendable r -> sendable r'.
Proof.
  intros Hc Hl Hm H. eapply sendable_calm; [done | | | done].
  - eapply inv_frame; [done | apply H].
  - unfold mail. rewrite Hm. apply H.
Qed.

Lemma sendable_send m r :
  sendable r -> Forall entry_wf (Message.Entries m) -> snapshot_wf (Message.Snapshot m) ->
  wire_ok m -> sendable (send m r).
Proof.
  intros H He Hs Hw. eapply sendable_calm; [apply calm_send | by apply inv_send, H | | done].
  apply Forall_app. split; [apply H |]. apply Forall_singleton. split; [done |].
  destruct H as [_ [_ _ [Ht _] Hid _ _] _]. by constructor.
Qed.

Lemma zero_wf : snapshot_wf Snapshot.zero.
Proof. unfold snapshot_wf, is_u64, dataMax, len; simpl; lia. Qed.

(** Votes and replies carry neither entries nor a snapshot. *)
Lemma sendable_reply m r :
  sendable r -> Message.Entries m = [] -> Message.Snapshot m = Snapshot.zero ->
  match Message.Type_ m with MsgAppendEntries | MsgInstallSnapshot => False | _ => True end ->
  sendable (send m r).
Proof.
  intros H He Hs Ht. apply sendable_send; rewrite ?He, ?Hs; [done | done | apply zero_wf |].
  unfold wire_ok. by destruct (Message.Type_ m).
Qed.
Ltac reply := apply sendable_reply; [| reflexivity | reflexivity | exact I].

(** The append a node sends to [p]: the tail of its own log. *)
Lemma tail_ok r prev :
  sendable r -> firstLogIndex r <= prev ->
  let es := drop (Z.to_nat (prev - firstLogIndex r + 1)) (log r) in
  prev <= lastLogIndex r ->
  Forall entry_wf es /\ contig (prev + 1) es /\ prev + len es = lastLogIndex r.
Proof.
  intros [Hi Hw _] Hp es Hl. pose proof (last_first r Hi) as Hlf.
  assert (len es = lastLogIndex r - prev) as Hlen
    by (unfold es, len in *; rewrite length_drop; lia).
  split_and!; [apply Forall_drop, Hw | | lia].
  pose proof (contig_drop _ (log r) (Z.to_nat (prev - firstLogIndex r + 1))
    ltac:(unfold len in *; lia) (inv_contig r Hi)) as Hc.
  by replace (firstLogIndex r + _) with (prev + 1) in Hc by lia.
Qed.

Lemma sendAppendEntries_sendable r p ctx r' :
  sendable r -> sendAppendEntries r p ctx = Ok r' -> sendable r'.
Proof.
  intros H. pose proof H as [Hi Hw _]. unfold sendAppendEntries.
  set (next := u64 _). pose proof (u64_range (get0 (nextIndex r) p - 1)) as Hr. fold next in Hr.
  destruct (Z.ltb_spec next (firstLogIndex r)).
  { intros [= <-]. apply sendable_send; [done | done | apply Hw |]. simpl.
    unfold wire_ok; simpl. rewrite (inv_snapshot r Hi). pose proof (inv_first r Hi).
    pose proof (inv_bound r Hi). pose proof (first_le_last r Hi). lia. }
  set (prev := if _ <? get0 _ _ then _ else _).
  assert (firstLogIndex r <= prev) as Hp by (subst prev; zcase; lia). clearbody prev.
  pose proof (inv_first r Hi). rewrite Entries_tail by done. cbn [res_bind].
  set (es := drop _ _). intros [= <-].
  assert (sendable (send (Message.append_request p prev (termAt r prev) es (commitIndex r) ctx) r))
    as Hsd; cycle 1.
  { destruct (_ <? _); [| done]. revert Hsd. (apply sendable_frame; [by apply calm_frame | done | done]). }
  destruct (Z.le_gt_cases prev (lastLogIndex r)).
  - destruct (tail_ok r prev H Hp) as (He & Hc & Hl); [done |].
    apply sendable_send; [done | done | apply zero_wf |]. unfold wire_ok; simpl.
    pose proof (inv_bound r Hi). split_and!; [lia | done | right; fold es in Hl; lia].
  - assert (es = []) as ->.
    { apply drop_ge. pose proof (last_first r Hi). unfold len in *. lia. }
    apply sendable_send; [done | done | apply zero_wf |]. unfold wire_ok; simpl.
    split_and!; [lia | done | by left].
Qed.

Lemma broadcast_sendable ps : forall r ctx r',
  sendable r -> broadcast r ps ctx = Ok r' -> sendable r'.
Proof.
  induction ps as [|p ps IH]; intros r ctx r' H; cbn [broadcast]; [by intros [= <-] |].
  intros Hrun. bind_ok Hrun r1 H1. eapply IH, Hrun. by eapply sendAppendEntries_sendable.
Qed.

Lemma maybeAdvance_sendable r : sendable r -> sendable (maybeAdvanceCommitIndex r).
Proof.
  intros H. eapply sendable_calm; [apply calm_maybeAdvance | by apply inv_maybeAdvance, H | | done].
  destruct (maybeAdvance_frame r) as [-> _]. apply H.
Qed.

Lemma sendable_if (b : bool) r r' : sendable r' -> sendable r -> sendable (if b then r' else r).
Proof. by destruct b. Qed.

Ltac calm_set :=
  match goal with
  | Hs : sendable ?x |- sendable _ =>
      refine (sendable_frame x _ _ _ _ Hs); [by apply calm_frame | done | done]
  end.

Lemma reset_sendable r : sendable r -> sendable (resetElectionTimeout r).
Proof.
  apply sendable_frame; [apply calm_reset | |]; by rewrite resetElectionTimeout_frame.
Qed.

Lemma request_votes_sendable ty r :
  match ty with MsgAppendEntries | MsgInstallSnapshot => False | _ => True end ->
  sendable r -> sendable (request_votes ty r).
Proof.
  intros Hty. unfold request_votes. generalize (peers r) as ps. intros ps. revert r.
  induction ps as [|p ps IH]; intros r H; cbn [fold_left]; [done |].
  apply IH. by apply sendable_reply.
Qed.

Lemma becomeLeader_sendable r r' : sendable r -> becomeLeader r = Ok r' -> sendable r'.
Proof.
  intros H. unfold becomeLeader, sendHeartbeats. cbv zeta. intros Hrun.
  bind_ok Hrun r2 Hb. injection Hrun as <-.
  assert (sendable r2) as H2 by (eapply broadcast_sendable, Hb; calm_set).
  apply sendable_if; [by apply maybeAdvance_sendable | done].
Qed.

Lemma becomeCandidate_sendable r r' : sendable r -> becomeCandidate r = Ok r' -> sendable r'.
Proof.
  intros H. unfold becomeCandidate. cbv zeta. set (r1 := set_votesReceived _ _).
  assert (sendable r1) as H1.
  { revert H. apply sendable_frame; [| done | done]. split; [done |].
    intros [_ Hi]. split; [| done]. split; [apply u64_range | done]. }
  clearbody r1. apply reset_sendable in H1. intros Hrun.
  destruct (_ =? 0); [by eapply becomeLeader_sendable |].
  injection Hrun as <-. by apply request_votes_sendable.
Qed.

Lemma becomePreCandidate_sendable r r' : sendable r -> becomePreCandidate r = Ok r' -> sendable r'.
Proof.
  intros H. unfold becomePreCandidate. cbv zeta. set (r1 := set_preVotesReceived _ _).
  assert (sendable r1) as H1 by (calm_set). clearbody r1. apply reset_sendable in H1.
  intros Hrun. destruct (_ =? 0); [by eapply becomeCandidate_sendable |].
  injection Hrun as <-. by apply request_votes_sendable.
Qed.

Lemma Tick_sendable r r' : sendable r -> Tick r = Ok r' -> sendable r'.
Proof.
  intros H. unfold Tick, sendHeartbeats. cbv zeta. destruct (role_eqb _ _); destruct (_ <=? _).
  - apply broadcast_sendable. calm_set.
  - intros [= <-]. calm_set.
  - apply becomePreCandidate_sendable. calm_set.
  - intros [= <-]. calm_set.
Qed.

Lemma becomeFollower_sendable t r : is_u64 t -> sendable r -> sendable (becomeFollower t r).
Proof.
  intros Ht. apply sendable_frame; [by apply calm_becomeFollower | apply log_view_becomeFollower |].
  unfold becomeFollower. rewrite resetElectionTimeout_frame. by destruct (_ <? _).
Qed.

Lemma adopt_leader_sendable m r : msg_wf m -> sendable r -> sendable (adopt_leader m r).
Proof.
  intros Hm H. assert (sendable (becomeFollower (Message.Term m) r))
    by (by apply becomeFollower_sendable; [apply Hm |]). calm_set.
Qed.

(** ** Handlers *)

Lemma vote_responses_sendable ty to b r :
  (ty = MsgPreVoteResponse \/ ty = MsgRequestVoteResponse) ->
  sendable r -> sendable (send (Message.vote_response ty to b) r).
Proof. intros [-> | ->] H; by reply. Qed.

Lemma handleRequestVote_sendable r m : msg_wf m -> sendable r -> sendable (handleRequestVote r m).
Proof.
  intros Hm H. unfold handleRequestVote. cbv zeta.
  set (r1 := if _ <? _ then becomeFollower _ r else r).
  assert (sendable r1) as H1
    by (apply sendable_if; [apply becomeFollower_sendable; [apply Hm | done] | done]).
  clearbody r1. destruct (_ <? _); [by reply |]. reply. apply sendable_if; [| done].
  apply reset_sendable. revert H1. apply sendable_frame; [| done | done].
  split; [done |]. intros [[] ?]. split; [split; [done | apply Hm] | done].
Qed.

Lemma append_one_msgs r idx e r' :
  append_one r idx e = Ok r' -> msgs r' = msgs r /\ commitIndex r' = commitIndex r.
Proof.
  unfold append_one. intros H. bind_ok H r1 H1. revert H. destruct (_ =? 0); [done |].
  intros [= <-].
  assert (msgs r1 = msgs r /\ commitIndex r1 = commitIndex r) as [<- <-].
  { revert H1. destruct (_ && _); [| by intros [= <-]]. intros H1. bind_ok H1 l Hl.
    injection H1 as <-. by destruct (_ <? _). }
  by destruct (_ <? _).
Qed.

Lemma append_loop_msgs es : forall r prev i r',
  append_loop r prev i es = Ok r' -> msgs r' = msgs r /\ commitIndex r' = commitIndex r.
Proof.
  induction es as [|e es IH]; intros r prev i r'; cbn [append_loop]; [by intros [= <-] |].
  intros H. bind_ok H r1 H1. apply append_one_msgs in H1 as [<- <-]. by eapply IH.
Qed.

Lemma handleAppendEntries_sendable r m r' :
  good m -> Message.Type_ m = MsgAppendEntries -> sendable r ->
  handleAppendEntries r m = Ok r' -> sendable r'.
Proof.
  intros [Hw Hm] Hty H. pose proof Hw as Hw'. unfold wire_ok in Hw'. rewrite Hty in Hw'.
  destruct Hw' as (Hp & Hc & Hb).
  unfold handleAppendEntries. fold (adopt_leader m r). cbv zeta.
  pose proof (adopt_leader_sendable m r Hm H) as H1. pose proof H1 as [Hi1 Hw1 Hm1].
  destruct (_ <? _); [intros [= <-]; by reply |].
  destruct (Z.ltb_spec (lastLogIndex (adopt_leader m r)) (Message.PrevLogIndex m));
    [intros [= <-]; by reply |].
  destruct (negb _); [intros [= <-]; by reply |].
  intros Hrun. bind_ok Hrun r2 H2. injection Hrun as <-.
  pose proof (wire_bound _ _ _ Hi1 Hb ltac:(done)) as Hb'.
  rewrite <- (Z.add_0_r (Message.PrevLogIndex m + 1)) in Hc.
  assert (sendable r2) as Hs2.
  { constructor.
    - eapply append_loop_inv in H2 as (? & _ & _); [done | done | lia | done..].
    - eapply append_loop_srel in H2; [by apply H2 | done | lia | done | done | apply Hm].
    - unfold mail. by rewrite (proj1 (append_loop_msgs _ _ _ _ _ H2)). }
  reply. pose proof (commit_rule_inv r2 (Message.LeaderCommit m) (sd_inv _ Hs2)) as Hci.
  revert Hci. destruct (_ <? _); [| done]. intros Hci.
  apply (sendable_calm r2); [by apply calm_frame | done | apply Hs2 | done].
Qed.

Lemma handlePreVoteResponse_sendable r m r' :
  sendable r -> handlePreVoteResponse r m = Ok r' -> sendable r'.
Proof.
  intros H. unfold handlePreVoteResponse. cbv zeta. destruct (negb _); [by intros [= <-] |].
  destruct (negb _); [by intros [= <-] |]. destruct (hasMajorityCount _ _).
  - apply becomeCandidate_sendable. calm_set.
  - intros [= <-]. calm_set.
Qed.

Lemma handleRequestVoteResponse_sendable r m r' :
  msg_wf m -> sendable r -> handleRequestVoteResponse r m = Ok r' -> sendable r'.
Proof.
  intros Hm H. unfold handleRequestVoteResponse. cbv zeta.
  destruct (_ <? _); [intros [= <-]; apply becomeFollower_sendable; [apply Hm | done] |].
  destruct (_ || _); [by intros [= <-] |]. destruct (negb _); [by intros [= <-] |].
  destruct (hasMajorityCount _ _).
  - apply becomeLeader_sendable. calm_set.
  - intros [= <-]. calm_set.
Qed.

Lemma handleAppendEntriesResponse_sendable r m r' :
  msg_wf m -> sendable r -> handleAppendEntriesResponse r m = Ok r' -> sendable r'.
Proof.
  intros Hm H. unfold handleAppendEntriesResponse. cbv zeta.
  destruct (_ <? _); [intros [= <-]; apply becomeFollower_sendable; [apply Hm | done] |].
  destruct (_ || _); [by intros [= <-] |].
  set (r1 := if _ =? 0 then r else _).
  assert (sendable r1) as H1.
  { subst r1. destruct (_ =? 0); [done |]. revert H. apply sendable_frame;
      [apply calm_ackReadIndex | |]; unfold ackReadIndex; (destruct (_ !! _); [| done]);
      by destruct (hasMajorityCount _ _). }
  clearbody r1. destruct (Message.Success m).
  - intros [= <-]. apply maybeAdvance_sendable. revert H1.
    destruct (_ <? _); (apply sendable_frame; [by apply calm_frame | done | done]).
  - apply sendAppendEntries_sendable. revert H1.
    destruct (_ <? _); (apply sendable_frame; [by apply calm_frame | done | done]).
Qed.

Lemma handleInstallSnapshot_sendable r m :
  good m -> Message.Type_ m = MsgInstallSnapshot -> sendable r ->
  sendable (handleInstallSnapshot r m).
Proof.
  intros [Hw Hm] Hty H. constructor.
  - apply inv_handleInstallSnapshot; [apply H | done | done].
  - apply handleInstallSnapshot_srel; [apply H | done | apply H].
  - unfold handleInstallSnapshot. fold (adopt_leader m r). cbv zeta.
    pose proof (adopt_leader_sendable m r Hm H) as H1.
    destruct (_ <? _); [apply (sendable_reply _ r); done |].
    destruct (_ <=? _); [apply (sendable_reply _ (adopt_leader m r)); done |].
    destruct H1 as [_ [_ _ [Ht _] Hid _ _] Hm1].
    destruct (_ <? _); (apply Forall_app; split; [exact Hm1 |]; apply Forall_singleton;
      split; [exact I |]; constructor; try done; apply zero_wf).
Qed.

Lemma handleInstallSnapshotResponse_sendable r m :
  msg_wf m -> sendable r -> sendable (handleInstallSnapshotResponse r m).
Proof.
  intros Hm H. unfold handleInstallSnapshotResponse. cbv zeta.
  destruct (_ <? _); [apply becomeFollower_sendable; [apply Hm | done] |].
  destruct (_ || _); [done |]. apply maybeAdvance_sendable. revert H.
  destruct (_ <? _); destruct (_ <? _); (apply sendable_frame; [by apply calm_frame | done | done]).
Qed.

Lemma Step_sendable r m r' : good m -> sendable r -> Step r m = Ok r' -> sendable r'.
Proof.
  intros Hg H. pose proof Hg as [_ Hm]. unfold Step. destruct (negb _); [by intros [= <-] |].
  destruct (Message.Type_ m) eqn:Hty.
  - intros [= <-]. unfold handlePreVote. destruct (_ <? _); by reply.
  - by apply handlePreVoteResponse_sendable.
  - intros [= <-]. by apply handleRequestVote_sendable.
  - by apply handleRequestVoteResponse_sendable.
  - by apply handleAppendEntries_sendable.
  - by apply handleAppendEntriesResponse_sendable.
  - intros [= <-]. by apply handleInstallSnapshot_sendable.
  - intros [= <-]. by apply handleInstallSnapshotResponse_sendable.
  - by intros [= <-].
Qed.

Lemma append_proposals_msgs datas : forall r r' indices,
  append_proposals r datas = (r', indices) -> msgs r' = msgs r.
Proof.
  induction datas as [|d datas IH]; intros r r' indices; cbn [append_proposals].
  { by intros [= <- _]. }
  destruct (append_proposals _ datas) as [r2 ind] eqn:E. intros [= <- _]. by apply IH in E.
Qed.

Lemma ProposeBatch_sendable r datas r' indices :
  op_ok r (OPropose datas) -> op_wf (OPropose datas) -> sendable r ->
  ProposeBatch r datas = Ok (r', indices) -> sendable r'.
Proof.
  simpl. intros Hb Hd H. unfold ProposeBatch. destruct (negb _); [done |].
  destruct (append_proposals r datas) as [r1 ind] eqn:Hp. intros Hrun.
  bind_ok Hrun r2 H2. injection Hrun as <- _.
  assert (sendable r1) as H1.
  { constructor.
    - by apply append_proposals_ok in Hp as (? & _); [| apply H |].
    - by apply append_proposals_srel in Hp; [apply Hp, H | apply H | ..].
    - unfold mail. rewrite (append_proposals_msgs _ _ _ _ Hp). apply H. }
  apply broadcast_sendable in H2; [| done].
  apply sendable_if; [by apply maybeAdvance_sendable | done].
Qed.

Lemma RequestReadIndex_sendable r ctx r' :
  sendable r -> RequestReadIndex r ctx = Ok r' -> sendable r'.
Proof.
  intros H. unfold RequestReadIndex. cbv zeta. destruct (negb _); [done |].
  destruct (hasMajorityCount _ _); [intros [= <-]; calm_set |].
  apply broadcast_sendable. calm_set.
Qed.

Lemma CreateSnapshot_sendable r index data r' :
  len data < dataMax -> sendable r -> CreateSnapshot r index data = Ok r' -> sendable r'.
Proof.
  intros Hd [Hi Hw Hm] Hrun. constructor.
  - by apply (CreateSnapshot_inv _ _ _ _ Hi) in Hrun as [].
  - by apply CreateSnapshot_srel in Hrun; [apply Hrun | ..].
  - apply CreateSnapshot_spec in Hrun as (_ & _ & _ & _ & _ & ->); done.
Qed.

(** ** Every operation *)

Lemma exec_sendable r o r' :
  op_ok r o -> op_wf o -> sendable r -> exec r o = Ok r' -> sendable r'.
Proof.
  intros Hok Hwf H. destruct o; simpl in *; try done.
  - by apply Tick_sendable.
  - by apply Step_sendable.
  - destruct (ProposeBatch r datas) as [[x y]| |] eqn:E; simpl; [| by intros [= <-] | done].
    intros [= <-]. by eapply ProposeBatch_sendable.
  - destruct (RequestReadIndex r ctx) eqn:E; simpl; [| by intros [= <-] | done].
    intros [= <-]. by eapply RequestReadIndex_sendable.
  - destruct (CreateSnapshot r index data) eqn:E; simpl; [| by intros [= <-] | done].
    intros [= <-]. by eapply CreateSnapshot_sendable.
Qed.
