(* ===== verification/RaftNode.v ===== *)
(** * Raft: a node with its disk

    Models src/raft/node.go ([OpenNode] and [Persist]) and the life of one
    node over the storage of [RaftStorage]: operations, successful and failed
    [Persist] calls, crashes at any point and restarts from whatever bytes the
    disk kept. *)

From S2P Require Import Prelude GoBytes Wal RaftTypes Raft RaftLog RaftInv RaftVote RaftStorage RaftStable RaftSend.
Import RaftStorage.Codec.

Record Node := { n_r : Raft; n_storage : PersistentStorage }.

(** ** Operations *)

Definition OpenNode (cfg : Config.t) (p : string) (f : option Replay.replaySource)
    (opens : bool) (faults : list (option nat)) (draws : list Z)
    : res (Node * option Snapshot.t) :=
  let* '(storage, (hs, lg, snap)) := OpenStorage p f opens faults in
  let* r := New cfg draws in
  let r := restoreState hs lg r in
  if 0 <? Snapshot.LastIncludedIndex snap then
    Ok ({| n_r := set_stableSnapshotIndex (Snapshot.LastIncludedIndex snap) (set_snapshot snap r);
           n_storage := storage |}, Some snap)
  else Ok ({| n_r := r; n_storage := storage |}, None).

(** The messages to send, the confirmed reads, the snapshot to apply. *)
Definition output := (list Message.t * list ReadState.t * option Snapshot.t)%type.

Definition Persist (env : compaction_env) (n : Node) : Node * res output :=
  let r := n_r n in
  let fail s e := ({| n_r := r; n_storage := s |}, Err (Wrapf "raft: node persist" e)) in
  match ready r with
  | Panic => (n, Panic)
  | Err e => (n, Err e)
  | Ok rd =>
      let done_ s := ({| n_r := Advance r; n_storage := s |},
                      Ok (Ready.Messages rd, Ready.ReadStates rd, Ready.SnapshotToApply rd)) in
      match Ready.Snapshot rd with
      | Some snap =>
          match Entries r (Snapshot.LastIncludedIndex snap) (lastLogIndex r) with
          | Ok survivingEntries =>
              let '(s, err) := SaveSnapshot env (n_storage n)
                                 (HardState.mk (currentTerm r) (votedFor r)) snap
                                 survivingEntries in
              match err with Some e => fail s e | None => done_ s end
          | Err e => (n, Err e)
          | Panic => (n, Panic)
          end
      | None =>
          let '(s, err) := match Ready.HardState rd with
                           | Some hs => SaveHardState (n_storage n) hs
                           | None => (n_storage n, None)
                           end in
          match err with
          | Some e => fail s e
          | None =>
              let '(s, err) := if 0 <? len (Ready.UnstableEntries rd)
                               then SaveEntries s (Ready.FirstUnstableIndex rd)
                                      (Ready.UnstableEntries rd)
                               else (s, None) in
              match err with Some e => fail s e | None => done_ s end
          end
      end
  end.

(** ** What [Ready] reports *)

Lemma ready_spec r :
  inv r ->
  ready r = Ok (Ready.mk
    (if decide (hard r = stable_hard r) then None else Some (hard r))
    (if unstableIndex r <=? lastLogIndex r
     then drop (Z.to_nat (unstableIndex r - firstLogIndex r)) (log r) else [])
    (if unstableIndex r <=? lastLogIndex r then unstableIndex r else 0)
    (msgs r) (readStates r)
    (if stableSnapshotIndex r <? Snapshot.LastIncludedIndex (snapshot r)
     then Some (snapshot r) else None)
    (pendingSnapshotToApply r)).
Proof.
  intros H. pose proof (inv_unstable r H). pose proof (last_first r H) as Hl.
  unfold ready. cbv zeta.
  replace (if negb _ || negb _ then _ else _)
    with (if decide (hard r = stable_hard r) then None else Some (hard r)); cycle 1.
  { unfold hard, stable_hard. destruct (Z.eqb_spec (currentTerm r) (stableTerm r)) as [->|];
      destruct (Z.eqb_spec (votedFor r) (stableVote r)) as [->|]; simpl;
      destruct (decide _) as [E|E]; try done; injection E; congruence. }
  destruct (Z.leb_spec (unstableIndex r) (lastLogIndex r)); [| done].
  rewrite logPos_exact by (done || lia). unfold slice_from.
  rewrite slice_ok by lia. cbn [res_bind]. do 2 f_equal.
  apply take_ge. rewrite length_drop. unfold len. lia.
Qed.

Lemma below_drop r :
  inv r ->
  below (unstableIndex r) (tail (log r))
    ++ drop (Z.to_nat (unstableIndex r - firstLogIndex r)) (log r) = tail (log r).
Proof.
  intros H. pose proof (inv_unstable r H) as Hu. pose proof (last_first r H) as Hl.
  pose proof (inv_contig r H) as Hc. set (k := Z.to_nat (unstableIndex r - firstLogIndex r)).
  destruct (log r) as [|x l] eqn:E; [by destruct (inv_nonempty r H) |]. simpl tail.
  rewrite len_cons in Hl. destruct Hc as [_ Hc].
  replace k with (S (k - 1)) by lia. simpl drop.
  rewrite <- (take_drop (k - 1) l) at 1. rewrite below_app.
  assert (len (take (k - 1) l) = Z.of_nat (k - 1)) as Hlen
    by (unfold len in *; rewrite length_take; lia).
  pose proof Hc as Hc'. rewrite <- (take_drop (k - 1) l) in Hc'.
  apply contig_app in Hc' as [Hc1 Hc2].
  rewrite (below_contig_all _ _ _ Hc1), (below_contig_ge _ _ _ Hc2) by lia.
  by rewrite app_nil_r, take_drop.
Qed.

Lemma below_whole r : inv r -> below (lastLogIndex r + 1) (tail (log r)) = tail (log r).
Proof.
  intros H. pose proof (last_first r H) as Hl. pose proof (inv_contig r H) as Hc.
  destruct (log r) as [|x l]; [done |]. destruct Hc as [_ Hc]. simpl.
  apply (below_contig_all _ _ _ Hc). rewrite len_cons in Hl. lia.
Qed.

(** ** Durable states *)

Abbreviation dstate := (HardState.t * list LogEntry.t * Snapshot.t)%type.
Definition d_hs (st : dstate) : HardState.t := st.1.1.
Definition d_log (st : dstate) : list LogEntry.t := st.1.2.
Definition d_snap (st : dstate) : Snapshot.t := st.2.
Arguments d_hs !st /.
Arguments d_log !st /.
Arguments d_snap !st /.

Lemma state_of_snoc l i : state_of (l ++ [i]) = apply_item (state_of l) i.
Proof. unfold state_of. by rewrite fold_left_app. Qed.

Lemma state_of_entries l es :
  state_of (l ++ map ILogEntry es)
  = (d_hs (state_of l), d_log (state_of l) ++ es, d_snap (state_of l)).
Proof.
  revert l. induction es as [|e es IH]; intros l; simpl.
  { rewrite !app_nil_r. by destruct (state_of l) as [[]]. }
  replace (l ++ ILogEntry e :: map ILogEntry es) with ((l ++ [ILogEntry e]) ++ map ILogEntry es)
    by (by rewrite <- app_assoc).
  rewrite IH, state_of_snoc. destruct (state_of l) as [[hs dl] sn]. unfold d_hs, d_log, d_snap; simpl.
  by rewrite <- app_assoc.
Qed.

Lemma state_of_suffix l first es :
  state_of (l ++ entry_items first es)
  = (d_hs (state_of l), below first (d_log (state_of l)) ++ es, d_snap (state_of l)).
Proof.
  unfold entry_items.
  replace (l ++ ITruncateFrom first :: map ILogEntry es)
    with ((l ++ [ITruncateFrom first]) ++ map ILogEntry es) by (by rewrite <- app_assoc).
  rewrite state_of_entries, state_of_snoc. by destruct (state_of l) as [[hs dl] sn].
Qed.

Lemma state_of_snapshot hs snap es : state_of (snapshot_items hs snap es) = (hs, es, snap).
Proof. unfold snapshot_items. by rewrite state_of_entries. Qed.

(** A durable state from which a node can restart. *)
Record rec_ok (st : dstate) : Prop := {
  ro_contig : contig (Snapshot.LastIncludedIndex (d_snap st) + 1) (d_log st);
  ro_nonneg : 0 <= Snapshot.LastIncludedIndex (d_snap st);
  ro_bound : Snapshot.LastIncludedIndex (d_snap st) + len (d_log st) < maxIndex;
  ro_entries : Forall entry_wf (d_log st);
  ro_snap : snapshot_wf (d_snap st);
  ro_hard : hard_wf (d_hs st);
  ro_zero : Snapshot.LastIncludedIndex (d_snap st) = 0 -> d_snap st = Snapshot.zero
}.

Lemma rec_ok_hard hs hs' l snap : hard_wf hs' -> rec_ok (hs, l, snap) -> rec_ok (hs', l, snap).
Proof. intros Hh []. by constructor. Qed.

Lemma tail_contig r : inv r -> contig (firstLogIndex r + 1) (tail (log r)).
Proof.
  intros H. pose proof (inv_contig r H) as Hc. by destruct (log r) as [|x l]; [| destruct Hc].
Qed.

(** Every prefix of a node's log behind its snapshot is one. *)
Lemma rec_ok_prefix r hs l :
  sendable r -> hard_wf hs -> l `prefix_of` tail (log r) -> rec_ok (hs, l, snapshot r).
Proof.
  intros [Hi Hw _] Hh [k Hk]. pose proof (inv_snapshot r Hi) as Hs.
  pose proof (inv_first r Hi). pose proof (inv_bound r Hi) as Hb.
  pose proof (last_first r Hi) as Hl. pose proof (tail_contig r Hi) as Hc.
  assert (len (tail (log r)) = len (log r) - 1) as Ht.
  { pose proof (inv_nonempty r Hi). destruct (log r); [done |]. simpl. len_lia. }
  rewrite Hk in Hc, Ht. apply contig_app in Hc as [Hc _].
  assert (Forall entry_wf (tail (log r))) as He.
  { destruct Hw. destruct (log r); [done |]. by apply Forall_cons in w_entries as []. }
  rewrite Hk in He. apply Forall_app in He as [He _].
  constructor; simpl; rewrite ?Hs; try done; try apply Hw; [len_lia |].
  intros Hz. apply Hw. lia.
Qed.

(** ** Every durable state a crash may expose *)

Definition between (d t : list item) (P : dstate -> Prop) : Prop :=
  forall l, d `prefix_of` l -> l `prefix_of` t -> P (state_of l).

Lemma prefix_app_cases {A} (l t k : list A) :
  l `prefix_of` t ++ k -> l `prefix_of` t \/ exists k', l = t ++ k' /\ k' `prefix_of` k.
Proof.
  revert l. induction t as [|x t IH]; intros l H; simpl in *.
  { right. by exists l. }
  destruct l as [|y l]; [left; apply prefix_nil |].
  apply prefix_cons_inv_1 in H as Hxy. apply prefix_cons_inv_2 in H. subst y.
  destruct (IH l H) as [? | (k' & -> & ?)]; [left; by apply prefix_cons |].
  right. by exists k'.
Qed.

Lemma between_app d t k (P : dstate -> Prop) :
  between d t P -> (forall k', k' `prefix_of` k -> P (state_of (t ++ k'))) ->
  between d (t ++ k) P.
Proof.
  intros H Hk l Hd Hl. apply prefix_app_cases in Hl as [? | (k' & -> & ?)]; auto.
Qed.

Lemma between_same t (P : dstate -> Prop) : P (state_of t) -> between t t P.
Proof. intros H l H1 H2. by rewrite (anti_symm prefix l t). Qed.

Lemma between_impl d t (P Q : dstate -> Prop) :
  (forall st, P st -> Q st) -> between d t P -> between d t Q.
Proof. intros H HP l Hd Hl. auto. Qed.

(** Every snapshot a crash may expose satisfies [good]. *)
Definition snapshots (good : Snapshot.t -> Prop) (d t : list item) : Prop := between d t (fun st => good (d_snap st)).

(** ** The node invariant *)

Section Life.
Context (net : Message.t -> Prop).
Context (net_from : forall m, net m -> Message.From m <> 0).

(** What a crash at this point would restore. *)
Definition safe (r : Raft) (st : dstate) : Prop :=
  rec_ok st /\ hard_le (stable_hard r) (d_hs st) /\ hard_le (d_hs st) (hard r).

(** The log on disk agrees with the stable part of the log in memory. *)
Definition mirrors (r : Raft) (st : dstate) : Prop :=
  d_snap st = snapshot r /\
  below (unstableIndex r) (d_log st) = below (unstableIndex r) (tail (log r)) /\
  (lastLogIndex r < unstableIndex r -> below (unstableIndex r) (d_log st) = d_log st).

Record node_inv (durable tried : list item) (n : Node) : Prop := {
  ni_store : sinv durable tried (n_storage n);
  ni_prefix : durable `prefix_of` tried;
  ni_send : sendable (n_r n);
  ni_vote : vote_inv net (n_r n);
  ni_net : forall m, net m -> Message.From m = id (n_r n) -> ballot_ok (stable_hard (n_r n)) m;
  ni_stable : hard_le (stable_hard (n_r n)) (hard (n_r n));
  ni_safe : between durable tried (safe (n_r n));
  ni_mirror : ~ pending (n_r n) -> mirrors (n_r n) (state_of tried);
  ni_settled : ~ pending (n_r n) -> hard (n_r n) = stable_hard (n_r n) ->
               lastLogIndex (n_r n) < unstableIndex (n_r n) -> durable = tried
}.

(** Everything of [r] is on disk, and surely so. *)
Definition saved (n : Node) (r : Raft) (items : list item) : Prop :=
  sinv items items (n_storage n) /\ state_of items = (hard r, tail (log r), snapshot r).

(** A property of durable states that no save of [r], finished or not, can
    break: the hard state may be overwritten with [r]'s, and the log replaced
    by anything between the stable part of [r]'s log and all of it. *)
Definition resaved (r : Raft) (P : dstate -> Prop) : Prop :=
  (forall st, safe r st -> P st -> P (hard r, d_log st, d_snap st)) /\
  (forall l, below (unstableIndex r) (tail (log r)) `prefix_of` l -> l `prefix_of` tail (log r) ->
     P (hard r, l, snapshot r)).

(** *** Operations *)

Lemma srel_mirrors r r' st :
  srel r r' -> ~ pending r' -> (~ pending r -> mirrors r st) -> mirrors r' st.
Proof.
  intros [] Hp Hm. destruct r_log as [? | (Hs & Hu & Hb & Hl)]; [done |].
  destruct Hm as (Hs0 & Hb0 & Hl0); [tauto |]. split_and!.
  - congruence.
  - rewrite <- (below_below _ (unstableIndex r)) by done.
    by rewrite Hb0, below_below, Hb.
  - intros Hlt. destruct (Hl Hlt) as [? ->]. auto.
Qed.

Lemma node_exec durable tried n o r' :
  node_inv durable tried n ->
  currentTerm (n_r n) < maxTerm -> op_ok (n_r n) o -> op_wf o -> (forall m, o = OStep m -> net m) ->
  exec (n_r n) o = Ok r' ->
  node_inv durable tried {| n_r := r'; n_storage := n_storage n |} /\ keeps (n_r n) r'.
Proof.
  intros [] Hmax Hok Hwf Hnet Hrun.
  destruct (exec_vstep net net_from _ _ _ Hmax Hnet Hrun ni_vote0) as [Hv' Hk].
  pose proof Hk as (_ & _ & Hle).
  pose proof (exec_srel _ _ _ (sd_inv _ ni_send0) Hok Hwf Hrun) as Hs.
  pose proof (exec_sendable _ _ _ Hok Hwf ni_send0 Hrun) as Hsend.
  split; [| done]. constructor; simpl; try done.
  - destruct Hk as (-> & _ & _). by rewrite (r_hard _ _ Hs).
  - rewrite (r_hard _ _ Hs). by etrans.
  - revert ni_safe0. apply between_impl. intros st (Hr & Hl & Hu).
    split_and!; [done | by rewrite (r_hard _ _ Hs) | by etrans].
  - intros Hp. by apply (srel_mirrors (n_r n)).
  - intros Hp Hh Hlt. destruct Hs. destruct r_log as [? | (_ & _ & _ & Hl)]; [done |].
    apply ni_settled0; [tauto | | by apply Hl].
    apply hard_le_antisym; [| done]. by rewrite <- r_hard, <- Hh.
Qed.

(** *** Persist *)

Lemma pending_test r :
  (stableSnapshotIndex r <? Snapshot.LastIncludedIndex (snapshot r)) = true <-> pending r.
Proof. apply Z.ltb_lt. Qed.

(** After a save that captured all of [r], [Advance] marks it stable. *)
Lemma node_advance n items s' :
  sendable (n_r n) -> vote_inv net (n_r n) ->
  saved {| n_r := n_r n; n_storage := s' |} (n_r n) items ->
  node_inv items items {| n_r := Advance (n_r n); n_storage := s' |}.
Proof.
  destruct n as [r s]. simpl. intros Hsend Hv [Hst Hstate]. simpl in Hst.
  pose proof (sd_inv _ Hsend) as Hi.
  destruct (Advance_vstep net r Hv) as [Hv' _].
  assert (hard (Advance r) = hard r /\ stable_hard (Advance r) = hard r /\
          log (Advance r) = log r /\ snapshot (Advance r) = snapshot r /\
          stableSnapshotIndex (Advance r) = Snapshot.LastIncludedIndex (snapshot r) /\
          unstableIndex (Advance r) = lastLogIndex r + 1 /\ msgs (Advance r) = [] /\
          id (Advance r) = id r) as (Hh & Hsh & Hl & Hsn & Hss & Hu & Hm & Hid).
  { pose proof (inv_unstable r Hi). pose proof (inv_bound r Hi). pose proof (inv_first r Hi).
    pose proof (first_le_last r Hi).
    unfold Advance. destruct r as []. simpl in *. unfold lastLogIndex in *; simpl in *.
    destruct (Z.leb_spec unstableIndex (match last log with Some e => LogEntry.Index e | None => 0 end));
      simpl; split_and!; try done; [| lia]. apply inc64_small. unfold maxIndex in *. lia. }
  assert (lastLogIndex (Advance r) = lastLogIndex r) as Hla by (unfold lastLogIndex; by rewrite Hl).
  constructor; cbn [n_r n_storage].
  - done.
  - done.
  - destruct Hsend as [_ [] _]. constructor.
    + by apply inv_Advance.
    + constructor; rewrite ?Hl, ?Hsn, ?Hh, ?Hid; done.
    + unfold mail. by rewrite Hm.
  - done.
  - rewrite Hsh, Hid. apply (o_net _ _ (v_out _ _ Hv)).
  - by rewrite Hsh, Hh.
  - apply between_same. rewrite Hstate. unfold safe. simpl. rewrite Hsh, Hh.
    split_and!; [| done | done]. apply rec_ok_prefix; [done | apply Hsend | done].
  - intros _. unfold mirrors. rewrite Hstate, Hu, Hsn, Hl. simpl.
    rewrite !below_whole by done. done.
  - done.
Qed.

Lemma persist_snapshot durable tried n env s' err :
  node_inv durable tried n -> pending (n_r n) -> tmp_left env = [] ->
  SaveSnapshot env (n_storage n) (hard (n_r n)) (snapshot (n_r n)) (tail (log (n_r n))) = (s', err) ->
  (err <> None /\ s' = n_storage n) \/
  exists items, saved {| n_r := n_r n; n_storage := s' |} (n_r n) items /\
    node_inv items items {| n_r := n_r n; n_storage := s' |}.
Proof.
  intros [] Hp Ht Hrun. pose proof (sd_wf _ ni_send0) as Hw.
  assert (Forall entry_wf (tail (log (n_r n)))) as Hes.
  { destruct Hw. destruct (log (n_r n)); [done |]. by apply Forall_cons in w_entries as []. }
  destruct (SaveSnapshot_spec _ _ _ _ _ _ _ _ _ ni_store0 Ht (w_hard _ Hw) (w_snap _ Hw) Hes Hrun)
    as [? | Hs]; [by left | right].
  set (items := snapshot_items _ _ _) in Hs. exists items.
  assert (state_of items = (hard (n_r n), tail (log (n_r n)), snapshot (n_r n))) as Hst
    by apply state_of_snapshot.
  split; [by split |]. constructor; simpl; try done.
  apply between_same. rewrite Hst. split_and!; [| done | done].
  apply rec_ok_prefix; [done | apply Hw | done].
Qed.

Lemma node_store durable tried durable' tried' n s' :
  node_inv durable tried n -> sinv durable' tried' s' -> durable' `prefix_of` tried' ->
  between durable' tried' (safe (n_r n)) ->
  (~ pending (n_r n) -> mirrors (n_r n) (state_of tried')) ->
  (hard (n_r n) = stable_hard (n_r n) -> lastLogIndex (n_r n) < unstableIndex (n_r n) ->
   durable' = tried') ->
  node_inv durable' tried' {| n_r := n_r n; n_storage := s' |}.
Proof. intros [] ? ? ? ? ?. constructor; simpl; auto. Qed.

(** Saving the hard state, in either outcome. *)
Lemma persist_hard durable tried n s' err :
  node_inv durable tried n -> hard (n_r n) <> stable_hard (n_r n) ->
  SaveHardState (n_storage n) (hard (n_r n)) = (s', err) ->
  let tried' := tried ++ [IHardState (hard (n_r n))] in
  node_inv (kept err durable tried') tried' {| n_r := n_r n; n_storage := s' |} /\
  forall P, resaved (n_r n) P -> between durable tried P -> between (kept err durable tried') tried' P.
Proof.
  intros Hn Hne Hrun tried'. pose proof Hn as []. pose proof (sd_wf _ ni_send0) as Hw.
  apply (SaveHardState_spec _ _ _ _ _ _ ni_store0 (w_hard _ Hw)) in Hrun.
  assert (safe (n_r n) (state_of tried)) as (Hro & Hl & Hu) by (by apply ni_safe0).
  assert (safe (n_r n) (state_of tried')) as Hsafe.
  { subst tried'. rewrite state_of_snoc. destruct (state_of tried) as [[hs dl] sn].
    split_and!; [| done | done]. eapply rec_ok_hard, Hro. apply Hw. }
  assert (forall P : dstate -> Prop, between durable tried P -> P (state_of tried') -> between durable tried' P) as Hbt.
  { intros P HP Ht. apply between_app; [done |]. intros k' Hk. destruct k' as [|i k'].
    - rewrite app_nil_r. by apply HP.
    - apply prefix_cons_inv_1 in Hk as Hi. apply prefix_cons_inv_2 in Hk.
      apply prefix_nil_inv in Hk as ->. by subst i. }
  split; cycle 1.
  { intros P [HP _] Hb. assert (P (state_of tried')) as Ht.
    { subst tried'. rewrite state_of_snoc. specialize (HP (state_of tried) ltac:(done) ltac:(by apply Hb)).
      by destruct (state_of tried) as [[hs dl] sn]. }
    destruct err; simpl; [by apply Hbt | by apply between_same]. }
  eapply node_store; [done | done | | | | done].
  - destruct err; simpl; [by apply prefix_app_r | done].
  - destruct err; simpl; [by apply Hbt | by apply between_same].
  - intros Hp. specialize (ni_mirror0 Hp). subst tried'. rewrite state_of_snoc.
    destruct (state_of tried) as [[hs dl] sn]. done.
Qed.

(** Saving the unstable suffix, in either outcome. *)
Lemma persist_entries durable tried n s' err :
  node_inv durable tried n -> ~ pending (n_r n) ->
  unstableIndex (n_r n) <= lastLogIndex (n_r n) ->
  let es := drop (Z.to_nat (unstableIndex (n_r n) - firstLogIndex (n_r n))) (log (n_r n)) in
  SaveEntries (n_storage n) (unstableIndex (n_r n)) es = (s', err) ->
  let tried' := tried ++ entry_items (unstableIndex (n_r n)) es in
  node_inv (kept err durable tried') tried' {| n_r := n_r n; n_storage := s' |} /\
  state_of tried' = (d_hs (state_of tried), tail (log (n_r n)), snapshot (n_r n)) /\
  forall P, resaved (n_r n) P -> d_hs (state_of tried) = hard (n_r n) ->
    between durable tried P -> between (kept err durable tried') tried' P.
Proof.
  intros Hn Hp Hlast es Hrun tried'. pose proof Hn as []. set (r := n_r n) in *.
  pose proof (sd_wf _ ni_send0) as Hw. pose proof (sd_inv _ ni_send0) as Hi.
  pose proof (inv_unstable r Hi) as Hu. pose proof (inv_first r Hi). pose proof (inv_bound r Hi).
  destruct (ni_mirror0 Hp) as (Hsn & Hb & _).
  assert (Forall entry_wf es) as Hes by apply Forall_drop, Hw.
  apply (SaveEntries_spec _ _ _ _ _ _ _ ni_store0) in Hrun; [| | done |]; cycle 1.
  { unfold is_u64, maxIndex in *. lia. }
  { intros E. apply (f_equal len) in E. unfold es, len in E. rewrite length_drop in E.
    pose proof (last_first r Hi). unfold len in *. simpl in E. lia. }
  assert (forall es', state_of (tried ++ entry_items (unstableIndex r) es')
    = (d_hs (state_of tried), below (unstableIndex r) (tail (log r)) ++ es', snapshot r)) as Hstate.
  { intros es'. by rewrite state_of_suffix, Hb, Hsn. }
  assert (state_of tried' = (d_hs (state_of tried), tail (log r), snapshot r)) as Hst.
  { subst tried'. rewrite Hstate. unfold es. by rewrite below_drop. }
  assert (safe r (state_of tried)) as (Hro & Hlo & Hhi) by (by apply ni_safe0).
  assert (forall P : dstate -> Prop, P (state_of tried) ->
    (forall l, below (unstableIndex r) (tail (log r)) `prefix_of` l -> l `prefix_of` tail (log r) ->
       P (d_hs (state_of tried), l, snapshot r)) ->
    forall k', k' `prefix_of` entry_items (unstableIndex r) es -> P (state_of (tried ++ k'))) as Hall.
  { intros P Hold Hnew k' Hk. destruct k' as [|i k']; [by rewrite app_nil_r |].
    apply prefix_cons_inv_1 in Hk as Hi'. apply prefix_cons_inv_2 in Hk. subst i.
    destruct Hk as [rest Hk]. apply fmap_app_inv in Hk as (e1 & e2 & -> & -> & He).
    change (ITruncateFrom (unstableIndex r) :: (ILogEntry <$> e1))
      with (entry_items (unstableIndex r) e1). rewrite Hstate. apply Hnew; [by apply prefix_app_r |].
    pose proof (below_drop r Hi) as Hbd. fold es in Hbd. rewrite He, app_assoc in Hbd. by exists e2. }
  assert (forall k', k' `prefix_of` entry_items (unstableIndex r) es -> safe r (state_of (tried ++ k'))) as Hk.
  { apply Hall; [by split |]. intros l _ Hl. split_and!; [| done | done].
    apply rec_ok_prefix; [done | by destruct Hro | done]. }
  split_and!; [| done |]; cycle 1.
  { intros P [_ HP] Hhs Hbt. rewrite <- Hhs in HP.
    destruct err; simpl; [apply between_app | apply between_same]; try done; apply Hall; try done; by apply Hbt. }
  eapply node_store; [done | done | | | | intros _; fold r; lia].
  - destruct err; simpl; [by apply prefix_app_r | done].
  - destruct err; simpl; [by apply between_app | by apply between_same, Hk].
  - intros _. fold r. rewrite Hst. unfold mirrors; simpl. split_and!; try done.
    fold r. lia.
Qed.

(** The first phase of a plain save: the hard state, when it changed. *)
Lemma persist_first durable tried n :
  node_inv durable tried n ->
  exists d1 t1 s1 err1,
    (match (if decide (hard (n_r n) = stable_hard (n_r n)) then None else Some (hard (n_r n))) with
     | Some hs => SaveHardState (n_storage n) hs
     | None => (n_storage n, None)
     end) = (s1, err1) /\
    node_inv d1 t1 {| n_r := n_r n; n_storage := s1 |} /\
    (err1 = None -> d_hs (state_of t1) = hard (n_r n) /\
       (~ pending (n_r n) -> lastLogIndex (n_r n) < unstableIndex (n_r n) -> d1 = t1)) /\
    (forall P, resaved (n_r n) P -> between durable tried P -> between d1 t1 P).
Proof.
  intros Hn. pose proof Hn as []. set (r := n_r n) in *.
  destruct (decide (hard r = stable_hard r)) as [E|E].
  - exists durable, tried, (n_storage n), None. split; [done |]. split; [by destruct n |].
    split; [| done]. intros _. split; [| intros Hp Hl; by apply ni_settled0].
    destruct (ni_safe0 tried) as (_ & Hl & Hu); [done | done |].
    rewrite <- E in Hl. by apply hard_le_antisym.
  - destruct (SaveHardState (n_storage n) (hard r)) as [s1 err1] eqn:Hs.
    destruct (persist_hard _ _ _ _ _ Hn E Hs) as [Hn1 HP].
    eexists _, _, s1, err1. split; [done |]. split; [exact Hn1 |]. split; [| exact HP].
    intros ->. split; [| done]. rewrite state_of_snoc. by destruct (state_of tried) as [[]].
Qed.

(** [Persist] in every outcome.  It never panics; on success the messages are
    released and everything they depend on is durable; on failure the node is
    unchanged in memory, nothing is released, and what a crash could restore
    is still safe. *)
Lemma Persist_spec durable tried n env n' out :
  node_inv durable tried n -> tmp_left env = [] -> Persist env n = (n', out) ->
  match out with
  | Ok (ms, rs, _) =>
      ms = msgs (n_r n) /\ rs = readStates (n_r n) /\ n_r n' = Advance (n_r n) /\
      exists items, saved n' (n_r n) items /\ node_inv items items n'
  | Err _ => n_r n' = n_r n /\ exists d t, node_inv d t n' /\
      forall P, resaved (n_r n) P -> between durable tried P -> between d t P
  | Panic => False
  end.
Proof.
  intros Hn Ht. pose proof Hn as []. set (r := n_r n) in *.
  pose proof (sd_inv _ ni_send0) as Hi. unfold Persist. fold r.
  rewrite ready_spec by done. cbn [Ready.Snapshot Ready.HardState Ready.UnstableEntries
    Ready.FirstUnstableIndex Ready.Messages Ready.ReadStates Ready.SnapshotToApply].
  destruct (stableSnapshotIndex r <? _) eqn:Hpt.
  - apply pending_test in Hpt. rewrite (inv_snapshot r Hi).
    rewrite Entries_tail by (done || lia). rewrite Z.sub_diag.
    change (drop (Z.to_nat (0 + 1)) (log r)) with (drop 1 (log r)).
    replace (drop 1 (log r)) with (tail (log r)) by (by destruct (log r)).
    destruct (SaveSnapshot _ _ _ _ _) as [s' err] eqn:Hs. fold (hard r) in Hs.
    destruct (persist_snapshot _ _ _ _ _ _ Hn Hpt Ht Hs) as [[? ->] | (items & Hsv & Hni)].
    + destruct err; [| done]. intros [= <- <-]. split; [done |]. exists durable, tried. by split.
    + destruct err; intros [= <- <-].
      * split; [done |]. exists items, items. split; [done |]. intros P [_ HP] _. apply between_same. rewrite (proj2 Hsv).
        apply HP; [| done]. eexists. symmetry. by apply below_drop.
      * split_and!; try done. exists items. split; [exact Hsv |]. by apply (node_advance n).
  - assert (~ pending r) as Hp by (by rewrite <- pending_test, Hpt).
    destruct (persist_first _ _ _ Hn) as (d1 & t1 & s1 & err1 & Hf & Hn1 & Hh1 & Hsn1). fold r in Hf, Hh1.
    rewrite Hf. clear Hf. fold r in Hn1.
    destruct err1 as [e|].
    { intros [= <- <-]. split; [done |]. exists d1, t1. by split. }
    destruct (Hh1 eq_refl) as [Hh2 Hset]. clear Hh1.
    pose proof (ni_mirror _ _ _ Hn1 Hp) as (Hsn & Hb & Hbw). cbn [n_r n_storage] in *.
    destruct (Z.leb_spec (unstableIndex r) (lastLogIndex r)) as [Hul|Hul].
    + destruct (SaveEntries s1 _ _) as [s2 err2] eqn:Hs2.
      destruct (persist_entries _ _ _ _ _ Hn1 Hp Hul Hs2) as (Hn2 & Hst & Hsn2). cbn [n_r] in *.
      assert (0 < len (drop (Z.to_nat (unstableIndex r - firstLogIndex r)) (log r))) as Hpos.
      { pose proof (last_first r Hi). pose proof (inv_unstable r Hi).
        unfold len in *. rewrite length_drop. lia. }
      rewrite (proj2 (Z.ltb_lt _ _) Hpos).
      destruct err2; intros [= <- <-].
      * split; [done |]. eexists _, _. split; [exact Hn2 |]. intros P HP Hb'. apply Hsn2; auto.
      * split_and!; try done. eexists. rewrite Hh2 in Hst.
        assert (saved {| n_r := r; n_storage := s2 |} r
          (t1 ++ entry_items (unstableIndex r)
             (drop (Z.to_nat (unstableIndex r - firstLogIndex r)) (log r)))) as Hsv
          by (split; [apply (ni_store _ _ _ Hn2) | done]).
        split; [exact Hsv |]. by apply (node_advance n).
    + change (0 <? len []) with false. cbv iota. intros [= <- <-]. split_and!; try done.
      assert (state_of t1 = (hard r, tail (log r), snapshot r)) as Hst.
      { pose proof (inv_unstable r Hi). rewrite Hbw in Hb by done.
        replace (unstableIndex r) with (lastLogIndex r + 1) in Hb by lia.
        rewrite below_whole in Hb by done. rewrite <- Hh2, <- Hsn, <- Hb.
        by destruct (state_of t1) as [[]]. }
      rewrite (Hset Hp Hul) in Hn1. exists t1.
      assert (saved {| n_r := r; n_storage := s1 |} r t1) as Hsv
        by (split; [apply (ni_store _ _ _ Hn1) | done]).
      split; [exact Hsv |]. by apply (node_advance n).
Qed.

(** *** Restart *)

(** The node [OpenNode] builds from a durable state. *)
Definition restored (r0 : Raft) (st : dstate) : Raft :=
  let r := restoreState (d_hs st) (sentinel (d_snap st) :: d_log st) r0 in
  if 0 <? Snapshot.LastIncludedIndex (d_snap st)
  then set_stableSnapshotIndex (Snapshot.LastIncludedIndex (d_snap st)) (set_snapshot (d_snap st) r)
  else r.

Lemma sentinel_index snap :
  0 <= Snapshot.LastIncludedIndex snap ->
  LogEntry.Index (sentinel snap) = Snapshot.LastIncludedIndex snap.
Proof. intros. unfold sentinel. destruct (Z.ltb_spec 0 (Snapshot.LastIncludedIndex snap)); simpl; lia. Qed.

Lemma sentinel_wf snap : snapshot_wf snap -> entry_wf (sentinel snap).
Proof.
  intros (Ht & Hi & _). unfold sentinel. destruct (_ <? _); unfold entry_wf, dataMax, len, is_u64 in *; simpl; lia.
Qed.

Lemma New_fields cfg draws r0 :
  New cfg draws = Ok r0 ->
  id r0 = Config.ID cfg /\ peers r0 = Config.Peers cfg /\ role r0 = Follower /\
  commitIndex r0 = 0 /\ snapshot r0 = Snapshot.zero /\ stableSnapshotIndex r0 = 0 /\
  msgs r0 = [] /\ Config.ID cfg <> 0.
Proof.
  unfold New. destruct (Config.validate cfg) eqn:Hv; [done |].
  assert (Config.ID cfg <> 0).
  { unfold Config.validate in Hv. destruct (Z.eqb_spec (Config.ID cfg) 0); [done | done]. }
  set (x := {| id := Config.ID cfg |}). intros [= <-]. rewrite resetElectionTimeout_frame.
  by split_and!.
Qed.

(** Every field of the restored node that recovery determines. *)
Lemma restored_fields cfg draws r0 st :
  New cfg draws = Ok r0 -> rec_ok st ->
  let r := restored r0 st in
  id r = Config.ID cfg /\ peers r = Config.Peers cfg /\ role r = Follower /\ msgs r = [] /\
  hard r = d_hs st /\ stable_hard r = d_hs st /\ log r = sentinel (d_snap st) :: d_log st /\
  snapshot r = d_snap st /\
  stableSnapshotIndex r = Snapshot.LastIncludedIndex (d_snap st) /\
  commitIndex r = Snapshot.LastIncludedIndex (d_snap st) /\
  unstableIndex r = lastLogIndex r + 1 /\
  lastLogIndex r = Snapshot.LastIncludedIndex (d_snap st) + len (d_log st).
Proof.
  intros Hnew [] r. apply New_fields in Hnew as (Hid & Hpe & Hro & Hc & Hs & Hss & Hm & _).
  set (idx := Snapshot.LastIncludedIndex (d_snap st)) in *.
  assert (LogEntry.Index (sentinel (d_snap st)) = idx) as Hsi by (by apply sentinel_index).
  set (lg := sentinel (d_snap st) :: d_log st).
  assert (contig idx lg) as Hcl by (by split).
  assert (match last lg with Some e => LogEntry.Index e | None => 0 end = idx + len (d_log st)) as Hl.
  { destruct (last lg) as [e|] eqn:E.
    - rewrite (contig_last _ _ _ Hcl E). unfold lg. rewrite len_cons. lia.
    - apply last_None in E. done. }
  subst r. unfold restored, restoreState. cbv zeta. fold lg.
  rewrite (proj2 (Z.ltb_lt 0 (len lg))) by (unfold lg; len_lia).
  fold idx. set (r1 := set_log lg _).
  assert (firstLogIndex r1 = idx /\ commitIndex r1 = 0 /\ lastLogIndex r1 = idx + len (d_log st) /\
    id r1 = Config.ID cfg /\ peers r1 = Config.Peers cfg /\ role r1 = Follower /\ msgs r1 = [] /\
    hard r1 = d_hs st /\ stable_hard r1 = d_hs st /\ log r1 = lg /\
    snapshot r1 = Snapshot.zero /\ stableSnapshotIndex r1 = 0)
    as (Hf1 & Hc1 & Hl1 & Hid1 & Hpe1 & Hro1 & Hm1 & Hh1 & Hsh1 & Hlg1 & Hs1 & Hss1).
  { unfold hard, stable_hard. simpl. split_and!; try done; by destruct (d_hs st). }
  clearbody r1. rewrite Hf1, Hc1.
  pose proof (len_nonneg (d_log st)).
  destruct (Z.ltb_spec 0 idx) as [Hpos|Hz].
  - change (lastLogIndex (set_commitIndex _ _)) with (lastLogIndex r1). rewrite Hl1.
    rewrite inc64_small by (unfold maxIndex in *; lia). split_and!; try done.
    change (lastLogIndex (set_stableSnapshotIndex _ _)) with (lastLogIndex r1). by rewrite Hl1.
  - assert (idx = 0) as Hi0 by lia. rewrite Hl1, inc64_small by (unfold maxIndex in *; lia).
    rewrite Hi0. split_and!; try done; simpl; try congruence.
    + rewrite Hs1. by rewrite ro_zero0.
    + change (lastLogIndex (set_unstableIndex _ _)) with (lastLogIndex r1). lia.
    + change (lastLogIndex (set_unstableIndex _ _)) with (lastLogIndex r1). lia.
Qed.

Lemma restored_inv cfg draws r0 st items s :
  New cfg draws = Ok r0 -> is_u64 (Config.ID cfg) -> state_of items = st -> rec_ok st ->
  sinv items items s ->
  (forall m, net m -> Message.From m = Config.ID cfg -> ballot_ok (d_hs st) m) ->
  (forall m1 m2, net m1 -> net m2 -> Message.From m1 = Config.ID cfg ->
     Message.From m2 = Config.ID cfg -> agree m1 m2) ->
  node_inv items items {| n_r := restored r0 st; n_storage := s |}.
Proof.
  intros Hnew Hidu Hst Hok Hs Hbal Hag. pose proof Hok as [].
  destruct (restored_fields cfg draws r0 st Hnew Hok)
    as (Hid & Hpe & Hro & Hm & Hh & Hsh & Hlg & Hsn & Hss & Hc & Hu & Hl).
  apply New_fields in Hnew as (_ & _ & _ & _ & _ & _ & _ & Hnz).
  set (r := restored r0 st) in *. clearbody r.
  set (idx := Snapshot.LastIncludedIndex (d_snap st)) in *.
  assert (firstLogIndex r = idx) as Hf by (unfold firstLogIndex; rewrite Hlg; by apply sentinel_index).
  pose proof (len_nonneg (d_log st)).
  assert (inv r) as Hi.
  { constructor; rewrite ?Hf, ?Hl, ?Hu, ?Hc, ?Hsn, ?Hss, ?Hlg; try done; try lia.
    split; [by apply sentinel_index | done]. }
  assert (below (unstableIndex r) (d_log st) = d_log st) as Hb.
  { apply (below_contig_all _ (idx + 1)); [done | lia]. }
  constructor; simpl; try done.
  - constructor; [done | | unfold mail; by rewrite Hm].
    constructor; rewrite ?Hlg, ?Hsn, ?Hh, ?Hid; try done.
    constructor; [by apply sentinel_wf | done].
  - constructor; unfold campaigning; rewrite ?Hid, ?Hro; try done; try (intros [?|?]; done).
    + apply (f_equal HardState.Term) in Hh. simpl in Hh. rewrite Hh. by destruct ro_hard0 as [[? _] _].
    + constructor; rewrite ?Hm, ?Hid, ?Hh; try done. unfold own. rewrite Hm, Hid.
      intros m1 m2 [H1%not_elem_of_nil | [? ?]] [H2%not_elem_of_nil | [? ?]]; auto; done.
  - by rewrite Hid, Hsh.
  - by rewrite Hh, Hsh.
  - apply between_same. rewrite Hst. unfold safe. by rewrite Hsh, Hh.
  - intros _. unfold mirrors. rewrite Hst, Hsn, Hlg. simpl. by rewrite Hb.
Qed.

(** A crash at any point is followed by a restart that succeeds, on a state
    between the one known durable and the one last written. *)
Lemma OpenNode_crash durable tried n cfg p k faults draws r0 :
  node_inv durable tried n -> New cfg draws = Ok r0 -> Config.ID cfg = id (n_r n) ->
  exists items n' snap,
    OpenNode cfg p (Some (Replay.healthy (Durability.crash_image (disk (n_storage n)) k)))
      true faults draws = Ok (n', snap) /\
    durable `prefix_of` items /\ items `prefix_of` tried /\
    n_r n' = restored r0 (state_of items) /\ safe (n_r n) (state_of items) /\
    node_inv items items n'.
Proof.
  intros [] Hnew Hid.
  destruct (OpenStorage_crash _ _ _ p k faults ni_store0) as (items & s' & Hopen & Hd & Ht & Hs').
  pose proof (ni_safe0 items Hd Ht) as Hsafe. pose proof Hsafe as (Hok & Hlo & _).
  assert (is_u64 (Config.ID cfg)) as Hidu by (rewrite Hid; apply (w_id _ (sd_wf _ ni_send0))).
  assert (forall m, net m -> Message.From m = Config.ID cfg ->
            ballot_ok (d_hs (state_of items)) m) as Hbal.
  { rewrite Hid. intros m Hm Hf. eapply ballot_ok_le; [exact Hlo | auto]. }
  assert (forall m1 m2, net m1 -> net m2 -> Message.From m1 = Config.ID cfg ->
     Message.From m2 = Config.ID cfg -> agree m1 m2) as Hag.
  { rewrite Hid. intros m1 m2 ? ? ? ?. apply (o_agree _ _ (v_out _ _ ni_vote0)); by right. }
  unfold OpenNode. rewrite Hopen. unfold recovery_of.
  exists items. set (st := state_of items) in *. pose proof (restored_inv cfg draws r0 st items s'
    Hnew Hidu eq_refl Hok Hs' Hbal Hag) as Hni. unfold restored in *.
  destruct st as [[hs l] snap]. cbn [res_bind d_hs d_log d_snap fst snd] in *. rewrite Hnew.
  cbn [res_bind]. destruct (0 <? _); eexists _, _; split_and!; done.
Qed.

End Life.

(** ** Growing networks *)

Lemma vote_inv_grow (net net' : Message.t -> Prop) r :
  (forall m, net m -> net' m) ->
  (forall m, net' m -> Message.From m = id r -> own net r m) ->
  vote_inv net r -> vote_inv net' r.
Proof.
  intros Hsub Hown []. constructor; try done.
  - intros Hc j Hj. destruct (v_votes Hc j Hj) as [? | (m & ? & ?)]; [by left | right].
    exists m. auto.
  - destruct v_out as [Hm Hn Ha].
    assert (forall m, own net' r m -> own net r m) as Hown'.
    { intros m [? | [? ?]]; [by left | auto]. }
    constructor.
    + eapply Forall_impl; [exact Hm |]. intros m (? & ? & Hg). split_and!; try done.
      intros Hgr. destruct (Hg Hgr) as (q & ? & ?). exists q. auto.
    + intros m Hm' Hf. apply (own_ok net); [by constructor | auto].
    + intros m1 m2 H1 H2. apply Ha; auto.
Qed.

Lemma node_grow (net net' : Message.t -> Prop) d t n :
  (forall m, net m -> net' m) ->
  (forall m, net' m -> Message.From m = id (n_r n) -> net m) ->
  node_inv net d t n -> node_inv net' d t n.
Proof.
  intros Hsub Hback []. constructor; try done.
  - apply (vote_inv_grow net); [done | | done]. intros m Hm Hf. right. auto.
  - auto.
Qed.

(** The messages a successful [Persist] releases join the network. *)
Lemma node_release (net net' : Message.t -> Prop) d t n env n' ms rs sn :
  node_inv net d t n -> tmp_left env = [] -> Persist env n = (n', Ok (ms, rs, sn)) ->
  (forall m, net m -> net' m) ->
  (forall m, net' m -> net m \/ m ∈ ms) ->
  ms = msgs (n_r n) /\ n_r n' = Advance (n_r n) /\ stable_hard (n_r n') = hard (n_r n) /\
  exists items, saved n' (n_r n) items /\ node_inv net' items items n'.
Proof.
  intros Hn Ht Hp Hsub Hback. pose proof Hn as [].
  destruct (Persist_spec net _ _ _ _ _ _ Hn Ht Hp) as (-> & _ & HA & items & Hsv & _).
  split_and!; [done | done | rewrite HA; unfold Advance; by destruct (_ <=? _) |].
  exists items. split; [done |]. destruct n' as [r' s']. simpl in HA. subst r'.
  apply (node_advance net' n); [done | | done].
  apply (vote_inv_grow net); [done | | done]. intros m Hm Hf.
  destruct (Hback m Hm); [by right | by left].
Qed.

(** ** The life of a node *)

Section Run.
Context (cfg : Config.t) (p : string) (net : Message.t -> Prop).

(** Inputs within the bounds of the format; messages from the network. *)
Definition admissible (r : Raft) (o : op) : Prop :=
  match o with
  | OStep m => net m
  | OPropose datas =>
      lastLogIndex r + len datas < maxIndex /\ Forall (fun d => len d < dataMax) datas
  | OSnapshot _ data => len data < dataMax
  | OAdvance => False
  | _ => True
  end.

(** One step, with the messages it releases.  [Persist] may fail in any of its
    file operations; a crash keeps the fsynced bytes and any prefix of the
    others. *)
Inductive nstep : Node -> Node -> list Message.t -> Prop :=
  | ns_op n o r' :
      currentTerm (n_r n) < maxTerm -> admissible (n_r n) o -> exec (n_r n) o = Ok r' ->
      nstep n {| n_r := r'; n_storage := n_storage n |} []
  | ns_persist n env n' ms rs sn :
      tmp_left env = [] -> Persist env n = (n', Ok (ms, rs, sn)) -> nstep n n' ms
  | ns_persist_fail n env n' e :
      tmp_left env = [] -> Persist env n = (n', Err e) -> nstep n n' []
  | ns_crash n k faults draws n' snap :
      OpenNode cfg p (Some (Replay.healthy (Durability.crash_image (disk (n_storage n)) k)))
        true faults draws = Ok (n', snap) ->
      nstep n n' [].

Context (net_good : forall m, net m -> good m /\ Message.From m <> 0).

Lemma admissible_ok r o :
  admissible r o -> op_ok r o /\ op_wf o /\ (forall m, o = OStep m -> net m).
Proof.
  destruct o; simpl; try done.
  - intros Hm. destruct (net_good m Hm) as [[] _]. split_and!; try done. by intros ? [= <-].
  - intros [? ?]. by split_and!.
Qed.

(** The stable hard state only moves up: it is below everything a crash can
    restore. *)
Lemma nstep_inv d t n n' ms :
  Config.ID cfg = id (n_r n) -> Config.Peers cfg = peers (n_r n) ->
  node_inv net d t n -> nstep n n' ms ->
  (exists d' t', node_inv net d' t' n') /\
  id (n_r n') = id (n_r n) /\ peers (n_r n') = peers (n_r n) /\
  hard_le (stable_hard (n_r n)) (stable_hard (n_r n')).
Proof.
  intros Hid Hpe Hn Hs. destruct Hs as [n o r' Hmax Hadm Hrun | n env n' ms rs sn Ht Hp
    | n env n' e Ht Hp | n k faults draws n' snap Hopen].
  - destruct (admissible_ok _ _ Hadm) as (Hok & Hwf & Hnet).
    destruct (node_exec net (fun m Hm => proj2 (net_good m Hm)) _ _ _ _ _ Hn Hmax Hok Hwf Hnet Hrun)
      as [Hn' (Hi & Hpe' & _)]. simpl. split_and!; [eauto | done | done |].
    rewrite (r_hard _ _ (exec_srel _ _ _ (sd_inv _ (ni_send _ _ _ _ Hn)) Hok Hwf Hrun)). done.
  - pose proof (ni_stable _ _ _ _ Hn) as Hle.
    apply (Persist_spec net _ _ _ _ _ _ Hn Ht) in Hp as (_ & _ & HA & items & _ & Hni).
    split; [eauto |]. rewrite HA. unfold Advance. by destruct (_ <=? _).
  - apply (Persist_spec net _ _ _ _ _ _ Hn Ht) in Hp as (HA & d' & t' & Hni & _).
    rewrite HA. split_and!; try done. eauto.
  - assert (exists r0, New cfg draws = Ok r0) as [r0 Hnew].
    { unfold OpenNode in Hopen. destruct (OpenStorage _ _ _ _) as [[? [[? ?] ?]]| |]; [| done..].
      cbn [res_bind] in Hopen. destruct (New cfg draws); [eauto | done..]. }
    destruct (OpenNode_crash net _ _ _ cfg p k faults draws r0 Hn Hnew Hid)
      as (items & n'' & snap' & Ho & _ & _ & Hr & (Hro & Hlo & _) & Hni).
    rewrite Ho in Hopen. injection Hopen as <- _. rewrite Hr.
    destruct (restored_fields cfg draws r0 _ Hnew Hro) as (Hi & Hp & _ & _ & _ & Hsh & _).
    rewrite Hi, Hp, Hsh, Hid, Hpe. split_and!; [| done | done | done]. eauto.
Qed.

(** A node that starts without a file. *)
Lemma node_start faults draws n snap :
  is_u64 (Config.ID cfg) -> (forall m, net m -> Message.From m <> Config.ID cfg) ->
  OpenNode cfg p None true faults draws = Ok (n, snap) ->
  node_inv net [] [] n /\ id (n_r n) = Config.ID cfg /\ peers (n_r n) = Config.Peers cfg /\
  role (n_r n) = Follower /\ hard (n_r n) = HardState.mk 0 0.
Proof.
  intros Hid Hnet. unfold OpenNode, OpenStorage. simpl. intros H. bind_ok H r0 Hnew.
  injection H as <- _. set (s := {| w := _ |}).
  assert (rec_ok (state_of [])) as Hro.
  { constructor; unfold maxIndex, hard_wf, is_u64; simpl; try done. }
  assert (node_inv net [] [] {| n_r := restored r0 (state_of []); n_storage := s |}) as Hn.
  { eapply restored_inv; try done; [| by intros m Hm ?%Hnet | by intros m1 m2 ? ? ?%Hnet].
    refine (sinv_ext _ _ _ s _ _ (sinv_open p faults)); done. }
  pose proof (restored_fields cfg draws r0 _ Hnew Hro) as (Hi & Hp & Hrl & _ & Hh & _).
  split_and!; try done.
Qed.

(** Everything a node can go through, from its first start on. *)
Inductive life : Node -> Prop :=
  | life_start faults draws n snap :
      OpenNode cfg p None true faults draws = Ok (n, snap) -> life n
  | life_step n n' ms : life n -> nstep n n' ms -> life n'.

End Run.

(** ** Properties of a node with its disk *)

(** Any well-formed message that another node may send. *)
Definition from_others (cfg : Config.t) (m : Message.t) : Prop :=
  good m /\ Message.From m <> 0 /\ Message.From m <> Config.ID cfg.

Lemma New_any cfg draws draws' r :
  New cfg draws = Ok r -> exists r', New cfg draws' = Ok r'.
Proof. unfold New. destruct (Config.validate cfg); [done | eauto]. Qed.

Lemma life_inv cfg p n :
  is_u64 (Config.ID cfg) -> life cfg p (from_others cfg) n ->
  (exists d t, node_inv (from_others cfg) d t n) /\ (exists draws r, New cfg draws = Ok r) /\
  Config.ID cfg = id (n_r n) /\ Config.Peers cfg = peers (n_r n).
Proof.
  intros Hid. induction 1 as [faults draws n snap Hopen | n n' ms _ IH Hstep].
  - assert (exists r, New cfg draws = Ok r).
    { unfold OpenNode, OpenStorage in Hopen. simpl in Hopen. bind_ok Hopen r0 Hnew. eauto. }
    apply node_start with (net := from_others cfg) in Hopen as (Hn & Hi & Hp & _); [| done |].
    + split_and!; eauto.
    + by intros m (_ & _ & ?).
  - destruct IH as ((d & t & Hn) & Hnew & Hi & Hp).
    destruct (nstep_inv cfg p (from_others cfg) (fun m Hm => conj (proj1 Hm) (proj1 (proj2 Hm)))
      d t n n' ms Hi Hp Hn Hstep) as (? & Hi' & Hp' & _).
    split_and!; [done | done | congruence | congruence].
Qed.

(** C12: recovery restores exactly what was persisted.  Take a node at any
    point of its life (any messages, proposals, snapshots, failed saves and
    earlier crashes).  When its [Persist], which finds no left-over temporary
    file that it could not remove, reports success, then after a crash,
    whatever prefix of the unsynced bytes the disk kept, [OpenNode] succeeds and
    the restarted node has the same term, vote, log and snapshot, and
    satisfies the log invariant. *)
Theorem persisted_state_recovers cfg p n env n' out k faults draws :
  is_u64 (Config.ID cfg) -> life cfg p (from_others cfg) n ->
  tmp_left env = [] -> Persist env n = (n', Ok out) ->
  exists n'' snap,
    OpenNode cfg p (Some (Replay.healthy (Durability.crash_image (disk (n_storage n')) k)))
      true faults draws = Ok (n'', snap) /\
    currentTerm (n_r n'') = currentTerm (n_r n) /\ votedFor (n_r n'') = votedFor (n_r n) /\
    log (n_r n'') = log (n_r n) /\ snapshot (n_r n'') = snapshot (n_r n) /\
    inv (n_r n'').
Proof.
  intros Hid Hlife Ht Hp.
  destruct (life_inv cfg p n Hid Hlife) as ((d & t & Hn) & (dr & r & Hnew) & Hi & _).
  destruct (New_any _ _ draws _ Hnew) as [r0 Hnew0].
  destruct out as [[ms rs] sn].
  apply (Persist_spec _ _ _ _ _ _ _ Hn Ht) in Hp as (_ & _ & HA & items & [Hst Hstate] & Hni).
  assert (Config.ID cfg = id (n_r n')) as Hi'
    by (rewrite HA, Hi; unfold Advance; by destruct (_ <=? _)).
  destruct (OpenNode_crash _ _ _ _ cfg p k faults draws r0 Hni Hnew0 Hi')
    as (l & n'' & snap & Ho & Hd & Hl & Hr & (Hro & _) & Hni').
  rewrite (anti_symm prefix l items Hl Hd), Hstate in *.
  exists n'', snap. split; [done |]. pose proof (sd_inv _ (ni_send _ _ _ _ Hni')) as Hinv.
  pose proof (sd_wf _ (ni_send _ _ _ _ Hn)) as Hw.
  destruct (restored_fields cfg draws r0 _ Hnew0 Hro)
    as (_ & _ & _ & _ & Hh & _ & Hlg & Hsn & _). rewrite <- Hr in *. simpl in Hh, Hlg, Hsn.
  unfold hard in Hh. injection Hh as Hct Hvf. split_and!; try done.
  rewrite Hlg. pose proof (w_head _ Hw). destruct (log (n_r n)); [done |]. simpl in *. congruence.
Qed.

(** A crash at any point is recoverable.  Wherever in its life a node
    crashes, in the middle of a save or with operations not saved yet,
    [OpenNode] succeeds on what the disk kept; the restarted node satisfies
    the log invariant, its term and vote are at least those last saved and at
    most those it had reached. *)
Theorem crash_restart_safe cfg p n k faults draws :
  is_u64 (Config.ID cfg) -> life cfg p (from_others cfg) n ->
  exists n' snap,
    OpenNode cfg p (Some (Replay.healthy (Durability.crash_image (disk (n_storage n)) k)))
      true faults draws = Ok (n', snap) /\
    inv (n_r n') /\
    hard_le (stable_hard (n_r n)) (hard (n_r n')) /\ hard_le (hard (n_r n')) (hard (n_r n)).
Proof.
  intros Hid Hlife.
  destruct (life_inv cfg p n Hid Hlife) as ((d & t & Hn) & (dr & r & Hnew) & Hi & _).
  destruct (New_any _ _ draws _ Hnew) as [r0 Hnew0].
  destruct (OpenNode_crash _ _ _ _ cfg p k faults draws r0 Hn Hnew0 Hi)
    as (l & n' & snap & Ho & _ & _ & Hr & (Hro & Hlo & Hhi) & Hni).
  exists n', snap. split; [done |].
  destruct (restored_fields cfg draws r0 _ Hnew0 Hro) as (_ & _ & _ & _ & Hh & _).
  rewrite <- Hr in Hh. rewrite Hh. split_and!; [| done | done].
  apply (sd_inv _ (ni_send _ _ _ _ Hni)).
Qed.

(** A concrete life: node 2 starts, receives two entries, saves them. *)
Definition sample_env : compaction_env :=
  {| tmp_left := []; tmp_opens := true; tmp_faults := []; rename_ok := true;
     reopens := true; new_faults := [] |}.
Definition sample_start : Node :=
  match OpenNode (sample_config 2) "raft.log" None true [] [] with
  | Ok (n, _) => n
  | _ => {| n_r := sample_node 2; n_storage := tmp_store (Appender.Open "" true
             {| Appender.synced := []; Appender.cached := []; Appender.script := [] |}) |}
  end.
Definition sample_received : Node :=
  match Step (n_r sample_start) sample_append with
  | Ok r => {| n_r := r; n_storage := n_storage sample_start |}
  | _ => sample_start
  end.

Lemma sample_append_good : from_others (sample_config 2) sample_append.
Proof.
  split_and!; [split | by vm_compute | by vm_compute].
  - unfold wire_ok, maxIndex, len; simpl. split_and!; try done. right. lia.
  - constructor; [| | repeat (apply Forall_cons; split); [| | apply Forall_nil] | apply zero_wf];
      unfold entry_wf, dataMax, len, is_u64; simpl; lia.
Qed.

Lemma sample_start_ok :
  OpenNode (sample_config 2) "raft.log" None true [] [] = Ok (sample_start, None).
Proof. vm_compute. reflexivity. Qed.
Lemma sample_received_ok :
  sample_received = {| n_r := n_r sample_received; n_storage := n_storage sample_start |} /\
  exec (n_r sample_start) (OStep sample_append) = Ok (n_r sample_received) /\
  currentTerm (n_r sample_start) < maxTerm.
Proof. vm_compute. done. Qed.

Lemma sample_life : life (sample_config 2) "raft.log" (from_others (sample_config 2)) sample_received.
Proof.
  destruct sample_received_ok as (Heq & Hrun & Hmax). rewrite Heq. clear Heq.
  eapply life_step; [exact (life_start _ _ _ _ _ _ _ sample_start_ok) |].
  apply (ns_op _ _ _ sample_start (OStep sample_append));
    [exact Hmax | exact sample_append_good | exact Hrun].
Qed.

Lemma persisted_state_recovers_witness :
  exists n'' snap,
    OpenNode (sample_config 2) "raft.log" (Some (Replay.healthy (Durability.crash_image
      (disk (n_storage (fst (Persist sample_env sample_received)))) 0))) true [] []
      = Ok (n'', snap) /\
    currentTerm (n_r n'') = 1 /\ votedFor (n_r n'') = 0 /\
    log (n_r n'') = log (n_r sample_received) /\
    snapshot (n_r n'') = Snapshot.zero /\ inv (n_r n'').
Proof.
  eapply (persisted_state_recovers (sample_config 2) "raft.log" sample_received sample_env).
  - by vm_compute.
  - exact sample_life.
  - reflexivity.
  - vm_compute. reflexivity.
Defined.

Lemma crash_restart_safe_witness :
  exists n' snap,
    OpenNode (sample_config 2) "raft.log" (Some (Replay.healthy (Durability.crash_image
      (disk (n_storage sample_received)) 0))) true [] [] = Ok (n', snap) /\
    inv (n_r n') /\
    hard_le (stable_hard (n_r sample_received)) (hard (n_r n')) /\
    hard_le (hard (n_r n')) (hard (n_r sample_received)).
Proof.
  apply crash_restart_safe.
  - by vm_compute.
  - exact sample_life.
Defined.
