(* ===== verification/RaftProps.v ===== *)
(** * Raft: what each operation does

    The functional contracts of the operations of src/raft/raft.go, proved
    from the log invariant: the commit rule, log replication at the follower,
    voting, proposals, read confirmation, compaction and the Ready/Advance
    handshake. *)

From Stdlib Require Import Strings.Byte.
From S2P Require Import Prelude GoBytes Wal RaftTypes Raft RaftLog RaftInv RaftStorage RaftStable RaftSend RaftVote RaftNode.

(** ** Commit *)

(** Some peers, each known to hold the log up to [n], are together with the
    leader more than half of the cluster. *)
Definition on_majority (r : Raft) (n : Z) : Prop :=
  exists Q, Q `sublist_of` peers r /\ Forall (fun p => exists i, matchIndex r !! p = Some i /\ n <= i) Q /\
    len (peers r) + 1 < 2 * (1 + len Q).

(** An index a leader may commit: an entry of its own term on a majority. *)
Definition committable (r : Raft) (n : Z) : Prop :=
  (exists e, entry_at r n = Some e /\ LogEntry.Term e = currentTerm r) /\ on_majority r n.

(** What the loop tests. *)
Definition commit_test (r : Raft) (n : Z) : bool :=
  (termAt r n =? currentTerm r) && hasMajorityCount r (replicated r n).

Lemma filter_sublist {A} (P : A -> Prop) `{!forall x, Decision (P x)} (l k : list A) :
  l `sublist_of` k -> filter P l `sublist_of` filter P k.
Proof.
  induction 1 as [|x l k Hs IH|x l k Hs IH]; [done | |]; rewrite !filter_cons; destruct (decide (P x)); by try constructor.
Qed.

Lemma majority_test r n : 0 < n -> hasMajorityCount r (replicated r n) = true <-> on_majority r n.
Proof.
  intros Hn. unfold hasMajorityCount, replicated, clusterSize, on_majority.
  assert (forall p, n <= get0 (matchIndex r) p <-> exists i, matchIndex r !! p = Some i /\ n <= i) as Hiff.
  { intros p. unfold get0. destruct (matchIndex r !! p) as [i|]; simpl; [naive_solver | split; [lia | by intros (i & ? & _)]]. }
  set (Q := filter (fun p => n <= get0 (matchIndex r) p) (peers r)).
  assert (forall b, (b / 2 + 1 <=? 1 + len Q) = true <-> b < 2 * (1 + len Q)) as Hhalf.
  { intros b. rewrite Z.leb_le. pose proof (Z.div_mod b 2). pose proof (Z.mod_pos_bound b 2). lia. }
  rewrite Hhalf. split.
  - intros H. exists Q. split_and!; [apply sublist_filter | | done]. apply Forall_forall. intros p Hp. apply Hiff.
    by apply list_elem_of_filter in Hp as [? _].
  - intros (Q' & Hs & Hall & H). assert (len Q' <= len Q) as Hle; [| lia].
    assert (filter (fun p => n <= get0 (matchIndex r) p) Q' = Q') as Hid.
    { apply filter_id. eapply Forall_impl; [exact Hall |]. intros p. apply Hiff. }
    unfold len. rewrite <- Hid. by apply inj_le, sublist_length, filter_sublist.
Qed.

Lemma commit_test_spec r n : inv r -> commitIndex r < n <= lastLogIndex r -> commit_test r n = true <-> committable r n.
Proof.
  intros H Hn. pose proof (inv_first r H). pose proof (inv_commit r H). unfold commit_test, committable.
  rewrite andb_true_iff, Z.eqb_eq, majority_test by lia. destruct (entry_at_some r n H ltac:(lia)) as (e & He & _).
  rewrite (termAt_entry r n e H He). naive_solver.
Qed.

Lemma advance_loop_spec fuel : forall r n,
  (Z.to_nat (n - commitIndex r) <= fuel)%nat ->
  let c := commitIndex (advance_loop fuel r n) in
  (forall k, Z.max c (commitIndex r) < k <= n -> commit_test r k = false) /\
  (c = commitIndex r \/ (commitIndex r < c <= n /\ commit_test r c = true)).
Proof.
  induction fuel as [|fuel IH]; intros r n Hf; cbn [advance_loop].
  { split; [intros; lia | by left]. }
  destruct (Z.ltb_spec (commitIndex r) n); [| split; [intros; lia | by left]].
  destruct (IH r (n - 1) ltac:(lia)) as [Hno Hc].
  assert (commit_test r n = false ->
    (forall k, Z.max (commitIndex (advance_loop fuel r (n - 1))) (commitIndex r) < k <= n ->
       commit_test r k = false) /\
    (commitIndex (advance_loop fuel r (n - 1)) = commitIndex r \/
     (commitIndex r < commitIndex (advance_loop fuel r (n - 1)) <= n /\
      commit_test r (commitIndex (advance_loop fuel r (n - 1))) = true))) as Hskip.
  { intros Hn. split.
    - intros k Hk. destruct (Z.eq_dec k n) as [-> |]; [done | apply Hno; lia].
    - destruct Hc as [? | [? ?]]; [by left | right; split; [lia | done]]. }
  destruct (termAt r n =? currentTerm r) eqn:Ht; simpl negb; cbv iota.
  - destruct (hasMajorityCount r (replicated r n)) eqn:Hm.
    + simpl. split; [intros; lia |]. right. split; [lia |]. unfold commit_test. by rewrite Ht, Hm.
    + apply Hskip. unfold commit_test. by rewrite Ht, Hm.
  - apply Hskip. unfold commit_test. by rewrite Ht.
Qed.

(** C24: the commit rule.  [maybeAdvanceCommitIndex] moves the commit index to
    the greatest index above it that holds an entry of the leader's own term
    and that peers which are, with the leader, more than half of the cluster are
    known to hold, and leaves everything else as it was; when there is none it
    changes nothing.  In particular an entry of an earlier term is never
    committed by counting its replicas. *)
Theorem commit_rule r :
  inv r ->
  let r' := maybeAdvanceCommitIndex r in
  r' = set_commitIndex (commitIndex r') r /\
  (forall k, commitIndex r' < k <= lastLogIndex r -> ~ committable r k) /\
  (commitIndex r' = commitIndex r \/
   (commitIndex r < commitIndex r' <= lastLogIndex r /\ committable r (commitIndex r'))).
Proof.
  intros H r'. destruct (maybeAdvance_frame r) as [Heq Hle]. fold r' in Heq, Hle.
  destruct (advance_loop_spec (Z.to_nat (lastLogIndex r - commitIndex r)) r (lastLogIndex r)
    ltac:(lia)) as [Hno Hc].
  fold (maybeAdvanceCommitIndex r) in Hno, Hc. fold r' in Hno, Hc.
  split_and!; [done | |].
  - intros k Hk Hcm. apply (commit_test_spec r k H) in Hcm; [| lia]. by rewrite Hno in Hcm by lia.
  - destruct Hc as [? | [? Hc]]; [by left | right]. split; [done |]. by apply commit_test_spec.
Qed.

(** A leader of three, elected in term 1, with an entry of its own that one
    follower has stored: it is committed. *)
Definition sample_leading : Raft :=
  set_matchIndex {[2 := 1]} (set_currentTerm 1 (set_role Leader (set_log [LogEntry.mk 0 0 []; LogEntry.mk 1 1 [x61]] (sample_node 1)))).

Lemma commit_rule_witness :
  peers sample_leading = [2; 3] /\ commitIndex (maybeAdvanceCommitIndex sample_leading) = 1 /\ committable sample_leading 1.
Proof.
  assert (inv sample_leading) as H by (constructor; vm_compute; try done; repeat split; congruence).
  destruct (commit_rule sample_leading H) as (_ & _ & Hc).
  assert (commitIndex (maybeAdvanceCommitIndex sample_leading) = 1) as Hi by (vm_compute; reflexivity). rewrite Hi in Hc.
  split_and!; [vm_compute; reflexivity | exact Hi |]. destruct Hc as [Hc | [_ Hc]]; [vm_compute in Hc; discriminate Hc | exact Hc].
Defined.

(** ** Replication at the follower *)

(** What [handleAppendEntries] makes of the follower's log once the entry at
    [PrevLogIndex] matches: everything up to there, then the merge of what
    follows with the leader's entries. *)
Definition replicate (l es : list LogEntry.t) (first prev : Z) : list LogEntry.t :=
  let n := Z.to_nat (prev - first + 1) in
  take n l ++ merge (drop n l) es.

(** The follower's answer. *)
Definition answer (r : Raft) (m : Message.t) (ok : bool) (mi : Z) : Message.t :=
  Message.stamp (id r) (Message.Term m)
    (Message.append_response (Message.From m) ok mi (Message.ReadContext m)).

Lemma adopt_leader_fields m r :
  currentTerm r <= Message.Term m ->
  msgs (adopt_leader m r) = msgs r /\ id (adopt_leader m r) = id r /\
  currentTerm (adopt_leader m r) = Message.Term m /\ role (adopt_leader m r) = Follower /\
  leaderID (adopt_leader m r) = Message.From m /\
  commitIndex (adopt_leader m r) = commitIndex r /\
  unstableIndex (adopt_leader m r) = unstableIndex r.
Proof.
  intros Ht. unfold adopt_leader, becomeFollower. rewrite resetElectionTimeout_frame. simpl.
  destruct (Z.ltb_spec (currentTerm r) (Message.Term m)); simpl; split_and!; done || lia.
Qed.

(** The state after an append whose [PrevLogIndex] matched. *)
Definition accepted (r : Raft) (m : Message.t) (r' : Raft) : Prop :=
  let prev := Message.PrevLogIndex m in
  let es := Message.Entries m in
  log r' = replicate (log r) es (firstLogIndex r) prev /\
  unstableIndex r' =
    lower_unstable (conflict (prev + 1) (drop (Z.to_nat (prev - firstLogIndex r + 1)) (log r)) es)
      (unstableIndex r) /\
  commitIndex r' = (if commitIndex r <? Message.LeaderCommit m
                    then Z.min (Message.LeaderCommit m) (lastLogIndex r') else commitIndex r) /\
  msgs r' = msgs r ++ [answer r m true (prev + len es)].

(** The state after one whose [PrevLogIndex] did not. *)
Definition refused (r : Raft) (m : Message.t) (r' : Raft) : Prop :=
  log r' = log r /\ unstableIndex r' = unstableIndex r /\ commitIndex r' = commitIndex r /\
  msgs r' = msgs r ++ [answer r m false 0].

Lemma termAt_adopt m r i : termAt (adopt_leader m r) i = termAt r i.
Proof.
  unfold termAt, logPos. by rewrite first_adopt_leader, last_adopt_leader, log_adopt_leader.
Qed.

Lemma handleAppendEntries_spec r m :
  inv r -> wire_ok m -> fresh r m -> Message.Type_ m = MsgAppendEntries ->
  currentTerm r <= Message.Term m ->
  exists r', handleAppendEntries r m = Ok r' /\ role r' = Follower /\
    currentTerm r' = Message.Term m /\ leaderID r' = Message.From m /\
    if (Message.PrevLogIndex m <=? lastLogIndex r)
       && (termAt r (Message.PrevLogIndex m) =? Message.PrevLogTerm m)
    then accepted r m r' else refused r m r'.
Proof.
  intros H Hm Hf Hty Hterm. specialize (Hf Hty). unfold wire_ok in Hm. rewrite Hty in Hm.
  destruct Hm as (Hp & Hc & Hb). pose proof (inv_adopt_leader m r H) as H1.
  destruct (adopt_leader_fields m r Hterm) as (Hmsgs & Hid & Hct & Hro & Hld & Hco & Hun).
  unfold handleAppendEntries. fold (adopt_leader m r). cbv zeta.
  rewrite (proj2 (Z.ltb_ge (Message.Term m) _)) by lia.
  rewrite last_adopt_leader, termAt_adopt, Z.leb_antisym.
  set (r1 := adopt_leader m r) in *.
  assert (log r1 = log r /\ firstLogIndex r1 = firstLogIndex r /\ lastLogIndex r1 = lastLogIndex r)
    as (Hlog & Hf1 & Hl1)
    by (split_and!; [apply log_adopt_leader | apply first_adopt_leader | apply last_adopt_leader]).
  clearbody r1.
  destruct (Z.ltb_spec (lastLogIndex r) (Message.PrevLogIndex m)) as [Hlt|Hge]; simpl negb; cbv iota.
  { eexists. split; [done |]. unfold refused, answer. simpl. rewrite Hmsgs, Hid, Hct. by split_and!. }
  destruct (termAt r (Message.PrevLogIndex m) =? Message.PrevLogTerm m); simpl negb; simpl andb; cbv iota.
  2: { eexists. split; [done |]. unfold refused, answer. simpl. rewrite Hmsgs, Hid, Hct. by split_and!. }
  set (prev := Message.PrevLogIndex m) in *. set (n := Z.to_nat (prev - firstLogIndex r + 1)).
  pose proof (last_first _ H1) as Hl. rewrite Hf1, Hlog in Hl. rewrite <- Hl1 in Hge.
  assert (len (take n (log r)) = prev - firstLogIndex r + 1) as Hpre
    by (unfold len in *; rewrite length_take; lia).
  pose proof (wire_bound r1 prev _ H1 Hb ltac:(lia)) as Hbound.
  destruct (append_loop_ok (Message.Entries m) r1 prev 0 (take n (log r)) (drop n (log r)))
    as (-> & Hi2 & _); try done.
  { by rewrite take_drop. }
  { intros E. rewrite E in Hpre. len_lia. }
  { rewrite Hf1. lia. }
  { by rewrite Z.add_0_r. }
  cbn [res_bind]. set (r2 := set_tail _ _ _) in *.
  assert (commitIndex r2 = commitIndex r /\ msgs r2 = msgs r /\ id r2 = id r /\
    currentTerm r2 = Message.Term m /\ role r2 = Follower /\ leaderID r2 = Message.From m /\
    log r2 = replicate (log r) (Message.Entries m) (firstLogIndex r) prev /\
    unstableIndex r2 = lower_unstable (conflict (prev + 1) (drop n (log r)) (Message.Entries m))
      (unstableIndex r)) as (Hc2 & Hm2 & Hid2 & Hct2 & Hro2 & Hld2 & Hlg2 & Hu2).
  { unfold r2, set_tail; simpl. rewrite Hun. split_and!; try done. by rewrite Z.add_0_r. }
  pose proof (len_nonneg (Message.Entries m)).
  rewrite u64_small by (unfold is_u64, maxIndex in *; lia).
  clearbody r2. eexists. split; [reflexivity |]. unfold accepted, answer. rewrite Hc2.
  fold prev n. destruct (commitIndex r <? Message.LeaderCommit m); simpl;
    rewrite ?Hc2, ?Hm2, ?Hid2, ?Hct2; split_and!; done.
Qed.

(** What an append never touches at the node that receives it. *)
Definition kept (r r' : Raft) : Prop :=
  (id r', peers r', snapshot r', pendingSnapshotToApply r', lastApplied r', stableTerm r', stableVote r', stableSnapshotIndex r',
   nextIndex r', matchIndex r', sentIndex r', votesReceived r', preVotesReceived r', pendingReads r', readStates r',
   electionTick r', heartbeatTick r', heartbeatElapsed r') =
  (id r, peers r, snapshot r, pendingSnapshotToApply r, lastApplied r, stableTerm r, stableVote r, stableSnapshotIndex r,
   nextIndex r, matchIndex r, sentIndex r, votesReceived r, preVotesReceived r, pendingReads r, readStates r,
   electionTick r, heartbeatTick r, heartbeatElapsed r).

(** The vote is forgotten with the old term, and the election timer starts
    again with a new draw. *)
Definition stands_back (r : Raft) (m : Message.t) (r' : Raft) : Prop :=
  role r' = Follower /\ currentTerm r' = Message.Term m /\ leaderID r' = Message.From m /\
  votedFor r' = (if currentTerm r <? Message.Term m then 0 else votedFor r) /\
  electionElapsed r' = 0 /\
  (randomizedElectionTimeout r', rnd r') = (let '(d, draws) := intn (rnd r) (electionTick r) in (electionTick r + d, draws)).

Lemma append_loop_frame es : forall r prev i r', append_loop r prev i es = Ok r' -> r' = set_tail (log r') (unstableIndex r') r.
Proof.
  assert (forall r idx e r', append_one r idx e = Ok r' -> r' = set_tail (log r') (unstableIndex r') r) as Hone.
  { intros r idx e r' H. unfold append_one in H. bind_ok H r2 H2. revert H. destruct (_ =? 0); [done |]. intros [= <-].
    assert (r2 = set_tail (log r2) (unstableIndex r2) r) as ->.
    { destruct (_ && _); [| injection H2 as <-; by destruct r]. bind_ok H2 l Hl. injection H2 as <-. destruct r. by destruct (_ <? _). }
    destruct r. by destruct (_ <? _). }
  induction es as [|e es IH]; intros r prev i r'; cbn [append_loop]; [intros [= <-]; by destruct r |].
  intros H. bind_ok H r1 H1. apply IH in H. apply Hone in H1. rewrite H at 1. rewrite H1 at 1. reflexivity.
Qed.

Lemma handleAppendEntries_frame r m r' :
  currentTerm r <= Message.Term m -> handleAppendEntries r m = Ok r' -> stands_back r m r' /\ kept r r'.
Proof.
  intros Hterm H. unfold handleAppendEntries in H. fold (adopt_leader m r) in H. cbv zeta in H.
  rewrite (proj2 (Z.ltb_ge (Message.Term m) _)) in H by lia.
  assert (stands_back r m (adopt_leader m r) /\ kept r (adopt_leader m r)) as Ha.
  { unfold stands_back, kept, adopt_leader, becomeFollower, resetElectionTimeout.
    destruct (Z.ltb_spec (currentTerm r) (Message.Term m)) as [Hlt|Hge]; simpl; destruct (intn _ _); simpl; split_and!; done || lia. }
  set (r1 := adopt_leader m r) in *. clearbody r1.
  assert (forall l u c ms, stands_back r m (set_msgs ms (set_commitIndex c (set_tail l u r1))) /\
    kept r (set_msgs ms (set_commitIndex c (set_tail l u r1)))) as Hset by done.
  destruct (_ <? _); [injection H as <-; by destruct r1 |]. destruct (negb _); [injection H as <-; by destruct r1 |].
  bind_ok H r2 H2. apply append_loop_frame in H2. injection H as <-. rewrite H2. destruct (_ <? _); [apply Hset |].
  exact (Hset _ (unstableIndex r2) (commitIndex r1) _).
Qed.

(** C31: replication at a node that receives an append whose entries do not
    reach behind its snapshot.  One of an older term changes nothing but the
    outbox: it is answered negatively, with the receiver's term.  Otherwise the
    node follows the sender in its term, with a new election timer, and the vote
    is kept exactly when the term is the same; when the entry at [PrevLogIndex]
    is missing or has another term, log and commit index stay as they are and
    the answer is negative; else the log becomes the reference merge (own
    entries are kept as long as terms agree, so a delayed duplicate removes
    nothing; from the first conflict on the leader's entries replace them),
    [unstableIndex] drops to the first conflict, the commit index follows the
    leader's up to the end of the log, and the answer confirms exactly
    [PrevLogIndex + len(Entries)].  Every other field stays as it was. *)
Theorem follower_replication r m :
  inv r -> wire_ok m -> fresh r m -> Message.Type_ m = MsgAppendEntries ->
  exists r', handleAppendEntries r m = Ok r' /\
    if Message.Term m <? currentTerm r
    then r' = set_msgs (msgs r ++ [Message.stamp (id r) (currentTerm r) (Message.append_response (Message.From m) false 0 0)]) r
    else stands_back r m r' /\ kept r r' /\
      if (Message.PrevLogIndex m <=? lastLogIndex r)
         && (termAt r (Message.PrevLogIndex m) =? Message.PrevLogTerm m)
      then accepted r m r' else refused r m r'.
Proof.
  intros H Hm Hf Hty. destruct (Z.ltb_spec (Message.Term m) (currentTerm r)) as [Hlt|Hge].
  - unfold handleAppendEntries. rewrite (proj2 (Z.ltb_lt _ _) Hlt). by eexists.
  - destruct (handleAppendEntries_spec r m H Hm Hf Hty Hge) as (r' & Hrun & _ & _ & _ & Hout). exists r'.
    destruct (handleAppendEntries_frame r m r' Hge Hrun). by split_and!.
Qed.

Definition sample_conflict : Message.t :=
  Message.stamp 3 2 (Message.append_request 2 1 1 [LogEntry.mk 2 2 []; LogEntry.mk 2 3 []] 2 0).
Definition sample_follower : Raft :=
  match Step (sample_node 2) sample_append with Ok r => r | _ => sample_node 2 end.

Lemma sample_follower_inv : inv sample_follower.
Proof. constructor; vm_compute; try done; repeat split; congruence. Qed.
Lemma sample_conflict_ok : wire_ok sample_conflict.
Proof. unfold wire_ok, maxIndex, len; simpl. split_and!; try done. right. lia. Qed.

(** A follower that holds two entries of term 1 receives a conflicting second
    entry of term 2: the conflict replaces it. *)
Lemma follower_replication_witness :
  exists r', handleAppendEntries sample_follower sample_conflict = Ok r' /\
    stands_back sample_follower sample_conflict r' /\ kept sample_follower r' /\ accepted sample_follower sample_conflict r'.
Proof.
  apply (follower_replication sample_follower sample_conflict).
  - exact sample_follower_inv.
  - exact sample_conflict_ok.
  - intros _. vm_compute. congruence.
  - reflexivity.
Defined.

(** The merge position by position: it holds an entry of the sent term wherever
    one was sent, and keeps everything when nothing conflicts. *)
Lemma merge_agrees l es b :
  contig b l -> contig b es ->
  contig b (merge l es) /\
  (forall i e, es !! i = Some e ->
     exists x, merge l es !! i = Some x /\ LogEntry.Term x = LogEntry.Term e) /\
  (conflict b l es = None -> l `prefix_of` merge l es) /\
  (conflict b l es <> None -> exists k, merge l es = take k l ++ drop k es /\
     conflict b l es = Some (b + Z.of_nat k) /\ (k < length l)%nat /\ (k < length es)%nat).
Proof.
  revert b es. induction l as [|x l IH]; intros b es Hl He.
  { rewrite merge_nil_l. split_and!; [done | eauto | intros _; apply prefix_nil |].
    by destruct es. }
  destruct es as [|e es]; cbn [merge conflict].
  { split_and!; [done | by intros i e Hi | done | done]. }
  destruct Hl as [Hx Hl], He as [He He'].
  destruct (IH (b + 1) es Hl He') as (Hc & Ht & Hpre & Hcon).
  destruct (Z.eqb_spec (LogEntry.Term x) (LogEntry.Term e)) as [Heq|Hne]; simpl.
  - split_and!; try done.
    + intros [|i] e' Hi; simpl in *; [injection Hi as <-; eauto | eauto].
    + intros Hn. by apply prefix_cons, Hpre.
    + intros Hn. destruct (Hcon Hn) as (k & Hk & Hci & ? & ?). exists (S k). simpl.
      rewrite Hk, Hci. split_and!; [done | f_equal; lia | lia | lia].
  - split_and!; try done.
    + intros i e' Hi. simpl. eauto.
    + intros _. exists 0%nat. simpl. split_and!; [done | f_equal; lia | lia | lia].
Qed.

Lemma conflict_none b l es :
  (forall i x e, l !! i = Some x -> es !! i = Some e -> LogEntry.Term x = LogEntry.Term e) ->
  conflict b l es = None.
Proof.
  revert b es. induction l as [|x l IH]; intros b es H; [by destruct es |].
  destruct es as [|e es]; [done |]. cbn [conflict].
  rewrite (proj2 (Z.eqb_eq _ _)) by (by apply (H 0%nat)). apply IH.
  intros i y f Hy Hf. by apply (H (S i)).
Qed.

(** What an accepted append establishes.  Afterwards the follower holds,
    at the index of every entry the leader sent, an entry of that entry's
    term; the entries up to [PrevLogIndex] are the old ones; and when no sent
    entry conflicts with one the follower has, nothing is removed, so that
    late or repeated appends cannot undo newer ones. *)
Theorem accepted_append_matches r m r' :
  inv r -> wire_ok m -> fresh r m -> Message.Type_ m = MsgAppendEntries ->
  currentTerm r <= Message.Term m ->
  Message.PrevLogIndex m <= lastLogIndex r ->
  termAt r (Message.PrevLogIndex m) = Message.PrevLogTerm m ->
  handleAppendEntries r m = Ok r' ->
  (forall i e, Message.Entries m !! i = Some e ->
     termAt r' (Message.PrevLogIndex m + 1 + Z.of_nat i) = LogEntry.Term e) /\
  (forall k, firstLogIndex r <= k <= Message.PrevLogIndex m -> entry_at r' k = entry_at r k) /\
  ((forall i e, Message.Entries m !! i = Some e ->
      Message.PrevLogIndex m + 1 + Z.of_nat i <= lastLogIndex r ->
      termAt r (Message.PrevLogIndex m + 1 + Z.of_nat i) = LogEntry.Term e) ->
   log r `prefix_of` log r').
Proof.
  intros H Hm Hf Hty Hterm Hprev Hpt Hrun.
  destruct (handleAppendEntries_spec r m H Hm Hf Hty Hterm) as (r2 & Hrun2 & _ & _ & _ & Hacc).
  rewrite Hrun in Hrun2. injection Hrun2 as <-.
  rewrite (proj2 (Z.leb_le _ _)), (proj2 (Z.eqb_eq _ _)) in Hacc by done. simpl in Hacc.
  destruct Hacc as (Hlog & _). pose proof (handleAppendEntries_inv r m r' H Hm Hty Hrun) as Hi'.
  specialize (Hf Hty). unfold wire_ok in Hm. rewrite Hty in Hm. destruct Hm as (Hp & Hc & _).
  set (prev := Message.PrevLogIndex m) in *. set (es := Message.Entries m) in *.
  set (n := Z.to_nat (prev - firstLogIndex r + 1)). unfold replicate in Hlog. fold n in Hlog.
  pose proof (last_first r H) as Hl.
  assert (length (take n (log r)) = n) as Hn by (rewrite length_take; unfold len in *; lia).
  assert (firstLogIndex r' = firstLogIndex r) as Hfirst.
  { assert (0 < n)%nat as Hn0 by lia. clearbody n. unfold firstLogIndex. rewrite Hlog.
    pose proof (inv_nonempty r H). destruct (log r); [done |]. by destruct n; [lia |]. }
  assert (contig (prev + 1) (drop n (log r))) as Hcd.
  { pose proof (contig_drop _ (log r) n ltac:(unfold len in *; lia) (inv_contig r H)) as Hcd.
    by replace (firstLogIndex r + Z.of_nat n) with (prev + 1) in Hcd by lia. }
  destruct (merge_agrees _ _ _ Hcd Hc) as (_ & Hmatch & Hkeep & _).
  split_and!.
  - intros i e Hi. destruct (Hmatch i e Hi) as (x & Hx & <-). apply termAt_entry; [done |].
    unfold entry_at. rewrite Hfirst, (proj2 (Z.ltb_ge _ _)) by lia. rewrite Hlog.
    rewrite lookup_app_r by lia. rewrite Hn. rewrite <- Hx. f_equal. lia.
  - intros k Hk. unfold entry_at. rewrite Hfirst, Hlog.
    destruct (_ <? _); [done |]. rewrite lookup_app_l by lia. by rewrite lookup_take_lt by lia.
  - intros Hno. rewrite Hlog. rewrite <- (take_drop n (log r)) at 1. apply prefix_app, Hkeep.
    apply conflict_none. intros i x e Hx He. rewrite lookup_drop in Hx.
    apply lookup_lt_Some in Hx as Hlt. rewrite <- (Hno i e He) by (unfold len in *; lia).
    symmetry. apply termAt_entry; [done |]. unfold entry_at.
    rewrite (proj2 (Z.ltb_ge _ _)) by lia. rewrite <- Hx. f_equal. lia.
Qed.

Lemma accepted_append_matches_witness :
  exists r', handleAppendEntries sample_follower sample_conflict = Ok r' /\
  (forall i e, Message.Entries sample_conflict !! i = Some e ->
     termAt r' (1 + 1 + Z.of_nat i) = LogEntry.Term e) /\
  (forall k, firstLogIndex sample_follower <= k <= 1 -> entry_at r' k = entry_at sample_follower k) /\
  ((forall i e, Message.Entries sample_conflict !! i = Some e ->
      1 + 1 + Z.of_nat i <= lastLogIndex sample_follower ->
      termAt sample_follower (1 + 1 + Z.of_nat i) = LogEntry.Term e) ->
   log sample_follower `prefix_of` log r').
Proof.
  eexists. split; [vm_compute; reflexivity |].
  apply (accepted_append_matches sample_follower sample_conflict).
  - exact sample_follower_inv.
  - exact sample_conflict_ok.
  - intros _. vm_compute. congruence.
  - reflexivity.
  - vm_compute. congruence.
  - vm_compute. congruence.
  - reflexivity.
  - vm_compute. reflexivity.
Defined.

(** ** Voting *)

(** The vote decision.  [handleRequestVote] first adopts a newer term
    (giving up any role and forgetting the vote of the old term); it grants
    the vote exactly when the request is not of an older term, no other
    candidate has this term's vote, and the candidate's log is at least as up
    to date as the voter's; the log, the commit index and everything durable
    about entries stay untouched, and exactly one answer is queued. *)
Theorem vote_decision r m :
  let newer := currentTerm r <? Message.Term m in
  let term := if newer then Message.Term m else currentTerm r in
  let vote := if newer then 0 else votedFor r in
  let grant := (currentTerm r <=? Message.Term m) &&
               ((vote =? 0) || (vote =? Message.From m)) && log_up_to_date r m in
  let r' := handleRequestVote r m in
  currentTerm r' = term /\ votedFor r' = (if grant then Message.From m else vote) /\
  role r' = (if newer then Follower else role r) /\ log_view r' = log_view r /\
  msgs r' = msgs r ++ [Message.stamp (id r) term
              (Message.vote_response MsgRequestVoteResponse (Message.From m) grant)].
Proof.
  intros newer term vote grant r'. subst r'. unfold handleRequestVote. cbv zeta.
  set (r1 := if currentTerm r <? Message.Term m then becomeFollower (Message.Term m) r else r).
  assert (currentTerm r1 = term /\ votedFor r1 = vote /\ role r1 = (if newer then Follower else role r) /\
    log_view r1 = log_view r /\ msgs r1 = msgs r /\ id r1 = id r /\
    log_up_to_date r1 m = log_up_to_date r m) as (Ht & Hv & Hro & Hlv & Hm & Hid & Hup).
  { subst r1 term vote newer. destruct (Z.ltb_spec (currentTerm r) (Message.Term m)) as [Hlt|]; [| done].
    unfold becomeFollower. rewrite (proj2 (Z.ltb_lt _ _)) by done.
    rewrite resetElectionTimeout_frame. by split_and!. }
  clearbody r1. rewrite Ht, Hv, Hup.
  assert ((Message.Term m <? term) = negb (currentTerm r <=? Message.Term m)) as Hold.
  { subst term newer. destruct (Z.ltb_spec (currentTerm r) (Message.Term m));
      destruct (Z.leb_spec (currentTerm r) (Message.Term m)); simpl negb;
      first [apply Z.ltb_ge | apply Z.ltb_lt]; lia. }
  rewrite Hold. subst grant. destruct (currentTerm r <=? Message.Term m); simpl negb; simpl andb; cbv iota.
  - destruct ((_ || _) && _); cbv iota.
    + pose proof (resetElectionTimeout_frame (set_votedFor (Message.From m) r1)) as Hfr. simpl in Hfr.
      set (r2 := resetElectionTimeout _) in *. clearbody r2.
      unfold send; simpl. rewrite Hfr. simpl. rewrite Hm, Hid, Ht. by split_and!.
    + unfold send; simpl. rewrite Hm, Hid, Ht. by split_and!.
  - unfold send; simpl. rewrite Hm, Hid, Ht. by split_and!.
Qed.

(** The pre-vote phase cannot inflate terms.  On a node with peers a timer
    tick, however many pass, leaves term and vote alone, and so does
    answering a pre-vote; the answer to its own pre-vote moves the term only
    on a pre-candidate that has now collected a majority, and then by exactly
    one. *)
Theorem prevote_keeps_term r m :
  peers r <> [] ->
  (forall r', Tick r = Ok r' -> hard r' = hard r) /\
  hard (handlePreVote r m) = hard r /\
  (forall r', handlePreVoteResponse r m = Ok r' ->
     hard r' = hard r \/
     (role r = PreCandidate /\ Message.VoteGranted m = true /\
      hasMajorityCount r (Z.of_nat (size ({[Message.From m]} ∪ preVotesReceived r))) = true /\
      currentTerm r' = inc64 (currentTerm r) /\ votedFor r' = id r /\ role r' = Candidate)).
Proof.
  intros Hp. assert (len (peers r) <> 0) as Hlen.
  { intros E. by apply len_zero in E. }
  split_and!.
  - intros r'. unfold Tick, sendHeartbeats, becomePreCandidate. cbv zeta.
    destruct (role_eqb _ _); destruct (_ <=? _).
    + intros H%broadcast_frame. rewrite H. done.
    + by intros [= <-].
    + rewrite resetElectionTimeout_frame. simpl. rewrite (proj2 (Z.eqb_neq _ _)) by done.
      intros [= <-]. rewrite request_votes_frame. done.
    + by intros [= <-].
  - unfold handlePreVote. by destruct (_ <? _).
  - intros r'. unfold handlePreVoteResponse. cbv zeta.
    destruct (role_eqb (role r) PreCandidate) eqn:Hr; simpl negb; [| intros [= <-]; by left].
    apply bool_decide_eq_true in Hr.
    destruct (Message.VoteGranted m) eqn:Hg; simpl negb; [| intros [= <-]; by left].
    simpl preVotesReceived. destruct (hasMajorityCount _ _) eqn:Hmaj; [| intros [= <-]; by left].
    unfold becomeCandidate. cbv zeta. rewrite resetElectionTimeout_frame. simpl.
    rewrite (proj2 (Z.eqb_neq _ _)) by done. intros [= <-]. right.
    rewrite request_votes_frame. simpl. by split_and!.
Qed.

Lemma prevote_keeps_term_witness :
  (forall r', Tick (sample_node 1) = Ok r' -> hard r' = hard (sample_node 1)) /\
  hard (handlePreVote (sample_node 1) sample_append) = hard (sample_node 1) /\
  (forall r', handlePreVoteResponse (sample_node 1) sample_append = Ok r' ->
     hard r' = hard (sample_node 1) \/
     (role (sample_node 1) = PreCandidate /\ Message.VoteGranted sample_append = true /\
      hasMajorityCount (sample_node 1) (Z.of_nat (size ({[Message.From sample_append]}
        ∪ preVotesReceived (sample_node 1)))) = true /\
      currentTerm r' = inc64 (currentTerm (sample_node 1)) /\ votedFor r' = id (sample_node 1) /\
      role r' = Candidate)).
Proof. apply prevote_keeps_term. vm_compute. congruence. Defined.

(** ** Sending *)

(** The message [sendAppendEntries] builds for [p]. *)
Definition append_for (r : Raft) (ctx p : Z) : Message.t :=
  let next := u64 (get0 (nextIndex r) p - 1) in
  Message.stamp (id r) (currentTerm r)
    (if next <? firstLogIndex r then Message.snapshot_request p (snapshot r)
     else let prev := Z.max next (get0 (sentIndex r) p) in
          Message.append_request p prev (termAt r prev)
            (drop (Z.to_nat (prev - firstLogIndex r + 1)) (log r)) (commitIndex r) ctx).

Lemma sendAppendEntries_msgs r p ctx r' :
  inv r -> sendAppendEntries r p ctx = Ok r' ->
  msgs r' = msgs r ++ [append_for r ctx p] /\
  (forall q, q <> p -> get0 (sentIndex r') q = get0 (sentIndex r) q) /\
  (firstLogIndex r <= u64 (get0 (nextIndex r) p - 1) ->
   get0 (sentIndex r') p = Z.max (get0 (sentIndex r) p) (lastLogIndex r)).
Proof.
  intros Hi. unfold sendAppendEntries, append_for. set (next := u64 _).
  destruct (Z.ltb_spec next (firstLogIndex r)) as [Hlt|Hge].
  { intros [= <-]. split_and!; try done. lia. }
  replace (if next <? get0 (sentIndex r) p then get0 (sentIndex r) p else next)
    with (Z.max next (get0 (sentIndex r) p)) by (zcase; lia).
  set (prev := Z.max _ _). rewrite Entries_tail by (done || lia). cbn [res_bind].
  unfold send. simpl sentIndex. change (lastLogIndex (set_msgs _ r)) with (lastLogIndex r).
  destruct (Z.ltb_spec (get0 (sentIndex r) p) (lastLogIndex r)); intros [= <-]; simpl.
  - split_and!; [done | |].
    + intros q Hq. unfold get0. by rewrite lookup_insert_ne by done.
    + intros _. unfold get0 at 1. rewrite lookup_insert_eq. simpl. lia.
  - split_and!; [done | done | lia].
Qed.

Lemma broadcast_msgs ps : forall r ctx r',
  inv r -> NoDup ps -> broadcast r ps ctx = Ok r' ->
  msgs r' = msgs r ++ map (append_for r ctx) ps /\
  (forall q, q ∉ ps -> get0 (sentIndex r') q = get0 (sentIndex r) q) /\
  (forall p, p ∈ ps -> firstLogIndex r <= u64 (get0 (nextIndex r) p - 1) ->
     get0 (sentIndex r') p = Z.max (get0 (sentIndex r) p) (lastLogIndex r)).
Proof.
  induction ps as [|p ps IH]; intros r ctx r' Hi Hnd; cbn [broadcast].
  { intros [= <-]. rewrite app_nil_r. split_and!; try done. by intros p ?%not_elem_of_nil. }
  apply NoDup_cons in Hnd as [Hp Hnd]. intros Hrun. bind_ok Hrun r1 H1.
  destruct (sendAppendEntries_msgs r p ctx r1 Hi H1) as (Hm1 & Ho1 & Hs1).
  destruct (sendAppendEntries_ok r p ctx Hi) as (x & Hx & Hi1). rewrite H1 in Hx. injection Hx as <-.
  apply sendAppendEntries_frame in H1 as Hfr.
  destruct (IH r1 ctx r' Hi1 Hnd Hrun) as (Hm & Ho & Hs).
  assert (forall q, get0 (sentIndex r1) q = get0 (sentIndex r) q ->
            append_for r1 ctx q = append_for r ctx q) as Hsame.
  { intros q Hq. unfold append_for. rewrite Hq. rewrite Hfr. done. }
  assert (nextIndex r1 = nextIndex r /\ firstLogIndex r1 = firstLogIndex r /\
          lastLogIndex r1 = lastLogIndex r) as (Hn1 & Hf1 & Hl1) by (rewrite Hfr; done).
  rewrite Hn1, Hf1, Hl1 in Hs. split_and!.
  - rewrite Hm, Hm1, <- app_assoc. simpl. do 2 f_equal. apply map_ext_in. intros q Hq.
    apply Hsame, Ho1. intros ->. apply Hp. by apply list_elem_of_In.
  - intros q [Hqp Hq]%not_elem_of_cons. by rewrite Ho, Ho1.
  - intros q [-> | Hq]%elem_of_cons Hge; [by rewrite Ho, Hs1 |].
    rewrite Hs, Ho1; try done. intros ->. done.
Qed.

(** Appending to the log does not change what is at the indexes already there. *)
Lemma termAt_extend r es k :
  inv r -> inv (set_log (log r ++ es) r) -> firstLogIndex r <= k <= lastLogIndex r ->
  termAt (set_log (log r ++ es) r) k = termAt r k.
Proof.
  intros Hi Hi' Hk. destruct (entry_at_some r k Hi Hk) as (e & He & _).
  rewrite (termAt_entry r k e), (termAt_entry _ k e); try done.
  unfold entry_at in *.
  assert (firstLogIndex (set_log (log r ++ es) r) = firstLogIndex r) as ->.
  { unfold firstLogIndex. simpl. pose proof (inv_nonempty r Hi). by destruct (log r). }
  destruct (k <? firstLogIndex r); [done |]. simpl. by apply lookup_app_l_Some.
Qed.

(** [append_proposals] with the new entries named. *)
Lemma append_proposals_entries r datas r1 indices :
  inv r -> lastLogIndex r + len datas < maxIndex -> append_proposals r datas = (r1, indices) ->
  exists es, r1 = set_log (log r ++ es) r /\ inv r1 /\ firstLogIndex r1 = firstLogIndex r /\
    lastLogIndex r1 = lastLogIndex r + len datas /\ indices = map LogEntry.Index es /\
    map LogEntry.Data es = datas /\ Forall (fun e => LogEntry.Term e = currentTerm r) es /\
    contig (lastLogIndex r + 1) es.
Proof.
  intros Hi Hb Hrun. apply append_proposals_ok in Hrun as (Hi1 & Hf & Heq & Hl & Hind & Hd & Ht); [| done..].
  exists (skipn (length (log r)) (log r1)). split_and!; try done.
  pose proof (inv_contig r1 Hi1) as Hc. rewrite Heq in Hc at 2. simpl in Hc.
  apply contig_app in Hc as [_ Hc]. rewrite Hf in Hc.
  pose proof (last_first r Hi). by replace (lastLogIndex r + 1) with (firstLogIndex r + len (log r)) by lia.
Qed.

(** Proposing a batch.  A node that is not the leader refuses and returns
    ErrNotLeader.  A leader always succeeds: the batch becomes consecutive
    entries of its current term at the end of its log, their indexes are
    returned in order, and every peer is sent one message; a peer whose
    entries were already sent up to the old end of the log is sent exactly
    the new entries (pipelining: nothing is sent twice, nothing is skipped),
    and [sentIndex] moves to the new end. *)
Theorem propose_replicates r datas :
  inv r -> NoDup (peers r) -> lastLogIndex r + len datas < maxIndex ->
  (role r <> Leader -> ProposeBatch r datas = Err ErrNotLeader) /\
  (role r = Leader -> exists es r',
     ProposeBatch r datas = Ok (r', map LogEntry.Index es) /\
     log r' = log r ++ es /\ map LogEntry.Data es = datas /\
     Forall (fun e => LogEntry.Term e = currentTerm r) es /\ contig (lastLogIndex r + 1) es /\
     msgs r' = msgs r ++ map (append_for (set_log (log r ++ es) r) 0) (peers r) /\
     (forall p, p ∈ peers r -> firstLogIndex r <= u64 (get0 (nextIndex r) p - 1) ->
        get0 (sentIndex r') p = Z.max (get0 (sentIndex r) p) (lastLogIndex r')) /\
     (forall p, p ∈ peers r ->
        firstLogIndex r <= u64 (get0 (nextIndex r) p - 1) <= lastLogIndex r ->
        get0 (sentIndex r) p = lastLogIndex r ->
        append_for (set_log (log r ++ es) r) 0 p
        = Message.stamp (id r) (currentTerm r)
            (Message.append_request p (lastLogIndex r) (termAt r (lastLogIndex r)) es
               (commitIndex r) 0))).
Proof.
  intros Hi Hnd Hb. unfold ProposeBatch. split.
  { intros Hr. by destruct (role r). }
  intros ->. simpl negb. cbv iota.
  destruct (append_proposals r datas) as [r1 ind] eqn:Hp.
  apply append_proposals_entries in Hp as (es & -> & Hi1 & Hf1 & Hl1 & -> & Hd & Ht & Hc); [| done..].
  set (r1 := set_log _ r) in *.
  destruct (broadcast_ok (peers r1) r1 0 Hi1) as (r2 & Hr2 & Hi2). rewrite Hr2. cbn [res_bind].
  destruct (broadcast_msgs _ _ _ _ Hi1 Hnd Hr2) as (Hm & _ & Hs).
  apply broadcast_frame in Hr2 as Hfr.
  set (r' := if len (peers r2) =? 0 then _ else r2).
  destruct (maybeAdvance_frame r2) as [Hmf _].
  assert (log r' = log r2 /\ msgs r' = msgs r2 /\ sentIndex r' = sentIndex r2) as (Hlg & Hmg & Hsg).
  { subst r'. destruct (_ =? 0); [rewrite Hmf | ]; done. }
  assert (log r2 = log r1) as Hl2 by (by rewrite Hfr). clearbody r'.
  assert (lastLogIndex r' = lastLogIndex r1) as Hlast by (unfold lastLogIndex; by rewrite Hlg, Hl2).
  exists es, r'. rewrite Hlg, Hl2, Hmg, Hsg, Hlast, Hm. split_and!; try done.
  - intros p Hpp Hge. apply Hs; [done | by rewrite Hf1].
  - intros p Hpp [Hge Hle] Hsent. unfold append_for.
    fold r1. rewrite Hf1. subst r1. simpl nextIndex. simpl sentIndex.
    rewrite (proj2 (Z.ltb_ge _ _)), Hsent, Z.max_r by lia. simpl. do 2 f_equal.
    + apply termAt_extend; [done | done |]. pose proof (first_le_last r Hi). lia.
    + pose proof (last_first r Hi) as Hlf. unfold len in Hlf.
      replace (Z.to_nat _) with (length (log r)) by lia. apply drop_app_length.
Qed.

(** A leader of three that has sent its whole log to both peers. *)
Definition sample_leader : Raft :=
  set_sentIndex {[1 := 1; 3 := 1]} (set_nextIndex {[1 := 2; 3 := 2]} (set_role Leader
    (set_log [LogEntry.mk 0 0 []; LogEntry.mk 1 1 [x61]] (set_currentTerm 1 (sample_node 2))))).

Lemma sample_leader_inv : inv sample_leader.
Proof. constructor; unfold firstLogIndex, lastLogIndex, maxIndex; simpl; done || lia. Qed.

Lemma propose_replicates_witness :
  exists es r', ProposeBatch sample_leader [[x62]; [x63]] = Ok (r', map LogEntry.Index es) /\
    log r' = log sample_leader ++ es /\ es = [LogEntry.mk 1 2 [x62]; LogEntry.mk 1 3 [x63]].
Proof.
  destruct (propose_replicates sample_leader [[x62]; [x63]]) as [_ H].
  - exact sample_leader_inv.
  - apply NoDup_cons; split; [| apply NoDup_cons; split; [| apply NoDup_nil_2]].
    + intros Hin%list_elem_of_In. simpl in Hin. lia.
    + intros Hin%list_elem_of_In. simpl in Hin. lia.
  - vm_compute. reflexivity.
  - destruct (H eq_refl) as (es & r' & Hrun & Hlog & _). exists es, r'. split; [exact Hrun |].
    split; [exact Hlog |]. vm_compute in Hrun. injection Hrun as <- Hes.
    apply app_inv_head with (l := log sample_leader). rewrite <- Hlog. reflexivity.
Defined.

(** ** Compaction *)

(** Log compaction.  [CreateSnapshot] refuses an index that is not yet
    committed and one that is not newer than the current boundary, changing
    nothing; otherwise it succeeds, the snapshot records the term the log had
    at that index, the boundary moves there, and every entry after it, the
    end of the log, the commit index, the term and the vote are what they
    were. *)
Theorem compaction_keeps_log r index data :
  inv r -> commitIndex r <= lastLogIndex r ->
  (commitIndex r < index \/ index <= firstLogIndex r -> exists e, CreateSnapshot r index data = Err e) /\
  (firstLogIndex r < index <= commitIndex r -> exists r',
     CreateSnapshot r index data = Ok r' /\
     snapshot r' = Snapshot.mk index (termAt r index) data /\
     firstLogIndex r' = index /\ lastLogIndex r' = lastLogIndex r /\
     (forall k, index <= k -> termAt r' k = termAt r k) /\
     (forall k, index < k -> entry_at r' k = entry_at r k) /\
     commitIndex r' = commitIndex r /\ hard r' = hard r /\ msgs r' = msgs r).
Proof.
  intros Hi Hcl. split.
  { intros Hbad. unfold CreateSnapshot. cbv zeta.
    destruct (Z.ltb_spec (commitIndex r) index); [by eexists |].
    destruct (Z.leb_spec index (firstLogIndex r)); [by eexists | lia]. }
  intros Hix. pose proof (CreateSnapshot_no_panic r index data Hi Hcl) as Hnp.
  destruct (CreateSnapshot r index data) as [r'|e|] eqn:Hrun; [| | done]; cycle 1.
  { exfalso. revert Hrun. unfold CreateSnapshot. cbv zeta.
    rewrite (proj2 (Z.ltb_ge _ _)), (proj2 (Z.leb_gt _ _)) by lia.
    destruct (_ <? 0); [done |]. unfold slice_from, slice. by destruct (_ && _). }
  exists r'. destruct (CreateSnapshot_inv _ _ _ _ Hi Hrun) as [Hi' Hl].
  pose proof (CreateSnapshot_spec _ _ _ _ Hi Hrun) as (_ & _ & Hlog & _ & Hsn & Heq).
  assert (firstLogIndex r' = index) as Hf by (unfold firstLogIndex; by rewrite Hlog).
  assert (forall k, index < k -> entry_at r' k = entry_at r k) as Hent.
  { intros k Hk. unfold entry_at. rewrite Hf, !(proj2 (Z.ltb_ge _ _)) by lia. rewrite Hlog.
    replace (Z.to_nat (k - index)) with (S (Z.to_nat (k - index - 1))) by lia. simpl.
    rewrite lookup_drop. f_equal. lia. }
  split_and!; try done; try (by rewrite Heq).
  intros k Hk. destruct (decide (lastLogIndex r < k)).
  { unfold termAt. rewrite Hl, (proj2 (Z.ltb_lt (lastLogIndex r) k)) by done.
    by rewrite !orb_true_r. }
  destruct (decide (k = index)) as [-> |].
  - apply (termAt_entry r' index (LogEntry.mk (termAt r index) index [])); [done |].
    unfold entry_at. rewrite Hf, Z.ltb_irrefl, Z.sub_diag, Hlog. done.
  - destruct (entry_at_some r k Hi ltac:(lia)) as (e & He & _).
    rewrite (termAt_entry r k e), (termAt_entry r' k e); try done. by rewrite Hent by lia.
Qed.

Lemma compaction_keeps_log_witness :
  exists r', CreateSnapshot (set_commitIndex 1 sample_leader) 1 [x7a] = Ok r' /\
    firstLogIndex r' = 1 /\ lastLogIndex r' = 1.
Proof.
  destruct (compaction_keeps_log (set_commitIndex 1 sample_leader) 1 [x7a]) as [_ H].
  - constructor; unfold firstLogIndex, lastLogIndex, maxIndex; simpl; done || lia.
  - vm_compute. congruence.
  - destruct H as (r' & Hrun & _ & Hf & Hl & _); [vm_compute; split; [reflexivity | congruence] |].
    exists r'. split; [exact Hrun | split; [exact Hf | exact Hl]].
Defined.

(** ** The Ready/Advance handshake *)

(** What the driver sees.  [Ready] reports the term and vote exactly when
    they differ from what was last made durable, exactly the entries from
    [unstableIndex] on, and the snapshot exactly when it is newer than the
    durable one; after [Advance] there is nothing left to report, and
    term, vote, log, commit index and role are as before. *)
Theorem advance_acknowledges_ready r :
  inv r ->
  (exists rd, ready r = Ok rd /\
     Ready.HardState rd = (if decide (hard r = stable_hard r) then None else Some (hard r)) /\
     log r = take (Z.to_nat (unstableIndex r - firstLogIndex r)) (log r) ++ Ready.UnstableEntries rd /\
     contig (unstableIndex r) (Ready.UnstableEntries rd) /\
     (Ready.UnstableEntries rd <> [] -> Ready.FirstUnstableIndex rd = unstableIndex r) /\
     (Ready.Snapshot rd = Some (snapshot r) <-> stableSnapshotIndex r < firstLogIndex r)) /\
  ready (Advance r) = Ok (Ready.mk None [] 0 [] [] None None) /\
  hard (Advance r) = hard r /\ log (Advance r) = log r /\ commitIndex (Advance r) = commitIndex r /\
  role (Advance r) = role r.
Proof.
  intros Hi. pose proof (inv_Advance r Hi) as Ha. pose proof (inv_unstable r Hi) as Hu.
  pose proof (last_first r Hi) as Hl. pose proof (inv_bound r Hi). pose proof (inv_first r Hi).
  split.
  - rewrite ready_spec by done. eexists. split; [done |]. cbn.
    rewrite (inv_snapshot r Hi).
    pose proof (contig_drop _ (log r) (Z.to_nat (unstableIndex r - firstLogIndex r))
      ltac:(unfold len in *; lia) (inv_contig r Hi)) as Hc.
    replace (firstLogIndex r + _) with (unstableIndex r) in Hc by lia.
    destruct (Z.leb_spec (unstableIndex r) (lastLogIndex r)).
    + rewrite take_drop. split_and!; try done. split; zcase; done || lia.
    + rewrite app_nil_r, take_ge by (unfold len in *; lia).
      split_and!; try done. split; zcase; done || lia.
  - rewrite ready_spec by done.
    assert (lastLogIndex (Advance r) = lastLogIndex r) as Hla
      by (unfold Advance, lastLogIndex; cbv zeta; by destruct (_ <=? _)).
    assert (lastLogIndex r < unstableIndex (Advance r)) as Hua.
    { unfold Advance. cbv zeta. set (r1 := set_stableVote _ _).
      change (unstableIndex r1) with (unstableIndex r). change (lastLogIndex r1) with (lastLogIndex r).
      destruct (Z.leb_spec (unstableIndex r) (lastLogIndex r)); simpl; [| done].
      rewrite inc64_small by (unfold maxIndex in *; lia). lia. }
    rewrite Hla, (proj2 (Z.leb_gt _ _)) by done.
    rewrite decide_True by (unfold Advance; cbv zeta; by destruct (_ <=? _)).
    unfold Advance. cbv zeta. destruct (_ <=? _); simpl; by rewrite Z.ltb_irrefl.
Qed.

Lemma advance_acknowledges_ready_witness :
  ready (Advance sample_leader) = Ok (Ready.mk None [] 0 [] [] None None) /\
  log (Advance sample_leader) = log sample_leader.
Proof.
  destruct (advance_acknowledges_ready sample_leader sample_leader_inv) as (_ & H & _ & Hl & _).
  split; [exact H | exact Hl].
Defined.
