(* ===== verification/RaftReads.v ===== *)
(** * Raft: read confirmation

    The ReadIndex protocol of src/raft/raft.go (RequestReadIndex,
    ackReadIndex, handleAppendEntriesResponse): a read is released only after
    a majority has answered, after the request and in the term of the request,
    a heartbeat that carried the request's context. *)

From stdpp Require Import fin_sets.
From S2P Require Import Prelude GoBytes RaftTypes Raft RaftLog RaftInv.

(** ** Steps that release no read *)

(** What every operation but a read request and an append response does to
    the reads: nothing is released, and a node that leads afterwards either
    led the same term with the same pending reads or has none. *)
Record keeps_reads (r r' : Raft) : Prop := {
  kr_id : id r' = id r;
  kr_peers : peers r' = peers r;
  kr_states : forall x, x ∈ readStates r' -> x ∈ readStates r;
  kr_lead : role r' = Leader -> pendingReads r' = ∅ \/
    (role r = Leader /\ currentTerm r' = currentTerm r /\ pendingReads r' = pendingReads r)
}.

#[global] Instance keeps_reads_refl : Reflexive keeps_reads.
Proof. intros r. constructor; auto. Qed.

#[global] Instance keeps_reads_trans : Transitive keeps_reads.
Proof.
  intros r1 r2 r3 [] []. constructor; [congruence | congruence | auto |].
  intros Hl. destruct (kr_lead1 Hl) as [? | (Hl2 & Ht & Hp)]; [by left |].
  destruct (kr_lead0 Hl2) as [? | (? & ? & ?)]; [left; congruence | right; split_and!; congruence].
Qed.

Definition read_view (r : Raft) :=
  (id r, peers r, role r, currentTerm r, pendingReads r, readStates r).

Lemma keeps_same r r' : read_view r' = read_view r -> keeps_reads r r'.
Proof.
  unfold read_view. intros [= H1 H2 H3 H4 H5 H6]. constructor; rewrite ?H1, ?H2, ?H3, ?H4, ?H5, ?H6; auto.
Qed.

(** A step to another role. *)
Lemma keeps_not_leader r r' :
  id r' = id r -> peers r' = peers r -> readStates r' = readStates r -> role r' <> Leader ->
  keeps_reads r r'.
Proof. intros H1 H2 H3 H4. constructor; rewrite ?H1, ?H2, ?H3; auto. by intros ?%H4. Qed.

Lemma keeps_broadcast ps r ctx r' : broadcast r ps ctx = Ok r' -> keeps_reads r r'.
Proof. intros H%broadcast_frame. apply keeps_same. by rewrite H. Qed.

Lemma keeps_maybeAdvance r : keeps_reads r (maybeAdvanceCommitIndex r).
Proof. apply keeps_same. by rewrite (proj1 (maybeAdvance_frame r)). Qed.

Lemma keeps_if (b : bool) r r' : keeps_reads r r' -> keeps_reads r (if b then r' else r).
Proof. by destruct b. Qed.

Lemma keeps_becomeFollower t r : keeps_reads r (becomeFollower t r).
Proof.
  unfold becomeFollower. apply keeps_not_leader; rewrite resetElectionTimeout_frame;
    destruct (_ <? _); done.
Qed.

Lemma keeps_adopt_leader m r : keeps_reads r (adopt_leader m r).
Proof. etransitivity; [apply (keeps_becomeFollower (Message.Term m)) | by apply keeps_same]. Qed.

Lemma keeps_becomeLeader r r' : becomeLeader r = Ok r' -> keeps_reads r r'.
Proof.
  unfold becomeLeader, sendHeartbeats. cbv zeta. set (r0 := set_heartbeatElapsed _ _).
  assert (keeps_reads r r0) as H0.
  { constructor; [reflexivity | reflexivity | intros x Hx; exact Hx | intros _; left; reflexivity]. }
  clearbody r0. intros H. bind_ok H r1 H1. injection H as <-. apply keeps_broadcast in H1.
  transitivity r0; [done |]. transitivity r1; [done |]. apply keeps_if, keeps_maybeAdvance.
Qed.

Lemma keeps_becomeCandidate r r' : becomeCandidate r = Ok r' -> keeps_reads r r'.
Proof.
  unfold becomeCandidate. cbv zeta. set (r1 := resetElectionTimeout _).
  assert (keeps_reads r r1) as H1 by (apply keeps_not_leader; unfold r1; by rewrite resetElectionTimeout_frame).
  clearbody r1. destruct (_ =? 0).
  - intros H%keeps_becomeLeader. by transitivity r1.
  - intros [= <-]. transitivity r1; [done |]. apply keeps_same. by rewrite request_votes_frame.
Qed.

Lemma keeps_becomePreCandidate r r' : becomePreCandidate r = Ok r' -> keeps_reads r r'.
Proof.
  unfold becomePreCandidate. cbv zeta. set (r1 := resetElectionTimeout _).
  assert (keeps_reads r r1) as H1 by (apply keeps_not_leader; unfold r1; by rewrite resetElectionTimeout_frame).
  clearbody r1. destruct (_ =? 0).
  - intros H%keeps_becomeCandidate. by transitivity r1.
  - intros [= <-]. transitivity r1; [done |]. apply keeps_same. by rewrite request_votes_frame.
Qed.

Lemma keeps_Tick r r' : Tick r = Ok r' -> keeps_reads r r'.
Proof.
  unfold Tick. cbv zeta. destruct (role_eqb _ _); destruct (_ <=? _).
  - unfold sendHeartbeats. intros H%keeps_broadcast.
    etransitivity; [| exact H]. by apply keeps_same.
  - intros [= <-]. by apply keeps_same.
  - intros H%keeps_becomePreCandidate. etransitivity; [| exact H]. by apply keeps_same.
  - intros [= <-]. by apply keeps_same.
Qed.

Lemma keeps_append_one r idx e r' : append_one r idx e = Ok r' -> keeps_reads r r'.
Proof.
  unfold append_one. intros H. bind_ok H r1 H1. revert H. destruct (_ =? 0); [done |].
  intros [= <-]. transitivity r1.
  - revert H1. destruct (_ && _); [| by intros [= <-]]. intros H1. bind_ok H1 l Hl.
    injection H1 as <-. apply keeps_same. by destruct (_ <? _).
  - by apply keeps_if, keeps_same.
Qed.

Lemma keeps_append_loop es : forall r prev i r',
  append_loop r prev i es = Ok r' -> keeps_reads r r'.
Proof.
  induction es as [|e es IH]; intros r prev i r'; cbn [append_loop]; [by intros [= <-] |].
  intros H. bind_ok H r1 H1. apply keeps_append_one in H1. transitivity r1; [done |]. by eapply IH.
Qed.

Lemma keeps_handleAppendEntries r m r' : handleAppendEntries r m = Ok r' -> keeps_reads r r'.
Proof.
  unfold handleAppendEntries. destruct (_ <? _); [intros [= <-]; by apply keeps_same |].
  cbv zeta. fold (adopt_leader m r). pose proof (keeps_adopt_leader m r) as Ha.
  set (r1 := adopt_leader m r) in *. clearbody r1.
  assert (forall x, keeps_reads r (send x r1)) as Hs.
  { intros x. transitivity r1; [done | by apply keeps_same]. }
  destruct (_ <? _); [intros [= <-]; apply Hs |].
  destruct (negb _); [intros [= <-]; apply Hs |].
  intros H. bind_ok H r2 H2. injection H as <-. apply keeps_append_loop in H2.
  transitivity r1; [done |]. transitivity r2; [done |]. apply keeps_same. by destruct (_ <? _).
Qed.

Lemma keeps_handleInstallSnapshot r m : keeps_reads r (handleInstallSnapshot r m).
Proof.
  unfold handleInstallSnapshot. cbv zeta. destruct (_ <? _); [by apply keeps_same |].
  fold (adopt_leader m r). transitivity (adopt_leader m r); [apply keeps_adopt_leader |].
  destruct (_ <=? _); [by apply keeps_same |]. apply keeps_same. by destruct (_ <? _).
Qed.

Lemma keeps_vote_handlers r m :
  keeps_reads r (handlePreVote r m) /\ keeps_reads r (handleRequestVote r m) /\
  (forall r', handlePreVoteResponse r m = Ok r' -> keeps_reads r r') /\
  (forall r', handleRequestVoteResponse r m = Ok r' -> keeps_reads r r').
Proof.
  split_and!.
  - unfold handlePreVote. destruct (_ <? _); by apply keeps_same.
  - unfold handleRequestVote. cbv zeta. set (r1 := if _ <? _ then _ else r).
    assert (keeps_reads r r1) as H1 by apply keeps_if, keeps_becomeFollower. clearbody r1.
    transitivity r1; [done |]. destruct (_ <? _); [by apply keeps_same |].
    destruct (_ && _); apply keeps_same; [| done]. unfold send. simpl.
    pose proof (resetElectionTimeout_frame (set_votedFor (Message.From m) r1)) as Hf. simpl in Hf.
    unfold read_view. simpl. by rewrite Hf.
  - intros r'. unfold handlePreVoteResponse. do 2 (destruct (negb _); [by intros [= <-] |]).
    cbv zeta. destruct (hasMajorityCount _ _).
    + intros H%keeps_becomeCandidate. etransitivity; [| exact H]. by apply keeps_same.
    + intros [= <-]. by apply keeps_same.
  - intros r'. unfold handleRequestVoteResponse. destruct (_ <? _).
    { intros [= <-]. apply keeps_becomeFollower. }
    destruct (_ || _); [by intros [= <-] |]. destruct (negb _); [by intros [= <-] |].
    cbv zeta. destruct (hasMajorityCount _ _).
    + intros H%keeps_becomeLeader. etransitivity; [| exact H]. by apply keeps_same.
    + intros [= <-]. by apply keeps_same.
Qed.

Lemma keeps_handleInstallSnapshotResponse r m : keeps_reads r (handleInstallSnapshotResponse r m).
Proof.
  unfold handleInstallSnapshotResponse. cbv zeta. destruct (_ <? _); [apply keeps_becomeFollower |].
  destruct (_ || _); [done |]. etransitivity; [| apply keeps_maybeAdvance].
  apply keeps_same. destruct (_ <? _); by destruct (_ <? _).
Qed.

Lemma keeps_append_proposals datas : forall r r' indices,
  append_proposals r datas = (r', indices) -> keeps_reads r r'.
Proof.
  induction datas as [|d datas IH]; intros r r' indices; cbn [append_proposals].
  { by intros [= <- _]. }
  destruct (append_proposals _ datas) as [r2 ind] eqn:E. intros [= <- _].
  apply IH in E. etransitivity; [| exact E]. by apply keeps_same.
Qed.

Lemma keeps_ProposeBatch r datas r' indices : ProposeBatch r datas = Ok (r', indices) -> keeps_reads r r'.
Proof.
  unfold ProposeBatch. destruct (negb _); [done |].
  destruct (append_proposals r datas) as [r1 ind] eqn:Hp. apply keeps_append_proposals in Hp.
  intros H. bind_ok H r2 H2. injection H as <- _. apply keeps_broadcast in H2.
  transitivity r1; [done |]. transitivity r2; [done |]. apply keeps_if, keeps_maybeAdvance.
Qed.

Lemma keeps_CreateSnapshot r index data r' : CreateSnapshot r index data = Ok r' -> keeps_reads r r'.
Proof.
  unfold CreateSnapshot. cbv zeta. do 2 (destruct (_ : bool); [done |]).
  destruct (_ <? 0); [done |]. intros H. bind_ok H l Hl. injection H as <-. apply keeps_same.
  by destruct (_ <=? _).
Qed.

Lemma keeps_Advance r : keeps_reads r (Advance r).
Proof.
  unfold Advance. cbv zeta.
  destruct (_ <=? _); constructor; simpl; auto; by intros x ?%not_elem_of_nil.
Qed.

(** ** Runs of operations *)

Fixpoint execs (r : Raft) (ops : list op) : res Raft :=
  match ops with
  | [] => Ok r
  | o :: ops => let* r := exec r o in execs r ops
  end.

(** Who confirmed the heartbeat of the read [ctx] to node [self] in [term]. *)
Definition acker (self term ctx : Z) (o : op) : option Z :=
  match o with
  | OStep m =>
      match Message.Type_ m with
      | MsgAppendEntriesResponse =>
          if bool_decide (Message.To m = self /\ Message.Term m = term /\ Message.ReadContext m = ctx)
          then Some (Message.From m) else None
      | _ => None
      end
  | _ => None
  end.

Definition acks (self term ctx : Z) (ops : list op) : gset Z :=
  list_to_set (omap (acker self term ctx) ops).

Section one_read.
Context (r0 : Raft) (ctx : Z).
Definition support (ops : list op) : gset Z := {[id r0]} ∪ acks (id r0) (currentTerm r0) ctx ops.

Definition confirmed (ops : list op) : Prop :=
  hasMajorityCount r0 (Z.of_nat (size (support ops))) = true.

(** After [ops]: whatever was released for [ctx] is confirmed, and the
    acknowledgements on record were all received. *)
Record read_inv (ops : list op) (r : Raft) : Prop := {
  ri_id : id r = id r0;
  ri_peers : peers r = peers r0;
  ri_released : forall x, x ∈ readStates r -> ReadState.Context x = ctx ->
    ReadState.Index x = commitIndex r0 /\ confirmed ops;
  ri_pending : role r = Leader -> forall pr, pendingReads r !! ctx = Some pr ->
    currentTerm r = currentTerm r0 /\ pr_index pr = commitIndex r0 /\ pr_acked pr ⊆ support ops
}.

Lemma support_mono ops k : support ops ⊆ support (ops ++ k).
Proof. unfold support, acks. rewrite omap_app, list_to_set_app_L. set_solver. Qed.

Lemma support_enough (X : gset Z) ops :
  X ⊆ support ops -> hasMajorityCount r0 (Z.of_nat (size X)) = true -> confirmed ops.
Proof.
  intros Hs%subseteq_size. unfold confirmed, hasMajorityCount. rewrite !Z.leb_le. lia.
Qed.

Lemma read_inv_keeps ops o r r' : keeps_reads r r' -> read_inv ops r -> read_inv (ops ++ [o]) r'.
Proof.
  intros [] []. pose proof (support_mono ops [o]) as Hm.
  constructor; [congruence | congruence | |].
  - intros x Hx Hc. destruct (ri_released0 x (kr_states0 x Hx) Hc) as [? Hok]. split; [done |].
    by apply (support_enough (support ops)).
  - intros Hl pr Hpr. destruct (kr_lead0 Hl) as [Hn | (Hl' & Ht & Hp)].
    { rewrite Hn in Hpr. done. }
    rewrite Hp in Hpr. destruct (ri_pending0 Hl' pr Hpr) as (? & ? & ?).
    split_and!; [congruence | done | set_solver].
Qed.

(** The acknowledgement in [m], which [handleAppendEntriesResponse] has found
    to be of the current term, on a leader. *)
Lemma read_inv_ack ops r m :
  Message.Type_ m = MsgAppendEntriesResponse -> Message.To m = id r ->
  role r = Leader -> Message.Term m = currentTerm r -> read_inv ops r ->
  read_inv (ops ++ [OStep m]) (ackReadIndex r (Message.ReadContext m) (Message.From m)).
Proof.
  intros Hty Hto Hl Ht H. pose proof (read_inv_keeps ops (OStep m) r r ltac:(done) H) as H'.
  unfold ackReadIndex. destruct (pendingReads r !! Message.ReadContext m) as [pr|] eqn:Hpr; [| done].
  cbv zeta. cbn [pr_index pr_acked].
  set (acked := {[Message.From m]} ∪ pr_acked pr).
  assert (Message.ReadContext m = ctx -> currentTerm r = currentTerm r0 /\
    pr_index pr = commitIndex r0 /\ acked ⊆ support (ops ++ [OStep m])) as Hack.
  { intros Hc. rewrite Hc in Hpr. destruct (ri_pending _ _ H' Hl pr Hpr) as (? & ? & ?).
    split_and!; try done. assert (Message.From m ∈ support (ops ++ [OStep m])); [| set_solver].
    unfold support, acks. rewrite omap_app, list_to_set_app_L. simpl. rewrite Hty.
    rewrite bool_decide_eq_true_2; [set_solver |]. rewrite (ri_id _ _ H') in Hto.
    split_and!; congruence. }
  destruct H'. destruct (hasMajorityCount _ _) eqn:Hmaj.
  - constructor; [done | done | |].
    + intros x. simpl. rewrite elem_of_app, list_elem_of_singleton.
      intros [Hx | ->] Hc; [by apply ri_released0 |]. simpl in Hc.
      destruct (Hack Hc) as (_ & Hi & Hs). split; [done |]. apply (support_enough acked); [done |].
      unfold hasMajorityCount, clusterSize in *. simpl in Hmaj. by rewrite <- ri_peers0.
    + intros _ q. simpl. rewrite lookup_delete_Some, lookup_insert_Some.
      intros [Hne [[? _] | [_ Hq]]]; [done | by apply ri_pending0].
  - constructor; [done | done | done |]. intros _ q. simpl. rewrite lookup_insert_Some.
    intros [[Hc <-] | [_ Hq]]; [by apply Hack | by apply ri_pending0].
Qed.

Lemma read_inv_response ops r m r' :
  Message.Type_ m = MsgAppendEntriesResponse -> Message.To m = id r ->
  read_inv ops r -> handleAppendEntriesResponse r m = Ok r' -> read_inv (ops ++ [OStep m]) r'.
Proof.
  intros Hty Hto H. unfold handleAppendEntriesResponse. cbv zeta.
  destruct (Z.ltb_spec (currentTerm r) (Message.Term m)).
  { intros [= <-]. by eapply read_inv_keeps, H; apply keeps_becomeFollower. }
  destruct (Z.ltb_spec (Message.Term m) (currentTerm r)); simpl orb.
  { intros [= <-]. by eapply read_inv_keeps, H. }
  destruct (role_eqb (role r) Leader) eqn:Hr; simpl negb; [| intros [= <-]; by eapply read_inv_keeps, H].
  apply bool_decide_eq_true in Hr. set (r1 := if _ =? 0 then r else _).
  assert (read_inv (ops ++ [OStep m]) r1) as Hr1.
  { subst r1. destruct (_ =? 0); [by eapply read_inv_keeps, H |]. apply read_inv_ack; done || lia. }
  clearbody r1.
  assert (forall r2, keeps_reads r1 r2 -> read_inv (ops ++ [OStep m]) r2) as Hk.
  { intros r2 []. destruct Hr1. constructor; [congruence | congruence | auto |].
    intros Hl pr Hpr. destruct (kr_lead0 Hl) as [Hn | (Hl' & Ht & Hp)]; [by rewrite Hn in Hpr |].
    rewrite Hp in Hpr. rewrite Ht. by apply ri_pending0. }
  destruct (Message.Success m).
  - intros [= <-]. apply Hk. etransitivity; [| apply keeps_maybeAdvance]. apply keeps_same.
    by destruct (_ <? _).
  - intros Hs%sendAppendEntries_frame. apply Hk, keeps_same. rewrite Hs. by destruct (1 <? _).
Qed.

(** Another read. *)
Lemma read_inv_request ops r c r' :
  c <> ctx -> read_inv ops r -> RequestReadIndex r c = Ok r' -> read_inv (ops ++ [ORead c]) r'.
Proof.
  intros Hc H. pose proof (read_inv_keeps ops (ORead c) r r ltac:(done) H) as [].
  unfold RequestReadIndex. destruct (negb _); [done |]. cbv zeta. destruct (hasMajorityCount _ _).
  - intros [= <-]. constructor; [done | done | |].
    + intros x. simpl. rewrite elem_of_app, list_elem_of_singleton.
      intros [Hx | ->] Hx'; [by apply ri_released0 | done].
    + intros Hl pr. simpl. rewrite lookup_delete_Some, lookup_insert_Some.
      intros [_ [[? _] | [_ Hq]]]; [done | by apply ri_pending0].
  - intros Hb%broadcast_frame. rewrite Hb. constructor; [done | done | done |].
    intros Hl pr. simpl. rewrite lookup_insert_Some.
    intros [[? _] | [_ Hq]]; [done | by apply ri_pending0].
Qed.

(** The request itself. *)
Lemma read_inv_start r1 :
  (forall x, x ∈ readStates r0 -> ReadState.Context x <> ctx) ->
  RequestReadIndex r0 ctx = Ok r1 -> read_inv [] r1.
Proof.
  intros Hnew. unfold RequestReadIndex. destruct (negb _); [done |]. cbv zeta.
  destruct (hasMajorityCount _ _) eqn:Hmaj.
  - intros [= <-]. constructor; [done | done | |].
    + intros x. simpl. rewrite elem_of_app, list_elem_of_singleton.
      intros [Hx | ->] Hx'; [by apply Hnew in Hx' |]. split; [done |].
      apply (support_enough {[id r0]}); [unfold support; set_solver | exact Hmaj].
    + intros _ pr. simpl. rewrite lookup_delete_eq. done.
  - intros Hb%broadcast_frame. rewrite Hb. constructor; [done | done | |].
    + intros x Hx Hx'. by apply Hnew in Hx'.
    + intros _ pr. simpl. rewrite lookup_insert_eq. intros [= <-]. split_and!; try done.
      unfold support. simpl. set_solver.
Qed.

Lemma read_inv_exec ops r o r' :
  o <> ORead ctx -> read_inv ops r -> exec r o = Ok r' -> read_inv (ops ++ [o]) r'.
Proof.
  intros Ho H. destruct o; simpl.
  - intros Hr%keeps_Tick. by eapply read_inv_keeps.
  - unfold Step. destruct (Z.eqb_spec (Message.To m) (id r)) as [Hto|]; simpl negb;
      [| intros [= <-]; by eapply read_inv_keeps, H].
    destruct (keeps_vote_handlers r m) as (Hv1 & Hv2 & Hv3 & Hv4).
    destruct (Message.Type_ m) eqn:Hty; intros Hr; try (injection Hr as <-);
      try by (eapply read_inv_keeps, H; auto).
    + eapply read_inv_keeps, H. by eapply keeps_handleAppendEntries.
    + by eapply read_inv_response.
    + eapply read_inv_keeps, H. apply keeps_handleInstallSnapshot.
    + eapply read_inv_keeps, H. apply keeps_handleInstallSnapshotResponse.
  - destruct (ProposeBatch r datas) as [[x y]| |] eqn:E; simpl; intros [= <-];
      [apply keeps_ProposeBatch in E |]; by eapply read_inv_keeps, H.
  - destruct (RequestReadIndex r ctx0) eqn:E; simpl; intros [= <-];
      [| by eapply read_inv_keeps, H]. eapply read_inv_request; [| done | done]. congruence.
  - destruct (CreateSnapshot r index data) eqn:E; simpl; intros [= <-];
      [apply keeps_CreateSnapshot in E |]; by eapply read_inv_keeps, H.
  - intros [= <-]. eapply read_inv_keeps, H. apply keeps_Advance.
Qed.

Lemma read_inv_execs ops : forall pre r r',
  ORead ctx ∉ ops -> read_inv pre r -> execs r ops = Ok r' -> read_inv (pre ++ ops) r'.
Proof.
  induction ops as [|o ops IH]; intros pre r r' Hn H; cbn [execs].
  { intros [= <-]. by rewrite app_nil_r. }
  apply not_elem_of_cons in Hn as [Ho Hn]. intros Hrun. bind_ok Hrun r1 H1.
  replace (pre ++ o :: ops) with ((pre ++ [o]) ++ ops) by (by rewrite <- app_assoc).
  eapply IH; [done | | done]. eapply read_inv_exec; [| done | done]. congruence.
Qed.
End one_read.

(** C32: a read is released only after a majority confirmed the leadership.
    Whatever happens after a leader accepted the read request [ctx] (ticks,
    any messages in any order, proposals, other reads, losing and regaining
    the leadership), a [ReadState] for [ctx] carries the commit index of the
    moment of the request, and by then this node together with the peers whose
    append responses for [ctx], in the term of the request, arrived since the
    request form a majority of the cluster. *)
Theorem read_index_confirmed r0 ctx r1 ops r idx :
  (forall x, x ∈ readStates r0 -> ReadState.Context x <> ctx) ->
  RequestReadIndex r0 ctx = Ok r1 -> ORead ctx ∉ ops -> execs r1 ops = Ok r ->
  ReadState.mk idx ctx ∈ readStates r ->
  role r0 = Leader /\ idx = commitIndex r0 /\
  hasMajorityCount r0 (Z.of_nat (size ({[id r0]} ∪ acks (id r0) (currentTerm r0) ctx ops))) = true.
Proof.
  intros Hnew Hreq Hn Hrun Hx.
  pose proof (read_inv_start _ _ _ Hnew Hreq) as H0.
  pose proof (read_inv_execs _ _ ops [] r1 r Hn H0 Hrun) as H.
  destruct (ri_released _ _ _ _ H _ Hx eq_refl) as [Hi Hc]. split; [| by split].
  revert Hreq. unfold RequestReadIndex. by destruct (role r0).
Qed.

(** A leader of three, a read with context 7, and the answer of node 1. *)
Definition sample_reader : Raft :=
  set_nextIndex {[1 := 1; 3 := 1]} (set_role Leader (set_currentTerm 1 (sample_node 2))).
Definition sample_ack : op :=
  OStep (Message.stamp 1 1 (Message.append_response 2 true 0 7)).

Lemma read_index_confirmed_witness :
  exists r1 r, RequestReadIndex sample_reader 7 = Ok r1 /\ execs r1 [sample_ack] = Ok r /\
    readStates r = [ReadState.mk 0 7] /\ role sample_reader = Leader /\ 0 = commitIndex sample_reader /\
    hasMajorityCount sample_reader
      (Z.of_nat (size ({[id sample_reader]} ∪ acks (id sample_reader) (currentTerm sample_reader) 7
                         [sample_ack]))) = true.
Proof.
  eexists _, _. split; [vm_compute; reflexivity |]. split; [vm_compute; reflexivity |].
  split; [reflexivity |]. eapply read_index_confirmed.
  - intros x Hx. apply not_elem_of_nil in Hx. destruct Hx.
  - vm_compute. reflexivity.
  - intros Hin. apply list_elem_of_singleton in Hin. discriminate Hin.
  - vm_compute. reflexivity.
  - simpl. apply list_elem_of_singleton. reflexivity.
Defined.
