(* ===== verification/RaftApp.v ===== *)
(** * Raft: what the application is told

    The part of the node's state that the application depends on (commit
    index, snapshot to apply, released reads; src/raft/raft.go), and what every
    operation does to it: the commit index never goes back, a snapshot is
    replaced only by one that is reported, and a read never carries an index
    beyond the commit index. *)

From stdpp Require Import fin_sets.
From S2P Require Import Prelude GoBytes RaftTypes Raft RaftLog RaftInv RaftReads.

(** Reads, waiting or released, carry an index that is committed. *)
Definition reads_bound (r : Raft) : Prop :=
  Forall (fun x => ReadState.Index x <= commitIndex r) (readStates r) /\
  map_Forall (fun _ p => pr_index p <= commitIndex r) (pendingReads r).

Record tells (r r' : Raft) : Prop := {
  tl_commit : commitIndex r <= commitIndex r';
  tl_snapshot :
    (snapshot r' = snapshot r /\ pendingSnapshotToApply r' = pendingSnapshotToApply r) \/
    pendingSnapshotToApply r' = Some (snapshot r') /\ 0 < Snapshot.LastIncludedIndex (snapshot r');
  tl_reads : reads_bound r -> reads_bound r'
}.

#[global] Instance tells_refl : Reflexive tells.
Proof. intros r. constructor; [lia | by left | done]. Qed.
#[global] Instance tells_trans : Transitive tells.
Proof.
  intros r1 r2 r3 [] []. constructor; [lia | | auto].
  destruct tl_snapshot1 as [[Hs Hp]|?]; [| by right]. destruct tl_snapshot0 as [[Hs0 Hp0]|[Hp0 Hl]]; [left | right]; split; congruence.
Qed.

Definition app_view (r : Raft) := (snapshot r, pendingSnapshotToApply r, pendingReads r, readStates r).

Lemma tells_same r r' : app_view r' = app_view r -> commitIndex r <= commitIndex r' -> tells r r'.
Proof.
  intros [= Hs Hp Hr Hrs] Hc. constructor; [done | by left |]. unfold reads_bound. rewrite Hr, Hrs. intros [H1 H2]. split.
  - eapply Forall_impl; [exact H1 |]. simpl. lia.
  - intros i p Hi. specialize (H2 i p Hi). simpl in *. lia.
Qed.
Lemma tells_view r r' : (app_view r', commitIndex r') = (app_view r, commitIndex r) -> tells r r'.
Proof. intros H. injection H as H1 H2 H3 H4 Hc. apply tells_same; [unfold app_view; congruence | lia]. Qed.
Lemma tells_if (b : bool) r r' : tells r r' -> tells r (if b then r' else r).
Proof. by destruct b. Qed.

Lemma tells_broadcast ps r ctx r' : broadcast r ps ctx = Ok r' -> tells r r'.
Proof. intros H%broadcast_frame. apply tells_view. by rewrite H. Qed.
Lemma tells_sendAppendEntries r p ctx r' : sendAppendEntries r p ctx = Ok r' -> tells r r'.
Proof. intros H%sendAppendEntries_frame. apply tells_view. by rewrite H. Qed.
Lemma tells_maybeAdvance r : tells r (maybeAdvanceCommitIndex r).
Proof. destruct (maybeAdvance_frame r) as [He Hc]. apply tells_same; [by rewrite He | lia]. Qed.
Lemma tells_becomeFollower t r : tells r (becomeFollower t r).
Proof. unfold becomeFollower. apply tells_view. rewrite resetElectionTimeout_frame. by destruct (_ <? _). Qed.
Lemma tells_adopt_leader m r : tells r (adopt_leader m r).
Proof. etransitivity; [apply (tells_becomeFollower (Message.Term m)) | by apply tells_view]. Qed.
Lemma tells_send m r : tells r (send m r).
Proof. by apply tells_view. Qed.

(** Waiting reads are dropped; nothing else the application sees changes. *)
Lemma tells_drop_reads r r' :
  snapshot r' = snapshot r -> pendingSnapshotToApply r' = pendingSnapshotToApply r -> commitIndex r' = commitIndex r ->
  readStates r' = readStates r -> pendingReads r' = ∅ -> tells r r'.
Proof.
  intros Hs Hp Hc Hr He. constructor; [lia | by left |]. unfold reads_bound. rewrite Hr, He, Hc. intros [H1 _]. by split.
Qed.

Lemma tells_becomeLeader r r' : becomeLeader r = Ok r' -> tells r r'.
Proof.
  unfold becomeLeader, sendHeartbeats. cbv zeta. set (r0 := set_heartbeatElapsed _ _).
  assert (tells r r0) as H0 by (by apply tells_drop_reads). clearbody r0.
  intros H. bind_ok H r1 H1. injection H as <-. apply tells_broadcast in H1.
  transitivity r0; [done |]. transitivity r1; [done |]. apply tells_if, tells_maybeAdvance.
Qed.

Lemma tells_request_votes ty r : tells r (request_votes ty r).
Proof. apply tells_view. by rewrite request_votes_frame. Qed.

Lemma tells_becomeCandidate r r' : becomeCandidate r = Ok r' -> tells r r'.
Proof.
  unfold becomeCandidate. cbv zeta. set (r1 := resetElectionTimeout _).
  assert (tells r r1) as H1 by (apply tells_view; unfold r1; by rewrite resetElectionTimeout_frame). clearbody r1.
  destruct (_ =? 0); [intros H%tells_becomeLeader | intros [= <-]]; (transitivity r1; [done |]); [done | apply tells_request_votes].
Qed.

Lemma tells_becomePreCandidate r r' : becomePreCandidate r = Ok r' -> tells r r'.
Proof.
  unfold becomePreCandidate. cbv zeta. set (r1 := resetElectionTimeout _).
  assert (tells r r1) as H1 by (apply tells_view; unfold r1; by rewrite resetElectionTimeout_frame). clearbody r1.
  destruct (_ =? 0); [intros H%tells_becomeCandidate | intros [= <-]]; (transitivity r1; [done |]); [done | apply tells_request_votes].
Qed.

Lemma tells_Tick r r' : Tick r = Ok r' -> tells r r'.
Proof.
  unfold Tick. cbv zeta. destruct (role_eqb _ _); destruct (_ <=? _).
  - unfold sendHeartbeats. intros H%tells_broadcast. etransitivity; [| exact H]. by apply tells_view.
  - intros [= <-]. by apply tells_view.
  - intros H%tells_becomePreCandidate. etransitivity; [| exact H]. by apply tells_view.
  - intros [= <-]. by apply tells_view.
Qed.

Lemma tells_append_loop es : forall r prev i r', append_loop r prev i es = Ok r' -> tells r r'.
Proof.
  induction es as [|e es IH]; intros r prev i r'; cbn [append_loop]; [by intros [= <-] |].
  intros H. bind_ok H r1 H1. transitivity r1; [| by eapply IH]. revert H1. clear. unfold append_one.
  intros H. bind_ok H r2 H2. revert H. destruct (_ =? 0); [done |]. intros [= <-].
  transitivity r2; [| by apply tells_if, tells_view].
  revert H2. destruct (_ && _); [| by intros [= <-]]. intros H2. bind_ok H2 l Hl. injection H2 as <-.
  apply tells_view. by destruct (_ <? _).
Qed.

Lemma append_loop_commit es : forall r prev i r', append_loop r prev i es = Ok r' -> commitIndex r' = commitIndex r.
Proof.
  induction es as [|e es IH]; intros r prev i r'; cbn [append_loop]; [by intros [= <-] |].
  intros H. bind_ok H r1 H1. rewrite (IH _ _ _ _ H). revert H1. clear. unfold append_one.
  intros H. bind_ok H r2 H2. revert H. destruct (_ =? 0); [done |]. intros [= <-].
  transitivity (commitIndex r2); [by destruct (_ <? _) |].
  revert H2. destruct (_ && _); [| by intros [= <-]]. intros H2. bind_ok H2 l Hl. injection H2 as <-. by destruct (_ <? _).
Qed.

(** The entries of an append at committed indexes are the node's own there,
    unless the append is one of an earlier term, which is refused. *)
Definition keeps_committed (r : Raft) (m : Message.t) : Prop :=
  Message.Type_ m = MsgAppendEntries -> currentTerm r <= Message.Term m ->
  Forall (fun e => LogEntry.Index e <= commitIndex r -> termAt r (LogEntry.Index e) = LogEntry.Term e) (Message.Entries m).

Lemma append_loop_keeps c es : forall r prev i r',
  inv r -> 0 <= prev + 1 + i <= lastLogIndex r + 1 -> contig (prev + 1 + i) es -> prev + i + len es < maxIndex ->
  c <= lastLogIndex r -> Forall (fun e => LogEntry.Index e <= c -> termAt r (LogEntry.Index e) = LogEntry.Term e) es ->
  append_loop r prev i es = Ok r' -> c <= lastLogIndex r'.
Proof.
  induction es as [|e es IH]; intros r prev i r' H Hi Hes Hb Hc Hk; cbn [append_loop]; [by intros [= <-] |].
  destruct Hes as [He Hes]. rewrite len_cons in *. pose proof (len_nonneg es). apply Forall_cons in Hk as [Hke Hk].
  rewrite u64_small by (unfold is_u64, maxIndex in *; lia). intros Hrun. bind_ok Hrun r1 H1.
  replace (prev + 1 + i + 1) with (prev + 1 + (i + 1)) in Hes by lia.
  pose proof (append_one_inv r (prev + 1 + i) e r1 H ltac:(lia) ltac:(lia) He H1) as (Hi1 & _ & Hl1).
  destruct (Z.le_gt_cases (prev + 1 + i) c) as [Hle|Hgt].
  - assert (r1 = r) as ->.
    { revert H1. unfold append_one. rewrite He in Hke. rewrite (Hke Hle), Z.eqb_refl, andb_false_r. cbn [res_bind].
      destruct (_ =? 0); [done |]. rewrite (proj2 (Z.ltb_ge _ _)) by lia. by intros [= <-]. }
    apply (IH r prev (i + 1) r'); auto; lia.
  - apply (IH r1 prev (i + 1) r'); auto; try lia.
    apply Forall_forall. intros x Hx Hxc. apply list_elem_of_lookup in Hx as [j Hj].
    rewrite (contig_lookup _ _ _ _ Hes Hj) in Hxc. lia.
Qed.

Lemma termAt_adopt_leader m r i : termAt (adopt_leader m r) i = termAt r i.
Proof. unfold termAt, logPos, firstLogIndex, lastLogIndex. by rewrite log_adopt_leader. Qed.

Lemma tells_handleAppendEntries r m r' :
  inv r -> wire_ok m -> Message.Type_ m = MsgAppendEntries -> commitIndex r <= lastLogIndex r -> keeps_committed r m ->
  handleAppendEntries r m = Ok r' -> tells r r'.
Proof.
  intros Hi Hm Hty Hcl Hk. specialize (Hk Hty). unfold wire_ok in Hm. rewrite Hty in Hm. destruct Hm as (Hp & Hc & Hb).
  unfold handleAppendEntries. destruct (Z.ltb_spec (Message.Term m) (currentTerm r)); [intros [= <-]; apply tells_send |].
  specialize (Hk ltac:(lia)). cbv zeta. fold (adopt_leader m r). pose proof (tells_adopt_leader m r) as Ha. pose proof (inv_adopt_leader m r Hi) as H1.
  assert (forall x, tells r (send x (adopt_leader m r))) as Hs by (intros x; transitivity (adopt_leader m r); [done | apply tells_send]).
  destruct (Z.ltb_spec (lastLogIndex (adopt_leader m r)) (Message.PrevLogIndex m)); [intros [= <-]; apply Hs |].
  destruct (negb _); [intros [= <-]; apply Hs |].
  intros H2. bind_ok H2 r2 Hloop. injection H2 as <-.
  assert (commitIndex (adopt_leader m r) = commitIndex r) as Hcom
    by (pose proof (log_view_becomeFollower (Message.Term m) r) as [= _ _ Hv _ _]; exact Hv).
  assert (commitIndex r2 <= lastLogIndex r2) as Hle.
  { rewrite <- (last_adopt_leader m) in Hcl. destruct (tells_append_loop _ _ _ _ _ Hloop) as [_ _ _].
    replace (commitIndex r2) with (commitIndex r)
      by (rewrite <- Hcom; symmetry; apply (append_loop_commit _ _ _ _ _ Hloop)).
    eapply append_loop_keeps; [exact H1 | | | | exact Hcl | | exact Hloop].
    - lia.
    - by rewrite Z.add_0_r.
    - by apply (wire_bound _ _ _ H1).
    - eapply Forall_impl; [exact Hk |]. simpl. intros e He. by rewrite termAt_adopt_leader. }
  transitivity (adopt_leader m r); [done |]. transitivity r2; [by eapply tells_append_loop |]. etransitivity; [| apply tells_send].
  destruct (Z.ltb_spec (commitIndex r2) (Message.LeaderCommit m)); [| done]. apply tells_same; [done |]. simpl. lia.
Qed.

Lemma tells_ackReadIndex r ctx p : tells r (ackReadIndex r ctx p).
Proof.
  unfold ackReadIndex. destruct (pendingReads r !! ctx) as [pr|] eqn:Hp; [| done]. cbv zeta.
  assert (reads_bound r -> pr_index pr <= commitIndex r) as Hpr by (intros [_ H]; apply (H ctx pr Hp)).
  destruct (hasMajorityCount _ _); (constructor; simpl; [lia | by left |]); intros Hb; pose proof (Hpr Hb) as Hle; destruct Hb as [H1 H2]; split; simpl.
  - apply Forall_app. split; [done |]. by repeat constructor.
  - apply map_Forall_delete. by apply map_Forall_insert_2.
  - done.
  - by apply map_Forall_insert_2.
Qed.

Lemma tells_handleAppendEntriesResponse r m r' : handleAppendEntriesResponse r m = Ok r' -> tells r r'.
Proof.
  unfold handleAppendEntriesResponse. cbv zeta. destruct (_ <? _); [intros [= <-]; apply tells_becomeFollower |].
  destruct (_ || _); [by intros [= <-] |]. set (r1 := if _ =? 0 then r else _).
  assert (tells r r1) as H1 by (subst r1; destruct (_ =? 0); [done | apply tells_ackReadIndex]). clearbody r1.
  destruct (Message.Success m).
  - intros [= <-]. etransitivity; [exact H1 |]. etransitivity; [| apply tells_maybeAdvance]. apply tells_view. by destruct (_ <? _).
  - intros H%tells_sendAppendEntries. etransitivity; [exact H1 |]. etransitivity; [| exact H]. apply tells_view. by destruct (_ <? _).
Qed.

Lemma tells_handleInstallSnapshot r m : 0 <= firstLogIndex r -> tells r (handleInstallSnapshot r m).
Proof.
  intros Hf. unfold handleInstallSnapshot. cbv zeta. destruct (_ <? _); [apply tells_send |]. fold (adopt_leader m r).
  transitivity (adopt_leader m r); [apply tells_adopt_leader |].
  assert (0 <= firstLogIndex (adopt_leader m r)) as Hf1 by (unfold firstLogIndex; by rewrite log_adopt_leader).
  set (r1 := adopt_leader m r) in *. clearbody r1.
  destruct (Z.leb_spec (Snapshot.LastIncludedIndex (Message.Snapshot m)) (firstLogIndex r1)); [apply tells_send |]. etransitivity; [| apply tells_send]. set (last := Snapshot.LastIncludedIndex _).
  transitivity (if commitIndex r1 <? last then set_commitIndex last r1 else r1).
  { destruct (Z.ltb_spec (commitIndex r1) last); [| done]. apply tells_same; [done |]. simpl. lia. }
  constructor; [by destruct r1; simpl; destruct (_ <? _) | right; split; [done | simpl; lia] |].
  intros Hb. unfold reads_bound. by destruct r1; simpl in *; destruct (_ <? _).
Qed.

Lemma tells_vote_handlers r m :
  tells r (handlePreVote r m) /\ tells r (handleRequestVote r m) /\
  (forall r', handlePreVoteResponse r m = Ok r' -> tells r r') /\
  (forall r', handleRequestVoteResponse r m = Ok r' -> tells r r').
Proof.
  split_and!.
  - unfold handlePreVote. destruct (_ <? _); apply tells_send.
  - unfold handleRequestVote. cbv zeta. set (r1 := if _ <? _ then _ else r).
    assert (tells r r1) as H1 by apply tells_if, tells_becomeFollower. clearbody r1. transitivity r1; [done |].
    destruct (_ <? _); [apply tells_send |]. etransitivity; [| apply tells_send]. apply tells_if, tells_view.
    by rewrite resetElectionTimeout_frame.
  - intros r'. unfold handlePreVoteResponse. do 2 (destruct (negb _); [by intros [= <-] |]). cbv zeta.
    destruct (hasMajorityCount _ _); [intros H%tells_becomeCandidate; etransitivity; [| exact H] | intros [= <-]]; by apply tells_view.
  - intros r'. unfold handleRequestVoteResponse. destruct (_ <? _); [intros [= <-]; apply tells_becomeFollower |].
    destruct (_ || _); [by intros [= <-] |]. destruct (negb _); [by intros [= <-] |]. cbv zeta.
    destruct (hasMajorityCount _ _); [intros H%tells_becomeLeader; etransitivity; [| exact H] | intros [= <-]]; by apply tells_view.
Qed.

Lemma tells_handleInstallSnapshotResponse r m : tells r (handleInstallSnapshotResponse r m).
Proof.
  unfold handleInstallSnapshotResponse. cbv zeta. destruct (_ <? _); [apply tells_becomeFollower |].
  destruct (_ || _); [done |]. etransitivity; [| apply tells_maybeAdvance]. apply tells_view.
  destruct (_ <? _); by destruct (_ <? _).
Qed.

Lemma tells_Step r m r' :
  inv r -> wire_ok m -> commitIndex r <= lastLogIndex r -> keeps_committed r m -> Step r m = Ok r' -> tells r r'.
Proof.
  intros Hi Hm Hcl Hk. unfold Step. destruct (negb _); [by intros [= <-] |].
  destruct (tells_vote_handlers r m) as (H1 & H2 & H3 & H4).
  destruct (Message.Type_ m) eqn:Hty; [by intros [= <-] | apply H3 | by intros [= <-] | apply H4 | | | | | by intros [= <-]].
  - by apply tells_handleAppendEntries.
  - apply tells_handleAppendEntriesResponse.
  - intros [= <-]. apply tells_handleInstallSnapshot, Hi.
  - intros [= <-]. apply tells_handleInstallSnapshotResponse.
Qed.

Lemma tells_append_proposals datas : forall r r' indices, append_proposals r datas = (r', indices) -> tells r r'.
Proof.
  induction datas as [|d datas IH]; intros r r' indices; cbn [append_proposals]; [by intros [= <- _] |].
  destruct (append_proposals _ datas) as [r2 ind] eqn:E. intros [= <- _]. etransitivity; [| by eapply IH]. by apply tells_view.
Qed.

Lemma tells_ProposeBatch r datas r' indices : ProposeBatch r datas = Ok (r', indices) -> tells r r'.
Proof.
  unfold ProposeBatch. destruct (negb _); [done |]. destruct (append_proposals r datas) as [r1 ind] eqn:Hp.
  apply tells_append_proposals in Hp. intros H. bind_ok H r2 H2. injection H as <- _. apply tells_broadcast in H2.
  transitivity r1; [done |]. transitivity r2; [done |]. apply tells_if, tells_maybeAdvance.
Qed.

Lemma tells_RequestReadIndex r ctx r' : RequestReadIndex r ctx = Ok r' -> tells r r'.
Proof.
  unfold RequestReadIndex. cbv zeta. destruct (negb _); [done |].
  destruct (hasMajorityCount _ _).
  - intros [= <-]. constructor; simpl; [lia | by left |]. intros [H1 H2]. split; simpl.
    + apply Forall_app. split; [done |]. repeat constructor; simpl; lia.
    + apply map_Forall_delete, map_Forall_insert_2; [simpl; lia | done].
  - intros H%tells_broadcast. etransitivity; [| exact H]. constructor; simpl; [lia | by left |].
    intros [H1 H2]. split; [done |]. simpl. apply map_Forall_insert_2; [simpl; lia | done].
Qed.

(** While the log is not compacted no snapshot is waiting for the
    application. *)
Lemma tells_pending r r' :
  tells r r' -> inv r' -> firstLogIndex r' = 0 -> pendingSnapshotToApply r = None -> pendingSnapshotToApply r' = None.
Proof.
  intros [_ Hs _] Hi Hf Hp. destruct Hs as [[_ ->] | [_ Hl]]; [done |]. rewrite (inv_snapshot _ Hi) in Hl. lia.
Qed.
