(* ===== verification/RaftCluster.v ===== *)
(** * Raft: election safety of a cluster

    A cluster of nodes, each with its own disk, over a network that may lose,
    delay, duplicate and reorder messages.  Nodes run the code of
    src/raft/raft.go, save through src/raft/node.go and src/raft/storage.go,
    fail to save, crash at any point and restart from what their disk kept. *)

From stdpp Require Import functions.
From S2P Require Import Prelude GoBytes Wal RaftTypes Raft RaftLog RaftInv RaftVote RaftStorage RaftStable RaftSend RaftNode.

(** ** Removing one member *)

Lemma filter_absent (i : Z) (l : list Z) : i ∉ l -> filter (fun p => p <> i) l = l.
Proof.
  induction l as [|x l IH]; intros Hi; [done |]. apply not_elem_of_cons in Hi as [Hx Hl].
  rewrite filter_cons_True by done. by rewrite IH.
Qed.

Lemma filter_count (i : Z) (l : list Z) :
  NoDup l -> i ∈ l -> len (filter (fun p => p <> i) l) + 1 = len l.
Proof.
  induction l as [|x l IH]; intros Hnd Hi; [by apply not_elem_of_nil in Hi |].
  apply NoDup_cons in Hnd as [Hx Hl]. rewrite len_cons.
  destruct (decide (x = i)) as [->|Hne].
  - rewrite filter_cons_False by tauto. rewrite filter_absent by done. lia.
  - rewrite filter_cons_True by done. rewrite len_cons.
    apply elem_of_cons in Hi as [?|Hi]; [done |]. specialize (IH Hl Hi). lia.
Qed.

Section Cluster.

(** The configuration all nodes share: every node lists all the others. *)
Context (ids : list Z) (election heartbeat : Z) (path : Z -> string).
Context (ids_nodup : NoDup ids) (ids_wf : Forall (fun i => is_u64 i /\ i <> 0) ids).

Definition config (i : Z) : Config.t :=
  Config.mk i (filter (fun p => p <> i) ids) election heartbeat.

(** [net] holds every message ever sent; [elected] is a history variable that
    records who led in which term. *)
Record world := { nodes : Z -> Node; net : list Message.t; elected : list (Z * Z) }.

Definition sent (w : world) (m : Message.t) : Prop := m ∈ net w.

(** Node [i] holds [e] as committed. *)
Definition committed (w : world) (i : Z) (e : LogEntry.t) : Prop :=
  entry_at (n_r (nodes w i)) (LogEntry.Index e) = Some e /\
  firstLogIndex (n_r (nodes w i)) < LogEntry.Index e <= commitIndex (n_r (nodes w i)).

Definition note (i : Z) (n : Node) (h : list (Z * Z)) : list (Z * Z) :=
  if role_eqb (role (n_r n)) Leader then (currentTerm (n_r n), i) :: h else h.

Definition initial (w : world) : Prop :=
  net w = [] /\ elected w = [] /\
  forall i, i ∈ ids -> exists faults draws snap,
    OpenNode (config i) (path i) None true faults draws = Ok (nodes w i, snap).

Inductive cstep : world -> world -> Prop :=
  | c_step w i n' ms :
      i ∈ ids -> nstep (config i) (path i) (sent w) (nodes w i) n' ms ->
      cstep w {| nodes := <[i := n']> (nodes w); net := net w ++ ms;
                 elected := note i n' (elected w) |}.

Inductive reachable : world -> Prop :=
  | reach_init w : initial w -> reachable w
  | reach_step w w' : reachable w -> cstep w w' -> reachable w'.

(** ** Quorums *)

Definition id_set : gset Z := list_to_set ids.

Lemma quorums_meet (Q1 Q2 : gset Z) :
  Q1 ⊆ id_set -> Q2 ⊆ id_set ->
  len ids / 2 + 1 <= Z.of_nat (size Q1) -> len ids / 2 + 1 <= Z.of_nat (size Q2) ->
  exists k, k ∈ Q1 /\ k ∈ Q2.
Proof.
  intros H1 H2 Hq1 Hq2. destruct (set_choose_or_empty (Q1 ∩ Q2)) as [[k Hk] | He].
  { exists k. by apply elem_of_intersection in Hk. }
  assert (Q1 ## Q2) as Hd by (clear - He; set_solver).
  assert (size (Q1 ∪ Q2) = size Q1 + size Q2)%nat as Hs by (by apply size_union).
  assert (size (Q1 ∪ Q2) <= size id_set)%nat as Hle by (apply subseteq_size; clear - H1 H2; set_solver).
  assert (size id_set = length ids) as Hid by (by apply size_list_to_set).
  unfold len in *. pose proof (Z.div_mod (Z.of_nat (length ids)) 2).
  pose proof (Z.mod_pos_bound (Z.of_nat (length ids)) 2). lia.
Qed.

(** ** The cluster invariant *)

(** A majority that voted for [i] in term [t]. *)
Definition backed (w : world) (t i : Z) : Prop :=
  exists Q : gset Z, Q ⊆ id_set /\ len ids / 2 + 1 <= Z.of_nat (size Q) /\
    forall j, j ∈ Q -> j = i \/ granted (sent w) j i t.

Record cluster_inv (w : world) : Prop := {
  ci_nodes : forall i, i ∈ ids ->
    (exists d t, node_inv (sent w) d t (nodes w i)) /\
    Config.ID (config i) = id (n_r (nodes w i)) /\
    Config.Peers (config i) = peers (n_r (nodes w i));
  ci_net : forall m, sent w m ->
    good m /\ Message.From m ∈ ids /\
    (is_grant m -> requested (sent w) (Message.To m) (Message.Term m));
  ci_elected : forall t i, (t, i) ∈ elected w -> i ∈ ids /\ backed w t i
}.

Lemma ids_nonzero i : i ∈ ids -> is_u64 i /\ i <> 0.
Proof. rewrite Forall_forall in ids_wf. apply ids_wf. Qed.

Lemma cluster_init w : initial w -> cluster_inv w.
Proof.
  intros (Hn & He & Hopen). assert (forall m, ~ sent w m) as Hno.
  { intros m. unfold sent. rewrite Hn. apply not_elem_of_nil. }
  constructor.
  - intros i Hi. destruct (Hopen i Hi) as (faults & draws & snap & Ho).
    apply node_start with (net := sent w) in Ho as (Hinv & Hid & Hpe & _).
    + split_and!; eauto.
    + by apply ids_nonzero.
    + intros m Hm. by destruct (Hno m).
  - intros m Hm. by destruct (Hno m).
  - intros t i. rewrite He. by intros ?%not_elem_of_nil.
Qed.

Lemma requested_mono (P Q : Message.t -> Prop) c t :
  (forall m, P m -> Q m) -> requested P c t -> requested Q c t.
Proof. intros H (m & ? & ?). exists m. auto. Qed.
Lemma granted_mono (P Q : Message.t -> Prop) j c t :
  (forall m, P m -> Q m) -> granted P j c t -> granted Q j c t.
Proof. intros H (m & ? & ?). exists m. auto. Qed.

(** What a step of node [i] releases, and the node afterwards. *)
Lemma step_node w i n' ms :
  cluster_inv w -> i ∈ ids -> nstep (config i) (path i) (sent w) (nodes w i) n' ms ->
  let sent' m := m ∈ net w ++ ms in
  (exists d t, node_inv sent' d t n') /\
  id (n_r n') = id (n_r (nodes w i)) /\ peers (n_r n') = peers (n_r (nodes w i)) /\
  Forall (fun m => good m /\ Message.From m = i /\
            (is_grant m -> requested (sent w) (Message.To m) (Message.Term m))) ms.
Proof.
  intros [Hnodes Hnet _] Hi Hstep sent'.
  destruct (Hnodes i Hi) as ((d & t & Hn) & Hid & Hpe).
  assert (forall m, sent w m -> good m /\ Message.From m <> 0) as Hgood.
  { intros m Hm. destruct (Hnet m Hm) as (? & Hf & _). split; [done |]. by apply ids_nonzero. }
  destruct (nstep_inv (config i) (path i) (sent w) Hgood d t _ n' ms Hid Hpe Hn Hstep)
    as ((d' & t' & Hn') & Hi' & Hp' & _).
  assert (ms = [] -> (exists d t, node_inv sent' d t n') /\
    Forall (fun m => good m /\ Message.From m = i /\
      (is_grant m -> requested (sent w) (Message.To m) (Message.Term m))) ms) as Hquiet.
  { intros ->. split; [| done]. exists d', t'. subst sent'. revert Hn'. apply node_grow;
      intros m; unfold sent; by rewrite app_nil_r. }
  destruct Hstep as [n o r' ? ? ? | n env n' ms rs sn Ht Hp | n env n' e Ht Hp
    | n k faults draws n' snap Ho]; try (destruct (Hquiet eq_refl); by split_and!).
  destruct (node_release (sent w) sent' d t n env n' ms rs sn Hn Ht Hp) as (-> & _ & _ & items & _ & Hni).
  { intros m Hm. apply elem_of_app. by left. }
  { intros m Hm. by apply elem_of_app in Hm. }
  split_and!; [eauto | done | done |].
  pose proof (sd_mail _ (ni_send _ _ _ _ Hn)) as Hmail. unfold mail in Hmail.
  pose proof (o_msgs _ _ (v_out _ _ (ni_vote _ _ _ _ Hn))) as Hmo.
  rewrite Forall_forall in *. intros m Hm. destruct (Hmo m Hm) as (Hf & _ & Hg).
  split_and!; [by apply Hmail | rewrite Hf; by symmetry | done].
Qed.

Lemma leader_backed w n i :
  (forall m, sent w m -> Message.From m ∈ ids) -> i ∈ ids ->
  Config.ID (config i) = id (n_r n) -> Config.Peers (config i) = peers (n_r n) ->
  vote_inv (sent w) (n_r n) -> role (n_r n) = Leader ->
  backed w (currentTerm (n_r n)) i.
Proof.
  intros Hfrom Hi Hid Hpe [] Hrole. simpl in Hid, Hpe.
  assert (campaigning (n_r n)) as Hc by (by right).
  exists (votesReceived (n_r n)). split_and!.
  - intros j Hj. apply elem_of_list_to_set. destruct (v_votes Hc j Hj) as [-> | (m & Hm & _ & <- & _)];
      [by rewrite <- Hid | by apply Hfrom].
  - specialize (v_quorum Hrole). unfold quorum, hasMajorityCount, clusterSize in v_quorum.
    apply Z.leb_le in v_quorum. rewrite <- Hpe, filter_count in v_quorum by done. done.
  - intros j Hj. rewrite Hid. by apply v_votes.
Qed.

Lemma cluster_step w w' : cluster_inv w -> cstep w w' -> cluster_inv w'.
Proof.
  intros Hc Hs. destruct Hs as [w i n' ms Hi Hstep].
  destruct (step_node w i n' ms Hc Hi Hstep) as (Hn' & Hid' & Hpe' & Hms).
  destruct Hc as [Hnodes Hnet Hel]. set (w' := {| nodes := _ |}).
  assert (forall m, sent w m -> sent w' m) as Hsub.
  { intros m Hm. apply elem_of_app. by left. }
  rewrite Forall_forall in Hms.
  assert (forall m, sent w' m -> sent w m \/ m ∈ ms) as Hback by (intros m Hm; by apply elem_of_app in Hm).
  assert (Hnet' : forall m, sent w' m -> good m /\ Message.From m ∈ ids /\
    (is_grant m -> requested (sent w') (Message.To m) (Message.Term m))).
  { intros m Hm. destruct (Hback m Hm) as [Hm'|Hm'].
    - destruct (Hnet m Hm') as (? & ? & Hr). split_and!; try done.
      intros. eapply requested_mono; [exact Hsub | auto].
    - destruct (Hms m Hm') as (? & -> & Hr). split_and!; try done.
      intros. eapply requested_mono; [exact Hsub | auto]. }
  destruct (Hnodes i Hi) as (_ & Hid & Hpe). rewrite <- Hid' in Hid. rewrite <- Hpe' in Hpe.
  constructor; [| exact Hnet' |].
  - intros j Hj. simpl. destruct (decide (j = i)) as [->|Hne].
    + rewrite fn_lookup_insert. by split_and!.
    + rewrite fn_lookup_insert_ne by done. destruct (Hnodes j Hj) as ((d & t & Hn) & Hidj & Hpej).
      split_and!; try done. exists d, t. revert Hn. apply node_grow; [exact Hsub |].
      intros m Hm Hf. destruct (Hback m Hm) as [? | Hm']; [done |].
      destruct (Hms m Hm') as (_ & Hfi & _). rewrite <- Hidj in Hf. simpl in Hf. congruence.
  - intros t j Ht. simpl in Ht. assert ((t, j) ∈ elected w ->  j ∈ ids /\ backed w' t j) as Hold.
    { intros H. destruct (Hel t j H) as (? & Q & ? & ? & HQ). split; [done |]. exists Q.
      split_and!; try done. intros k Hk. destruct (HQ k Hk); [by left | right].
      by eapply granted_mono. }
    unfold note in Ht. destruct (role_eqb _ _) eqn:Hr; [| auto].
    apply bool_decide_eq_true in Hr.
    apply elem_of_cons in Ht as [[= -> ->] | Ht]; [| auto]. split; [done |].
    destruct Hn' as (d & t & Hn'). apply (leader_backed w' n' i); try done.
    + intros m Hm. by apply Hnet'.
    + apply (ni_vote _ _ _ _ Hn').
Qed.

Lemma reachable_inv w : reachable w -> cluster_inv w.
Proof.
  induction 1; [by apply cluster_init | by eapply cluster_step].
Qed.

(** Every member of a majority has sent a ballot, as soon as the cluster has
    two nodes. *)
Lemma backed_ballots w t i (Q : gset Z) :
  cluster_inv w -> (2 <= size Q)%nat ->
  (forall j, j ∈ Q -> j = i \/ granted (sent w) j i t) ->
  forall k, k ∈ Q -> exists m, sent w m /\ Message.From m = k /\ ballot m = Some (t, i).
Proof.
  intros [_ Hnet _] Hsize HQ k Hk.
  assert (forall j, granted (sent w) j i t ->
            exists m, sent w m /\ Message.From m = j /\ ballot m = Some (t, i)) as Hgr.
  { intros j (m & Hm & Hg & Hf & Hto & Ht). exists m. split_and!; try done.
    rewrite ballot_grant by done. by rewrite Hto, Ht. }
  destruct (HQ k Hk) as [-> |]; [| auto].
  assert (exists j, j ∈ Q ∖ {[i]}) as [j Hj].
  { destruct (set_choose_or_empty (Q ∖ {[i]})) as [? | He]; [done |].
    assert (Q ⊆ {[i]}) as Hsub%subseteq_size.
    { intros x Hx. apply elem_of_singleton. destruct (decide (x = i)) as [|Hne]; [done |].
      destruct (He x) as [Hin _]. destruct (not_elem_of_empty (C := gset Z) x).
      apply Hin, elem_of_difference. by rewrite elem_of_singleton. }
    rewrite size_singleton in Hsub. lia. }
  apply elem_of_difference in Hj as [HjQ Hji].
  destruct (HQ j HjQ) as [-> | (m & Hm & Hg & Hf & Hto & Ht)];
    [by destruct Hji; apply elem_of_singleton |].
  destruct (Hnet m Hm) as (_ & _ & Hr). destruct (Hr Hg) as (q & Hq & Hreq & Hqf & Hqt).
  exists q. split_and!; [done | congruence |]. rewrite ballot_request by done. congruence.
Qed.

(** All ballots of one sender in one term name the same candidate. *)
Lemma ballots_agree w m1 m2 t c1 c2 :
  cluster_inv w -> sent w m1 -> sent w m2 -> Message.From m1 = Message.From m2 ->
  ballot m1 = Some (t, c1) -> ballot m2 = Some (t, c2) -> c1 = c2.
Proof.
  intros [Hnodes Hnet _] H1 H2 Hf E1 E2. destruct (Hnet m1 H1) as (_ & Hi & _).
  destruct (Hnodes _ Hi) as ((d & t' & Hn) & Hid & _). simpl in Hid.
  pose proof (o_agree _ _ (v_out _ _ (ni_vote _ _ _ _ Hn))) as Ha.
  apply (Ha m1 m2) with (t := t); try done; right; split; try done; congruence.
Qed.

(** Two members with a majority in one term are the same. *)
Lemma backed_unique w t i j :
  cluster_inv w -> i ∈ ids -> j ∈ ids -> backed w t i -> backed w t j -> i = j.
Proof.
  intros Hr Hii Hij (Qi & Hsi & Hqi & HQi) (Qj & Hsj & Hqj & HQj).
  destruct (Z.le_gt_cases 2 (len ids)) as [Hlen|Hlen].
  - assert (2 / 2 <= len ids / 2) as Hdiv by (apply Z.div_le_mono; lia). change (2 / 2) with 1 in Hdiv.
    destruct (quorums_meet Qi Qj Hsi Hsj Hqi Hqj) as (k & Hki & Hkj).
    destruct (backed_ballots w t i Qi Hr ltac:(lia) HQi k Hki) as (m1 & H1 & Hf1 & E1).
    destruct (backed_ballots w t j Qj Hr ltac:(lia) HQj k Hkj) as (m2 & H2 & Hf2 & E2).
    apply (ballots_agree w m1 m2 t); try done. congruence.
  - assert (length ids = 1)%nat as H1.
    { destruct ids; [by apply not_elem_of_nil in Hii |]. unfold len in Hlen. simpl in *. lia. }
    destruct ids as [|x [|]]; try done. apply list_elem_of_singleton in Hii, Hij. congruence.
Qed.

(** No vote is cast twice.  Whatever the nodes did, however often they
    crashed and restarted, two granted votes sent by the same node in the
    same term went to the same candidate, and a node that asked for votes in
    a term has granted none to another candidate in it. *)
Theorem vote_once w m1 m2 :
  reachable w -> sent w m1 -> sent w m2 ->
  Message.From m1 = Message.From m2 -> Message.Term m1 = Message.Term m2 ->
  is_grant m1 ->
  (is_grant m2 -> Message.To m1 = Message.To m2) /\
  (is_request m2 -> Message.To m1 = Message.From m2).
Proof.
  intros Hr%reachable_inv H1 H2 Hf Ht Hg. pose proof (ballot_grant _ Hg) as E1.
  split; intros Hm.
  - apply (ballots_agree w m1 m2 (Message.Term m1)); try done. by rewrite ballot_grant, Ht.
  - apply (ballots_agree w m1 m2 (Message.Term m1)); try done. by rewrite ballot_request, Ht.
Qed.

(** C2: election safety.  In every reachable state of the cluster, over any
    schedule of messages (lost, delayed, repeated, reordered), failed saves,
    crashes and restarts, no two different nodes ever led in the same term.  (A
    compaction finds no left-over temporary file that it could not remove; a
    crash keeps of the log what was synced and a prefix of the rest.) *)
Theorem election_safety w t i j :
  reachable w -> (t, i) ∈ elected w -> (t, j) ∈ elected w -> i = j.
Proof.
  intros Hr%reachable_inv Hi Hj. pose proof Hr as [_ _ Hel].
  destruct (Hel t i Hi) as [Hii Hbi]. destruct (Hel t j Hj) as [Hij Hbj].
  by apply (backed_unique w t).
Qed.

End Cluster.

(** ** A concrete schedule *)

Inductive action :=
  | ATick (i : Z)
  | ADeliver (i : Z) (k : nat)
  | APropose (i : Z) (data : bytes)
  | ASnapshot (i index : Z) (data : bytes)
  | APersist (i : Z)
  | ACrash (i : Z).

Section Schedule.
Context (ids : list Z) (election heartbeat : Z) (path : Z -> string).

Definition advance (w : world) (i : Z) (n' : Node) (ms : list Message.t) : world :=
  {| nodes := <[i := n']> (nodes w); net := net w ++ ms; elected := note i n' (elected w) |}.

Definition run_op (w : world) (i : Z) (o : op) : option world :=
  let n := nodes w i in
  if decide (i ∈ ids) then
    if currentTerm (n_r n) <? maxTerm then
      match exec (n_r n) o with
      | Ok r' => Some (advance w i {| n_r := r'; n_storage := n_storage n |} [])
      | _ => None
      end
    else None
  else None.

Definition act (w : world) (a : action) : option world :=
  match a with
  | ATick i => run_op w i OTick
  | ADeliver i k => match net w !! k with Some m => run_op w i (OStep m) | None => None end
  | APropose i data =>
      if (lastLogIndex (n_r (nodes w i)) + 1 <? maxIndex) && (len data <? Codec.dataMax) then run_op w i (OPropose [data]) else None
  | ASnapshot i index data => if len data <? Codec.dataMax then run_op w i (OSnapshot index data) else None
  | APersist i =>
      if decide (i ∈ ids) then
        match Persist sample_env (nodes w i) with
        | (n', Ok (ms, _, _)) => Some (advance w i n' ms)
        | _ => None
        end
      else None
  | ACrash i =>
      if decide (i ∈ ids) then
        match OpenNode (config ids election heartbeat i) (path i)
                (Some (Replay.healthy (Durability.crash_image (disk (n_storage (nodes w i))) 0))) true [] [] with
        | Ok (n', _) => Some (advance w i n' [])
        | _ => None
        end
      else None
  end.

Fixpoint run (w : world) (acts : list action) : option world :=
  match acts with
  | [] => Some w
  | a :: acts => match act w a with Some w => run w acts | None => None end
  end.

Abbreviation reachable := (reachable ids election heartbeat path).
Abbreviation cstep := (cstep ids election heartbeat path).

Lemma act_step w a w' : act w a = Some w' -> cstep w w'.
Proof.
  assert (forall i o, admissible (sent w) (n_r (nodes w i)) o -> run_op w i o = Some w' -> cstep w w') as Hop.
  { intros i o Ha. unfold run_op. destruct (decide (i ∈ ids)); [| done].
    destruct (Z.ltb_spec (currentTerm (n_r (nodes w i))) maxTerm); [| done].
    destruct (exec (n_r (nodes w i)) o) as [r'| |] eqn:E; [| done..]. intros [= <-].
    apply c_step; [done |]. by eapply ns_op. }
  destruct a as [i | i k | i data | i index data | i | i]; simpl.
  - by apply Hop.
  - destruct (net w !! k) as [m|] eqn:Hm; [| done]. apply Hop. by eapply list_elem_of_lookup_2.
  - destruct (_ && _) eqn:Hb; [| done]. apply andb_true_iff in Hb as [Hl%Z.ltb_lt Hd%Z.ltb_lt].
    apply Hop. split; [by rewrite len_cons | by repeat constructor].
  - destruct (Z.ltb_spec (len data) Codec.dataMax); [| done]. by apply Hop.
  - destruct (decide (i ∈ ids)); [| done].
    destruct (Persist sample_env (nodes w i)) as [n' [[[ms rs] sn]| |]] eqn:Hp; [| done..].
    intros [= <-]. apply c_step; [done |]. by eapply (ns_persist _ _ _ _ sample_env); [| exact Hp].
  - destruct (decide (i ∈ ids)); [| done]. destruct (OpenNode _ _ _ _ _ _) as [[n' snap]| |] eqn:Ho; [| done..].
    intros [= <-]. apply c_step; [done |]. by eapply ns_crash.
Qed.

Lemma run_reachable acts : forall w w', reachable w -> run w acts = Some w' -> reachable w'.
Proof.
  induction acts as [|a acts IH]; intros w w' Hr; cbn [run]; [by intros [= <-] |].
  destruct (act w a) as [w1|] eqn:E; [| done]. apply IH. eapply reach_step; [exact Hr | by apply (act_step w a)].
Qed.
End Schedule.

(** Node 1 of three campaigns and is elected in term 1 with node 2's vote. *)
Definition sample_ids : list Z := [1; 2; 3].
Definition sample_path (i : Z) : string := "raft.log".
Definition sample_world : world :=
  {| nodes := fun i => match OpenNode (config sample_ids 10 1 i) (sample_path i) None true [] [] with
                       | Ok (n, _) => n
                       | _ => sample_start
                       end;
     net := []; elected := [] |}.
Definition sample_acts : list action :=
  repeat (ATick 1) 10 ++
  [APersist 1; ADeliver 2 0; APersist 2; ADeliver 1 2; APersist 1;
   ADeliver 2 3; APersist 2; ADeliver 1 5; APersist 1].
Abbreviation sample_run_from := (run sample_ids 10 1 sample_path).
Definition sample_elected : world :=
  default sample_world (sample_run_from sample_world sample_acts).

Lemma sample_ids_nodup : NoDup sample_ids.
Proof. by apply (bool_decide_eq_true_1 (NoDup sample_ids)); vm_compute. Qed.
Lemma sample_ids_wf : Forall (fun i => is_u64 i /\ i <> 0) sample_ids.
Proof. repeat (apply Forall_cons; split); try (unfold is_u64; lia). apply Forall_nil. done. Qed.

Lemma sample_initial : initial sample_ids 10 1 sample_path sample_world.
Proof.
  split_and!; [done | done |]. intros i Hi. exists [], [].
  apply elem_of_cons in Hi as [-> | Hi]; [eexists; vm_compute; reflexivity |].
  apply elem_of_cons in Hi as [-> | Hi]; [eexists; vm_compute; reflexivity |].
  apply list_elem_of_singleton in Hi as ->. eexists; vm_compute; reflexivity.
Qed.

Lemma sample_run_elected :
  (elected <$> sample_run_from sample_world sample_acts) = Some [(1, 1); (1, 1)].
Proof. vm_compute. reflexivity. Qed.

Lemma sample_run :
  sample_run_from sample_world sample_acts = Some sample_elected /\
  elected sample_elected = [(1, 1); (1, 1)].
Proof.
  unfold sample_elected. pose proof sample_run_elected as H.
  destruct (sample_run_from sample_world sample_acts) as [w|]; [| done]. by injection H.
Qed.

Lemma sample_reachable : reachable sample_ids 10 1 sample_path sample_elected.
Proof.
  eapply run_reachable, (proj1 sample_run). apply reach_init, sample_initial.
Qed.

Lemma election_safety_witness :
  (1, 1) ∈ elected sample_elected /\ forall j, (1, j) ∈ elected sample_elected -> 1 = j.
Proof.
  split.
  - rewrite (proj2 sample_run). apply elem_of_cons. by left.
  - intros j. apply (election_safety sample_ids 10 1 sample_path sample_ids_nodup sample_ids_wf
      sample_elected 1 1 j sample_reachable).
    rewrite (proj2 sample_run). apply elem_of_cons. by left.
Defined.

Lemma vote_once_witness :
  exists m, sent sample_elected m /\ is_grant m /\
    (is_grant m -> Message.To m = Message.To m) /\ (is_request m -> Message.To m = Message.From m).
Proof.
  eexists (Message.stamp 2 1 (Message.vote_response MsgRequestVoteResponse 1 true)).
  assert (sent sample_elected (Message.stamp 2 1 (Message.vote_response MsgRequestVoteResponse 1 true))) as Hs.
  { apply (list_elem_of_lookup_2 _ 5). vm_compute. reflexivity. }
  split_and!; [exact Hs | by split | |];
    apply (vote_once sample_ids 10 1 sample_path sample_ids_nodup sample_ids_wf
      sample_elected _ _ sample_reachable Hs Hs); by try split.
Defined.
