(* ===== verification/RaftView.v ===== *)
(** * Raft: what a cluster knows about its logs

    The invariant behind state machine safety, for a cluster none of whose
    nodes has compacted its log.  A [view] holds what the argument needs of a
    whole cluster besides the nodes: the durable term of every node, the
    messages sent so far and, as a history variable, who led in each term
    with which log.  [node_ok] says what a node of src/raft/raft.go and its
    disk satisfy relative to a view, [view_ok] what the view itself does. *)

From S2P Require Import Prelude GoBytes RaftTypes Raft RaftLog RaftInv RaftVote RaftNode RaftCluster.

(** ** Lists of entries *)

Definition body (r : Raft) : list LogEntry.t := tail (log r).

Definition last_term (l : list LogEntry.t) : Z :=
  match last l with Some e => LogEntry.Term e | None => 0 end.

(** The term at a log index, 0 before the first entry. *)
Definition term_at (l : list LogEntry.t) (n : nat) : Z :=
  match n with
  | O => 0
  | S k => match l !! k with Some e => LogEntry.Term e | None => 0 end
  end.

Lemma take_le {A} (n k : nat) (l l' : list A) : (n <= k)%nat -> take k l = take k l' -> take n l = take n l'.
Proof.
  intros Hn H. rewrite <- (Nat.min_l n k Hn), <- !take_take. by rewrite H.
Qed.

Lemma take_of_prefix {A} (n : nat) (l l' : list A) : (n <= length l)%nat -> l `prefix_of` l' -> take n l' = take n l.
Proof. intros Hn [k ->]. by apply take_app_le. Qed.

Lemma take_lookup {A} (k : nat) (l l' : list A) : take (S k) l = take (S k) l' -> l !! k = l' !! k.
Proof.
  intros H. rewrite <- (lookup_take_lt l (S k) k), <- (lookup_take_lt l' (S k) k) by lia. by rewrite H.
Qed.

Lemma take_length_ge {A} (n : nat) (l l' : list A) : take n l = take n l' -> (n <= length l')%nat -> (n <= length l)%nat.
Proof. intros H Hn. apply (f_equal length) in H. rewrite !length_take in H. lia. Qed.

(** ** Messages that vouch for a log *)

(** An append and a positive answer to one both say that the sender's log
    agrees with the log of its term's leader up to here. *)
Definition voucher (m : Message.t) : Prop :=
  Message.Type_ m = MsgAppendEntries \/
  (Message.Type_ m = MsgAppendEntriesResponse /\ Message.Success m = true).
Definition top (m : Message.t) : Z :=
  match Message.Type_ m with
  | MsgAppendEntries => Message.PrevLogIndex m + len (Message.Entries m)
  | _ => Message.MatchIndex m
  end.
(** Positions count from 0: the entry of index [k + 1] is at position [k]. *)
Definition vouch (m : Message.t) (t : Z) (k : nat) : Prop :=
  voucher m /\ Message.Term m = t /\ Z.of_nat k < top m.

(** ** Views *)

Record view := {
  vS : Z -> Z;
  vN : Message.t -> Prop;
  vG : Z -> option (Z * list LogEntry.t)
}.

Section View.
Context (ids : list Z).

Definition majority (Q : gset Z) : Prop := Q ⊆ id_set ids /\ len ids / 2 + 1 <= Z.of_nat (size Q).

Section Defs.
Context (v : view).

(** The longest log the leader of term [t] ever had. *)
Definition LL (t : Z) : list LogEntry.t := match vG v t with Some (_, l) => l | None => [] end.

(** Every entry of [l] sits where the leader of its term put it, behind the
    same entries. *)
Definition okl (l : list LogEntry.t) : Prop :=
  forall k e, l !! k = Some e -> take (S k) l = take (S k) (LL (LogEntry.Term e)).

Definition holds (l : list LogEntry.t) (t : Z) (k : nat) : Prop := take (S k) l = take (S k) (LL t).

Definition vouched (j t : Z) (k : nat) : Prop := exists m, vN v m /\ Message.From m = j /\ vouch m t k.

(** A majority has vouched for position [k] of the log of term [t]. *)
Definition com (t : Z) (k : nat) : Prop :=
  exists Q, majority Q /\ forall j, j ∈ Q -> vouched j t k.
(** It has, or still may. *)
Definition choosable (t : Z) (k : nat) : Prop :=
  exists Q, majority Q /\ forall j, j ∈ Q -> vouched j t k \/ vS v j <= t.
(** An entry of the leader's own term. *)
Definition valid (t : Z) (k : nat) : Prop := exists e, LL t !! k = Some e /\ LogEntry.Term e = t.
Definition key (t : Z) (k : nat) : Prop := choosable t k /\ valid t k.

(** A majority voted for [i] in term [t]. *)
Definition won (t i : Z) : Prop :=
  exists Q, majority Q /\ forall j, j ∈ Q -> j = i \/ granted (vN v) j i t.

(** The log a request for votes describes. *)
Definition reqlog (q : Message.t) (l : list LogEntry.t) : Prop :=
  okl l /\ Message.LastLogIndex q = len l /\ Message.LastLogTerm q = last_term l.

(** The first [c] entries are decided, by the log of a term up to [u]. *)
Definition decided (c u : Z) (l : list LogEntry.t) : Prop :=
  0 < c -> exists t k, com t k /\ valid t k /\ t <= u /\ c <= Z.of_nat k + 1 /\
    take (Z.to_nat c) l = take (Z.to_nat c) (LL t).

Definition append_ok (m : Message.t) : Prop :=
  exists l, vG v (Message.Term m) = Some (Message.From m, l) /\
    0 <= Message.PrevLogIndex m /\ top m <= len l /\
    Message.PrevLogTerm m = term_at l (Z.to_nat (Message.PrevLogIndex m)) /\
    Message.Entries m = take (length (Message.Entries m)) (drop (Z.to_nat (Message.PrevLogIndex m)) l) /\
    Message.LeaderCommit m <= top m /\ decided (Message.LeaderCommit m) (Message.Term m) l.

Definition ack_ok (m : Message.t) : Prop :=
  Message.Success m = true -> exists a, vN v a /\ Message.Type_ a = MsgAppendEntries /\
    Message.Term a = Message.Term m /\ top a = Message.MatchIndex m.

Definition msg_fine (m : Message.t) : Prop :=
  Message.From m <> Message.To m /\ Message.From m ∈ ids /\
  match Message.Type_ m with
  | MsgAppendEntries => append_ok m
  | MsgAppendEntriesResponse => ack_ok m
  | MsgRequestVote => exists l, reqlog m l
  | MsgInstallSnapshot | MsgInstallSnapshotResponse => False
  | _ => True
  end.

Record view_ok : Prop := {
  g_led : forall t i l, vG v t = Some (i, l) ->
    i ∈ ids /\ won t i /\ okl l /\ Forall (fun e => LogEntry.Term e <= t) l;
  g_complete : forall t u k, t < u -> is_Some (vG v u) -> key t k -> holds (LL u) t k;
  g_net : forall m, vN v m -> msg_fine m /\ Message.Term m <= vS v (Message.From m);
  (* a grant answers a request *)
  g_asked : forall g, vN v g -> is_grant g -> requested (vN v) (Message.To g) (Message.Term g);
  g_pos : forall t x, vG v t = Some x -> 0 <= t
}.

(** A node's messages, sent or waiting to be. *)
Definition mine (i : Z) (r : Raft) (m : Message.t) : Prop :=
  m ∈ msgs r \/ (vN v m /\ Message.From m = i).

(** What the leader knows of its followers. *)
Definition progress (r : Raft) : Prop :=
  forall p, p ∈ peers r ->
    (get0 (matchIndex r) p = 0 \/
     exists a, vN v a /\ Message.From a = p /\ voucher a /\ Message.Term a = currentTerm r /\
       Message.Type_ a = MsgAppendEntriesResponse /\ Message.MatchIndex a = get0 (matchIndex r) p) /\
    1 <= get0 (nextIndex r) p <= len (body r) + 1 /\ 0 <= get0 (sentIndex r) p <= len (body r).

(** What holds of a candidate: the log it stands with has not changed. *)
Definition candidate (i : Z) (r : Raft) : Prop :=
  (forall l, vG v (currentTerm r) <> Some (i, l)) /\
  forall q, mine i r q -> is_request q -> Message.Term q = currentTerm r -> reqlog q (body r).

(** A vote was given to a log that holds everything the voter vouched for. *)
Definition grant_ok (i : Z) (r : Raft) (g : Message.t) : Prop :=
  exists q l, vN v q /\ is_request q /\ Message.From q = Message.To g /\
    Message.Term q = Message.Term g /\ reqlog q l /\
    forall m t k, mine i r m -> vouch m t k -> key t k -> t < Message.Term g -> holds l t k.

Record node_ok (i : Z) (r : Raft) (D : dstate -> Prop) : Prop := {
  n_id : id r = i;
  n_peers : peers r = filter (fun p => p <> i) ids;
  n_head : head (log r) = Some (LogEntry.mk 0 0 []);
  n_log : okl (body r);
  n_terms : Forall (fun e => LogEntry.Term e <= currentTerm r) (body r);
  n_cur : vS v i <= currentTerm r;
  n_box : Forall (fun m => msg_fine m /\ Message.From m = i /\
            vS v i <= Message.Term m <= currentTerm r) (msgs r);
  n_hold : forall m t k, mine i r m -> vouch m t k -> key t k -> holds (body r) t k;
  n_stable : forall t k, vouched i t k -> key t k ->
    Z.of_nat k + 1 < unstableIndex r /\ forall st, D st -> holds (d_log st) t k;
  n_disk : forall st, D st ->
    okl (d_log st) /\ Forall (fun e => LogEntry.Term e <= HardState.Term (d_hs st)) (d_log st);
  n_cand : role r = Candidate -> candidate i r;
  n_lead : role r = Leader -> vG v (currentTerm r) = Some (i, body r) /\ progress r;
  n_commit : decided (commitIndex r) (currentTerm r) (body r);
  n_grant : forall g, mine i r g -> is_grant g -> grant_ok i r g
}.
End Defs.

(** The cluster as a whole. *)
Definition all_ok (v : view) (R : Z -> Raft) (D : Z -> dstate -> Prop) : Prop :=
  view_ok v /\ forall i, i ∈ ids -> node_ok v i (R i) (D i).

(** ** Growing views *)

(** More messages, longer leader logs, higher durable terms; nothing becomes
    choosable that was not. *)
Record grows (v v' : view) : Prop := {
  gr_net : forall m, vN v m -> vN v' m;
  gr_led : forall t i l, vG v t = Some (i, l) -> exists l', vG v' t = Some (i, l') /\ l `prefix_of` l';
  gr_choose : forall t k, choosable v' t k -> choosable v t k;
  gr_stable : forall i, vS v i <= vS v' i
}.

Section Grows.
Context (v v' : view) (Hg : grows v v').

Lemma LL_grows t : LL v t `prefix_of` LL v' t.
Proof.
  unfold LL. destruct (vG v t) as [[i l]|] eqn:E; [| apply prefix_nil].
  apply (gr_led _ _ Hg) in E as (l' & -> & ?). done.
Qed.

(** A whole stretch of an old leader log is one of the new. *)
Lemma LL_take n l t : take n l = take n (LL v t) -> (n <= length (LL v t))%nat -> take n l = take n (LL v' t).
Proof. intros H Hn. by rewrite (take_of_prefix n _ _ Hn (LL_grows t)). Qed.

Lemma okl_grows l : okl v l -> okl v' l.
Proof.
  intros H k e Hk. pose proof (H k e Hk) as Ht. apply LL_take; [done |].
  apply (take_length_ge _ _ l); [done |]. apply lookup_lt_Some in Hk. lia.
Qed.

Lemma valid_length u t k : valid u t k -> (S k <= length (LL u t))%nat.
Proof. intros (e & He & _). apply lookup_lt_Some in He. lia. Qed.

Lemma holds_grows l t k : valid v t k -> holds v l t k -> holds v' l t k.
Proof. intros Hv%valid_length H. by apply LL_take. Qed.

Lemma valid_grows t k : valid v t k -> valid v' t k.
Proof.
  intros (e & He & Ht). exists e. split; [| done]. destruct (LL_grows t) as [x ->].
  by apply lookup_app_l_Some.
Qed.

(** Within the old leader log nothing becomes valid either. *)
Lemma valid_old t k : (k < length (LL v t))%nat -> valid v' t k -> valid v t k.
Proof.
  intros Hk (e & He & Ht). exists e. split; [| done]. destruct (LL_grows t) as [x Hx].
  rewrite Hx, lookup_app_l in He; done.
Qed.

Lemma key_old t k : (k < length (LL v t))%nat -> key v' t k -> key v t k.
Proof. intros Hk [Hc Hv]. split; [by apply (gr_choose _ _ Hg) | by apply valid_old]. Qed.

Lemma vouched_grows j t k : vouched v j t k -> vouched v' j t k.
Proof. intros (m & Hm & ?). exists m. split; [by apply (gr_net _ _ Hg) | done]. Qed.

Lemma com_grows t k : com v t k -> com v' t k.
Proof. intros (Q & HQ & H). exists Q. split; [done |]. intros j Hj. by apply vouched_grows, H. Qed.

Lemma won_grows t i : won v t i -> won v' t i.
Proof.
  intros (Q & HQ & H). exists Q. split; [done |]. intros j Hj.
  destruct (H j Hj) as [? | (m & Hm & ?)]; [by left | right]. exists m.
  split; [by apply (gr_net _ _ Hg) | done].
Qed.

Lemma decided_grows c u l : decided v c u l -> decided v' c u l.
Proof.
  intros H Hc. destruct (H Hc) as (t & k & Hcom & Hv & Hu & Hck & Hl). exists t, k.
  split_and!; [by apply com_grows | by apply valid_grows | done | done |].
  apply LL_take; [done |]. apply valid_length in Hv. lia.
Qed.

Lemma reqlog_grows q l : reqlog v q l -> reqlog v' q l.
Proof. intros (? & ? & ?). split_and!; try done. by apply okl_grows. Qed.

Lemma term_at_grows l l' n : l `prefix_of` l' -> (n <= length l)%nat -> term_at l' n = term_at l n.
Proof.
  intros [x ->] Hn. destruct n as [|n]; [done |]. simpl. rewrite lookup_app_l; [done | lia].
Qed.

Lemma msg_fine_grows m : msg_fine v m -> msg_fine v' m.
Proof.
  intros (Hft & Hi & H). split_and!; [done | done |]. destruct (Message.Type_ m) eqn:Hty; try done.
  - destruct H as (l & ?). exists l. by apply reqlog_grows.
  - destruct H as (l & Hled & Hp & Htop & Hpt & Hes & Hc & Hd).
    destruct (gr_led _ _ Hg _ _ _ Hled) as (l' & Hl' & Hpre). exists l'.
    assert (length l <= length l')%nat as Hlen by (by apply prefix_length).
    assert (top m = Message.PrevLogIndex m + len (Message.Entries m)) as Ht by (unfold top; by rewrite Hty).
    rewrite Ht in *. pose proof (len_nonneg (Message.Entries m)).
    split_and!; try done; [unfold len in *; lia | | |].
    + rewrite Hpt. symmetry. apply term_at_grows; [done | unfold len in *; lia].
    + rewrite Hes at 1. destruct Hpre as [x ->]. rewrite drop_app_le by (unfold len in *; lia).
      rewrite take_app_le; [done |]. rewrite length_drop. unfold len in *; lia.
    + intros Hc0. destruct (decided_grows _ _ _ Hd Hc0) as (t & k & ? & ? & ? & ? & Htk).
      exists t, k. split_and!; try done. rewrite <- Htk. apply take_of_prefix; [unfold len in *; lia | done].
  - intros Hs. destruct (H Hs) as (a & Ha & ?). exists a. split; [by apply (gr_net _ _ Hg) | done].
Qed.
End Grows.

(** What a message vouches for was in the log of its term's leader. *)
Lemma vouch_bound v m t k :
  view_ok v -> msg_fine v m -> vouch m t k -> (k < length (LL v t))%nat.
Proof.
  intros Hv Hm (Hvo & <- & Hk).
  assert (forall a, msg_fine v a -> Message.Type_ a = MsgAppendEntries -> top a <= len (LL v (Message.Term a))) as Happ.
  { intros a (_ & _ & Ha) Hty. rewrite Hty in Ha. destruct Ha as (l & Hl & _ & Ht & _). unfold LL. by rewrite Hl. }
  destruct Hvo as [Hty | [Hty Hs]].
  - specialize (Happ m Hm Hty). unfold len in *. lia.
  - destruct Hm as (_ & _ & Hm). rewrite Hty in Hm. destruct (Hm Hs) as (a & Ha & Haty & Hat & Htop).
    specialize (Happ a (proj1 (g_net _ Hv a Ha)) Haty). rewrite Htop, Hat in Happ.
    unfold top in Hk. rewrite Hty in Hk. unfold len in *. lia.
Qed.

Lemma mine_fine v i r D m : view_ok v -> node_ok v i r D -> mine v i r m -> msg_fine v m.
Proof.
  intros Hv Hn [Hm | [Hm _]]; [| by apply (g_net _ Hv)].
  pose proof (n_box _ _ _ _ Hn) as Hb. rewrite Forall_forall in Hb. by apply Hb.
Qed.

(** A node that does not move keeps its part of the invariant while the view
    grows, as long as it is not the one that sends. *)
Lemma node_grows v v' i r D :
  grows v v' -> view_ok v -> vS v' i = vS v i ->
  (forall m, vN v' m -> Message.From m = i -> vN v m) ->
  (campaigning r -> forall t l, vG v' t = Some (i, l) <-> vG v t = Some (i, l)) ->
  node_ok v i r D -> node_ok v' i r D.
Proof.
  intros Hg Hv HS Hback Hsame Hn.
  assert (forall m, mine v' i r m -> mine v i r m) as Hmine.
  { intros m [? | [? ?]]; [by left | right; auto]. }
  assert (forall m t k, mine v' i r m -> vouch m t k -> key v' t k -> key v t k) as Hkey.
  { intros m t k Hm Hvo. apply (key_old _ _ Hg). eapply vouch_bound; [done | | done].
    by eapply mine_fine; [| | apply Hmine]. }
  assert (forall t k, vouched v' i t k -> key v' t k -> vouched v i t k /\ key v t k) as Hvkey.
  { intros t k (m & Hm & Hf & Hvo) Hk. split; [exists m; auto |].
    apply (Hkey m); [right; auto | done..]. }
  pose proof Hn as []. constructor; rewrite ?HS; try done.
  - by apply (okl_grows _ _ Hg).
  - eapply Forall_impl; [done |]. intros m [? ?]. split; [| done].
    by apply (msg_fine_grows _ _ Hg).
  - intros m t k Hm Hvo Hk. specialize (Hkey m t k Hm Hvo Hk). apply (holds_grows _ _ Hg); [apply Hkey |].
    apply (n_hold0 m); auto.
  - intros t k Hvo Hk. destruct (Hvkey t k Hvo Hk) as [Hvo' Hk']. destruct (n_stable0 t k Hvo' Hk') as [Hu Hd].
    split; [done |]. intros st Hst. apply (holds_grows _ _ Hg); [apply Hk' | auto].
  - intros st Hst. destruct (n_disk0 st Hst) as [? ?]. split; [by apply (okl_grows _ _ Hg) | done].
  - intros Hr. destruct (n_cand0 Hr) as [Hnl Hq]. split.
    + intros l Hl. apply Hsame in Hl; [by apply (Hnl l) | by left].
    + intros q Hm Hrq Ht. apply (reqlog_grows _ _ Hg). auto.
  - intros Hr. destruct (n_lead0 Hr) as [Hl Hp]. split; [apply Hsame; [by right | done] |].
    intros p Hpi. destruct (Hp p Hpi) as ([? | (a & Ha & ?)] & ? & ?); split_and!; try tauto.
    right. exists a. split; [by apply (gr_net _ _ Hg) | done].
  - by apply (decided_grows _ _ Hg).
  - intros g Hm Hgr. destruct (n_grant0 g (Hmine g Hm) Hgr) as (q & l & Hq & ? & ? & ? & Hrl & Hh).
    exists q, l. split_and!; try done; [by apply (gr_net _ _ Hg) | by apply (reqlog_grows _ _ Hg) |].
    intros m t k Hm' Hvo Hk Hlt. specialize (Hkey m t k Hm' Hvo Hk).
    apply (holds_grows _ _ Hg); [apply Hkey | apply (Hh m); auto].
Qed.

(** ** Facts about logs *)

(** Terms along a log that sits right never decrease. *)
Lemma okl_terms v l k x e :
  view_ok v -> okl v l -> l !! k = Some e -> (exists j, (j <= k)%nat /\ l !! j = Some x) ->
  LogEntry.Term x <= LogEntry.Term e.
Proof.
  intros Hv Hl Hk (j & Hj & Hx). pose proof (Hl k e Hk) as Ht.
  apply (take_le (S j) (S k)) in Ht; [| lia]. apply take_lookup in Ht. rewrite Hx in Ht. symmetry in Ht.
  unfold LL in Ht. destruct (vG v (LogEntry.Term e)) as [[i l']|] eqn:E; [| done].
  destruct (g_led _ Hv _ _ _ E) as (_ & _ & _ & Hf). rewrite Forall_lookup in Hf. by eapply Hf.
Qed.

Lemma okl_take v l n : okl v l -> okl v (take n l).
Proof.
  intros H k e Hk. apply lookup_take_Some in Hk as [Hk Hn]. rewrite take_take, Nat.min_l by lia. by apply H.
Qed.

(** Two logs of one length that end in one term are equal. *)
Lemma okl_same v l l' :
  okl v l -> okl v l' -> length l = length l' -> last_term l = last_term l' -> l = l'.
Proof.
  intros H H' Hlen Ht. unfold last_term in Ht. rewrite !last_lookup in Ht.
  destruct (decide (length l = 0)%nat) as [E|E].
  { apply length_zero_iff_nil in E as ->. symmetry in Hlen. by apply length_zero_iff_nil in Hlen as ->. }
  destruct (lookup_lt_is_Some_2 l (pred (length l))) as [e He]; [lia |].
  destruct (lookup_lt_is_Some_2 l' (pred (length l'))) as [e' He']; [lia |].
  rewrite He, He' in Ht. apply H in He. apply H' in He'. rewrite Ht in He. rewrite <- Hlen in He'.
  replace (S (pred (length l))) with (length l) in * by lia. rewrite firstn_all in He.
  rewrite Hlen, firstn_all, <- Hlen in He'. congruence.
Qed.

Lemma reqlog_unique v q l l' : reqlog v q l -> reqlog v q l' -> l = l'.
Proof.
  intros (? & H1 & ?) (? & H2 & ?). apply (okl_same v); [done | done | unfold len in *; lia | congruence].
Qed.

(** Everything decided up to term [u] is in the log of [u]'s leader. *)
Lemma decided_led v t u k :
  view_ok v -> key v t k -> t <= u -> is_Some (vG v u) -> holds v (LL v u) t k.
Proof.
  intros Hv Hk Htu Hu. destruct (Z.eq_dec t u) as [->|]; [done |]. apply (g_complete _ Hv); [lia | done | done].
Qed.

Lemma com_choosable v t k : com v t k -> choosable v t k.
Proof. intros (Q & HQ & H). exists Q. split; [done |]. intros j Hj. left. auto. Qed.

Lemma decided_log v c u w l :
  view_ok v -> decided v c u l -> u <= w -> is_Some (vG v w) ->
  take (Z.to_nat c) l = take (Z.to_nat c) (LL v w).
Proof.
  intros Hv Hd Huw Hw. destruct (Z.le_gt_cases c 0). { by rewrite Z2Nat.nonpos by lia. }
  destruct (Hd ltac:(lia)) as (t & k & Hc & Hva & Htu & Hck & ->).
  symmetry. apply (take_le _ (S k)); [lia |]. apply decided_led; [done | | lia | done].
  split; [by apply com_choosable | done].
Qed.

(** ** Quorums *)

Section Quorums.
Context (ids_nodup : NoDup ids) (two : 2 <= len ids).

Lemma majorities_meet Q1 Q2 : majority Q1 -> majority Q2 -> exists k, k ∈ Q1 /\ k ∈ Q2.
Proof. intros [? ?] [? ?]. by apply (quorums_meet ids ids_nodup). Qed.

Lemma majority_two Q : majority Q -> (2 <= size Q)%nat.
Proof.
  intros [_ Hq]. assert (2 / 2 <= len ids / 2) as Hd by (apply Z.div_le_mono; lia).
  change (2 / 2) with 1 in Hd. lia.
Qed.

(** A set of two has a member besides [i]. *)
Lemma another (Q : gset Z) i : (2 <= size Q)%nat -> exists j, j ∈ Q /\ j <> i.
Proof.
  intros Hs. destruct (set_choose_or_empty (Q ∖ {[i]})) as [[j Hj] | He].
  { apply elem_of_difference in Hj as [? Hji]. exists j. split; [done |].
    intros ->. by destruct Hji; apply elem_of_singleton. }
  assert (Q ⊆ {[i]}) as Hsub%subseteq_size.
  { intros x Hx. apply elem_of_singleton. destruct (decide (x = i)) as [|Hne]; [done |].
    destruct (He x) as [Hin _]. destruct (not_elem_of_empty (C := gset Z) x).
    apply Hin, elem_of_difference. by rewrite elem_of_singleton. }
  rewrite size_singleton in Hsub. lia.
Qed.

(** Everybody who elected [i], [i] included, has sent a message in that term,
    and so has made the term durable. *)
Lemma won_stable v t i j Q :
  view_ok v -> majority Q -> (forall j, j ∈ Q -> j = i \/ granted (vN v) j i t) -> j ∈ Q -> t <= vS v j.
Proof.
  intros Hv HQ Hall.
  assert (forall j, granted (vN v) j i t -> t <= vS v j) as Hgr.
  { intros x (g & Hg & _ & <- & _ & <-). by apply (g_net _ Hv). }
  intros Hj. destruct (Hall j Hj) as [-> |]; [| auto].
  destruct (another Q i (majority_two Q HQ)) as (x & Hx & Hne).
  destruct (Hall x Hx) as [? | (g & Hg & Hgg & _ & Hto & Ht)]; [done |].
  destruct (g_asked _ Hv g Hg Hgg) as (q & Hq & _ & Hf & Hqt).
  rewrite <- Hto, <- Ht, <- Hf, <- Hqt. by apply (g_net _ Hv).
Qed.

(** Once a later leader is elected, only what was vouched for before can
    still be chosen. *)
Lemma choosable_vouched v t u i k :
  view_ok v -> won v u i -> t < u -> choosable v t k -> exists j, vouched v j t k.
Proof.
  intros Hv (Q & HQ & Hall) Htu (Q' & HQ' & Hall').
  destruct (majorities_meet Q Q' HQ HQ') as (j & Hj & Hj').
  pose proof (won_stable v u i j Q Hv HQ Hall Hj). destruct (Hall' j Hj') as [? | ?]; [eauto | lia].
Qed.

(** ** A leader and its log *)

Definition lead (v : view) (T i : Z) (b : list LogEntry.t) : view :=
  {| vS := vS v; vN := vN v; vG := fun t => if decide (t = T) then Some (i, b) else vG v t |}.

Section Lead.
Context (v : view) (T i : Z) (b : list LogEntry.t).
Context (Hv : view_ok v) (Hi : i ∈ ids) (HT : 0 <= T) (Hwon : won v T i).
Context (Hfree : vG v T = None \/ exists l, vG v T = Some (i, l)).
Context (Hpre : LL v T `prefix_of` b).
Context (Hterms : Forall (fun e => LogEntry.Term e <= T) b).
Context (Hokl : forall k e, b !! k = Some e -> LogEntry.Term e = T \/
  take (S k) b = take (S k) (LL v (LogEntry.Term e))).
Context (Hcomplete : forall t k, t < T -> key v t k -> holds v b t k).

Lemma lead_grows : grows v (lead v T i b).
Proof.
  constructor; try done. intros t j l Ht. simpl. destruct (decide (t = T)) as [->|]; [| eauto].
  exists b. unfold LL in Hpre. rewrite Ht in Hpre. split; [| done].
  destruct Hfree as [E | [l' E]]; rewrite E in Ht; [done |]. by injection Ht as -> ->.
Qed.

Lemma LL_lead : LL (lead v T i b) T = b.
Proof. unfold LL. simpl. by rewrite decide_True. Qed.
Lemma LL_lead_ne t : t <> T -> LL (lead v T i b) t = LL v t.
Proof. intros. unfold LL. simpl. by rewrite decide_False. Qed.

Lemma okl_lead : okl (lead v T i b) b.
Proof.
  intros k e He. destruct (decide (LogEntry.Term e = T)) as [->|Hne]; [by rewrite LL_lead |].
  rewrite LL_lead_ne by done. by destruct (Hokl k e He).
Qed.

Lemma lead_ok : view_ok (lead v T i b).
Proof.
  pose proof lead_grows as Hg. pose proof Hv as []. constructor; [| | | done |].
  - intros t j l. simpl. destruct (decide (t = T)) as [->|].
    + intros [= <- <-]. split_and!; [done | by apply (won_grows _ _ Hg) | apply okl_lead | done].
    + intros Ht. destruct (g_led0 t j l Ht) as (? & ? & ? & ?).
      split_and!; [done | by apply (won_grows _ _ Hg) | by apply (okl_grows _ _ Hg) | done].
  - intros t u k Htu Hu Hk.
    destruct (decide (u = T)) as [->|Hu'].
    { rewrite LL_lead. unfold holds. rewrite LL_lead_ne by lia. apply Hcomplete; [done |].
      destruct Hk as [? Hva]. split; [done |]. unfold valid in *. rewrite LL_lead_ne in Hva by lia. done. }
    simpl in Hu. rewrite decide_False in Hu by done. rewrite LL_lead_ne by done.
    assert (key v t k) as Hk'.
    { apply (key_old _ _ Hg); [| done]. destruct (decide (t = T)) as [->|].
      - destruct Hu as [[j l] Hj]. destruct (g_led0 u j l Hj) as (_ & Hw & _).
        destruct (choosable_vouched v T u j k Hv Hw Htu) as (x & m & Hm & _ & Hvo); [apply Hk |].
        eapply vouch_bound; [done | by apply g_net0 | done].
      - destruct Hk as [_ Hva%valid_length]. rewrite LL_lead_ne in Hva by done. lia. }
    apply (holds_grows _ _ Hg); [apply Hk' | by apply g_complete0].
  - intros m Hm. destruct (g_net0 m Hm). split; [by apply (msg_fine_grows _ _ Hg) | done].
  - intros t x. simpl. destruct (decide (t = T)) as [->|]; [done | apply g_pos0].
Qed.
End Lead.
End Quorums.

(** ** Moves of one node under a fixed view *)

Section Local.
Context (v : view) (Hv : view_ok v) (i : Z) (D : dstate -> Prop).

Lemma mine_term r m : node_ok v i r D -> mine v i r m -> Message.Term m <= currentTerm r.
Proof.
  intros Hn [Hm | [Hm Hf]].
  - pose proof (n_box _ _ _ _ Hn) as Hb. rewrite Forall_forall in Hb. by apply Hb in Hm as (_ & _ & _ & ?).
  - destruct (g_net _ Hv m Hm) as [_ Ht]. rewrite Hf in Ht. pose proof (n_cur _ _ _ _ Hn). lia.
Qed.

(** Any change that sends nothing and keeps what was vouched for. *)
Lemma node_change r r' :
  node_ok v i r D ->
  id r' = id r -> peers r' = peers r -> head (log r') = head (log r) -> msgs r' = msgs r ->
  currentTerm r <= currentTerm r' ->
  okl v (body r') -> Forall (fun e => LogEntry.Term e <= currentTerm r') (body r') ->
  (forall t k, key v t k -> t <= currentTerm r -> holds v (body r) t k ->
     holds v (body r') t k /\ (Z.of_nat k + 1 < unstableIndex r -> Z.of_nat k + 1 < unstableIndex r')) ->
  decided v (commitIndex r') (currentTerm r') (body r') ->
  (role r' = Candidate -> candidate v i r') ->
  (role r' = Leader -> vG v (currentTerm r') = Some (i, body r') /\ progress v r') ->
  node_ok v i r' D.
Proof.
  intros Hn Hid Hpe Hhe Hms Hct Hlog Hte Hkeep Hco Hca Hle.
  assert (forall m, mine v i r' m <-> mine v i r m) as Hmine by (intros m; unfold mine; by rewrite Hms).
  assert (forall m, mine v i r m -> Message.Term m <= currentTerm r) as Hmt by (intros m; by apply mine_term).
  pose proof Hn as []. constructor; rewrite ?Hid, ?Hpe, ?Hhe, ?Hms; try done.
  - lia.
  - eapply Forall_impl; [done |]. intros m (? & ? & ? & ?). split_and!; done || lia.
  - intros m t k Hm Hvo Hk. apply Hmine in Hm. apply Hkeep; [done | | by apply (n_hold0 m)].
    destruct Hvo as (_ & <- & _). auto.
  - intros t k Hvo Hk. destruct (n_stable0 t k Hvo Hk) as [Hu Hd]. split; [| done].
    destruct Hvo as (m & Hm & Hf & Hvo). assert (mine v i r m) as Hmi by (by right).
    apply (Hkeep t k Hk); [| by apply (n_hold0 m) | done]. destruct Hvo as (_ & <- & _). auto.
  - intros g Hm Hg. apply Hmine in Hm. destruct (n_grant0 g Hm Hg) as (q & l & ? & ? & ? & ? & ? & Hh).
    exists q, l. split_and!; try done. intros m t k Hm'. apply Hh. by apply Hmine.
Qed.

(** A change of nothing the invariant mentions, except that the term may
    rise and the node may stop campaigning. *)
Definition log_fields (r : Raft) := (id r, peers r, log r, msgs r, unstableIndex r, commitIndex r).

Lemma node_relax r r' :
  node_ok v i r D -> log_fields r' = log_fields r -> currentTerm r <= currentTerm r' ->
  (campaigning r' -> role r' = role r /\ currentTerm r' = currentTerm r /\
     nextIndex r' = nextIndex r /\ matchIndex r' = matchIndex r /\ sentIndex r' = sentIndex r) ->
  node_ok v i r' D.
Proof.
  intros Hn Hf Hct Hca. unfold log_fields in Hf. injection Hf as Hid Hpe Hlo Hms Hun Hco.
  assert (body r' = body r) as Hb by (unfold body; by rewrite Hlo).
  pose proof Hn as []. apply (node_change r r'); rewrite ?Hb, ?Hlo, ?Hco; try done.
  - eapply Forall_impl; [done |]. simpl. lia.
  - rewrite Hun. done.
  - intros Hc. destruct (n_commit0 Hc) as (t & k & ? & ? & ? & ? & ?). exists t, k. split_and!; done || lia.
  - intros Hr. destruct (Hca (or_introl Hr)) as (Hr' & Ht & _). rewrite Hr in Hr'. symmetry in Hr'.
    destruct (n_cand0 Hr') as [H1 H2]. unfold candidate, mine. rewrite Ht, Hb, Hms. done.
  - intros Hr. destruct (Hca (or_intror Hr)) as (Hr' & Ht & Hne & Hma & Hse). rewrite Hr in Hr'. symmetry in Hr'.
    destruct (n_lead0 Hr') as [H1 H2]. rewrite Ht. split; [done |].
    unfold progress. rewrite Hpe, Hne, Hma, Hse, Hb, Ht. done.
Qed.

(** Sending. *)
Lemma node_send r m :
  node_ok v i r D -> let m' := Message.stamp (id r) (currentTerm r) m in
  msg_fine v m' ->
  (forall t k, vouch m' t k -> key v t k -> holds v (body r) t k) ->
  (is_request m' -> role r = Candidate -> reqlog v m' (body r)) ->
  (is_grant m' -> grant_ok v i r m') ->
  node_ok v i (send m r) D.
Proof.
  intros Hn m' Hfine Hvo Hrq Hgr. pose proof Hn as [].
  assert (forall x, mine v i (send m r) x -> x = m' \/ mine v i r x) as Hmine.
  { intros x [[Hx|Hx%list_elem_of_singleton]%elem_of_app | Hx]; [right; by left | by left | right; by right]. }
  assert (Message.Term m' = currentTerm r) as Hmt by done.
  constructor; try done.
  - simpl. apply Forall_app. split; [done |]. apply Forall_singleton. fold m'. split_and!; [done | done | done | lia].
  - intros x t k Hx Hxv Hk. change (body (send m r)) with (body r).
    destruct (Hmine x Hx) as [-> | Hx']; [by apply Hvo | by apply (n_hold0 x)].
  - intros Hr. destruct (n_cand0 Hr) as [H1 H2]. split; [done |]. intros q Hq Hqr Hqt.
    change (body (send m r)) with (body r). destruct (Hmine q Hq) as [-> | Hq']; [by apply Hrq | by apply H2].
  - intros g Hg Hgg. assert (grant_ok v i r g) as (q & l & Hq & Hqr & Hqf & Hqt & Hrl & Hh).
    { destruct (Hmine g Hg) as [-> | Hg']; [by apply Hgr | by apply n_grant0]. }
    exists q, l. split_and!; try done. intros x t k Hx Hxv Hk Hlt.
    destruct (Hmine x Hx) as [-> | Hx']; [| by apply (Hh x)].
    destruct Hxv as (_ & <- & _). rewrite Hmt in Hlt.
    assert (Message.Term g <= currentTerm r); [| lia].
    destruct (Hmine g Hg) as [-> | Hg']; [lia | by apply (mine_term r)].
Qed.

(** A message that neither votes nor vouches. *)
Lemma node_send_plain r m :
  node_ok v i r D -> ~ is_request m -> ~ is_grant m -> ~ voucher m ->
  Message.Type_ m <> MsgInstallSnapshot -> Message.Type_ m <> MsgInstallSnapshotResponse ->
  i ∈ ids -> Message.To m <> i -> node_ok v i (send m r) D.
Proof.
  intros Hn Hr Hg Hvo H1 H2 Hi Hto. pose proof (n_id _ _ _ _ Hn) as Hid. apply node_send; try done.
  - unfold msg_fine; simpl. rewrite Hid. split_and!; [done | done |].
    unfold voucher, is_request in *. destruct (Message.Type_ m) eqn:E; try done; try tauto.
    intros Hs. simpl in Hs. destruct Hvo. by right.
  - intros t k (Hx & _). by destruct Hvo.
Qed.
End Local.

(** ** Moves that change the view *)

Section Moves.
Context (ids_nodup : NoDup ids) (two : 2 <= len ids).
Context (R : Z -> Raft) (D : Z -> dstate -> Prop) (i : Z) (Hi : i ∈ ids).

Definition others (v : view) : Prop := forall j, j ∈ ids -> j <> i -> node_ok v j (R j) (D j).

Lemma others_grows v v' :
  grows v v' -> view_ok v ->
  (forall j, j <> i -> vS v' j = vS v j) ->
  (forall m, vN v' m -> Message.From m <> i -> vN v m) ->
  (forall j t l, j <> i -> vG v' t = Some (j, l) <-> vG v t = Some (j, l)) ->
  others v -> others v'.
Proof.
  intros Hg Hv HS HN HG Ho j Hj Hne. apply (node_grows v v'); auto.
  intros m Hm <-. by apply HN.
Qed.

(** The state of the cluster while node [i] moves. *)
Record at_node (v : view) (r : Raft) (Di : dstate -> Prop) : Prop := {
  a_view : view_ok v;
  a_others : others v;
  a_node : node_ok v i r Di
}.

(** *** Leading *)

(** Node [i] leads its term with log [b], or extends the log it leads with. *)
Lemma move_lead v r r' b Di :
  at_node v r Di -> 0 <= currentTerm r -> won v (currentTerm r) i ->
  (vG v (currentTerm r) = None \/ exists l, vG v (currentTerm r) = Some (i, l)) ->
  LL v (currentTerm r) `prefix_of` b -> body r `prefix_of` b -> body r' = b ->
  Forall (fun e => LogEntry.Term e <= currentTerm r) b ->
  (forall k e, b !! k = Some e -> LogEntry.Term e = currentTerm r \/
     take (S k) b = take (S k) (LL v (LogEntry.Term e))) ->
  (forall t k, t < currentTerm r -> key v t k -> holds v b t k) ->
  (id r', peers r', msgs r', unstableIndex r', commitIndex r', currentTerm r', head (log r'), role r')
  = (id r, peers r, msgs r, unstableIndex r, commitIndex r, currentTerm r, head (log r), Leader) ->
  progress v r' ->
  let v' := lead v (currentTerm r) i b in grows v v' /\ at_node v' r' Di.
Proof.
  intros [Hv Ho Hn] Hpos Hwon Hfree Hpre Hbp Hb Hterms Hokl Hcomp Hfr Hpr v'.
  injection Hfr as Hid Hpe Hms Hun Hco Hct Hhe Hro.
  assert (grows v v') as Hg by (by apply lead_grows). split; [done |].
  assert (view_ok v') as Hv' by (by apply lead_ok). constructor; [done | |].
  { apply (others_grows v); try done. intros j t l Hne. simpl.
    destruct (decide (t = currentTerm r)) as [->|]; [| done]. split; [intros [= ? _]; congruence |].
    destruct Hfree as [-> | [l' ->]]; [done |]. intros [= ? _]. congruence. }
  set (r0 := set_role Follower r).
  assert (node_ok v i r0 Di) as Hn0.
  { apply (node_relax v Hv i Di r); try done. intros [?|?]; done. }
  apply (node_grows v v') in Hn0; try done; [| intros [?|?]; done].
  assert (forall n, (n <= length (body r))%nat -> take n b = take n (body r)) as Htk
    by (intros; by apply take_of_prefix).
  pose proof (n_commit _ _ _ _ Hn0) as Hdec. change (decided v' (commitIndex r) (currentTerm r) (body r)) in Hdec.
  apply (node_change v' Hv' i Di r0); rewrite ?Hb, ?Hct; try done.
  - by apply okl_lead.
  - intros t k [_ Hva%valid_length] _ Hh. rewrite Hun. split; [| done]. unfold holds in *. rewrite <- Hh.
    apply Htk. by apply take_length_ge in Hh.
  - rewrite Hco. intros Hc. destruct (Hdec Hc) as (t & k & ? & Hva & ? & ? & Hl). exists t, k.
    split_and!; try done. rewrite <- Hl. apply Htk. apply take_length_ge in Hl; [done |].
    apply valid_length in Hva. lia.
  - by rewrite Hro.
  - intros _. split; [simpl; by rewrite decide_True |]. done.
Qed.

(** A candidate with a majority holds everything that can have been chosen. *)
Lemma candidate_complete v r Di t k :
  at_node v r Di -> role r = Candidate -> won v (currentTerm r) i ->
  t < currentTerm r -> key v t k -> holds v (body r) t k.
Proof.
  intros [Hv Ho Hn] Hr (Q & HQ & Hall) Htu Hk. pose proof Hk as [(Q' & HQ' & Hall') _].
  destruct (majorities_meet ids_nodup Q Q' HQ HQ') as (j & Hj & Hj').
  pose proof (won_stable two v _ _ j Q Hv HQ Hall Hj) as Hst.
  destruct (Hall' j Hj') as [(m & Hm & Hf & Hvo) | ?]; [| lia].
  destruct (decide (j = i)) as [->|Hne].
  { apply (n_hold _ _ _ _ Hn m); [by right | done | done]. }
  destruct (Hall j Hj) as [? | (g & Hg & Hgg & Hgf & Hgt & Hgu)]; [done |].
  assert (j ∈ ids) as Hji by (rewrite <- Hf; by apply (g_net _ Hv m Hm)).
  destruct (n_grant _ _ _ _ (Ho j Hji Hne) g) as (q & l & Hq & Hqr & Hqf & Hqt & Hrl & Hh); [by right | done |].
  assert (reqlog v q (body r)) as Hrl'.
  { apply (n_cand _ _ _ _ Hn Hr); [right; split; [done | congruence] | done | congruence]. }
  rewrite (reqlog_unique v q _ _ Hrl' Hrl). apply (Hh m); [by right | done | done | congruence].
Qed.

Lemma won_leader_stable v u : view_ok v -> won v u i -> u <= vS v i.
Proof.
  intros Hv (Q & HQ & Hall). destruct (another Q i (majority_two two Q HQ)) as (x & Hx & Hne).
  destruct (Hall x Hx) as [? | (g & Hg & Hgg & _ & Hto & Ht)]; [done |].
  destruct (g_asked _ Hv g Hg Hgg) as (q & Hq & _ & Hf & Hqt).
  rewrite <- Ht, <- Hqt. replace i with (Message.From q) by congruence. by apply (g_net _ Hv).
Qed.

Lemma okl_not_led v l T k e : okl v l -> vG v T = None -> l !! k = Some e -> LogEntry.Term e <> T.
Proof.
  intros Ho HT Hk <-. pose proof (Ho k e Hk) as H. unfold LL in H. rewrite HT, take_nil in H.
  by destruct l.
Qed.

(** *** Saving *)

(** The view after a save: the outbox has joined the network. *)
Definition release (v : view) (r : Raft) (N' : Message.t -> Prop) : view :=
  {| vS := fun j => if decide (j = i) then currentTerm r else vS v j; vN := N'; vG := vG v |}.

Section Release.
Context (v : view) (r : Raft) (N' : Message.t -> Prop) (Di : dstate -> Prop) (Hv : view_ok v) (Hn : node_ok v i r Di).
Context (HN : forall m, N' m <-> vN v m \/ m ∈ msgs r).

Lemma release_box m : m ∈ msgs r -> msg_fine v m /\ Message.From m = i /\ vS v i <= Message.Term m <= currentTerm r.
Proof. pose proof (n_box _ _ _ _ Hn) as Hb. rewrite Forall_forall in Hb. apply Hb. Qed.

Lemma release_grows : grows v (release v r N').
Proof.
  pose proof (n_cur _ _ _ _ Hn) as Hcur. constructor; [intros m Hm; apply HN; by left | eauto | |].
  - intros t k (Q & HQ & Hall). exists Q. split; [done |]. intros j Hj.
    destruct (Hall j Hj) as [(m & Hm & Hf & Hvo) | Hst].
    + apply HN in Hm as [Hm|Hm]; [left; by exists m | right]. destruct (release_box m Hm) as (_ & Hfi & ? & _).
      destruct Hvo as (_ & <- & _). congruence.
    + right. simpl in Hst. destruct (decide (j = i)) as [->|]; [lia | done].
  - intros j. simpl. destruct (decide (j = i)) as [->|]; [done | lia].
Qed.

Lemma release_view :
  (forall g, g ∈ msgs r -> is_grant g -> requested (vN v) (Message.To g) (Message.Term g)) -> view_ok (release v r N').
Proof.
  intros Hreq. pose proof release_grows as Hg. pose proof (n_cur _ _ _ _ Hn) as Hcur. pose proof Hv as []. constructor.
  - intros t j l Ht. destruct (g_led0 t j l Ht) as (? & ? & ? & ?).
    split_and!; [done | by apply (won_grows _ _ Hg) | by apply (okl_grows _ _ Hg) | done].
  - intros t u k Htu Hu [Hc Hva]. apply (gr_choose _ _ Hg) in Hc. by apply g_complete0.
  - intros m [Hm|Hm]%HN; simpl.
    + destruct (g_net0 m Hm) as [? Ht]. split; [by apply (msg_fine_grows _ _ Hg) |].
      destruct (decide (Message.From m = i)) as [E|]; [rewrite E in Ht; lia | done].
    + destruct (release_box m Hm) as (? & Hf & _ & Ht). split; [by apply (msg_fine_grows _ _ Hg) |].
      by rewrite Hf, decide_True.
  - intros g Hg' Hgg. apply (requested_mono (vN v)); [apply (gr_net _ _ Hg) |].
    apply HN in Hg' as [? | ?]; [by apply g_asked0 | by apply Hreq].
  - done.
Qed.

Lemma release_mine r' x : msgs r' = [] -> mine (release v r N') i r' x -> mine v i r x.
Proof. intros Hms [Hx | [[Hx|Hx]%HN Hf]]; [rewrite Hms in Hx; by apply not_elem_of_nil in Hx | by right | by left]. Qed.

Lemma release_key m t k :
  mine v i r m -> vouch m t k -> key (release v r N') t k -> key v t k /\ holds v (body r) t k.
Proof.
  intros Hm Hvo Hk. assert (key v t k) as Hk'.
  { apply (key_old v _ release_grows); [| done]. apply (vouch_bound v m); [done | by eapply mine_fine | done]. }
  split; [done |]. by apply (n_hold _ _ _ _ Hn m).
Qed.
End Release.

(** A successful save. *)
Lemma move_release v r r' (N' : Message.t -> Prop) Di Di' :
  at_node v r Di -> (forall m, N' m <-> vN v m \/ m ∈ msgs r) ->
  let v' := release v r N' in
  (forall g, g ∈ msgs r -> is_grant g -> requested (vN v) (Message.To g) (Message.Term g)) ->
  (id r', peers r', log r', commitIndex r', currentTerm r', msgs r')
  = (id r, peers r, log r, commitIndex r, currentTerm r, []) ->
  (role r', nextIndex r', matchIndex r', sentIndex r') = (role r, nextIndex r, matchIndex r, sentIndex r) ->
  len (body r) < unstableIndex r' ->
  (forall st, Di' st -> d_log st = body r /\ HardState.Term (d_hs st) = currentTerm r) ->
  grows v v' /\ at_node v' r' Di'.
Proof.
  intros [Hv Ho Hn] HN v' Hreq Hfr Hpg Hun HD. injection Hfr as Hid Hpe Hlo Hco Hct Hms.
  injection Hpg as Hro Hne Hma Hse. pose proof Hn as []. pose proof (release_grows v r N' Di Hn HN) as Hg. fold v' in Hg.
  pose proof (fun x => release_mine v r N' HN r' x Hms) as Hmine. fold v' in Hmine.
  pose proof (fun m t k Hm => release_key v r N' Di Hv Hn HN m t k (Hmine m Hm)) as Hkey. fold v' in Hkey.
  assert (body r' = body r) as Hb by (unfold body; by rewrite Hlo).
  split; [done |]. constructor; [by apply (release_view v r N' Di) | |].
  - apply (others_grows v); try done.
    + intros j Hj. simpl. by rewrite decide_False.
    + intros m [Hm|Hm]%HN Hf; [done |]. by destruct (release_box v r Di Hn m Hm) as (_ & ? & _).
  - constructor; rewrite ?Hid, ?Hpe, ?Hms, ?Hlo, ?Hb, ?Hct, ?Hro, ?Hco; try done.
    + simpl. by rewrite decide_True.
    + intros m t k Hm Hvo Hk. destruct (Hkey m t k Hm Hvo Hk) as [Hk' ?].
      by apply (holds_grows _ _ Hg); [apply Hk' |].
    + intros t k (m & Hm & Hf & Hvo) Hk. destruct (Hkey m t k (or_intror (conj Hm Hf)) Hvo Hk) as [Hk' Hh].
      assert (holds v' (body r) t k) as Hh' by (apply (holds_grows _ _ Hg); [apply Hk' | done]).
      split; [| intros st Hst; by rewrite (proj1 (HD st Hst))].
      apply take_length_ge in Hh; [| by apply valid_length, Hk']. unfold len in *. lia.
    + intros st Hst. destruct (HD st Hst) as [-> ->]. split; [by apply (okl_grows _ _ Hg) | done].
    + intros Hr. destruct (n_cand0 Hr) as [H1 H2]. split; rewrite ?Hct, ?Hb; [done |].
      intros q Hq Hqr Hqt. apply (reqlog_grows v v' Hg), H2; [by apply Hmine | done | congruence].
    + intros Hr. destruct (n_lead0 Hr) as [H1 H2]. split; [done |].
      intros p Hp. rewrite Hpe in Hp. rewrite Hct, Hb, Hne, Hma, Hse.
      destruct (H2 p Hp) as ([? | (a & Ha & ?)] & ?); split; try done; [by left | right].
      exists a. split; [apply HN; by left | done].
    + by apply (decided_grows _ _ Hg).
    + intros g Hm Hgg. destruct (n_grant0 g (Hmine g Hm) Hgg) as (q & l & Hq & ? & ? & ? & Hrl & Hh).
      exists q, l. split_and!; try done; [apply HN; by left |].
      intros m t k Hm' Hvo Hk Hlt. destruct (Hkey m t k Hm' Hvo Hk) as [Hk' _].
      apply (holds_grows _ _ Hg); [apply Hk' | by apply (Hh m); [apply Hmine | ..]].
Qed.

(** A failed save: the disk holds an old log, or one between the stable part
    of the log in memory and all of it. *)
Lemma node_disk v r Di Di' :
  node_ok v i r Di ->
  (forall st, Di' st ->
     (exists st0, Di st0 /\ d_log st = d_log st0 /\
        HardState.Term (d_hs st0) <= HardState.Term (d_hs st)) \/
     (d_log st `prefix_of` body r /\ HardState.Term (d_hs st) = currentTerm r /\
      unstableIndex r <= len (d_log st) + 1)) ->
  node_ok v i r Di'.
Proof.
  intros Hn HD. pose proof Hn as []. constructor; try done.
  - intros t k Hvo Hk. destruct (n_stable0 t k Hvo Hk) as [Hu Hd]. split; [done |]. intros st Hst.
    destruct (HD st Hst) as [(st0 & H0 & -> & _) | (Hp & _ & Hlen)]; [auto |].
    destruct Hvo as (m & Hm & Hf & Hvo). unfold holds.
    rewrite <- (n_hold0 m t k (or_intror (conj Hm Hf)) Hvo Hk). symmetry.
    apply take_of_prefix; [unfold len in *; lia | done].
  - intros st Hst. destruct (HD st Hst) as [(st0 & H0 & -> & Ht) | (Hp & -> & _)].
    + destruct (n_disk0 st0 H0) as [? Hf]. split; [done |]. eapply Forall_impl; [exact Hf |]. simpl. lia.
    + destruct Hp as [x Hx]. rewrite Hx in n_log0, n_terms0. split; [| by apply Forall_app in n_terms0 as []].
      apply (okl_take v _ (length (d_log st))) in n_log0. by rewrite take_app_length in n_log0.
Qed.

(** A crash and a restart from durable state [st]. *)
Lemma move_restart v r r' Di st :
  at_node v r Di -> Di st -> vS v i <= HardState.Term (d_hs st) ->
  let v' := {| vS := fun j => if decide (j = i) then HardState.Term (d_hs st) else vS v j;
               vN := vN v; vG := vG v |} in
  (id r', peers r', currentTerm r', msgs r', role r', commitIndex r')
  = (id r, peers r, HardState.Term (d_hs st), [], Follower, 0) ->
  log r' = LogEntry.mk 0 0 [] :: d_log st -> len (d_log st) < unstableIndex r' ->
  grows v v' /\ at_node v' r' (fun st' => st' = st).
Proof.
  intros [Hv Ho Hn] Hst HS v' Hfr Hlog Hun. injection Hfr as Hid Hpe Hct Hms Hro Hco. pose proof Hn as [].
  assert (grows v v') as Hg.
  { constructor; [done | eauto | |].
    - intros t k (Q & HQ & Hall). exists Q. split; [done |]. intros j Hj.
      destruct (Hall j Hj) as [? | Hle]; [by left | right]. simpl in Hle.
      destruct (decide (j = i)) as [->|]; [lia | done].
    - intros j. simpl. destruct (decide (j = i)) as [->|]; lia. }
  assert (forall x, mine v' i r' x -> vN v x /\ Message.From x = i) as Hmine.
  { intros x [Hx | ?]; [rewrite Hms in Hx; by apply not_elem_of_nil in Hx | done]. }
  assert (body r' = d_log st) as Hb by (unfold body; by rewrite Hlog).
  assert (forall t k, key v' t k -> key v t k) as Hkey
    by (intros t k [Hc Hva]; split; [by apply (gr_choose _ _ Hg) | done]).
  destruct (n_disk0 st Hst) as [Hok Hte].
  split; [done |]. constructor.
  - pose proof Hv as []. constructor.
    + intros t j l Ht. destruct (g_led0 t j l Ht) as (? & ? & ? & ?). split_and!; done.
    + intros t u k Htu Hu Hk%Hkey. by apply g_complete0.
    + intros m Hm. destruct (g_net0 m Hm) as [? Ht]. split; [by apply (msg_fine_grows _ _ Hg) |].
      simpl. destruct (decide (Message.From m = i)) as [E|]; [rewrite E in Ht; lia | done].
    + done.
    + done.
  - apply (others_grows v); try done. intros j Hj. simpl. by rewrite decide_False.
  - constructor; rewrite ?Hid, ?Hpe, ?Hms, ?Hb, ?Hct, ?Hro, ?Hco, ?Hlog; try done.
    + simpl. by rewrite decide_True.
    + intros m t k Hm Hvo Hk%Hkey. apply Hmine in Hm as [Hm Hf]. destruct (n_stable0 t k (ex_intro _ m (conj Hm (conj Hf Hvo))) Hk) as [_ Hd]. by apply Hd.
    + intros t k Hvo Hk%Hkey. destruct (n_stable0 t k Hvo Hk) as [_ Hd]. split; [| intros ? ->; by apply Hd].
      pose proof (Hd st Hst) as Hh. apply take_length_ge in Hh; [| by apply valid_length, Hk].
      unfold len in *. lia.
    + intros ? ->. done.
    + intros g Hm Hgg. apply Hmine in Hm as [Hm Hf].
      destruct (n_grant0 g (or_intror (conj Hm Hf)) Hgg) as (q & l & Hq & ? & ? & ? & Hrl & Hh).
      exists q, l. split_and!; try done. intros m t k Hm' Hvo Hk%Hkey Hlt. apply Hmine in Hm' as [Hm' Hf'].
      apply (Hh m); [by right | done..].
Qed.
End Moves.
End View.
