(* ===== verification/RaftMoves.v ===== *)
(** * Raft: every operation keeps the cluster's logs in order

    Each operation of src/raft/raft.go on a node that has not compacted its
    log, as moves of [RaftView]: campaigning, voting, leading, replicating,
    committing. *)

From S2P Require Import Prelude GoBytes RaftTypes Raft RaftLog RaftInv RaftVote RaftNode RaftProps RaftCluster RaftView.

(** ** The log of a node that has not compacted it *)

Section Shape.
Context (r : Raft) (Hi : inv r) (Hh : head (log r) = Some (LogEntry.mk 0 0 [])).

Lemma shape_log : log r = LogEntry.mk 0 0 [] :: body r.
Proof. unfold body. destruct (log r) as [|e l]; [done |]. simpl in *. congruence. Qed.
Lemma shape_first : firstLogIndex r = 0.
Proof. unfold firstLogIndex. by rewrite shape_log. Qed.
Lemma shape_last : lastLogIndex r = len (body r).
Proof. rewrite last_first, shape_first, shape_log by done. len_lia. Qed.
Lemma shape_last_term : lastLogTerm r = last_term (body r).
Proof.
  unfold lastLogTerm, last_term. rewrite shape_log. by destruct (body r) as [|x l].
Qed.
Lemma shape_term n : 0 <= n <= len (body r) -> termAt r n = term_at (body r) (Z.to_nat n).
Proof.
  intros Hn. pose proof shape_first as Hf. pose proof shape_last as Hl.
  destruct (entry_at_some r n Hi ltac:(lia)) as (e & He & _). rewrite (termAt_entry r n e Hi He).
  unfold entry_at in He. rewrite Hf, shape_log, Z.sub_0_r in He. destruct (n <? 0); [done |].
  unfold term_at. destruct (Z.to_nat n) as [|k]; simpl in He; [by injection He as <- |]. by rewrite He.
Qed.
Lemma shape_drop n : 0 <= n -> drop (Z.to_nat (n - firstLogIndex r + 1)) (log r) = drop (Z.to_nat n) (body r).
Proof.
  intros Hn. rewrite shape_first, shape_log. replace (Z.to_nat (n - 0 + 1)) with (S (Z.to_nat n)) by lia. done.
Qed.
Lemma shape_bound : len (body r) < maxIndex.
Proof. rewrite <- shape_last. by apply (inv_bound r Hi). Qed.
End Shape.

Section Moves.
Context (ids : list Z) (ids_nodup : NoDup ids) (two : 2 <= len ids).
Context (i : Z) (Hi : i ∈ ids).

Lemma peers_exist : len (filter (fun p => p <> i) ids) <> 0.
Proof. pose proof (filter_count i ids ids_nodup Hi). lia. Qed.

(** ** Under a fixed view *)

Section Fixed.
Context (v : view) (Hv : view_ok ids v) (Di : dstate -> Prop).
Abbreviation fine := (fun r => node_ok ids v i r Di).

Lemma fine_peer r p : fine r -> p ∈ peers r -> p <> i /\ p ∈ ids.
Proof. intros [] Hp. rewrite n_peers in Hp. by apply list_elem_of_filter in Hp. Qed.

Lemma fine_peers r : fine r -> (len (peers r) =? 0) = false.
Proof. intros []. rewrite n_peers. apply Z.eqb_neq, peers_exist. Qed.

Lemma fine_quiet r r' :
  fine r -> log_fields r' = log_fields r -> role r' = role r -> currentTerm r' = currentTerm r ->
  nextIndex r' = nextIndex r -> matchIndex r' = matchIndex r -> sentIndex r' = sentIndex r -> fine r'.
Proof. intros Hn Hf Hr Ht ? ? ?. apply (node_relax ids v Hv i Di r r' Hn Hf); [lia | done]. Qed.

Lemma fine_reset r : fine r -> fine (resetElectionTimeout r).
Proof. intros Hn. apply (fine_quiet r); [done | by rewrite resetElectionTimeout_frame..]. Qed.

Lemma fine_follower t r : fine r -> fine (becomeFollower t r).
Proof.
  intros Hn. unfold becomeFollower. apply fine_reset. set (r1 := if _ <? _ then _ else r).
  apply (node_relax ids v Hv i Di r).
  - done.
  - subst r1. by destruct (_ <? _).
  - subst r1. simpl. destruct (Z.ltb_spec (currentTerm r) t); simpl; lia.
  - intros [?|?]; done.
Qed.

Lemma fine_adopt m r : fine r -> fine (adopt_leader m r).
Proof. intros Hn. eapply fine_quiet; [apply (fine_follower (Message.Term m)), Hn | done..]. Qed.

(** Progress of the followers may be recorded at will, as long as it is true. *)
Lemma fine_progress r r' :
  fine r -> log_fields r' = log_fields r -> role r' = role r -> currentTerm r' = currentTerm r ->
  (role r = Leader -> progress v r') -> fine r'.
Proof.
  intros Hn Hf Hr Ht Hp. pose proof Hn as []. unfold log_fields in Hf. injection Hf as Hid Hpe Hlo Hms Hun Hco.
  assert (body r' = body r) as Hb by (unfold body; by rewrite Hlo).
  apply (node_change ids v Hv i Di r); rewrite ?Hb, ?Hlo, ?Hco, ?Hun, ?Hr, ?Ht; try done.
  - intros Hc. destruct (n_cand Hc) as [H1 H2]. unfold candidate, mine. rewrite Ht, Hb, Hms. done.
  - intros Hl. split; [by apply n_lead | auto].
Qed.

(** Requests for votes. *)
Lemma fine_request_votes ty r :
  fine r -> inv r -> ty = MsgPreVote \/ (ty = MsgRequestVote /\ role r = Candidate) -> fine (request_votes ty r).
Proof.
  intros Hn Hinv Hty. unfold request_votes.
  assert (Forall (fun p => p <> i) (peers r)) as Hps.
  { apply Forall_forall. intros p Hp. by apply (fine_peer r). }
  revert Hps Hn Hinv Hty. generalize (peers r) as ps. intros ps. revert r.
  induction ps as [|p ps IH]; intros r Hps Hn Hinv Hty; cbn [fold_left]; [done |].
  apply Forall_cons in Hps as [Hp Hps]. apply IH; [done | | by apply inv_send | done].
  pose proof (n_id _ _ _ _ _ Hn) as Hid. pose proof (n_head _ _ _ _ _ Hn) as Hh.
  destruct Hty as [-> | [-> Hc]].
  - apply node_send_plain; try done; unfold is_request, is_grant, voucher; simpl; intuition congruence.
  - set (m := Message.vote_request _ _ _ _).
    assert (reqlog v (Message.stamp (id r) (currentTerm r) m) (body r)) as Hrl.
    { split_and!; [apply Hn | by apply shape_last | by apply shape_last_term]. }
    apply node_send; try done.
    + unfold msg_fine; simpl. rewrite Hid. split_and!; [done | done | by exists (body r)].
    + intros t k ([?|[? _]] & _); done.
    + by intros [? _].
Qed.

Lemma led_stable u l : vG v u = Some (i, l) -> u <= vS v i.
Proof.
  intros Hu. destruct (g_led _ _ Hv _ _ _ Hu) as (_ & Hw & _). by apply (won_leader_stable ids two i v u Hv).
Qed.

Lemma fine_candidate r r' :
  fine r -> 0 <= currentTerm r < maxTerm -> inv r -> becomeCandidate r = Ok r' -> fine r'.
Proof.
  intros Hn Hmax Hinv. unfold becomeCandidate. cbv zeta. set (r1 := set_votesReceived _ _).
  pose proof (n_cur _ _ _ _ _ Hn) as Hcur.
  assert (currentTerm r1 = currentTerm r + 1) as Ht1 by (apply inc64_small; unfold maxTerm in *; lia).
  assert (inv r1) as Hinv1 by (revert Hinv; by apply inv_frame).
  assert (fine r1) as Hn1.
  { pose proof Hn as []. apply (node_change ids v Hv i Di r); try done.
    - rewrite Ht1. lia.
    - eapply Forall_impl; [exact n_terms |]. simpl. intros e. fold (currentTerm r1) in Ht1. simpl in Ht1. lia.
    - intros Hc. destruct (n_commit Hc) as (t & k & ? & ? & ? & ? & ?). exists t, k. split_and!; done || lia.
    - intros _. split.
      + intros l Hl%led_stable. lia.
      + intros q Hq _ Hqt. apply (mine_term ids v Hv i Di r) in Hq; [lia | done]. }
  assert (role r1 = Candidate) as Hr1 by done. clearbody r1.
  pose proof (fine_reset r1 Hn1) as Hn2. rewrite fine_peers by done. intros [= <-].
  apply fine_request_votes; [done | by apply inv_resetElectionTimeout |]. right. split; [done |].
  by rewrite resetElectionTimeout_frame.
Qed.

Lemma fine_precandidate r r' :
  fine r -> 0 <= currentTerm r < maxTerm -> inv r -> becomePreCandidate r = Ok r' -> fine r'.
Proof.
  intros Hn Hmax Hinv. unfold becomePreCandidate. cbv zeta. set (r1 := set_preVotesReceived _ _).
  assert (fine r1) as Hn1 by (apply (node_relax ids v Hv i Di r); try done; intros [?|?]; done).
  assert (inv r1) as Hinv1 by (revert Hinv; by apply inv_frame). clearbody r1.
  pose proof (fine_reset r1 Hn1) as Hn2. rewrite fine_peers by done. intros [= <-].
  apply fine_request_votes; [done | by apply inv_resetElectionTimeout | by left].
Qed.

(** ** Replication *)

Lemma decided_len c u l : decided ids v c u l -> c <= len l.
Proof.
  intros H. pose proof (len_nonneg l). destruct (Z.le_gt_cases c 0); [lia |].
  destruct (H ltac:(lia)) as (t & k & _ & Hva%valid_length & _ & ? & Hl).
  apply take_length_ge in Hl; [unfold len; lia | lia].
Qed.

(** An append to a follower is a slice of the log the node leads with. *)
Lemma fine_send_append r p ctx r' :
  fine r -> inv r -> role r = Leader -> p ∈ peers r -> sendAppendEntries r p ctx = Ok r' -> fine r'.
Proof.
  intros Hn Hinv Hl Hp. pose proof (n_head _ _ _ _ _ Hn) as Hh.
  destruct (n_lead _ _ _ _ _ Hn Hl) as [HG Hpr]. destruct (Hpr p Hp) as (_ & Hnx & Hse).
  pose proof (shape_bound r Hinv Hh) as Hbd. unfold maxIndex in Hbd.
  pose proof (shape_first r Hh) as Hf. pose proof (shape_last r Hinv Hh) as Hlast.
  unfold sendAppendEntries. rewrite u64_small by (unfold is_u64; lia). rewrite Hf.
  rewrite (proj2 (Z.ltb_ge _ 0)) by lia. set (prev := if _ <? _ then _ else _).
  assert (0 <= prev <= len (body r)) as Hprev by (subst prev; zcase; lia). clearbody prev.
  rewrite Entries_tail, shape_drop by (done || lia). cbn [res_bind].
  set (es := drop (Z.to_nat prev) (body r)). assert (len es = len (body r) - prev) as Hes
    by (unfold es, len in *; rewrite length_drop; lia).
  set (m := Message.append_request _ _ _ _ _ _). pose proof (n_id _ _ _ _ _ Hn) as Hid.
  assert (fine (send m r)) as Hsend.
  { pose proof (n_commit _ _ _ _ _ Hn) as Hdec.
    apply node_send; try done; [| | by intros [? _]].
    - destruct (fine_peer r p Hn Hp) as [Hne _]. unfold msg_fine. simpl. rewrite Hid.
      split_and!; [done | done |]. exists (body r). unfold top; simpl.
      split_and!; [done | lia | lia | by apply shape_term | | | done].
      + symmetry. apply firstn_all.
      + apply decided_len in Hdec. lia.
    - intros t k (_ & <- & _) _. unfold holds, LL. simpl. by rewrite HG. }
  change (sentIndex (send m r)) with (sentIndex r). change (lastLogIndex (send m r)) with (lastLogIndex r).
  destruct (Z.ltb_spec (get0 (sentIndex r) p) (lastLogIndex r)); intros [= <-]; [| done].
  apply (fine_progress (send m r)); try done. intros _ q Hq. destruct (Hpr q Hq) as (Hm & Hnq & Hsq).
  split_and!; [done | apply Hnq | apply Hnq | |]; simpl; unfold get0; destruct (decide (q = p)) as [->|Hne];
    rewrite ?lookup_insert_eq, ?lookup_insert_ne by done; simpl; try apply Hsq; change (body _) with (body r); lia.
Qed.

Lemma fine_broadcast ps : forall r ctx r',
  fine r -> inv r -> role r = Leader -> Forall (fun p => p ∈ peers r) ps -> broadcast r ps ctx = Ok r' ->
  fine r' /\ inv r' /\ role r' = Leader.
Proof.
  induction ps as [|p ps IH]; intros r ctx r' Hn Hinv Hl Hps; cbn [broadcast]; [by intros [= <-] |].
  apply Forall_cons in Hps as [Hp Hps]. intros Hrun. bind_ok Hrun r1 H1.
  pose proof (fine_send_append _ _ _ _ Hn Hinv Hl Hp H1) as Hn1.
  destruct (sendAppendEntries_ok r p ctx Hinv) as (x & Hx & Hinv1). rewrite H1 in Hx. injection Hx as <-.
  apply sendAppendEntries_frame in H1. apply (IH r1 ctx); try done; rewrite H1; done.
Qed.

(** ** Committing *)

(** The members that have confirmed position [k] to the leader, and itself. *)
Lemma leader_com r k :
  fine r -> role r = Leader ->
  hasMajorityCount r (replicated r (Z.of_nat k + 1)) = true -> com ids v (currentTerm r) k.
Proof.
  intros Hn Hl. destruct (n_lead _ _ _ _ _ Hn Hl) as [HG Hpr]. set (c := Z.of_nat k + 1).
  unfold hasMajorityCount, clusterSize, replicated. set (ps := filter _ (peers r)). intros Hmaj%Z.leb_le.
  assert (NoDup (peers r) /\ (i ∉ peers r) /\ len (peers r) + 1 = len ids) as (Hnd & Hni & Hlen).
  { rewrite (n_peers _ _ _ _ _ Hn). split_and!; [by apply NoDup_filter | | by apply filter_count].
    intros Hin%list_elem_of_filter. tauto. }
  rewrite Hlen in Hmaj. assert (forall p, p ∈ ps -> p ∈ peers r /\ c <= get0 (matchIndex r) p) as Hps.
  { intros p Hp%list_elem_of_filter. tauto. }
  assert (forall p, p ∈ ps -> exists a, vN v a /\ Message.From a = p /\ vouch a (currentTerm r) k /\
     Message.Type_ a = MsgAppendEntriesResponse) as Hack.
  { intros p Hp. destruct (Hps p Hp) as [Hin Hc]. destruct (Hpr p Hin) as ([? | (a & Ha & Hf & Hvo & Ht & Hty & Hm)] & _); [lia |].
    exists a. split_and!; try done. split_and!; [done | done |]. unfold top. rewrite Hty. lia. }
  exists ({[i]} ∪ list_to_set ps). split; [split |].
  - intros x Hx%elem_of_union. apply elem_of_list_to_set. destruct Hx as [->%elem_of_singleton | Hx%elem_of_list_to_set]; [done |].
    by apply (fine_peer r x Hn), Hps.
  - rewrite size_union, size_singleton, size_list_to_set.
    + unfold len in *. lia.
    + by apply NoDup_filter.
    + intros x ->%elem_of_singleton Hx%elem_of_list_to_set. by apply Hni, Hps.
  - intros j Hj%elem_of_union. destruct Hj as [->%elem_of_singleton | Hj%elem_of_list_to_set]; cycle 1.
    { destruct (Hack j Hj) as (a & ? & ? & ? & _). by exists a. }
    assert (exists p, p ∈ ps) as [p Hp].
    { destruct ps as [|p ps']; [| exists p; apply elem_of_cons; by left].
      assert (2 / 2 <= len ids / 2) as Hd by (apply Z.div_le_mono; lia). change (2 / 2) with 1 in Hd.
      change (len []) with 0 in Hmaj. lia. }
    destruct (Hack p Hp) as (a & Ha & _ & (Hvo & Hat & Hk) & Hty).
    destruct (g_net _ _ Hv a Ha) as [(_ & _ & Hfine) _]. rewrite Hty in Hfine.
    destruct Hvo as [? | [_ Hs]]; [congruence |]. destruct (Hfine Hs) as (b & Hb & Hbty & Hbt & Htop).
    exists b. split; [done |]. destruct (g_net _ _ Hv b Hb) as [(_ & _ & Hbf) _]. rewrite Hbty in Hbf.
    destruct Hbf as (l & HbG & _). rewrite Hbt, Hat, HG in HbG. injection HbG as <- _.
    split; [done |]. split_and!; [by left | congruence |]. unfold top in Hk. rewrite Hty in Hk. lia.
Qed.

Lemma fine_advance r : fine r -> inv r -> role r = Leader -> fine (maybeAdvanceCommitIndex r).
Proof.
  intros Hn Hinv Hl. destruct (n_lead _ _ _ _ _ Hn Hl) as [HG Hpr]. pose proof (n_head _ _ _ _ _ Hn) as Hh.
  destruct (maybeAdvance_frame r) as [Heq _].
  destruct (advance_loop_spec (Z.to_nat (lastLogIndex r - commitIndex r)) r (lastLogIndex r)
    ltac:(lia)) as [_ Hc]. fold (maybeAdvanceCommitIndex r) in Hc.
  set (c := commitIndex (maybeAdvanceCommitIndex r)) in *. rewrite Heq.
  pose proof Hn as []. apply (node_change ids v Hv i Di r); try done.
  change (decided ids v c (currentTerm r) (body r)). destruct Hc as [-> | [Hr Hcm]]; [done |]. intros _.
  rewrite (shape_last r Hinv Hh) in Hr. pose proof (inv_commit r Hinv) as Hcm0.
  rewrite (shape_first r Hh) in Hcm0. apply andb_true_iff in Hcm as [Ht%Z.eqb_eq Hmaj].
  rewrite shape_term in Ht by (done || lia).
  exists (currentTerm r), (Z.to_nat (c - 1)). unfold valid, LL. rewrite HG.
  split_and!; [| | lia | lia | done].
  - apply leader_com; [done | done |]. by replace (Z.of_nat (Z.to_nat (c - 1)) + 1) with c by lia.
  - unfold term_at in Ht. replace (Z.to_nat c) with (S (Z.to_nat (c - 1))) in Ht by lia.
    destruct (lookup_lt_is_Some_2 (body r) (Z.to_nat (c - 1))) as [e He]; [unfold len in *; lia |].
    rewrite He in Ht. eauto.
Qed.

(** ** Replicating *)

(** What the reference merge makes of a log [b] that agrees with the leader's
    log [l] up to position [p], when the entries sent are [l]'s from there on:
    it stays as it is when it had them all, and otherwise becomes [l] up to
    the last entry sent; then [p'] is where [b] ended or first differed. *)
Lemma merge_slice b l n : forall p,
  okl v b -> okl v l -> (p <= length b)%nat -> (p + n <= length l)%nat -> take p b = take p l ->
  let b' := take p b ++ merge (drop p b) (take n (drop p l)) in
  let c := conflict (Z.of_nat p + 1) (drop p b) (take n (drop p l)) in
  (b' = b /\ take (p + n) b = take (p + n) l /\ c = None) \/
  exists p', (p <= p' <= p + n)%nat /\ take p' b = take p' l /\ b' = take (p + n) l /\
    ((c = None /\ length b = p') \/
     (c = Some (Z.of_nat p' + 1) /\ (p' < p + n)%nat /\ b !! p' <> l !! p')).
Proof.
  induction n as [|n IH]; intros p Hb Hl Hp Hn Heq; cbv zeta.
  { left. rewrite take_0, Nat.add_0_r. replace (merge (drop p b) []) with (drop p b) by (by destruct (drop p b)).
    replace (conflict _ (drop p b) []) with (@None Z) by (by destruct (drop p b)). by rewrite take_drop. }
  destruct (lookup_lt_is_Some_2 l p) as [e He]; [lia |].
  rewrite (drop_S l e p He). cbn [take].
  destruct (b !! p) as [x|] eqn:Hx; cycle 1.
  { right. exists p. apply lookup_ge_None in Hx. rewrite (drop_ge b p) by done. rewrite merge_nil_l.
    split_and!; [lia | lia | done | | left; split; [done | lia]].
    by rewrite Heq, <- take_take_drop, (drop_S l e p He). }
  rewrite (drop_S b x p Hx). cbn [merge conflict].
  destruct (Z.eqb_spec (LogEntry.Term x) (LogEntry.Term e)) as [Ht|Ht].
  - assert (take (S p) b = take (S p) l) as Heq'.
    { rewrite (Hb p x Hx), (Hl p e He). by rewrite Ht. }
    assert (x = e) as -> by (apply take_lookup in Heq'; congruence).
    apply lookup_lt_Some in Hx as Hlt.
    specialize (IH (S p) Hb Hl ltac:(lia) ltac:(lia) Heq'). cbv zeta in IH.
    rewrite (take_S_r b p e Hx), <- app_assoc in IH. cbn [app] in IH.
    replace (Z.of_nat (S p) + 1) with (Z.of_nat p + 1 + 1) in IH by lia.
    replace (S p + n)%nat with (p + S n)%nat in IH by lia.
    destruct IH as [? | (p' & ? & ? & ? & ?)]; [by left | right]. exists p'. split_and!; done || lia.
  - right. exists p. split_and!; [lia | lia | done | | right; split_and!; [done | lia | congruence]].
    by rewrite Heq, <- take_take_drop, (drop_S l e p He).
Qed.

(** Two logs in order that have one term at one index agree up to it. *)
Lemma okl_term_at b l n :
  okl v b -> okl v l -> (n <= length b)%nat -> (n <= length l)%nat -> term_at b n = term_at l n ->
  take n b = take n l.
Proof.
  intros Hb Hl Hnb Hnl Ht. destruct n as [|k]; [done |]. simpl in Ht.
  destruct (lookup_lt_is_Some_2 b k) as [x Hx]; [lia |]. destruct (lookup_lt_is_Some_2 l k) as [e He]; [lia |].
  rewrite Hx, He in Ht. by rewrite (Hb k x Hx), (Hl k e He), Ht.
Qed.

(** The log after an accepted append agrees with the leader's up to the last
    entry sent, and keeps every stretch that agreed before. *)
Lemma fine_merge r m l :
  fine r -> role r = Follower -> currentTerm r = Message.Term m ->
  vG v (Message.Term m) = Some (Message.From m, l) ->
  let p := Z.to_nat (Message.PrevLogIndex m) in
  let n := length (Message.Entries m) in
  (p <= length (body r))%nat -> (p + n <= length l)%nat -> term_at (body r) p = term_at l p ->
  Message.Entries m = take n (drop p l) ->
  let b' := take p (body r) ++ merge (drop p (body r)) (Message.Entries m) in
  let r' := set_tail (LogEntry.mk 0 0 [] :: b')
    (lower_unstable (conflict (Z.of_nat p + 1) (drop p (body r)) (Message.Entries m)) (unstableIndex r)) r in
  fine r' /\ take (p + n) b' = take (p + n) l /\
  (forall k, take k (body r) = take k l -> (k <= length (body r))%nat -> take k b' = take k l).
Proof.
  intros Hn Hro Hct HG p n Hp Hpn Hterm Hes. pose proof Hn as [].
  destruct (g_led _ _ Hv _ _ _ HG) as (_ & _ & Hokl & Hte).
  assert (LL v (currentTerm r) = l) as HLL by (unfold LL; by rewrite Hct, HG).
  pose proof (okl_term_at _ _ p n_log Hokl Hp ltac:(lia) Hterm) as Heq.
  pose proof (merge_slice (body r) l n p n_log Hokl Hp Hpn Heq) as Hms. rewrite <- Hes in Hms.
  intros b' r'. fold b' in Hms. set (c := conflict _ _ _) in *. cbv zeta in Hms.
  assert (body r' = b') as Hb' by done.
  assert (forall k, take k (body r) = take k l -> (k <= length (body r))%nat ->
     take k b' = take k l /\ (Z.of_nat k < unstableIndex r -> Z.of_nat k < unstableIndex r')) as Hkeep.
  { intros k Hk Hlen. change (unstableIndex r') with (lower_unstable c (unstableIndex r)).
    destruct Hms as [(-> & _ & ->) | (p' & Hp' & Hpp & -> & Hc)]; [done |].
    assert (k <= p')%nat as Hkp.
    { destruct Hc as [(_ & <-) | (_ & _ & Hd)]; [done |]. destruct (Nat.le_gt_cases k p'); [done |].
      destruct Hd. apply take_lookup. by apply (take_le _ k); [lia |]. }
    split; [by rewrite take_take, Nat.min_l by lia |].
    destruct Hc as [(-> & _) | (-> & _ & _)]; simpl; lia. }
  split_and!.
  - apply (node_change ids v Hv i Di r); rewrite ?Hb'; try done.
    + destruct Hms as [(-> & _) | (p' & _ & _ & -> & _)]; [done | by apply okl_take].
    + change (currentTerm r') with (currentTerm r).
      destruct Hms as [(-> & _) | (p' & _ & _ & -> & _)]; [done | apply Forall_take; by rewrite Hct].
    + intros t k Hk Htc Hh. assert (holds v l t k) as Hhl.
      { rewrite <- HLL. apply (decided_led ids); [done | done | done |]. rewrite Hct, HG. done. }
      destruct (Hkeep (S k)) as [Htk Hu].
      * unfold holds in *. congruence.
      * apply take_length_ge in Hh; [done |]. apply valid_length, Hk.
      * split; [unfold holds in *; congruence |]. intros. assert (Z.of_nat (S k) < unstableIndex r'); [| lia].
        apply Hu. lia.
    + pose proof (decided_log ids v _ _ (currentTerm r) _ Hv n_commit ltac:(lia)) as Hdl. rewrite HLL in Hdl.
      change (commitIndex r') with (commitIndex r). intros Hc. pose proof (decided_len _ _ _ n_commit) as Hcl.
      destruct (n_commit Hc) as (t & k & ? & ? & ? & ? & Htk). exists t, k. split_and!; try done.
      rewrite <- Htk. rewrite Hdl by (rewrite Hct, HG; done).
      apply Hkeep; [apply Hdl; rewrite Hct, HG; done | unfold len in *; lia].
    + change (role r') with (role r). by rewrite Hro.
    + change (role r') with (role r). by rewrite Hro.
  - destruct Hms as [(-> & ? & _) | (p' & _ & _ & -> & _)]; [done |]. by rewrite take_take, Nat.min_id.
  - intros k Hk Hlen. by apply Hkeep.
Qed.

(** ** Handlers *)

(** A negative answer to a message received. *)
Lemma fine_reply r m x :
  fine r -> vN v m -> Message.To m = i -> Message.To x = Message.From m ->
  (Message.Type_ x = MsgPreVoteResponse \/
   (Message.Type_ x = MsgRequestVoteResponse /\ Message.VoteGranted x = false) \/
   (Message.Type_ x = MsgAppendEntriesResponse /\ Message.Success x = false)) ->
  fine (send x r).
Proof.
  intros Hn Hm Hto Hx Hty. destruct (g_net _ _ Hv m Hm) as [(Hne & _) _].
  apply node_send_plain; unfold is_request, is_grant, voucher; try done; intuition congruence.
Qed.

Lemma fine_handlePreVote r m : fine r -> vN v m -> Message.To m = i -> fine (handlePreVote r m).
Proof. intros. unfold handlePreVote. destruct (_ <? _); (eapply fine_reply; [done | done | done | done | by left]). Qed.

(** A granted vote: the candidate's log holds all this node vouched for. *)
Lemma grant_holds r m l t k :
  fine r -> inv r -> reqlog v m l -> log_up_to_date r m = true -> key ids v t k ->
  holds v (body r) t k -> holds v l t k.
Proof.
  intros Hn Hinv (Hokl & Hli & Hlt) Hup Hk Hh. pose proof Hn as [].
  pose proof (valid_length _ _ _ (proj2 Hk)) as Hlen. pose proof Hh as Hbl. apply take_length_ge in Hbl; [| done].
  unfold log_up_to_date in Hup. rewrite shape_last, shape_last_term, Hli, Hlt in Hup by done.
  assert (exists e, body r !! pred (length (body r)) = Some e /\ last_term (body r) = LogEntry.Term e) as (e & He & Hle).
  { unfold last_term. rewrite last_lookup. destruct (lookup_lt_is_Some_2 (body r) (pred (length (body r)))) as [e He]; [lia |].
    exists e. by rewrite He. }
  assert (t <= LogEntry.Term e) as Hte.
  { destruct Hk as [_ (x & Hx & <-)]. apply (okl_terms ids v (body r) _ x e Hv n_log He). exists k. split; [lia |].
    rewrite <- Hx. by apply take_lookup. }
  destruct (Z.le_gt_cases (len l) 0) as [Hz|Hpos].
  { assert (l = []) as -> by (destruct l; [done | len_lia]). change (last_term []) with 0 in Hup. exfalso.
    assert (0 <= t) as Ht0.
    { destruct Hk as [_ (x & Hx & _)]. unfold LL in Hx. destruct (vG v t) eqn:E; [by apply (g_pos _ _ Hv t) in E | done]. }
    apply orb_true_iff in Hup as [Hup%Z.ltb_lt | [_ Hup%Z.leb_le]%andb_true_iff]; unfold len in *; simpl in *; lia. }
  destruct (lookup_lt_is_Some_2 l (pred (length l))) as [f Hf]; [unfold len in *; lia |].
  assert (last_term l = LogEntry.Term f) as Hlf by (unfold last_term; by rewrite last_lookup, Hf).
  pose proof (Hokl _ _ Hf) as HlT. pose proof (n_log _ _ He) as HbT.
  replace (S (pred (length l))) with (length l) in HlT by (unfold len in *; lia).
  replace (S (pred (length (body r)))) with (length (body r)) in HbT by lia.
  rewrite Hlf, Hle in Hup.
  apply orb_true_iff in Hup as [Hup%Z.ltb_lt | [Hte'%Z.eqb_eq Hup%Z.leb_le]%andb_true_iff].
  - assert (holds v (LL v (LogEntry.Term f)) t k) as Hc.
    { apply (g_complete _ _ Hv); [lia | | done]. unfold LL in HlT.
      destruct (vG v (LogEntry.Term f)); [done |]. rewrite take_nil, firstn_all in HlT. by rewrite HlT in Hf. }
    assert (S k <= length l)%nat as Hkl.
    { destruct (Nat.le_gt_cases (S k) (length l)); [done |]. exfalso.
      apply (take_le (length l)) in Hc; [| lia]. rewrite <- HlT in Hc.
      assert (LL v t !! pred (length l) = Some f) as Hft.
      { rewrite <- (lookup_take_lt _ (length l)) by (unfold len in *; lia). rewrite <- Hc. by rewrite firstn_all. }
      unfold LL in Hft. destruct (vG v t) as [[j lt]|] eqn:E; [| done].
      destruct (g_led _ _ Hv _ _ _ E) as (_ & _ & _ & Hfo). rewrite Forall_lookup in Hfo.
      specialize (Hfo _ _ Hft). simpl in Hfo. lia. }
    unfold holds in *. rewrite <- Hc. by apply (take_le _ (length l)).
  - unfold holds in *. rewrite <- Hh. apply (take_le _ (length (body r))); [done |].
    rewrite HbT, <- Hte'. by apply (take_le _ (length l)); [unfold len in *; lia |].
Qed.

Lemma fine_handleRequestVote r m :
  fine r -> inv r -> vN v m -> is_request m -> Message.To m = i -> fine (handleRequestVote r m).
Proof.
  intros Hn Hinv Hm Hreq Hto. unfold handleRequestVote. cbv zeta.
  set (r1 := if _ <? _ then becomeFollower _ r else r).
  assert (fine r1) as Hn1 by (subst r1; destruct (_ <? _); [by apply fine_follower | done]).
  assert (inv r1) as Hinv1 by (subst r1; destruct (_ <? _); [by apply inv_becomeFollower | done]).
  assert (Message.Term m <= currentTerm r1) as Hle.
  { subst r1. destruct (Z.ltb_spec (currentTerm r) (Message.Term m)); [rewrite currentTerm_becomeFollower |]; lia. }
  clearbody r1. destruct (Z.ltb_spec (Message.Term m) (currentTerm r1)) as [|Hge].
  { eapply fine_reply; [done | done | done | done |]. right. left. done. }
  set (g := (_ && _)). destruct g eqn:Hg; cycle 1.
  { eapply fine_reply; [done | done | done | done |]. right. left. done. }
  apply andb_true_iff in Hg as [_ Hup]. set (r2 := resetElectionTimeout _).
  assert (fine r2) as Hn2.
  { apply fine_reset. apply (fine_quiet r1); done. }
  assert (currentTerm r2 = currentTerm r1) as Ht2 by (subst r2; by rewrite resetElectionTimeout_frame).
  assert (body r2 = body r1) as Hb2 by (subst r2; unfold body; by rewrite resetElectionTimeout_frame).
  clearbody r2. destruct (g_net _ _ Hv m Hm) as [(Hne & _ & Hfine) _]. rewrite Hreq in Hfine. destruct Hfine as [l Hl].
  pose proof (n_id _ _ _ _ _ Hn2) as Hid.
  apply node_send; try done.
  - unfold msg_fine; simpl. rewrite Hid. split_and!; [congruence | done | done].
  - intros t k ([?|[? _]] & _); done.
  - intros _. exists m, l. simpl. split_and!; try done; [lia |].
    intros x t k Hx Hvo Hk _. apply (grant_holds r1 m l t k Hn1 Hinv1 Hl Hup Hk). rewrite <- Hb2.
    by apply (n_hold _ _ _ _ _ Hn2 x).
Qed.

Lemma fine_handlePreVoteResponse r m r' :
  fine r -> 0 <= currentTerm r < maxTerm -> inv r -> handlePreVoteResponse r m = Ok r' -> fine r'.
Proof.
  intros Hn Hmax Hinv. unfold handlePreVoteResponse. cbv zeta.
  destruct (negb _); [by intros [= <-] |]. destruct (negb _); [by intros [= <-] |].
  set (r1 := set_preVotesReceived _ r).
  assert (fine r1) as Hn1 by (by apply (fine_quiet r)).
  assert (inv r1) as Hinv1 by (revert Hinv; by apply inv_frame).
  destruct (hasMajorityCount _ _); [by apply fine_candidate | by intros [= <-]].
Qed.

(** The answer to an accepted append vouches for the log up to the last entry
    sent. *)
Lemma fine_ack r m mi ctx :
  fine r -> vN v m -> Message.To m = i -> Message.Type_ m = MsgAppendEntries -> currentTerm r = Message.Term m ->
  mi = top m -> (forall k, Z.of_nat k < top m -> holds v (body r) (Message.Term m) k) ->
  fine (send (Message.append_response (Message.From m) true mi ctx) r).
Proof.
  intros Hn Hm Hto Hty Hct -> Hh. destruct (g_net _ _ Hv m Hm) as [(Hne & _) _].
  pose proof (n_id _ _ _ _ _ Hn) as Hid. apply node_send; try done; [| | by intros [? _]].
  - unfold msg_fine; simpl. rewrite Hid. split_and!; [congruence | done |]. intros _. exists m. simpl. by rewrite Hct.
  - intros t k (_ & <- & Hk) _. simpl. rewrite Hct. by apply Hh.
Qed.

(** A follower adopts the commit index of an append whose entries it has. *)
Lemma fine_follow_commit r m l :
  fine r -> inv r -> role r = Follower -> currentTerm r = Message.Term m ->
  (forall k, (k <= Z.to_nat (Message.LeaderCommit m))%nat -> take k (body r) = take k l) -> Message.LeaderCommit m <= len (body r) ->
  decided ids v (Message.LeaderCommit m) (Message.Term m) l ->
  fine (if commitIndex r <? Message.LeaderCommit m
        then set_commitIndex (Z.min (Message.LeaderCommit m) (lastLogIndex r)) r else r).
Proof.
  intros Hn Hinv Hro Hct Hup Hle Hdec. destruct (Z.ltb_spec (commitIndex r) (Message.LeaderCommit m)); [| done].
  pose proof Hn as []. apply (node_change ids v Hv i Di r); try done; simpl; rewrite ?Hro; try done.
  rewrite shape_last, Z.min_l by (done || lia). intros Hc. destruct (Hdec Hc) as (t & k & ? & ? & ? & ? & Htk).
  exists t, k. split_and!; try done; [by rewrite Hct |].
  change (body (set_commitIndex _ r)) with (body r). rewrite <- Htk. apply Hup. lia.
Qed.

Lemma fine_handleAppendEntries r m r' :
  fine r -> inv r -> vN v m -> Message.To m = i -> wire_ok m -> Message.Type_ m = MsgAppendEntries ->
  handleAppendEntries r m = Ok r' -> fine r'.
Proof.
  intros Hn Hinv Hm Hto Hw Hty. unfold wire_ok in Hw. rewrite Hty in Hw. destruct Hw as (Hp & Hcg & Hbd).
  unfold handleAppendEntries. fold (adopt_leader m r). cbv zeta.
  destruct (Z.ltb_spec (Message.Term m) (currentTerm r)).
  { intros [= <-]. eapply fine_reply; [done | done | done | done |]. right. right. done. }
  pose proof (fine_adopt m r Hn) as Hn1. pose proof (inv_adopt_leader m r Hinv) as Hinv1.
  destruct (adopt_leader_fields m r ltac:(lia)) as (_ & _ & Hct & Hro & _).
  set (r1 := adopt_leader m r) in *. clearbody r1. clear r Hn Hinv H. pose proof (n_head _ _ _ _ _ Hn1) as Hh.
  assert (forall ctx, fine (send (Message.append_response (Message.From m) false 0 ctx) r1)) as Hno.
  { intros ctx. eapply fine_reply; [done | done | done | done |]. right. right. done. }
  destruct (Z.ltb_spec (lastLogIndex r1) (Message.PrevLogIndex m)) as [|Hle]; [intros [= <-]; apply Hno |].
  destruct (Z.eqb_spec (termAt r1 (Message.PrevLogIndex m)) (Message.PrevLogTerm m)) as [Hterm|];
    simpl negb; cbv iota; [| intros [= <-]; apply Hno].
  rewrite (shape_last r1 Hinv1 Hh) in Hle. rewrite shape_term in Hterm by (done || lia).
  destruct (g_net _ _ Hv m Hm) as [(Hne & _ & Hfine) _]. rewrite Hty in Hfine.
  destruct Hfine as (l & HG & _ & Htop & Hpt & Hes & Hlc & Hdec).
  assert (top m = Message.PrevLogIndex m + len (Message.Entries m)) as Ht by (unfold top; by rewrite Hty).
  set (p := Z.to_nat (Message.PrevLogIndex m)) in *.
  assert (Message.PrevLogIndex m = Z.of_nat p) as Hpp by (subst p; lia).
  assert (p <= length (body r1))%nat as Hpb by (unfold len in *; lia).
  destruct (fine_merge r1 m l Hn1 Hro Hct HG Hpb) as (Hn2 & Heq & Hkeep); [unfold len in *; lia | exact (eq_trans Hterm Hpt) | done |].
  fold p in Hn2, Heq, Hkeep. set (b' := take p (body r1) ++ merge _ _) in *.
  destruct (append_loop_ok (Message.Entries m) r1 (Message.PrevLogIndex m) 0
    (LogEntry.mk 0 0 [] :: take p (body r1)) (drop p (body r1))) as (-> & Hinv2 & _); try done.
  { rewrite (shape_log r1 Hh) at 1. simpl. by rewrite take_drop. }
  { rewrite (shape_first r1 Hh), len_cons. unfold len. rewrite length_take. lia. }
  { by rewrite Z.add_0_r. }
  { by apply (wire_bound r1); [| | rewrite (shape_last r1 Hinv1 Hh)]. }
  cbn [res_bind]. rewrite Z.add_0_r, Hpp in *. cbn [app] in *. fold b' in Hinv2 |- *.
  set (r2 := set_tail _ _ _) in *.
  assert (currentTerm r2 = Message.Term m /\ body r2 = b' /\ commitIndex r2 = commitIndex r1 /\ role r2 = Follower)
    as (Hct2 & Hb2 & Hc2 & Hro2) by done.
  pose proof (n_head _ _ _ _ _ Hn2) as Hh2. clearbody r2.
  assert (forall k, (k <= p + length (Message.Entries m))%nat -> take k (body r2) = take k l) as Hup.
  { intros k Hk. rewrite Hb2. by apply (take_le k _ _ _ Hk). }
  assert (len (body r2) >= top m) as Hlen2.
  { assert (p + length (Message.Entries m) <= length (body r2))%nat; [| unfold len in *; lia].
    apply (take_length_ge _ _ l); [by apply Hup | unfold len in *; lia]. }
  set (r3 := if _ <? _ then _ else r2).
  assert (fine r3 /\ body r3 = body r2 /\ currentTerm r3 = currentTerm r2) as (Hn3 & Hb3 & Hct3).
  { split; [| subst r3; by destruct (_ <? _)]. apply (fine_follow_commit r2 m l); try done; [| lia].
    intros k Hk. apply Hup. pose proof (len_nonneg (Message.Entries m)). unfold len in *. lia. }
  clearbody r3. intros [= <-]. apply fine_ack; try done; [congruence | |].
  - rewrite Ht. apply u64_small. pose proof (shape_bound r2 Hinv2 Hh2). pose proof (len_nonneg (Message.Entries m)).
    unfold is_u64, maxIndex in *. lia.
  - intros k Hk. unfold holds, LL. rewrite HG, Hb3. apply Hup. unfold len in *. lia.
Qed.

Lemma ackReadIndex_fields r ctx p :
  let r' := ackReadIndex r ctx p in
  log_view r' = log_view r /\ log_fields r' = log_fields r /\ role r' = role r /\ currentTerm r' = currentTerm r /\
  nextIndex r' = nextIndex r /\ matchIndex r' = matchIndex r /\ sentIndex r' = sentIndex r.
Proof. unfold ackReadIndex. destruct (_ !! _); [| done]. by destruct (hasMajorityCount _ _). Qed.

(** What a positive answer confirms is within the leader's log. *)
Lemma ack_range r m :
  fine r -> role r = Leader -> vN v m -> Message.Type_ m = MsgAppendEntriesResponse -> Message.Success m = true ->
  Message.Term m = currentTerm r -> 0 <= Message.MatchIndex m <= len (body r).
Proof.
  intros Hn Hl Hm Hty Hs Ht. destruct (n_lead _ _ _ _ _ Hn Hl) as [HG _].
  destruct (g_net _ _ Hv m Hm) as [(_ & _ & Hf) _]. rewrite Hty in Hf. destruct (Hf Hs) as (a & Ha & Haty & Hat & <-).
  destruct (g_net _ _ Hv a Ha) as [(_ & _ & Haf) _]. rewrite Haty in Haf.
  destruct Haf as (l & Hl' & Hp & Htop & _). rewrite Hat, Ht, HG in Hl'. injection Hl' as _ <-.
  split; [| done]. unfold top. rewrite Haty. pose proof (len_nonneg (Message.Entries a)). lia.
Qed.

(** The leader notes an acknowledgement. *)
Lemma fine_acked r m :
  fine r -> inv r -> role r = Leader -> currentTerm r = Message.Term m -> vN v m -> Message.Type_ m = MsgAppendEntriesResponse ->
  Message.Success m = true ->
  let r2 := if get0 (matchIndex r) (Message.From m) <? Message.MatchIndex m
            then set_matchIndex (<[Message.From m := Message.MatchIndex m]> (matchIndex r)) r else r in
  fine (maybeAdvanceCommitIndex (set_nextIndex (<[Message.From m := inc64 (Message.MatchIndex m)]> (nextIndex r2)) r2)).
Proof.
  intros Hn Hinv Hl Ht Hm Hty Hs r2. set (r3 := set_nextIndex _ r2).
  pose proof (ack_range r m Hn Hl Hm Hty Hs ltac:(done)) as Hmi. destruct (n_lead _ _ _ _ _ Hn Hl) as [HG Hpr].
  pose proof (shape_bound r Hinv (n_head _ _ _ _ _ Hn)) as Hbd. unfold maxIndex in Hbd.
  assert (log_view r3 = log_view r /\ log_fields r3 = log_fields r /\ role r3 = role r /\ currentTerm r3 = currentTerm r /\
    peers r3 = peers r /\ body r3 = body r /\ sentIndex r3 = sentIndex r) as (Hlv & Hlf & Hr3 & Hc3 & Hpe & Hb & Hsi)
    by (subst r3 r2; by destruct (_ <? _)).
  apply fine_advance; [| by apply (inv_frame r) | congruence].
  apply (fine_progress r); try done. intros _ p Hp. rewrite Hpe in Hp. rewrite Hb, Hc3, Hsi.
  destruct (Hpr p Hp) as (Hma & Hnx & Hse).
  assert (1 <= get0 (nextIndex r3) p <= len (body r) + 1) as Hnx3.
  { subst r3. simpl. unfold get0. destruct (decide (p = Message.From m)) as [->|Hpm].
    - rewrite lookup_insert_eq. simpl. rewrite inc64_small by lia. lia.
    - rewrite lookup_insert_ne by done. subst r2. destruct (_ <? _); simpl; apply Hnx. }
  split_and!; try apply Hse; try apply Hnx3.
  subst r3. simpl. subst r2. destruct (Z.ltb_spec (get0 (matchIndex r) (Message.From m)) (Message.MatchIndex m)); [| done].
  simpl. unfold get0. destruct (decide (p = Message.From m)) as [->|Hpm];
    [rewrite lookup_insert_eq | by rewrite lookup_insert_ne by done].
  right. exists m. split_and!; try done. by right.
Qed.

(** The leader takes a step back and tries again. *)
Lemma fine_refused r from r' :
  fine r -> inv r -> role r = Leader -> from ∈ peers r ->
  let r2 := if 1 <? get0 (nextIndex r) from
            then set_nextIndex (<[from := get0 (nextIndex r) from - 1]> (nextIndex r)) r else r in
  sendAppendEntries (set_sentIndex (<[from := 0]> (sentIndex r2)) r2) from 0 = Ok r' -> fine r'.
Proof.
  intros Hn Hinv Hl Hpeer r2. set (r3 := set_sentIndex _ r2). destruct (n_lead _ _ _ _ _ Hn Hl) as [HG Hpr].
  assert (log_view r3 = log_view r /\ log_fields r3 = log_fields r /\ role r3 = role r /\
    currentTerm r3 = currentTerm r /\ peers r3 = peers r /\ body r3 = body r /\ matchIndex r3 = matchIndex r)
    as (Hlv & Hlf & Hr3 & Hc3 & Hpe & Hb & Hmt) by (subst r3 r2; by destruct (_ <? _)).
  apply fine_send_append; [| by apply (inv_frame r) | congruence | by rewrite Hpe].
  apply (fine_progress r); try done. intros _ p Hp. rewrite Hpe in Hp. rewrite Hb, Hc3, Hmt.
  destruct (Hpr p Hp) as (Hma & Hnx & Hse). split; [done |].
  assert (1 <= get0 (nextIndex r3) p <= len (body r) + 1) as ?.
  { subst r3. simpl. subst r2. destruct (Z.ltb_spec 1 (get0 (nextIndex r) from)); [| done].
    simpl. destruct (decide (p = from)) as [->|Hpm]; unfold get0 in *;
      [rewrite lookup_insert_eq | by rewrite lookup_insert_ne by done]. simpl in *. lia. }
  split; [done |]. subst r3. simpl. assert (sentIndex r2 = sentIndex r) as -> by (subst r2; by destruct (_ <? _)).
  destruct (decide (p = from)) as [->|Hpm]; unfold get0 in *;
    [rewrite lookup_insert_eq | by rewrite lookup_insert_ne by done]. simpl. lia.
Qed.

Lemma fine_handleAppendEntriesResponse r m r' :
  fine r -> inv r -> vN v m -> Message.To m = i -> Message.Type_ m = MsgAppendEntriesResponse ->
  handleAppendEntriesResponse r m = Ok r' -> fine r'.
Proof.
  intros Hn Hinv Hm Hto Hty. unfold handleAppendEntriesResponse. cbv zeta.
  destruct (Z.ltb_spec (currentTerm r) (Message.Term m)); [intros [= <-]; by apply fine_follower |].
  destruct (_ || _) eqn:E; [by intros [= <-] |].
  apply orb_false_iff in E as [E1%Z.ltb_ge Hl%negb_false_iff%bool_decide_eq_true].
  set (r1 := if _ =? 0 then r else _).
  assert (fine r1 /\ inv r1 /\ role r1 = Leader /\ currentTerm r1 = Message.Term m) as (Hn1 & Hinv1 & Hl1 & Ht1).
  { subst r1. destruct (_ =? 0); [split_and!; done || lia |].
    destruct (ackReadIndex_fields r (Message.ReadContext m) (Message.From m)) as (Hlv & ? & Hr & Hc & ? & ? & ?).
    split_and!; [by apply (fine_quiet r) | by apply (inv_frame r) | congruence | lia]. }
  clearbody r1. destruct (Message.Success m) eqn:Hs; [intros [= <-]; by apply fine_acked |].
  apply fine_refused; [done | done | done |].
  destruct (g_net _ _ Hv m Hm) as [(Hne & Hids & _) _].
  rewrite (n_peers _ _ _ _ _ Hn1). apply list_elem_of_filter. split; [congruence | done].
Qed.
End Fixed.

(** ** Every operation *)

Section Cluster.
Context (R : Z -> Raft) (D : Z -> dstate -> Prop) (Di : dstate -> Prop).

(** The cluster after an operation: only who led with what may have changed. *)
Definition moved (v : view) (r' : Raft) : Prop :=
  exists v', grows ids v v' /\ vN v' = vN v /\ vS v' = vS v /\ at_node ids R D i v' r' Di.

Lemma grows_refl v : grows ids v v.
Proof. constructor; try done. intros t j l Ht. by exists l. Qed.

Lemma moved_fine v r r' :
  at_node ids R D i v r Di -> (node_ok ids v i r Di -> node_ok ids v i r' Di) -> moved v r'.
Proof. intros [] H. exists v. split_and!; [apply grows_refl | done | done |]. constructor; auto. Qed.

(** A leader's messages after it changed its log. *)
Lemma moved_broadcast v r ctx r' :
  at_node ids R D i v r Di -> inv r -> role r = Leader -> broadcast r (peers r) ctx = Ok r' ->
  at_node ids R D i v r' Di /\ inv r' /\ role r' = Leader.
Proof.
  intros [Hv Ho Hn] Hinv Hl Hb. apply (fine_broadcast v Hv Di (peers r)) in Hb as (? & ? & ?); try done.
  by apply Forall_forall.
Qed.

Lemma get0_all (ps : list Z) c p : p ∈ ps -> get0 (list_to_map (map (fun q => (q, c)) ps)) p = c.
Proof.
  induction ps as [|q ps IH]; [by intros ?%not_elem_of_nil |]. simpl. unfold get0 in *.
  destruct (decide (p = q)) as [->|]; [by rewrite lookup_insert_eq |]. rewrite lookup_insert_ne by done.
  intros [?|?]%elem_of_cons; [done | auto].
Qed.

Lemma moved_leader v r r' :
  at_node ids R D i v r Di -> inv r -> role r = Candidate -> 0 <= currentTerm r ->
  won ids v (currentTerm r) i -> (forall j, j ∈ ids -> won ids v (currentTerm r) j -> j = i) ->
  becomeLeader r = Ok r' -> moved v r'.
Proof.
  intros Ha Hinv Hc Hpos Hw Huniq. unfold becomeLeader, sendHeartbeats. cbv zeta.
  set (r1 := set_heartbeatElapsed 0 _). intros Hrun. bind_ok Hrun r2 Hb. injection Hrun as <-.
  pose proof Ha as [Hv Ho Hn]. pose proof (n_head _ _ _ _ _ Hn) as Hh.
  destruct (n_cand _ _ _ _ _ Hn Hc) as [Hnl _].
  assert (vG v (currentTerm r) = None) as HG.
  { destruct (vG v (currentTerm r)) as [[j l]|] eqn:E; [| done]. exfalso.
    destruct (g_led _ _ Hv _ _ _ E) as (Hj & Hwj & _). by apply (Hnl l); rewrite <- (Huniq j Hj Hwj). }
  assert (progress v r1) as Hpr.
  { intros p Hp. pose proof (shape_bound r Hinv Hh) as Hbd. unfold maxIndex in Hbd.
    change (peers r1) with (peers r) in Hp. change (body r1) with (body r). simpl.
    rewrite !get0_all by done. change (lastLogIndex _) with (lastLogIndex r).
    pose proof (len_nonneg (body r)). rewrite shape_last, inc64_small by (done || lia).
    change (get0 ∅ p) with 0. split_and!; try lia. }
  destruct (move_lead ids ids_nodup two R D i Hi v r r1 (body r) Di) as [Hg Ha1]; try done.
  - by left.
  - unfold LL. rewrite HG. apply prefix_nil.
  - apply (n_terms _ _ _ _ _ Hn).
  - intros k e He. right. by apply (n_log _ _ _ _ _ Hn).
  - intros t k Ht Hk. by apply (candidate_complete ids ids_nodup two R D i v r Di).
  - destruct (moved_broadcast _ r1 0 r2 Ha1) as (Ha2 & _ & _); [revert Hinv; by apply inv_frame | done | done |].
    rewrite (fine_peers _ _ _ (a_node _ _ _ _ _ _ _ Ha2)).
    exists (lead v (currentTerm r) i (body r)). by split_and!.
Qed.

(** Entries of the leader's own term, appended to its log. *)
Lemma moved_propose v r datas r' indices :
  at_node ids R D i v r Di -> inv r -> 0 <= currentTerm r -> lastLogIndex r + len datas < maxIndex ->
  ProposeBatch r datas = Ok (r', indices) -> moved v r'.
Proof.
  intros Ha Hinv Hpos Hmax. unfold ProposeBatch.
  destruct (role_eqb (role r) Leader) eqn:Hl; simpl negb; cbv iota; [| done]. apply bool_decide_eq_true in Hl.
  destruct (append_proposals r datas) as [r1 ind] eqn:Hp. intros Hrun. bind_ok Hrun r2 Hb. injection Hrun as <- _.
  destruct (append_proposals_entries r datas r1 ind Hinv Hmax Hp) as (es & -> & Hinv1 & _ & _ & _ & _ & Hes & _).
  pose proof Ha as [Hv Ho Hn]. pose proof (n_head _ _ _ _ _ Hn) as Hh.
  destruct (n_lead _ _ _ _ _ Hn Hl) as [HG Hpr]. destruct (g_led _ _ Hv _ _ _ HG) as (_ & Hw & Hokl & Hte).
  set (r1 := set_log _ r) in *.
  assert (body r1 = body r ++ es) as Hb1 by (unfold body, r1; simpl; by rewrite (shape_log r Hh)).
  assert (forall n, (n <= length (body r))%nat -> take n (body r ++ es) = take n (body r)) as Htk
    by (intros; by apply take_app_le).
  destruct (move_lead ids ids_nodup two R D i Hi v r r1 (body r ++ es) Di) as [Hg Ha1]; try done.
  - right. eauto.
  - unfold LL. rewrite HG. by apply prefix_app_r.
  - by apply prefix_app_r.
  - apply Forall_app. split; [done |]. eapply Forall_impl; [exact Hes |]. simpl. lia.
  - intros k e [He | [_ He]]%lookup_app_Some.
    + right. rewrite Htk; [by apply Hokl |]. apply lookup_lt_Some in He. lia.
    + left. rewrite Forall_lookup in Hes. by eapply Hes.
  - intros t k Ht Hk. assert (holds v (body r) t k) as Hh'.
    { pose proof (g_complete _ _ Hv t (currentTerm r) k Ht) as Hc. unfold LL in Hc at 1. rewrite HG in Hc. auto. }
    unfold holds in *. rewrite Htk; [done |]. apply take_length_ge in Hh'; [done |]. apply valid_length, Hk.
  - unfold r1. simpl. rewrite (shape_log r Hh). by rewrite Hl.
  - intros p Hpp. destruct (Hpr p Hpp) as (Hm & Hnx & Hse).
    rewrite Hb1, len_app. pose proof (len_nonneg es). split_and!; done || (simpl in *; lia).
  - destruct (moved_broadcast _ r1 0 r2 Ha1) as (Ha2 & _ & _); [done | done | done |].
    rewrite (fine_peers _ _ _ (a_node _ _ _ _ _ _ _ Ha2)). eexists. split_and!; [exact Hg | done | done | done].
Qed.

Lemma moved_read v r ctx r' :
  at_node ids R D i v r Di -> inv r -> RequestReadIndex r ctx = Ok r' -> moved v r'.
Proof.
  intros Ha Hinv. unfold RequestReadIndex. cbv zeta.
  destruct (role_eqb (role r) Leader) eqn:Hl; simpl negb; cbv iota; [| done]. apply bool_decide_eq_true in Hl.
  pose proof (a_view _ _ _ _ _ _ _ Ha) as Hv. destruct (hasMajorityCount _ _).
  { intros [= <-]. apply (moved_fine v r); [done |]. intros Hn. by apply (fine_quiet v Hv Di r). }
  set (r1 := set_pendingReads _ r). intros Hb. apply (moved_fine v r); [done |]. intros Hn.
  assert (node_ok ids v i r1 Di) as Hn1 by (by apply (fine_quiet v Hv Di r)).
  apply (fine_broadcast v Hv Di (peers r1) r1 ctx r'); try done; [revert Hinv; by apply inv_frame | by apply Forall_forall].
Qed.

Lemma moved_tick v r r' :
  at_node ids R D i v r Di -> inv r -> 0 <= currentTerm r < maxTerm -> Tick r = Ok r' -> moved v r'.
Proof.
  intros Ha Hinv Hmax Hrun. pose proof (a_view _ _ _ _ _ _ _ Ha) as Hv.
  apply (moved_fine v r); [done |]. intros Hn. revert Hrun. unfold Tick, sendHeartbeats. cbv zeta.
  destruct (role_eqb (role r) Leader) eqn:Hl.
  - apply bool_decide_eq_true in Hl. destruct (_ <=? _).
    + intros Hb. eapply (fine_broadcast v Hv Di _ _ _ _); [| | | | exact Hb]; try done.
      * by apply (fine_quiet v Hv Di r).
      * revert Hinv. by apply inv_frame.
      * by apply Forall_forall.
    + intros [= <-]. by apply (fine_quiet v Hv Di r).
  - destruct (_ <=? _).
    + intros Hb. eapply (fine_precandidate v Hv Di); [| | | exact Hb]; try done.
      * by apply (fine_quiet v Hv Di r).
      * revert Hinv. by apply inv_frame.
    + intros [= <-]. by apply (fine_quiet v Hv Di r).
Qed.

Lemma becomeLeader_role r r' : becomeLeader r = Ok r' -> role r' = Leader /\ currentTerm r' = currentTerm r.
Proof.
  unfold becomeLeader, sendHeartbeats. cbv zeta. intros H. bind_ok H r2 Hb. injection H as <-.
  apply broadcast_frame in Hb. destruct (maybeAdvance_frame r2) as [Heq _].
  destruct (_ =? 0); [rewrite Heq |]; rewrite Hb; done.
Qed.

(** Elections are fair: whoever leads had a majority, and nobody else did. *)
Definition fair (v : view) (r' : Raft) : Prop :=
  (role r' = Leader -> won ids v (currentTerm r') i) /\
  (forall t j, j ∈ ids -> won ids v t j -> won ids v t i -> j = i).

Lemma moved_handleRequestVoteResponse v r m r' :
  at_node ids R D i v r Di -> inv r -> 0 <= currentTerm r -> fair v r' ->
  handleRequestVoteResponse r m = Ok r' -> moved v r'.
Proof.
  intros Ha Hinv Hpos [Hw Hu]. pose proof (a_view _ _ _ _ _ _ _ Ha) as Hv. unfold handleRequestVoteResponse. cbv zeta.
  destruct (_ <? _); [intros [= <-]; apply (moved_fine v r); [done |]; by apply fine_follower |].
  destruct (_ || _) eqn:E; [intros [= <-]; by apply (moved_fine v r) |].
  apply orb_false_iff in E as [_ Hc%negb_false_iff%bool_decide_eq_true].
  destruct (negb _); [intros [= <-]; by apply (moved_fine v r) |].
  set (r1 := set_votesReceived _ r).
  assert (at_node ids R D i v r1 Di) as Ha1.
  { destruct Ha as [_ Ho Hn]. constructor; [done | done |]. by apply (fine_quiet v Hv Di r). }
  destruct (hasMajorityCount _ _).
  - intros Hb. destruct (becomeLeader_role _ _ Hb) as [Hl Ht]. specialize (Hw Hl). rewrite Ht in Hw.
    apply (moved_leader v r1); try done; [revert Hinv; by apply inv_frame |].
    intros j Hj Hwj. by apply (Hu (currentTerm r1)).
  - intros [= <-]. by apply (moved_fine v r1).
Qed.

Lemma moved_step v r m r' :
  at_node ids R D i v r Di -> inv r -> 0 <= currentTerm r < maxTerm -> vN v m -> wire_ok m -> fair v r' ->
  Step r m = Ok r' -> moved v r'.
Proof.
  intros Ha Hinv Hmax Hm Hw Hf. pose proof (a_view _ _ _ _ _ _ _ Ha) as Hv.
  pose proof (n_id _ _ _ _ _ (a_node _ _ _ _ _ _ _ Ha)) as Hid. unfold Step.
  destruct (Message.To m =? id r) eqn:Hto; simpl negb; cbv iota; [| intros [= <-]; by apply (moved_fine v r)].
  apply Z.eqb_eq in Hto. rewrite Hid in Hto.
  destruct (g_net _ _ Hv m Hm) as [(_ & _ & Hfine) _].
  destruct (Message.Type_ m) eqn:Hty; try done; intros Hrun.
  - injection Hrun as <-. apply (moved_fine v r); [done |]. intros. by apply fine_handlePreVote.
  - apply (moved_fine v r); [done |]. intros. by eapply (fine_handlePreVoteResponse v Hv Di r m).
  - injection Hrun as <-. apply (moved_fine v r); [done |]. intros. by apply fine_handleRequestVote.
  - apply (moved_handleRequestVoteResponse v r m); try done. lia.
  - apply (moved_fine v r); [done |]. intros. by eapply (fine_handleAppendEntries v Hv Di r m).
  - apply (moved_fine v r); [done |]. intros. by eapply (fine_handleAppendEntriesResponse v Hv Di r m).
  - injection Hrun as <-. by apply (moved_fine v r).
Qed.

(** A snapshot would move the start of the log. *)
Lemma snapshot_compacts r index data r' :
  inv r -> CreateSnapshot r index data = Ok r' -> 0 < firstLogIndex r'.
Proof.
  intros Hinv Hrun. pose proof (inv_first r Hinv). apply CreateSnapshot_spec in Hrun as (? & _ & Hlog & _); [| done].
  unfold firstLogIndex. rewrite Hlog. simpl. lia.
Qed.

(** Every operation of a node that stays uncompacted. *)
Lemma moved_exec v r o r' :
  at_node ids R D i v r Di -> inv r -> 0 <= currentTerm r < maxTerm -> op_ok r o -> o <> OAdvance ->
  (forall m, o = OStep m -> vN v m) -> fair v r' -> firstLogIndex r' = 0 ->
  exec r o = Ok r' -> moved v r'.
Proof.
  intros Ha Hinv Hmax Hok Hna Hnet Hf Hfirst. destruct o as [|m|datas|ctx|index data|]; simpl in *; [.. | done].
  - by apply (moved_tick v r).
  - apply (moved_step v r m); auto.
  - destruct (ProposeBatch r datas) as [[x y]| |] eqn:E; simpl; [| intros [= <-]; by apply (moved_fine v r) | done].
    intros [= <-]. apply (moved_propose v r datas x y); try done. lia.
  - destruct (RequestReadIndex r ctx) as [x| |] eqn:E; simpl; [| intros [= <-]; by apply (moved_fine v r) | done].
    intros [= <-]. by apply (moved_read v r ctx).
  - destruct (CreateSnapshot r index data) as [x| |] eqn:E; simpl; [| intros [= <-]; by apply (moved_fine v r) | done].
    intros [= <-]. apply snapshot_compacts in E; [lia | done].
Qed.
End Cluster.
End Moves.
