(* ===== verification/RaftSafety.v ===== *)
(** * Raft: state machine safety

    The cluster of [RaftCluster] as long as no node compacts its log: every
    step of a node of src/raft/raft.go with its disk is a move of [RaftView],
    so that logs match, leaders are complete and no two nodes ever commit
    different entries at one index, whatever is lost, delayed, repeated or
    crashes.  [RaftLoss] shows that the same fails once snapshots are sent. *)

From stdpp Require Import functions.
From Stdlib Require Import Strings.Byte.
From S2P Require Import Prelude GoBytes Wal RaftTypes Raft RaftLog RaftInv RaftVote RaftStorage RaftStable RaftSend RaftNode RaftProps RaftCluster RaftView RaftMoves.

Import RaftStorage.Codec.

Section Safety.
Context (ids : list Z) (election heartbeat : Z) (path : Z -> string).
Context (ids_nodup : NoDup ids) (ids_wf : Forall (fun i => is_u64 i /\ i <> 0) ids).
Context (two : 2 <= len ids).

Abbreviation cfg := (config ids election heartbeat).
Abbreviation cstep := (cstep ids election heartbeat path).
Abbreviation cluster_inv := (cluster_inv ids election heartbeat).
Abbreviation node w i := (n_r (nodes w i)).

(** ** Runs without compaction *)

Definition uncompacted (w : world) : Prop := forall i, i ∈ ids -> firstLogIndex (node w i) = 0.

Definition plain_step (w w' : world) : Prop := cstep w w' /\ uncompacted w'.

(** [w'] is reached from [w] without compaction. *)
Definition later : world -> world -> Prop := rtc plain_step.

(** A world and its view. *)
Record tracked (w : world) (v : view) : Prop := {
  t_cluster : cluster_inv w;
  t_net : vN v = sent w;
  t_stable : forall i, i ∈ ids -> vS v i = stableTerm (node w i);
  t_view : view_ok ids v;
  t_nodes : exists D : Z -> dstate -> Prop, forall i, i ∈ ids -> node_ok ids v i (node w i) (D i) /\
    exists d t, node_inv (sent w) d t (nodes w i) /\ between d t (D i)
}.

(** What one node's step leaves, with the rest of the cluster in [R], [D]. *)
Definition node_moved (R : Z -> Raft) (D : Z -> dstate -> Prop) (N' : Message.t -> Prop) (i : Z) (v : view) (n' : Node) : Prop :=
  exists v' Di, grows ids v v' /\ vN v' = N' /\ (forall j, j <> i -> vS v' j = vS v j) /\
    vS v' i = stableTerm (n_r n') /\ at_node ids R D i v' (n_r n') Di /\
    exists d t, node_inv N' d t n' /\ between d t Di.

(** ** One node's steps *)

Section Step.
Context (w : world) (v : view) (i : Z) (Hi : i ∈ ids) (Hc : cluster_inv w).
Context (Hnet : vN v = sent w) (HS : vS v i = stableTerm (node w i)).
Context (R : Z -> Raft) (D : Z -> dstate -> Prop) (Di : dstate -> Prop) (d t : list item).
Context (Ha : at_node ids R D i v (node w i) Di).
Context (Hn : node_inv (sent w) d t (nodes w i)) (HD : between d t Di).

Lemma op_moved o r' :
  currentTerm (node w i) < maxTerm -> admissible (sent w) (node w i) o -> exec (node w i) o = Ok r' ->
  fair ids i v r' -> firstLogIndex r' = 0 ->
  node_moved R D (sent w) i v {| n_r := r'; n_storage := n_storage (nodes w i) |}.
Proof.
  intros Hmax Hadm Hrun Hfair Hfirst.
  assert (forall m, sent w m -> good m /\ Message.From m <> 0) as Hgood.
  { intros m Hm. destruct (ci_net _ _ _ _ Hc m Hm) as (? & Hf & _). split; [done |].
    by apply (ids_nonzero ids ids_wf). }
  destruct (admissible_ok (sent w) Hgood _ _ Hadm) as (Hok & Hwf & Hs).
  destruct (node_exec (sent w) (fun m Hm => proj2 (Hgood m Hm)) _ _ _ _ _ Hn Hmax Hok Hwf Hs Hrun) as [Hn' _].
  pose proof (ni_send _ _ _ _ Hn) as Hsd. pose proof (sd_inv _ Hsd) as Hinv.
  pose proof (v_term _ _ (ni_vote _ _ _ _ Hn)) as Hpos.
  destruct (moved_exec ids ids_nodup two i Hi R D Di v (node w i) o r') as (v' & Hg & HN & HSv & Ha');
    try done.
  - intros ->. done.
  - intros m ->. rewrite Hnet. by apply Hs.
  - exists v', Di. split_and!; [done | congruence | intros; by rewrite HSv | | done | by exists d, t].
    rewrite HSv, HS. pose proof (r_hard _ _ (exec_srel _ _ _ Hinv Hok Hwf Hrun)) as Hh.
    unfold stable_hard in Hh. by injection Hh.
Qed.

(** A save that succeeds. *)
Lemma persist_moved env n' ms rs sn :
  tmp_left env = [] -> Persist env (nodes w i) = (n', Ok (ms, rs, sn)) ->
  node_moved R D (fun m => m ∈ net w ++ ms) i v n'.
Proof.
  intros Ht Hp. set (r := node w i) in *. pose proof (sd_inv _ (ni_send _ _ _ _ Hn)) as Hinv.
  destruct (node_release (sent w) (fun m => m ∈ net w ++ ms) d t _ env n' ms rs sn Hn Ht Hp)
    as (-> & HA & _ & items & [_ Hst] & Hn').
  { intros m Hm. apply elem_of_app. by left. }
  { intros m Hm. by apply elem_of_app in Hm. }
  fold r in HA, Hst, Hn' |- *.
  assert (log (Advance r) = log r /\ len (body r) < unstableIndex (Advance r)) as [Hlog Hun].
  { pose proof (inv_unstable r Hinv). pose proof (inv_bound r Hinv). pose proof (inv_first r Hinv).
    pose proof (first_le_last r Hinv). pose proof (last_first r Hinv) as Hl.
    assert (len (body r) = len (log r) - 1) as Hb.
    { unfold body. pose proof (inv_nonempty r Hinv). destruct (log r); [done |]. simpl. len_lia. }
    split; [unfold Advance; by destruct (_ <=? _) |]. unfold Advance, lastLogIndex in *. simpl.
    destruct (Z.leb_spec (unstableIndex r) (match last (log r) with Some e => LogEntry.Index e | None => 0 end)); simpl; [| lia].
    unfold lastLogIndex; simpl. rewrite inc64_small by (unfold maxIndex in *; lia). lia. }
  assert (stableTerm (Advance r) = currentTerm r) as Hs' by (unfold Advance; by destruct (_ <=? _)).
  destruct (move_release ids R D i v r (Advance r) (fun m => m ∈ net w ++ msgs r) Di
    (fun st => st = (hard r, body r, snapshot r))) as [Hg Ha']; try done.
  - intros m. rewrite Hnet. apply elem_of_app.
  - pose proof (o_msgs _ _ (v_out _ _ (ni_vote _ _ _ _ Hn))) as Hms. rewrite Forall_forall in Hms.
    intros g Hgm Hgg. rewrite Hnet. by apply (Hms g Hgm).
  - rewrite Hlog. unfold Advance. by destruct (_ <=? _).
  - unfold Advance. by destruct (_ <=? _).
  - by intros st ->.
  - eexists _, _. split_and!; [exact Hg | done | | | by rewrite HA | ].
    + intros j Hj. simpl. by rewrite decide_False.
    + simpl. rewrite decide_True by done. by rewrite HA.
    + exists items, items. split; [done |]. by apply between_same.
Qed.

(** One that fails. *)
Lemma fail_moved env n' e :
  tmp_left env = [] -> Persist env (nodes w i) = (n', Err e) -> node_moved R D (sent w) i v n'.
Proof.
  intros Ht Hp. set (r := node w i) in *. pose proof (sd_inv _ (ni_send _ _ _ _ Hn)) as Hinv.
  apply (Persist_spec _ _ _ _ _ _ _ Hn Ht) in Hp as (HA & d' & t' & Hn' & HP). fold r in HA, HP.
  pose proof Ha as [Hv Ho Hnode]. pose proof (shape_first r (n_head _ _ _ _ _ Hnode)) as Hf.
  set (Di' := fun st : dstate =>
     (exists st0, Di st0 /\ d_log st = d_log st0 /\ HardState.Term (d_hs st0) <= HardState.Term (d_hs st)) \/
     (d_log st `prefix_of` body r /\ HardState.Term (d_hs st) = currentTerm r /\ unstableIndex r <= len (d_log st) + 1)).
  exists v, Di'. split_and!; [apply grows_refl | done | done | by rewrite HA | |].
  - rewrite HA. constructor; [done | done |]. by apply (node_disk ids i v r Di).
  - exists d', t'. split; [done |]. apply HP; [split |].
    + intros st (_ & _ & Hle) Hst. assert (HardState.Term (d_hs st) <= currentTerm r) by (unfold hard_le in Hle; simpl in Hle; lia).
      destruct Hst as [(st0 & ? & ? & ?) | (? & ? & ?)]; [left | right; by split_and!].
      exists st0. split_and!; try done. simpl. lia.
    + intros l Hlo Hhi. right. split_and!; [done | done |]. simpl.
      pose proof (below_drop r Hinv) as Hbd. apply (f_equal len) in Hbd. rewrite len_app in Hbd.
      apply prefix_length in Hlo. pose proof (inv_unstable r Hinv). pose proof (last_first r Hinv) as Hl.
      assert (len (tail (log r)) = len (log r) - 1) as Hb.
      { pose proof (inv_nonempty r Hinv). destruct (log r); [done |]. simpl. len_lia. }
      rewrite Hf in *. unfold len in *. rewrite length_drop in Hbd. lia.
    + revert HD. apply between_impl. intros st Hst. left. exists st. by split_and!.
Qed.

(** A crash and the restart that follows it. *)
Lemma crash_moved k faults draws n' snap :
  Config.ID (cfg i) = id (node w i) -> Config.Peers (cfg i) = peers (node w i) ->
  OpenNode (cfg i) (path i) (Some (Replay.healthy (Durability.crash_image (disk (n_storage (nodes w i))) k)))
    true faults draws = Ok (n', snap) ->
  firstLogIndex (n_r n') = 0 -> node_moved R D (sent w) i v n'.
Proof.
  intros Hid Hpe Hopen Hfirst. set (r := node w i) in *.
  assert (exists r0, New (cfg i) draws = Ok r0) as [r0 Hnew].
  { unfold OpenNode in Hopen. destruct (OpenStorage _ _ _ _) as [[? [[? ?] ?]]| |]; [| done..].
    cbn [res_bind] in Hopen. destruct (New (cfg i) draws); [eauto | done..]. }
  destruct (OpenNode_crash (sent w) _ _ _ (cfg i) (path i) k faults draws r0 Hn Hnew Hid)
    as (items & n'' & snap' & Ho & Hd & Ht & Hr & (Hro & Hlo & _) & Hni).
  rewrite Ho in Hopen. injection Hopen as <- _. set (st := state_of items) in *.
  destruct (restored_fields (cfg i) draws r0 st Hnew Hro)
    as (Hi' & Hp' & Hrl & Hms & Hh & Hsh & Hlog & _ & _ & Hco & Hun & Hl).
  rewrite <- Hr in *. unfold firstLogIndex in Hfirst. rewrite Hlog, sentinel_index in Hfirst by apply Hro.
  unfold hard in Hh. unfold stable_hard in Hsh.
  assert (sentinel (d_snap st) = LogEntry.mk 0 0 []) as Hse by (unfold sentinel; by rewrite Hfirst).
  destruct (move_restart ids R D i v r (n_r n'') Di st) as [Hg Ha']; try done.
  - by apply HD.
  - rewrite HS. unfold hard_le, stable_hard in Hlo. simpl in Hlo. fold r in Hlo. lia.
  - rewrite Hi', Hp', Hms, Hrl, Hco, Hfirst, Hid, Hpe, <- Hh. done.
  - by rewrite Hlog, Hse.
  - rewrite Hun, Hl, Hfirst. lia.
  - eexists _, _. split_and!; [exact Hg | done | | | done |].
    + intros j Hj. simpl. by rewrite decide_False.
    + simpl. by rewrite decide_True, <- Hsh by done.
    + exists items, items. split; [done |]. by apply between_same.
Qed.
End Step.

(** ** Every step of the cluster *)

Lemma tracked_fair w' v i n' :
  cluster_inv w' -> i ∈ ids -> nodes w' i = n' -> vN v = sent w' -> fair ids i v (n_r n').
Proof.
  intros Hc Hi <- HN. destruct (ci_nodes _ _ _ _ Hc i Hi) as ((d & t & Hn) & Hid & Hpe).
  assert (forall t j, won ids v t j -> backed ids w' t j) as Hwb.
  { intros u j (Q & [? ?] & HQ). rewrite HN in HQ. exists Q. by split_and!. }
  split.
  - intros Hl. destruct (leader_backed ids election heartbeat ids_nodup w' (nodes w' i) i) as (Q & ? & ? & HQ); try done.
    + intros m Hm. by apply (ci_net _ _ _ _ Hc).
    + apply Hn.
    + exists Q. rewrite HN. split; [by split | done].
  - intros u j Hj Hwj Hwi. apply (backed_unique ids election heartbeat ids_nodup ids_wf w' u); auto.
Qed.

Lemma tracked_step w v w' : tracked w v -> plain_step w w' -> exists v', grows ids v v' /\ tracked w' v'.
Proof.
  intros [Hc Hnet HS Hv [D HD]] [Hs Hun].
  pose proof (cluster_step ids election heartbeat path ids_nodup ids_wf w w' Hc Hs) as Hc'.
  destruct Hs as [w i n' ms Hi Hstep]. destruct (HD i Hi) as (Hno & d & t & Hn & Hbt).
  assert (at_node ids (fun j => node w j) D i v (node w i) (D i)) as Ha.
  { constructor; [done | | done]. intros j Hj _. by apply HD. }
  set (w' := {| nodes := _ |}) in *.
  assert (nodes w' i = n') as Hni by (apply fn_lookup_insert).
  pose proof (Hun i Hi) as Hfirst. rewrite Hni in Hfirst.
  destruct (ci_nodes _ _ _ _ Hc i Hi) as (_ & Hid & Hpe).
  assert (node_moved (fun j => node w j) D (sent w') i v n') as (v' & Di & Hg & HN' & HSo & HSi & [Hv' Ho Hno'] & Hdisk).
  { assert (ms = [] -> sent w' = sent w) as Hnil by (intros ->; unfold sent; simpl; by rewrite app_nil_r).
    remember (nodes w i) as n0 eqn:En in Hstep. destruct Hstep as [n o r' Hmax Hadm Hrun | n env n' ms rs sn Htl Hp
      | n env n' e Htl Hp | n k faults draws n' snap Hopen]; subst n.
    - pose proof (tracked_fair w' v i _ Hc' Hi Hni ltac:(by rewrite Hnil)) as Hfair.
      rewrite Hnil by done. by apply (op_moved w v i Hi Hc Hnet (HS i Hi) _ _ _ d t Ha Hn Hbt o).
    - by apply (persist_moved w v i Hnet _ _ _ d t Ha Hn env n' ms rs sn).
    - rewrite Hnil by done. by apply (fail_moved w v i Hnet (HS i Hi) _ _ _ d t Ha Hn Hbt env n' e).
    - rewrite Hnil by done. by apply (crash_moved w v i Hnet (HS i Hi) _ _ _ d t Ha Hn Hbt k faults draws n' snap). }
  exists v'. split; [done |]. constructor; [done | done | | done |].
  - intros j Hj. destruct (decide (j = i)) as [->|Hne]; [by rewrite Hni |].
    rewrite HSo by done. simpl. rewrite fn_lookup_insert_ne by done. by apply HS.
  - exists (<[i := Di]> D). intros j Hj. destruct (decide (j = i)) as [->|Hne].
    + rewrite Hni, fn_lookup_insert. done.
    + simpl. rewrite !fn_lookup_insert_ne by done. split; [by apply Ho |].
      destruct (HD j Hj) as (_ & dj & tj & Hnj & Hbj). exists dj, tj. split; [| done].
      destruct (step_node ids election heartbeat path ids_wf w i n' ms Hc Hi Hstep) as (_ & _ & _ & Hms).
      revert Hnj. apply node_grow; [intros m Hm; apply elem_of_app; by left |].
      intros m Hm Hf. apply elem_of_app in Hm as [? | Hm]; [done |]. rewrite Forall_forall in Hms.
      destruct (Hms m Hm) as (_ & Hfi & _). destruct (ci_nodes _ _ _ _ Hc j Hj) as (_ & Hidj & _). simpl in Hidj. congruence.
Qed.

(** ** The start *)

Lemma fresh_ok : rec_ok (state_of []).
Proof. constructor; unfold maxIndex, hard_wf, is_u64; simpl; try done. Qed.

Lemma fresh_fields c draws r0 :
  New c draws = Ok r0 -> let r := restored r0 (state_of []) in
  (id r = Config.ID c /\ peers r = Config.Peers c /\ role r = Follower /\ msgs r = []) /\
  HardState.Term (hard r) = 0 /\ HardState.Term (stable_hard r) = 0 /\
  log r = [LogEntry.mk 0 0 []] /\ commitIndex r = 0.
Proof.
  intros Hnew r. destruct (restored_fields c draws r0 (state_of []) Hnew fresh_ok)
    as (Hi & Hp & Hr & Hm & Hh & Hs & Hl & _ & _ & Hc & _ & _).
  fold r in Hi, Hp, Hr, Hm, Hh, Hs, Hl, Hc. rewrite Hi, Hp, Hr, Hm, Hh, Hs, Hl, Hc. repeat split; reflexivity.
Qed.

(** A node that starts without a file. *)
Lemma open_fresh c p faults draws n snap :
  OpenNode c p None true faults draws = Ok (n, snap) ->
  (id (n_r n) = Config.ID c /\ peers (n_r n) = Config.Peers c /\ role (n_r n) = Follower /\ msgs (n_r n) = []) /\
  currentTerm (n_r n) = 0 /\ stableTerm (n_r n) = 0 /\ log (n_r n) = [LogEntry.mk 0 0 []] /\ commitIndex (n_r n) = 0.
Proof.
  intros H. assert (exists r0, New c draws = Ok r0 /\ n_r n = restored r0 (state_of [])) as (r0 & Hnew & Heq).
  { revert H. unfold OpenNode, OpenStorage. simpl. intros H. bind_ok H r0 Hnew. injection H as <- _. by exists r0. }
  pose proof (fresh_fields c draws r0 Hnew) as Hf. cbv zeta in Hf. rewrite <- Heq in Hf. exact Hf.
Qed.

Definition empty_view (w : world) : view := {| vS := fun _ => 0; vN := sent w; vG := fun _ => None |}.

Lemma fresh_node w r i :
  (forall m, ~ sent w m) -> id r = i -> peers r = filter (fun p => p <> i) ids -> role r = Follower -> msgs r = [] ->
  currentTerm r = 0 -> log r = [LogEntry.mk 0 0 []] -> commitIndex r = 0 ->
  node_ok ids (empty_view w) i r (fun st => st = state_of []).
Proof.
  intros Hno Hid Hpe Hro Hms Hct Hlog Hco. assert (body r = []) as Hb by (unfold body; by rewrite Hlog).
  assert (forall t k, ~ key ids (empty_view w) t k) as Hnokey by (intros t k [_ (e & He & _)]; done).
  assert (forall m, ~ mine (empty_view w) i r m) as Hmine.
  { intros m [Hm | [Hm%Hno _]]; [rewrite Hms in Hm; by apply not_elem_of_nil in Hm | done]. }
  constructor; rewrite ?Hlog, ?Hb, ?Hct, ?Hms, ?Hro, ?Hco; try done.
  - intros t k _ ?%Hnokey. done.
  - by intros st ->.
  - by intros g ?%Hmine.
Qed.

Lemma tracked_init w : initial ids election heartbeat path w -> exists v, tracked w v.
Proof.
  intros Hini. pose proof (cluster_init ids election heartbeat path ids_wf w Hini) as Hc.
  pose proof Hini as (Hnet & _ & Hopen).
  assert (forall m, ~ sent w m) as Hno by (intros m; unfold sent; rewrite Hnet; apply not_elem_of_nil).
  exists (empty_view w). constructor; [done | done | | |].
  - intros i Hi. destruct (Hopen i Hi) as (faults & draws & snap & Ho).
    apply open_fresh in Ho as (_ & _ & -> & _). done.
  - constructor; try done; by intros m ?%Hno.
  - exists (fun _ st => st = state_of []). intros i Hi. destruct (Hopen i Hi) as (faults & draws & snap & Ho).
    split.
    + apply open_fresh in Ho as ((? & ? & ? & ?) & ? & _ & ? & ?). by apply fresh_node.
    + apply node_start with (net := sent w) in Ho as (Hn & _); [| by apply (ids_nonzero ids ids_wf) | by intros m ?%Hno].
      exists [], []. split; [done | by apply between_same].
Qed.

(** ** Runs *)

Lemma grows_trans v1 v2 v3 : grows ids v1 v2 -> grows ids v2 v3 -> grows ids v1 v3.
Proof.
  intros [] []. constructor; auto.
  - intros t i l Ht. destruct (gr_led t i l Ht) as (l2 & H2 & Hp2). destruct (gr_led0 t i l2 H2) as (l3 & H3 & Hp3).
    exists l3. split; [done | by etrans].
  - intros i. etrans; [apply gr_stable | apply gr_stable0].
Qed.

Lemma tracked_later w w' v : tracked w v -> later w w' -> exists v', grows ids v v' /\ tracked w' v'.
Proof.
  intros Ht Hl. revert v Ht. induction Hl as [w | w w1 w' Hs _ IH]; intros v Ht.
  { exists v. split; [apply grows_refl | done]. }
  destruct (tracked_step w v w1 Ht Hs) as (v1 & Hg1 & Ht1). destruct (IH v1 Ht1) as (v' & Hg & Ht').
  exists v'. split; [by eapply grows_trans | done].
Qed.

(** Two moments of one run, with their views. *)
Lemma tracked_run w0 w w' :
  initial ids election heartbeat path w0 -> later w0 w -> later w w' ->
  exists v v', tracked w v /\ tracked w' v' /\ grows ids v v'.
Proof.
  intros H0 Hl Hl'. destruct (tracked_init w0 H0) as [v0 Ht0].
  destruct (tracked_later w0 w v0 Ht0 Hl) as (v & _ & Ht). destruct (tracked_later w w' v Ht Hl') as (v' & Hg & Ht').
  eauto.
Qed.

Lemma tracked_node w v i :
  tracked w v -> i ∈ ids -> inv (node w i) /\ exists D, node_ok ids v i (node w i) D.
Proof.
  intros [_ _ _ _ [D HD]] Hi. destruct (HD i Hi) as (Hn & d & t & Hni & _).
  split; [apply (sd_inv _ (ni_send _ _ _ _ Hni)) | eauto].
Qed.

Lemma entry_body r k e :
  head (log r) = Some (LogEntry.mk 0 0 []) -> 0 < k -> entry_at r k = Some e <-> body r !! Z.to_nat (k - 1) = Some e.
Proof.
  intros Hh Hk. unfold entry_at. rewrite (shape_first r Hh), (proj2 (Z.ltb_ge _ _)) by lia.
  rewrite (shape_log r Hh), Z.sub_0_r. by replace (Z.to_nat k) with (S (Z.to_nat (k - 1))) by lia.
Qed.

(** The logs of two terms agree on what either has decided. *)
Lemma decided_agree v t p t' p' n :
  view_ok ids v -> key ids v t p -> key ids v t' p' -> (n <= p)%nat -> (n <= p')%nat ->
  LL v t !! n = LL v t' !! n.
Proof.
  intros Hv Hk Hk' Hn Hn'. assert (forall u q, key ids v u q -> is_Some (vG v u)) as Hled.
  { intros u q [_ (e & He & _)]. unfold LL in He. by destruct (vG v u). }
  destruct (Z.le_ge_cases t t') as [Hle|Hle].
  - symmetry. apply take_lookup. apply (take_le _ (S p)); [lia |]. apply (decided_led ids); eauto.
  - apply take_lookup. apply (take_le _ (S p')); [lia |]. apply (decided_led ids); eauto.
Qed.

Lemma key_grows v v' t p : grows ids v v' -> com ids v t p -> valid v t p -> key ids v' t p.
Proof.
  intros Hg Hc Hv. split; [by apply com_choosable, (com_grows ids v) | by apply (valid_grows ids v)].
Qed.

(** What was committed is an entry of the log of some term's leader, also
    seen from a later moment. *)
Lemma tracked_committed w v v' i e :
  tracked w v -> grows ids v v' -> i ∈ ids -> committed w i e ->
  exists t p, key ids v' t p /\ t <= currentTerm (node w i) /\
    0 < LogEntry.Index e /\ (Z.to_nat (LogEntry.Index e - 1) <= p)%nat /\
    LL v' t !! Z.to_nat (LogEntry.Index e - 1) = Some e.
Proof.
  intros Ht Hg Hi [He Hk]. destruct (tracked_node w v i Ht Hi) as [Hinv [D Hn]].
  pose proof (n_head _ _ _ _ _ Hn) as Hh. rewrite (shape_first _ Hh) in Hk.
  apply entry_body in He; [| done | lia].
  destruct (n_commit _ _ _ _ _ Hn ltac:(lia)) as (t & p & Hcom & Hva & Htc & Hcp & Htk).
  exists t, p. split_and!; [by apply (key_grows v) | done | lia | lia |].
  destruct (LL_grows ids v v' Hg t) as [x ->]. apply lookup_app_l_Some.
  rewrite <- He. symmetry. apply take_lookup. by apply (take_le _ (Z.to_nat (commitIndex (node w i)))); [lia |].
Qed.

(** C3: state machine safety.  In a cluster of at least two nodes none of
    which has compacted its log, whatever messages are lost, delayed, repeated
    or reordered and whichever nodes fail to save, crash and restart: when a
    node has committed an entry at one moment, and a node, the same or
    another, has committed one at the same index at the same or any later
    moment, the two are the same entry.  So no two servers apply different
    commands at one index, and none applies another one after a restart. *)
Theorem state_machine_safety w0 w w' i j e e' :
  initial ids election heartbeat path w0 -> later w0 w -> later w w' -> i ∈ ids -> j ∈ ids ->
  committed w i e -> committed w' j e' -> LogEntry.Index e = LogEntry.Index e' -> e = e'.
Proof.
  intros H0 Hl Hl' Hi Hj He He' Hidx. destruct (tracked_run w0 w w' H0 Hl Hl') as (v & v' & Ht & Ht' & Hg).
  destruct (tracked_committed w v v' i e Ht Hg Hi He) as (t & p & Hk & _ & _ & Hp & HL).
  destruct (tracked_committed w' v' v' j e' Ht' (grows_refl ids v') Hj He') as (t' & p' & Hk' & _ & _ & Hp' & HL').
  rewrite <- Hidx in Hp', HL'.
  pose proof (decided_agree v' t p t' p' _ (t_view _ _ Ht') Hk Hk' Hp Hp'). congruence.
Qed.

(** C4: leader completeness.  In a cluster of at least two nodes none of which
    has compacted its log, an entry that a node has committed is in the log of
    every node that leads, then or later, in the node's term or a later one. *)
Theorem leader_completeness w0 w w' i j e :
  initial ids election heartbeat path w0 -> later w0 w -> later w w' -> i ∈ ids -> j ∈ ids ->
  committed w i e -> role (node w' j) = Leader -> currentTerm (node w i) <= currentTerm (node w' j) ->
  entry_at (node w' j) (LogEntry.Index e) = Some e.
Proof.
  intros H0 Hl Hl' Hi Hj He Hr Hle. destruct (tracked_run w0 w w' H0 Hl Hl') as (v & v' & Ht & Ht' & Hg).
  destruct (tracked_committed w v v' i e Ht Hg Hi He) as (t & p & Hk & Htc & Hpos & Hp & HL).
  destruct (tracked_node w' v' j Ht' Hj) as [_ [D Hn]]. destruct (n_lead _ _ _ _ _ Hn Hr) as [HG _].
  pose proof (decided_led ids v' t (currentTerm (node w' j)) p (t_view _ _ Ht') Hk ltac:(lia)) as Hh.
  assert (LL v' (currentTerm (node w' j)) = body (node w' j)) as HLL by (unfold LL; by rewrite HG).
  rewrite HLL in Hh. apply entry_body; [apply (n_head _ _ _ _ _ Hn) | done |].
  rewrite <- HL. apply take_lookup. apply (take_le _ (S p)); [lia |]. apply Hh. by rewrite HG.
Qed.

(** C5: log matching.  In a cluster of at least two nodes none of which has
    compacted its log, when the log of one node at one moment and the log of a
    node at that or a later moment have entries of the same index and term,
    the two logs are identical up to that index. *)
Theorem log_matching w0 w w' i j k e e' :
  initial ids election heartbeat path w0 -> later w0 w -> later w w' -> i ∈ ids -> j ∈ ids ->
  0 < k -> entry_at (node w i) k = Some e -> entry_at (node w' j) k = Some e' ->
  LogEntry.Term e = LogEntry.Term e' ->
  forall k', 0 <= k' <= k -> entry_at (node w i) k' = entry_at (node w' j) k'.
Proof.
  intros H0 Hl Hl' Hi Hj Hk He He' Hte k' Hk'. destruct (tracked_run w0 w w' H0 Hl Hl') as (v & v' & Ht & Ht' & Hg).
  destruct (tracked_node w v i Ht Hi) as [_ [D Hn]]. destruct (tracked_node w' v' j Ht' Hj) as [_ [D' Hn']].
  pose proof (n_head _ _ _ _ _ Hn) as Hh. pose proof (n_head _ _ _ _ _ Hn') as Hh'.
  apply entry_body in He; [| done | done]. apply entry_body in He'; [| done | done].
  pose proof (okl_grows ids v v' Hg _ (n_log _ _ _ _ _ Hn) _ _ He) as Hb.
  pose proof (n_log _ _ _ _ _ Hn' _ _ He') as Hb'. rewrite Hte, <- Hb' in Hb.
  destruct (Z.eq_dec k' 0) as [->|].
  { unfold entry_at. by rewrite !shape_first, !shape_log by done. }
  apply option_eq. intros x. rewrite (entry_body _ _ _ Hh), (entry_body _ _ _ Hh') by lia.
  apply (take_le (S (Z.to_nat (k' - 1)))) in Hb; [| lia]. by rewrite (take_lookup _ _ _ Hb).
Qed.

(** C6: no node panics.  In a cluster of at least two nodes none of which has
    compacted its log, no message that was ever sent, no tick, proposal, read
    or snapshot request and no save, failing or not, makes a node panic, and
    every node's commit index lies within its log. *)
Theorem cluster_never_panics w0 w i o env :
  initial ids election heartbeat path w0 -> later w0 w -> i ∈ ids ->
  admissible (sent w) (node w i) o -> tmp_left env = [] ->
  no_panic (exec (node w i) o) /\ no_panic (snd (Persist env (nodes w i))) /\
  commitIndex (node w i) <= lastLogIndex (node w i).
Proof.
  intros H0 Hl Hi Hadm Henv. destruct (tracked_run w0 w w H0 Hl ltac:(done)) as (v & _ & Ht & _).
  destruct (tracked_node w v i Ht Hi) as [Hinv [D Hn]]. pose proof (n_head _ _ _ _ _ Hn) as Hh.
  assert (commitIndex (node w i) <= lastLogIndex (node w i)) as Hcl.
  { rewrite shape_last by done. apply (decided_len ids v _ (currentTerm (node w i))), Hn. }
  assert (forall m, sent w m -> good m /\ Message.From m <> 0) as Hgood.
  { intros m Hm. destruct (ci_net _ _ _ _ (t_cluster _ _ Ht) m Hm) as (? & Hf & _). split; [done |].
    by apply (ids_nonzero ids ids_wf). }
  destruct (admissible_ok (sent w) Hgood _ _ Hadm) as (Hok & _ & _).
  split_and!; [apply op_no_panic; try done | | done].
  - intros m -> Hty. rewrite shape_first by done. simpl in Hok. unfold wire_ok in Hok. rewrite Hty in Hok. apply Hok.
  - destruct (t_nodes _ _ Ht) as [D' HD]. destruct (HD i Hi) as (_ & d & t & Hni & _).
    destruct (Persist env (nodes w i)) as [n' out] eqn:Hp.
    pose proof (Persist_spec _ _ _ _ _ _ _ Hni Henv Hp) as Hspec. by destruct out as [[[? ?] ?]| |].
Qed.
End Safety.

(** ** A concrete run *)

Section Schedule.
Context (ids : list Z) (election heartbeat : Z) (path : Z -> string).

(** [run], checking on the way that no node compacts its log. *)
Fixpoint plain_run (w : world) (acts : list action) : option world :=
  match acts with
  | [] => Some w
  | a :: acts =>
      match act ids election heartbeat path w a with
      | Some w => if forallb (fun i => firstLogIndex (n_r (nodes w i)) =? 0) ids then plain_run w acts else None
      | None => None
      end
  end.

Lemma plain_run_later acts : forall w w', plain_run w acts = Some w' -> later ids election heartbeat path w w'.
Proof.
  induction acts as [|a acts IH]; intros w w'; cbn [plain_run]; [by intros [= <-] |].
  destruct (act ids election heartbeat path w a) as [w1|] eqn:Ha; [| done]. destruct (forallb _ ids) eqn:Hf; [| done]. intros Hr.
  eapply rtc_l; [| by apply IH]. split; [by apply (act_step _ _ _ _ w a) |].
  intros i Hi. rewrite forallb_forall in Hf. by apply Z.eqb_eq, Hf, list_elem_of_In.
Qed.
End Schedule.

(** Node 1, elected in term 1, commits an entry with node 2. *)
Definition first_commits : list action :=
  sample_acts ++ [APropose 1 [x61]; APersist 1; ADeliver 2 8; APersist 2; ADeliver 1 10; APersist 1].
(** Node 2 crashes, restarts and is elected in term 2 by node 3, which has none
    of it, brings node 3 up to date and commits a second entry. *)
Definition leader_changes : list action :=
  ACrash 2 :: repeat (ATick 2) 10 ++
  [APersist 2; ADeliver 3 12; APersist 3; ADeliver 2 13; APersist 2; ADeliver 3 15; APersist 3; ADeliver 2 16; APersist 2;
   APropose 2 [x62]; APersist 2; ADeliver 3 20; APersist 3; ADeliver 2 21; APersist 2; ADeliver 3 22; APersist 3; ADeliver 2 23].

Definition facts (w : world) (i : Z) :=
  (log (n_r (nodes w i)), commitIndex (n_r (nodes w i)), currentTerm (n_r (nodes w i)), role (n_r (nodes w i))).

Definition entry_one : LogEntry.t := LogEntry.mk 1 1 [x61].
Definition entry_two : LogEntry.t := LogEntry.mk 2 2 [x62].

Lemma sample_view :
  (fun w => (facts w 1, (fun w' => (facts w' 2, facts w' 3)) <$> plain_run sample_ids 10 1 sample_path w leader_changes))
    <$> plain_run sample_ids 10 1 sample_path sample_world first_commits =
  Some (([LogEntry.mk 0 0 []; entry_one], 1, 1, Leader),
        Some (([LogEntry.mk 0 0 []; entry_one; entry_two], 2, 2, Leader),
              ([LogEntry.mk 0 0 []; entry_one; entry_two], 0, 2, Follower))).
Proof. vm_compute. reflexivity. Qed.

(** Both moments of the run, with what nodes 1, 2 and 3 hold. *)
Lemma sample_moments :
  exists w w', later sample_ids 10 1 sample_path sample_world w /\ later sample_ids 10 1 sample_path w w' /\
    facts w 1 = ([LogEntry.mk 0 0 []; entry_one], 1, 1, Leader) /\
    facts w' 2 = ([LogEntry.mk 0 0 []; entry_one; entry_two], 2, 2, Leader) /\
    facts w' 3 = ([LogEntry.mk 0 0 []; entry_one; entry_two], 0, 2, Follower).
Proof.
  destruct (fmap_Some_1 _ _ _ sample_view) as (w & E1 & H1). apply pair_eq in H1 as [H1 H2].
  destruct (fmap_Some_1 _ _ _ (eq_sym H2)) as (w' & E2 & H3). apply pair_eq in H3 as [H3 H4].
  exists w, w'. split; [exact (plain_run_later _ _ _ _ _ _ _ E1) |].
  split; [exact (plain_run_later _ _ _ _ _ _ _ E2) |]. split; [exact (eq_sym H1) |].
  split; [exact (eq_sym H3) | exact (eq_sym H4)].
Qed.

Lemma facts_committed w i l c t ro e :
  facts w i = (l, c, t, ro) -> head l = Some (LogEntry.mk 0 0 []) -> 0 < LogEntry.Index e <= c ->
  l !! Z.to_nat (LogEntry.Index e) = Some e -> committed w i e.
Proof.
  unfold facts. intros [= Hl Hc _ _] Hh He Hlk. unfold committed, entry_at, firstLogIndex. rewrite Hl, Hc.
  destruct l as [|x l]; [done |]. injection Hh as ->. change (LogEntry.Index (LogEntry.mk 0 0 [])) with 0.
  rewrite (proj2 (Z.ltb_ge _ 0)), Z.sub_0_r by lia. done.
Qed.

Lemma sample_two : 2 <= len sample_ids.
Proof. done. Qed.
Lemma sample_member i : i = 1 \/ i = 2 \/ i = 3 -> i ∈ sample_ids.
Proof. intros H. apply list_elem_of_In. simpl. intuition congruence. Qed.

(** Node 1's committed entry is the one the next leader commits at its index. *)
Lemma state_machine_safety_witness :
  exists w w', committed w 1 entry_one /\ committed w' 2 entry_one /\
    forall e', committed w' 2 e' -> 1 = LogEntry.Index e' -> entry_one = e'.
Proof.
  destruct sample_moments as (w & w' & Hl & Hl' & H1 & H2 & _). exists w, w'.
  assert (committed w 1 entry_one) as Hc1 by (by eapply facts_committed; [exact H1 | ..]).
  split; [exact Hc1 |]. split; [by eapply facts_committed; [exact H2 | ..] |]. intros e' He' Hi.
  exact (state_machine_safety sample_ids 10 1 sample_path sample_ids_nodup sample_ids_wf sample_two
    sample_world w w' 1 2 entry_one e' sample_initial Hl Hl' (sample_member 1 ltac:(auto)) (sample_member 2 ltac:(auto)) Hc1 He' Hi).
Defined.

Lemma leader_completeness_witness :
  exists w w', committed w 1 entry_one /\ role (n_r (nodes w' 2)) = Leader /\
    entry_at (n_r (nodes w' 2)) 1 = Some entry_one.
Proof.
  destruct sample_moments as (w & w' & Hl & Hl' & H1 & H2 & _). exists w, w'.
  assert (committed w 1 entry_one) as Hc1 by (by eapply facts_committed; [exact H1 | ..]).
  injection H1 as _ _ Ht1 _. injection H2 as _ _ Ht2 Hr2.
  split; [exact Hc1 |]. split; [exact Hr2 |].
  apply (leader_completeness sample_ids 10 1 sample_path sample_ids_nodup sample_ids_wf sample_two
    sample_world w w' 1 2 entry_one sample_initial Hl Hl' (sample_member 1 ltac:(auto)) (sample_member 2 ltac:(auto)) Hc1 Hr2).
  rewrite Ht1, Ht2. lia.
Defined.

(** Node 3, brought up to date by the second leader, against node 2. *)
Lemma log_matching_witness :
  exists w, entry_at (n_r (nodes w 2)) 2 = Some entry_two /\
    forall k, 0 <= k <= 2 -> entry_at (n_r (nodes w 2)) k = entry_at (n_r (nodes w 3)) k.
Proof.
  destruct sample_moments as (w & w' & Hl & Hl' & _ & H2 & H3). exists w'.
  injection H2 as Hlog2 _ _ _. injection H3 as Hlog3 _ _ _.
  assert (entry_at (n_r (nodes w' 2)) 2 = Some entry_two) as He2 by (unfold entry_at, firstLogIndex; by rewrite Hlog2).
  assert (entry_at (n_r (nodes w' 3)) 2 = Some entry_two) as He3 by (unfold entry_at, firstLogIndex; by rewrite Hlog3).
  split; [exact He2 |].
  apply (log_matching sample_ids 10 1 sample_path sample_ids_nodup sample_ids_wf sample_two
    sample_world w' w' 2 3 2 entry_two entry_two sample_initial
    (transitivity Hl Hl') (rtc_refl _ _) (sample_member 2 ltac:(auto)) (sample_member 3 ltac:(auto)) ltac:(lia) He2 He3 eq_refl).
Defined.

Lemma cluster_never_panics_witness :
  exists w, lastLogIndex (n_r (nodes w 2)) = 2 /\ no_panic (exec (n_r (nodes w 2)) OTick) /\
    no_panic (snd (Persist sample_env (nodes w 2))) /\ commitIndex (n_r (nodes w 2)) <= lastLogIndex (n_r (nodes w 2)).
Proof.
  destruct sample_moments as (w & w' & Hl & Hl' & _ & H2 & _). exists w'. injection H2 as Hlog2 _ _ _.
  split; [unfold lastLogIndex; by rewrite Hlog2 |].
  apply (cluster_never_panics sample_ids 10 1 sample_path sample_ids_nodup sample_ids_wf sample_two
    sample_world w' 2 OTick sample_env sample_initial (transitivity Hl Hl') (sample_member 2 ltac:(auto)) I eq_refl).
Defined.
