(* ===== verification/RaftAgree.v ===== *)
(** * Raft: one log for a run

    The committed entries of the nodes of [RaftSafety], at all moments of a run
    without compaction, are prefixes of one log, and no append that is on its
    way touches a committed entry: what the application behind the nodes
    relies on. *)

From stdpp Require Import functions.
From S2P Require Import Prelude GoBytes Wal RaftTypes Raft RaftLog RaftInv RaftVote RaftStorage RaftStable RaftSend RaftNode RaftApp RaftCluster RaftView RaftMoves RaftSafety.

(** A log whose entries carry their positions, counted from 1. *)
Definition numbered (L : list LogEntry.t) : Prop := forall k e, L !! k = Some e -> LogEntry.Index e = Z.of_nat k + 1.

(** What a node holds as committed. *)
Definition committed_log (r : Raft) : list LogEntry.t := take (Z.to_nat (commitIndex r)) (body r).

Section Agree.
Context (ids : list Z) (election heartbeat : Z) (path : Z -> string).
Context (ids_nodup : NoDup ids) (ids_wf : Forall (fun i => is_u64 i /\ i <> 0) ids).
Context (two : 2 <= len ids).

Abbreviation cfg := (config ids election heartbeat).
Abbreviation tracked := (tracked ids election heartbeat).
Abbreviation node w i := (n_r (nodes w i)).

(** ** Settled prefixes *)

(** A stretch of entries from the beginning that is decided. *)
Definition settled (v : view) (c : list LogEntry.t) : Prop := numbered c /\ exists u, decided ids v (len c) u c.

Lemma settled_nil v : settled v [].
Proof. split; [done |]. by exists 0. Qed.

Lemma settled_grows v v' c : grows ids v v' -> settled v c -> settled v' c.
Proof. intros Hg [Hn (u & Hd)]. split; [done |]. exists u. by apply (decided_grows ids v). Qed.

(** Of two settled stretches one continues the other. *)
Lemma settled_compare v c c' : view_ok ids v -> settled v c -> settled v c' -> (length c <= length c')%nat -> c `prefix_of` c'.
Proof.
  intros Hv [_ (u & Hd)] [_ (u' & Hd')] Hlen. destruct (decide (length c = 0)%nat) as [E|E].
  { apply length_zero_iff_nil in E as ->. apply prefix_nil. }
  destruct (Hd ltac:(unfold len; lia)) as (t & k & Hc & Hva & _ & Hk & Hl).
  destruct (Hd' ltac:(unfold len; lia)) as (t' & k' & Hc' & Hva' & _ & Hk' & Hl').
  rewrite len_to_nat, firstn_all in Hl, Hl'. unfold len in Hk, Hk'.
  exists (drop (length c) c'). rewrite <- (take_drop (length c) c') at 1. f_equal.
  apply list_eq. intros n. destruct (decide (n < length c)%nat) as [Hn|Hn].
  - rewrite lookup_take_lt by lia. rewrite Hl at 1. rewrite Hl'. rewrite !lookup_take_lt by lia.
    symmetry. apply (decided_agree ids v t k t' k'); [done | | | lia | lia]; split; by try apply com_choosable.
  - rewrite lookup_take_ge by lia. symmetry. apply lookup_ge_None. lia.
Qed.

(** All of them lie in one log. *)
Lemma settled_cover v C : view_ok ids v -> Forall (settled v) C -> exists L, numbered L /\ Forall (fun c => c `prefix_of` L) C.
Proof.
  intros Hv HC. assert (exists L, settled v L /\ Forall (fun c => c `prefix_of` L) C) as (L & [HL _] & ?); [| by exists L].
  induction HC as [|c C Hc _ (L & HL & HC)].
  { exists []. split; [apply settled_nil | done]. }
  destruct (Nat.le_ge_cases (length c) (length L)) as [Hle|Hle].
  - exists L. split; [done |]. constructor; [by apply (settled_compare v) | done].
  - exists c. split; [done |]. constructor; [done |]. eapply Forall_impl; [exact HC |]. intros x Hx.
    etrans; [exact Hx |]. by apply (settled_compare v).
Qed.

(** ** The nodes *)

Lemma tracked_uncompacted w v : tracked w v -> uncompacted ids w.
Proof. intros Ht i Hi. destruct (tracked_node _ _ _ w v i Ht Hi) as [_ [D Hn]]. apply shape_first, Hn. Qed.

Lemma tracked_commit w v i : tracked w v -> i ∈ ids -> 0 <= commitIndex (node w i) <= len (body (node w i)).
Proof.
  intros Ht Hi. destruct (tracked_node _ _ _ w v i Ht Hi) as [Hinv [D Hn]]. pose proof (inv_commit _ Hinv) as Hc.
  rewrite (shape_first _ (n_head _ _ _ _ _ Hn)) in Hc. split; [lia |].
  apply (decided_len ids v _ (currentTerm (node w i))), Hn.
Qed.

Lemma committed_settled w v i : tracked w v -> i ∈ ids -> settled v (committed_log (node w i)).
Proof.
  intros Ht Hi. pose proof (tracked_commit w v i Ht Hi) as Hc.
  destruct (tracked_node _ _ _ w v i Ht Hi) as [Hinv [D Hn]]. pose proof (n_head _ _ _ _ _ Hn) as Hh.
  unfold committed_log. split.
  - intros k e Hk. apply lookup_take_Some in Hk as [Hk _]. pose proof (inv_contig _ Hinv) as Hco.
    rewrite (shape_first _ Hh), (shape_log _ Hh) in Hco. destruct Hco as [_ Hco].
    rewrite (contig_lookup _ _ _ _ Hco Hk). lia.
  - exists (currentTerm (node w i)). set (c := commitIndex (node w i)) in *.
    assert (len (take (Z.to_nat c) (body (node w i))) = c) as ->.
    { unfold len in *. rewrite length_take. lia. }
    intros Hpos. destruct (n_commit _ _ _ _ _ Hn Hpos) as (t & k & ? & ? & ? & ? & Htk). exists t, k.
    split_and!; try done. rewrite take_take, Nat.min_id. exact Htk.
Qed.

(** An append on its way has the entries of every node it is accepted by, as
    far as they are committed. *)
Lemma tracked_keeps w v i m : tracked w v -> i ∈ ids -> sent w m -> keeps_committed (node w i) m.
Proof.
  intros Ht Hi Hm Hty Hterm. pose proof (tracked_commit w v i Ht Hi) as Hc.
  destruct (tracked_node _ _ _ w v i Ht Hi) as [Hinv [D Hn]]. pose proof (n_head _ _ _ _ _ Hn) as Hh.
  pose proof (t_view _ _ _ _ _ Ht) as Hv. rewrite <- (t_net _ _ _ _ _ Ht) in Hm.
  destruct (g_net _ _ Hv m Hm) as [(_ & _ & Hf) _]. rewrite Hty in Hf.
  destruct Hf as (l & Hl & Hp & _ & _ & Hes & _ & _).
  rewrite (t_net _ _ _ _ _ Ht) in Hm. destruct (ci_net _ _ _ _ (t_cluster _ _ _ _ _ Ht) m Hm) as ([Hw _] & _).
  unfold wire_ok in Hw. rewrite Hty in Hw. destruct Hw as (_ & Hco & _).
  assert (LL v (Message.Term m) = l) as HLL by (unfold LL; by rewrite Hl).
  pose proof (decided_log ids v _ _ _ _ Hv (n_commit _ _ _ _ _ Hn) Hterm ltac:(by rewrite Hl)) as Htk. rewrite HLL in Htk.
  apply Forall_lookup. intros j e He Hle. pose proof (contig_lookup _ _ _ _ Hco He) as Hix.
  apply termAt_entry; [done |]. apply entry_body; [done | lia |].
  assert (l !! (Z.to_nat (Message.PrevLogIndex m) + j)%nat = Some e) as Hle'.
  { rewrite Hes in He. apply lookup_take_Some in He as [He _]. by rewrite lookup_drop in He. }
  replace (Z.to_nat (LogEntry.Index e - 1)) with (Z.to_nat (Message.PrevLogIndex m) + j)%nat by lia.
  rewrite <- Hle'. apply take_lookup. apply (take_le _ (Z.to_nat (commitIndex (node w i)))); [lia | done].
Qed.

(** A message on its way is no snapshot, and not for its sender. *)
Lemma tracked_message w v m : tracked w v -> sent w m -> good m /\ Message.From m <> 0 /\ Message.From m <> Message.To m.
Proof.
  intros Ht Hm. destruct (ci_net _ _ _ _ (t_cluster _ _ _ _ _ Ht) m Hm) as (Hgood & Hf & _).
  rewrite <- (t_net _ _ _ _ _ Ht) in Hm. destruct (g_net _ _ (t_view _ _ _ _ _ Ht) m Hm) as [(? & _) _].
  split_and!; [done | by apply (ids_nonzero ids ids_wf) | done].
Qed.

(** ** Steps *)

Lemma tracked_nstep w v i n' ms :
  tracked w v -> i ∈ ids -> nstep (cfg i) (path i) (sent w) (nodes w i) n' ms -> firstLogIndex (n_r n') = 0 ->
  exists v', grows ids v v' /\ tracked (advance w i n' ms) v'.
Proof.
  intros Ht Hi Hs Hf. apply (tracked_step ids election heartbeat path ids_nodup ids_wf two w v); [done |].
  split; [by apply c_step |]. intros j Hj. unfold advance. simpl. destruct (decide (j = i)) as [->|Hne].
  - by rewrite fn_lookup_insert.
  - rewrite fn_lookup_insert_ne by done. by apply (tracked_uncompacted w v).
Qed.
End Agree.
