(* ===== verification/RaftLoss.v ===== *)
(** * Raft: a snapshot that loses a committed entry

    A schedule of src/raft/raft.go in which two nodes commit different entries
    at the same index.  A rejected append that arrives a second time makes the
    leader believe that a follower is far behind; it sends its snapshot, and
    handleInstallSnapshot replaces the follower's whole log, entries it has
    acknowledged and that are committed included.  And why [RaftSafety] asks for
    two nodes: one that is alone commits before it has saved. *)

From stdpp Require Import functions.
From Stdlib Require Import Strings.Byte.
From S2P Require Import Prelude GoBytes Wal RaftTypes Raft RaftLog RaftInv RaftVote RaftStorage RaftStable RaftSend RaftNode RaftCluster RaftSafety.

(** ** Runs in which nothing fails *)

Section calm.
Context (ids : list Z) (election heartbeat : Z) (path : Z -> string).

(** An operation of a node, or a save of which every call succeeds; there is no
    crash.  A message that was sent may be delivered at any time, and again. *)
Inductive calm_step : world -> world -> Prop :=
  | calm_op w i o r' :
      i ∈ ids -> currentTerm (n_r (nodes w i)) < maxTerm -> admissible (sent w) (n_r (nodes w i)) o -> exec (n_r (nodes w i)) o = Ok r' ->
      calm_step w (advance w i {| n_r := r'; n_storage := n_storage (nodes w i) |} [])
  | calm_save w i n' ms rs sn :
      i ∈ ids -> Persist sample_env (nodes w i) = (n', Ok (ms, rs, sn)) -> calm_step w (advance w i n' ms).

(** From new nodes whose disks work. *)
Inductive calm : world -> Prop :=
  | calm_start w :
      net w = [] -> elected w = [] ->
      (forall i, i ∈ ids -> exists draws snap, OpenNode (config ids election heartbeat i) (path i) None true [] draws = Ok (nodes w i, snap)) ->
      calm w
  | calm_next w w' : calm w -> calm_step w w' -> calm w'.

Lemma calm_reachable w : calm w -> reachable ids election heartbeat path w.
Proof.
  induction 1 as [w Hn He Hall | w w' _ IH Hs].
  - apply reach_init. split_and!; [done | done |]. intros i Hi. destruct (Hall i Hi) as (draws & snap & H). by exists [], draws, snap.
  - eapply reach_step; [exact IH |]. destruct Hs as [w i o r' Hi Ht Ha He | w i n' ms rs sn Hi Hp].
    + apply c_step; [done |]. by eapply ns_op.
    + apply c_step; [done |]. by eapply (ns_persist _ _ _ _ sample_env); [| exact Hp].
Qed.

Definition no_crash (a : action) : bool := match a with ACrash _ => false | _ => true end.

Lemma act_calm w a w' : no_crash a = true -> act ids election heartbeat path w a = Some w' -> calm_step w w'.
Proof.
  assert (forall i o, admissible (sent w) (n_r (nodes w i)) o -> run_op ids w i o = Some w' -> calm_step w w') as Hop.
  { intros i o Ha. unfold run_op. destruct (decide (i ∈ ids)); [| done].
    destruct (Z.ltb_spec (currentTerm (n_r (nodes w i))) maxTerm); [| done].
    destruct (exec (n_r (nodes w i)) o) as [r'| |] eqn:E; [| done..]. intros [= <-]. by eapply calm_op. }
  destruct a as [i | i k | i data | i index data | i | i]; simpl; intros Hc; [.. | done].
  - by apply Hop.
  - destruct (net w !! k) as [m|] eqn:Hm; [| done]. apply Hop. by eapply list_elem_of_lookup_2.
  - destruct (_ && _) eqn:Hb; [| done]. apply andb_true_iff in Hb as [Hl%Z.ltb_lt Hd%Z.ltb_lt].
    apply Hop. split; [by rewrite len_cons | by repeat constructor].
  - destruct (Z.ltb_spec (len data) Codec.dataMax); [| done]. by apply Hop.
  - destruct (decide (i ∈ ids)); [| done].
    destruct (Persist sample_env (nodes w i)) as [n' [[[ms rs] sn]| |]] eqn:Hp; [| done..]. intros [= <-]. by eapply calm_save.
Qed.

Lemma run_calm acts : forall w w', forallb no_crash acts = true -> calm w -> run ids election heartbeat path w acts = Some w' -> calm w'.
Proof.
  induction acts as [|a acts IH]; intros w w' Hc Hr; cbn [run]; [by intros [= <-] |]. apply andb_true_iff in Hc as [Ha Hc].
  destruct (act _ _ _ _ w a) as [w1|] eqn:E; [| done]. apply IH; [done |]. eapply calm_next; [exact Hr | by apply (act_calm w a)].
Qed.
End calm.

Lemma sample_calm : calm sample_ids 10 1 sample_path sample_world.
Proof.
  apply calm_start; [done | done |]. intros i Hi. exists [].
  apply elem_of_cons in Hi as [-> | Hi]; [eexists; vm_compute; reflexivity |].
  apply elem_of_cons in Hi as [-> | Hi]; [eexists; vm_compute; reflexivity |].
  apply list_elem_of_singleton in Hi as ->. eexists; vm_compute; reflexivity.
Qed.

(** ** Two entries at one index *)

(** Node 1 leads term 1 and proposes two entries; the second append overtakes
    the first at node 3, which rejects it (message 12) and then accepts both, so
    that they are committed.  Node 1 compacts its log up to the first entry. *)
Definition commits_two : list action :=
  sample_acts ++
  [APropose 1 [x61]; APersist 1; APropose 1 [x62]; APersist 1; ADeliver 3 11; APersist 3; ADeliver 3 9; ADeliver 3 11; APersist 3;
   ADeliver 1 13; ADeliver 1 14; APersist 1; ASnapshot 1 1 [x63]; APersist 1].
(** The rejection arrives twice; node 1 sends its snapshot (message 16), and
    node 3 replaces its log by it. *)
Definition loses_one : list action :=
  [ADeliver 1 12; ADeliver 1 12; APersist 1; ADeliver 3 16; APersist 3].
(** Node 3 is elected in term 2 by node 2, brings it up to date and commits
    another entry. *)
Definition commits_other : list action :=
  repeat (ATick 3) 10 ++
  [APersist 3; ADeliver 2 19; APersist 2; ADeliver 3 20; APersist 3; ADeliver 2 22; APersist 2; ADeliver 3 23; APropose 3 [x7a]; APersist 3;
   ADeliver 2 25; APersist 2; ADeliver 3 28; APersist 3; ADeliver 2 29; APersist 2; ADeliver 3 30; ADeliver 2 27; APersist 2; ADeliver 3 31].

#[local] Abbreviation loss_run := (run sample_ids 10 1 sample_path sample_world (commits_two ++ loses_one ++ commits_other)).

Lemma loss_view :
  (fun w => (log (n_r (nodes w 1)), commitIndex (n_r (nodes w 1)), log (n_r (nodes w 3)), commitIndex (n_r (nodes w 3)))) <$> loss_run =
  Some ([LogEntry.mk 1 1 []; LogEntry.mk 1 2 [x62]], 2, [LogEntry.mk 1 1 []; LogEntry.mk 2 2 [x7a]], 2).
Proof. vm_compute. reflexivity. Qed.

Lemma loss_committed : exists w, loss_run = Some w /\
  committed w 1 (LogEntry.mk 1 2 [x62]) /\ committed w 3 (LogEntry.mk 2 2 [x7a]).
Proof.
  pose proof loss_view as H. destruct loss_run as [w|]; [| done]. exists w. split; [done |].
  cbn [fmap option_fmap option_map] in H. injection H as H1 H2 H3 H4.
  unfold committed, entry_at, firstLogIndex. rewrite H1, H2, H3, H4. simpl. split_and!; done || lia.
Qed.

(** C7: State machine safety fails once snapshots are sent.  A cluster of three
    nodes reaches, in a run in which every call on a disk succeeds and no node
    crashes, a state in which node 1 has committed one entry at index 2 and node
    3 another one: servers behind them apply different commands. *)
Theorem snapshots_lose_committed :
  exists w e1 e3, calm sample_ids 10 1 sample_path w /\
    committed w 1 e1 /\ committed w 3 e3 /\ LogEntry.Index e1 = LogEntry.Index e3 /\ LogEntry.Data e1 <> LogEntry.Data e3.
Proof.
  destruct loss_committed as (w & Hrun & H1 & H3). exists w, (LogEntry.mk 1 2 [x62]), (LogEntry.mk 2 2 [x7a]).
  split_and!; [| done | done | done | done]. eapply run_calm; [| exact sample_calm | exact Hrun]. vm_compute. reflexivity.
Qed.

(** ** A node on its own *)

Definition alone_world : world :=
  {| nodes := fun i => match OpenNode (config [1] 10 1 i) (sample_path i) None true [] [] with
                       | Ok (n, _) => n
                       | _ => sample_start
                       end;
     net := []; elected := [] |}.

(** The node elects itself and proposes an entry; it crashes before the save, is
    elected again and proposes another one. *)
Definition alone_commits (data : bytes) : list action := repeat (ATick 1) 10 ++ [APropose 1 data].
Definition alone_again : list action := ACrash 1 :: alone_commits [x7a].

Lemma alone_view :
  (fun w => (facts w 1, (fun w' => facts w' 1) <$> plain_run [1] 10 1 sample_path w alone_again))
    <$> plain_run [1] 10 1 sample_path alone_world (alone_commits [x61]) =
  Some (([LogEntry.mk 0 0 []; LogEntry.mk 1 1 [x61]], 1, 1, Leader),
        Some ([LogEntry.mk 0 0 []; LogEntry.mk 1 1 [x7a]], 1, 1, Leader)).
Proof. vm_compute. reflexivity. Qed.

Lemma alone_initial : initial [1] 10 1 sample_path alone_world.
Proof.
  split_and!; [done | done |]. intros i Hi. exists [], [].
  apply list_elem_of_singleton in Hi as ->. eexists; vm_compute; reflexivity.
Qed.

(** State machine safety needs a second node: ProposeBatch of a node without
    peers commits at once, before Persist has saved the entry, so that a crash
    takes the committed entry away and another one is committed at its index.
    (The server reads what is committed only after the save.) *)
Theorem alone_forgets :
  exists w w' e e', later [1] 10 1 sample_path alone_world w /\ later [1] 10 1 sample_path w w' /\
    committed w 1 e /\ committed w' 1 e' /\ LogEntry.Index e = LogEntry.Index e' /\ e <> e'.
Proof.
  destruct (fmap_Some_1 _ _ _ alone_view) as (w & E1 & H1). apply pair_eq in H1 as [H1 H2].
  destruct (fmap_Some_1 _ _ _ (eq_sym H2)) as (w' & E2 & H3).
  pose proof (facts_committed w 1 _ _ _ _ (LogEntry.mk 1 1 [x61]) (eq_sym H1) eq_refl ltac:(simpl; lia) eq_refl) as Hc.
  pose proof (facts_committed w' 1 _ _ _ _ (LogEntry.mk 1 1 [x7a]) (eq_sym H3) eq_refl ltac:(simpl; lia) eq_refl) as Hc'.
  exists w, w', (LogEntry.mk 1 1 [x61]), (LogEntry.mk 1 1 [x7a]).
  split; [exact (plain_run_later _ _ _ _ _ _ _ E1) |]. split; [exact (plain_run_later _ _ _ _ _ _ _ E2) |].
  split; [exact Hc |]. split; [exact Hc' |]. split; [reflexivity | discriminate].
Qed.
