(* ===== verification/GoState.v ===== *)
(** * Methods: state passing with early returns

    A Go method changes its receiver and the files behind it and may return
    an error at any point, leaving the changes made so far in place.  [st S A]
    is such a method over the state [S]; [triple] is its specification. *)

From S2P Require Import Prelude.

Definition st (S A : Type) : Type := S -> S * res A.

Section state.
Context {S : Type}.

Definition ret {A} (a : A) : st S A := fun s => (s, Ok a).
Definition fail {A} (e : error) : st S A := fun s => (s, Err e).
Definition lift {A} (r : res A) : st S A := fun s => (s, r).
Definition reads {A} (f : S -> A) : st S A := fun s => (s, Ok (f s)).
Definition modify (f : S -> S) : st S unit := fun s => (f s, Ok tt).

Definition st_bind {A B} (m : st S A) (k : A -> st S B) : st S B := fun s =>
  match m s with
  | (s, Ok a) => k a s
  | (s, Err e) => (s, Err e)
  | (s, Panic) => (s, Panic)
  end.

(** [if err != nil { return fmt.Errorf(msg + ": %w", err) }] *)
Definition wrap {A} (msg : string) (m : st S A) : st S A := fun s =>
  let '(s, r) := m s in (s, res_wrap msg r).

(** [if err != nil { cleanup(); return err }] *)
Definition on_error {A} (cleanup : S -> S) (m : st S A) : st S A := fun s =>
  match m s with
  | (s, Err e) => (cleanup s, Err e)
  | out => out
  end.
End state.

Notation "'let!' x ':=' c 'in' k" := (st_bind c (fun x => k))
  (at level 10, x name, c at level 200, k at level 200) : go_scope.
Notation "'let!' ' p ':=' c 'in' k" := (st_bind c (fun x => let 'p := x in k))
  (at level 10, p pattern, c at level 200, k at level 200) : go_scope.

(** ** Specifications *)

(** From a state that satisfies [P] the method does not panic; [Q] holds of
    the state and value of a success, [E] of the state an error leaves. *)
Definition triple {S A} (P : S -> Prop) (m : st S A) (Q : A -> S -> Prop) (E : error -> S -> Prop) : Prop :=
  forall s, P s ->
  match m s with
  | (s', Ok a) => Q a s'
  | (s', Err e) => E e s'
  | (_, Panic) => False
  end.

Lemma triple_ret {S A} (P : S -> Prop) (a : A) (Q : A -> S -> Prop) E :
  (forall s, P s -> Q a s) -> triple P (ret a) Q E.
Proof. intros H s Hs. simpl. by apply H. Qed.

Lemma triple_fail {S A} (P : S -> Prop) e (Q : A -> S -> Prop) (E : error -> S -> Prop) :
  (forall s, P s -> E e s) -> triple P (fail e) Q E.
Proof. intros H s Hs. simpl. by apply H. Qed.

Lemma triple_bind {S A B} (P : S -> Prop) (m : st S A) (k : A -> st S B) (R : A -> S -> Prop) Q E :
  triple P m R E -> (forall a, triple (R a) (k a) Q E) -> triple P (st_bind m k) Q E.
Proof.
  intros Hm Hk s Hs. unfold st_bind. specialize (Hm s Hs). destruct (m s) as [s' [a|e|]]; [| done..].
  by apply Hk.
Qed.

Lemma triple_weaken {S A} (P P' : S -> Prop) (m : st S A) (Q Q' : A -> S -> Prop) (E E' : error -> S -> Prop) :
  triple P' m Q' E' -> (forall s, P s -> P' s) -> (forall a s, Q' a s -> Q a s) -> (forall e s, E' e s -> E e s) ->
  triple P m Q E.
Proof. intros Hm HP HQ HE s Hs. specialize (Hm s (HP s Hs)). destruct (m s) as [s' [a|e|]]; auto. Qed.

Lemma triple_wrap {S A} (P : S -> Prop) msg (m : st S A) Q (E : error -> S -> Prop) :
  triple P m Q (fun e s => E (Wrapf msg e) s) -> triple P (wrap msg m) Q E.
Proof. intros Hm s Hs. specialize (Hm s Hs). unfold wrap. by destruct (m s) as [s' [a|e|]]. Qed.

Lemma triple_on_error {S A} (P : S -> Prop) cleanup (m : st S A) Q (E : error -> S -> Prop) :
  triple P m Q (fun e s => E e (cleanup s)) -> triple P (on_error cleanup m) Q E.
Proof. intros Hm s Hs. specialize (Hm s Hs). unfold on_error. by destruct (m s) as [s' [a|e|]]. Qed.
