(* ===== verification/TransportCodec.v ===== *)
(** * Transport: the message codec and framing

    Models src/transport/codec.go: [encodeMessage], [decodeMessage] and the
    length-prefixed frames of [writeFramed] and [readFramed], and the read
    loop of [handleConn] in src/transport/transport.go. *)

From Stdlib Require Import Strings.Byte.
From S2P Require Import Prelude GoBytes RaftTypes.

(** ** Message encoding *)

Definition fixedFieldsSize : Z := 1 + 8 + 8 + 8 + 8 + 8 + 1 + 8 + 8 + 4 + 8 + 1 + 8 + 8 + 8 + 8 + 4.
Definition entryHeaderSize : Z := 8 + 8 + 4.
Definition errMalformedMessage : error := Errorf "transport: malformed message".

(** The integer behind a [MessageType], and [raft.MessageType(b)]. *)
Definition type_code (t : MessageType) : Z :=
  match t with
  | MsgPreVote => 0
  | MsgPreVoteResponse => 1
  | MsgRequestVote => 2
  | MsgRequestVoteResponse => 3
  | MsgAppendEntries => 4
  | MsgAppendEntriesResponse => 5
  | MsgInstallSnapshot => 6
  | MsgInstallSnapshotResponse => 7
  | MsgUnknown n => n
  end.
Definition code_type (b : byte) : MessageType :=
  let n := byte_val b in
  if n =? 0 then MsgPreVote
  else if n =? 1 then MsgPreVoteResponse
  else if n =? 2 then MsgRequestVote
  else if n =? 3 then MsgRequestVoteResponse
  else if n =? 4 then MsgAppendEntries
  else if n =? 5 then MsgAppendEntriesResponse
  else if n =? 6 then MsgInstallSnapshot
  else if n =? 7 then MsgInstallSnapshotResponse
  else MsgUnknown n.

Definition boolByte (b : bool) : byte := if b then x01 else x00.
Definition byteBool (b : byte) : bool := negb (byte_val b =? 0).

Definition encodeEntry (e : LogEntry.t) : bytes :=
  put_u64 (LogEntry.Term e) ++ put_u64 (LogEntry.Index e) ++
  put_u32 (len (LogEntry.Data e)) ++ LogEntry.Data e.

(** The fields the code writes at increasing offsets of one buffer. *)
Definition encodeMessage (m : Message.t) : bytes :=
  [to_byte (type_code (Message.Type_ m))] ++
  put_u64 (Message.From m) ++ put_u64 (Message.To m) ++ put_u64 (Message.Term m) ++
  put_u64 (Message.LastLogIndex m) ++ put_u64 (Message.LastLogTerm m) ++
  [boolByte (Message.VoteGranted m)] ++
  put_u64 (Message.PrevLogIndex m) ++ put_u64 (Message.PrevLogTerm m) ++
  put_u32 (len (Message.Entries m)) ++ concat (map encodeEntry (Message.Entries m)) ++
  put_u64 (Message.LeaderCommit m) ++ [boolByte (Message.Success m)] ++
  put_u64 (Message.MatchIndex m) ++ put_u64 (Message.ReadContext m) ++
  put_u64 (Snapshot.LastIncludedIndex (Message.Snapshot m)) ++
  put_u64 (Snapshot.LastIncludedTerm (Message.Snapshot m)) ++
  put_u32 (len (Snapshot.Data (Message.Snapshot m))) ++ Snapshot.Data (Message.Snapshot m).

(** [if n > 0 { append(nil, data[off:off+n]...) }]: an empty field stays nil. *)
Definition copy_field (data : bytes) (off n : Z) : res bytes :=
  if 0 <? n then slice data off (off + n) else Ok [].

(** One round of the entry loop. *)
Definition decodeEntry (data : bytes) (off : Z) : res (LogEntry.t * Z) :=
  if len data - off <? entryHeaderSize then Err errMalformedMessage else
  let* term := get_u64 data off in
  let* idx := get_u64 data (off + 8) in
  let* dlen := get_u32 data (off + 16) in
  if u32 (len data - (off + 20)) <? dlen then Err errMalformedMessage else
  let* d := copy_field data (off + 20) dlen in
  Ok (LogEntry.mk term idx d, off + 20 + dlen).

Fixpoint decodeEntries (n : nat) (data : bytes) (off : Z) : res (list LogEntry.t * Z) :=
  match n with
  | O => Ok ([], off)
  | S n =>
      let* '(e, off) := decodeEntry data off in
      let* '(es, off) := decodeEntries n data off in
      Ok (e :: es, off)
  end.

(** The fields behind the entries. *)
Definition decodeTail (data : bytes) (off : Z)
    : res (Z * bool * Z * Z * Snapshot.t) :=
  if len data - off <? 8 + 1 + 8 + 8 then Err errMalformedMessage else
  let* leaderCommit := get_u64 data off in
  let* success := index data (off + 8) in
  let* matchIndex := get_u64 data (off + 9) in
  let* readContext := get_u64 data (off + 17) in
  let off := off + 25 in
  if len data - off <? 8 + 8 + 4 then Err errMalformedMessage else
  let* idx := get_u64 data off in
  let* term := get_u64 data (off + 8) in
  let* n := get_u32 data (off + 16) in
  let off := off + 20 in
  if u32 (len data - off) <? n then Err errMalformedMessage else
  let* d := copy_field data off n in
  Ok (leaderCommit, byteBool success, matchIndex, readContext, Snapshot.mk idx term d).

Definition decodeMessage (data : bytes) : res Message.t :=
  if len data <? fixedFieldsSize then Err errMalformedMessage else
  let* ty := index data 0 in
  let* from := get_u64 data 1 in
  let* to := get_u64 data 9 in
  let* term := get_u64 data 17 in
  let* lastLogIndex := get_u64 data 25 in
  let* lastLogTerm := get_u64 data 33 in
  let* granted := index data 41 in
  let* prevLogIndex := get_u64 data 42 in
  let* prevLogTerm := get_u64 data 50 in
  let* count := get_u32 data 58 in
  let off := 62 in
  if u32 (len data - off) / entryHeaderSize <? count then Err errMalformedMessage else
  let* '(es, off) := decodeEntries (Z.to_nat count) data off in
  let* '(leaderCommit, success, matchIndex, readContext, snap) := decodeTail data off in
  Ok (Message.mk (code_type ty) from to term lastLogIndex lastLogTerm (byteBool granted)
        prevLogIndex prevLogTerm es leaderCommit success matchIndex readContext snap).

(** ** Framing *)

Definition maxMessageSize : Z := 64 * 1024 * 1024.

(** A connection being written: what went out, and the outcomes of the writes
    to come ([Some k]: fails after [k] bytes). *)
Record writer := { out : bytes; writes : list (option nat) }.

Definition wWrite (w : writer) (p : bytes) : writer * bool :=
  match writes w with
  | Some k :: s => ({| out := out w ++ take k p; writes := s |}, false)
  | s => ({| out := out w ++ p; writes := tail s |}, true)
  end.

Definition writeFramed (w : writer) (payload : bytes) : writer * option error :=
  let '(w, ok) := wWrite w (put_u32 (len payload)) in
  if negb ok then (w, Some (Wrapf "transport: writing frame length" (Errorf "write"))) else
  let '(w, ok) := wWrite w payload in
  if negb ok then (w, Some (Wrapf "transport: writing frame payload" (Errorf "write")))
  else (w, None).

(** [io.ReadFull] on a stream that ends after the given bytes. *)
Definition streamFull (s : bytes) (n : Z) : res (bytes * bytes) :=
  if n <=? len s then Ok (take (Z.to_nat n) s, drop (Z.to_nat n) s)
  else Err (Errorf (if len s =? 0 then "EOF" else "unexpected EOF")).

(** One frame and the rest of the stream. *)
Definition readFramed (s : bytes) : res (bytes * bytes) :=
  let* '(lenBuf, s) := streamFull s 4 in
  let* length := get_u32 lenBuf 0 in
  if maxMessageSize <? length then Err (Errorf "transport: frame length exceeds max")
  else res_wrap "transport: reading frame payload" (streamFull s length).

(** The [for] loop of [handleConn]: the messages delivered until the
    connection ends or fails. Every round consumes at least four bytes. *)
Fixpoint handleConn (fuel : nat) (s : bytes) : list Message.t :=
  match fuel with
  | O => []
  | S fuel =>
      match readFramed s with
      | Ok (payload, s) =>
          match decodeMessage payload with
          | Ok m => m :: handleConn fuel s
          | _ => []
          end
      | _ => []
      end
  end.

Definition received (s : bytes) : list Message.t := handleConn (S (length s)) s.

(** ** The codec round trip *)

(** What fits the wire format. *)
Record wire_wf (m : Message.t) : Prop := {
  ww_type : match Message.Type_ m with MsgUnknown n => 8 <= n < 256 | _ => True end;
  ww_ids : is_u64 (Message.From m) /\ is_u64 (Message.To m) /\ is_u64 (Message.Term m);
  ww_last : is_u64 (Message.LastLogIndex m) /\ is_u64 (Message.LastLogTerm m);
  ww_prev : is_u64 (Message.PrevLogIndex m) /\ is_u64 (Message.PrevLogTerm m);
  ww_entries : Forall (fun e => is_u64 (LogEntry.Term e) /\ is_u64 (LogEntry.Index e))
                 (Message.Entries m);
  ww_reply : is_u64 (Message.LeaderCommit m) /\ is_u64 (Message.MatchIndex m) /\
             is_u64 (Message.ReadContext m);
  ww_snap : is_u64 (Snapshot.LastIncludedIndex (Message.Snapshot m)) /\
            is_u64 (Snapshot.LastIncludedTerm (Message.Snapshot m));
  ww_size : len (encodeMessage m) < 2 ^ 32
}.

Lemma code_type_code t :
  match t with MsgUnknown n => 8 <= n < 256 | _ => True end ->
  code_type (to_byte (type_code t)) = t.
Proof.
  intros Ht. unfold code_type. rewrite byte_val_to_byte.
  destruct t; try reflexivity. simpl type_code. rewrite Z.mod_small by lia.
  repeat (rewrite (proj2 (Z.eqb_neq n _)) by lia). done.
Qed.

Lemma byteBool_boolByte b : byteBool (boolByte b) = b.
Proof. by destruct b. Qed.

Lemma len_encodeEntry e : len (encodeEntry e) = 20 + len (LogEntry.Data e).
Proof. unfold encodeEntry. len_lia. Qed.

Lemma copy_field_hit pre d suf n :
  n = len d -> copy_field (pre ++ d ++ suf) (len pre) n = Ok d.
Proof.
  intros ->. unfold copy_field. destruct (Z.ltb_spec 0 (len d)).
  - apply slice_mid.
  - by rewrite (len_zero d) by (pose_len; lia).
Qed.

Lemma decodeEntry_hit pre e suf :
  is_u64 (LogEntry.Term e) -> is_u64 (LogEntry.Index e) ->
  len (pre ++ encodeEntry e ++ suf) < 2 ^ 32 ->
  decodeEntry (pre ++ encodeEntry e ++ suf) (len pre) = Ok (e, len pre + len (encodeEntry e)).
Proof.
  intros Ht Hi Hl. rewrite !len_app, len_encodeEntry in *. unfold decodeEntry, entryHeaderSize.
  rewrite !len_app, len_encodeEntry. pose_len.
  rewrite (proj2 (Z.ltb_ge _ _)) by lia.
  destruct e as [term idx d]; unfold encodeEntry; simpl LogEntry.Term in *;
    simpl LogEntry.Index in *; simpl LogEntry.Data in *.
  rewrite <- !app_assoc. read_field. rewrite !u64_small, !u32_small by (done || unfold is_u32; lia).
  rewrite (proj2 (Z.ltb_ge _ _)) by lia.
  replace (pre ++ put_u64 term ++ put_u64 idx ++ put_u32 (len d) ++ d ++ suf)
    with ((pre ++ put_u64 term ++ put_u64 idx ++ put_u32 (len d)) ++ d ++ suf)
    by (by rewrite <- !app_assoc).
  replace (len pre + 20) with (len (pre ++ put_u64 term ++ put_u64 idx ++ put_u32 (len d)))
    by len_lia.
  rewrite copy_field_hit by done. cbn [res_bind]. do 2 f_equal. len_lia.
Qed.

Lemma decodeEntries_hit es : forall pre suf,
  Forall (fun e => is_u64 (LogEntry.Term e) /\ is_u64 (LogEntry.Index e)) es ->
  len (pre ++ concat (map encodeEntry es) ++ suf) < 2 ^ 32 ->
  decodeEntries (length es) (pre ++ concat (map encodeEntry es) ++ suf) (len pre)
  = Ok (es, len pre + len (concat (map encodeEntry es))).
Proof.
  induction es as [|e es IH]; intros pre suf Hes Hl; cbn [decodeEntries length map concat].
  { by rewrite len_nil, Z.add_0_r. }
  apply Forall_cons in Hes as [[Ht Hi] Hes]. cbn [map concat] in Hl. rewrite <- app_assoc in *.
  rewrite decodeEntry_hit by done. cbn [res_bind].
  replace (pre ++ encodeEntry e ++ concat (map encodeEntry es) ++ suf)
    with ((pre ++ encodeEntry e) ++ concat (map encodeEntry es) ++ suf) in *
    by (by rewrite <- !app_assoc).
  rewrite <- len_app, IH by done. cbn [res_bind]. do 2 f_equal. len_lia.
Qed.

Lemma decodeTail_hit pre lc su mi rc idx term d :
  is_u64 lc -> is_u64 mi -> is_u64 rc -> is_u64 idx -> is_u64 term ->
  let tl := put_u64 lc ++ [boolByte su] ++ put_u64 mi ++ put_u64 rc ++
            put_u64 idx ++ put_u64 term ++ put_u32 (len d) ++ d in
  len (pre ++ tl) < 2 ^ 32 ->
  decodeTail (pre ++ tl) (len pre) = Ok (lc, su, mi, rc, Snapshot.mk idx term d).
Proof.
  intros Hlc Hmi Hrc Hidx Hterm tl Hl. unfold decodeTail.
  assert (len (pre ++ tl) = len pre + 45 + len d) as Hlen by (subst tl; len_lia).
  rewrite Hlen in *. pose_len.
  rewrite (proj2 (Z.ltb_ge _ (8 + 1 + 8 + 8))) by lia. subst tl. read_field.
  rewrite (proj2 (Z.ltb_ge _ (8 + 8 + 4))) by lia. read_field.
  rewrite !u64_small, !u32_small by (done || unfold is_u32; lia).
  rewrite (proj2 (Z.ltb_ge _ _)) by lia.
  set (front := put_u64 lc ++ [boolByte su] ++ put_u64 mi ++ put_u64 rc ++
            put_u64 idx ++ put_u64 term ++ put_u32 (len d)).
  replace (pre ++ put_u64 lc ++ [boolByte su] ++ put_u64 mi ++ put_u64 rc ++
            put_u64 idx ++ put_u64 term ++ put_u32 (len d) ++ d)
    with ((pre ++ front) ++ d ++ []) by (subst front; by rewrite <- !app_assoc, app_nil_r).
  replace (len pre + 25 + 20) with (len (pre ++ front)) by (subst front; len_lia).
  rewrite copy_field_hit by done. cbn [res_bind]. by rewrite byteBool_boolByte.
Qed.

Lemma entries_count es : 20 * len es <= len (concat (map encodeEntry es)).
Proof.
  induction es as [|e es IH]; cbn [map concat]; [done |].
  rewrite len_cons, len_app, len_encodeEntry. pose_len. lia.
Qed.

(** The three parts of an encoded message. *)
Definition header (m : Message.t) : bytes :=
  [to_byte (type_code (Message.Type_ m))] ++
  put_u64 (Message.From m) ++ put_u64 (Message.To m) ++ put_u64 (Message.Term m) ++
  put_u64 (Message.LastLogIndex m) ++ put_u64 (Message.LastLogTerm m) ++
  [boolByte (Message.VoteGranted m)] ++
  put_u64 (Message.PrevLogIndex m) ++ put_u64 (Message.PrevLogTerm m) ++
  put_u32 (len (Message.Entries m)).
Definition trailer (m : Message.t) : bytes :=
  put_u64 (Message.LeaderCommit m) ++ [boolByte (Message.Success m)] ++
  put_u64 (Message.MatchIndex m) ++ put_u64 (Message.ReadContext m) ++
  put_u64 (Snapshot.LastIncludedIndex (Message.Snapshot m)) ++
  put_u64 (Snapshot.LastIncludedTerm (Message.Snapshot m)) ++
  put_u32 (len (Snapshot.Data (Message.Snapshot m))) ++ Snapshot.Data (Message.Snapshot m).

Lemma encode_parts m :
  encodeMessage m = header m ++ concat (map encodeEntry (Message.Entries m)) ++ trailer m.
Proof. unfold encodeMessage, header, trailer. by rewrite <- !app_assoc. Qed.
Lemma len_header m : len (header m) = 62.
Proof. unfold header. len_lia. Qed.
Lemma len_trailer m : len (trailer m) = 45 + len (Snapshot.Data (Message.Snapshot m)).
Proof. unfold trailer. len_lia. Qed.

(** Decoding the fixed part in front of the entries. *)
Lemma decode_header m rest :
  wire_wf m -> len (Message.Entries m) * 20 + 45 <= len rest -> len rest + 62 < 2 ^ 32 ->
  decodeMessage (header m ++ rest)
  = (let* '(es, off) := decodeEntries (length (Message.Entries m)) (header m ++ rest) 62 in
     let* '(lc, su, mi, rc, snap) := decodeTail (header m ++ rest) off in
     Ok (Message.mk (Message.Type_ m) (Message.From m) (Message.To m) (Message.Term m)
           (Message.LastLogIndex m) (Message.LastLogTerm m) (Message.VoteGranted m)
           (Message.PrevLogIndex m) (Message.PrevLogTerm m) es lc su mi rc snap)).
Proof.
  intros [Hty (Hf & Hto & Ht) (Hli & Hlt) (Hpi & Hpt) _ _ _ _] Hrest Hmax.
  unfold decodeMessage, fixedFieldsSize, entryHeaderSize. pose proof (len_header m) as Hh.
  rewrite len_app, Hh. pose_len. rewrite (proj2 (Z.ltb_ge _ _)) by lia.
  unfold header. rewrite <- !app_assoc. read_field.
  rewrite !u64_small, !u32_small by (done || unfold is_u32; lia).
  replace (62 + len rest - 62) with (len rest) by lia.
  rewrite (proj2 (Z.ltb_ge _ _)) by (apply Z.div_le_lower_bound; lia).
  by rewrite len_to_nat, byteBool_boolByte, code_type_code.
Qed.

Lemma decode_encode m : wire_wf m -> decodeMessage (encodeMessage m) = Ok m.
Proof.
  intros Hm. pose proof Hm as [_ _ _ _ Hes (Hlc & Hmi & Hrc) (Hsi & Hst) Hsize].
  pose proof (entries_count (Message.Entries m)) as Hcount.
  rewrite encode_parts in *. rewrite !len_app, len_header, len_trailer in Hsize.
  rewrite decode_header; [| done | rewrite len_app, len_trailer; pose_len; lia
    | rewrite len_app, len_trailer; pose_len; lia].
  rewrite <- (len_header m) at 1.
  rewrite decodeEntries_hit; [| done | rewrite !len_app, len_header, len_trailer; lia].
  cbn [res_bind]. rewrite <- len_app, app_assoc.
  unfold trailer at 1. rewrite decodeTail_hit; try done.
  - cbn [res_bind]. destruct m as [? ? ? ? ? ? ? ? ? ? ? ? ? ? []]. done.
  - fold (trailer m). rewrite !len_app, len_header, len_trailer. lia.
Qed.

(** ** Decoding arbitrary bytes *)

Lemma get_u64_inv data off v : get_u64 data off = Ok v -> is_u64 v.
Proof.
  unfold get_u64. intros H. bind_ok H b Hb. injection H as <-.
  pose proof (le_get_range b) as Hr. apply slice_len in Hb. rewrite Hb in Hr.
  replace (off + 8 - off) with 8 in Hr by lia. exact Hr.
Qed.

Lemma copy_field_no_panic data off n :
  0 <= off -> n <= len data - off -> no_panic (copy_field data off n).
Proof.
  intros. unfold copy_field. destruct (Z.ltb_spec 0 n); [| done]. apply slice_no_panic; lia.
Qed.

Lemma copy_field_len data off n d : 0 <= n -> copy_field data off n = Ok d -> len d = n.
Proof.
  intros Hn. unfold copy_field. destruct (Z.ltb_spec 0 n).
  - intros Hs%slice_len. lia.
  - intros [= <-]. rewrite len_nil. lia.
Qed.

Lemma decodeEntry_spec data off :
  0 <= off ->
  no_panic (decodeEntry data off) /\
  forall e off', decodeEntry data off = Ok (e, off') ->
    off + 20 <= off' <= len data /\ is_u64 (LogEntry.Term e) /\ is_u64 (LogEntry.Index e) /\
    len (LogEntry.Data e) <= len data.
Proof.
  intros Hoff. unfold decodeEntry, entryHeaderSize.
  destruct (Z.ltb_spec (len data - off) (8 + 8 + 4)); [done |].
  split.
  - apply no_panic_bind; [apply get_u64_no_panic; lia |]. intros term _.
    apply no_panic_bind; [apply get_u64_no_panic; lia |]. intros idx _.
    apply no_panic_bind; [apply get_u32_no_panic; lia |]. intros dlen Hd.
    destruct (_ <? _) eqn:E; [done |]. apply guard_u32 in E; [| lia].
    apply no_panic_bind; [apply copy_field_no_panic; lia | done].
  - intros e off' Hrun. bind_ok Hrun term Ht. bind_ok Hrun idx Hi. bind_ok Hrun dlen Hd.
    revert Hrun. destruct (_ <? _) eqn:E; [done |]. apply guard_u32 in E; [| lia]. intros Hrun.
    bind_ok Hrun d Hcp. injection Hrun as <- <-. apply get_u32_inv in Hd.
    apply get_u64_inv in Ht, Hi. apply copy_field_len in Hcp; [| unfold is_u32 in *; lia].
    unfold is_u32 in *. split_and!; simpl; try done; lia.
Qed.

Definition entry_fits (bound : Z) (e : LogEntry.t) : Prop :=
  is_u64 (LogEntry.Term e) /\ is_u64 (LogEntry.Index e) /\ len (LogEntry.Data e) <= bound.

Lemma decodeEntries_spec n : forall data off,
  0 <= off <= len data ->
  no_panic (decodeEntries n data off) /\
  forall es off', decodeEntries n data off = Ok (es, off') ->
    off <= off' <= len data /\ Forall (entry_fits (len data)) es.
Proof.
  induction n as [|n IH]; intros data off Hoff; cbn [decodeEntries].
  { split; [done |]. intros es off' [= <- <-]. split; [lia | constructor]. }
  destruct (decodeEntry_spec data off ltac:(lia)) as [Hnp Hok]. split.
  - apply no_panic_bind; [done |]. intros [e off1] He.
    destruct (Hok e off1 He) as ((? & ?) & _). destruct (IH data off1 ltac:(lia)) as [Hnp' _].
    apply no_panic_bind; [done |]. by intros [es off2] _.
  - intros es off' Hrun. bind_ok Hrun p He. destruct p as [e off1].
    destruct (Hok e off1 He) as ((? & ?) & Hfit). destruct (IH data off1 ltac:(lia)) as [_ Hok'].
    bind_ok Hrun q Hes. destruct q as [es' off2]. injection Hrun as <- <-.
    destruct (Hok' es' off2 Hes) as ((? & ?) & Hall). split; [lia |]. by constructor.
Qed.

Lemma decodeTail_spec data off :
  0 <= off <= len data ->
  no_panic (decodeTail data off) /\
  forall lc su mi rc snap, decodeTail data off = Ok (lc, su, mi, rc, snap) ->
    is_u64 (Snapshot.LastIncludedIndex snap) /\ is_u64 (Snapshot.LastIncludedTerm snap) /\
    len (Snapshot.Data snap) <= len data.
Proof.
  intros Hoff. unfold decodeTail.
  destruct (Z.ltb_spec (len data - off) (8 + 1 + 8 + 8)); [done |]. split.
  - do 4 (apply no_panic_bind;
      [first [apply get_u64_no_panic | apply index_no_panic]; lia | intros ? _]).
    destruct (Z.ltb_spec (len data - (off + 25)) (8 + 8 + 4)); [done |].
    do 2 (apply no_panic_bind; [apply get_u64_no_panic; lia | intros ? _]).
    apply no_panic_bind; [apply get_u32_no_panic; lia | intros n _].
    destruct (u32 _ <? _) eqn:E; [done |]. apply guard_u32 in E; [| lia].
    apply no_panic_bind; [apply copy_field_no_panic; lia | done].
  - intros lc su mi rc snap Hrun. bind_ok Hrun x1 H1. bind_ok Hrun x2 H2. bind_ok Hrun x3 H3.
    bind_ok Hrun x4 H4. revert Hrun.
    destruct (Z.ltb_spec (len data - (off + 25)) (8 + 8 + 4)); [done |]. intros Hrun.
    bind_ok Hrun idx Hi. bind_ok Hrun term Ht. bind_ok Hrun n Hn. revert Hrun.
    destruct (u32 _ <? _) eqn:E; [done |]. apply guard_u32 in E; [| lia]. intros Hrun.
    bind_ok Hrun d Hd. injection Hrun as <- <- <- <- <-. simpl.
    apply get_u64_inv in Hi, Ht. apply get_u32_inv in Hn. unfold is_u32 in Hn.
    apply copy_field_len in Hd; [| lia]. split_and!; try done. lia.
Qed.

(** What every decoded message satisfies: identifiers, terms and indexes of
    64 bits, payloads no longer than the input. *)
Record decoded_wf (bound : Z) (m : Message.t) : Prop := {
  dw_from : is_u64 (Message.From m);
  dw_term : is_u64 (Message.Term m);
  dw_entries : Forall (entry_fits bound) (Message.Entries m);
  dw_snap : is_u64 (Snapshot.LastIncludedIndex (Message.Snapshot m)) /\
            is_u64 (Snapshot.LastIncludedTerm (Message.Snapshot m)) /\
            len (Snapshot.Data (Message.Snapshot m)) <= bound
}.

Lemma decodeMessage_spec data :
  no_panic (decodeMessage data) /\
  forall m, decodeMessage data = Ok m -> decoded_wf (len data) m.
Proof.
  unfold decodeMessage, fixedFieldsSize.
  destruct (Z.ltb_spec (len data) (1 + 8 + 8 + 8 + 8 + 8 + 1 + 8 + 8 + 4 + 8 + 1 + 8 + 8 + 8 + 8 + 4));
    [done |]. split.
  - do 9 (apply no_panic_bind;
      [first [apply get_u64_no_panic | apply index_no_panic]; lia | intros ? _]).
    apply no_panic_bind; [apply get_u32_no_panic; lia | intros count Hc].
    destruct (_ <? _); [done |].
    destruct (decodeEntries_spec (Z.to_nat count) data 62 ltac:(lia)) as [Hnp Hok].
    apply no_panic_bind; [done |]. intros [es off] Hes.
    destruct (Hok es off Hes) as ((? & ?) & _).
    apply no_panic_bind; [apply (decodeTail_spec data off); lia |]. by intros [[[[]]]] _.
  - intros m Hrun. bind_ok Hrun ty Hty. bind_ok Hrun from Hf. bind_ok Hrun to Hto.
    bind_ok Hrun term Ht. bind_ok Hrun lli Hlli. bind_ok Hrun llt Hllt. bind_ok Hrun vg Hvg.
    bind_ok Hrun pli Hpli. bind_ok Hrun plt Hplt. bind_ok Hrun count Hc. revert Hrun.
    destruct (_ <? _); [done |]. intros Hrun. bind_ok Hrun p Hes. destruct p as [es off].
    destruct (decodeEntries_spec (Z.to_nat count) data 62 ltac:(lia)) as [_ Hok].
    destruct (Hok es off Hes) as ((? & ?) & Hall).
    bind_ok Hrun q Htl. destruct q as [[[[lc su] mi] rc] snap]. injection Hrun as <-.
    destruct (decodeTail_spec data off ltac:(lia)) as [_ Htok].
    apply Htok in Htl. apply get_u64_inv in Hf, Ht. by constructor.
Qed.

(** ** Frames *)

Definition frame (payload : bytes) : bytes := put_u32 (len payload) ++ payload.

Lemma writeFramed_ok w payload :
  writes w = [] -> writeFramed w payload = ({| out := out w ++ frame payload; writes := [] |}, None).
Proof.
  intros Hw. unfold writeFramed, wWrite. rewrite Hw. simpl. by rewrite <- app_assoc.
Qed.

(** Whatever fails, what went out is a prefix of the frame. *)
Lemma writeFramed_prefix w payload w' err :
  writeFramed w payload = (w', err) ->
  exists sent, out w' = out w ++ sent /\ sent `prefix_of` frame payload /\
    (err = None -> sent = frame payload).
Proof.
  unfold writeFramed. destruct (wWrite w _) as [w1 ok1] eqn:E1.
  assert (forall x p y ok, wWrite x p = (y, ok) ->
    exists k, out y = out x ++ take k p /\ (ok = true -> take k p = p)) as Hw.
  { intros x p y ok. unfold wWrite. destruct (writes x) as [|[k|] s]; intros [= <- <-].
    - exists (length p). by rewrite take_ge.
    - by exists k.
    - exists (length p). by rewrite take_ge. }
  destruct (Hw _ _ _ _ E1) as (k1 & Ho1 & Hk1). destruct ok1; simpl.
  - rewrite Hk1 in Ho1 by done. destruct (wWrite w1 payload) as [w2 ok2] eqn:E2.
    destruct (Hw _ _ _ _ E2) as (k2 & Ho2 & Hk2). rewrite Ho1, <- app_assoc in Ho2.
    destruct ok2; intros [= <- <-]; exists (put_u32 (len payload) ++ take k2 payload);
      (split_and!; [done | apply prefix_app, prefix_take |]); [| done].
    intros _. by rewrite Hk2.
  - intros [= <- <-]. exists (take k1 (put_u32 (len payload))). split_and!; [done | | done].
    etrans; [apply prefix_take | by apply prefix_app_r].
Qed.

Lemma streamFull_hit a b n : n = len a -> streamFull (a ++ b) n = Ok (a, b).
Proof.
  intros ->. unfold streamFull. rewrite len_app. pose_len.
  rewrite (proj2 (Z.leb_le _ _)) by lia. by rewrite take_len_app, drop_len_app.
Qed.

Lemma readFramed_frame payload rest :
  len payload <= maxMessageSize -> readFramed (frame payload ++ rest) = Ok (payload, rest).
Proof.
  intros Hl. unfold readFramed, frame, maxMessageSize in *. rewrite <- app_assoc. pose_len.
  rewrite streamFull_hit by len_lia. cbn [res_bind].
  rewrite <- (app_nil_r (put_u32 _)), get_u32_hit by done. cbn [res_bind].
  rewrite u32_small by (unfold is_u32; lia).
  rewrite (proj2 (Z.ltb_ge _ _)) by lia. by rewrite streamFull_hit.
Qed.

(** A stream cut inside a frame yields an error, never a message. *)
Lemma readFramed_no_panic s : no_panic (readFramed s).
Proof.
  unfold readFramed. apply no_panic_bind.
  { unfold streamFull. by destruct (4 <=? len s). }
  intros [lenBuf rest] Hs. apply no_panic_bind.
  { unfold streamFull in Hs. destruct (Z.leb_spec 4 (len s)) as [H4|]; [| done]. injection Hs as <- _.
    apply get_u32_no_panic; [lia |]. unfold len in *. rewrite length_take. lia. }
  intros n _. destruct (_ <? n); [done |]. unfold streamFull. by destruct (_ <=? _).
Qed.

Lemma readFramed_cut payload s :
  len payload <= maxMessageSize -> s `prefix_of` frame payload -> s <> frame payload ->
  exists e, readFramed s = Err e.
Proof.
  intros Hl [rest Hs] Hne. unfold readFramed, frame, maxMessageSize in *.
  assert (rest <> []) as Hr by (intros ->; rewrite app_nil_r in Hs; done).
  assert (0 < len rest) by (destruct rest; [done | len_lia]).
  apply (f_equal len) in Hs as Hlen. rewrite !len_app, len_put_u32 in Hlen. pose_len.
  unfold streamFull at 1. destruct (Z.leb_spec 4 (len s)) as [H4|]; [| eauto]. cbn [res_bind].
  assert (take 4 s = put_u32 (len payload)) as Ht.
  { apply (f_equal (take 4)) in Hs. rewrite (take_app_le s) in Hs by (unfold len in *; lia).
    rewrite take_app_length' in Hs by (by rewrite length_put_u32). done. }
  change (Z.to_nat 4) with 4%nat. rewrite Ht. rewrite <- (app_nil_r (put_u32 _)), get_u32_hit by done. cbn [res_bind].
  rewrite u32_small by (unfold is_u32; lia). rewrite (proj2 (Z.ltb_ge _ _)) by lia.
  unfold streamFull. rewrite (proj2 (Z.leb_gt _ _)); [by eexists |].
  unfold len in *. rewrite length_drop. lia.
Qed.

Definition frames (ms : list Message.t) : bytes := concat (map (fun m => frame (encodeMessage m)) ms).

Lemma frames_cons m ms : frames (m :: ms) = frame (encodeMessage m) ++ frames ms.
Proof. done. Qed.

Lemma frame_length payload : (4 <= length (frame payload))%nat.
Proof. unfold frame. rewrite length_app, length_put_u32. lia. Qed.

(** The read loop on any prefix of a well-formed stream: the messages whose
    frames lie whole in it. *)
Lemma handleConn_prefix ms : forall fuel s,
  Forall (fun m => wire_wf m /\ len (encodeMessage m) <= maxMessageSize) ms ->
  s `prefix_of` frames ms -> (length s < fuel)%nat ->
  handleConn fuel s `prefix_of` ms /\ (s = frames ms -> handleConn fuel s = ms).
Proof.
  induction ms as [|m ms IH]; intros fuel s Hms Hs Hf.
  { apply prefix_nil_inv in Hs as ->. destruct fuel; [lia |]. by split. }
  apply Forall_cons in Hms as [[Hw Hl] Hms]. rewrite frames_cons in *.
  destruct fuel as [|fuel]; [lia |]. cbn [handleConn].
  destruct (decide (frame (encodeMessage m) `prefix_of` s)) as [[s' ->] | Hno].
  - apply prefix_app_inv in Hs. rewrite readFramed_frame, decode_encode by done.
    rewrite length_app in Hf. pose proof (frame_length (encodeMessage m)).
    destruct (IH fuel s' Hms Hs ltac:(lia)) as [Hp Hall]. split; [by apply prefix_cons |].
    intros Heq. apply app_inv_head in Heq. by rewrite Hall.
  - assert (s `prefix_of` frame (encodeMessage m)) as Hs'.
    { destruct Hs as [k Hk]. destruct (prefix_weak_total s (frame (encodeMessage m)) (s ++ k)) as [?|?];
        [by apply prefix_app_r | rewrite <- Hk; by apply prefix_app_r | done |]. by destruct Hno. }
    destruct (readFramed_cut (encodeMessage m) s) as [e ->]; [done | done | intros ->; by destruct Hno |].
    split; [apply prefix_nil |]. intros ->. destruct Hno. by apply prefix_app_r.
Qed.

(** A frame that is too large ends the loop, whole or cut short. *)
Lemma readFramed_oversized payload s rest :
  maxMessageSize < len payload < 2 ^ 32 -> s `prefix_of` frame payload ++ rest -> exists e, readFramed s = Err e.
Proof.
  intros Hl [more Hs]. unfold readFramed, frame in *. unfold streamFull at 1.
  destruct (Z.leb_spec 4 (len s)) as [H4|]; [| eauto]. cbn [res_bind].
  assert (take 4 s = put_u32 (len payload)) as Ht.
  { apply (f_equal (take 4)) in Hs. rewrite (take_app_le s) in Hs by (unfold len in *; lia).
    rewrite <- app_assoc, take_app_length' in Hs by (by rewrite length_put_u32). done. }
  change (Z.to_nat 4) with 4%nat. rewrite Ht. rewrite <- (app_nil_r (put_u32 _)), get_u32_hit by done. cbn [res_bind].
  rewrite u32_small by (unfold is_u32; pose_len; lia). rewrite (proj2 (Z.ltb_lt _ _)) by lia. by eexists.
Qed.

(** The read loop on any prefix of a stream of frames of any size: leading
    messages of the stream. *)
Lemma handleConn_leading ms : forall fuel s,
  Forall wire_wf ms -> s `prefix_of` frames ms -> (length s < fuel)%nat -> handleConn fuel s `prefix_of` ms.
Proof.
  induction ms as [|m ms IH]; intros fuel s Hms Hs Hf.
  { apply prefix_nil_inv in Hs as ->. by destruct fuel; [lia |]. }
  apply Forall_cons in Hms as [Hw Hms]. rewrite frames_cons in *. destruct fuel as [|fuel]; [lia |]. cbn [handleConn].
  destruct (Z.le_gt_cases (len (encodeMessage m)) maxMessageSize) as [Hl|Hl].
  2: { destruct (readFramed_oversized (encodeMessage m) s (frames ms)) as [e ->]; [split; [lia | apply Hw] | done | apply prefix_nil]. }
  destruct (decide (frame (encodeMessage m) `prefix_of` s)) as [[s' ->] | Hno].
  - apply prefix_app_inv in Hs. rewrite readFramed_frame, decode_encode by done.
    rewrite length_app in Hf. pose proof (frame_length (encodeMessage m)). apply prefix_cons, IH; [done | done | lia].
  - assert (s `prefix_of` frame (encodeMessage m)) as Hs'.
    { destruct Hs as [k Hk]. destruct (prefix_weak_total s (frame (encodeMessage m)) (s ++ k)) as [?|?];
        [by apply prefix_app_r | rewrite <- Hk; by apply prefix_app_r | done |]. by destruct Hno. }
    destruct (readFramed_cut (encodeMessage m) s) as [e ->]; [done | done | intros ->; by destruct Hno |]. apply prefix_nil.
Qed.

Lemma handleConn_frames ms : forall fuel rest,
  Forall (fun m => wire_wf m /\ len (encodeMessage m) <= maxMessageSize) ms ->
  (length (frames ms ++ rest) < fuel)%nat ->
  ms `prefix_of` handleConn fuel (frames ms ++ rest).
Proof.
  induction ms as [|m ms IH]; intros fuel rest Hms Hf; [apply prefix_nil |].
  apply Forall_cons in Hms as [[Hw Hl] Hms]. rewrite frames_cons, <- app_assoc in *.
  destruct fuel as [|fuel]; [lia |]. cbn [handleConn].
  rewrite readFramed_frame, decode_encode by done. apply prefix_cons, IH; [done |].
  rewrite length_app in Hf. pose proof (frame_length (encodeMessage m)). lia.
Qed.

(** ** Properties of the codec and the framing *)

(** C37: the codec is exact.  Decoding the encoding of a message gives back the
    message, for every message whose integers fit 64 bits and whose encoding
    stays below 4 GiB: all eight types and any other type byte, any number of
    entries, empty and non-empty payloads, with and without a snapshot. *)
Theorem message_roundtrip m : wire_wf m -> decodeMessage (encodeMessage m) = Ok m.
Proof. apply decode_encode. Qed.

Definition sample_message : Message.t :=
  Message.mk MsgAppendEntries 1 2 3 0 0 false 4 2
    [LogEntry.mk 3 5 [x61; x62]; LogEntry.mk 3 6 []] 4 false 0 7 (Snapshot.mk 1 1 [x00]).

Lemma sample_message_wf : wire_wf sample_message.
Proof.
  constructor; simpl; unfold is_u64; try lia; [| vm_compute; reflexivity].
  repeat (apply Forall_cons; split); simpl; try lia. by apply Forall_nil.
Qed.

Lemma message_roundtrip_witness : decodeMessage (encodeMessage sample_message) = Ok sample_message.
Proof.
  apply message_roundtrip. exact sample_message_wf.
Defined.

(** The decoder is safe on arbitrary bytes.  It never reads out of range,
    whatever length and count fields the input claims, and a message it
    accepts has 64-bit identifiers, terms and indexes and no payload longer
    than the input. *)
Theorem decode_any_bytes data :
  no_panic (decodeMessage data) /\
  forall m, decodeMessage data = Ok m -> decoded_wf (len data) m.
Proof. apply decodeMessage_spec. Qed.

(** A message larger than 64 MiB is accepted for sending and refused by
    every receiver.  [writeFramed] has no limit, so [Send] reports success;
    [readFramed] then fails and the connection is closed.  A snapshot of that
    size can never be installed on a follower. *)
Theorem oversized_send_is_refused m rest :
  maxMessageSize < len (encodeMessage m) < 2 ^ 32 ->
  (writeFramed {| out := []; writes := [] |} (encodeMessage m)).2 = None /\
  readFramed (frame (encodeMessage m) ++ rest)
    = Err (Errorf "transport: frame length exceeds max") /\
  received (frame (encodeMessage m) ++ rest) = [].
Proof.
  intros [Hl Hu]. set (p := encodeMessage m) in *. pose_len.
  assert (readFramed (frame p ++ rest) = Err (Errorf "transport: frame length exceeds max")) as Hr.
  { unfold readFramed, frame. rewrite <- app_assoc, streamFull_hit by len_lia. cbn [res_bind].
    rewrite <- (app_nil_r (put_u32 _)), get_u32_hit by done. cbn [res_bind].
    rewrite u32_small by (unfold is_u32; lia). by rewrite (proj2 (Z.ltb_lt _ _)). }
  split_and!; [by rewrite writeFramed_ok | done |].
  unfold received. cbn [handleConn]. by rewrite Hr.
Qed.

(** A message that carries one entry of [n] bytes. *)
Definition sample_large (n : nat) : Message.t :=
  Message.mk MsgAppendEntries 1 2 3 0 0 false 0 0
    [LogEntry.mk 3 1 (repeat x00 n)] 0 false 0 0 Snapshot.zero.

Lemma len_sample_large n : len (encodeMessage (sample_large n)) = 127 + Z.of_nat n.
Proof.
  rewrite encode_parts, !len_app, len_header, len_trailer. cbn [map concat sample_large Message.Entries].
  rewrite app_nil_r, len_encodeEntry. simpl. unfold len at 1. rewrite repeat_length.
  change (len []) with 0. lia.
Qed.

Lemma oversized_send_is_refused_witness :
  (writeFramed {| out := []; writes := [] |}
     (encodeMessage (sample_large (Z.to_nat maxMessageSize)))).2 = None /\
  readFramed (frame (encodeMessage (sample_large (Z.to_nat maxMessageSize))) ++ [])
    = Err (Errorf "transport: frame length exceeds max") /\
  received (frame (encodeMessage (sample_large (Z.to_nat maxMessageSize))) ++ []) = [].
Proof.
  apply oversized_send_is_refused. rewrite len_sample_large, Z2Nat.id; unfold maxMessageSize; lia.
Defined.
