(* ===== verification/Transport.v ===== *)
(** * Connections between nodes (src/transport/transport.go)

    The goroutines of a [Transport] as threads over a shared state: the accept
    loop, one [handleConn] per accepted connection, the callers of [Send] and
    of [Close].  A critical section under [t.mu] is one step.  The lock of an
    outbound connection is explicit, because a frame is two writes and the
    connection can be closed between them.  The network answers each dial,
    accept, read and write; a connection whose write failed writes nothing
    more (no deadline is ever set, so a write error of TCP is final). *)

From Stdlib Require Import Strings.Byte Strings.String.
From S2P Require Import Prelude GoBytes GoState RaftTypes TransportCodec.

(** ** State *)

(** A connection; for a dialed one also the mutex of its [outboundConn] (the
    thread that holds it).  [c_log] lists the messages whose frames were
    written whole. *)
Record outboundConn := mkConn {
  c_open : bool;
  c_bad : bool;
  c_mu : option nat;
  c_out : bytes;
  c_in : bytes;
  c_log : list Message.t
}.

(** [net] is what the operating system holds; a nil map is [None]. *)
Record Transport := mkTransport {
  peerAddrs : gmap Z string;
  listening : bool;
  incoming : list Message.t;
  incomingClosed : bool;
  doneClosed : bool;
  wg : Z;
  closed : bool;
  outConns : option (gmap Z nat);
  inConns : option (gset nat);
  net : list outboundConn
}.

Definition incomingSize : Z := 256.

Definition with_incoming (l : list Message.t) (b : bool) (t : Transport) : Transport :=
  mkTransport (peerAddrs t) (listening t) l b (doneClosed t) (wg t) (closed t) (outConns t) (inConns t) (net t).
Definition with_wg (z : Z) (t : Transport) : Transport :=
  mkTransport (peerAddrs t) (listening t) (incoming t) (incomingClosed t) (doneClosed t) z (closed t) (outConns t) (inConns t) (net t).
Definition with_out_conns (m : option (gmap Z nat)) (t : Transport) : Transport :=
  mkTransport (peerAddrs t) (listening t) (incoming t) (incomingClosed t) (doneClosed t) (wg t) (closed t) m (inConns t) (net t).
Definition with_in_conns (m : option (gset nat)) (t : Transport) : Transport :=
  mkTransport (peerAddrs t) (listening t) (incoming t) (incomingClosed t) (doneClosed t) (wg t) (closed t) (outConns t) m (net t).
Definition with_net (l : list outboundConn) (t : Transport) : Transport :=
  mkTransport (peerAddrs t) (listening t) (incoming t) (incomingClosed t) (doneClosed t) (wg t) (closed t) (outConns t) (inConns t) l.

(** ** Connections and channels *)

Definition new_conn (stream : bytes) : outboundConn := mkConn true false None [] stream [].
Definition shut (c : outboundConn) : outboundConn := mkConn false (c_bad c) (c_mu c) (c_out c) (c_in c) (c_log c).
Definition hold (o : option nat) (c : outboundConn) : outboundConn := mkConn (c_open c) (c_bad c) o (c_out c) (c_in c) (c_log c).
Definition unread (rest : bytes) (c : outboundConn) : outboundConn := mkConn (c_open c) (c_bad c) (c_mu c) (c_out c) rest (c_log c).
Definition logged (m : Message.t) (c : outboundConn) : outboundConn :=
  mkConn (c_open c) (c_bad c) (c_mu c) (c_out c) (c_in c) (c_log c ++ [m]).

Definition open_conn (stream : bytes) : st Transport nat := fun t =>
  (with_net (net t ++ [new_conn stream]) t, Ok (length (net t))).
Definition on_conn (c : nat) (f : outboundConn -> outboundConn) : st Transport unit :=
  modify (fun t => with_net (alter f c (net t)) t).
Definition conn_Close (c : nat) : st Transport unit := on_conn c shut.

(** One [Write]: all of [p], or the first [n] bytes and an error. *)
Definition write (p : bytes) (n : option nat) (c : outboundConn) : outboundConn * bool :=
  if c_open c && negb (c_bad c) then
    match n with
    | None => (mkConn (c_open c) false (c_mu c) (c_out c ++ p) (c_in c) (c_log c), true)
    | Some n => (mkConn (c_open c) true (c_mu c) (c_out c ++ take n p) (c_in c) (c_log c), false)
    end
  else (c, false).
Definition conn_Write (c : nat) (p : bytes) (n : option nat) : st Transport bool := fun t =>
  match net t !! c with
  | Some x => let '(x, ok) := write p n x in (with_net (<[c := x]> (net t)) t, Ok ok)
  | None => (t, Panic)
  end.

Definition wg_Add : st Transport unit := modify (fun t => with_wg (wg t + 1) t).
Definition wg_Done : st Transport unit := fun t => if wg t <=? 0 then (t, Panic) else (with_wg (wg t - 1) t, Ok tt).

(** ** Operations *)

Definition Listen (peers : gmap Z string) : Transport :=
  mkTransport peers true [] false false 1 false (Some ∅) (Some ∅) [].

Definition registerAccepted (c : nat) : st Transport bool := fun t =>
  if closed t then (t, Ok false)
  else match inConns t with
       | None => (t, Panic)
       | Some s => (with_in_conns (Some ({[c]} ∪ s)) t, Ok true)
       end.

(** [delete(t.inConns, conn)]; on a nil map it does nothing. *)
Definition forgetAccepted (c : nat) : st Transport unit :=
  modify (fun t => with_in_conns (match inConns t with Some s => Some (s ∖ {[c]}) | None => None end) t).

(** The two cases of the [select]; [None] when the case is not ready. *)
Definition deliver_send (m : Message.t) : st Transport (option bool) := fun t =>
  if incomingClosed t then (t, Panic)
  else if len (incoming t) <? incomingSize then (with_incoming (incoming t ++ [m]) false t, Ok (Some true))
  else (t, Ok None).
Definition deliver_done : st Transport (option bool) := fun t =>
  (t, Ok (if doneClosed t then Some false else None)).

(** The first critical section of [getConn]. *)
Definition getConn (id : Z) : st Transport (option nat) := fun t =>
  if closed t then (t, Err (Errorf "transport: closed"))
  else (t, Ok (match outConns t with Some m => m !! id | None => None end)).

Definition registerDialed (id : Z) (c : nat) : st Transport nat := fun t =>
  if closed t then (let! _ := conn_Close c in fail (Errorf "transport: closed")) t
  else match outConns t with
       | Some m =>
           match m !! id with
           | Some existing => (let! _ := conn_Close c in ret existing) t
           | None => (with_out_conns (Some (<[id := c]> m)) t, Ok c)
           end
       | None => (t, Panic)
       end.

Definition dropConn (id : Z) : st Transport unit := fun t =>
  match outConns t with
  | Some m =>
      match m !! id with
      | Some c => (let! _ := conn_Close c in modify (with_out_conns (Some (delete id m)))) t
      | None => (t, Ok tt)
      end
  | None => (t, Ok tt)
  end.

Definition values (o : option (gmap Z nat)) : list nat := match o with Some m => (map_to_list m).*2 | None => [] end.
Definition members (o : option (gset nat)) : list nat := match o with Some s => elements s | None => [] end.

(** [Close] up to [t.wg.Wait()]; [false] when it was closed already. *)
Definition Close_begin : st Transport bool := fun t =>
  if closed t then (t, Ok false)
  else if doneClosed t then (t, Panic)
  else (mkTransport (peerAddrs t) false (incoming t) (incomingClosed t) true (wg t) true None None
          (foldr (alter shut) (net t) (members (inConns t) ++ values (outConns t))), Ok true).
Definition Close_end : st Transport unit := fun t =>
  if incomingClosed t then (t, Panic) else (with_incoming (incoming t) true t, Ok tt).

(** ** Threads *)

(** Where a thread is, with its locals. *)
Inductive thread :=
  (* acceptLoop *)
  | AAccept | ARegister (c : nat) | ADiscard (c : nat) | ASpawn (c : nat) | ADone
  (* handleConn *)
  | HRead (c : nat) | HDeliver (c : nat) (m : Message.t) | HForget (c : nat) | HClose (c : nat) | HDone
  (* Send *)
  | SStart (m : Message.t) | SDial (m : Message.t) | SRegister (m : Message.t) (c : nat) | SLock (m : Message.t) (c : nat)
  | SHeader (m : Message.t) (c : nat) | SPayload (m : Message.t) (c : nat) | SUnlock (m : Message.t) (c : nat) (ok : bool)
  | SDrop (m : Message.t) | Sent (m : Message.t) (c : nat) | SendFailed (m : Message.t) (e : error)
  (* Close *)
  | CStart | CWait | CEnd
  | Returned.

(** What the network or the scheduler answers at a step. *)
Inductive answer :=
  | Arrived (stream : bytes)
  | Failed
  | Wrote (n : option nat)
  | Choose (sending : bool)
  | Go.

Definition next (pc : thread) : st Transport (option (thread * list thread)) := ret (Some (pc, [])).
Definition blocked : st Transport (option (thread * list thread)) := ret None.

(** The place a thread moves to and the threads it starts, or [None] when the
    answer does not fit or the thread has to wait.  [acceptLoop]: *)
Definition acceptLoop (pc : thread) (a : answer) : st Transport (option (thread * list thread)) :=
  match pc, a with
  | AAccept, Arrived s => fun t => if listening t then (let! c := open_conn s in next (ARegister c)) t else blocked t
  | AAccept, Failed => next ADone
  | ARegister c, Go => let! ok := registerAccepted c in next (if ok : bool then ASpawn c else ADiscard c)
  | ADiscard c, Go => let! _ := conn_Close c in next ADone
  | ASpawn c, Go => let! _ := wg_Add in ret (Some (AAccept, [HRead c]))
  | ADone, Go => let! _ := wg_Done in next Returned
  | _, _ => blocked
  end.

(** [handleConn], with its deferred clean-up. *)
Definition handleConn_ (pc : thread) (a : answer) : st Transport (option (thread * list thread)) :=
  match pc, a with
  | HRead c, Failed => next (HForget c)
  | HRead c, Go => fun t =>
      match net t !! c with
      | Some x =>
          if c_open x then
            match readFramed (c_in x) with
            | Ok (payload, rest) =>
                match decodeMessage payload with
                | Ok m => (let! _ := on_conn c (unread rest) in next (HDeliver c m)) t
                | Err _ => next (HForget c) t
                | Panic => (t, Panic)
                end
            | Err _ => next (HForget c) t
            | Panic => (t, Panic)
            end
          else blocked t
      | None => (t, Panic)
      end
  | HDeliver c m, Choose b =>
      let! r := if b : bool then deliver_send m else deliver_done in
      match r with Some true => next (HRead c) | Some false => next (HForget c) | None => blocked end
  | HForget c, Go => let! _ := forgetAccepted c in next (HClose c)
  | HClose c, Go => let! _ := conn_Close c in next HDone
  | HDone, Go => let! _ := wg_Done in next Returned
  | _, _ => blocked
  end.

(** [Send] with the dialing of [getConn]; [me] takes the lock of the connection
    around the two writes of [writeFramed]. *)
Definition Send (me : nat) (pc : thread) (a : answer) : st Transport (option (thread * list thread)) :=
  match pc, a with
  | SStart m, Go => fun t =>
      match peerAddrs t !! Message.To m with
      | None => next (SendFailed m (Errorf "transport: unknown peer")) t
      | Some _ =>
          match getConn (Message.To m) t with
          | (t, Ok (Some c)) => next (SLock m c) t
          | (t, Ok None) => next (SDial m) t
          | (t, Err e) => next (SendFailed m e) t
          | (t, Panic) => (t, Panic)
          end
      end
  | SDial m, Arrived _ => let! c := open_conn [] in next (SRegister m c)
  | SDial m, Failed => next (SendFailed m (Errorf "transport: dial peer"))
  | SRegister m c, Go => fun t =>
      match registerDialed (Message.To m) c t with
      | (t, Ok c) => next (SLock m c) t
      | (t, Err e) => next (SendFailed m e) t
      | (t, Panic) => (t, Panic)
      end
  | SLock m c, Go => fun t =>
      match net t !! c with
      | Some x => match c_mu x with
                  | None => (let! _ := on_conn c (hold (Some me)) in next (SHeader m c)) t
                  | Some _ => blocked t
                  end
      | None => (t, Panic)
      end
  | SHeader m c, Wrote n =>
      let! ok := conn_Write c (put_u32 (len (encodeMessage m))) n in
      next (if ok : bool then SPayload m c else SUnlock m c false)
  | SPayload m c, Wrote n =>
      let! ok := conn_Write c (encodeMessage m) n in
      let! _ := if ok : bool then on_conn c (logged m) else ret tt in
      next (SUnlock m c ok)
  | SUnlock m c ok, Go => let! _ := on_conn c (hold None) in next (if ok then Sent m c else SDrop m)
  | SDrop m, Go => let! _ := dropConn (Message.To m) in next (SendFailed m (Errorf "transport: sending to peer"))
  | _, _ => blocked
  end.

Definition Close (pc : thread) (a : answer) : st Transport (option (thread * list thread)) :=
  match pc, a with
  | CStart, Go => let! fresh := Close_begin in next (if fresh : bool then CWait else Returned)
  | CWait, Go => fun t => if wg t =? 0 then next CEnd t else blocked t
  | CEnd, Go => let! _ := Close_end in next Returned
  | _, _ => blocked
  end.

(** One step of thread [me]. *)
Definition exec (me : nat) (pc : thread) (a : answer) : st Transport (option (thread * list thread)) :=
  match pc with
  | AAccept | ARegister _ | ADiscard _ | ASpawn _ | ADone => acceptLoop pc a
  | HRead _ | HDeliver _ _ | HForget _ | HClose _ | HDone => handleConn_ pc a
  | CStart | CWait | CEnd => Close pc a
  | Returned => blocked
  | _ => Send me pc a
  end.

Record System := mkSystem { tr : Transport; threads : list thread }.

(** The callers send messages that satisfy [P] and may close the transport at
    any time, more than once; the reader of [Recv] takes messages. *)
Section system.
Context (P : Message.t -> Prop).

Inductive step : System -> System -> Prop :=
  | step_thread s me pc a t' pc' started :
      threads s !! me = Some pc -> exec me pc a (tr s) = (t', Ok (Some (pc', started))) ->
      step s (mkSystem t' (<[me := pc']> (threads s) ++ started))
  | step_recv s m ms :
      incoming (tr s) = m :: ms -> step s (mkSystem (with_incoming ms (incomingClosed (tr s)) (tr s)) (threads s))
  | step_Send s m : P m -> step s (mkSystem (tr s) (threads s ++ [SStart m]))
  | step_Close s : step s (mkSystem (tr s) (threads s ++ [CStart])).

Inductive reachable (peers : gmap Z string) : System -> Prop :=
  | reach_start : reachable peers (mkSystem (Listen peers) [AAccept])
  | reach_step s s' : reachable peers s -> step s s' -> reachable peers s'.
End system.

(** ** Schedules *)

(** One choice of the scheduler, and a run along a list of them. *)
Inductive choice :=
  | Run (me : nat) (a : answer)
  | Take
  | CallSend (m : Message.t)
  | CallClose.

Definition obey (ch : choice) (s : System) : option System :=
  match ch with
  | Run me a =>
      match threads s !! me with
      | Some pc =>
          match exec me pc a (tr s) with
          | (t, Ok (Some (pc, started))) => Some (mkSystem t (<[me := pc]> (threads s) ++ started))
          | _ => None
          end
      | None => None
      end
  | Take =>
      match incoming (tr s) with
      | _ :: ms => Some (mkSystem (with_incoming ms (incomingClosed (tr s)) (tr s)) (threads s))
      | [] => None
      end
  | CallSend m => Some (mkSystem (tr s) (threads s ++ [SStart m]))
  | CallClose => Some (mkSystem (tr s) (threads s ++ [CStart]))
  end.

Fixpoint drive (cs : list choice) (s : System) : option System :=
  match cs with
  | [] => Some s
  | ch :: cs => match obey ch s with Some s => drive cs s | None => None end
  end.

Definition calls (cs : list choice) : list Message.t :=
  omap (fun ch => match ch with CallSend m => Some m | _ => None end) cs.

Lemma obey_step (P : Message.t -> Prop) ch s s' : Forall P (calls [ch]) -> obey ch s = Some s' -> step P s s'.
Proof.
  intros HP. destruct ch as [me a| |m|]; cbn [obey].
  - destruct (threads s !! me) as [pc|] eqn:Hpc; [| done]. destruct (exec me pc a (tr s)) as [t [[[pc' l]|]|e|]] eqn:Hx; try done.
    intros [= <-]. by eapply step_thread.
  - destruct (incoming (tr s)) as [|m ms] eqn:Hin; [done |]. intros [= <-]. by eapply step_recv.
  - intros [= <-]. apply step_Send. by inversion HP.
  - intros [= <-]. apply step_Close.
Qed.

Lemma drive_reachable (P : Message.t -> Prop) peers cs : forall s s',
  Forall P (calls cs) -> reachable P peers s -> drive cs s = Some s' -> reachable P peers s'.
Proof.
  induction cs as [|ch cs IH]; intros s s' HP Hs; [by intros [= <-] |]. cbn [drive]. destruct (obey ch s) as [s1|] eqn:Ho; [| done].
  change (calls (ch :: cs)) with (calls ([ch] ++ cs)) in HP. unfold calls in HP. rewrite omap_app in HP. apply Forall_app in HP as [HP1 HP2].
  apply IH; [done |]. eapply reach_step; [exact Hs |]. by eapply obey_step.
Qed.
