(* ===== verification/TransportInv.v ===== *)
(** * The counters behind [Close]

    Over every interleaving the [WaitGroup] counts the goroutines of the
    transport, and the channel of received messages is closed only when none
    of them is left. *)

From Stdlib Require Import Strings.Byte Strings.String.
From S2P Require Import Prelude GoBytes GoState RaftTypes TransportCodec Transport.

(** ** Counting threads *)

Definition total (f : thread -> Z) (l : list thread) : Z := foldr (fun x n => f x + n) 0 l.

Lemma count_app f l k : total f (l ++ k) = total f l + total f k.
Proof. induction l as [|x l IH]; simpl; [done | unfold total in *; lia]. Qed.
Lemma count_nonneg f l : (forall x, 0 <= f x) -> 0 <= total f l.
Proof. intros Hf. induction l as [|x l IH]; simpl; [done |]. specialize (Hf x). unfold total in *. lia. Qed.
Lemma total_elem f l x : (forall x, 0 <= f x) -> x ∈ l -> f x <= total f l.
Proof.
  intros Hf Hx. apply list_elem_of_split in Hx as (l1 & l2 & ->). rewrite count_app. simpl.
  pose proof (count_nonneg f l1 Hf). pose proof (count_nonneg f l2 Hf). unfold total in *. lia.
Qed.
Lemma total_pos f l : (forall x, 0 <= f x <= 1) -> 0 < total f l -> exists x, x ∈ l /\ f x = 1.
Proof.
  intros Hf. induction l as [|x l IH]; simpl; [lia |]. intros H. destruct (decide (f x = 1)) as [Hx|Hx].
  { exists x. split; [by left | done]. }
  destruct IH as (y & Hy & Hfy); [specialize (Hf x); unfold total in *; lia |]. exists y. split; [by right | done].
Qed.

(** Goroutines of the transport, calls of [Close] under way, and one at its
    last step. *)
Definition worker (pc : thread) : Z :=
  match pc with
  | AAccept | ARegister _ | ADiscard _ | ASpawn _ | ADone | HRead _ | HDeliver _ _ | HForget _ | HClose _ | HDone => 1
  | _ => 0
  end.
Definition closer (pc : thread) : Z := match pc with CWait | CEnd => 1 | _ => 0 end.
Definition ender (pc : thread) : Z := match pc with CEnd => 1 | _ => 0 end.

Definition when (b : bool) : Z := if b then 1 else 0.

(** Threads that work for the accepted connection [c]; those that rely on its
    being registered; those that have a connection in hand that no map
    knows. *)
Definition inbound (c : nat) (pc : thread) : Z :=
  match pc with
  | ARegister d | ADiscard d | ASpawn d | HRead d | HDeliver d _ | HForget d | HClose d => when (bool_decide (d = c))
  | _ => 0
  end.
Definition serves (c : nat) (pc : thread) : Z :=
  match pc with ASpawn d | HRead d | HDeliver d _ | HForget d => when (bool_decide (d = c)) | _ => 0 end.
Definition holds (c : nat) (pc : thread) : Z :=
  match pc with ARegister d | ADiscard d | HClose d | SRegister _ d => when (bool_decide (d = c)) | _ => 0 end.

Lemma when_range b : 0 <= when b <= 1.
Proof. destruct b; simpl; lia. Qed.
Lemma inbound_range c pc : 0 <= inbound c pc <= 1.
Proof. destruct pc; simpl; try lia; apply when_range. Qed.
Lemma serves_range c pc : 0 <= serves c pc <= 1.
Proof. destruct pc; simpl; try lia; apply when_range. Qed.
Lemma holds_range c pc : 0 <= holds c pc <= 1.
Proof. destruct pc; simpl; try lia; apply when_range. Qed.
Lemma worker_range pc : 0 <= worker pc <= 1.
Proof. destruct pc; simpl; lia. Qed.
Lemma closer_range pc : 0 <= closer pc <= 1.
Proof. destruct pc; simpl; lia. Qed.
Lemma ender_range pc : 0 <= ender pc <= 1.
Proof. destruct pc; simpl; lia. Qed.

Lemma total_nonneg_of f l : (forall x, 0 <= f x <= 1) -> 0 <= total f l.
Proof. intros H. apply count_nonneg. apply H. Qed.

(** A step replaces one thread and adds others. *)
Lemma threads_split (l : list thread) me pc pc' :
  l !! me = Some pc -> exists l1 l2, l = l1 ++ pc :: l2 /\ <[me := pc']> l = l1 ++ pc' :: l2 /\ length l1 = me.
Proof.
  intros H. pose proof (lookup_lt_Some _ _ _ H). exists (take me l), (drop (S me) l). split_and!.
  - symmetry. by apply take_drop_middle.
  - rewrite insert_take_drop by done. done.
  - rewrite length_take. lia.
Qed.

Lemma total_step f l me pc pc' started :
  l !! me = Some pc -> total f (<[me := pc']> l ++ started) = total f l - f pc + f pc' + total f started.
Proof.
  intros (l1 & l2 & -> & -> & _)%(threads_split _ _ _ pc'). rewrite !count_app. simpl. unfold total. lia.
Qed.
Lemma total_snoc f l x : total f (l ++ [x]) = total f l + f x.
Proof. rewrite count_app. simpl. lia. Qed.

(** ** The counters behind [Close] *)

Record ctl (s : System) : Prop := {
  ct_done : doneClosed (tr s) = closed (tr s);
  ct_closed : closed (tr s) = true -> outConns (tr s) = None /\ inConns (tr s) = None /\ listening (tr s) = false;
  ct_open : closed (tr s) = false -> is_Some (outConns (tr s)) /\ is_Some (inConns (tr s));
  ct_wg : wg (tr s) = total worker (threads s);
  ct_close : total closer (threads s) + when (incomingClosed (tr s)) <= when (closed (tr s));
  ct_end : 0 < total ender (threads s) + when (incomingClosed (tr s)) -> wg (tr s) = 0
}.

(** The cases of one step of a thread. *)
Ltac exec_cases H :=
  match type of H with exec _ ?pc ?a _ = _ => destruct pc, a; try discriminate H end;
  cbn [exec acceptLoop handleConn_ Send Close] in H;
  unfold registerAccepted, registerDialed, getConn, dropConn, Close_begin, Close_end, deliver_send, deliver_done, forgetAccepted,
    wg_Add, wg_Done, conn_Write, conn_Close, on_conn, open_conn, next, blocked, st_bind, ret, modify, fail in H;
  cbv beta iota in H;
  repeat (match type of H with
          | context [match ?x with _ => _ end] =>
              lazymatch x with context [match _ with _ => _ end] => fail | _ => let E := fresh "E" in destruct x eqn:E end
          end; cbv beta iota in H);
  try discriminate H; injection H as <- <- <-.

Lemma total_here f l me pc : (forall x, 0 <= f x <= 1) -> l !! me = Some pc -> f pc <= total f l.
Proof. intros Hf H. apply total_elem; [intros x; apply Hf | by eapply list_elem_of_lookup_2]. Qed.

Lemma ctl_step P s s' : ctl s -> step P s s' -> ctl s'.
Proof.
  intros Hi Hs. destruct Hs as [s me pc a t' pc' started Hpc Hx | s m ms Hin | s m Hp | s].
  - pose proof (total_here worker _ _ _ worker_range Hpc) as Hhw. pose proof (total_here ender _ _ _ ender_range Hpc) as Hhe.
    revert Hi Hhw Hhe. exec_cases Hx; intros [Hd Hcl Hop Hw Hc He]; (constructor; cbn [tr threads]; rewrite ?(total_step _ _ _ _ _ _ Hpc));
      simpl in *; try done; try lia;
      repeat match goal with E : ?f (tr s) = ?b |- _ => progress (rewrite E in * ) end; simpl in *; try naive_solver lia.
    all: intros Hb; destruct (Hop Hb); split; by eauto.
  - destruct Hi. by constructor.
  - destruct Hi. constructor; simpl; rewrite ?total_snoc; simpl; try done; lia.
  - destruct Hi. constructor; simpl; rewrite ?total_snoc; simpl; try done; lia.
Qed.

Lemma ctl_Listen peers : ctl (mkSystem (Listen peers) [AAccept]).
Proof. by constructor. Qed.
