(* ===== verification/TransportOwn.v ===== *)
(** * Who owns a connection

    Every open connection is in one of the two maps or in the hands of one
    thread, over every interleaving, so that [Close] leaves none behind. *)

From Stdlib Require Import Strings.Byte Strings.String.
From S2P Require Import Prelude GoBytes GoState RaftTypes TransportCodec Transport TransportInv.

(** ** Who owns a connection *)

Definition opened (l : list outboundConn) (c : nat) : Prop := exists x, l !! c = Some x /\ c_open x = true.
Definition cached (o : option (gmap Z nat)) (c : nat) : Prop := exists m id, o = Some m /\ m !! id = Some c.
Definition accepted (o : option (gset nat)) (c : nat) : Prop := exists s, o = Some s /\ c ∈ s.

(** Threads whose locals mention a connection. *)
Definition mentions (c : nat) (pc : thread) : Z :=
  match pc with
  | ARegister d | ADiscard d | ASpawn d | HRead d | HDeliver d _ | HForget d | HClose d
  | SRegister _ d | SLock _ d | SHeader _ d | SPayload _ d | SUnlock _ d _ | Sent _ d => when (bool_decide (d = c))
  | _ => 0
  end.
Lemma mentions_range c pc : 0 <= mentions c pc <= 1.
Proof. destruct pc; simpl; try lia; apply when_range. Qed.

Record owned (s : System) : Prop := {
  ow_known : forall c, (length (net (tr s)) <= c)%nat -> total (mentions c) (threads s) = 0;
  ow_cached : forall c, cached (outConns (tr s)) c -> (c < length (net (tr s)))%nat;
  ow_inbound : forall c, total (inbound c) (threads s) <= 1;
  ow_serves : forall c, 0 < total (serves c) (threads s) -> accepted (inConns (tr s)) c \/ ~ opened (net (tr s)) c;
  ow_open : forall c, opened (net (tr s)) c ->
    accepted (inConns (tr s)) c \/ cached (outConns (tr s)) c \/ 0 < total (holds c) (threads s)
}.

(** How the network and the maps change. *)
Lemma opened_shut l c d : opened (alter shut c l) d <-> opened l d /\ d <> c.
Proof.
  unfold opened. destruct (decide (c = d)) as [->|Hne].
  - rewrite list_lookup_alter_eq. split; [| by intros [_ []]]. 
    by intros (x & (y & _ & ->)%fmap_Some & ?).
  - rewrite list_lookup_alter_ne by done. naive_solver.
Qed.
Lemma opened_same f l c d : (forall x, c_open (f x) = c_open x) -> opened (alter f c l) d <-> opened l d.
Proof.
  intros Hf. unfold opened. destruct (decide (c = d)) as [->|Hne].
  - rewrite list_lookup_alter_eq. destruct (l !! d) as [x|]; simpl; [| done].
    specialize (Hf x). split; intros (y & [= <-] & Ho); eexists; (split; [done | congruence]).
  - by rewrite list_lookup_alter_ne.
Qed.
Lemma opened_new l s d : opened (l ++ [new_conn s]) d <-> opened l d \/ d = length l.
Proof.
  unfold opened. split.
  - intros (x & [Hx | [Hl Hx]]%lookup_app_Some & Ho); [left; by exists x |]. right.
    apply list_lookup_singleton_Some in Hx as [Hx _]. lia.
  - intros [(x & Hx & Ho) | ->]; [exists x; split; [by apply lookup_app_l_Some | done] |].
    exists (new_conn s). by rewrite lookup_app_r, Nat.sub_diag by lia.
Qed.
Lemma opened_write l c x y d p n ok : l !! c = Some x -> write p n x = (y, ok) -> opened (<[c := y]> l) d <-> opened l d.
Proof.
  intros Hx Hw. assert (c_open y = c_open x) as Hy.
  { unfold write in Hw. destruct (_ && _); [destruct n |]; by simplify_eq. }
  unfold opened. destruct (decide (c = d)) as [->|Hne].
  - rewrite list_lookup_insert_eq by (by eapply lookup_lt_Some). rewrite Hx.
    split; intros (z & [= <-] & Ho); eexists; (split; [done | congruence]).
  - by rewrite list_lookup_insert_ne.
Qed.
Lemma opened_shut_all cs l d : opened (foldr (alter shut) l cs) d <-> opened l d /\ d ∉ cs.
Proof.
  induction cs as [|c cs IH]; simpl; [set_solver |]. rewrite opened_shut, IH. set_solver.
Qed.
Lemma length_shut_all cs l : length (foldr (alter shut) l cs) = length l.
Proof. induction cs as [|c cs IH]; simpl; [done | by rewrite length_alter]. Qed.

Lemma cached_insert m id c d : m !! id = None -> cached (Some (<[id := c]> m)) d <-> cached (Some m) d \/ d = c.
Proof.
  intros Hm. unfold cached. split.
  - intros (? & i & [= <-] & [[-> ->] | [Hne Hi]]%lookup_insert_Some); [by right |]. left. by exists m, i.
  - intros [(? & i & [= <-] & Hi) | ->].
    + exists (<[id := c]> m), i. split; [done |]. rewrite lookup_insert_ne; [done | congruence].
    + exists (<[id := c]> m), id. by rewrite lookup_insert_eq.
Qed.
Lemma cached_delete m id c d :
  m !! id = Some c -> (cached (Some (delete id m)) d -> cached (Some m) d) /\ (cached (Some m) d -> cached (Some (delete id m)) d \/ d = c).
Proof.
  intros Hm. unfold cached. split.
  - intros (? & i & [= <-] & [_ Hi]%lookup_delete_Some). by exists m, i.
  - intros (? & i & [= <-] & Hi). destruct (decide (i = id)) as [->|Hne]; [right; congruence |]. left.
    exists (delete id m), i. by rewrite lookup_delete_ne.
Qed.
Lemma accepted_Some s d : accepted (Some s) d <-> d ∈ s.
Proof. unfold accepted. split; [by intros (? & [= <-] & H) | intros H; by exists s]. Qed.
Lemma accepted_add s c d : accepted (Some ({[c]} ∪ s)) d <-> d = c \/ accepted (Some s) d.
Proof. rewrite !accepted_Some. set_solver. Qed.
Lemma accepted_del s c d : accepted (Some (s ∖ {[c]})) d <-> accepted (Some s) d /\ d <> c.
Proof. rewrite !accepted_Some. set_solver. Qed.
Lemma values_cached o c : c ∈ values o <-> cached o c.
Proof.
  unfold cached. destruct o as [m|]; simpl; [| by split; [intros ?%elem_of_nil | intros (m & id & ? & _)]]. rewrite list_elem_of_fmap. split.
  - intros ([id x] & -> & Hin). apply elem_of_map_to_list in Hin. by exists m, id.
  - intros (? & id & [= <-] & Hid). exists (id, c). split; [done |]. by apply elem_of_map_to_list.
Qed.
Lemma members_accepted o c : c ∈ members o <-> accepted o c.
Proof.
  destruct o as [s|]; simpl; [rewrite accepted_Some; set_solver |]. by split; [intros ?%elem_of_nil | intros (s & ? & _)].
Qed.

Lemma total_mono f g l : (forall x, f x <= g x) -> total f l <= total g l.
Proof. intros H. induction l as [|x l IH]; simpl; [done |]. specialize (H x). unfold total in *. lia. Qed.

(** One step of a thread, part by part. *)
Section own.
Context (s : System) (me : nat) (pc : thread) (a : answer) (t' : Transport) (pc' : thread) (started : list thread).
Context (Hpc : threads s !! me = Some pc) (Hx : exec me pc a (tr s) = (t', Ok (Some (pc', started)))).
Context (Hi : owned s).

Ltac fields :=
  repeat match goal with
  | E : outConns ?t = _ |- context [outConns ?t] => rewrite E
  | E : inConns ?t = _ |- context [inConns ?t] => rewrite E
  end.
Ltac net_rewrite :=
  repeat first [rewrite opened_shut | rewrite opened_new | rewrite opened_shut_all | rewrite opened_same by done
    | erewrite opened_write by eassumption].

Lemma known_step c : (length (net t') <= c)%nat -> total (mentions c) (<[me := pc']> (threads s) ++ started) = 0.
Proof.
  rewrite (total_step _ _ _ _ _ _ Hpc). pose proof (ow_known _ Hi c) as Hk. pose proof (ow_cached _ Hi c) as Hca.
  assert (mentions c pc <= total (mentions c) (threads s)) as Hm by (eapply total_here; [apply mentions_range | done]).
  clear Hi Hpc. revert Hk Hca Hm. exec_cases Hx; intros Hk Hca Hm; simpl in *; rewrite ?length_alter, ?length_insert, ?length_app, ?length_shut_all in *;
    simpl in *; intros Hc; repeat (case_bool_decide; simplify_eq/=); try lia.
  all: exfalso; assert (cached (Some g) c) as Hc' by (by eexists _, _); specialize (Hca Hc'); lia.
Qed.

Lemma cached_step c : cached (outConns t') c -> (c < length (net t'))%nat.
Proof.
  pose proof (ow_known _ Hi c) as Hk. pose proof (ow_cached _ Hi c) as Hca.
  assert (mentions c pc <= total (mentions c) (threads s)) as Hm by (eapply total_here; [apply mentions_range | done]).
  clear Hi Hpc. revert Hk Hca Hm. exec_cases Hx; intros Hk Hca Hm; simpl in *; rewrite ?length_alter, ?length_insert, ?length_app, ?length_shut_all in *;
    simpl in *; fields; try done; try (intros Hc; specialize (Hca Hc); lia).
  - rewrite cached_insert by done. intros [Hc | ->]; [auto |]. rewrite bool_decide_true in Hm by done. simpl in Hm. lia.
  - intros Hc. by apply Hca, (proj1 (cached_delete g _ _ _ E0)).
  - by intros (? & ? & ? & ?).
Qed.

Lemma inbound_step c : total (inbound c) (<[me := pc']> (threads s) ++ started) <= 1.
Proof.
  rewrite (total_step _ _ _ _ _ _ Hpc). pose proof (ow_known _ Hi c) as Hk. pose proof (ow_inbound _ Hi c) as Hin.
  assert (total (inbound c) (threads s) <= total (mentions c) (threads s)) as Hle.
  { apply total_mono. intros []; simpl; try lia; apply when_range. }
  pose proof (total_here _ _ _ _ (inbound_range c) Hpc) as Hh.
  clear Hi Hpc. revert Hk Hin Hle Hh. exec_cases Hx; intros Hk Hin Hle Hh; simpl in *; try lia; repeat (case_bool_decide; simplify_eq/=); lia.
Qed.

Lemma serves_step c :
  0 < total (serves c) (<[me := pc']> (threads s) ++ started) -> accepted (inConns t') c \/ ~ opened (net t') c.
Proof.
  rewrite (total_step _ _ _ _ _ _ Hpc). pose proof (ow_known _ Hi c) as Hk. pose proof (ow_inbound _ Hi c) as Hin.
  pose proof (ow_serves _ Hi c) as Hse.
  assert (total (serves c) (threads s) <= total (inbound c) (threads s) /\ total (inbound c) (threads s) <= total (mentions c) (threads s)) as [Hle1 Hle2].
  { split; apply total_mono; intros []; simpl; try lia; apply when_range. }
  pose proof (total_here _ _ _ _ (serves_range c) Hpc) as Hh.
  clear Hi Hpc. revert Hk Hin Hse Hle1 Hle2 Hh. exec_cases Hx; intros Hk Hin Hse Hle1 Hle2 Hh; simpl in *; fields; net_rewrite;
    repeat (case_bool_decide; simplify_eq/=); try done; try (intros Hpos; destruct Hse; [lia | tauto | tauto]).
  - intros Hpos. destruct Hse as [?|?]; [lia | by left |]. destruct (decide (length (net (tr s)) <= c)%nat); [lia |]. right. intros [? | ->]; [done | lia].
  - intros _. left. apply accepted_add. by left.
  - intros Hpos. rewrite accepted_add. destruct Hse; [lia | tauto | tauto].
  - lia.
  - intros Hpos. rewrite accepted_del. destruct Hse; [lia | by left | by right].
  - intros Hpos. destruct Hse as [?|?]; [lia | by left |]. destruct (decide (length (net (tr s)) <= c)%nat); [lia |]. right. intros [? | ->]; [done | lia].
  - intros Hpos. right. intros [Ho Hno]. destruct Hse as [Ha|?]; [lia | | done]. destruct Hno. apply elem_of_app. left. by apply members_accepted.
Qed.

Lemma open_step c :
  opened (net t') c ->
  accepted (inConns t') c \/ cached (outConns t') c \/ 0 < total (holds c) (<[me := pc']> (threads s) ++ started).
Proof.
  rewrite (total_step _ _ _ _ _ _ Hpc). pose proof (ow_open _ Hi c) as Hop.
  pose proof (total_here _ _ _ _ (holds_range c) Hpc) as Hh.
  clear Hi Hpc. revert Hop Hh. exec_cases Hx; intros Hop Hh; simpl in *; fields; net_rewrite;
    repeat (case_bool_decide; simplify_eq/=); try (intros Ho; destruct Hop as [?|[?|?]]; [tauto | tauto | tauto | right; right; lia]).
  - intros _. right. right. lia.
  - intros [Ho | ->]; [| done]. destruct Hop as [?|[?|?]]; [done | by left | by right; left | right; right; lia].
  - intros _. left. apply accepted_add. by left.
  - rewrite accepted_add. intros Ho. destruct Hop as [?|[?|?]]; [done | tauto | tauto | right; right; lia].
  - intros _. right. right. lia.
  - rewrite accepted_del. intros Ho. destruct Hop as [?|[?|?]]; [done | left; split; congruence | tauto | right; right; lia].
  - intros _. right. right. lia.
  - intros [Ho | ->]; [| done]. destruct Hop as [?|[?|?]]; [done | by left | by right; left | right; right; lia].
  - intros _. right. left. apply cached_insert; [done | by right].
  - rewrite cached_insert by done. intros Ho. destruct Hop as [?|[?|?]]; [done | tauto | tauto | right; right; lia].
  - intros [Ho Hne]. destruct Hop as [?|[Hc|?]]; [done | by left | | right; right; lia].
    apply (cached_delete g _ _ _ E0) in Hc as [?|?]; [by right; left | done].
  - rewrite elem_of_app, members_accepted, values_cached. intros [Ho Hno]. destruct Hop as [?|[?|?]]; [done | tauto | tauto | right; right; lia].
Qed.
End own.

Lemma owned_step P s s' : owned s -> step P s s' -> owned s'.
Proof.
  intros Hi Hs. destruct Hs as [s me pc a t' pc' started Hpc Hx | s m ms Hin | s m Hp | s].
  - constructor; cbn [tr threads]; intros c.
    + by eapply known_step.
    + by eapply cached_step.
    + by eapply inbound_step.
    + by eapply serves_step.
    + by eapply open_step.
  - destruct Hi. by constructor.
  - destruct Hi. constructor; simpl; intros c; rewrite ?total_snoc; simpl; rewrite ?Z.add_0_r; auto.
  - destruct Hi. constructor; simpl; intros c; rewrite ?total_snoc; simpl; rewrite ?Z.add_0_r; auto.
Qed.

Lemma owned_Listen peers : owned (mkSystem (Listen peers) [AAccept]).
Proof.
  constructor; simpl; intros c; try lia.
  - intros (m & id & [= <-] & Hm). by rewrite lookup_empty in Hm.
  - intros (x & Hx & _). by rewrite lookup_nil in Hx.
Qed.

Lemma transport_inv P peers s : reachable P peers s -> ctl s /\ owned s.
Proof.
  induction 1 as [|s s' _ [Hc Ho] Hs]; [split; [apply ctl_Listen | apply owned_Listen] |].
  split; [by eapply ctl_step | by eapply owned_step].
Qed.
