(* ===== verification/TransportProps.v ===== *)
(** * What the transport promises

    Over every interleaving of its goroutines and callers: no run-time panic,
    no connection left open by [Close], and [Close] returns. *)

From Stdlib Require Import Strings.Byte Strings.String.
From S2P Require Import Prelude GoBytes GoState RaftTypes TransportCodec Transport TransportInv TransportOwn.

(** ** No run-time panic *)

(** The ways a step of a thread can panic. *)
Ltac panic_cases H :=
  match type of H with snd (exec _ ?pc ?a _) = _ => destruct pc, a; try discriminate H end;
  cbn [exec acceptLoop handleConn_ Send Close] in H;
  unfold registerAccepted, registerDialed, getConn, dropConn, Close_begin, Close_end, deliver_send, deliver_done, forgetAccepted,
    wg_Add, wg_Done, conn_Write, conn_Close, on_conn, open_conn, next, blocked, st_bind, ret, modify, fail in H;
  cbv beta iota in H;
  repeat (match type of H with
          | context [match ?x with _ => _ end] =>
              lazymatch x with context [match _ with _ => _ end] => fail | _ => let E := fresh "E" in destruct x eqn:E end
          end; cbv beta iota in H);
  try discriminate H.

Lemma known_conn s me pc c :
  owned s -> threads s !! me = Some pc -> mentions c pc = 1 -> net (tr s) !! c = None -> False.
Proof.
  intros Ho Hpc Hm Hn. apply lookup_ge_None in Hn. pose proof (ow_known _ Ho c Hn).
  pose proof (total_here _ _ _ _ (mentions_range c) Hpc). lia.
Qed.

Lemma exec_no_panic s me pc a : ctl s -> owned s -> threads s !! me = Some pc -> snd (exec me pc a (tr s)) <> Panic.
Proof.
  intros Hc Ho Hpc Hx. pose proof (total_here worker _ _ _ worker_range Hpc) as Hhw.
  pose proof (total_here closer _ _ _ closer_range Hpc) as Hhc.
  assert (forall c, mentions c pc = 1 -> net (tr s) !! c <> None) as Hkn by (intros c Hm Hn; by eapply known_conn).
  revert Hc Hhw Hhc Hkn. clear Ho Hpc.
  panic_cases Hx; intros [Hd Hcl Hop Hw Hcc He] Hhw Hhc Hkn; simpl in *.
  all: try (by destruct (Hop E) as [[? ?] [? ?]]; congruence).
  all: try (specialize (Hkn c ltac:(by rewrite bool_decide_true)); by destruct Hkn).
  all: try (apply Z.leb_le in E; lia).
  - by destruct (decodeMessage_spec l) as [? _].
  - by apply (readFramed_no_panic (c_in o)).
  - rewrite E0 in He. pose proof (total_nonneg_of ender (threads s) ender_range). simpl in He. lia.
  - rewrite E in Hcc. pose proof (when_range (closed (tr s))). simpl in Hcc. lia.
Qed.

(** C21: Whatever the interleaving of the accept loop, the readers, any number of
    concurrent calls of [Send] and [Close] and whatever the network answers, no
    goroutine ever panics: nothing is assigned in a map that [Close] has set to
    nil, nothing is sent on the channel of received messages after it was
    closed, no channel is closed twice and the [WaitGroup] never goes negative. *)
Theorem transport_no_panic P peers s me pc a :
  reachable P peers s -> threads s !! me = Some pc -> snd (exec me pc a (tr s)) <> Panic.
Proof. intros [Hc Ho]%transport_inv. by apply exec_no_panic. Qed.

(** A run for the witnesses: a peer connects, a [Send] is dialing while [Close]
    begins, the goroutines end and [Close] returns; the dialed connection is
    about to be found unwanted. *)
Definition close_peers : gmap Z string := {[ 2 := "peer" ]}.
Definition close_begins : list choice :=
  [CallSend sample_message; Run 1 Go; Run 0 (Arrived []); Run 0 Go; Run 0 Go; CallClose; Run 3 Go; Run 1 (Arrived [])].
Definition close_ends : list choice :=
  [Run 0 Failed; Run 0 Go; Run 2 Failed; Run 2 Go; Run 2 Go; Run 2 Go; Run 3 Go; Run 3 Go].
Definition driven (cs : list choice) : System :=
  match drive cs (mkSystem (Listen close_peers) [AAccept]) with Some s => s | None => mkSystem (Listen close_peers) [] end.

Lemma driven_reachable cs :
  is_Some (drive cs (mkSystem (Listen close_peers) [AAccept])) -> reachable (fun _ => True) close_peers (driven cs).
Proof.
  intros [s Hs]. unfold driven. rewrite Hs. eapply drive_reachable; [| constructor | exact Hs]. by apply Forall_true.
Qed.

Lemma transport_no_panic_witness : snd (exec 2 (HRead 0) Go (tr (driven close_begins))) <> Panic.
Proof.
  apply (transport_no_panic (fun _ => True) close_peers).
  - apply driven_reachable. vm_compute. by eexists.
  - vm_compute. reflexivity.
Defined.

(** ** [Close] *)

Lemma total_worker_zero l pc : total worker l = 0 -> pc ∈ l -> worker pc = 0.
Proof.
  intros H Hpc. pose proof (total_elem worker l pc (fun x => proj1 (worker_range x)) Hpc). pose proof (worker_range pc). lia.
Qed.

(** C20: Every connection has an owner, so [Close] leaks none.  At all times an
    open connection is registered as accepted, cached for a peer, or in the
    hands of one thread about to register or close it; once [Close] has
    returned no goroutine of the transport is left and the only connections
    still open are those a [Send] has just dialed and is about to find unwanted. *)
Theorem transport_owns_connections P peers s :
  reachable P peers s ->
  (forall c, opened (net (tr s)) c ->
     accepted (inConns (tr s)) c \/ cached (outConns (tr s)) c \/ exists pc, pc ∈ threads s /\ holds c pc = 1) /\
  (incomingClosed (tr s) = true ->
     (forall pc, pc ∈ threads s -> worker pc = 0) /\
     (forall c, opened (net (tr s)) c -> exists m, SRegister m c ∈ threads s)).
Proof.
  intros [Hc Ho]%transport_inv.
  assert (forall c, opened (net (tr s)) c ->
     accepted (inConns (tr s)) c \/ cached (outConns (tr s)) c \/ exists pc, pc ∈ threads s /\ holds c pc = 1) as Hown.
  { intros c Hopen. destruct (ow_open _ Ho c Hopen) as [?|[?|Hpos]]; [by left | by right; left |]. right. right.
    apply total_pos in Hpos as (pc & Hin & Hpc); [by exists pc | apply holds_range]. }
  split; [done |]. intros Hinc. destruct Hc as [Hd Hcl Hop Hw Hcc He].
  assert (closed (tr s) = true) as Hclosed.
  { rewrite Hinc in Hcc. pose proof (total_nonneg_of closer (threads s) closer_range). destruct (closed (tr s)); [done | simpl in Hcc; lia]. }
  assert (forall pc, pc ∈ threads s -> worker pc = 0) as Hnone.
  { intros pc. apply total_worker_zero. rewrite <- Hw. apply He. rewrite Hinc.
    pose proof (total_nonneg_of ender (threads s) ender_range). simpl. lia. }
  split; [done |]. intros c Hopen. destruct (Hcl Hclosed) as (Hout & Hin & _).
  destruct (Hown c Hopen) as [(? & Ha & _) | [(? & ? & Ha & _) | (pc & Hpc & Hh)]]; [congruence | congruence |].
  specialize (Hnone pc Hpc). destruct pc; simpl in Hnone, Hh; try lia. exists m.
  destruct (bool_decide_reflect (c0 = c)) as [->|]; [done | simpl in Hh; lia].
Qed.

Lemma transport_owns_connections_witness :
  (forall pc, pc ∈ threads (driven (close_begins ++ close_ends)) -> worker pc = 0) /\
  (forall c, opened (net (tr (driven (close_begins ++ close_ends)))) c ->
     exists m, SRegister m c ∈ threads (driven (close_begins ++ close_ends))).
Proof.
  apply (transport_owns_connections (fun _ => True) close_peers).
  - apply driven_reachable. vm_compute. by eexists.
  - vm_compute. reflexivity.
Defined.

(** How many steps a goroutine can still take once the transport is closed. *)
Definition work (pc : thread) : Z :=
  match pc with
  | AAccept => 2 | ARegister _ => 3 | ADiscard _ => 2 | ASpawn _ => 7 | ADone => 1
  | HDeliver _ _ => 5 | HRead _ => 4 | HForget _ => 3 | HClose _ => 2 | HDone => 1
  | _ => 0
  end.

Lemma work_worker pc : worker pc <= work pc <= 7 * worker pc.
Proof. destruct pc; simpl; lia. Qed.

(** In a closed transport a connection a reader serves is closed. *)
Lemma served_closed s me c x pc :
  ctl s -> owned s -> closed (tr s) = true -> threads s !! me = Some pc -> serves c pc = 1 -> net (tr s) !! c = Some x -> c_open x = false.
Proof.
  intros Hc Ho Hcl Hpc Hs Hx. pose proof (total_here _ _ _ _ (serves_range c) Hpc).
  destruct (ct_closed _ Hc Hcl) as (_ & Hin & _).
  destruct (ow_serves _ Ho c ltac:(lia)) as [(? & ? & _) | Hno]; [congruence |].
  destruct (c_open x) eqn:E; [| done]. destruct Hno. by exists x.
Qed.

Lemma work_decreases s me pc a t' pc' started :
  ctl s -> owned s -> closed (tr s) = true -> threads s !! me = Some pc -> exec me pc a (tr s) = (t', Ok (Some (pc', started))) ->
  closed t' = true /\ work pc' + total work started <= work pc - worker pc.
Proof.
  intros Hc Ho Hcl Hpc Hx. destruct (ct_closed _ Hc Hcl) as (_ & _ & Hln).
  assert (forall c x, serves c pc = 1 -> net (tr s) !! c = Some x -> c_open x = false) as Hserv by (intros c x; by apply (served_closed s me c x pc)).
  clear Hc Ho Hpc. revert Hcl Hln Hserv. exec_cases Hx; intros Hcl Hln Hserv; simpl in *; try congruence; try (split; [done | lia]).
  all: rewrite (Hserv c o) in E0; [done | by rewrite bool_decide_true | done].
Qed.

(** In a closed transport no goroutine waits for anything. *)
Lemma worker_goes_on s me pc :
  ctl s -> owned s -> closed (tr s) = true -> threads s !! me = Some pc -> worker pc = 1 ->
  exists a t' pc' started, exec me pc a (tr s) = (t', Ok (Some (pc', started))).
Proof.
  intros Hc Ho Hcl Hpc Hw. pose proof (exec_no_panic s me pc) as Hnp.
  assert (0 < wg (tr s)) as Hpos by (rewrite (ct_wg _ Hc); pose proof (total_here _ _ _ _ worker_range Hpc); lia).
  assert (doneClosed (tr s) = true) as Hdone by (by rewrite (ct_done _ Hc)).
  exists (match pc with AAccept | HRead _ => Failed | HDeliver _ _ => Choose false | _ => Go end).
  destruct pc; simpl in Hw; try lia; cbn [exec acceptLoop handleConn_ Send Close].
  all: unfold registerAccepted, forgetAccepted, deliver_done, wg_Add, wg_Done, conn_Close, on_conn, next, blocked, st_bind, ret, modify.
  all: rewrite ?Hcl, ?Hdone; try by eexists _, _, _.
  all: rewrite (proj2 (Z.leb_gt _ _) Hpos); by eexists _, _, _.
Qed.

(** C19: [Close] terminates.  Once the transport is closed every goroutine it
    started can take a step whatever the network and the reader of [Recv] do,
    each of its steps uses up part of a finite amount of work that no other step
    and no new caller adds to, and when the work is used up the waiting [Close]
    goes on to close the channel of received messages and returns. *)
Theorem close_terminates P peers s :
  reachable P peers s -> closed (tr s) = true ->
  (forall s', step P s s' -> closed (tr s') = true /\ total work (threads s') <= total work (threads s)) /\
  (forall me pc, threads s !! me = Some pc -> worker pc = 1 ->
     (exists a t' pc' started, exec me pc a (tr s) = (t', Ok (Some (pc', started)))) /\
     (forall a t' pc' started, exec me pc a (tr s) = (t', Ok (Some (pc', started))) ->
        total work (<[me := pc']> (threads s) ++ started) < total work (threads s))) /\
  (forall me, threads s !! me = Some CWait -> total work (threads s) = 0 ->
     exec me CWait Go (tr s) = (tr s, Ok (Some (CEnd, []))) /\
     exec me CEnd Go (tr s) = (with_incoming (incoming (tr s)) true (tr s), Ok (Some (Returned, [])))).
Proof.
  intros [Hc Ho]%transport_inv Hcl. split_and!.
  - intros s' Hs. destruct Hs as [s me pc a t' pc' started Hpc Hx | s m ms Hin | s m Hp | s]; simpl; rewrite ?total_snoc; simpl; try by (split; [| lia]).
    destruct (work_decreases _ _ _ _ _ _ _ Hc Ho Hcl Hpc Hx) as [H1 H2]. split; [done |].
    rewrite (total_step _ _ _ _ _ _ Hpc). pose proof (worker_range pc). lia.
  - intros me pc Hpc Hw. split; [by eapply worker_goes_on |]. intros a t' pc' started Hx.
    destruct (work_decreases _ _ _ _ _ _ _ Hc Ho Hcl Hpc Hx) as [_ H2]. rewrite (total_step _ _ _ _ _ _ Hpc). lia.
  - intros me Hme Hwork. assert (wg (tr s) = 0) as Hwg.
    { rewrite (ct_wg _ Hc). pose proof (total_nonneg_of worker (threads s) worker_range).
      pose proof (total_mono worker work (threads s) (fun x => proj1 (work_worker x))). lia. }
    assert (incomingClosed (tr s) = false) as Hinc.
    { pose proof (total_here _ _ _ _ closer_range Hme) as H1. simpl in H1. pose proof (ct_close _ Hc) as H2. rewrite Hcl in H2.
      destruct (incomingClosed (tr s)); [simpl in H2; lia | done]. }
    cbn [exec acceptLoop handleConn_ Send Close]. unfold Close_end, st_bind, next, ret. rewrite Hwg, Hinc. done.
Qed.

Lemma close_terminates_witness :
  total work (threads (driven close_begins)) = 6 /\
  exists a t' pc' started, exec 2 (HRead 0) a (tr (driven close_begins)) = (t', Ok (Some (pc', started))).
Proof.
  split; [vm_compute; reflexivity |].
  apply (close_terminates (fun _ => True) close_peers (driven close_begins)).
  - apply driven_reachable. vm_compute. by eexists.
  - vm_compute. reflexivity.
  - vm_compute. reflexivity.
  - reflexivity.
Defined.

(** ** A failure can drop a healthy connection *)

(** [dropConn] goes by peer, not by connection.  Two [Send]s share a connection
    that breaks; the first drops it, a third dials a fresh one and succeeds on
    it, then the second reports its failure and closes the fresh connection. *)
Definition stale_failure : list choice :=
  [CallSend sample_message; CallSend sample_message; Run 1 Go; Run 1 (Arrived []); Run 1 Go; Run 2 Go;
   Run 1 Go; Run 1 (Wrote (Some 0%nat)); Run 1 Go; Run 2 Go; Run 2 (Wrote None); Run 2 Go; Run 1 Go;
   CallSend sample_message; Run 3 Go; Run 3 (Arrived []); Run 3 Go; Run 3 Go; Run 3 (Wrote None); Run 3 (Wrote None); Run 3 Go].

Lemma stale_failure_drops_fresh_connection :
  threads (driven stale_failure) !! 3%nat = Some (Sent sample_message 1) /\
  (match outConns (tr (driven stale_failure)) with Some m => m !! 2 | None => None end) = Some 1%nat /\
  (c_open <$> net (tr (driven stale_failure)) !! 1%nat) = Some true /\
  let s := driven (stale_failure ++ [Run 2 Go]) in
  (match outConns (tr s) with Some m => m !! 2 | None => None end) = None /\
  ((fun x => (c_open x, c_bad x)) <$> net (tr s) !! 1%nat) = Some (false, false).
Proof. vm_compute. split_and!; reflexivity. Qed.
