(* ===== verification/TransportFrames.v ===== *)
(** * Frames survive concurrent senders

    A frame is two writes, and any number of goroutines send to the same peer
    over one connection.  The lock of the connection keeps each frame in one
    piece, so that whatever part of the stream reaches the peer decodes to
    messages that were sent, in the order in which they were written. *)

From Stdlib Require Import Strings.Byte Strings.String.
From S2P Require Import Prelude GoBytes GoState RaftTypes TransportCodec Transport TransportInv TransportOwn.

(** ** The invariant *)

(** The connection whose lock a thread holds, the message it carries, and
    what it knows to be written. *)
Definition locks (pc : thread) : option nat :=
  match pc with SHeader _ c | SPayload _ c | SUnlock _ c _ => Some c | _ => None end.
Definition carries (pc : thread) : option Message.t :=
  match pc with
  | SStart m | SDial m | SRegister m _ | SLock m _ | SHeader m _ | SPayload m _ | SUnlock m _ _ | SDrop m => Some m
  | _ => None
  end.
Definition told (pc : thread) : option (Message.t * nat) :=
  match pc with SUnlock m c true | Sent m c => Some (m, c) | _ => None end.

Section frames.
Context (P : Message.t -> Prop).

(** Whole frames, and after them at most the beginning of one on a connection
    that no longer accepts writes. *)
Definition whole (x : outboundConn) : Prop :=
  exists tail, c_out x = frames (c_log x) ++ tail /\
  (tail = [] \/ (c_bad x = true \/ c_open x = false) /\ exists m, P m /\ tail `prefix_of` frame (encodeMessage m)).

(** Between the two writes only the holder of the lock knows the tail. *)
Definition midway (pc : thread) (x : outboundConn) : Prop :=
  match pc with
  | SPayload m _ => c_out x = frames (c_log x) ++ put_u32 (len (encodeMessage m)) /\ c_bad x = false
  | _ => whole x
  end.

Record framed (s : System) : Prop := {
  fr_carries : forall t pc m, threads s !! t = Some pc -> carries pc = Some m -> P m;
  fr_locks : forall t pc c, threads s !! t = Some pc -> locks pc = Some c -> exists x, net (tr s) !! c = Some x /\ c_mu x = Some t;
  fr_told : forall t pc m c, threads s !! t = Some pc -> told pc = Some (m, c) -> exists x, net (tr s) !! c = Some x /\ m ∈ c_log x;
  fr_conn : forall c x, net (tr s) !! c = Some x -> Forall P (c_log x) /\
    match c_mu x with
    | None => whole x
    | Some t => exists pc, threads s !! t = Some pc /\ locks pc = Some c /\ midway pc x
    end
}.

(** ** Steps outside the lock *)

(** The streams are as they were; a connection may have been closed, and a new
    one has written nothing. *)
Definition same (x x' : outboundConn) : Prop :=
  c_mu x' = c_mu x /\ c_out x' = c_out x /\ c_log x' = c_log x /\ c_bad x' = c_bad x /\ (c_open x = false -> c_open x' = false).
Definition same_streams (l l' : list outboundConn) : Prop :=
  (forall c x, l !! c = Some x -> exists x', l' !! c = Some x' /\ same x x') /\
  (forall c x', l' !! c = Some x' -> l !! c = None -> c_mu x' = None /\ c_out x' = [] /\ c_log x' = []).

Lemma same_streams_refl l : same_streams l l.
Proof. split; [intros c x Hx; by exists x | congruence]. Qed.
Lemma same_streams_trans l1 l2 l3 : length l1 = length l2 -> same_streams l1 l2 -> same_streams l2 l3 -> same_streams l1 l3.
Proof.
  intros Hlen [H1 _] [H2 H2']. split.
  - intros c x Hx. destruct (H1 c x Hx) as (y & Hy & Hxy), (H2 c y Hy) as (z & Hz & Hyz). exists z. split; [done |].
    destruct Hxy as (?&?&?&?&?), Hyz as (?&?&?&?&?). unfold same. split_and!; try congruence. auto.
  - intros c x' Hx' Hn. apply (H2' c x' Hx'). apply lookup_ge_None. rewrite <- Hlen. by apply lookup_ge_None.
Qed.
Lemma same_streams_alter f c l : (forall x, same x (f x)) -> same_streams l (alter f c l).
Proof.
  intros Hf. split.
  - intros d x Hx. destruct (decide (c = d)) as [->|Hne].
    + exists (f x). by rewrite list_lookup_alter_eq, Hx.
    + exists x. by rewrite list_lookup_alter_ne.
  - intros d x' Hx' Hn. exfalso. apply lookup_lt_Some in Hx'. rewrite length_alter in Hx'. apply lookup_ge_None in Hn. lia.
Qed.
Lemma same_streams_new l s : same_streams l (l ++ [new_conn s]).
Proof.
  split.
  - intros c x Hx. exists x. split; [by apply lookup_app_l_Some | done].
  - intros c x' [Hx' | [Hl Hx']]%lookup_app_Some Hn; [congruence |]. by apply list_lookup_singleton_Some in Hx' as [_ <-].
Qed.
Lemma same_streams_shut_all cs l : same_streams l (foldr (alter shut) l cs).
Proof.
  induction cs as [|c cs IH]; simpl; [apply same_streams_refl |].
  eapply same_streams_trans; [symmetry; apply length_shut_all | exact IH |]. by apply same_streams_alter.
Qed.

Lemma whole_same x x' : same x x' -> whole x -> whole x'.
Proof.
  intros (Hmu & Ho & Hl & Hb & Hop) (tail & Ht & Hrest). exists tail. rewrite Ho, Hl, Hb. split; [done |].
  destruct Hrest as [?|[[?|?] ?]]; [by left | right; auto | right; auto].
Qed.
Lemma midway_same pc x x' : same x x' -> midway pc x -> midway pc x'.
Proof.
  intros Hs. pose proof Hs as (Hmu & Ho & Hl & Hb & Hop). destruct pc; simpl; try by apply whole_same. by rewrite Ho, Hl, Hb.
Qed.

(** A step that neither holds nor takes a lock. *)
Lemma framed_same s me pc t' pc' started :
  framed s -> threads s !! me = Some pc -> same_streams (net (tr s)) (net t') ->
  locks pc = None -> locks pc' = None -> Forall (fun p => locks p = None /\ carries p = None /\ told p = None) started ->
  told pc' = None -> (forall m, carries pc' = Some m -> carries pc = Some m) ->
  framed (mkSystem t' (<[me := pc']> (threads s) ++ started)).
Proof.
  intros [Hca Hlo Hto Hco] Hpc [Hsame Hnew] Hl Hl' Hst Ht' Hc'. rewrite Forall_forall in Hst.
  assert (forall t p, (<[me := pc']> (threads s) ++ started) !! t = Some p ->
    (t <> me /\ threads s !! t = Some p) \/ p = pc' \/ p ∈ started) as Hth.
  { intros t p [Hp | [_ Hp]]%lookup_app_Some; [| right; right; by eapply list_elem_of_lookup_2].
    apply list_lookup_insert_Some in Hp as [(-> & -> & _) | [Hne Hp]]; [by right; left | by left]. }
  constructor; cbn [tr threads].
  - intros t p m Hp Hm. apply Hth in Hp as [[_ Hp] | [-> | Hp]]; [by eapply Hca | by eapply Hca; [exact Hpc | apply Hc'] |].
    apply Hst in Hp as (_ & ? & _). congruence.
  - intros t p c Hp Hm. apply Hth in Hp as [[_ Hp] | [-> | Hp]]; [| congruence | apply Hst in Hp as (? & _ & _); congruence].
    destruct (Hlo t p c Hp Hm) as (x & Hx & Hmu). destruct (Hsame c x Hx) as (x' & Hx' & Hmu' & _). exists x'. split; congruence.
  - intros t p m c Hp Hm. apply Hth in Hp as [[_ Hp] | [-> | Hp]]; [| congruence | apply Hst in Hp as (_ & _ & ?); congruence].
    destruct (Hto t p m c Hp Hm) as (x & Hx & Hin). destruct (Hsame c x Hx) as (x' & Hx' & _ & _ & Hlog & _). exists x'. by rewrite Hlog.
  - intros c x' Hx'. destruct (net (tr s) !! c) as [x|] eqn:Hx.
    + destruct (Hsame c x Hx) as (y & Hy & Hxy). assert (y = x') as -> by congruence. pose proof Hxy as (Hmu & _ & Hlog & _).
      destruct (Hco c x Hx) as [HP Hmid]. rewrite Hlog, Hmu. split; [done |]. destruct (c_mu x) as [t|]; [| by eapply whole_same].
      destruct Hmid as (p & Hp & Hpl & Hpm). exists p. split_and!; [| done | by eapply midway_same].
      apply lookup_app_l_Some. rewrite list_lookup_insert_ne; [done | congruence].
    + destruct (Hnew c x' Hx' Hx) as (-> & Ho & Hlog). rewrite Hlog. split; [done |]. exists []. rewrite Ho, Hlog. split; [done | by left].
Qed.

(** A step that takes, uses or gives back the lock of [c]. *)
Lemma framed_locked s me pc pc' c x x' t' :
  framed s -> threads s !! me = Some pc -> net (tr s) !! c = Some x -> net t' = <[c := x']> (net (tr s)) ->
  (c_mu x = Some me \/ c_mu x = None) -> (forall d, locks pc = Some d -> d = c) ->
  Forall P (c_log x') -> (forall m, m ∈ c_log x -> m ∈ c_log x') ->
  (forall m, carries pc' = Some m -> carries pc = Some m) ->
  (forall m d, told pc' = Some (m, d) -> d = c /\ m ∈ c_log x') ->
  (locks pc' = Some c /\ c_mu x' = Some me /\ midway pc' x' \/ locks pc' = None /\ c_mu x' = None /\ whole x') ->
  framed (mkSystem t' (<[me := pc']> (threads s) ++ [])).
Proof.
  intros [Hca Hlo Hto Hco] Hpc Hx Hnet Hmu Hone HP Hlog Hc Ht Hnow. rewrite app_nil_r.
  pose proof (lookup_lt_Some _ _ _ Hx) as Hlen. pose proof (lookup_lt_Some _ _ _ Hpc) as Hme.
  constructor; cbn [tr threads]; rewrite ?Hnet.
  - intros t p m [(-> & -> & _) | [Hne Hp]]%list_lookup_insert_Some Hm; [by eapply Hca; [exact Hpc | apply Hc] | by eapply Hca].
  - intros t p d [(-> & -> & _) | [Hne Hp]]%list_lookup_insert_Some Hm.
    + destruct Hnow as [(Hl & Hmu' & _) | (Hl & _)]; [| congruence]. assert (d = c) as -> by congruence. exists x'.
      by rewrite list_lookup_insert_eq.
    + destruct (Hlo t p d Hp Hm) as (y & Hy & Hyt). exists y. split; [| done]. rewrite list_lookup_insert_ne; [done |].
      intros ->. assert (y = x) as -> by congruence. destruct Hmu; congruence.
  - intros t p m d [(-> & -> & _) | [Hne Hp]]%list_lookup_insert_Some Hm.
    + destruct (Ht m d Hm) as [-> Hin]. exists x'. by rewrite list_lookup_insert_eq.
    + destruct (Hto t p m d Hp Hm) as (y & Hy & Hin). destruct (decide (d = c)) as [->|Hdc].
      * assert (y = x) as -> by congruence. exists x'. rewrite list_lookup_insert_eq by done. auto.
      * exists y. by rewrite list_lookup_insert_ne.
  - intros d y [(-> & -> & _) | [Hne Hy]]%list_lookup_insert_Some.
    + split; [done |]. destruct Hnow as [(Hl & -> & Hm) | (Hl & -> & Hw)]; [| done]. exists pc'. by rewrite list_lookup_insert_eq.
    + destruct (Hco d y Hy) as [HPy Hmid]. split; [done |]. destruct (c_mu y) as [t|] eqn:Hyt; [| done].
      destruct Hmid as (p & Hp & Hpl & Hpm). exists p. split_and!; [| done | done]. rewrite list_lookup_insert_ne; [done |].
      intros ->. assert (p = pc) as -> by congruence. apply Hne. symmetry. by apply Hone.
Qed.

(** ** The writes *)

Lemma frames_snoc ms m : frames (ms ++ [m]) = frames ms ++ frame (encodeMessage m).
Proof. unfold frames. rewrite map_app, concat_app. cbn [map concat]. by rewrite app_nil_r. Qed.

Lemma take_prefix {A} n (l : list A) : take n l `prefix_of` l.
Proof. exists (drop n l). by rewrite take_drop. Qed.

Lemma header_write m n x y ok :
  P m -> whole x -> write (put_u32 (len (encodeMessage m))) n x = (y, ok) ->
  c_mu y = c_mu x /\ c_log y = c_log x /\
  if ok then c_out y = frames (c_log y) ++ put_u32 (len (encodeMessage m)) /\ c_bad y = false else whole y.
Proof.
  intros Hm (tail & Ho & Ht). unfold write. destruct (c_open x && negb (c_bad x)) eqn:Hw.
  - apply andb_prop in Hw as [Hop Hb]. assert (tail = []) as ->.
    { destruct Ht as [?|[[Hb'|?] _]]; [done | by rewrite Hb' in Hb | congruence]. }
    rewrite app_nil_r in Ho. destruct n as [n|]; intros [= <- <-]; simpl; rewrite Ho; [| done]. split_and!; [done | done |].
    exists (take n (put_u32 (len (encodeMessage m)))). split; [done |]. right. split; [by left |]. exists m. split; [done |].
    etrans; [apply take_prefix |]. apply prefix_app_r. done.
  - intros [= <- <-]. split_and!; [done | done |]. by exists tail.
Qed.

Lemma payload_write m n x y ok :
  P m -> c_out x = frames (c_log x) ++ put_u32 (len (encodeMessage m)) -> c_bad x = false -> write (encodeMessage m) n x = (y, ok) ->
  c_mu y = c_mu x /\ c_log y = c_log x /\ whole (if ok then logged m y else y).
Proof.
  intros Hm Ho Hb. unfold write. rewrite Hb. destruct (c_open x) eqn:Hop; cbn [andb negb].
  - destruct n as [n|]; intros [= <- <-]; cbn [c_mu c_log]; (split_and!; [done | done |]).
    + exists (put_u32 (len (encodeMessage m)) ++ take n (encodeMessage m)). cbn [c_out c_log]. rewrite Ho, <- app_assoc. split; [done |].
      right. split; [by left |]. exists m. split; [done |]. apply prefix_app, take_prefix.
    + exists []. cbn [c_out c_log logged]. split; [| by left]. unfold frames. rewrite Ho, map_app, concat_app. cbn [map concat]. unfold frame, frames.
      by rewrite !app_nil_r, <- !app_assoc.
  - intros [= <- <-]. split_and!; [done | done |]. exists (put_u32 (len (encodeMessage m))). split; [done |]. right.
    split; [by right |]. exists m. split; [done |]. by apply prefix_app_r.
Qed.

Lemma alter_insert (f : outboundConn -> outboundConn) (c : nat) (l : list outboundConn) x : l !! c = Some x -> alter f c l = <[c := f x]> l.
Proof. revert c. induction l as [|y l IH]; intros [|c] H; simplify_eq/=; [done |]. f_equal. by apply IH. Qed.

(** The step that waits for a lock. *)
Definition takes (pc : thread) : bool := match pc with SLock _ _ => true | _ => false end.

Lemma framed_exec s me pc a t' pc' started :
  framed s -> threads s !! me = Some pc -> exec me pc a (tr s) = (t', Ok (Some (pc', started))) ->
  framed (mkSystem t' (<[me := pc']> (threads s) ++ started)).
Proof.
  intros Hf Hpc Hx.
  assert (forall c, locks pc = Some c -> exists x, net (tr s) !! c = Some x /\ c_mu x = Some me /\ Forall P (c_log x) /\ midway pc x) as Hmine.
  { intros c Hl. destruct (fr_locks _ Hf me pc c Hpc Hl) as (x & Hnx & Hmu). exists x. split_and!; [done | done | by apply (fr_conn _ Hf c) |].
    destruct (fr_conn _ Hf c x Hnx) as [_ Hmid]. rewrite Hmu in Hmid. destruct Hmid as (p & Hp & _ & Hm). by assert (p = pc) as -> by congruence. }
  assert (forall m, carries pc = Some m -> P m) as HPm by (intros m; by apply (fr_carries _ Hf me pc m)).
  destruct (locks pc) as [c|] eqn:Hl; [| destruct (takes pc) eqn:Htk].
  - destruct (Hmine c eq_refl) as (x & Hnx & Hmu & HPx & Hmid). clear Hmine. destruct pc; try discriminate Hl; injection Hl as ->;
      destruct a; try discriminate Hx; specialize (HPm m eq_refl); simpl in Hmid.
    + cbn [exec acceptLoop handleConn_ Send Close] in Hx. unfold st_bind, conn_Write in Hx. rewrite Hnx in Hx. destruct (write _ n x) as [y ok] eqn:Hw.
      destruct (header_write _ _ _ _ _ HPm Hmid Hw) as (Hy1 & Hy2 & Hy3). injection Hx as <- <- <-.
      eapply (framed_locked s me _ _ c x y); try done; [by left | by intros ? [= ->] | by rewrite Hy2 | by rewrite Hy2 | by destruct ok | by destruct ok |].
      left. rewrite Hy1. by destruct ok.
    + cbn [exec acceptLoop handleConn_ Send Close] in Hx. unfold st_bind, conn_Write in Hx. rewrite Hnx in Hx. destruct (write _ n x) as [y ok] eqn:Hw.
      destruct Hmid as [Hm1 Hm2]. destruct (payload_write _ _ _ _ _ HPm Hm1 Hm2 Hw) as (Hy1 & Hy2 & Hy3).
      assert (net (with_net (<[c := y]> (net (tr s))) (tr s)) !! c = Some y) as Hny by (apply list_lookup_insert_eq; by eapply lookup_lt_Some).
      assert (pc' = SUnlock m c ok /\ started = [] /\ net t' = <[c := if ok then logged m y else y]> (net (tr s))) as (-> & -> & Hnet).
      { destruct ok; injection Hx as <- <- <-; [| done]. split_and!; [done | done |]. cbn [net with_net].
        rewrite (alter_insert (logged m) c _ y) by done. apply list_insert_insert_eq. }
      eapply (framed_locked s me _ (SUnlock m c ok) c x (if ok then logged m y else y)); try done.
      * by left.
      * by intros ? [= ->].
      * destruct ok; simpl; rewrite Hy2; [apply Forall_app; split; [done | by constructor] | done].
      * intros m' Hin. destruct ok; simpl; rewrite Hy2; [by apply elem_of_app; left | done].
      * intros m' d Hd. destruct ok; [| done]. injection Hd as <- <-. split; [done |]. simpl. apply elem_of_app. right. by left.
      * left. split_and!; [done | | done]. destruct ok; simpl; congruence.
    + cbn [exec acceptLoop handleConn_ Send Close] in Hx. unfold on_conn, modify, st_bind in Hx. injection Hx as <- <- <-.
      eapply (framed_locked s me _ _ c x (hold None x)); try done; [cbn; by apply alter_insert | by left | by intros ? [= ->] | by destruct ok | | by right; destruct ok].
      intros m' d Hd. destruct ok; [| done]. injection Hd as <- <-. split; [done |].
      destruct (fr_told _ Hf me (SUnlock m c true) m c Hpc eq_refl) as (y & Hy & Hin). by assert (y = x) as -> by congruence.
  - destruct pc; try discriminate Htk. destruct a; try discriminate Hx. cbn [exec acceptLoop handleConn_ Send Close] in Hx.
    destruct (net (tr s) !! c) as [x|] eqn:Hnx; [| done]. destruct (c_mu x) eqn:Hmu; [done |].
    unfold on_conn, modify, st_bind in Hx. injection Hx as <- <- <-. destruct (fr_conn _ Hf c x Hnx) as [HPx Hw]. rewrite Hmu in Hw.
    eapply (framed_locked s me _ _ c x (hold (Some me) x)); try done; [cbn; by apply alter_insert | by right |]. by left.
  - clear Hmine. revert Hf HPm. exec_cases Hx; intros Hf _; try done.
    all: eapply framed_same; [exact Hf | exact Hpc | | done | done | by repeat constructor | done | done]; simpl.
    all: first [apply same_streams_refl | apply same_streams_new | by apply same_streams_alter | apply same_streams_shut_all].
Qed.

(** A new caller. *)
Lemma framed_call s pc :
  framed s -> locks pc = None -> told pc = None -> (forall m, carries pc = Some m -> P m) ->
  framed (mkSystem (tr s) (threads s ++ [pc])).
Proof.
  intros [Hca Hlo Hto Hco] Hl Ht Hc.
  assert (forall t p, (threads s ++ [pc]) !! t = Some p -> threads s !! t = Some p \/ p = pc) as Hth.
  { intros t p [Hp | [_ Hp]]%lookup_app_Some; [by left |]. apply list_lookup_singleton_Some in Hp as [_ ->]. by right. }
  constructor; cbn [tr threads].
  - intros t p m Hp Hm. apply Hth in Hp as [Hp | ->]; [by eapply Hca | by apply Hc].
  - intros t p c Hp Hm. apply Hth in Hp as [Hp | ->]; [by eapply Hlo | congruence].
  - intros t p m c Hp Hm. apply Hth in Hp as [Hp | ->]; [by eapply Hto | congruence].
  - intros c x Hx. destruct (Hco c x Hx) as [HP Hm]. split; [done |]. destruct (c_mu x) as [t|]; [| done].
    destruct Hm as (p & Hp & ?). exists p. split; [by apply lookup_app_l_Some | done].
Qed.

Lemma framed_step s s' : framed s -> step P s s' -> framed s'.
Proof.
  intros Hf Hs. destruct Hs as [s me pc a t' pc' started Hpc Hx | s m ms Hin | s m Hp | s].
  - by eapply framed_exec.
  - destruct Hf. by constructor.
  - apply framed_call; [done | done | done |]. by intros ? [= <-].
  - by apply framed_call.
Qed.

Lemma framed_reachable peers s : reachable P peers s -> framed s.
Proof.
  induction 1 as [|s s' _ Hf Hs]; [| by eapply framed_step]. constructor; simpl.
  - by intros [|[|]] pc m [= <-].
  - by intros [|[|]] pc c [= <-].
  - by intros [|[|]] pc m c [= <-].
  - intros c x Hx. by rewrite lookup_nil in Hx.
Qed.

(** What has been written on a connection starts whole frames and at most one
    more. *)
Lemma framed_stream s c x : framed s -> net (tr s) !! c = Some x ->
  exists ms, (ms = c_log x \/ exists m, ms = c_log x ++ [m]) /\ Forall P ms /\ c_out x `prefix_of` frames ms /\
    frames (c_log x) `prefix_of` c_out x.
Proof.
  intros Hf Hx. destruct (fr_conn _ Hf c x Hx) as [HP Hmid].
  assert (whole x \/ exists m, P m /\ c_out x = frames (c_log x) ++ put_u32 (len (encodeMessage m))) as [Hw | (m & Hm & Ho)].
  { destruct (c_mu x) as [t|]; [| by left]. destruct Hmid as (pc & Hpc & _ & Hmid). destruct pc; try by left.
    right. exists m. split; [| apply Hmid]. by eapply (fr_carries _ Hf). }
  - destruct Hw as (tail & Ho & [-> | (_ & m & Hm & Hp)]).
    + exists (c_log x). rewrite Ho, app_nil_r. split_and!; [by left | done..].
    + exists (c_log x ++ [m]). rewrite Ho, frames_snoc. split_and!; [right; by eexists | apply Forall_app; split; [done | by constructor] | by apply prefix_app | by apply prefix_app_r].
  - exists (c_log x ++ [m]). rewrite Ho, frames_snoc.
    split_and!; [right; by eexists | apply Forall_app; split; [done | by constructor] | | by apply prefix_app_r].
    apply prefix_app. by apply prefix_app_r.
Qed.
End frames.

(** C18: Concurrent senders do not corrupt the stream.  Let [P] hold of every
    message that [Send] is called with (messages with 64-bit integers and
    encodings below 4 GiB).  Whatever the interleaving of any number of calls,
    the failures of the network and the closing of connections, the messages a
    peer decodes from any part of a connection's stream that reaches it are
    those written on it completely, in the order in which they were written,
    possibly followed by the one that was being written: each is one that [Send]
    was called with, intact.  When the whole stream arrives and no message
    written on it is larger than the 64 MiB that the receiver accepts, they
    include every message whose [Send] on it reported success. *)
Theorem concurrent_sends_intact (P : Message.t -> Prop) peers s c x part :
  (forall m, P m -> wire_wf m) -> reachable P peers s -> net (tr s) !! c = Some x -> part `prefix_of` c_out x ->
  exists ms, (ms = c_log x \/ exists m, ms = c_log x ++ [m]) /\ Forall P ms /\ received part `prefix_of` ms /\
    (part = c_out x -> Forall (fun m => len (encodeMessage m) <= maxMessageSize) (c_log x) ->
     forall t m, threads s !! t = Some (Sent m c) -> m ∈ received part).
Proof.
  intros HP Hr%framed_reachable Hx Hpart. destruct (framed_stream _ _ _ _ Hr Hx) as (ms & Hlog & Hms & Hout & Hin).
  exists ms. split_and!; [done | done | |].
  - unfold received. apply handleConn_leading; [by eapply Forall_impl | by etrans | lia].
  - intros -> Hsmall t m Ht. destruct (fr_told _ _ Hr t _ m c Ht eq_refl) as (y & Hy & Hym). assert (y = x) as -> by congruence.
    destruct Hin as [rest Hrest]. assert (c_log x `prefix_of` received (c_out x)) as [k Hk].
    { unfold received. rewrite Hrest. apply handleConn_frames; [| lia]. apply Forall_and. split; [| done].
      destruct (fr_conn _ _ Hr c x Hx) as [Hc _]. by eapply Forall_impl. }
    rewrite Hk. apply elem_of_app. by left.
Qed.

(** Two senders share one connection: the second waits for the lock while the
    first writes, then the connection is cut in the middle of its payload. *)
Definition demo_peers : gmap Z string := {[ 2 := "peer" ]}.
Definition demo_schedule : list choice :=
  [CallSend sample_message; CallSend sample_message; Run 1 Go; Run 1 (Arrived []); Run 1 Go; Run 2 Go; Run 1 Go;
   Run 1 (Wrote None); Run 1 (Wrote None); Run 1 Go; Run 2 Go; Run 2 (Wrote None); Run 2 (Wrote (Some 5%nat))].
Definition demo_system : System :=
  match drive demo_schedule (mkSystem (Listen demo_peers) [AAccept]) with Some s => s | None => mkSystem (Listen demo_peers) [] end.

Lemma demo_system_reachable : reachable (eq sample_message) demo_peers demo_system.
Proof.
  apply (drive_reachable (eq sample_message) demo_peers demo_schedule (mkSystem (Listen demo_peers) [AAccept])).
  - by repeat constructor.
  - constructor.
  - vm_compute. reflexivity.
Qed.

(** The first sender has been told of success, the second was cut off. *)
Lemma concurrent_sends_intact_witness :
  exists x, net (tr demo_system) !! 0%nat = Some x /\ length (c_out x) = 163%nat /\ threads demo_system !! 1%nat = Some (Sent sample_message 0%nat) /\
    sample_message ∈ received (c_out x) /\ exists ms, Forall (eq sample_message) ms /\ received (c_out x) `prefix_of` ms.
Proof.
  assert ((fun x => (length (c_out x), c_log x)) <$> net (tr demo_system) !! 0%nat = Some (163%nat, [sample_message])) as Hlen by (vm_compute; reflexivity).
  destruct (net (tr demo_system) !! 0%nat) as [x|] eqn:Hx; [| discriminate Hlen]. injection Hlen as Hlen Hlog.
  assert (threads demo_system !! 1%nat = Some (Sent sample_message 0%nat)) as Ht by (vm_compute; reflexivity).
  destruct (concurrent_sends_intact (eq sample_message) demo_peers demo_system 0 x (c_out x)) as (ms & _ & Hms & Hp & Hall).
  - intros m <-. apply sample_message_wf.
  - apply demo_system_reachable.
  - exact Hx.
  - done.
  - exists x. split_and!; [done | done | exact Ht | | by exists ms].
    apply (Hall eq_refl) with (t := 1%nat); [rewrite Hlog; repeat constructor; vm_compute; congruence | exact Ht].
Defined.
