(* ===== verification/Command.v ===== *)
(** * Commands in log entries (src/server/command.go)

    The payload of a replicated log entry: one client Put or Delete. *)

From Stdlib Require Import Strings.Byte.
From S2P Require Import Prelude GoBytes.

Module Command.

(** The constants of [commandType]; other bytes can be decoded too. *)
Definition cmdPut : byte := x00.
Definition cmdDelete : byte := x01.

Record command := mk { Type_ : byte; Key : bytes; Value : bytes }.
#[global] Instance command_eq_dec : EqDecision command.
Proof. solve_decision. Defined.

Definition encodeCommand (c : command) : bytes :=
  [Type_ c] ++ put_u32 (len (Key c)) ++ Key c ++ put_u32 (len (Value c)) ++ Value c.

Definition errMalformedCommand : error := Errorf "server: malformed command".

Definition decodeCommand (data : bytes) : res command :=
  if len data <? 5 then Err errMalformedCommand else
  let* ty := index data 0 in
  let* keyLen := get_u32 data 1 in
  if u32 (len data - 5) <? keyLen then Err errMalformedCommand else
  let* key := (if 0 <? keyLen then slice data 5 (5 + keyLen) else Ok []) in
  let off := 5 + keyLen in
  if len data - off <? 4 then Err errMalformedCommand else
  let* valLen := get_u32 data off in
  let off := off + 4 in
  if u32 (len data - off) <? valLen then Err errMalformedCommand else
  let* value := (if 0 <? valLen then slice data off (off + valLen) else Ok []) in
  Ok (mk ty key value).

(** Reading a length-prefixed field that may be empty. *)
Lemma field_hit (l suf : bytes) off :
  off = 0 -> (if 0 <? len l then slice (l ++ suf) off (off + len l) else Ok []) = Ok l.
Proof.
  intros ->. destruct (Z.ltb_spec 0 (len l)); [by apply slice_hit |].
  by rewrite (len_zero l) by (pose_len; lia).
Qed.

Lemma field_skip (pre l : bytes) a n :
  len pre <= a -> (if 0 <? n then slice (pre ++ l) a (a + n) else Ok [])
  = (if 0 <? n then slice l (a - len pre) (a - len pre + n) else Ok []).
Proof. intros. destruct (0 <? n); [| done]. rewrite slice_skip by done. f_equal. lia. Qed.

Lemma decode_encodeCommand c :
  9 + len (Key c) + len (Value c) < 2 ^ 32 -> decodeCommand (encodeCommand c) = Ok c.
Proof.
  intros Hsz. destruct c as [ty k v]. simpl in Hsz. unfold decodeCommand, encodeCommand. simpl Key. simpl Value. simpl Type_.
  pose_len. autorewrite with len. rewrite (proj2 (Z.ltb_ge _ _)) by lia. read_field.
  rewrite !u32_small by (unfold is_u32; lia). rewrite (proj2 (Z.ltb_ge _ _)) by lia.
  rewrite field_skip by len_lia. rewrite field_skip by len_lia. rewrite field_hit by len_lia. cbn [res_bind].
  rewrite (proj2 (Z.ltb_ge _ 4)) by lia. read_field.
  rewrite !u32_small by (unfold is_u32; lia). rewrite (proj2 (Z.ltb_ge _ _)) by lia.
  do 4 (rewrite field_skip by len_lia). pose proof (field_hit v []) as Hhit.
  rewrite app_nil_r in Hhit. rewrite Hhit by len_lia. done.
Qed.

Lemma decodeCommand_no_panic data : no_panic (decodeCommand data).
Proof. unfold decodeCommand. np. Qed.

(** A command survives its trip through the log.  What [encodeCommand]
    writes, [decodeCommand] reads back, for every type byte, key and value
    that together stay below 4 GiB; on any bytes at all the decoder returns a
    command or an error and never reads out of range, and a command it returns
    has no field longer than the input. *)
Theorem command_roundtrip c data :
  9 + len (Key c) + len (Value c) < 2 ^ 32 ->
  decodeCommand (encodeCommand c) = Ok c /\ no_panic (decodeCommand data) /\
  (forall d, decodeCommand data = Ok d -> 9 + len (Key d) + len (Value d) <= len data).
Proof.
  intros Hsz. split.
  - by apply decode_encodeCommand.
  - clear Hsz. split.
    + apply decodeCommand_no_panic.
    + intros d. unfold decodeCommand. destruct (Z.ltb_spec (len data) 5); [done |].
      intros H1. bind_ok H1 ty Hty. bind_ok H1 kl Hkl. revert H1.
      destruct (u32 (len data - 5) <? kl) eqn:E1; [done |]. intros H1. bind_ok H1 k Hk. revert H1.
      destruct (Z.ltb_spec (len data - (5 + kl)) 4); [done |]. intros H1. bind_ok H1 vl Hvl. revert H1.
      destruct (u32 _ <? vl) eqn:E2; [done |]. intros H1. bind_ok H1 v Hv. injection H1 as <-. simpl.
      apply get_u32_inv in Hkl, Hvl. unfold is_u32 in *.
      apply guard_u32 in E1; [| lia]. apply guard_u32 in E2; [| lia].
      assert (forall (n a : Z) (l : bytes), 0 <= n ->
        (if 0 <? n then slice data a (a + n) else Ok []) = Ok l -> len l = n) as Hfield.
      { intros n a l Hn. destruct (Z.ltb_spec 0 n); [intros Hs%slice_len; lia |].
        intros [= <-]. change (len []) with 0. lia. }
      apply Hfield in Hk, Hv; lia.
Qed.

Lemma command_roundtrip_witness :
  decodeCommand (encodeCommand (mk cmdPut [x61] [x78; x79])) = Ok (mk cmdPut [x61] [x78; x79]) /\
  no_panic (decodeCommand [x07]) /\
  (forall d, decodeCommand [x07] = Ok d -> 9 + len (Key d) + len (Value d) <= len [x07]).
Proof. apply command_roundtrip. vm_compute. reflexivity. Defined.

Example put_command_bytes :
  encodeCommand (mk cmdPut [x61] [x78; x79]) = [x00; x01; x00; x00; x00; x61; x02; x00; x00; x00; x78; x79] /\
  decodeCommand [x00; x01; x00; x00; x00; x61; x02; x00; x00; x00; x78] = Err errMalformedCommand.
Proof. split; vm_compute; reflexivity. Qed.

End Command.
