(* ===== verification/GoVarint.v ===== *)
(** * [encoding/binary]'s unsigned varints

    [binary.AppendUvarint] and [binary.Uvarint], which the table format uses
    for lengths and sequence numbers. *)

From Stdlib Require Import Strings.Byte.
From S2P Require Import Prelude GoBytes.

(** [for x >= 0x80 { buf = append(buf, byte(x)|0x80); x >>= 7 }].  A 64-bit
    number takes at most ten bytes. *)
Fixpoint uvarint_bytes (fuel : nat) (x : Z) : bytes :=
  match fuel with
  | O => [to_byte x]
  | S fuel =>
      if 128 <=? x
      then to_byte (Z.lor x 128) :: uvarint_bytes fuel (Z.shiftr x 7)
      else [to_byte x]
  end.

Definition put_uvarint (x : Z) : bytes := uvarint_bytes 9 x.

Definition maxVarintLen64 : Z := 10.

(** The loop of [binary.Uvarint] from byte number [i] on. *)
Fixpoint uvarint_loop (buf : bytes) (i x s : Z) : Z * Z :=
  match buf with
  | [] => (0, 0)
  | b :: buf =>
      if i =? maxVarintLen64 then (0, - (i + 1))
      else if byte_val b <? 128 then
        if (i =? maxVarintLen64 - 1) && (1 <? byte_val b) then (0, - (i + 1))
        else (Z.lor x (u64 (Z.shiftl (byte_val b) s)), i + 1)
      else uvarint_loop buf (i + 1) (Z.lor x (u64 (Z.shiftl (Z.land (byte_val b) 127) s))) (s + 7)
  end.

(** The value and the number of bytes read; a count that is not positive
    reports an error. *)
Definition Uvarint (buf : bytes) : Z * Z := uvarint_loop buf 0 0 0.

#[global] Arguments put_uvarint : simpl never.
#[global] Arguments Uvarint : simpl never.

Lemma lor_shift_add a b s : 0 <= s -> 0 <= a < 2 ^ s -> 0 <= b -> Z.lor a (Z.shiftl b s) = a + b * 2 ^ s.
Proof.
  intros Hs Ha Hb. pose proof (Z.add_lor_land a (Z.shiftl b s)) as Hsum.
  pose proof (Z.shiftl_mul_pow2 b s Hs) as Hmul.
  rewrite <- Hmul. clear Hmul. enough (Z.land a (Z.shiftl b s) = 0) by lia.
  apply Z.bits_inj'. intros n Hn. rewrite Z.land_spec, Z.bits_0.
  destruct (Z.ltb_spec n s).
  - rewrite Z.shiftl_spec_low by lia. apply andb_false_r.
  - destruct (Z.eq_dec a 0) as [-> |]; [by rewrite Z.bits_0 |].
    rewrite (Z.bits_above_log2 a n); [done | lia |].
    apply Z.log2_lt_pow2; [lia |].
    apply Z.lt_le_trans with (2 ^ s); [lia | apply Z.pow_le_mono_r; lia].
Qed.

(** The continuation byte of [x] carries its low seven bits. *)
Lemma cont_byte x :
  0 <= x -> 128 <= byte_val (to_byte (Z.lor x 128)) /\
  Z.land (byte_val (to_byte (Z.lor x 128))) 127 = x mod 128.
Proof.
  intros Hx. rewrite byte_val_to_byte.
  assert (Z.lor x 128 mod 256 = x mod 128 + 128) as ->.
  { change 256 with (2 ^ 8). rewrite <- Z.land_ones by lia.
    assert (Z.land (Z.lor x 128) (Z.ones 8) = Z.lor (x mod 128) (Z.shiftl 1 7)) as ->.
    { change 128 with (2 ^ 7) at 2. rewrite <- (Z.land_ones x 7) by lia.
      apply Z.bits_inj'. intros n Hn. rewrite Z.land_spec, !Z.lor_spec, Z.land_spec.
      rewrite (Z.testbit_ones_nonneg 8), (Z.testbit_ones_nonneg 7) by lia.
      change (Z.shiftl 1 7) with (2 ^ 7). change 128 with (2 ^ 7). rewrite Z.pow2_bits_eqb by lia.
      destruct (Z.eqb_spec 7 n) as [<- |]; [by rewrite !orb_true_r |]. rewrite !orb_false_r.
      destruct (Z.ltb_spec n 8), (Z.ltb_spec n 7); try done; lia. }
    rewrite lor_shift_add; [lia | lia | apply Z.mod_pos_bound; lia | lia]. }
  pose proof (Z.mod_pos_bound x 128 ltac:(lia)). split; [lia |].
  change 127 with (Z.ones 7). rewrite Z.land_ones by lia. change (2 ^ 7) with 128.
  rewrite Z.add_mod, Z.mod_same, Z.add_0_r, !Z.mod_mod by lia. done.
Qed.

Lemma uvarint_loop_bytes fuel : forall x i acc rest,
  Z.of_nat fuel = 9 - i -> 0 <= i -> 0 <= x -> 0 <= acc < 2 ^ (7 * i) -> acc + x * 2 ^ (7 * i) < 2 ^ 64 ->
  uvarint_loop (uvarint_bytes fuel x ++ rest) i acc (7 * i)
  = (acc + x * 2 ^ (7 * i), i + len (uvarint_bytes fuel x)).
Proof.
  induction fuel as [|fuel IH]; intros x i acc rest Hf Hi Hx Hacc Hlt.
  - assert (i = 9) as -> by lia. change (7 * 9) with 63 in *.
    assert (x < 2) by lia. cbn [uvarint_bytes app uvarint_loop].
    rewrite byte_val_to_byte, Z.mod_small by lia. change (9 =? maxVarintLen64) with false. cbv iota.
    rewrite (proj2 (Z.ltb_lt x 128)), (proj2 (Z.ltb_ge 1 x)) by lia. rewrite andb_false_r.
    rewrite u64_small by (unfold is_u64; rewrite Z.shiftl_mul_pow2 by lia; lia).
    rewrite lor_shift_add by lia. done.
  - cbn [uvarint_bytes]. assert (0 < 2 ^ (7 * i)) as Hpos by (apply Z.pow_pos_nonneg; lia).
    destruct (Z.leb_spec 128 x).
    + destruct (cont_byte x Hx) as [Hc Hl]. cbn [app uvarint_loop].
      rewrite (proj2 (Z.eqb_neq i maxVarintLen64)) by (unfold maxVarintLen64; lia).
      rewrite (proj2 (Z.ltb_ge _ 128)) by done. rewrite Hl.
      pose proof (Z.mod_pos_bound x 128 ltac:(lia)) as Hm. pose proof (Z.div_mod x 128 ltac:(lia)) as Hdm.
      assert (2 ^ (7 * (i + 1)) = 128 * 2 ^ (7 * i)) as Hp2.
      { replace (7 * (i + 1)) with (7 + 7 * i) by lia. rewrite Z.pow_add_r by lia. done. }
      assert (0 <= x / 128) by (apply Z.div_pos; lia).
      rewrite u64_small by (unfold is_u64; rewrite Z.shiftl_mul_pow2 by lia; nia).
      rewrite lor_shift_add by lia. replace (7 * i + 7) with (7 * (i + 1)) by lia.
      rewrite Z.shiftr_div_pow2 by lia. change (2 ^ 7) with 128.
      rewrite IH; [| lia | lia | lia | rewrite Hp2; nia | rewrite Hp2; nia].
      rewrite len_cons. f_equal; [rewrite Hp2; nia | lia].
    + cbn [app uvarint_loop].
      rewrite (proj2 (Z.eqb_neq i maxVarintLen64)) by (unfold maxVarintLen64; lia).
      rewrite byte_val_to_byte, Z.mod_small by lia. rewrite (proj2 (Z.ltb_lt x 128)) by lia.
      rewrite (proj2 (Z.eqb_neq i (maxVarintLen64 - 1))) by (unfold maxVarintLen64; lia). simpl andb. cbv iota.
      rewrite u64_small by (unfold is_u64; rewrite Z.shiftl_mul_pow2 by lia; nia).
      rewrite lor_shift_add by lia. done.
Qed.

(** [Uvarint] reads back what [AppendUvarint] wrote, whatever follows. *)
Lemma Uvarint_put x rest : is_u64 x -> Uvarint (put_uvarint x ++ rest) = (x, len (put_uvarint x)).
Proof.
  intros [Hx Hx']. unfold Uvarint, put_uvarint.
  pose proof (uvarint_loop_bytes 9 x 0 0 rest eq_refl) as H. change (7 * 0) with 0 in H.
  rewrite H by lia. f_equal. lia.
Qed.

Lemma uvarint_bytes_len fuel x : 0 < len (uvarint_bytes fuel x) <= 1 + Z.of_nat fuel.
Proof.
  revert x. induction fuel as [|fuel IH]; intros x; cbn [uvarint_bytes]; [unfold len; simpl; lia |].
  destruct (_ <=? _); [| unfold len; simpl; lia]. specialize (IH (Z.shiftr x 7)). rewrite len_cons. lia.
Qed.

Lemma len_put_uvarint x : 0 < len (put_uvarint x) <= 10.
Proof. apply (uvarint_bytes_len 9). Qed.

(** What [Uvarint] accepts lies within the buffer and in range. *)
Lemma uvarint_loop_inv buf : forall i x s v n,
  0 <= i -> 0 <= s -> is_u64 x -> uvarint_loop buf i x s = (v, n) -> 0 < n ->
  is_u64 v /\ i < n <= i + len buf.
Proof.
  assert (forall x b s, is_u64 x -> is_u64 (Z.lor x (u64 (Z.shiftl b s)))) as Hlor.
  { intros x b s Hx. pose proof (u64_range (Z.shiftl b s)) as Hy. revert Hy. generalize (u64 (Z.shiftl b s)).
    intros y Hy. unfold is_u64 in *. split; [apply Z.lor_nonneg; lia |].
    destruct (Z.eq_dec (Z.lor x y) 0) as [-> |]; [lia |].
    assert (0 <= Z.lor x y) by (apply Z.lor_nonneg; lia).
    apply Z.log2_lt_pow2; [lia |]. rewrite Z.log2_lor by lia.
    apply Z.max_lub_lt; match goal with |- Z.log2 ?z < _ => destruct (Z.eq_dec z 0) as [-> |] end;
      first [vm_compute; reflexivity | apply Z.log2_lt_pow2; lia]. }
  induction buf as [|b buf IH]; intros i x s v n Hi Hs Hx; cbn [uvarint_loop].
  { intros [= <- <-]. lia. }
  rewrite len_cons. pose_len. destruct (_ =? _); [intros [= <- <-]; lia |].
  destruct (_ <? _).
  - destruct (_ && _); intros [= <- <-]; [lia |]. intros _. split; [by apply Hlor | lia].
  - intros Hr Hn. apply IH in Hr; [| lia | lia | by apply Hlor | done]. split; [apply Hr | lia].
Qed.

Lemma Uvarint_inv buf v n : Uvarint buf = (v, n) -> 0 < n -> is_u64 v /\ n <= len buf.
Proof.
  intros H Hn. assert (is_u64 0) as H0 by (unfold is_u64; lia).
  apply (uvarint_loop_inv buf 0 0 0) in H as [? ?]; [split; [done | lia] | lia | lia | done | done].
Qed.
