(* ===== verification/Bloom.v ===== *)
(** * The bloom filter of a table (src/sstable/bloom.go)

    The bit array, the double hashing over FNV-1a and splitmix64, and the
    serialised form.  The size and the number of hashes come out of
    floating-point formulas; their results are parameters, so that nothing
    depends on how the platform rounds. *)

From Stdlib Require Import Strings.Byte.
From S2P Require Import Prelude GoBytes.

Module Bloom.

Record bloomFilter := mk { m : Z; k : Z; bits : bytes }.

Definition errCorruptBloom : error := Errorf "sstable: corrupt bloom filter block".

(** ** Hashing *)

(** [fnv.New64a] *)
Definition fnv_offset : Z := 14695981039346656037.
Definition fnv_prime : Z := 1099511628211.
Definition fnv1a (key : bytes) : Z :=
  fold_left (fun h b => u64 (Z.lxor h (byte_val b) * fnv_prime)) key fnv_offset.

Definition splitmix64 (x : Z) : Z :=
  let x := u64 (x + 0x9E3779B97F4A7C15) in
  let x := u64 (Z.lxor x (Z.shiftr x 30) * 0xBF58476D1CE4E5B9) in
  let x := u64 (Z.lxor x (Z.shiftr x 27) * 0x94D049BB133111EB) in
  Z.lxor x (Z.shiftr x 31).

Definition bloomHashes (key : bytes) : Z * Z :=
  let h1 := fnv1a key in (h1, splitmix64 h1).

(** [(h1 + uint64(i)*h2) % b.m] *)
Definition probe (h1 h2 m i : Z) : Z := u64 (h1 + u64 (i * h2)) mod m.

(** ** Building *)

(** The largest allocation of the Go run time on 64-bit platforms: a larger
    [make] panics. *)
Definition maxAlloc : Z := 2 ^ 48.
Definition make_bytes (n : Z) : res bytes :=
  if (0 <=? n) && (n <=? maxAlloc) then Ok (replicate (Z.to_nat n) x00) else Panic.

Section params.
(** [float_bits n]: the value of
    [uint64(math.Ceil(-n * math.Log(rate) / (math.Ln2 * math.Ln2)))];
    [float_hashes m n]: that of [int(math.Round((m/n) * math.Ln2))]. *)
Context (float_bits : Z -> Z) (float_hashes : Z -> Z -> Z).

Definition bloomParams (n : Z) : Z * Z :=
  if n <=? 0 then (0, 0)
  else
    let m := float_bits n in
    let m := if m <? 8 then 8 else m in
    let k := float_hashes m n in
    let k := if k <? 1 then 1 else k in
    let k := if 30 <? k then 30 else k in
    (m, k).

Definition newBloomFilter (expectedEntries : Z) : res bloomFilter :=
  let '(m, k) := bloomParams expectedEntries in
  let* bits := make_bytes (u64 (m + 7) / 8) in
  Ok (mk m k bits).
End params.

(** [b.bits[idx/8] |= 1 << (idx % 8)] *)
Definition set_bit (bits : bytes) (idx : Z) : res bytes :=
  let* b := index bits (idx / 8) in
  Ok (<[Z.to_nat (idx / 8) := to_byte (Z.lor (byte_val b) (Z.shiftl 1 (idx mod 8)))]> bits).

(** The rounds [i], [i+1], ... of the loop, [n] of them. *)
Fixpoint add_loop (n : nat) (h1 h2 m i : Z) (bits : bytes) : res bytes :=
  match n with
  | O => Ok bits
  | S n =>
      let* bits := set_bit bits (probe h1 h2 m i) in
      add_loop n h1 h2 m (i + 1) bits
  end.

Definition add (b : bloomFilter) (key : bytes) : res bloomFilter :=
  if m b =? 0 then Ok b
  else
    let '(h1, h2) := bloomHashes key in
    let* bits := add_loop (Z.to_nat (k b)) h1 h2 (m b) 0 (bits b) in
    Ok (mk (m b) (k b) bits).

Definition test_bit (bits : bytes) (idx : Z) : res bool :=
  let* b := index bits (idx / 8) in
  Ok (negb (Z.land (byte_val b) (Z.shiftl 1 (idx mod 8)) =? 0)).

Fixpoint test_loop (n : nat) (h1 h2 m i : Z) (bits : bytes) : res bool :=
  match n with
  | O => Ok true
  | S n =>
      let* hit := test_bit bits (probe h1 h2 m i) in
      if hit then test_loop n h1 h2 m (i + 1) bits else Ok false
  end.

Definition mayContain (b : bloomFilter) (key : bytes) : res bool :=
  if m b =? 0 then Ok true
  else
    let '(h1, h2) := bloomHashes key in
    test_loop (Z.to_nat (k b)) h1 h2 (m b) 0 (bits b).

(** [for _, k := range w.keys { bf.add(k) }] *)
Fixpoint add_all (b : bloomFilter) (keys : list bytes) : res bloomFilter :=
  match keys with
  | [] => Ok b
  | key :: keys => let* b := add b key in add_all b keys
  end.

(** ** The serialised form *)

Definition encode (b : bloomFilter) : bytes := put_u32 (k b) ++ put_u64 (m b) ++ bits b.

Definition decodeBloomFilter (data : bytes) : res bloomFilter :=
  if len data <? 12 then Err errCorruptBloom
  else
    let* k := get_u32 data 0 in
    let* m := get_u64 data 4 in
    let* bits := slice_from data 12 in
    if negb (len bits =? u64 (m + 7) / 8) then Err errCorruptBloom
    else Ok (mk m k bits).

(** ** Correctness *)

(** A filter whose bit array matches its size. *)
Record wf (b : bloomFilter) : Prop := {
  wf_m : 0 <= m b < 2 ^ 64 - 7;
  wf_k : 0 <= k b < 2 ^ 32;
  wf_bits : len (bits b) = (m b + 7) / 8
}.

Definition bit (bits : bytes) (idx : Z) : bool :=
  match bits !! Z.to_nat (idx / 8) with
  | Some b => Z.testbit (byte_val b) (idx mod 8)
  | None => false
  end.

Lemma land_pow2 a n : 0 <= n -> (Z.land a (Z.shiftl 1 n) =? 0) = negb (Z.testbit a n).
Proof.
  intros Hn. rewrite Z.shiftl_1_l. destruct (Z.testbit a n) eqn:E; simpl.
  - apply Z.eqb_neq. intros H. apply (f_equal (fun z => Z.testbit z n)) in H.
    rewrite Z.land_spec, E, Z.pow2_bits_true, Z.bits_0 in H by done. done.
  - apply Z.eqb_eq, Z.bits_inj'. intros i Hi. rewrite Z.land_spec, Z.pow2_bits_eqb, Z.bits_0 by done.
    destruct (Z.eqb_spec n i) as [<- |]; [by rewrite E | apply andb_false_r].
Qed.

Lemma index_bound idx (l : bytes) mm :
  0 <= idx < mm -> len l = (mm + 7) / 8 -> 0 <= idx / 8 < len l.
Proof.
  intros Hi ->. split; [apply Z.div_pos; lia |]. apply Z.div_lt_upper_bound; [lia |].
  pose proof (Z.div_mod (mm + 7) 8 ltac:(lia)). pose proof (Z.mod_pos_bound (mm + 7) 8 ltac:(lia)). lia.
Qed.

Lemma test_bit_spec l idx mm :
  0 <= idx < mm -> len l = (mm + 7) / 8 -> test_bit l idx = Ok (bit l idx).
Proof.
  intros Hi Hl. pose proof (index_bound _ _ _ Hi Hl) as Hb. unfold test_bit, bit, index.
  rewrite (proj2 (Z.leb_le 0 _)) by lia.
  destruct (lookup_lt_is_Some_2 l (Z.to_nat (idx / 8))) as [b Hb']; [unfold len in *; lia |].
  rewrite Hb'. simpl. rewrite land_pow2, negb_involutive; [done |]. apply Z.mod_pos_bound. lia.
Qed.

Lemma set_bit_spec l idx mm :
  0 <= idx < mm -> len l = (mm + 7) / 8 ->
  exists l', set_bit l idx = Ok l' /\ len l' = len l /\ bit l' idx = true /\
    (forall j, 0 <= j -> bit l j = true -> bit l' j = true).
Proof.
  intros Hi Hl. pose proof (index_bound _ _ _ Hi Hl) as Hb. unfold set_bit, index.
  rewrite (proj2 (Z.leb_le 0 _)) by lia.
  destruct (lookup_lt_is_Some_2 l (Z.to_nat (idx / 8))) as [b Hb']; [unfold len in *; lia |].
  rewrite Hb'. cbn [res_bind]. eexists. split; [reflexivity |].
  pose proof (Z.mod_pos_bound idx 8 ltac:(lia)) as Hm.
  assert (forall n, 0 <= n < 8 -> Z.testbit (byte_val (to_byte (Z.lor (byte_val b) (Z.shiftl 1 (idx mod 8))))) n
            = Z.testbit (byte_val b) n || (idx mod 8 =? n)) as Hbit.
  { intros n Hn. rewrite byte_val_to_byte. change 256 with (2 ^ 8).
    rewrite Z.mod_pow2_bits_low, Z.lor_spec, Z.shiftl_1_l, Z.pow2_bits_eqb by lia. done. }
  split_and!.
  - unfold len. by rewrite length_insert.
  - unfold bit. rewrite list_lookup_insert_eq by (unfold len in *; lia).
    rewrite Hbit by done. by rewrite Z.eqb_refl, orb_true_r.
  - intros j Hj. unfold bit. destruct (decide (Z.to_nat (j / 8) = Z.to_nat (idx / 8))) as [E | E].
    + rewrite E, Hb', list_lookup_insert_eq by (unfold len in *; lia).
      rewrite Hbit by (apply Z.mod_pos_bound; lia). by intros ->.
    + by rewrite list_lookup_insert_ne.
Qed.

Lemma probe_range h1 h2 mm i : 0 < mm -> 0 <= probe h1 h2 mm i < mm.
Proof. intros. apply Z.mod_pos_bound. lia. Qed.

Lemma add_loop_spec n : forall h1 h2 mm i l,
  0 < mm -> len l = (mm + 7) / 8 ->
  exists l', add_loop n h1 h2 mm i l = Ok l' /\ len l' = len l /\
    (forall j, 0 <= j -> bit l j = true -> bit l' j = true) /\
    (forall q, 0 <= q < Z.of_nat n -> bit l' (probe h1 h2 mm (i + q)) = true).
Proof.
  induction n as [|n IH]; intros h1 h2 mm i l Hm Hl; cbn [add_loop].
  { exists l. split_and!; try done. intros q Hq. lia. }
  pose proof (probe_range h1 h2 mm i Hm) as Hp.
  destruct (set_bit_spec l _ mm Hp Hl) as (l1 & -> & Hl1 & Hb1 & Hk1). cbn [res_bind].
  destruct (IH h1 h2 mm (i + 1) l1 Hm ltac:(lia)) as (l' & -> & Hl' & Hk' & Hq').
  exists l'. split_and!; [done | lia | auto |]. intros q Hq.
  destruct (Z.eq_dec q 0) as [-> |].
  - rewrite Z.add_0_r. apply Hk'; [lia | done].
  - replace (i + q) with (i + 1 + (q - 1)) by lia. apply Hq'. lia.
Qed.

Lemma test_loop_spec n : forall h1 h2 mm i l,
  0 < mm -> len l = (mm + 7) / 8 ->
  exists b, test_loop n h1 h2 mm i l = Ok b /\
    ((forall q, 0 <= q < Z.of_nat n -> bit l (probe h1 h2 mm (i + q)) = true) -> b = true).
Proof.
  induction n as [|n IH]; intros h1 h2 mm i l Hm Hl; cbn [test_loop]; [by exists true |].
  pose proof (probe_range h1 h2 mm i Hm) as Hp. rewrite (test_bit_spec l _ mm Hp Hl). cbn [res_bind].
  destruct (bit l (probe h1 h2 mm i)) eqn:E.
  - destruct (IH h1 h2 mm (i + 1) l Hm Hl) as (b & -> & Hb). exists b. split; [done |].
    intros Hall. apply Hb. intros q Hq. replace (i + 1 + q) with (i + (1 + q)) by lia. apply Hall. lia.
  - exists false. split; [done |]. intros Hall. specialize (Hall 0 ltac:(lia)). rewrite Z.add_0_r in Hall. congruence.
Qed.

(** The bits a key needs. *)
Definition holds (b : bloomFilter) (key : bytes) : Prop :=
  forall q, 0 <= q < k b ->
    bit (bits b) (probe (bloomHashes key).1 (bloomHashes key).2 (m b) q) = true.

Lemma add_spec b key :
  wf b -> exists b', add b key = Ok b' /\ wf b' /\ m b' = m b /\ k b' = k b /\
    (m b <> 0 -> holds b' key) /\ (forall key', m b <> 0 -> holds b key' -> holds b' key').
Proof.
  intros []. unfold add. destruct (Z.eqb_spec (m b) 0) as [E | E].
  { exists b. by split_and!. }
  destruct (bloomHashes key) as [h1 h2] eqn:Hh.
  destruct (add_loop_spec (Z.to_nat (k b)) h1 h2 (m b) 0 (bits b)) as (l & -> & Hl & Hkeep & Hset); [lia | done |].
  cbn [res_bind]. eexists. split; [reflexivity |]. split_and!; try done.
  - constructor; simpl; [done | done | lia].
  - intros _ q Hq. rewrite Hh. simpl in *. replace q with (0 + q) by lia. apply Hset. lia.
  - intros key' _ Hk' q Hq. simpl in *. apply Hkeep; [| by apply Hk'].
    apply probe_range. lia.
Qed.

Lemma bloom_add_all keys : forall b,
  wf b -> exists b', add_all b keys = Ok b' /\ wf b' /\ m b' = m b /\ k b' = k b /\
    (m b <> 0 -> forall key, key ∈ keys \/ holds b key -> holds b' key).
Proof.
  induction keys as [|key keys IH]; intros b Hb; cbn [add_all].
  { exists b. split_and!; try done. by intros _ key [?%not_elem_of_nil | ?]. }
  destruct (add_spec b key Hb) as (b1 & -> & Hb1 & Hm1 & Hk1 & Hset & Hkeep). cbn [res_bind].
  destruct (IH b1 Hb1) as (b' & -> & Hb' & Hm' & Hk' & Hall).
  exists b'. split_and!; try done; [congruence | congruence |].
  intros Hm key' Hin. apply Hall; [congruence |].
  destruct Hin as [[-> | Hin]%elem_of_cons | Hin]; auto.
Qed.

Lemma mayContain_spec b key :
  wf b -> exists r, mayContain b key = Ok r /\ ((m b <> 0 -> holds b key) -> r = true).
Proof.
  intros []. unfold mayContain. destruct (Z.eqb_spec (m b) 0) as [E | E]; [by exists true |].
  destruct (bloomHashes key) as [h1 h2] eqn:Hh.
  destruct (test_loop_spec (Z.to_nat (k b)) h1 h2 (m b) 0 (bits b)) as (r & -> & Hr); [lia | done |].
  exists r. split; [done |]. intros H. apply Hr. intros q Hq. specialize (H E q ltac:(lia)).
  rewrite Hh in H. by rewrite Z.add_0_l.
Qed.

Lemma bloom_decode_encode b : wf b -> decodeBloomFilter (encode b) = Ok b.
Proof.
  intros []. unfold decodeBloomFilter, encode, slice_from. pose_len. autorewrite with len.
  rewrite (proj2 (Z.ltb_ge _ _)) by lia. read_field.
  rewrite (u32_small (k b)), (u64_small (m b)) by (unfold is_u32, is_u64; lia).
  rewrite u64_small by (unfold is_u64; lia). rewrite wf_bits0, Z.eqb_refl. simpl. by destruct b.
Qed.

Lemma newBloomFilter_spec fb fh n :
  0 <= fb n <= maxAlloc -> exists b, newBloomFilter fb fh n = Ok b /\ wf b.
Proof.
  intros Hf. unfold newBloomFilter.
  assert (exists mm kk, bloomParams fb fh n = (mm, kk) /\ 0 <= mm <= maxAlloc /\ 0 <= kk <= 30) as
    (mm & kk & -> & Hm & Hk).
  { unfold bloomParams. destruct (Z.leb_spec n 0); [exists 0, 0; split_and!; done || lia |].
    cbv zeta. eexists _, _. split; [reflexivity |].
    unfold maxAlloc in *. split; [zcase; lia |].
    destruct (Z.ltb_spec (fh (if fb n <? 8 then 8 else fb n) n) 1); [vm_compute; split; congruence |].
    destruct (Z.ltb_spec 30 (fh (if fb n <? 8 then 8 else fb n) n)); lia. }
  unfold make_bytes. rewrite u64_small by (unfold is_u64, maxAlloc in *; lia).
  assert (0 <= (mm + 7) / 8 <= maxAlloc) as Hd.
  { split; [apply Z.div_pos; lia | apply Z.div_le_upper_bound; unfold maxAlloc in *; lia]. }
  rewrite !(proj2 (Z.leb_le _ _)) by lia. simpl. eexists. split; [reflexivity |].
  constructor; simpl; [unfold maxAlloc in *; lia | lia |].
  unfold len. rewrite length_replicate. lia.
Qed.

(** C30: the bloom filter has no false negatives.  The filter built for a set
    of keys, written to the file and read back, is the same filter, and it
    answers "maybe" for every one of these keys; it never reads outside its
    bit array, whatever key is asked for.  The size and the number of hashes
    the floating-point formulas choose do not matter, up to the largest
    possible allocation. *)
Theorem bloom_no_false_negatives fb fh keys :
  0 <= fb (len keys) <= maxAlloc ->
  exists b0 b, newBloomFilter fb fh (len keys) = Ok b0 /\ add_all b0 keys = Ok b /\
    decodeBloomFilter (encode b) = Ok b /\
    (forall key, no_panic (mayContain b key)) /\
    (forall key, key ∈ keys -> mayContain b key = Ok true).
Proof.
  intros Hf. destruct (newBloomFilter_spec fb fh (len keys) Hf) as (b0 & Hnew & Hwf0).
  destruct (bloom_add_all keys b0 Hwf0) as (b & Hadd & Hwf & Hm & _ & Hall).
  exists b0, b. split_and!; [done | done | by apply bloom_decode_encode | |].
  - intros key. by destruct (mayContain_spec b key Hwf) as (r & -> & _).
  - intros key Hin. destruct (mayContain_spec b key Hwf) as (r & -> & Hr). f_equal. apply Hr.
    intros Hm0. apply Hall; [congruence | by left].
Qed.

Lemma bloom_no_false_negatives_witness :
  exists b0 b, newBloomFilter (fun n => 10 * n) (fun _ _ => 7) 2 = Ok b0 /\
    add_all b0 [[x61]; [x62; x63]] = Ok b /\ decodeBloomFilter (encode b) = Ok b /\
    (forall key, no_panic (mayContain b key)) /\
    (forall key, key ∈ [[x61]; [x62; x63]] -> mayContain b key = Ok true).
Proof.
  apply (bloom_no_false_negatives (fun n => 10 * n) (fun _ _ => 7) [[x61]; [x62; x63]]).
  vm_compute. split; congruence.
Defined.

(** A filter block with a valid checksum can still crash the reader.  When
    its bit count is so large that [m + 7] wraps around, an empty bit array
    passes the length test of [decodeBloomFilter], and the first lookup
    indexes out of range. *)
Theorem bloom_overflow_panics key kk :
  1 <= kk < 2 ^ 32 ->
  let b := mk (2 ^ 64 - 1) kk [] in
  decodeBloomFilter (encode b) = Ok b /\ mayContain b key = Panic.
Proof.
  intros Hk b. split.
  - unfold decodeBloomFilter, encode, slice_from. simpl m. simpl k. simpl bits.
    autorewrite with len. rewrite (proj2 (Z.ltb_ge _ _)) by lia. rewrite app_nil_r.
    replace (put_u32 kk ++ put_u64 (2 ^ 64 - 1)) with (put_u32 kk ++ put_u64 (2 ^ 64 - 1) ++ [])
      by (by rewrite app_nil_r). read_field.
    rewrite (u32_small kk), (u64_small (2 ^ 64 - 1)) by (unfold is_u32, is_u64; lia). reflexivity.
  - unfold mayContain. simpl m. change (2 ^ 64 - 1 =? 0) with false. cbv iota.
    destruct (bloomHashes key) as [h1 h2]. simpl k. simpl bits.
    replace (Z.to_nat kk) with (S (Z.to_nat (kk - 1))) by lia. cbn [test_loop].
    unfold test_bit, index. by destruct (0 <=? _).
Qed.

Lemma bloom_overflow_panics_witness :
  decodeBloomFilter (encode (mk (2 ^ 64 - 1) 1 [])) = Ok (mk (2 ^ 64 - 1) 1 []) /\
  mayContain (mk (2 ^ 64 - 1) 1 []) [x61] = Panic.
Proof. apply (bloom_overflow_panics [x61] 1). lia. Defined.

End Bloom.
