(* ===== verification/BlockCache.v ===== *)
(** * The block cache (src/sstable/cache.go)

    A size-bounded LRU cache shared by the table readers: a list in order of
    use and a map into it.  It refines a single list of blocks, most recently
    used first, of which it keeps the longest prefix that fits. *)

From S2P Require Import Prelude GoBytes.

Module BlockCache.

Abbreviation cacheKey := (string * Z)%type.
Record cacheEntry := mkEntry { ce_key : cacheKey; ce_data : bytes }.

(** [ll] is the list from its front to its back; [items] maps a key to the
    list element of its entry. *)
Record BlockCache := mk {
  maxBytes : Z;
  curBytes : Z;
  ll : list cacheEntry;
  items : gmap cacheKey cacheEntry
}.

Definition NewBlockCache (max : Z) : BlockCache := mk max 0 [] ∅.

(** [c.ll.MoveToFront(el)] for the element with key [key]. *)
Definition moveToFront (key : cacheKey) (l : list cacheEntry) : list cacheEntry :=
  filter (fun e => ce_key e = key) l ++ filter (fun e => ce_key e <> key) l.

(** A nil cache is [None]: nothing is stored, every lookup misses. *)
Definition get (c : option BlockCache) (file : string) (offset : Z)
    : option BlockCache * option bytes :=
  match c with
  | None => (None, None)
  | Some c =>
      match items c !! (file, offset) with
      | None => (Some c, None)
      | Some e =>
          (Some (mk (maxBytes c) (curBytes c) (moveToFront (file, offset) (ll c)) (items c)),
           Some (ce_data e))
      end
  end.

Definition evictOldest (c : BlockCache) : BlockCache :=
  match last (ll c) with
  | None => c
  | Some e =>
      mk (maxBytes c) (curBytes c - len (ce_data e)) (removelast (ll c)) (delete (ce_key e) (items c))
  end.

(** [for c.curBytes > c.maxBytes { c.evictOldest() }]; running out of fuel
    stands for a loop that does not end. *)
Fixpoint evict_loop (fuel : nat) (c : BlockCache) : res BlockCache :=
  if maxBytes c <? curBytes c then
    match fuel with
    | O => Panic
    | S fuel => evict_loop fuel (evictOldest c)
    end
  else Ok c.

Definition put (c : option BlockCache) (file : string) (offset : Z) (data : bytes)
    : res (option BlockCache) :=
  match c with
  | None => Ok None
  | Some c =>
      if maxBytes c <=? 0 then Ok (Some c)
      else
        let key := (file, offset) in
        match items c !! key with
        | Some _ =>
            Ok (Some (mk (maxBytes c) (curBytes c) (moveToFront key (ll c)) (items c)))
        | None =>
            if maxBytes c <? len data then Ok (Some c)
            else
              let e := mkEntry key data in
              let c := mk (maxBytes c) (curBytes c + len data) (e :: ll c)
                         (<[key := e]> (items c)) in
              let* c := evict_loop (length (ll c)) c in
              Ok (Some c)
        end
  end.

Definition entryCount (c : option BlockCache) : Z :=
  match c with None => 0 | Some c => Z.of_nat (size (items c)) end.

(** ** The abstract cache *)

(** The longest prefix whose blocks fit into [budget]. *)
Fixpoint keep (budget : Z) (l : list cacheEntry) : list cacheEntry :=
  match l with
  | [] => []
  | e :: l => if len (ce_data e) <=? budget then e :: keep (budget - len (ce_data e)) l else []
  end.

Definition find (key : cacheKey) (l : list cacheEntry) : option bytes :=
  head (ce_data <$> filter (fun e => ce_key e = key) l).

Definition lru_put (max : Z) (key : cacheKey) (data : bytes) (l : list cacheEntry) : list cacheEntry :=
  if max <=? 0 then l
  else match find key l with
       | Some _ => moveToFront key l
       | None => if max <? len data then l else keep max (mkEntry key data :: l)
       end.

Definition total (l : list cacheEntry) : Z := foldr (fun e acc => len (ce_data e) + acc) 0 l.

Record cinv (c : BlockCache) : Prop := {
  ci_nodup : NoDup (ce_key <$> ll c);
  ci_items : items c = list_to_map (map (fun e => (ce_key e, e)) (ll c));
  ci_cur : curBytes c = total (ll c);
  ci_max : curBytes c <= Z.max 0 (maxBytes c)
}.

Lemma total_nonneg l : 0 <= total l.
Proof. induction l as [|e l IH]; simpl; [lia | pose_len; lia]. Qed.
Lemma cache_total_app l k : total (l ++ k) = total l + total k.
Proof. induction l as [|e l IH]; simpl; lia. Qed.
Lemma cache_total_perm l k : l ≡ₚ k -> total l = total k.
Proof. induction 1; simpl; lia. Qed.

Lemma moveToFront_perm key l : moveToFront key l ≡ₚ l.
Proof.
  unfold moveToFront. induction l as [|e l IH]; [done |]. rewrite !filter_cons.
  destruct (decide (ce_key e = key)), (decide (ce_key e <> key)); try done; simpl.
  - by rewrite IH.
  - by rewrite <- Permutation_middle, IH.
Qed.

Lemma keys_pairs l : (map (fun e => (ce_key e, e)) l).*1 = ce_key <$> l.
Proof. induction l as [|e l IH]; [done |]. simpl. f_equal. exact IH. Qed.

(** The map finds the entry of the list. *)
Lemma items_find c key : cinv c -> ce_data <$> items c !! key = find key (ll c).
Proof.
  intros [Hnd -> _ _]. unfold find. revert Hnd. generalize (ll c). intros l.
  induction l as [|e l IH]; [done |]. rewrite fmap_cons, NoDup_cons. intros [Hx Hnd].
  rewrite filter_cons. simpl. destruct (decide (ce_key e = key)) as [<- | Hne].
  - rewrite lookup_insert_eq. done.
  - rewrite lookup_insert_ne by done. by apply IH.
Qed.

Lemma cinv_move c key :
  cinv c -> cinv (mk (maxBytes c) (curBytes c) (moveToFront key (ll c)) (items c)).
Proof.
  intros [Hnd Hit Hcur Hmax]. pose proof (moveToFront_perm key (ll c)) as Hp. constructor; simpl; try done.
  - by rewrite (fmap_Permutation ce_key _ _ Hp).
  - rewrite Hit. apply list_to_map_proper; [by rewrite keys_pairs |]. by apply Permutation_map.
  - by rewrite (cache_total_perm _ _ Hp).
Qed.

(** ** Eviction *)

Lemma keep_prefix b l : keep b l `prefix_of` l.
Proof.
  revert b. induction l as [|e l IH]; intros b; simpl; [done |].
  destruct (_ <=? _); [by apply prefix_cons | apply prefix_nil].
Qed.
Lemma keep_total b l : 0 <= b -> total (keep b l) <= b.
Proof.
  revert b. induction l as [|e l IH]; intros b Hb; simpl; [lia |].
  destruct (Z.leb_spec (len (ce_data e)) b); simpl; [| lia].
  specialize (IH (b - len (ce_data e)) ltac:(lia)). lia.
Qed.
Lemma keep_all b l : total l <= b -> keep b l = l.
Proof.
  revert b. induction l as [|e l IH]; intros b Hb; simpl in *; [done |]. pose proof (total_nonneg l).
  rewrite (proj2 (Z.leb_le _ _)) by lia. by rewrite IH by lia.
Qed.
Lemma keep_snoc b l e : b < total (l ++ [e]) -> keep b (l ++ [e]) = keep b l.
Proof.
  revert b. induction l as [|x l IH]; intros b Hb; simpl in *.
  - by rewrite (proj2 (Z.leb_gt _ _)) by lia.
  - destruct (_ <=? _); [| done]. by rewrite IH by lia.
Qed.

Record shape (c : BlockCache) : Prop := {
  sh_nodup : NoDup (ce_key <$> ll c);
  sh_items : items c = list_to_map (map (fun e => (ce_key e, e)) (ll c));
  sh_cur : curBytes c = total (ll c)
}.

Lemma evictOldest_shape c l e :
  shape c -> ll c = l ++ [e] ->
  shape (evictOldest c) /\ ll (evictOldest c) = l /\ maxBytes (evictOldest c) = maxBytes c.
Proof.
  intros [Hnd Hit Hcur] Hl. unfold evictOldest. rewrite Hl, last_snoc, removelast_last. simpl.
  rewrite Hl, fmap_app in Hnd. apply NoDup_app in Hnd as (Hnd & Hdis & _).
  split_and!; try done. constructor; simpl; [done | | rewrite Hcur, Hl, cache_total_app; simpl; lia].
  rewrite Hit, Hl, map_app, list_to_map_app. simpl.
  apply map_eq. intros k. destruct (decide (k = ce_key e)) as [-> | Hne].
  - rewrite lookup_delete_eq. symmetry. apply not_elem_of_list_to_map. rewrite keys_pairs. intros Hin.
    by apply (Hdis _ Hin), list_elem_of_singleton.
  - rewrite lookup_delete_ne by done. rewrite lookup_union_l; [done |].
    rewrite lookup_insert_ne by done. done.
Qed.

Lemma evict_loop_spec n : forall c,
  length (ll c) = n -> shape c -> 0 <= maxBytes c ->
  exists c', evict_loop n c = Ok c' /\ cinv c' /\ maxBytes c' = maxBytes c /\ ll c' = keep (maxBytes c) (ll c).
Proof.
  induction n as [|n IH]; intros c Hn Hs Hmax; cbn [evict_loop]; destruct (Z.ltb_spec (maxBytes c) (curBytes c)) as [Hlt | Hge].
  - destruct (ll c) eqn:E; [| done]. rewrite (sh_cur _ Hs), E in Hlt. simpl in Hlt. lia.
  - exists c. destruct Hs as [? ? Hcur]. rewrite keep_all by lia. split_and!; try done.
    constructor; try done. lia.
  - destruct (ll c) as [|e l _] eqn:E using rev_ind; [done |].
    destruct (evictOldest_shape c l e Hs E) as (Hs' & Hl & Hm).
    destruct (IH (evictOldest c)) as (c' & -> & Hc & Hm' & Hl').
    { rewrite Hl. rewrite length_app in Hn. simpl in Hn. lia. }
    { done. } { by rewrite Hm. }
    exists c'. split_and!; [done | done | congruence |].
    rewrite Hl', Hl, Hm, keep_snoc; [done |]. by rewrite <- E, <- (sh_cur _ Hs).
  - exists c. destruct Hs as [? ? Hcur]. rewrite keep_all by lia. split_and!; try done.
    constructor; try done. lia.
Qed.

#[local] Arguments evict_loop : simpl never.

(** ** Operations *)

Inductive cop := CGet (file : string) (offset : Z) | CPut (file : string) (offset : Z) (data : bytes).

Definition cexec (c : option BlockCache) (o : cop) : res (option BlockCache * option bytes) :=
  match o with
  | CGet f off => Ok (get c f off)
  | CPut f off d => let* c := put c f off d in Ok (c, None)
  end.

Fixpoint crun (c : option BlockCache) (ops : list cop) : res (option BlockCache * list (option bytes)) :=
  match ops with
  | [] => Ok (c, [])
  | o :: ops => let* '(c, r) := cexec c o in let* '(c, rs) := crun c ops in Ok (c, r :: rs)
  end.

(** The same run on the list. *)
Definition lexec (max : Z) (l : list cacheEntry) (o : cop) : list cacheEntry * option bytes :=
  match o with
  | CGet f off =>
      match find (f, off) l with
      | Some d => (moveToFront (f, off) l, Some d)
      | None => (l, None)
      end
  | CPut f off d => (lru_put max (f, off) d l, None)
  end.

Fixpoint lrun (max : Z) (l : list cacheEntry) (ops : list cop) : list cacheEntry * list (option bytes) :=
  match ops with
  | [] => (l, [])
  | o :: ops => let '(l, r) := lexec max l o in let '(l, rs) := lrun max l ops in (l, r :: rs)
  end.

Lemma cexec_refines c o :
  cinv c -> exists c' r, cexec (Some c) o = Ok (Some c', r) /\ cinv c' /\ maxBytes c' = maxBytes c /\
    lexec (maxBytes c) (ll c) o = (ll c', r).
Proof.
  intros Hc. destruct o as [f off|f off d]; simpl.
  - pose proof (items_find c (f, off) Hc) as Hf.
    destruct (items c !! (f, off)) as [e|]; simpl in Hf; rewrite <- Hf; eexists _, _; split; try done;
      split_and!; try done. by apply cinv_move.
  - unfold lru_put. pose proof (items_find c (f, off) Hc) as Hf.
    destruct (Z.leb_spec (maxBytes c) 0); simpl; [by exists c, None |].
    destruct (items c !! (f, off)) as [e|] eqn:Hit; simpl in Hf; rewrite <- Hf; simpl.
    { eexists _, None. split; [reflexivity |]. split_and!; try done. by apply cinv_move. }
    destruct (Z.ltb_spec (maxBytes c) (len d)); simpl; [by exists c, None |].
    set (c1 := mk (maxBytes c) (curBytes c + len d) (mkEntry (f, off) d :: ll c)
                 (<[(f, off) := mkEntry (f, off) d]> (items c))).
    destruct (evict_loop_spec (length (ll c1)) c1 eq_refl) as (c' & Hrun & Hc' & Hm & Hl).
    { destruct Hc as [Hnd Hi Hcur _]. constructor; simpl; [| by rewrite Hi | lia].
      constructor; [| done]. intros Hin. rewrite Hi in Hit.
      apply not_elem_of_list_to_map in Hit. rewrite keys_pairs in Hit. by apply Hit. }
    { simpl. lia. }
    change (length (ll c1)) with (S (length (ll c))) in Hrun. rewrite Hrun. cbn [res_bind].
    exists c', None. split_and!; try done. by rewrite Hl.
Qed.

Lemma crun_refines ops : forall c, cinv c ->
  exists c' rs, crun (Some c) ops = Ok (Some c', rs) /\ cinv c' /\ maxBytes c' = maxBytes c /\
    lrun (maxBytes c) (ll c) ops = (ll c', rs).
Proof.
  induction ops as [|o ops IH]; intros c Hc; cbn [crun lrun]; [by exists c, [] |].
  destruct (cexec_refines c o Hc) as (c1 & r & -> & Hc1 & Hm1 & ->). cbn [res_bind].
  destruct (IH c1 Hc1) as (c' & rs & -> & Hc' & Hm' & Hl). cbn [res_bind].
  exists c', (r :: rs). rewrite <- Hm1, Hl. split_and!; try done; congruence.
Qed.

(** What a client may rely on: a lookup reports the entry of the map, a store
    adds at most its own block. *)
Lemma items_elem c k e : cinv c -> items c !! k = Some e <-> e ∈ ll c /\ ce_key e = k.
Proof.
  intros [Hnd -> _ _]. rewrite <- elem_of_list_to_map by (by rewrite keys_pairs).
  rewrite list_elem_of_In, in_map_iff. split.
  - intros (e' & [= <- <-] & Hin). by rewrite list_elem_of_In.
  - intros [Hin <-]. exists e. by rewrite <- list_elem_of_In.
Qed.

Lemma cache_get_spec c f off :
  cinv c -> exists c', get (Some c) f off = (Some c', ce_data <$> items c !! (f, off)) /\
    cinv c' /\ items c' = items c.
Proof.
  intros Hc. simpl. destruct (items c !! (f, off)) as [e|]; [| by exists c].
  eexists. split; [reflexivity |]. split; [by apply cinv_move | done].
Qed.

Lemma cache_put_spec c f off d :
  cinv c -> exists c', put (Some c) f off d = Ok (Some c') /\ cinv c' /\
    forall k e, items c' !! k = Some e -> items c !! k = Some e \/ (k = (f, off) /\ ce_data e = d).
Proof.
  intros Hc. destruct (cexec_refines c (CPut f off d) Hc) as (c' & r & Hrun & Hc' & _ & Hl).
  unfold cexec in Hrun. bind_ok Hrun x Hx. injection Hrun as -> _. injection Hl as Hl _.
  exists c'. split_and!; [done | done |]. intros k e. rewrite !items_elem by done. rewrite <- Hl. intros [He Hk].
  unfold lru_put in He. destruct (_ <=? 0); [by left |].
  destruct (find (f, off) (ll c)); [left; by rewrite moveToFront_perm in He |].
  destruct (_ <? _); [by left |].
  pose proof (keep_prefix (maxBytes c) (mkEntry (f, off) d :: ll c)) as [z Hz].
  assert (e ∈ mkEntry (f, off) d :: ll c) as He' by (rewrite Hz; apply elem_of_app; by left).
  apply elem_of_cons in He' as [-> | He']; [by right | by left].
Qed.

Lemma NewBlockCache_inv max : cinv (NewBlockCache max).
Proof. constructor; simpl; done || lia || constructor. Qed.

(** Whatever is in the list was put there under its key. *)
Lemma lrun_origin ops : forall max l l' rs (P : cacheEntry -> Prop),
  (forall f off d, CPut f off d ∈ ops -> P (mkEntry (f, off) d)) -> (forall e, e ∈ l -> P e) ->
  lrun max l ops = (l', rs) ->
  forall i f off d, ops !! i = Some (CGet f off) -> rs !! i = Some (Some d) -> P (mkEntry (f, off) d).
Proof.
  induction ops as [|o ops IH]; intros max l l' rs P Hput Hl; cbn [lrun]; [done |].
  destruct (lexec max l o) as [l1 r] eqn:E. destruct (lrun max l1 ops) as [l2 rs2] eqn:E2.
  intros [= <- <-] i f off d. assert (forall e, e ∈ l1 -> P e) as Hl1.
  { intros e He. destruct o as [f0 off0|f0 off0 d0]; simpl in E.
    - destruct (find _ _); injection E as <- _; [| by apply Hl]. by apply Hl; rewrite <- (moveToFront_perm (f0, off0)).
    - injection E as <- _. unfold lru_put in He. destruct (max <=? 0); [by apply Hl |].
      destruct (find _ _); [by apply Hl; rewrite <- (moveToFront_perm (f0, off0)) |].
      destruct (max <? _); [by apply Hl |].
      pose proof (keep_prefix max (mkEntry (f0, off0) d0 :: l)) as [z Hz].
      assert (e ∈ mkEntry (f0, off0) d0 :: l) as He' by (rewrite Hz; apply elem_of_app; by left).
      apply elem_of_cons in He' as [-> | He']; [apply Hput; by left | by apply Hl]. }
  destruct i as [|i]; simpl.
  - intros [= ->] [= ->]. simpl in E. destruct (find (f, off) l) as [d'|] eqn:Hfi; [| done].
    injection E as _ ->. unfold find in Hfi.
    destruct (filter _ l) as [|e0 l0] eqn:Hfl; [done |]. injection Hfi as Hd.
    assert (e0 ∈ filter (fun e => ce_key e = (f, off)) l) as [Hk Hin]%list_elem_of_filter by (rewrite Hfl; by left).
    replace (mkEntry (f, off) d) with e0; [by apply Hl |]. destruct e0. simpl in *. congruence.
  - apply (IH max l1 l2 rs2 P); [intros; apply Hput; by right | done | done].
Qed.

(** C29: the cache is a bounded LRU list.  Any sequence of lookups and stores
    on a new cache returns, evicting no more than needed; it answers exactly
    as a list of blocks ordered by last use of which stores keep the longest
    prefix that fits; the bytes held never exceed the limit; and a hit
    returns bytes that were stored for that very file and offset. *)
Theorem cache_is_bounded_lru max ops :
  exists c rs, crun (Some (NewBlockCache max)) ops = Ok (Some c, rs) /\
    lrun max [] ops = (ll c, rs) /\
    curBytes c = total (ll c) /\ curBytes c <= Z.max 0 max /\
    entryCount (Some c) = len (ll c) /\
    (forall i f off d, ops !! i = Some (CGet f off) -> rs !! i = Some (Some d) -> CPut f off d ∈ ops).
Proof.
  destruct (crun_refines ops _ (NewBlockCache_inv max)) as (c & rs & Hrun & Hc & Hm & Hl). simpl in Hm, Hl.
  exists c, rs. split_and!; [done | done | apply Hc | rewrite <- Hm; apply Hc | |].
  - simpl. rewrite (ci_items _ Hc), map_size_list_to_map by (rewrite keys_pairs; apply Hc).
    unfold len. by rewrite length_map.
  - intros i f off d Hi Hr.
    eapply (lrun_origin ops max [] _ rs (fun e => CPut (ce_key e).1 (ce_key e).2 (ce_data e) ∈ ops)
      (fun _ _ _ H => H) ltac:(by intros e ?%not_elem_of_nil) Hl i f off d Hi Hr).
Qed.

(** Two blocks of 4 bytes in a cache of 10; a lookup of the first saves it
    from the eviction the third store makes. *)
Example cache_run :
  (let* '(c, rs) := crun (Some (NewBlockCache 10))
     [CPut "a" 0 (put_u32 1); CPut "a" 8 (put_u32 2); CGet "a" 0; CPut "b" 0 (put_u32 3); CGet "a" 8; CGet "a" 0] in
   Ok (rs, entryCount c))
  = Ok ([None; None; Some (put_u32 1); None; None; Some (put_u32 1)], 2).
Proof. vm_compute. reflexivity. Qed.

End BlockCache.
