(* ===== verification/SSTableFormat.v ===== *)
(** * The block formats of a table (src/sstable/block.go)

    Entries of a data block and the index block, byte for byte. *)

From Stdlib Require Import Strings.Byte.
From S2P Require Import Prelude GoBytes GoVarint GoSort.

Module Block.

Definition errCorruptEntry : error := Errorf "sstable: corrupt entry".
Definition errCorruptIndex : error := Errorf "sstable: corrupt index block".

Definition entryPut : byte := x00.
Definition entryDelete : byte := x01.

Record decodedEntry := mkEntry { key : bytes; value : bytes; seq : Z; deleted : bool }.
#[global] Instance decodedEntry_eq_dec : EqDecision decodedEntry.
Proof. solve_decision. Defined.

Definition encodeEntry (k v : bytes) (sq : Z) (del : bool) : bytes :=
  put_uvarint (len k) ++ k ++ [if del then entryDelete else entryPut] ++
  put_uvarint sq ++ put_uvarint (len v) ++ v.

(** The entry at the start of [data] and the bytes it takes. *)
Definition decodeEntry (data : bytes) : res (decodedEntry * Z) :=
  let '(keyLen, n) := Uvarint data in
  if n <=? 0 then Err errCorruptEntry else
  let off := n in
  if u64 (len data - off) <? keyLen then Err errCorruptEntry else
  let* k := slice data off (off + keyLen) in
  let off := off + keyLen in
  if len data <=? off then Err errCorruptEntry else
  let* ty := index data off in
  let del := bool_decide (ty = entryDelete) in
  let off := off + 1 in
  let* rest := slice_from data off in
  let '(sq, n2) := Uvarint rest in
  if n2 <=? 0 then Err errCorruptEntry else
  let off := off + n2 in
  let* rest := slice_from data off in
  let '(valLen, n3) := Uvarint rest in
  if n3 <=? 0 then Err errCorruptEntry else
  let off := off + n3 in
  if u64 (len data - off) <? valLen then Err errCorruptEntry else
  let* v := (if 0 <? valLen then slice data off (off + valLen) else Ok []) in
  Ok (mkEntry k v sq del, off + valLen).

(** ** The index *)

Record indexEntry := mkIndex { lastKey : bytes; offset : Z; length_ : Z }.

Definition encodeIndexEntry (e : indexEntry) : bytes :=
  put_uvarint (len (lastKey e)) ++ lastKey e ++ put_u64 (offset e) ++ put_u64 (length_ e).
Definition encodeIndex (entries : list indexEntry) : bytes := concat (map encodeIndexEntry entries).

(** [for off < len(data)]: every round consumes at least 17 bytes, so that
    the length of [data] is enough fuel. *)
Fixpoint index_loop (fuel : nat) (data : bytes) (off : Z) : res (list indexEntry) :=
  match fuel with
  | O => Panic
  | S fuel =>
      if off <? len data then
        let* rest := slice_from data off in
        let '(keyLen, n) := Uvarint rest in
        if n <=? 0 then Err errCorruptIndex else
        let off := off + n in
        if u64 (len data - off) <? keyLen then Err errCorruptIndex else
        let* k := slice data off (off + keyLen) in
        let off := off + keyLen in
        if len data - off <? 16 then Err errCorruptIndex else
        let* o := get_u64 data off in
        let* l := get_u64 data (off + 8) in
        let* es := index_loop fuel data (off + 16) in
        Ok (mkIndex k o l :: es)
      else Ok []
  end.

Definition decodeIndex (data : bytes) : res (list indexEntry) := index_loop (S (length data)) data 0.

(** ** Round trips *)

Definition entry_wf (e : decodedEntry) : Prop :=
  is_u64 (seq e) /\ len (key e) < 2 ^ 62 /\ len (value e) < 2 ^ 62.
Definition encode (e : decodedEntry) : bytes := encodeEntry (key e) (value e) (seq e) (deleted e).

Lemma slice_from_skip {A} (pre l : list A) off :
  len pre <= off -> slice_from (pre ++ l) off = slice_from l (off - len pre).
Proof.
  intros H. unfold slice_from. rewrite slice_skip by done. f_equal. len_lia.
Qed.
Lemma slice_from_hit {A} (l : list A) off : off = 0 -> slice_from l off = Ok l.
Proof. intros ->. by apply slice_all. Qed.

Lemma opt_field_skip (pre l : bytes) a n :
  len pre <= a -> (if 0 <? n then slice (pre ++ l) a (a + n) else Ok [])
  = (if 0 <? n then slice l (a - len pre) (a - len pre + n) else Ok []).
Proof. intros. destruct (0 <? n); [| done]. rewrite slice_skip by done. f_equal. lia. Qed.

Lemma opt_field_hit (l suf : bytes) off :
  off = 0 -> (if 0 <? len l then slice (l ++ suf) off (off + len l) else Ok []) = Ok l.
Proof.
  intros ->. destruct (Z.ltb_spec 0 (len l)); [by apply slice_hit |].
  by rewrite (len_zero l) by (pose_len; lia).
Qed.

Lemma u64_guard a b : 0 <= a -> a < 2 ^ 64 -> b <= a -> (u64 a <? b) = false.
Proof. intros. rewrite u64_small by (unfold is_u64; lia). apply Z.ltb_ge. lia. Qed.

Lemma len_uv x : 0 < len (put_uvarint x) <= 10.
Proof. apply len_put_uvarint. Qed.

(** An entry read back from where it was written. *)
Lemma decodeEntry_encode e rest :
  entry_wf e -> len rest < 2 ^ 62 -> decodeEntry (encode e ++ rest) = Ok (e, len (encode e)).
Proof.
  destruct e as [k v sq del]. intros (Hs & Hk & Hv) Hr. simpl in *. unfold encode. simpl.
  unfold decodeEntry, encodeEntry. rewrite <- !app_assoc.
  pose proof (len_uv (len k)) as Hu1. pose proof (len_uv sq) as Hu2. pose proof (len_uv (len v)) as Hu3.
  pose_len. assert (is_u64 (len k)) by (unfold is_u64; lia). assert (is_u64 (len v)) by (unfold is_u64; lia).
  rewrite Uvarint_put by done. cbv iota beta. rewrite (proj2 (Z.leb_gt _ 0)) by lia.
  autorewrite with len. rewrite u64_guard by len_lia.
  rewrite slice_skip, slice_hit by len_lia. cbn [res_bind].
  rewrite (proj2 (Z.leb_gt _ _)) by lia.
  rewrite !index_skip, index_hit by len_lia. cbn [res_bind].
  replace (bool_decide ((if del then entryDelete else entryPut) = entryDelete)) with del by (by destruct del).
  do 3 (rewrite slice_from_skip by len_lia). rewrite slice_from_hit by len_lia. cbn [res_bind].
  rewrite Uvarint_put by done. cbv iota beta. rewrite (proj2 (Z.leb_gt _ 0)) by lia.
  do 4 (rewrite slice_from_skip by len_lia). rewrite slice_from_hit by len_lia. cbn [res_bind].
  rewrite Uvarint_put by done. cbv iota beta. rewrite (proj2 (Z.leb_gt _ 0)) by lia.
  rewrite u64_guard by len_lia. do 5 (rewrite opt_field_skip by len_lia).
  rewrite opt_field_hit by len_lia. cbn [res_bind]. do 2 f_equal. lia.
Qed.

Lemma len_encode_pos e : 0 < len (encode e).
Proof. unfold encode, encodeEntry. pose proof (len_uv (len (key e))). pose_len. len_lia. Qed.

Definition index_wf (e : indexEntry) : Prop :=
  len (lastKey e) < 2 ^ 62 /\ is_u64 (offset e) /\ is_u64 (length_ e).

Lemma len_indexEntry e : 17 <= len (encodeIndexEntry e).
Proof. unfold encodeIndexEntry. pose proof (len_uv (len (lastKey e))). pose_len. len_lia. Qed.

Lemma index_loop_encode es : forall fuel pre,
  Forall index_wf es -> len (pre ++ encodeIndex es) < 2 ^ 62 -> (length es < fuel)%nat ->
  index_loop fuel (pre ++ encodeIndex es) (len pre) = Ok es.
Proof.
  induction es as [|e es IH]; intros fuel pre Hwf Hl Hf; (destruct fuel as [|fuel]; [simpl in Hf; lia |]); cbn [index_loop].
  { unfold encodeIndex. simpl. rewrite app_nil_r, Z.ltb_irrefl. done. }
  apply Forall_cons in Hwf as [(Hk & Ho & Hn) Hwf].
  change (encodeIndex (e :: es)) with (encodeIndexEntry e ++ encodeIndex es) in *.
  set (rest := encodeIndex es) in *. pose proof (len_indexEntry e) as Hle.
  pose proof (len_uv (len (lastKey e))) as Hu. autorewrite with len in *. pose_len.
  rewrite (proj2 (Z.ltb_lt _ _)) by lia. rewrite slice_from_skip, slice_from_hit by lia. cbn [res_bind].
  unfold encodeIndexEntry in Hle, Hl |- *. autorewrite with len in *. rewrite <- !app_assoc.
  assert (is_u64 (len (lastKey e))) by (unfold is_u64; lia).
  rewrite Uvarint_put by done. cbv iota beta. rewrite (proj2 (Z.leb_gt _ 0)) by lia.
  autorewrite with len. rewrite u64_guard by lia.
  do 2 (rewrite slice_skip by len_lia). rewrite slice_hit by len_lia. cbn [res_bind].
  rewrite (proj2 (Z.ltb_ge _ 16)) by lia.
  do 3 (rewrite get_u64_skip by len_lia). rewrite get_u64_hit by len_lia. cbn [res_bind].
  do 4 (rewrite get_u64_skip by len_lia). rewrite get_u64_hit by len_lia. cbn [res_bind].
  rewrite !u64_small by done.
  pose proof (IH fuel (pre ++ encodeIndexEntry e) Hwf) as IHe. unfold encodeIndexEntry in IHe.
  rewrite <- !app_assoc in IHe. fold rest in IHe. autorewrite with len in IHe.
  replace (len pre + len (put_uvarint (len (lastKey e))) + len (lastKey e) + 16)
    with (len pre + (len (put_uvarint (len (lastKey e))) + (len (lastKey e) + (8 + 8)))) by lia.
  rewrite IHe; [by destruct e | lia | simpl in Hf; lia].
Qed.

Lemma encodeIndex_length es : (length es <= length (encodeIndex es))%nat.
Proof.
  induction es as [|e es IH]; [simpl; lia |].
  change (encodeIndex (e :: es)) with (encodeIndexEntry e ++ encodeIndex es).
  rewrite length_app. pose proof (len_indexEntry e). unfold len in *. simpl. lia.
Qed.

Lemma decodeIndex_encode es :
  Forall index_wf es -> len (encodeIndex es) < 2 ^ 62 -> decodeIndex (encodeIndex es) = Ok es.
Proof.
  intros Hwf Hl. unfold decodeIndex. apply (index_loop_encode es _ []); [done | done |].
  pose proof (encodeIndex_length es). lia.
Qed.

(** ** Arbitrary bytes *)

Lemma guard_u64 x v : 0 <= x -> (u64 x <? v) = false -> v <= x.
Proof. intros Hx H%Z.ltb_ge. assert (u64 x <= x) by (apply Z.mod_le; lia). lia. Qed.

Lemma slice_from_ok {A} (l : list A) off :
  0 <= off <= len l -> exists r, slice_from l off = Ok r /\ len r = len l - off.
Proof.
  intros H. unfold slice_from. rewrite slice_ok by lia. eexists. split; [reflexivity |].
  unfold len in *. rewrite length_take, length_drop. lia.
Qed.

(** The decoder of an entry stays inside its input and consumes some of it. *)
Lemma decodeEntry_safe data :
  no_panic (decodeEntry data) /\ forall e n, decodeEntry data = Ok (e, n) -> 0 < n <= len data.
Proof.
  unfold decodeEntry. pose_len. destruct (Uvarint data) as [kl n] eqn:E1.
  destruct (Z.leb_spec n 0); [by split |]. destruct (Uvarint_inv _ _ _ E1 ltac:(lia)) as [[Hk0 Hk1] Hn].
  destruct (u64 (len data - n) <? kl) eqn:G1; [by split |]. apply guard_u64 in G1; [| lia].
  rewrite slice_ok by lia. cbn [res_bind]. destruct (Z.leb_spec (len data) (n + kl)); [by split |].
  unfold index. rewrite (proj2 (Z.leb_le 0 _)) by lia.
  destruct (lookup_lt_is_Some_2 data (Z.to_nat (n + kl))) as [ty ->]; [unfold len in *; lia |]. cbn [res_bind].
  destruct (slice_from_ok data (n + kl + 1) ltac:(lia)) as (r1 & -> & Hr1). cbn [res_bind].
  destruct (Uvarint r1) as [sq n2] eqn:E2. destruct (Z.leb_spec n2 0); [by split |].
  destruct (Uvarint_inv _ _ _ E2 ltac:(lia)) as [_ Hn2].
  destruct (slice_from_ok data (n + kl + 1 + n2) ltac:(lia)) as (r2 & -> & Hr2). cbn [res_bind].
  destruct (Uvarint r2) as [vl n3] eqn:E3. destruct (Z.leb_spec n3 0); [by split |].
  destruct (Uvarint_inv _ _ _ E3 ltac:(lia)) as [[Hv0 Hv1] Hn3].
  destruct (u64 _ <? vl) eqn:G2; [by split |]. apply guard_u64 in G2; [| lia].
  assert (exists v, (if 0 <? vl then slice data (n + kl + 1 + n2 + n3) (n + kl + 1 + n2 + n3 + vl) else Ok []) = Ok v)
    as [v ->].
  { destruct (0 <? vl); [rewrite slice_ok by lia |]; eauto. }
  cbn [res_bind]. split; [done |]. intros e m [= <- <-]. lia.
Qed.

(** So does the decoder of the index, and it terminates: a round consumes 17
    bytes or more. *)
Lemma index_loop_safe data : forall fuel off,
  0 <= off <= len data -> (Z.to_nat (len data - off) < fuel)%nat -> no_panic (index_loop fuel data off).
Proof.
  intros fuel. induction fuel as [|fuel IH]; intros off Hoff Hf; [lia |]. cbn [index_loop].
  destruct (Z.ltb_spec off (len data)); [| done].
  destruct (slice_from_ok data off ltac:(lia)) as (r & -> & Hr). cbn [res_bind].
  destruct (Uvarint r) as [kl n] eqn:E1. destruct (Z.leb_spec n 0); [done |].
  destruct (Uvarint_inv _ _ _ E1 ltac:(lia)) as [[Hk0 Hk1] Hn].
  destruct (u64 _ <? kl) eqn:G1; [done |]. apply guard_u64 in G1; [| lia].
  rewrite slice_ok by lia. cbn [res_bind]. destruct (Z.ltb_spec (len data - (off + n + kl)) 16); [done |].
  apply no_panic_bind; [apply get_u64_no_panic; lia | intros o _].
  apply no_panic_bind; [apply get_u64_no_panic; lia | intros l _].
  apply no_panic_bind; [apply IH; lia | done].
Qed.

Lemma decodeIndex_safe data : no_panic (decodeIndex data).
Proof. apply index_loop_safe; unfold len; lia. Qed.

End Block.
