(* ===== verification/SSTableWriter.v ===== *)
(** * Writing a table (src/sstable/writer.go)

    The writer streams sorted entries into checksummed data blocks and
    finishes the file with the bloom filter, the index and a fixed footer.
    The invariant ties what has been handed to the file to the entries added
    so far. *)

From Stdlib Require Import Strings.Byte.
From S2P Require Import Prelude GoBytes GoVarint GoSort Wal Bloom SSTableFormat.
Import Wal.Appender Block.

Definition defaultBlockSize : Z := 4096.
Definition footerSize : Z := 56.
Definition magicNumber : Z := 0x4B56535331.

(** [Options.withDefaults] for the block size; the false-positive rate enters
    only through the parameters of the bloom filter. *)
Definition withDefaults (blockSize : Z) : Z := if blockSize <=? 0 then defaultBlockSize else blockSize.

Record Meta := mkMeta {
  Path : string;
  NumEntries : Z;
  MinKey : bytes;
  MaxKey : bytes;
  MaxSeq : Z;
  FileSize : Z
}.

(** An empty [minKey] is the nil slice: copying an empty key yields nil. *)
Record Writer := mkWriter {
  wpath : string;
  out : bufio;
  blockSize : Z;
  woffset : Z;
  curBlock : bytes;
  windex : list indexEntry;
  keys : list bytes;
  wlastKey : bytes;
  haveLastKey : bool;
  minKey : bytes;
  maxKey : bytes;
  numEntries : Z;
  maxSeq : Z;
  closed : bool
}.

Definition new_writer (path : string) (opts : Z) (faults : list (option nat)) : Writer :=
  mkWriter path {| wr := {| synced := []; cached := []; script := faults |}; pend := []; werr := false |}
    (withDefaults opts) 0 [] [] [] [] false [] [] 0 0 false.

(** [NewWriter] creates or truncates the file; [file] is the outcome of
    [os.OpenFile], an error or a file with the faults its calls will meet. *)
Definition NewWriter (path : string) (opts : Z) (file : option (list (option nat))) : res Writer :=
  match file with
  | None => Err (Wrapf "sstable: create" (Errorf "open"))
  | Some faults => Ok (new_writer path opts faults)
  end.

Definition with_out (w : Writer) (b : bufio) (off : Z) : Writer :=
  mkWriter (wpath w) b (blockSize w) off (curBlock w) (windex w) (keys w) (wlastKey w) (haveLastKey w)
    (minKey w) (maxKey w) (numEntries w) (maxSeq w) (closed w).
Definition with_block (w : Writer) (cur : bytes) (ix : list indexEntry) : Writer :=
  mkWriter (wpath w) (out w) (blockSize w) (woffset w) cur ix (keys w) (wlastKey w) (haveLastKey w)
    (minKey w) (maxKey w) (numEntries w) (maxSeq w) (closed w).
Definition set_closed (w : Writer) : Writer :=
  mkWriter (wpath w) (out w) (blockSize w) (woffset w) (curBlock w) (windex w) (keys w) (wlastKey w) (haveLastKey w)
    (minKey w) (maxKey w) (numEntries w) (maxSeq w) true.

Definition checksummed (data : bytes) : bytes := data ++ put_u32 (crc32c data).

Definition writeChecksummed (w : Writer) (data : bytes) : Writer * Z * option error :=
  let buf := checksummed data in
  let '(b, ok) := bWrite (out w) buf in
  if ok then (with_out w b (u64 (woffset w + len buf)), len buf, None)
  else (with_out w b (woffset w), 0, Some (Wrapf "sstable: write" (Errorf "write"))).

Definition flushBlock (w : Writer) : Writer * option error :=
  if len (curBlock w) =? 0 then (w, None)
  else
    let blockStart := woffset w in
    match writeChecksummed w (curBlock w) with
    | (w, length, None) =>
        (with_block w [] (windex w ++ [mkIndex (wlastKey w) blockStart length]), None)
    | (w, _, Some e) => (w, Some e)
    end.

Definition Add (w : Writer) (k v : bytes) (sq : Z) (del : bool) : Writer * option error :=
  if closed w then (w, Some (Errorf "sstable: Add called after Finish"))
  else if haveLastKey w && (compare k (wlastKey w) =? 0)
  then (w, Some (Errorf "sstable: duplicate key passed to Add"))
  else if haveLastKey w && (compare k (wlastKey w) =? -1)
  then (w, Some (Errorf "sstable: keys out of order"))
  else
    let w := mkWriter (wpath w) (out w) (blockSize w) (woffset w) (curBlock w ++ encodeEntry k v sq del)
               (windex w) (keys w ++ [k]) k true
               (match minKey w with [] => k | _ => minKey w end) k (numEntries w + 1)
               (if maxSeq w <? sq then sq else maxSeq w) (closed w) in
    if blockSize w <=? len (curBlock w) then flushBlock w else (w, None).

Definition footer (indexOffset indexLength bloomOffset bloomLength n sq : Z) : bytes :=
  put_u64 indexOffset ++ put_u64 indexLength ++ put_u64 bloomOffset ++ put_u64 bloomLength ++
  put_u64 n ++ put_u64 sq ++ put_u64 magicNumber.

Definition close_out (w : Writer) : Writer :=
  with_out w {| wr := fst (fClose (wr (out w))); pend := pend (out w); werr := werr (out w) |} (woffset w).

Section finish.
Context (float_bits : Z -> Z) (float_hashes : Z -> Z -> Z).

(** The part of [Finish] after the last block: flush, fsync, close. *)
Definition seal (w : Writer) : Writer * res Meta :=
  let '(b, ok) := bFlush (out w) in
  let w := with_out w b (woffset w) in
  if negb ok then (close_out w, Err (Wrapf "sstable: flush" (Errorf "write"))) else
  let '(f, ok) := fSync (wr (out w)) in
  let w := with_out w {| wr := f; pend := pend (out w); werr := werr (out w) |} (woffset w) in
  if negb ok then (close_out w, Err (Wrapf "sstable: fsync" (Errorf "sync"))) else
  let '(f, ok) := fClose (wr (out w)) in
  let w := with_out w {| wr := f; pend := pend (out w); werr := werr (out w) |} (woffset w) in
  if negb ok then (w, Err (Wrapf "sstable: close" (Errorf "close"))) else
  (w, Ok (mkMeta (wpath w) (numEntries w) (minKey w) (maxKey w) (maxSeq w) (woffset w))).

Definition Finish (w : Writer) : Writer * res Meta :=
  if closed w then (w, Err (Errorf "sstable: Finish called twice"))
  else
    let w := set_closed w in
    match flushBlock w with
    | (w, Some e) => (w, Err e)
    | (w, None) =>
    match (let* bf := Bloom.newBloomFilter float_bits float_hashes (len (keys w)) in
           Bloom.add_all bf (keys w)) with
    | Err e => (w, Err e)
    | Panic => (w, Panic)
    | Ok bf =>
    let bloomOffset := woffset w in
    match writeChecksummed w (Bloom.encode bf) with
    | (w, _, Some e) => (w, Err (Wrapf "sstable: writing block 0 of 2" e))
    | (w, bloomLength, None) =>
    let indexOffset := woffset w in
    match writeChecksummed w (encodeIndex (windex w)) with
    | (w, _, Some e) => (w, Err (Wrapf "sstable: writing block 1 of 2" e))
    | (w, indexLength, None) =>
    let foot := footer indexOffset indexLength bloomOffset bloomLength (numEntries w) (maxSeq w) in
    let '(b, ok) := bWrite (out w) foot in
    if ok then seal (with_out w b (u64 (woffset w + len foot)))
    else (with_out w b (woffset w), Err (Wrapf "sstable: write footer" (Errorf "write")))
    end end end end.
End finish.

(** ** What the file holds *)

Definition block_bytes (b : list decodedEntry) : bytes := concat (map encode b).
Definition block_image (b : list decodedEntry) : bytes := checksummed (block_bytes b).
Definition blocks_image (bs : list (list decodedEntry)) : bytes := concat (map block_image bs).
Definition last_key (b : list decodedEntry) : bytes := default [] (key <$> last b).

(** The index of the blocks that start at [off]. *)
Fixpoint index_of (off : Z) (bs : list (list decodedEntry)) : list indexEntry :=
  match bs with
  | [] => []
  | b :: bs => mkIndex (last_key b) (u64 off) (len (block_image b)) :: index_of (off + len (block_image b)) bs
  end.

Definition max_seq (es : list decodedEntry) : Z := fold_left (fun m e => Z.max m (seq e)) es 0.

(** The first key that is not empty. *)
Definition min_key (es : list decodedEntry) : bytes :=
  fold_left (fun m e => match m with [] => key e | _ => m end) es [].

Record winv (bs : list (list decodedEntry)) (cur : list decodedEntry) (w : Writer) : Prop := {
  wi_out : binv (blocks_image bs) (out w);
  wi_err : werr (out w) = false;
  wi_off : woffset w = u64 (len (blocks_image bs));
  wi_cur : curBlock w = block_bytes cur;
  wi_index : windex w = index_of 0 bs;
  wi_keys : keys w = key <$> concat bs ++ cur;
  wi_nonempty : Forall (fun b => b <> []) bs;
  wi_sorted : sorted (key <$> concat bs ++ cur);
  wi_have : haveLastKey w = negb (bool_decide (concat bs ++ cur = []));
  wi_last : wlastKey w = last_key (concat bs ++ cur);
  wi_num : numEntries w = len (concat bs ++ cur);
  wi_seq : maxSeq w = max_seq (concat bs ++ cur);
  wi_max : maxKey w = last_key (concat bs ++ cur);
  wi_min : minKey w = min_key (concat bs ++ cur)
}.

Lemma blocks_image_snoc bs b : blocks_image (bs ++ [b]) = blocks_image bs ++ block_image b.
Proof. unfold blocks_image. rewrite map_app, concat_app. simpl. by rewrite app_nil_r. Qed.

Lemma index_of_snoc bs : forall off b,
  index_of off (bs ++ [b])
  = index_of off bs ++ [mkIndex (last_key b) (u64 (off + len (blocks_image bs))) (len (block_image b))].
Proof.
  induction bs as [|x bs IH]; intros off b; simpl.
  - unfold blocks_image. simpl. by rewrite Z.add_0_r.
  - rewrite IH. unfold blocks_image. simpl. by rewrite len_app, Z.add_assoc.
Qed.

Lemma block_bytes_nil b : len (block_bytes b) = 0 <-> b = [].
Proof.
  split; [| by intros ->]. destruct b as [|e b]; [done |]. unfold block_bytes. simpl. rewrite len_app.
  pose proof (len_encode_pos e). pose_len. lia.
Qed.

Lemma last_key_app l b : b <> [] -> last_key (l ++ b) = last_key b.
Proof. intros Hb. unfold last_key. rewrite last_app. destruct (last b) eqn:E; [done |]. by apply last_None in E. Qed.

Lemma writeChecksummed_spec total w data w' n :
  binv total (out w) -> woffset w = u64 (len total) -> writeChecksummed w data = (w', n, None) ->
  n = len (checksummed data) /\ exists b, w' = with_out w b (u64 (len (total ++ checksummed data))) /\
    binv (total ++ checksummed data) b /\ werr b = false.
Proof.
  intros Hb Hoff. unfold writeChecksummed. destruct (bWrite (out w) (checksummed data)) as [b ok] eqn:Hw.
  apply (bWrite_spec total) in Hw as (Hb' & _ & He); [| done].
  destruct ok; intros [= <- <-]. split; [done |]. exists b. split_and!; try done.
  f_equal. rewrite Hoff, len_app. unfold u64. by rewrite Zplus_mod_idemp_l.
Qed.

Lemma flushBlock_spec bs cur w w' :
  winv bs cur w -> flushBlock w = (w', None) ->
  exists bs', winv bs' [] w' /\ concat bs' = concat bs ++ cur /\ closed w' = closed w /\ blockSize w' = blockSize w.
Proof.
  intros Hi. unfold flushBlock. rewrite (wi_cur _ _ _ Hi).
  destruct (Z.eqb_spec (len (block_bytes cur)) 0) as [Hz | Hz].
  { intros [= <-]. apply block_bytes_nil in Hz as ->. exists bs. by rewrite app_nil_r. }
  destruct (writeChecksummed w (block_bytes cur)) as [[w1 n] [e|]] eqn:Hw; [done |].
  apply (writeChecksummed_spec (blocks_image bs)) in Hw as (-> & b & -> & Hb & He); [| apply Hi..].
  intros [= <-]. assert (cur <> []) as Hne by (intros ->; by apply Hz).
  exists (bs ++ [cur]). rewrite concat_app, concat_cons, app_nil_r. split_and!; try done.
  destruct Hi. constructor; simpl; rewrite ?concat_app, ?concat_cons, ?app_nil_r; try done.
  - by rewrite blocks_image_snoc.
  - by rewrite blocks_image_snoc.
  - rewrite index_of_snoc, Z.add_0_l, wi_index0, wi_off0. do 3 f_equal.
    rewrite wi_last0. by apply last_key_app.
  - apply Forall_app. split; [done |]. by apply Forall_singleton.
Qed.

Lemma compare_values a : forall b, compare a b = -1 \/ compare a b = 0 \/ compare a b = 1.
Proof.
  induction a as [|x a IH]; intros [|y b]; simpl; try tauto.
  destruct (_ <? _); [tauto |]. destruct (_ <? _); [tauto | apply IH].
Qed.

Lemma sorted_snoc l k :
  sorted (key <$> l) -> l = [] \/ key_lt (last_key l) k -> sorted ((key <$> l) ++ [k]).
Proof.
  intros Hs Hl. apply sorted_app. split_and!; [done | by repeat constructor |].
  intros a b Ha ->%list_elem_of_singleton. apply list_elem_of_fmap in Ha as (e & -> & He).
  destruct Hl as [-> | Hl]; [by apply not_elem_of_nil in He |].
  destruct l as [|x l _] using rev_ind; [by apply not_elem_of_nil in He |].
  unfold last_key in Hl. rewrite last_snoc in Hl. simpl in Hl.
  apply elem_of_app in He as [He | ->%list_elem_of_singleton]; [| done].
  transitivity (key x); [| done]. rewrite fmap_app in Hs. apply sorted_app in Hs as (_ & _ & H).
  apply H; [apply list_elem_of_fmap; by exists e | by left].
Qed.

Lemma max_seq_snoc l e : max_seq (l ++ [e]) = Z.max (max_seq l) (seq e).
Proof. unfold max_seq. by rewrite fold_left_app. Qed.

Lemma Add_spec bs cur w k v sq del w' :
  winv bs cur w -> Add w k v sq del = (w', None) ->
  exists bs' cur', winv bs' cur' w' /\ closed w = false /\ closed w' = false /\
    concat bs' ++ cur' = (concat bs ++ cur) ++ [mkEntry k v sq del].
Proof.
  intros Hi. unfold Add. destruct (closed w) eqn:Hcl; [done |].
  destruct (haveLastKey w && (compare k (wlastKey w) =? 0)) eqn:E0; [done |].
  destruct (haveLastKey w && (compare k (wlastKey w) =? -1)) eqn:E1; [done |].
  set (w1 := mkWriter _ _ _ _ _ _ _ _ _ _ _ _ _ _). set (e := mkEntry k v sq del).
  assert (winv bs (cur ++ [e]) w1) as H1.
  { destruct Hi. constructor; simpl; rewrite ?app_assoc; try done.
    - rewrite wi_cur0. unfold block_bytes. rewrite map_app, concat_app. simpl. by rewrite app_nil_r.
    - by rewrite wi_keys0, (fmap_app key _ [e]).
    - rewrite fmap_app. simpl. apply sorted_snoc; [done |].
      destruct (bool_decide (concat bs ++ cur = [])) eqn:Hbd; [left; by apply bool_decide_eq_true in Hbd | right].
      rewrite <- wi_last0. rewrite wi_have0 in E0, E1. simpl in E0, E1.
      apply Z.eqb_neq in E0, E1. unfold key_lt. rewrite compare_antisym.
      pose proof (compare_values k (wlastKey w)). lia.
    - by rewrite bool_decide_eq_false_2 by (intros H; by apply app_nil in H as [_ ?]).
    - unfold last_key. by rewrite last_snoc.
    - rewrite wi_num0. len_lia.
    - rewrite max_seq_snoc, wi_seq0. simpl. destruct (Z.ltb_spec (max_seq (concat bs ++ cur)) sq); lia.
    - unfold last_key. by rewrite last_snoc.
    - unfold min_key. rewrite fold_left_app. simpl. by rewrite wi_min0. }
  destruct (blockSize w1 <=? len (curBlock w1)).
  - intros Hf. destruct (flushBlock_spec _ _ _ _ H1 Hf) as (bs' & H' & Hc & Hcl' & _).
    exists bs', []. split_and!; [done | done | by rewrite Hcl' |]. by rewrite app_nil_r, Hc, app_assoc.
  - intros [= <-]. exists bs, (cur ++ [e]). split_and!; [done | done | done |]. by rewrite app_assoc.
Qed.

(** ** The finished file *)

Definition table_image (bs : list (list decodedEntry)) (bf : Bloom.bloomFilter) : bytes :=
  let data := blocks_image bs in
  let bl := checksummed (Bloom.encode bf) in
  let ix := checksummed (encodeIndex (index_of 0 bs)) in
  data ++ bl ++ ix ++
  footer (u64 (len (data ++ bl))) (len ix) (u64 (len data)) (len bl) (len (concat bs)) (max_seq (concat bs)).

Lemma seal_spec total w w' meta :
  binv total (out w) -> seal w = (w', Ok meta) ->
  synced (wr (out w')) = total /\ FileSize meta = woffset w /\ NumEntries meta = numEntries w /\
  MaxSeq meta = maxSeq w /\ MaxKey meta = maxKey w /\ MinKey meta = minKey w /\ Path meta = wpath w.
Proof.
  intros Hb. unfold seal. destruct (bFlush (out w)) as [b okf] eqn:Hf.
  apply (bFlush_spec total) in Hf as (Hb' & _ & Hok); [| done].
  destruct okf; simpl negb; cbv iota; [| done]. destruct Hok as [Hp He]. simpl out.
  destruct (fSync (wr b)) as [f oks] eqn:Hs. apply fSync_spec in Hs as (Hc & _ & Hall).
  destruct oks; simpl negb; cbv iota; [| done]. simpl out. simpl wr.
  pose proof (fClose_spec f) as [_ Hcl]. destruct (fClose f) as [f' okc]. simpl in Hcl.
  destruct okc; simpl negb; cbv iota; [| done]. intros [= <- <-]. simpl. split_and!; try done.
  rewrite Hcl, Hall by done. unfold binv in Hb'. by rewrite He, Hp, app_nil_r in Hb'.
Qed.

Lemma Finish_spec fb fh bs cur w w' meta :
  winv bs cur w -> Finish fb fh w = (w', Ok meta) ->
  exists bs' bf,
    concat bs' = concat bs ++ cur /\ Forall (fun b => b <> []) bs' /\ sorted (key <$> concat bs') /\
    (let* b0 := Bloom.newBloomFilter fb fh (len (concat bs')) in Bloom.add_all b0 (key <$> concat bs')) = Ok bf /\
    synced (wr (out w')) = table_image bs' bf /\
    NumEntries meta = len (concat bs') /\ MaxSeq meta = max_seq (concat bs') /\
    FileSize meta = u64 (len (table_image bs' bf)) /\
    MaxKey meta = last_key (concat bs') /\ MinKey meta = min_key (concat bs').
Proof.
  intros Hi. unfold Finish. destruct (closed w); [done |].
  assert (winv bs cur (set_closed w)) as H0 by (destruct Hi; by constructor).
  destruct (flushBlock (set_closed w)) as [w1 [e|]] eqn:Hfl; [done |].
  destruct (flushBlock_spec _ _ _ _ H0 Hfl) as (bs' & H1 & Hc & _).
  pose proof (wi_keys _ _ _ H1) as Hk. pose proof (wi_sorted _ _ _ H1) as Hso. rewrite app_nil_r in Hk, Hso.
  destruct (let* bf := _ in _) as [bf| |] eqn:Hbf; [| done | done].
  destruct (writeChecksummed w1 (Bloom.encode bf)) as [[w2 n2] [e|]] eqn:Hw2; [done |].
  apply (writeChecksummed_spec (blocks_image bs')) in Hw2 as (-> & b2 & -> & Hb2 & He2); [| apply H1..].
  destruct (writeChecksummed (with_out w1 b2 _) _) as [[w3 n3] [e|]] eqn:Hw3; [done |].
  simpl windex in Hw3. eapply writeChecksummed_spec in Hw3 as (-> & b3 & -> & Hb3 & He3); [| exact Hb2 | done].
  simpl out. simpl woffset. simpl numEntries. simpl maxSeq. simpl windex.
  set (foot := footer _ _ _ _ _ _). destruct (bWrite b3 foot) as [b4 ok] eqn:Hw4.
  eapply bWrite_spec in Hw4 as (Hb4 & _ & He4); [| exact Hb3].
  destruct ok; [| done]. intros Hs. eapply seal_spec in Hs as (Hsy & Hfs & Hn & Hm & Hmx & Hmn & _); [| exact Hb4].
  simpl in Hfs, Hn, Hm, Hmx, Hmn. pose proof (wi_num _ _ _ H1) as Hnum. pose proof (wi_seq _ _ _ H1) as Hseq.
  pose proof (wi_max _ _ _ H1) as Hmax. pose proof (wi_min _ _ _ H1) as Hmin.
  rewrite app_nil_r in Hnum, Hseq, Hmax, Hmin. rewrite (wi_index _ _ _ H1) in Hsy.
  assert (((blocks_image bs' ++ checksummed (Bloom.encode bf)) ++ checksummed (encodeIndex (windex w1))) ++ foot
          = table_image bs' bf) as Himg.
  { unfold table_image, foot. rewrite (wi_index _ _ _ H1), (wi_off _ _ _ H1), Hnum, Hseq, <- !app_assoc. done. }
  exists bs', bf. rewrite Hk in Hbf. unfold len at 1 in Hbf. rewrite length_fmap in Hbf.
  rewrite <- (wi_index _ _ _ H1) in Hsy. rewrite Himg in Hsy.
  split_and!; [done | apply H1 | done | exact Hbf | exact Hsy | congruence | congruence | | congruence | congruence].
  rewrite Hfs, <- Himg, (len_app (_ ++ checksummed (encodeIndex _))). unfold u64. by rewrite Zplus_mod_idemp_l.
Qed.

(** ** Without faults *)

Definition healthy (b : bufio) : Prop := script (wr b) = [] /\ werr b = false.

Lemma bFlush_healthy b : healthy b -> exists b', bFlush b = (b', true) /\ healthy b' /\ pend b' = [].
Proof.
  intros [Hs He]. unfold bFlush. rewrite He. destruct (pend b) as [|x p] eqn:Hp; [by exists b |].
  unfold fWrite. rewrite Hs. by eexists.
Qed.

Lemma bWrite_loop_healthy fuel b p :
  healthy b -> pend b = [] -> exists b', bWrite_loop (S fuel) b p = (b', true) /\ healthy b'.
Proof.
  intros [Hs He] Hp. cbn [bWrite_loop]. rewrite Hp, He. simpl negb. rewrite andb_true_r.
  destruct (negb _); [| by eexists]. unfold fWrite. rewrite Hs. rewrite drop_all.
  destruct fuel; cbn [bWrite_loop]; simpl; by eexists.
Qed.

Lemma bWrite_healthy b p : healthy b -> exists b', bWrite b p = (b', true) /\ healthy b'.
Proof.
  intros Hb. unfold bWrite. destruct (pend b) as [|x q] eqn:Hp; [by apply bWrite_loop_healthy |].
  cbn [bWrite_loop]. destruct Hb as [Hs He]. rewrite Hp, He. simpl negb. rewrite andb_true_r.
  destruct (negb _); [| by eexists].
  edestruct (bFlush_healthy {| wr := wr b; pend := (x :: q) ++ take (bufSize - length (x :: q)) p; werr := false |})
    as (b1 & -> & Hb1 & Hp1); [done |]. by apply (bWrite_loop_healthy 0).
Qed.

Lemma writeChecksummed_healthy w data :
  healthy (out w) -> exists b off n, writeChecksummed w data = (with_out w b off, n, None) /\ healthy b.
Proof.
  intros Hw. unfold writeChecksummed. destruct (bWrite_healthy (out w) (checksummed data) Hw) as (b & -> & Hb).
  by eexists _, _, _.
Qed.

Lemma flushBlock_healthy w :
  healthy (out w) -> exists w', flushBlock w = (w', None) /\ healthy (out w') /\ keys w' = keys w.
Proof.
  intros Hw. unfold flushBlock. destruct (_ =? 0); [by exists w |].
  destruct (writeChecksummed_healthy w (curBlock w) Hw) as (b & off & n & -> & Hb). by eexists.
Qed.

(** A key above the last one is accepted. *)
Lemma Add_healthy bs cur w k v sq del :
  winv bs cur w -> healthy (out w) -> closed w = false ->
  concat bs ++ cur = [] \/ key_lt (last_key (concat bs ++ cur)) k ->
  exists w', Add w k v sq del = (w', None) /\ healthy (out w').
Proof.
  intros Hi Hw Hcl Hlast. unfold Add. rewrite Hcl.
  assert (forall z, z = 0 \/ z = -1 -> haveLastKey w && (compare k (wlastKey w) =? z) = false) as Hg.
  { intros z Hz. rewrite (wi_have _ _ _ Hi), (wi_last _ _ _ Hi). destruct Hlast as [-> | Hl]; [done |].
    apply andb_false_intro2, Z.eqb_neq. unfold key_lt in Hl. rewrite compare_antisym in Hl. lia. }
  rewrite !Hg by lia. set (w1 := mkWriter _ _ _ _ _ _ _ _ _ _ _ _ _ _).
  destruct (_ <=? _); [| by eexists].
  destruct (flushBlock_healthy w1 Hw) as (w' & -> & Hw' & _). by eexists.
Qed.

Lemma seal_healthy w : healthy (out w) -> exists w' meta, seal w = (w', Ok meta).
Proof.
  intros Hw. unfold seal. destruct (bFlush_healthy (out w) Hw) as (b & -> & [Hs _] & _). simpl.
  unfold fSync. rewrite Hs. unfold fClose. simpl. by eexists _, _.
Qed.

Lemma Finish_healthy fb fh bs cur w :
  0 <= fb (len (concat bs ++ cur)) <= Bloom.maxAlloc ->
  winv bs cur w -> healthy (out w) -> closed w = false -> exists w' meta, Finish fb fh w = (w', Ok meta).
Proof.
  intros Hfb Hi Hw Hcl. unfold Finish. rewrite Hcl.
  destruct (flushBlock_healthy (set_closed w) Hw) as (w1 & -> & Hw1 & Hk). simpl keys in Hk.
  assert (len (keys w1) = len (concat bs ++ cur)) as Hlen
    by (rewrite Hk, (wi_keys _ _ _ Hi); unfold len; by rewrite length_fmap).
  destruct (Bloom.newBloomFilter_spec fb fh (len (keys w1)) ltac:(by rewrite Hlen)) as (b0 & -> & Hb0).
  cbn [res_bind]. destruct (Bloom.bloom_add_all (keys w1) b0 Hb0) as (bf & -> & _).
  destruct (writeChecksummed_healthy w1 (Bloom.encode bf) Hw1) as (b2 & o2 & n2 & -> & H2).
  destruct (writeChecksummed_healthy (with_out w1 b2 o2) (encodeIndex (windex (with_out w1 b2 o2))) H2)
    as (b3 & o3 & n3 & -> & H3).
  destruct (bWrite_healthy (out (with_out (with_out w1 b2 o2) b3 o3)) (footer (woffset (with_out w1 b2 o2)) n3 (woffset w1) n2
    (numEntries (with_out (with_out w1 b2 o2) b3 o3)) (maxSeq (with_out (with_out w1 b2 o2) b3 o3))) H3) as (b4 & -> & H4).
  by apply seal_healthy.
Qed.
