(* ===== verification/SSTableReader.v ===== *)
(** * Reading a table (src/sstable/reader.go)

    Opening a finished file, point lookups through bloom filter, index and
    block cache, and the iterator. *)

From Stdlib Require Import Strings.Byte.
From S2P Require Import Prelude GoBytes GoVarint GoSort Wal Bloom BlockCache SSTableFormat SSTableWriter.
Import Block.

(** ** The file *)

(** An open file: its bytes, and the offsets at which the device fails to
    read. *)
Record source := mkSource { s_data : bytes; s_bad : Z -> bool }.

(** [int64(offset)] *)
Definition to_int64 (z : Z) : Z := if z <? 2 ^ 63 then z else z - 2 ^ 64.

(** [f.ReadAt(buf, off)] for a buffer of [n] bytes. *)
Definition readAt (f : source) (off n : Z) : res bytes :=
  if off <? 0 then Err (Errorf "negative offset")
  else if s_bad f off then Err (Errorf "read")
  else if len (s_data f) <? off + n then Err (Errorf "EOF")
  else Ok (take (Z.to_nat n) (drop (Z.to_nat off) (s_data f))).

Definition readChecksummed (f : source) (offset length : Z) : res bytes :=
  if length <? 4 then Err (Errorf "block is too small to contain a checksum") else
  let* _ := Bloom.make_bytes length in
  let* buf := res_wrap "read at offset" (readAt f (to_int64 offset) length) in
  let* data := slice buf 0 (len buf - 4) in
  let* want := get_u32 buf (len buf - 4) in
  if negb (crc32c data =? want) then Err (Errorf "checksum mismatch: file is corrupt")
  else Ok data.

(** ** Opening *)

Record Reader := mkReader {
  r_f : source;
  r_path : string;
  r_index : list indexEntry;
  r_bloom : Bloom.bloomFilter;
  r_numEntries : Z;
  r_maxSeq : Z
}.

(** [Stat] succeeds in the model; the cache is threaded through the calls that
    use it. *)
Definition OpenWithCache (path : string) (f : option source) : res Reader :=
  match f with
  | None => Err (Wrapf "sstable: open" (Errorf "open"))
  | Some f =>
      let size := len (s_data f) in
      if size <? footerSize then Err (Errorf "sstable: too small to contain a valid footer") else
      let* foot := res_wrap "sstable: read footer" (readAt f (size - footerSize) footerSize) in
      let* indexOffset := get_u64 foot 0 in
      let* indexLength := get_u64 foot 8 in
      let* bloomOffset := get_u64 foot 16 in
      let* bloomLength := get_u64 foot 24 in
      let* numEntries := get_u64 foot 32 in
      let* maxSeq := get_u64 foot 40 in
      let* magic := get_u64 foot 48 in
      if negb (magic =? magicNumber) then Err (Errorf "sstable: bad magic number") else
      let* bloomRaw := res_wrap "sstable: reading bloom filter block"
                         (readChecksummed f bloomOffset bloomLength) in
      let* bloom := res_wrap "sstable: decoding bloom filter" (Bloom.decodeBloomFilter bloomRaw) in
      let* indexRaw := res_wrap "sstable: reading index block"
                         (readChecksummed f indexOffset indexLength) in
      let* ix := res_wrap "sstable: decoding index" (decodeIndex indexRaw) in
      Ok (mkReader f path ix bloom (to_int64 numEntries) maxSeq)
  end.

(** ** Lookups *)

Abbreviation cache := (option BlockCache.BlockCache).

Definition readDataBlock (c : cache) (r : Reader) (blk : indexEntry) : cache * res bytes :=
  match BlockCache.get c (r_path r) (offset blk) with
  | (c, Some data) => (c, Ok data)
  | (c, None) =>
      match readChecksummed (r_f r) (offset blk) (length_ blk) with
      | Ok data =>
          match BlockCache.put c (r_path r) (offset blk) data with
          | Ok c => (c, Ok data)
          | Err e => (c, Err e)
          | Panic => (c, Panic)
          end
      | Err e => (c, Err e)
      | Panic => (c, Panic)
      end
  end.

(** [(value, seq, deleted, found)] *)
Abbreviation answer := (bytes * Z * bool * bool)%type.
Definition not_found : answer := ([], 0, false, false).

(** [for off < len(data)] of [Get]; every entry consumes a byte or more. *)
Fixpoint get_loop (fuel : nat) (data : bytes) (off : Z) (k : bytes) : res answer :=
  match fuel with
  | O => Panic
  | S fuel =>
      if off <? len data then
        let* rest := slice_from data off in
        let* '(e, n) := res_wrap "sstable: decoding entry" (decodeEntry rest) in
        if compare (key e) k =? 0 then Ok (value e, seq e, deleted e, true)
        else if compare (key e) k =? 1 then Ok not_found
        else get_loop fuel data (off + n) k
      else Ok not_found
  end.

Definition Get (c : cache) (r : Reader) (k : bytes) : cache * res answer :=
  match Bloom.mayContain (r_bloom r) k with
  | Err e => (c, Err e)
  | Panic => (c, Panic)
  | Ok false => (c, Ok not_found)
  | Ok true =>
  match search (len (r_index r)) (fun i =>
          let* e := index (r_index r) i in Ok (0 <=? compare (lastKey e) k)) with
  | Err e => (c, Err e)
  | Panic => (c, Panic)
  | Ok i =>
  if i =? len (r_index r) then (c, Ok not_found) else
  match index (r_index r) i with
  | Err e => (c, Err e)
  | Panic => (c, Panic)
  | Ok blk =>
  match readDataBlock c r blk with
  | (c, Err e) => (c, Err (Wrapf "sstable: reading data block" e))
  | (c, Panic) => (c, Panic)
  | (c, Ok data) => (c, get_loop (S (length data)) data 0 k)
  end end end end.

(** ** The iterator *)

Record Iterator := mkIter {
  blockIdx : Z;
  entries : list decodedEntry;
  entryIdx : Z;
  it_err : option error
}.

Definition NewIterator : Iterator := mkIter (-1) [] (-1) None.

(** The decoding loop of [loadBlock]. *)
Fixpoint decode_loop (fuel : nat) (data : bytes) (off : Z) : res (list decodedEntry) :=
  match fuel with
  | O => Panic
  | S fuel =>
      if off <? len data then
        let* rest := slice_from data off in
        let* '(e, n) := decodeEntry rest in
        let* es := decode_loop fuel data (off + n) in
        Ok (e :: es)
      else Ok []
  end.

Definition loadBlock (c : cache) (r : Reader) (it : Iterator) (i : Z) : res (cache * Iterator) :=
  if (i <? 0) || (len (r_index r) <=? i) then Ok (c, mkIter i [] (-1) (it_err it))
  else
    let* blk := index (r_index r) i in
    match readDataBlock c r blk with
    | (c, Panic) => Panic
    | (c, Err e) =>
        Ok (c, mkIter (blockIdx it) [] (-1) (Some (Wrapf "sstable: iterator reading block" e)))
    | (c, Ok data) =>
        match decode_loop (S (length data)) data 0 with
        | Panic => Panic
        | Err e => Ok (c, mkIter (blockIdx it) [] (-1) (Some (Wrapf "sstable: iterator decoding block" e)))
        | Ok es => Ok (c, mkIter i es 0 (it_err it))
        end
    end.

Definition SeekToFirst (c : cache) (r : Reader) (it : Iterator) : res (cache * Iterator) :=
  loadBlock c r (mkIter (blockIdx it) (entries it) (entryIdx it) None) 0.

Definition Valid (it : Iterator) : bool :=
  bool_decide (it_err it = None) && (0 <=? entryIdx it) && (entryIdx it <? len (entries it)).

Definition Next (c : cache) (r : Reader) (it : Iterator) : res (cache * Iterator) :=
  match it_err it with
  | Some _ => Ok (c, it)
  | None =>
      let it := mkIter (blockIdx it) (entries it) (entryIdx it + 1) None in
      if len (entries it) <=? entryIdx it then loadBlock c r it (blockIdx it + 1) else Ok (c, it)
  end.

Definition Err_ (it : Iterator) : option error := it_err it.
Definition Current (it : Iterator) : res decodedEntry := index (entries it) (entryIdx it).
Definition Key (it : Iterator) : res bytes := let* e := Current it in Ok (key e).
Definition Value (it : Iterator) : res bytes := let* e := Current it in Ok (value e).
Definition Deleted (it : Iterator) : res bool := let* e := Current it in Ok (deleted e).
Definition SeqNum (it : Iterator) : res Z := let* e := Current it in Ok (seq e).

(** [for it.SeekToFirst(); it.Valid(); it.Next()] of the clients, with the
    [it.Err()] they check afterwards. *)
Fixpoint drain (fuel : nat) (c : cache) (r : Reader) (it : Iterator)
    : res (cache * list decodedEntry * option error) :=
  match fuel with
  | O => Panic
  | S fuel =>
      if Valid it then
        let* k := Key it in let* v := Value it in let* s := SeqNum it in let* d := Deleted it in
        let* '(c, it) := Next c r it in
        let* '(c, es, err) := drain fuel c r it in
        Ok (c, mkEntry k v s d :: es, err)
      else Ok (c, [], Err_ it)
  end.

(** ** Reading back what was written *)

Lemma len_checksummed d : len (checksummed d) = len d + 4.
Proof. unfold checksummed. len_lia. Qed.

Lemma take_drop_mid (pre l suf : bytes) : take (length l) (drop (length pre) (pre ++ l ++ suf)) = l.
Proof. by rewrite drop_app_length, take_app_length. Qed.

Lemma readAt_mid f pre l suf :
  s_data f = pre ++ l ++ suf ->
  readAt f (len pre) (len l) = if s_bad f (len pre) then Err (Errorf "read") else Ok l.
Proof.
  intros Hd. unfold readAt. rewrite Hd. pose_len. rewrite (proj2 (Z.ltb_ge _ 0)) by lia.
  destruct (s_bad f (len pre)); [done |]. rewrite (proj2 (Z.ltb_ge _ _)) by len_lia.
  by rewrite !len_to_nat, take_drop_mid.
Qed.

Lemma readChecksummed_mid f pre d suf :
  s_data f = pre ++ checksummed d ++ suf -> len (s_data f) <= Bloom.maxAlloc ->
  readChecksummed f (len pre) (len (checksummed d))
  = if s_bad f (len pre) then Err (Wrapf "read at offset" (Errorf "read")) else Ok d.
Proof.
  intros Hd Hm. rewrite Hd, !len_app in Hm. unfold readChecksummed. rewrite len_checksummed in *. pose_len.
  rewrite (proj2 (Z.ltb_ge _ 4)) by lia. unfold Bloom.make_bytes.
  rewrite !(proj2 (Z.leb_le _ _)) by lia. simpl andb. cbn [res_bind].
  unfold to_int64. unfold Bloom.maxAlloc in Hm. rewrite (proj2 (Z.ltb_lt _ (2 ^ 63))) by lia.
  rewrite <- len_checksummed, (readAt_mid f pre (checksummed d) suf) by done.
  destruct (s_bad f (len pre)); [done |]. cbn [res_wrap res_bind].
  rewrite len_checksummed. unfold checksummed.
  rewrite slice_hit by lia. cbn [res_bind]. rewrite get_u32_skip by lia.
  rewrite <- (app_nil_r (put_u32 _)), get_u32_hit by lia. cbn [res_bind].
  by rewrite u32_small, Z.eqb_refl by apply crc32c_range.
Qed.

(** ** Entries of a block *)

Fixpoint lookup_entry (es : list decodedEntry) (k : bytes) : answer :=
  match es with
  | [] => not_found
  | e :: es => if bool_decide (key e = k) then (value e, seq e, deleted e, true) else lookup_entry es k
  end.

Lemma lookup_entry_none es k : (forall e, e ∈ es -> key e <> k) -> lookup_entry es k = not_found.
Proof.
  induction es as [|e es IH]; intros H; simpl; [done |].
  rewrite bool_decide_eq_false_2 by (apply H; by left). apply IH. intros x Hx. apply H. by right.
Qed.

Lemma lookup_entry_app l1 l2 k :
  lookup_entry (l1 ++ l2) k = if decide (Exists (fun e => key e = k) l1) then lookup_entry l1 k else lookup_entry l2 k.
Proof.
  induction l1 as [|e l1 IH]; cbn [app lookup_entry].
  { destruct (decide (Exists _ [])) as [H|]; [by apply Exists_nil in H | done]. }
  destruct (decide (Exists _ (e :: l1))) as [Hx | Hx]; case_bool_decide as He; try done; try rewrite IH.
  - apply Exists_cons in Hx as [? | Hx]; [done |]. by rewrite decide_True.
  - exfalso. apply Hx. by constructor.
  - rewrite decide_False; [done |]. intros H. apply Hx. by apply Exists_cons_tl.
Qed.

(** The lookup in one part of a list when the rest does not have the key. *)
Lemma lookup_entry_mid l1 b l2 k :
  (forall e, e ∈ l1 -> key e <> k) -> (forall e, e ∈ l2 -> key e <> k) ->
  lookup_entry (l1 ++ b ++ l2) k = lookup_entry b k.
Proof.
  intros H1 H2. rewrite lookup_entry_app, decide_False.
  2:{ intros (e & He & Hk)%Exists_exists. by apply (H1 e). }
  rewrite lookup_entry_app. destruct (decide (Exists _ b)) as [|Hn]; [done |].
  rewrite !lookup_entry_none; [done | | done]. intros e He Hk. apply Hn, Exists_exists. by exists e.
Qed.

Lemma block_bytes_cons e es : block_bytes (e :: es) = encode e ++ block_bytes es.
Proof. done. Qed.

Lemma length_block_bytes es : (length es <= length (block_bytes es))%nat.
Proof.
  induction es as [|e es IH]; [simpl; lia |]. rewrite block_bytes_cons, length_app.
  pose proof (len_encode_pos e). unfold len in *. simpl. lia.
Qed.

(** One round of a decoding loop. *)
Lemma decode_round pre e es :
  Forall entry_wf (e :: es) -> len (pre ++ block_bytes (e :: es)) < 2 ^ 62 ->
  (len pre <? len (pre ++ block_bytes (e :: es))) = true /\
  exists rest, slice_from (pre ++ block_bytes (e :: es)) (len pre) = Ok rest /\
    decodeEntry rest = Ok (e, len (encode e)) /\
    pre ++ block_bytes (e :: es) = (pre ++ encode e) ++ block_bytes es /\
    len pre + len (encode e) = len (pre ++ encode e).
Proof.
  intros Hwf Hl. apply Forall_cons in Hwf as [He _]. rewrite block_bytes_cons in *.
  pose proof (len_encode_pos e). rewrite !len_app in *. pose_len. split; [apply Z.ltb_lt; lia |].
  exists (encode e ++ block_bytes es). split_and!.
  - by rewrite slice_from_skip, slice_from_hit by lia.
  - apply decodeEntry_encode; [done | lia].
  - by rewrite app_assoc.
  - done.
Qed.

Lemma get_loop_spec es : forall fuel pre k,
  Forall entry_wf es -> sorted (key <$> es) -> len (pre ++ block_bytes es) < 2 ^ 62 -> (length es < fuel)%nat ->
  get_loop fuel (pre ++ block_bytes es) (len pre) k = Ok (lookup_entry es k).
Proof.
  induction es as [|e es IH]; intros fuel pre k Hwf Hs Hl Hf; (destruct fuel as [|fuel]; [simpl in Hf; lia |]); cbn [get_loop].
  { unfold block_bytes. simpl. by rewrite app_nil_r, Z.ltb_irrefl. }
  destruct (decode_round pre e es Hwf Hl) as (-> & rest & -> & Hdec & Heq & Hlen). cbn [res_bind].
  rewrite Hdec. cbn [res_wrap res_bind]. simpl lookup_entry.
  apply Forall_cons in Hwf as [_ Hwf]. apply StronglySorted_inv in Hs as [Hs Hall].
  destruct (Z.eqb_spec (compare (key e) k) 0) as [Hc | Hc].
  { apply compare_eq in Hc. by rewrite bool_decide_eq_true_2. }
  rewrite bool_decide_eq_false_2 by (intros Hk; apply Hc; rewrite Hk; apply compare_refl).
  destruct (Z.eqb_spec (compare (key e) k) 1) as [Hg | Hg].
  - rewrite lookup_entry_none; [done |]. intros x Hx Hk. rewrite Forall_forall in Hall.
    assert (key_lt (key e) (key x)) as Hlt by (apply Hall, list_elem_of_fmap; by exists x).
    unfold key_lt in Hlt. rewrite Hk in Hlt. lia.
  - rewrite Heq, Hlen. apply IH; [done | done | by rewrite <- Heq | simpl in Hf; lia].
Qed.

Lemma decode_loop_spec es : forall fuel pre,
  Forall entry_wf es -> len (pre ++ block_bytes es) < 2 ^ 62 -> (length es < fuel)%nat ->
  decode_loop fuel (pre ++ block_bytes es) (len pre) = Ok es.
Proof.
  induction es as [|e es IH]; intros fuel pre Hwf Hl Hf; (destruct fuel as [|fuel]; [simpl in Hf; lia |]); cbn [decode_loop].
  { unfold block_bytes. simpl. by rewrite app_nil_r, Z.ltb_irrefl. }
  destruct (decode_round pre e es Hwf Hl) as (-> & rest & -> & Hdec & Heq & Hlen). cbn [res_bind].
  rewrite Hdec. cbn [res_bind]. apply Forall_cons in Hwf as [_ Hwf].
  rewrite Heq, Hlen, IH; [done | done | by rewrite <- Heq | simpl in Hf; lia].
Qed.

(** ** A finished table *)

Lemma index_of_lookup bs : forall off i b,
  bs !! i = Some b ->
  index_of off bs !! i
  = Some (mkIndex (last_key b) (u64 (off + len (blocks_image (take i bs)))) (len (block_image b))).
Proof.
  induction bs as [|x bs IH]; intros off [|i] b; simpl; try done.
  - intros [= ->]. unfold blocks_image. simpl. by rewrite Z.add_0_r.
  - intros Hb. rewrite (IH _ _ _ Hb). unfold blocks_image. simpl. by rewrite len_app, Z.add_assoc.
Qed.

Lemma index_of_length off bs : length (index_of off bs) = length bs.
Proof. revert off. induction bs as [|b bs IH]; intros off; simpl; [done | by rewrite IH]. Qed.

Lemma index_of_keys off bs : lastKey <$> index_of off bs = last_key <$> bs.
Proof. revert off. induction bs as [|b bs IH]; intros off; [done |]. simpl. f_equal. apply IH. Qed.

Lemma blocks_image_split bs i b :
  bs !! i = Some b -> blocks_image bs = blocks_image (take i bs) ++ block_image b ++ blocks_image (drop (S i) bs).
Proof.
  intros Hb. rewrite <- (take_drop_middle bs i b Hb) at 1. unfold blocks_image.
  by rewrite map_app, concat_app.
Qed.

Lemma last_key_in b : b <> [] -> last_key b ∈ key <$> b.
Proof.
  intros Hb. unfold last_key. destruct (last b) as [e|] eqn:E; [| by apply last_None in E].
  apply last_Some in E as [l ->]. rewrite fmap_app. apply elem_of_app. right. by left.
Qed.

Lemma key_le_last b e : sorted (key <$> b) -> e ∈ b -> key_le (key e) (last_key b).
Proof.
  intros Hs He. destruct b as [|x b _] using rev_ind; [by apply not_elem_of_nil in He |].
  unfold last_key. rewrite last_snoc. simpl. apply key_le_cases.
  apply elem_of_app in He as [He | ->%list_elem_of_singleton]; [left | by right].
  rewrite fmap_app in Hs. apply sorted_app in Hs as (_ & _ & H).
  apply H; [apply list_elem_of_fmap; by exists e | by left].
Qed.

Lemma last_keys_sorted bs :
  Forall (fun b => b <> []) bs -> sorted (key <$> concat bs) -> sorted (last_key <$> bs).
Proof.
  induction bs as [|b bs IH]; intros Hne Hs; [constructor |].
  apply Forall_cons in Hne as [Hb Hne]. rewrite concat_cons, fmap_app in Hs.
  apply sorted_app in Hs as (_ & Hs & Hlt). rewrite fmap_cons. constructor; [by apply IH |].
  apply Forall_forall. intros k (b' & -> & Hb')%list_elem_of_fmap. apply Hlt; [by apply last_key_in |].
  rewrite Forall_forall in Hne. specialize (Hne b' Hb').
  pose proof (last_key_in b' Hne) as (e & -> & He)%list_elem_of_fmap.
  apply list_elem_of_fmap. exists e. split; [done |]. apply list_elem_of_In, in_concat.
  exists b'. split; by apply list_elem_of_In.
Qed.

Lemma elem_of_concat {A} (x : A) l : x ∈ concat l <-> exists b, b ∈ l /\ x ∈ b.
Proof.
  rewrite list_elem_of_In, in_concat. split; intros (b & H1 & H2); exists b; rewrite !list_elem_of_In in *; done.
Qed.

Section table.
Context (bs : list (list decodedEntry)) (bf : Bloom.bloomFilter) (bad : Z -> bool) (path : string).
Let F := table_image bs bf.
Let f := mkSource F bad.
Context (Hne : Forall (fun b => b <> []) bs).
Context (Hso : sorted (key <$> concat bs)).
Context (Hseq : Forall (fun e => is_u64 (seq e)) (concat bs)).
Context (Hbf : Bloom.wf bf).
Context (Hmay : forall k, k ∈ key <$> concat bs -> Bloom.mayContain bf k = Ok true).
Context (Hsize : len F <= Bloom.maxAlloc).

Definition table_reader : Reader :=
  mkReader f path (index_of 0 bs) bf (len (concat bs)) (max_seq (concat bs)).

Lemma image_parts :
  exists foot, F = blocks_image bs ++ checksummed (Bloom.encode bf) ++
                   checksummed (encodeIndex (index_of 0 bs)) ++ foot /\ len foot = footerSize.
Proof. eexists. split; [reflexivity |]. unfold footer, footerSize. len_lia. Qed.

Lemma data_size : len (blocks_image bs) <= Bloom.maxAlloc.
Proof. destruct image_parts as (foot & HF & _). rewrite HF, !len_app in Hsize. pose_len. lia. Qed.

Lemma block_size b : b ∈ bs -> len (block_bytes b) + 4 <= Bloom.maxAlloc.
Proof.
  intros (i & Hi)%list_elem_of_lookup. pose proof data_size as Hd. rewrite (blocks_image_split _ _ _ Hi) in Hd.
  rewrite !len_app in Hd. unfold block_image in Hd. rewrite len_checksummed in Hd. pose_len. lia.
Qed.

Lemma entry_size b e : b ∈ bs -> e ∈ b -> len (key e) + len (value e) <= Bloom.maxAlloc.
Proof.
  intros Hb He. pose proof (block_size b Hb) as Hs.
  apply list_elem_of_split in He as (l1 & l2 & ->). unfold block_bytes in Hs.
  rewrite map_app, concat_app, map_cons, concat_cons, !len_app in Hs.
  unfold encode, encodeEntry in Hs. rewrite !len_app in Hs. pose_len. lia.
Qed.

Lemma block_wf b : b ∈ bs -> Forall entry_wf b.
Proof.
  intros Hb. apply Forall_forall. intros e He. pose proof (entry_size b e Hb He). unfold Bloom.maxAlloc in *.
  rewrite Forall_forall in Hseq. pose_len. split_and!; [| lia | lia].
  apply Hseq, elem_of_concat. by exists b.
Qed.

Lemma block_sorted b : b ∈ bs -> sorted (key <$> b).
Proof.
  intros (l1 & l2 & Hb)%list_elem_of_split. rewrite Hb, concat_app, concat_cons, !fmap_app in Hso.
  apply sorted_app in Hso as (_ & H & _). by apply sorted_app in H as (? & _).
Qed.

(** The block an index entry points to. *)
Lemma read_block i b :
  bs !! i = Some b ->
  exists blk, index_of 0 bs !! i = Some blk /\
    readChecksummed f (offset blk) (length_ blk)
    = if bad (offset blk) then Err (Wrapf "read at offset" (Errorf "read")) else Ok (block_bytes b).
Proof.
  intros Hb. rewrite (index_of_lookup bs 0 i b Hb). eexists. split; [reflexivity |]. simpl.
  destruct image_parts as (foot & HF & _). pose proof data_size as Hd.
  rewrite (blocks_image_split bs i b Hb) in HF, Hd. rewrite !len_app in Hd. pose_len.
  rewrite u64_small by (unfold is_u64, Bloom.maxAlloc in *; lia).
  rewrite <- !app_assoc in HF. by apply (readChecksummed_mid f _ _ _ HF).
Qed.

Lemma index_entries_wf : Forall index_wf (index_of 0 bs).
Proof.
  apply Forall_forall. intros blk (i & Hi)%list_elem_of_lookup.
  pose proof (lookup_lt_Some _ _ _ Hi) as Hlt. rewrite index_of_length in Hlt.
  destruct (lookup_lt_is_Some_2 bs i Hlt) as [b Hb]. rewrite (index_of_lookup bs 0 i b Hb) in Hi.
  injection Hi as <-. assert (b ∈ bs) as Hin by (by eapply list_elem_of_lookup_2).
  pose proof (block_size b Hin). unfold Bloom.maxAlloc in *. pose_len.
  split_and!; simpl; [| apply u64_range | unfold block_image, is_u64; rewrite len_checksummed; lia].
  rewrite Forall_forall in Hne. pose proof (last_key_in b (Hne b Hin)) as (e & -> & He)%list_elem_of_fmap.
  pose proof (entry_size b e Hin He). unfold Bloom.maxAlloc in *. pose_len. lia.
Qed.

Lemma max_seq_range es m : is_u64 m -> Forall (fun e => is_u64 (seq e)) es ->
  is_u64 (fold_left (fun m e => Z.max m (seq e)) es m).
Proof.
  revert m. induction es as [|e es IH]; intros m Hm Hs; simpl; [done |].
  apply Forall_cons in Hs as [He Hs]. apply IH; [unfold is_u64 in *; lia | done].
Qed.

Lemma concat_size : len (concat bs) <= len (blocks_image bs).
Proof.
  clear. induction bs as [|b l IH]; [done |]. unfold blocks_image in *. simpl. rewrite !len_app.
  unfold block_image at 1. rewrite len_checksummed. pose proof (length_block_bytes b). unfold len in *. lia.
Qed.

(** Opening the file yields the table's reader or reports a read error. *)
Lemma Open_cases :
  OpenWithCache path (Some f) = Ok table_reader \/
  ((exists e, OpenWithCache path (Some f) = Err e) /\ exists o, bad o = true).
Proof.
  destruct image_parts as (foot0 & HF0 & Hfoot).
  set (d := blocks_image bs) in *. set (bl := checksummed (Bloom.encode bf)) in *.
  set (ix := checksummed (encodeIndex (index_of 0 bs))) in *.
  assert (foot0 = footer (u64 (len (d ++ bl))) (len ix) (u64 (len d)) (len bl) (len (concat bs)) (max_seq (concat bs))) as Hf0.
  { unfold F, table_image in HF0. fold d bl ix in HF0. by do 3 apply app_inv_head in HF0. }
  pose proof concat_size as Hcs. fold d in Hcs. pose proof Hsize as Hsz. rewrite HF0, !len_app, Hfoot in Hsz.
  unfold footerSize, Bloom.maxAlloc in Hsz. pose_len.
  unfold OpenWithCache. change (s_data f) with F.
  replace (len F) with (len (d ++ bl ++ ix) + footerSize) by (rewrite HF0; len_lia).
  unfold footerSize in *. rewrite (proj2 (Z.ltb_ge _ 56)) by len_lia.
  rewrite Z.add_simpl_r. rewrite <- Hfoot.
  rewrite (readAt_mid f (d ++ bl ++ ix) foot0 []) by (rewrite app_nil_r, <- !app_assoc; exact HF0).
  change (s_bad f) with bad. destruct (bad (len (d ++ bl ++ ix))) eqn:Hb1; [right; split; eauto |].
  cbn [res_wrap res_bind]. rewrite Hf0. unfold footer. read_field.
  replace (put_u64 magicNumber) with (put_u64 magicNumber ++ []) by apply app_nil_r. read_field.
  assert (is_u64 (len (d ++ bl)) /\ is_u64 (len d) /\ is_u64 (len ix) /\ is_u64 (len bl) /\ is_u64 (len (concat bs)))
    as (U1 & U2 & U3 & U4 & U5) by (unfold is_u64; rewrite len_app; lia).
  assert (is_u64 (max_seq (concat bs))) as U6 by (apply max_seq_range; [unfold is_u64; lia | done]).
  rewrite !(u64_small magicNumber) by (unfold is_u64, magicNumber; lia). rewrite Z.eqb_refl. simpl negb. cbv iota.
  rewrite !(u64_small (len d)), !(u64_small (len (d ++ bl))), !(u64_small (len bl)), !(u64_small (len ix)),
    !(u64_small (len (concat bs))), !(u64_small (max_seq (concat bs))) by done.
  pose proof (readChecksummed_mid f d (Bloom.encode bf) (ix ++ foot0) HF0 Hsize) as Hr1. fold bl in Hr1.
  rewrite Hr1. clear Hr1.
  change (s_bad f) with bad. destruct (bad (len d)) eqn:Hb2; [right; split; eauto |].
  cbn [res_wrap res_bind]. rewrite Bloom.bloom_decode_encode by done. cbn [res_wrap res_bind].
  assert (s_data f = (d ++ bl) ++ ix ++ foot0) as HF1 by (rewrite <- app_assoc; exact HF0).
  pose proof (readChecksummed_mid f (d ++ bl) (encodeIndex (index_of 0 bs)) foot0 HF1 Hsize) as Hr2.
  fold ix in Hr2. rewrite Hr2. clear Hr2.
  change (s_bad f) with bad. destruct (bad (len (d ++ bl))) eqn:Hb3; [right; split; eauto |].
  cbn [res_wrap res_bind]. rewrite decodeIndex_encode.
  - left. cbn [res_wrap res_bind]. unfold to_int64. by rewrite (proj2 (Z.ltb_lt _ (2 ^ 63))) by lia.
  - apply index_entries_wf.
  - unfold ix in Hsz. rewrite len_checksummed in Hsz. lia.
Qed.

(** ** The cache and the table *)

#[local] Arguments BlockCache.put : simpl never.
#[local] Arguments BlockCache.get : simpl never.

(** Whatever the cache holds for a block of this table is that block. *)
Definition coherent (c : cache) : Prop :=
  match c with
  | None => True
  | Some c =>
      BlockCache.cinv c /\
      forall i b blk e, bs !! i = Some b -> index_of 0 bs !! i = Some blk ->
        BlockCache.items c !! (path, offset blk) = Some e -> BlockCache.ce_data e = block_bytes b
  end.

Lemma offset_small i b blk :
  bs !! i = Some b -> index_of 0 bs !! i = Some blk -> offset blk = len (blocks_image (take i bs)).
Proof.
  intros Hb. rewrite (index_of_lookup bs 0 i b Hb). intros [= <-]. simpl. apply u64_small.
  pose proof data_size as Hd. rewrite (blocks_image_split bs i b Hb), !len_app in Hd. pose_len.
  unfold is_u64, Bloom.maxAlloc in *. lia.
Qed.

(** Different blocks start at different offsets. *)
Lemma offset_inj i j b b' blk blk' :
  bs !! i = Some b -> index_of 0 bs !! i = Some blk -> bs !! j = Some b' -> index_of 0 bs !! j = Some blk' ->
  offset blk = offset blk' -> i = j.
Proof.
  intros Hb Hk Hb' Hk'. rewrite (offset_small _ _ _ Hb Hk), (offset_small _ _ _ Hb' Hk').
  assert (forall p q x, bs !! p = Some x -> (p < q)%nat ->
    len (blocks_image (take p bs)) < len (blocks_image (take q bs))) as Hlt.
  { intros p q x Hp Hpq. assert (take q bs !! p = Some x) as Hp' by (by rewrite lookup_take_lt).
    rewrite (blocks_image_split _ _ _ Hp'), take_take, Nat.min_l by lia. rewrite !len_app.
    unfold block_image. rewrite len_checksummed. pose_len. lia. }
  intros Heq. destruct (Nat.lt_trichotomy i j) as [H | [H | H]]; [| done |].
  - specialize (Hlt _ _ _ Hb H). lia.
  - specialize (Hlt _ _ _ Hb' H). lia.
Qed.

Lemma readDataBlock_spec c i b blk :
  coherent c -> bs !! i = Some b -> index_of 0 bs !! i = Some blk ->
  exists c' a, readDataBlock c table_reader blk = (c', a) /\ coherent c' /\
    (a = Ok (block_bytes b) \/ ((exists e, a = Err e) /\ exists o, bad o = true)).
Proof.
  intros Hc Hb Hk. unfold readDataBlock. simpl r_path. simpl r_f.
  destruct (read_block i b Hb) as (blk' & Hk' & Hread). rewrite Hk in Hk'. injection Hk' as <-.
  destruct c as [c|].
  - destruct Hc as [Hci Hco]. destruct (BlockCache.cache_get_spec c path (offset blk) Hci) as (c1 & -> & Hc1 & Hit1).
    assert (coherent (Some c1)) as Hcoh1 by (split; [done |]; rewrite Hit1; exact Hco).
    destruct (BlockCache.items c !! (path, offset blk)) as [e|] eqn:He; simpl.
    { eexists _, _. split; [reflexivity |]. split; [done |]. left. by rewrite (Hco i b blk e). }
    rewrite Hread. destruct (bad (offset blk)) eqn:Hbad; [eexists _, _; split_and!; [done | done | right; eauto] |].
    destruct (BlockCache.cache_put_spec c1 path (offset blk) (block_bytes b) Hc1) as (c2 & -> & Hc2 & Hput).
    eexists _, _. split; [reflexivity |]. split; [| by left]. split; [done |].
    intros j b' blk' e' Hb' Hk' Hin. apply Hput in Hin as [Hin | [[= Hoff] Hd]].
    + rewrite Hit1 in Hin. by eapply Hco.
    + pose proof (offset_inj _ _ _ _ _ _ Hb Hk Hb' Hk' (eq_sym Hoff)) as <-. congruence.
  - unfold BlockCache.get, BlockCache.put. rewrite Hread.
    destruct (bad (offset blk)) eqn:Hbad; eexists _, _; split_and!; try done; [right | by left].
    split; eauto.
Qed.

(** ** Lookups *)

Lemma Get_spec c k :
  coherent c ->
  exists c' a, Get c table_reader k = (c', a) /\ coherent c' /\
    (a = Ok (lookup_entry (concat bs) k) \/ ((exists e, a = Err e) /\ exists o, bad o = true)).
Proof.
  intros Hc. unfold Get. simpl r_bloom. simpl r_index.
  destruct (Bloom.mayContain_spec bf k Hbf) as (m & Hm & _). rewrite Hm. destruct m.
  2:{ eexists _, _. split; [reflexivity |]. split; [done |]. left. rewrite lookup_entry_none; [done |].
      intros e He Hk. rewrite Hmay in Hm; [done |]. apply list_elem_of_fmap. by exists e. }
  pose proof (last_keys_sorted bs Hne Hso) as Hls.
  destruct (search_sorted lastKey (index_of 0 bs) k) as (r & -> & Hr & Hlo & Hhi); [by rewrite index_of_keys |].
  rewrite index_of_length in Hr. unfold len. rewrite index_of_length.
  assert (forall j b, bs !! j = Some b -> (j < r)%nat -> forall e, e ∈ b -> key e <> k) as Hbefore.
  { intros j b Hb Hj e He. apply key_lt_neq. eapply key_le_lt_trans; [apply (key_le_last b e); [| done] |].
    - apply block_sorted. by eapply list_elem_of_lookup_2.
    - by apply (Hlo j _ (index_of_lookup bs 0 j b Hb)). }
  assert (forall e, e ∈ concat (take r bs) -> key e <> k) as Hpre.
  { intros e (b & (j & Hj)%list_elem_of_lookup & He)%elem_of_concat. apply lookup_take_Some in Hj as [Hj Hjr].
    by apply (Hbefore j b). }
  destruct (Z.eqb_spec (Z.of_nat r) (Z.of_nat (length bs))) as [Heq | Hneq].
  { eexists _, _. split; [reflexivity |]. split; [done |]. left. rewrite lookup_entry_none; [done |].
    by rewrite take_ge in Hpre by lia. }
  destruct (lookup_lt_is_Some_2 bs r ltac:(lia)) as [b Hb].
  pose proof (index_of_lookup bs 0 r b Hb) as Hix. rewrite (index_ok _ r _ Hix).
  destruct (readDataBlock_spec c r b _ Hc Hb Hix) as (c' & a & -> & Hc' & [-> | [[e ->] Ho]]); cycle 1.
  { eexists _, _. split_and!; [done | done | right; eauto]. }
  assert (b ∈ bs) as Hin by (by eapply list_elem_of_lookup_2).
  eexists _, _. split; [reflexivity |]. split; [done |]. left.
  pose proof (get_loop_spec b (S (length (block_bytes b))) [] k (block_wf b Hin) (block_sorted b Hin)) as Hg.
  pose proof (block_size b Hin) as Hbs. unfold Bloom.maxAlloc in Hbs. change (len []) with 0 in Hg.
  rewrite app_nil_l in Hg. rewrite Hg; [| lia | pose proof (length_block_bytes b); lia]. f_equal.
  rewrite <- (take_drop_middle bs r b Hb) at 1. rewrite concat_app, concat_cons, lookup_entry_mid; [done | done |].
  intros e He Hk. pose proof Hso as Hso'. rewrite <- (take_drop_middle bs r b Hb), concat_app, concat_cons, !fmap_app in Hso'.
  apply sorted_app in Hso' as (_ & Hso' & _). apply sorted_app in Hso' as (_ & _ & Hlt).
  rewrite Forall_forall in Hne. apply (irreflexivity key_lt k).
  apply (key_le_lt_trans _ (last_key b)); [by apply (Hhi r _ Hix) |]. rewrite <- Hk.
  apply Hlt; [by apply last_key_in, Hne | apply list_elem_of_fmap; by exists e].
Qed.

(** ** Iteration *)

Lemma loadBlock_end c it i :
  (length bs <= i)%nat ->
  loadBlock c table_reader it (Z.of_nat i) = Ok (c, mkIter (Z.of_nat i) [] (-1) (it_err it)).
Proof.
  intros Hi. unfold loadBlock. simpl r_index. unfold len. rewrite index_of_length.
  rewrite (proj2 (Z.leb_le _ (Z.of_nat i))) by lia. by rewrite orb_true_r.
Qed.

Lemma loadBlock_at c it i b :
  coherent c -> it_err it = None -> bs !! i = Some b ->
  exists c' it', loadBlock c table_reader it (Z.of_nat i) = Ok (c', it') /\ coherent c' /\
    (it' = mkIter (Z.of_nat i) b 0 None \/ (it_err it' <> None /\ exists o, bad o = true)).
Proof.
  intros Hc He Hb. unfold loadBlock. simpl r_index. pose proof (lookup_lt_Some _ _ _ Hb) as Hlt.
  unfold len. rewrite index_of_length, (proj2 (Z.ltb_ge _ 0)), (proj2 (Z.leb_gt _ (Z.of_nat i))) by lia.
  simpl orb. cbv iota. pose proof (index_of_lookup bs 0 i b Hb) as Hix. rewrite (index_ok _ i _ Hix). cbn [res_bind].
  destruct (readDataBlock_spec c i b _ Hc Hb Hix) as (c' & a & -> & Hc' & [-> | [[e ->] Ho]]); cycle 1.
  { eexists _, _. split_and!; [reflexivity | done | right]. by split. }
  assert (b ∈ bs) as Hin by (by eapply list_elem_of_lookup_2).
  pose proof (decode_loop_spec b (S (length (block_bytes b))) [] (block_wf b Hin)) as Hd.
  pose proof (block_size b Hin) as Hbs. unfold Bloom.maxAlloc in Hbs. change (len []) with 0 in Hd.
  rewrite app_nil_l in Hd. rewrite Hd; [| lia | pose proof (length_block_bytes b); lia].
  rewrite He. eexists _, _. split_and!; [reflexivity | done | by left].
Qed.

(** What a scan returns: the entries, or a leading part of them and the
    error that stopped it. *)
Definition scanned (all es : list decodedEntry) (err : option error) : Prop :=
  (err = None /\ es = all) \/ (err <> None /\ es `prefix_of` all /\ exists o, bad o = true).

Lemma scanned_cons e all es err : scanned all es err -> scanned (e :: all) (e :: es) err.
Proof.
  intros [[-> ->] | (He & Hp & Ho)]; [by left | right]. split_and!; [done | by apply prefix_cons | done].
Qed.

Lemma drain_stop fuel c it : Valid it = false -> drain (S fuel) c table_reader it = Ok (c, [], it_err it).
Proof. intros H. cbn [drain]. by rewrite H. Qed.

Lemma drain_spec fuel : forall c i b j,
  coherent c -> bs !! i = Some b -> (j < length b)%nat ->
  (length (drop j b ++ concat (drop (S i) bs)) < fuel)%nat ->
  exists c' es err, drain fuel c table_reader (mkIter (Z.of_nat i) b (Z.of_nat j) None) = Ok (c', es, err) /\
    coherent c' /\ scanned (drop j b ++ concat (drop (S i) bs)) es err.
Proof.
  induction fuel as [|fuel IH]; intros c i b j Hc Hb Hj Hf; [lia |]. cbn [drain].
  destruct (lookup_lt_is_Some_2 b j Hj) as [e He].
  unfold Valid. simpl. rewrite (proj2 (Z.leb_le 0 _)), (proj2 (Z.ltb_lt _ (len b))) by (unfold len; lia). simpl.
  unfold Key, Value, SeqNum, Deleted, Current. simpl. rewrite (index_ok b j e He). cbn [res_bind].
  replace (mkEntry (key e) (value e) (seq e) (deleted e)) with e by (by destruct e).
  rewrite (drop_S b e j He). unfold Next. simpl it_err. simpl entries. simpl entryIdx. simpl blockIdx.
  rewrite (drop_S b e j He) in Hf. simpl in Hf.
  destruct (Z.leb_spec (len b) (Z.of_nat j + 1)) as [Hend | Hmore].
  - rewrite drop_ge in Hf |- * by (unfold len in *; lia). simpl.
    replace (Z.of_nat i + 1) with (Z.of_nat (S i)) by lia.
    destruct (bs !! S i) as [b'|] eqn:Hb'.
    + destruct (loadBlock_at c (mkIter (Z.of_nat i) b (Z.of_nat j + 1) None) (S i) b' Hc eq_refl Hb')
        as (c1 & it1 & -> & Hc1 & [-> | [He1 Ho]]); cbn [res_bind].
      * assert (0 < length b')%nat as Hpos.
        { rewrite Forall_forall in Hne. specialize (Hne b' ltac:(by eapply list_elem_of_lookup_2)).
          destruct b'; [done | simpl; lia]. }
        rewrite (drop_S _ _ _ Hb'), concat_cons in Hf |- *.
        destruct (IH c1 (S i) b' O Hc1 Hb' Hpos ltac:(rewrite drop_0; simpl in *; lia)) as (c' & es & err & Hd & Hc' & Hs).
        change (Z.of_nat 0) with 0 in Hd. rewrite Hd. cbn [res_bind]. rewrite drop_0 in Hs. eexists _, _, _. split_and!; [done | done | by apply scanned_cons].
      * destruct fuel as [|fuel]; [simpl in Hf; lia |].
        rewrite drain_stop by (unfold Valid; by rewrite bool_decide_eq_false_2). cbn [res_bind].
        eexists _, _, _. split_and!; [done | done |]. right. split_and!; [done | | done].
        apply prefix_cons, prefix_nil.
    + apply lookup_ge_None_1 in Hb'. rewrite loadBlock_end by done. cbn [res_bind].
      destruct fuel as [|fuel]; [lia |]. rewrite drain_stop by done. cbn [res_bind].
      rewrite drop_ge by done. eexists _, _, _. split_and!; [done | done | by left].
  - cbn [res_bind]. replace (Z.of_nat j + 1) with (Z.of_nat (S j)) by lia.
    destruct (IH c i b (S j) Hc Hb ltac:(unfold len in *; lia) ltac:(lia)) as (c' & es & err & -> & Hc' & Hs).
    cbn [res_bind]. eexists _, _, _. split_and!; [done | done | by apply scanned_cons].
Qed.

(** A whole scan. *)
Definition scan (c : cache) (r : Reader) (fuel : nat) : res (cache * list decodedEntry * option error) :=
  let* '(c, it) := SeekToFirst c r NewIterator in drain fuel c r it.

Lemma scan_spec c fuel :
  coherent c -> (length (concat bs) < fuel)%nat ->
  exists c' es err, scan c table_reader fuel = Ok (c', es, err) /\ coherent c' /\ scanned (concat bs) es err.
Proof.
  intros Hc Hf. unfold scan, SeekToFirst, NewIterator. simpl blockIdx. simpl entries. simpl entryIdx.
  destruct fuel as [|fuel]; [lia |]. change 0 with (Z.of_nat 0).
  destruct (bs !! 0%nat) as [b|] eqn:Hb.
  - destruct (loadBlock_at c (mkIter (-1) [] (-1) None) 0 b Hc eq_refl Hb)
      as (c1 & it1 & -> & Hc1 & [-> | [He1 Ho]]); cbn [res_bind].
    + assert (0 < length b)%nat as Hpos.
      { rewrite Forall_forall in Hne. specialize (Hne b ltac:(by eapply list_elem_of_lookup_2)).
        destruct b; [done | simpl; lia]. }
      assert (concat bs = drop 0 b ++ concat (drop 1 bs)) as Heq
        by (rewrite <- (take_drop_middle bs 0 b Hb) at 1; done).
      destruct (drain_spec (S fuel) c1 0 b 0 Hc1 Hb Hpos ltac:(rewrite <- Heq; lia)) as (c' & es & err & Hd & Hc' & Hs).
      change (Z.of_nat 0) with 0 in Hd |- *. rewrite Hd, Heq. eauto 6.
    + rewrite drain_stop by (unfold Valid; by rewrite bool_decide_eq_false_2).
      eexists _, _, _. split_and!; [done | done |]. right. split_and!; [done | apply prefix_nil | done].
  - apply lookup_ge_None_1 in Hb. rewrite loadBlock_end by done. cbn [res_bind]. rewrite drain_stop by done.
    eexists _, _, _. split_and!; [done | done |]. left. split; [done |]. by destruct bs; [| simpl in Hb; lia].
Qed.
End table.
