(* ===== verification/SSTable.v ===== *)
(** * Tables, written and read back

    End to end: a sequence of sorted entries goes through the writer, the
    file, the reader, the bloom filter, the index and the shared block cache,
    and comes out of lookups and scans as it went in. *)

From Stdlib Require Import Strings.Byte.
From S2P Require Import Prelude GoBytes GoVarint GoSort Wal Bloom BlockCache SSTableFormat SSTableWriter SSTableReader.
Import Block.

(** The loop of the writer's clients: the entries are added in order up to the
    first error. *)
Fixpoint add_all (w : Writer) (es : list decodedEntry) : Writer * option error :=
  match es with
  | [] => (w, None)
  | e :: es =>
      match Add w (key e) (value e) (seq e) (deleted e) with
      | (w, None) => add_all w es
      | (w, Some err) => (w, Some err)
      end
  end.

(** Lookups one after another, sharing the cache. *)
Fixpoint gets (c : cache) (r : Reader) (ks : list bytes) : list (res answer) :=
  match ks with
  | [] => []
  | k :: ks => let '(c, a) := Get c r k in a :: gets c r ks
  end.

Definition new_cache (c : cache) : Prop := c = None \/ exists max, c = Some (BlockCache.NewBlockCache max).

(** The file a finished writer leaves. *)
Definition file_of (w : Writer) : bytes := Wal.Appender.synced (Wal.Appender.wr (out w)).

Lemma new_writer_inv path opts faults : winv [] [] (new_writer path opts faults).
Proof. constructor; try done. constructor. Qed.

Lemma add_all_spec es : forall bs cur w w',
  winv bs cur w -> closed w = false -> add_all w es = (w', None) ->
  exists bs' cur', winv bs' cur' w' /\ closed w' = false /\ concat bs' ++ cur' = (concat bs ++ cur) ++ es.
Proof.
  induction es as [|e es IH]; intros bs cur w w' Hw Hcl; cbn [add_all].
  { intros [= <-]. exists bs, cur. by rewrite app_nil_r. }
  destruct (Add w _ _ _ _) as [w1 [err|]] eqn:Ha; [done |]. intros Hrun.
  destruct (Add_spec _ _ _ _ _ _ _ _ Hw Ha) as (bs1 & cur1 & Hw1 & _ & Hcl1 & Heq).
  destruct (IH _ _ _ _ Hw1 Hcl1 Hrun) as (bs' & cur' & Hw' & Hcl' & Heq'). exists bs', cur'.
  split_and!; [done | done |]. rewrite Heq', Heq. destruct e. by rewrite <- (app_assoc _ [_]).
Qed.

(** Building a table from entries: create the file, add them, finish. *)
Definition write_table (fb : Z -> Z) (fh : Z -> Z -> Z) (path : string) (opts : Z)
    (file : option (list (option nat))) (es : list decodedEntry) : res (Meta * bytes) :=
  let* w := NewWriter path opts file in
  match add_all w es with
  | (_, Some err) => Err err
  | (w, None) => let '(w, r) := Finish fb fh w in let* meta := r in Ok (meta, file_of w)
  end.

Lemma write_table_inv fb fh path opts file es meta data :
  write_table fb fh path opts file es = Ok (meta, data) ->
  exists faults w w', add_all (new_writer path opts faults) es = (w, None) /\
    Finish fb fh w = (w', Ok meta) /\ data = file_of w'.
Proof.
  unfold write_table. destruct file as [faults|]; cbn [NewWriter res_bind]; [| done].
  destruct (add_all _ es) as [w [e|]] eqn:Ha; [done |]. destruct (Finish fb fh w) as [w' [m| |]] eqn:Hf; [| done | done].
  cbn [res_bind]. intros [= -> <-]. eauto 6.
Qed.

(** A successfully written file is the image of a table with these entries. *)
Lemma written fb fh path opts file es meta data :
  0 <= fb (len es) <= Bloom.maxAlloc -> write_table fb fh path opts file es = Ok (meta, data) ->
  exists bs bf,
    concat bs = es /\ Forall (fun b => b <> []) bs /\ sorted (key <$> es) /\ Bloom.wf bf /\
    (forall k, k ∈ key <$> es -> Bloom.mayContain bf k = Ok true) /\ data = table_image bs bf /\
    NumEntries meta = len es /\ MaxSeq meta = max_seq es /\ FileSize meta = u64 (len data) /\
    MaxKey meta = last_key es /\ MinKey meta = min_key es.
Proof.
  intros Hfb (faults & w & w' & Ha & Hf & ->)%write_table_inv.
  destruct (add_all_spec es [] [] _ _ (new_writer_inv path opts faults) eq_refl Ha) as (bs0 & cur & Hw & _ & Heq).
  simpl in Heq.
  destruct (Finish_spec _ _ _ _ _ _ _ Hw Hf) as (bs & bf & Hc & Hne & Hso & Hbf & Himg & Hn & Hm & Hs & Hmx & Hmn).
  rewrite Heq in Hc. rewrite Hc in *. exists bs, bf.
  destruct (Bloom.newBloomFilter_spec fb fh (len es) Hfb) as (b0 & Hb0 & Hwf0). rewrite Hb0 in Hbf. cbn [res_bind] in Hbf.
  destruct (Bloom.bloom_add_all (key <$> es) b0 Hwf0) as (b & Hadd & Hwf & Hm' & _ & Hall).
  rewrite Hadd in Hbf. injection Hbf as ->. unfold file_of. rewrite Himg. split_and!; try done.
  intros k Hk. destruct (Bloom.mayContain_spec bf k Hwf) as (a & -> & Ha'). f_equal. apply Ha'.
  intros Hz. apply Hall; [congruence | by left].
Qed.

(** Without faults, sorted entries are all accepted. *)
Lemma add_all_healthy es : forall bs cur w,
  winv bs cur w -> closed w = false -> healthy (out w) -> sorted (key <$> (concat bs ++ cur) ++ es) ->
  exists w', add_all w es = (w', None) /\ healthy (out w').
Proof.
  induction es as [|e es IH]; intros bs cur w Hw Hcl Hh Hs; cbn [add_all]; [by exists w |].
  destruct (Add_healthy bs cur w (key e) (value e) (seq e) (deleted e) Hw Hh Hcl) as (w1 & Ha & Hh1).
  { destruct (concat bs ++ cur) as [|x l _] using rev_ind; [by left | right].
    unfold last_key. rewrite last_snoc. simpl. rewrite fmap_app in Hs. apply sorted_app in Hs as (_ & _ & Hs).
    apply Hs; [rewrite fmap_app; apply elem_of_app; right |]; simpl; by left. }
  rewrite Ha. destruct (Add_spec _ _ _ _ _ _ _ _ Hw Ha) as (bs1 & cur1 & Hw1 & _ & Hcl1 & Heq).
  apply (IH bs1 cur1); [done | done | done |]. rewrite Heq, <- app_assoc. by destruct e.
Qed.

Lemma new_cache_coherent bs path c : new_cache c -> coherent bs path c.
Proof.
  intros [-> | [max ->]]; [done |]. split; [apply BlockCache.NewBlockCache_inv |].
  intros i b blk e _ _. simpl. by rewrite lookup_empty.
Qed.

Section lookups.
Context (bs : list (list decodedEntry)) (bf : Bloom.bloomFilter) (bad : Z -> bool) (path : string).
Context (Hne : Forall (fun b => b <> []) bs) (Hso : sorted (key <$> concat bs)).
Context (Hseq : Forall (fun e => is_u64 (seq e)) (concat bs)) (Hbf : Bloom.wf bf).
Context (Hmay : forall k, k ∈ key <$> concat bs -> Bloom.mayContain bf k = Ok true).
Context (Hsize : len (table_image bs bf) <= Bloom.maxAlloc).

Lemma gets_spec ks : forall c,
  coherent bs path c ->
  Forall2 (fun k a => a = Ok (lookup_entry (concat bs) k) \/ ((exists e, a = Err e) /\ exists o, bad o = true))
    ks (gets c (table_reader bs bf bad path) ks).
Proof.
  induction ks as [|k ks IH]; intros c Hc; cbn [gets]; [constructor |].
  destruct (Get_spec bs bf bad path Hne Hso Hseq Hbf Hmay Hsize c k Hc) as (c' & a & -> & Hc' & Ha).
  constructor; [done | by apply IH].
Qed.

Lemma open_reader r :
  OpenWithCache path (Some (mkSource (table_image bs bf) bad)) = Ok r -> r = table_reader bs bf bad path.
Proof.
  destruct (Open_cases bs bf bad path Hne Hseq Hbf Hsize) as [-> | [[e ->] _]]; [by intros [= <-] | done].
Qed.

Lemma open_healthy :
  (forall o, bad o = false) ->
  OpenWithCache path (Some (mkSource (table_image bs bf) bad)) = Ok (table_reader bs bf bad path).
Proof.
  intros Hb. destruct (Open_cases bs bf bad path Hne Hseq Hbf Hsize) as [-> | [_ [o Ho]]]; [done |].
  by rewrite Hb in Ho.
Qed.
End lookups.

(** ** Properties *)

Lemma min_key_head e es : key e <> [] -> min_key (e :: es) = key e.
Proof.
  intros He. unfold min_key. simpl. assert (forall l m, m <> [] ->
    fold_left (fun m e => match m with [] => key e | _ => m end) l m = m) as H; [| by apply H].
  induction l as [|x l IH]; intros m Hm; [done |]. simpl. by destruct m; [| apply IH].
Qed.

(** Without I/O errors a table is built exactly when its keys are
    strictly increasing (an unsorted or duplicate key is refused); with
    faults, a build that reports success still wrote exactly the entries, and
    its [Meta] describes them: their number, the highest sequence number, the
    file size, the last key and, unless it is empty, the first key. *)
Theorem writer_accepts_sorted fb fh path opts es :
  0 <= fb (len es) <= Bloom.maxAlloc ->
  ((exists meta data, write_table fb fh path opts (Some []) es = Ok (meta, data)) <-> sorted (key <$> es)) /\
  forall file meta data,
    write_table fb fh path opts file es = Ok (meta, data) ->
    sorted (key <$> es) /\ NumEntries meta = len es /\ MaxSeq meta = max_seq es /\
    FileSize meta = u64 (len data) /\ MaxKey meta = last_key es /\
    forall e es', es = e :: es' -> key e <> [] -> MinKey meta = key e.
Proof.
  intros Hfb. split; [split |].
  - intros (meta & data & Hw). by destruct (written _ _ _ _ _ _ _ _ Hfb Hw) as (bs & bf & _ & _ & Hs & _).
  - intros Hs. unfold write_table. cbn [NewWriter res_bind].
    pose proof (new_writer_inv path opts []) as Hi.
    destruct (add_all_healthy es [] [] (new_writer path opts []) Hi eq_refl ltac:(done) Hs) as (w & Ha & Hh).
    rewrite Ha. destruct (add_all_spec es [] [] _ _ Hi eq_refl Ha) as (bs & cur & Hw & Hcl & Heq). simpl in Heq.
    destruct (Finish_healthy fb fh bs cur w ltac:(by rewrite Heq) Hw Hh Hcl) as (w' & meta & ->). by eexists _, _.
  - intros file meta data Hw.
    destruct (written _ _ _ _ _ _ _ _ Hfb Hw) as (bs & bf & _ & _ & Hs & _ & _ & _ & Hn & Hm & Hf & Hx & Hmin).
    split_and!; try done. intros e es' -> He. rewrite Hmin. by apply min_key_head.
Qed.

Definition demo : list decodedEntry :=
  [mkEntry [x61] [x31] 5 false; mkEntry [x62] [] 7 true; mkEntry [x63; x64] [x32; x33] 6 false].

Definition demo_bits (n : Z) : Z := 10 * n.
Definition demo_hashes (_ _ : Z) : Z := 7.

(** The [Meta] and the bytes of a table of three blocks. *)
Definition demo_table : Meta * bytes := Eval vm_compute in
  match write_table demo_bits demo_hashes "t.sst" 16 (Some []) demo with
  | Ok t => t
  | _ => (mkMeta "" 0 [] [] 0 0, [])
  end.

Lemma demo_written :
  write_table demo_bits demo_hashes "t.sst" 16 (Some []) demo = Ok (demo_table.1, demo_table.2).
Proof. vm_compute. reflexivity. Qed.

Lemma writer_accepts_sorted_witness :
  exists meta data, write_table demo_bits demo_hashes "t.sst" 16 (Some []) demo = Ok (meta, data).
Proof.
  apply (writer_accepts_sorted demo_bits demo_hashes "t.sst" 16 demo).
  - vm_compute. split; congruence.
  - repeat constructor.
Defined.

(** C27: A successfully built table answers every lookup with what was
    written: opened again on a healthy disk it is readable, reports its number
    of entries and highest sequence number, and any sequence of lookups, with
    or without a block cache, returns the entry added for the key (tombstones
    included) and "not found" for every other key.  With read errors at
    arbitrary offsets, opening and lookups return the right answer or an
    error: never a wrong answer, and never a panic. *)
Theorem table_lookup fb fh path opts file es meta data c ks :
  0 <= fb (len es) <= Bloom.maxAlloc -> Forall (fun e => is_u64 (seq e)) es ->
  write_table fb fh path opts file es = Ok (meta, data) -> len data <= Bloom.maxAlloc -> new_cache c ->
  (exists r, OpenWithCache path (Some (mkSource data (fun _ => false))) = Ok r /\
     r_numEntries r = len es /\ r_maxSeq r = max_seq es /\
     gets c r ks = (fun k => Ok (lookup_entry es k)) <$> ks) /\
  forall bad,
    match OpenWithCache path (Some (mkSource data bad)) with
    | Ok r => Forall2 (fun k a => a = Ok (lookup_entry es k) \/
                         ((exists e, a = Err e) /\ exists o, bad o = true)) ks (gets c r ks)
    | Err _ => exists o, bad o = true
    | Panic => False
    end.
Proof.
  intros Hfb Hseq Hw Hsize Hc.
  destruct (written _ _ _ _ _ _ _ _ Hfb Hw) as (bs & bf & <- & Hne & Hso & Hbf & Hmay & -> & _).
  split.
  - exists (table_reader bs bf (fun _ => false) path). rewrite open_healthy by done. split_and!; [done.. |].
    pose proof (gets_spec bs bf (fun _ => false) path Hne Hso Hseq Hbf Hmay Hsize ks c
      (new_cache_coherent bs path c Hc)) as Hg.
    induction Hg as [|k a ks' as' [-> | [_ [o Ho]]] _ IH]; simpl; [done | by rewrite IH | done].
  - intros bad. destruct (Open_cases bs bf bad path Hne Hseq Hbf Hsize) as [-> | [[e ->] Ho]]; [| done].
    by apply gets_spec, new_cache_coherent.
Qed.

Lemma table_lookup_witness :
  exists r, OpenWithCache "t.sst" (Some (mkSource demo_table.2 (fun _ => false))) = Ok r /\
    gets (Some (BlockCache.NewBlockCache 64)) r [[x62]; [x63; x64]; [x00]]
    = [Ok ([], 7, true, true); Ok ([x32; x33], 6, false, true); Ok ([], 0, false, false)].
Proof.
  destruct (table_lookup demo_bits demo_hashes "t.sst" 16 (Some []) demo demo_table.1 demo_table.2
    (Some (BlockCache.NewBlockCache 64)) [[x62]; [x63; x64]; [x00]]) as [(r & Hr & _ & _ & Hg) _].
  - vm_compute. split; congruence.
  - repeat constructor; vm_compute; congruence.
  - exact demo_written.
  - vm_compute. congruence.
  - right. by eexists.
  - exists r. split; [exact Hr |]. rewrite Hg. reflexivity.
Defined.

(** C28: Scanning a successfully built table from its first entry returns all
    entries in order and no error on a healthy disk; with read errors it stops
    with an error after a leading part of them. *)
Theorem table_scan fb fh path opts file es meta data c fuel :
  0 <= fb (len es) <= Bloom.maxAlloc -> Forall (fun e => is_u64 (seq e)) es ->
  write_table fb fh path opts file es = Ok (meta, data) -> len data <= Bloom.maxAlloc -> new_cache c ->
  (length es < fuel)%nat ->
  (exists r c', OpenWithCache path (Some (mkSource data (fun _ => false))) = Ok r /\
     scan c r fuel = Ok (c', es, None)) /\
  forall bad r, OpenWithCache path (Some (mkSource data bad)) = Ok r ->
    exists c' es' err, scan c r fuel = Ok (c', es', err) /\
      ((err = None /\ es' = es) \/ (err <> None /\ es' `prefix_of` es /\ exists o, bad o = true)).
Proof.
  intros Hfb Hseq Hw Hsize Hc Hf.
  destruct (written _ _ _ _ _ _ _ _ Hfb Hw) as (bs & bf & <- & Hne & Hso & Hbf & Hmay & -> & _).
  pose proof (new_cache_coherent bs path c Hc) as Hco. split.
  - exists (table_reader bs bf (fun _ => false) path).
    destruct (scan_spec bs bf (fun _ => false) path Hne Hso Hseq Hmay Hsize c fuel Hco Hf)
      as (c' & es & err & Hs & _ & [[-> ->] | (_ & _ & o & Ho)]); [| done].
    exists c'. by rewrite open_healthy.
  - intros bad r Hr. apply open_reader in Hr as ->; [| done..].
    destruct (scan_spec bs bf bad path Hne Hso Hseq Hmay Hsize c fuel Hco Hf) as (c' & es & err & Hs & _ & Hsc). eauto.
Qed.

Lemma table_scan_witness :
  exists r c', OpenWithCache "t.sst" (Some (mkSource demo_table.2 (fun _ => false))) = Ok r /\
    scan None r 4 = Ok (c', demo, None).
Proof.
  destruct (table_scan demo_bits demo_hashes "t.sst" 16 (Some []) demo demo_table.1 demo_table.2 None 4)
    as [(r & c' & Hr & Hs) _].
  - vm_compute. split; congruence.
  - repeat constructor; vm_compute; congruence.
  - exact demo_written.
  - vm_compute. congruence.
  - by left.
  - simpl. lia.
  - exists r, c'. split; [exact Hr | exact Hs].
Defined.

(** ** Damaged tables *)

Lemma no_panic_wrap {A} msg (r : res A) : no_panic r -> no_panic (res_wrap msg r).
Proof. by destruct r. Qed.

Lemma readChecksummed_safe f off n :
  n <= Bloom.maxAlloc -> no_panic (readChecksummed f off n).
Proof.
  intros Hn. unfold readChecksummed. destruct (Z.ltb_spec n 4); [done |].
  unfold Bloom.make_bytes. rewrite !(proj2 (Z.leb_le _ _)) by lia. simpl andb. cbn [res_bind].
  unfold readAt. destruct (_ <? 0) eqn:Hoff; [done |]. destruct (s_bad f _); [done |].
  destruct (Z.ltb_spec (len (s_data f)) (to_int64 off + n)); [done |]. cbn [res_wrap res_bind].
  assert (len (take (Z.to_nat n) (drop (Z.to_nat (to_int64 off)) (s_data f))) = n) as Hlen.
  { unfold len in *. rewrite length_take, length_drop. lia. }
  rewrite Hlen. apply no_panic_bind; [apply slice_no_panic; lia | intros d _].
  apply no_panic_bind; [apply get_u32_no_panic; lia | intros w _]. by destruct (negb _).
Qed.

Lemma decodeBloomFilter_safe d : no_panic (Bloom.decodeBloomFilter d).
Proof.
  unfold Bloom.decodeBloomFilter. destruct (Z.ltb_spec (len d) 12); [done |].
  apply no_panic_bind; [apply get_u32_no_panic; lia | intros k _].
  apply no_panic_bind; [apply get_u64_no_panic; lia | intros m _].
  destruct (slice_from_ok d 12 ltac:(lia)) as (r & -> & _). cbn [res_bind]. by destruct (negb _).
Qed.

(** Opening a file that ends in a footer with the magic number. *)
Lemma open_footer path pre ixo ixl blo bll n sq bad :
  is_u64 ixo -> is_u64 ixl -> is_u64 blo -> is_u64 bll ->
  let f := mkSource (pre ++ footer ixo ixl blo bll n sq) bad in
  OpenWithCache path (Some f) =
    if bad (len pre) then Err (Wrapf "sstable: read footer" (Errorf "read")) else
    let* bloomRaw := res_wrap "sstable: reading bloom filter block" (readChecksummed f blo bll) in
    let* bloom := res_wrap "sstable: decoding bloom filter" (Bloom.decodeBloomFilter bloomRaw) in
    let* indexRaw := res_wrap "sstable: reading index block" (readChecksummed f ixo ixl) in
    let* ix := res_wrap "sstable: decoding index" (decodeIndex indexRaw) in
    Ok (mkReader f path ix bloom (to_int64 (u64 n)) (u64 sq)).
Proof.
  intros U1 U2 U3 U4 f. unfold OpenWithCache.
  assert (len (footer ixo ixl blo bll n sq) = footerSize) as Hl by (unfold footer, footerSize; len_lia).
  change (s_data f) with (pre ++ footer ixo ixl blo bll n sq). rewrite len_app, Hl. unfold footerSize in *. pose_len.
  rewrite (proj2 (Z.ltb_ge _ 56)) by lia. rewrite Z.add_simpl_r, <- Hl.
  rewrite (readAt_mid f pre _ []) by (by rewrite app_nil_r).
  change (s_bad f) with bad. destruct (bad (len pre)); [done |]. cbn [res_wrap res_bind].
  unfold footer. read_field. rewrite <- (app_nil_r (put_u64 magicNumber)). read_field.
  rewrite (u64_small magicNumber) by (unfold is_u64, magicNumber; lia). rewrite Z.eqb_refl. simpl negb. cbv iota.
  by rewrite (u64_small bll), (u64_small blo), (u64_small ixl), (u64_small ixo) by done.
Qed.

(** C39: The footer carries no checksum, and its lengths are trusted: opening
    a file whose footer has the magic number panics when the recorded length
    of the bloom block is more than the runtime can allocate, where the
    documentation of [OpenWithCache] promises an error for every damaged file.
    With lengths below that limit no contents of the file, and no read error,
    make it panic. *)
Theorem open_panics_on_length path pre ixo ixl blo bll n sq bad :
  is_u64 ixo -> is_u64 ixl -> is_u64 blo -> is_u64 bll ->
  let f := mkSource (pre ++ footer ixo ixl blo bll n sq) bad in
  (Bloom.maxAlloc < bll -> bad (len pre) = false -> OpenWithCache path (Some f) = Panic) /\
  (ixl <= Bloom.maxAlloc -> bll <= Bloom.maxAlloc -> no_panic (OpenWithCache path (Some f))).
Proof.
  intros U1 U2 U3 U4 f. pose proof (open_footer path pre ixo ixl blo bll n sq bad U1 U2 U3 U4) as Ho.
  cbv zeta in Ho. fold f in Ho. rewrite Ho. clear Ho. split.
  - intros Hb ->. unfold readChecksummed.
    rewrite (proj2 (Z.ltb_ge _ 4)) by (unfold Bloom.maxAlloc in Hb; lia).
    unfold Bloom.make_bytes. by rewrite (proj2 (Z.leb_gt bll _)), andb_false_r by lia.
  - intros Hi Hb. destruct (bad _); [done |].
    apply no_panic_bind; [by apply no_panic_wrap, readChecksummed_safe | intros raw _].
    apply no_panic_bind; [apply no_panic_wrap, decodeBloomFilter_safe | intros b _].
    apply no_panic_bind; [by apply no_panic_wrap, readChecksummed_safe | intros raw' _].
    apply no_panic_bind; [apply no_panic_wrap, decodeIndex_safe | done].
Qed.

Lemma open_panics_on_length_witness :
  OpenWithCache "t.sst" (Some (mkSource ([x00] ++ footer 0 8 0 (2 ^ 50) 0 0) (fun _ => false))) = Panic.
Proof.
  apply (open_panics_on_length "t.sst" [x00] 0 8 0 (2 ^ 50) 0 0 (fun _ => false)); vm_compute; split || idtac; congruence.
Defined.
