(* ===== verification/GoFmt.v ===== *)
(** * Numbers in file names and marker files

    The parts of [fmt], [strconv] and [strings] the storage engine uses:
    [Sprintf] and [Sscanf] with the pattern [%06d] followed by an extension,
    [Itoa], [Atoi] and [TrimSpace]. *)

From Stdlib Require Import Strings.Byte Strings.Ascii Strings.String.
From S2P Require Import Prelude GoBytes.

(** ** Digits *)

Definition digit_char (d : Z) : ascii := ascii_of_nat (Z.to_nat (48 + d)).
Definition char_digit (c : ascii) : option Z :=
  let z := Z.of_nat (nat_of_ascii c) in
  if (48 <=? z) && (z <=? 57) then Some (z - 48) else None.

(** The decimal digits of a number, most significant first, in front of
    [acc]; an [int] has at most 19 of them. *)
Fixpoint digits (fuel : nat) (n : Z) (acc : list Z) : list Z :=
  match fuel with
  | O => acc
  | S fuel => if n <? 10 then n :: acc else digits fuel (n / 10) (n mod 10 :: acc)
  end.
Definition dec (n : Z) : list Z := digits 20 n [].

Fixpoint chars (ds : list Z) : string :=
  match ds with
  | [] => ""
  | d :: ds => String (digit_char d) (chars ds)
  end.

(** [strconv.Itoa] *)
Definition Itoa (n : Z) : string :=
  if n <? 0 then String "-" (chars (dec (- n))) else chars (dec n).

(** [fmt.Sprintf("%06d" + ext, n)] *)
Definition zeros (k : nat) (ds : list Z) : list Z := replicate (k - length ds) 0 ++ ds.
Definition Sprintf06 (ext : string) (n : Z) : string :=
  (if n <? 0 then String "-" (chars (zeros 5 (dec (- n)))) else chars (zeros 6 (dec n))) +:+ ext.

(** ** Scanning *)

(** The longest run of at most [w] digits. *)
Fixpoint scan_digits (w : nat) (acc : Z) (s : string) : Z * string :=
  match w, s with
  | S w, String c s' =>
      match char_digit c with
      | Some d => scan_digits w (10 * acc + d) s'
      | None => (acc, s)
      end
  | _, _ => (acc, s)
  end.

(** One digit or more, at most [w]. *)
Definition scan_nat (w : nat) (s : string) : option (Z * string) :=
  match w, s with
  | S _, String c _ => match char_digit c with Some _ => Some (scan_digits w 0 s) | None => None end
  | _, _ => None
  end.

(** [%06d] of a scan: an optional sign and digits, six characters at most.
    (Leading space, which the verb would skip, never occurs in a name that
    [Sprintf06] prints.) *)
Definition scan_int (s : string) : option (Z * string) :=
  match s with
  | String "+" s' => scan_nat 5 s'
  | String "-" s' => match scan_nat 5 s' with Some (n, r) => Some (- n, r) | None => None end
  | _ => scan_nat 6 s
  end.

(** [fmt.Sscanf(name, "%06d" + ext, &n)]; what follows the extension is not
    looked at. *)
Definition Sscanf06 (ext name : string) : option Z :=
  match scan_int name with
  | Some (n, rest) => if String.prefix ext rest then Some n else None
  | None => None
  end.

(** [strconv.Atoi]: an optional sign, digits only, in the range of [int]. *)
Fixpoint all_digits (acc : Z) (s : string) : option Z :=
  match s with
  | "" => Some acc
  | String c s => match char_digit c with Some d => all_digits (10 * acc + d) s | None => None end
  end.
Definition Atoi_nat (s : string) : option Z := match s with "" => None | _ => all_digits 0 s end.
Definition Atoi (s : string) : option Z :=
  match match s with
        | String "+" s' => Atoi_nat s'
        | String "-" s' => option_map Z.opp (Atoi_nat s')
        | _ => Atoi_nat s
        end with
  | Some n => if (- 2 ^ 63 <=? n) && (n <? 2 ^ 63) then Some n else None
  | None => None
  end.

(** [strings.TrimSpace] for the ASCII spaces. *)
Definition is_space (c : ascii) : bool :=
  let n := nat_of_ascii c in (n =? 32)%nat || ((9 <=? n)%nat && (n <=? 13)%nat).
Fixpoint trim_left (l : list ascii) : list ascii :=
  match l with
  | c :: l' => if is_space c then trim_left l' else l
  | [] => []
  end.
Definition TrimSpace (s : string) : string :=
  String.string_of_list_ascii (reverse (trim_left (reverse (trim_left (String.list_ascii_of_string s))))).

(** ** Round trips *)

Definition digit (d : Z) : Prop := 0 <= d < 10.

Lemma char_digit_char d : digit d -> char_digit (digit_char d) = Some d.
Proof.
  intros Hd. unfold digit in Hd.
  assert (d = 0 \/ d = 1 \/ d = 2 \/ d = 3 \/ d = 4 \/ d = 5 \/ d = 6 \/ d = 7 \/ d = 8 \/ d = 9) as H by lia.
  repeat destruct H as [-> | H]; try reflexivity. by rewrite H.
Qed.

Definition value (ds : list Z) (acc : Z) : Z := fold_left (fun a d => 10 * a + d) ds acc.

Lemma value_app l k acc : value (l ++ k) acc = value k (value l acc).
Proof. apply fold_left_app. Qed.
Lemma value_zeros k ds : value (replicate k 0 ++ ds) 0 = value ds 0.
Proof. rewrite value_app. f_equal. induction k as [|k IH]; [done |]. exact IH. Qed.

Lemma digits_spec fuel : forall n acc,
  0 <= n < 10 ^ Z.of_nat fuel ->
  exists ds, digits fuel n acc = ds ++ acc /\ Forall digit ds /\ value ds 0 = n /\ (0 < fuel -> ds <> [])%nat /\
    forall k, (0 < k)%nat -> n < 10 ^ Z.of_nat k -> (length ds <= k)%nat.
Proof.
  induction fuel as [|fuel IH]; intros n acc Hn; cbn [digits].
  { exists []. change (10 ^ Z.of_nat 0) with 1 in Hn. split_and!; [done | constructor | simpl; lia | lia | simpl; lia]. }
  destruct (Z.ltb_spec n 10) as [Hlt | Hge].
  { exists [n]. split_and!; [done | constructor; [unfold digit; lia | constructor] | simpl; lia | done | simpl; lia]. }
  replace (10 ^ Z.of_nat (S fuel)) with (10 * 10 ^ Z.of_nat fuel) in Hn
    by (rewrite Nat2Z.inj_succ, Z.pow_succ_r by lia; lia).
  destruct (IH (n / 10) (n mod 10 :: acc)) as (ds & -> & Hd & Hv & Hne & Hlen).
  { split; [apply Z.div_pos; lia |]. apply Z.div_lt_upper_bound; lia. }
  exists (ds ++ [n mod 10]). rewrite <- app_assoc. split_and!; [done | | | |].
  - apply Forall_app. split; [done |]. apply Forall_singleton. unfold digit. pose proof (Z.mod_pos_bound n 10). lia.
  - rewrite value_app, Hv. simpl. pose proof (Z.div_mod n 10). lia.
  - intros _ H. by apply app_nil in H as [_ ?].
  - intros k Hk Hnk. rewrite length_app. simpl. destruct k as [|[|k]]; [lia | simpl in Hnk; lia |].
    rewrite Nat2Z.inj_succ, Z.pow_succ_r in Hnk by lia.
    specialize (Hlen (S k) ltac:(lia) ltac:(apply Z.div_lt_upper_bound; lia)). lia.
Qed.

Lemma dec_spec n :
  0 <= n < 2 ^ 63 ->
  Forall digit (dec n) /\ value (dec n) 0 = n /\ dec n <> [] /\ (n < 10 ^ 6 -> (length (dec n) <= 6)%nat).
Proof.
  intros Hn. destruct (digits_spec 20 n []) as (ds & Hd & Hf & Hv & Hne & Hl); [lia |].
  unfold dec. rewrite Hd, app_nil_r. split_and!; [done | done | apply Hne; lia |].
  intros H. apply (Hl 6%nat); lia.
Qed.

Lemma scan_digits_chars ds : forall w acc rest,
  Forall digit ds -> length ds = w -> scan_digits w acc (chars ds +:+ rest) = (value ds acc, rest).
Proof.
  induction ds as [|d ds IH]; intros w acc rest Hd Hw; simpl in Hw; subst w; [by destruct rest |].
  apply Forall_cons in Hd as [Hd Hds]. simpl. rewrite char_digit_char by done. by apply IH.
Qed.

Lemma all_digits_chars ds : forall acc, Forall digit ds -> all_digits acc (chars ds) = Some (value ds acc).
Proof.
  induction ds as [|d ds IH]; intros acc Hd; [done |]. apply Forall_cons in Hd as [Hd Hds]. simpl.
  rewrite char_digit_char by done. by apply IH.
Qed.

(** A digit is neither a sign nor a space. *)
Lemma digit_char_plain d c : digit d -> c ∈ ["+"; "-"]%char -> digit_char d <> c.
Proof.
  intros Hd Hc Heq. pose proof (char_digit_char d Hd) as H. rewrite Heq in H.
  repeat (apply elem_of_cons in Hc as [-> | Hc]; [done |]). by apply not_elem_of_nil in Hc.
Qed.

Lemma scan_int_digit d s : digit d -> scan_int (String (digit_char d) s) = scan_nat 6 (String (digit_char d) s).
Proof.
  intros Hd. unfold scan_int. pose proof (digit_char_plain d "+" Hd ltac:(set_solver)) as H1.
  pose proof (digit_char_plain d "-" Hd ltac:(set_solver)) as H2.
  destruct (digit_char d) as [[] [] [] [] [] [] [] []]; done.
Qed.

Lemma prefix_refl_app ext rest : String.prefix ext (ext +:+ rest) = true.
Proof.
  induction ext as [|c ext IH]; [by destruct rest |]. simpl. destruct (Ascii.ascii_dec c c); [| done]. exact IH.
Qed.

(** What [Sprintf06] prints of a number of at most six digits. *)
Lemma Sprintf06_digits ext n :
  0 <= n < 10 ^ 6 ->
  exists ds, Sprintf06 ext n = chars ds +:+ ext /\ Forall digit ds /\ length ds = 6%nat /\ value ds 0 = n.
Proof.
  intros Hn. destruct (dec_spec n) as (Hd & Hv & Hne & Hl); [lia |]. unfold Sprintf06.
  rewrite (proj2 (Z.ltb_ge n 0)) by lia. exists (zeros 6 (dec n)). unfold zeros. split_and!; [done | | |].
  - apply Forall_app. split; [| done]. apply Forall_replicate. unfold digit. lia.
  - rewrite length_app, length_replicate. specialize (Hl ltac:(lia)). lia.
  - by rewrite value_zeros.
Qed.

(** Scanning a printed name: the number comes back when the extension is the
    same. *)
Lemma Sscanf06_Sprintf06 ext ext' n :
  0 <= n < 10 ^ 6 -> Sscanf06 ext' (Sprintf06 ext n) = if String.prefix ext' ext then Some n else None.
Proof.
  intros Hn. destruct (Sprintf06_digits ext n Hn) as (ds & -> & Hd & Hl & <-).
  destruct ds as [|d ds]; [done |]. unfold Sscanf06. apply Forall_cons in Hd as Hd'. destruct Hd' as [Hd0 _].
  change (chars (d :: ds) +:+ ext) with (String (digit_char d) (chars ds +:+ ext)).
  rewrite scan_int_digit by done. unfold scan_nat. rewrite char_digit_char by done.
  change (String (digit_char d) (chars ds +:+ ext)) with (chars (d :: ds) +:+ ext).
  by rewrite (scan_digits_chars (d :: ds) 6 0 ext Hd Hl).
Qed.

(** ** The marker's number *)

Lemma is_space_digit d : digit d -> is_space (digit_char d) = false.
Proof.
  intros Hd. pose proof (char_digit_char d Hd) as H. unfold char_digit in H. unfold is_space.
  destruct ((48 <=? _) && _) eqn:E; [| done]. apply andb_true_iff in E as [E1 E2].
  apply Z.leb_le in E1, E2. apply orb_false_iff. split; [apply Nat.eqb_neq; lia |].
  apply andb_false_iff. right. apply Nat.leb_gt. lia.
Qed.

Lemma trim_left_plain l : Forall (fun c => is_space c = false) l -> trim_left l = l.
Proof. intros H. destruct H as [|c l Hc _]; [done |]. simpl. by rewrite Hc. Qed.

Lemma chars_plain ds : Forall digit ds -> Forall (fun c => is_space c = false) (String.list_ascii_of_string (chars ds)).
Proof. induction 1; simpl; constructor; [by apply is_space_digit | done]. Qed.

Lemma TrimSpace_chars ds : Forall digit ds -> TrimSpace (chars ds) = chars ds.
Proof.
  intros H. apply chars_plain in H. unfold TrimSpace. rewrite (trim_left_plain _ H).
  rewrite trim_left_plain by (by apply Forall_reverse). rewrite reverse_involutive.
  apply String.string_of_list_ascii_of_string.
Qed.

Lemma Atoi_Itoa n : 0 <= n < 2 ^ 63 -> Atoi (TrimSpace (Itoa n)) = Some n.
Proof.
  intros Hn. destruct (dec_spec n Hn) as (Hd & Hv & Hne & _). unfold Itoa.
  rewrite (proj2 (Z.ltb_ge n 0)) by lia. rewrite TrimSpace_chars by done. unfold Atoi.
  assert (Atoi_nat (chars (dec n)) = Some n) as Ha.
  { unfold Atoi_nat. rewrite all_digits_chars, Hv by done. by destruct (dec n). }
  destruct (dec n) as [|d ds]; [done |]. apply Forall_cons in Hd as [Hd _]. cbn [chars] in Ha |- *.
  pose proof (digit_char_plain d "+" Hd ltac:(set_solver)) as H1.
  pose proof (digit_char_plain d "-" Hd ltac:(set_solver)) as H2.
  destruct (digit_char d) as [[] [] [] [] [] [] [] []]; try done; rewrite Ha;
    rewrite (proj2 (Z.leb_le (- 2 ^ 63) n)), (proj2 (Z.ltb_lt n (2 ^ 63))) by lia; done.
Qed.
