(* ===== verification/CmdConfig.v ===== *)
(** * Configuration of a node (src/cmd/kvstore/main.go)

    The list of peers and the checks on the command line.  What [flag.Parse]
    makes of the arguments is an input; [strings.TrimSpace] is that of the ASCII
    spaces. *)

From Stdlib Require Import Strings.Byte Strings.String Strings.Ascii.
From S2P Require Import Prelude GoBytes GoFmt.

(** ** [strings] and [strconv] *)

(** [strings.Split] with a one-character separator. *)
Fixpoint Split (sep : ascii) (s : string) : list string :=
  match s with
  | EmptyString => [""]
  | String c s =>
      if Ascii.eqb c sep then "" :: Split sep s
      else match Split sep s with
           | x :: xs => String c x :: xs
           | [] => [String c ""]
           end
  end.

(** [strings.SplitN(s, sep, 2)] *)
Fixpoint SplitN2 (sep : ascii) (s : string) : list string :=
  match s with
  | EmptyString => [""]
  | String c s =>
      if Ascii.eqb c sep then [""; s]
      else match SplitN2 sep s with
           | x :: xs => String c x :: xs
           | [] => [String c ""]
           end
  end.

(** [strconv.ParseUint(s, 10, 64)] *)
Definition ParseUint (s : string) : res Z :=
  match Atoi_nat s with
  | None => Err (Errorf "strconv.ParseUint: invalid syntax")
  | Some n => if n <? 2 ^ 64 then Ok n else Err (Errorf "strconv.ParseUint: value out of range")
  end.

(** ** Peers *)

(** One entry [id=addr], already trimmed and not empty. *)
Definition parsePeer (part : string) : res (Z * string) :=
  match SplitN2 "=" part with
  | [k; v] =>
      let* id := res_wrap "malformed peer ID" (ParseUint (TrimSpace k)) in
      if id =? 0 then Err (Errorf "peer ID must be nonzero")
      else
        let addr := TrimSpace v in
        if String.eqb addr "" then Err (Errorf "malformed peer address") else Ok (id, addr)
  | _ => Err (Errorf "malformed peer entry, want id=addr")
  end.

Fixpoint peers_loop (parts : list string) (addrs : gmap Z string) (ids : list Z) : res (gmap Z string * list Z) :=
  match parts with
  | [] => Ok (addrs, ids)
  | part :: parts =>
      let part := TrimSpace part in
      if String.eqb part "" then peers_loop parts addrs ids
      else
        let* '(id, addr) := parsePeer part in
        peers_loop parts (<[id := addr]> addrs) (ids ++ [id])
  end.

Definition parsePeers (s : string) : res (gmap Z string * list Z) :=
  let s := TrimSpace s in
  if String.eqb s "" then Ok (∅, []) else peers_loop (Split "," s) ∅ [].

(** ** The command line *)

(** The values of the flags. *)
Record flags := mkFlags {
  f_id : Z;
  f_raftAddr : string;
  f_httpAddr : string;
  f_peers : string;
  f_dataDir : string;
  f_electionTicks : Z;
  f_heartbeatTick : Z;
  f_tickInterval : Z;
  f_snapshotThreshold : Z
}.

(** Their defaults; a duration is in nanoseconds. *)
Definition default_flags : flags := mkFlags 0 "" "" "" "./data" 10 1 (100 * 1000000) 0.

Record config := mkConfig {
  id : Z;
  raftAddr : string;
  httpAddr : string;
  peerAddrs : gmap Z string;
  peerIDs : list Z;
  dataDir : string;
  electionTicks : Z;
  heartbeatTicks : Z;
  tickInterval : Z;
  snapshotThreshold : Z
}.

Definition parseArgs (parsed : res flags) : res config :=
  let* f := parsed in
  if f_id f =? 0 then Err (Errorf "-id is required and must be nonzero")
  else if String.eqb (f_raftAddr f) "" then Err (Errorf "-raft-addr is required")
  else if String.eqb (f_httpAddr f) "" then Err (Errorf "-http-addr is required")
  else
    let* '(addrs, ids) := res_wrap "parsing -peers" (parsePeers (f_peers f)) in
    Ok (mkConfig (f_id f) (f_raftAddr f) (f_httpAddr f) addrs ids (f_dataDir f) (f_electionTicks f)
          (f_heartbeatTick f) (f_tickInterval f) (f_snapshotThreshold f)).

(** ** What is accepted *)

Lemma ParseUint_range s n : ParseUint s = Ok n -> n < 2 ^ 64.
Proof. unfold ParseUint. destruct (Atoi_nat s) as [m|]; [| done]. destruct (Z.ltb_spec m (2 ^ 64)); [by intros [= <-] | done]. Qed.

Lemma char_digit_range c d : char_digit c = Some d -> 0 <= d.
Proof. unfold char_digit. destruct (_ && _) eqn:E; [| done]. apply andb_true_iff in E as [E _]. apply Z.leb_le in E. intros [= <-]. lia. Qed.
Lemma all_digits_nonneg s : forall acc n, 0 <= acc -> all_digits acc s = Some n -> 0 <= n.
Proof.
  induction s as [|c s IH]; intros acc n Ha; simpl; [by intros [= <-] |]. destruct (char_digit c) as [d|] eqn:Hd; [| done].
  apply char_digit_range in Hd. apply IH. lia.
Qed.
Lemma ParseUint_nonneg s n : ParseUint s = Ok n -> 0 <= n.
Proof.
  unfold ParseUint, Atoi_nat. destruct s as [|c s]; [done |]. destruct (all_digits 0 (String c s)) as [m|] eqn:E; [| done].
  apply all_digits_nonneg in E; [| done]. destruct (_ <? _); [by intros [= <-] | done].
Qed.

Lemma parsePeer_sound part i a : parsePeer part = Ok (i, a) -> 0 < i < 2 ^ 64 /\ a <> "".
Proof.
  unfold parsePeer. destruct (SplitN2 "=" part) as [|k [|v [|]]]; try done. destruct (ParseUint (TrimSpace k)) as [n|err|] eqn:E; try done.
  simpl. destruct (Z.eqb_spec n 0); [done |]. destruct (String.eqb_spec (TrimSpace v) ""); [done |]. intros [= <- <-].
  split; [| done]. pose proof (ParseUint_range _ _ E). pose proof (ParseUint_nonneg _ _ E). lia.
Qed.

(** The peers of a configuration: the map has an address for each of the IDs and
    nothing else. *)
Record peers_wf (addrs : gmap Z string) (ids : list Z) : Prop := {
  pw_ids : Forall (fun i => 0 < i < 2 ^ 64) ids;
  pw_dom : forall i, is_Some (addrs !! i) <-> i ∈ ids;
  pw_addrs : forall i a, addrs !! i = Some a -> a <> ""
}.

Lemma peers_loop_sound parts : forall addrs ids addrs' ids',
  peers_wf addrs ids -> peers_loop parts addrs ids = Ok (addrs', ids') -> peers_wf addrs' ids'.
Proof.
  induction parts as [|part parts IH]; intros addrs ids addrs' ids' Hw; cbn [peers_loop]; [by intros [= <- <-] |].
  destruct (String.eqb _ ""); [by apply IH |]. destruct (parsePeer (TrimSpace part)) as [[i a]|err|] eqn:E; [| done | done].
  apply parsePeer_sound in E as [Hi Ha]. apply IH. destruct Hw as [H1 H2 H3]. constructor.
  - apply Forall_app. split; [done |]. by constructor.
  - intros j. rewrite elem_of_app, list_elem_of_singleton, <- H2, lookup_insert_is_Some. destruct (decide (i = j)); naive_solver.
  - intros j b [[-> <-] | [_ Hj]]%lookup_insert_Some; [done | by eapply H3].
Qed.

Lemma parsePeers_sound s addrs ids : parsePeers s = Ok (addrs, ids) -> peers_wf addrs ids.
Proof.
  assert (peers_wf ∅ []) as H0.
  { constructor; [done | | by intros i a ?%lookup_empty_Some]. intros i. rewrite lookup_empty. split; [by intros [] | by intros ?%elem_of_nil]. }
  unfold parsePeers. destruct (String.eqb _ ""); [by intros [= <- <-] |]. by apply peers_loop_sound.
Qed.

(** C35: What the command line can configure.  An accepted configuration has a
    nonzero ID and both addresses, every peer ID is a nonzero 64-bit number with
    a nonempty address, and the address book of the transport knows exactly the
    peers that Raft is told about. *)
Theorem config_well_formed f c :
  parseArgs f = Ok c -> id c <> 0 /\ raftAddr c <> "" /\ httpAddr c <> "" /\ peers_wf (peerAddrs c) (peerIDs c).
Proof.
  unfold parseArgs. destruct f as [f|err|]; [| done | done]. cbn [res_bind].
  destruct (Z.eqb_spec (f_id f) 0); [done |]. destruct (String.eqb_spec (f_raftAddr f) ""); [done |].
  destruct (String.eqb_spec (f_httpAddr f) ""); [done |]. destruct (parsePeers (f_peers f)) as [[addrs ids]|err|] eqn:E; [| done | done].
  cbn [res_wrap res_bind]. intros [= <-]. split_and!; [done | done | done |]. by eapply parsePeers_sound.
Qed.

Definition demo_flags : flags :=
  mkFlags 1 ":7001" ":8001" " 2=127.0.0.1:7002, 3 = 127.0.0.1:7003,, " "./data" 10 1 (100 * 1000000) 0.
Definition demo_config : config :=
  mkConfig 1 ":7001" ":8001" {[ 2 := "127.0.0.1:7002"; 3 := "127.0.0.1:7003" ]} [2; 3] "./data" 10 1 (100 * 1000000) 0.

Lemma config_well_formed_witness :
  id demo_config <> 0 /\ raftAddr demo_config <> "" /\ httpAddr demo_config <> "" /\ peers_wf (peerAddrs demo_config) (peerIDs demo_config).
Proof. apply (config_well_formed (Ok demo_flags)). vm_compute. reflexivity. Defined.

(** ** Round trip *)

(** How an operator writes the peers down. *)
Definition show_peer (p : Z * string) : string := Itoa p.1 +:+ String "=" p.2.
Fixpoint show_peers (ps : list (Z * string)) : string :=
  match ps with
  | [] => ""
  | [p] => show_peer p
  | p :: ps => show_peer p +:+ String "," (show_peers ps)
  end.

(** No separator inside, no space at either end. *)
Definition starts_plain (l : list ascii) : Prop := match l with c :: _ => is_space c = false | [] => True end.
Definition tidy (s : string) : Prop :=
  s <> "" /\ starts_plain (list_ascii_of_string s) /\ starts_plain (reverse (list_ascii_of_string s)).
Definition without (c : ascii) (s : string) : Prop := c ∉ list_ascii_of_string s.

Lemma append_cons c s t : String c s +:+ t = String c (s +:+ t).
Proof. reflexivity. Qed.
Lemma append_nil t : "" +:+ t = t.
Proof. reflexivity. Qed.
Lemma list_ascii_app s t : list_ascii_of_string (s +:+ t) = list_ascii_of_string s ++ list_ascii_of_string t.
Proof. induction s as [|c s IH]; [done |]. rewrite append_cons. cbn. by rewrite IH. Qed.

Lemma trim_left_starts l : starts_plain l -> trim_left l = l.
Proof. destruct l as [|c l]; [done |]. simpl. by intros ->. Qed.
Lemma TrimSpace_tidy s : tidy s -> TrimSpace s = s.
Proof.
  intros (_ & H1 & H2). unfold TrimSpace. rewrite (trim_left_starts (list_ascii_of_string s)) by done. rewrite trim_left_starts by done.
  rewrite reverse_involutive. apply string_of_list_ascii_of_string.
Qed.
(** Tidiness depends on the two ends. *)
Lemma tidy_app a b c : tidy a -> tidy c -> tidy (a +:+ b +:+ c).
Proof.
  intros (Ha & Ha1 & _) (Hc & _ & Hc2). unfold tidy. rewrite !list_ascii_app, !reverse_app. split_and!.
  - by destruct a.
  - destruct (list_ascii_of_string a) as [|x l] eqn:E; [by destruct a | exact Ha1].
  - destruct (reverse (list_ascii_of_string c)) as [|x l] eqn:E; [| exact Hc2].
    apply (f_equal reverse) in E. rewrite reverse_involutive in E. by destruct c.
Qed.

Lemma without_cons sep c s : without sep (String c s) <-> c <> sep /\ without sep s.
Proof. unfold without. cbn [list_ascii_of_string]. rewrite not_elem_of_cons. naive_solver. Qed.

Lemma Split_last sep s : without sep s -> Split sep s = [s].
Proof.
  induction s as [|c s IH]; [done |]. intros [Hc Hw]%without_cons. cbn [Split].
  destruct (Ascii.eqb_spec c sep); [done |]. by rewrite IH.
Qed.
Lemma Split_cons sep s t : without sep s -> Split sep (s +:+ String sep t) = s :: Split sep t.
Proof.
  induction s as [|c s IH]; [intros _; rewrite append_nil; cbn [Split]; by rewrite Ascii.eqb_refl |]. intros [Hc Hw]%without_cons.
  rewrite append_cons. cbn [Split]. destruct (Ascii.eqb_spec c sep); [done |]. by rewrite IH.
Qed.
Lemma SplitN2_cons sep s t : without sep s -> SplitN2 sep (s +:+ String sep t) = [s; t].
Proof.
  induction s as [|c s IH]; [intros _; rewrite append_nil; cbn [SplitN2]; by rewrite Ascii.eqb_refl |]. intros [Hc Hw]%without_cons.
  rewrite append_cons. cbn [SplitN2]. destruct (Ascii.eqb_spec c sep); [done |]. by rewrite IH.
Qed.

(** The digits of an ID. *)
Lemma uint_digits n : 0 <= n < 2 ^ 64 -> exists ds, Itoa n = chars ds /\ Forall digit ds /\ value ds 0 = n /\ ds <> [].
Proof.
  intros Hn. destruct (digits_spec 20 n []) as (ds & Hd & Hf & Hv & Hne & _); [lia |]. exists ds. unfold Itoa, dec.
  rewrite (proj2 (Z.ltb_ge n 0)), Hd, app_nil_r by lia. split_and!; [done | done | done | apply Hne; lia].
Qed.
Lemma ParseUint_Itoa n : 0 <= n < 2 ^ 64 -> ParseUint (TrimSpace (Itoa n)) = Ok n.
Proof.
  intros Hn. destruct (uint_digits n Hn) as (ds & -> & Hd & Hv & Hne). rewrite TrimSpace_chars by done. unfold ParseUint, Atoi_nat.
  rewrite all_digits_chars, Hv by done. destruct ds as [|d ds]; [done |]. cbn [chars]. by rewrite (proj2 (Z.ltb_lt _ _)) by lia.
Qed.
Lemma chars_without ds c : Forall digit ds -> char_digit c = None -> without c (chars ds).
Proof.
  intros Hd Hc. unfold without. induction Hd as [|d ds Hd _ IH]; cbn; [apply not_elem_of_nil |]. apply not_elem_of_cons. split; [| done].
  intros ->. by rewrite char_digit_char in Hc.
Qed.
Lemma tidy_chars ds : Forall digit ds -> ds <> [] -> tidy (chars ds).
Proof.
  intros Hd Hne. pose proof (chars_plain ds Hd) as Hp. split_and!; [by destruct ds | |].
  - by destruct Hp.
  - apply Forall_reverse in Hp. by destruct Hp.
Qed.

Definition peer_ok (p : Z * string) : Prop := 0 < p.1 < 2 ^ 64 /\ tidy p.2 /\ without "," p.2.

Lemma show_peer_ok p : peer_ok p ->
  tidy (show_peer p) /\ without "," (show_peer p) /\ parsePeer (show_peer p) = Ok p.
Proof.
  intros (Hi & Ht & Hw). destruct p as [i a]. unfold show_peer. cbn [fst snd] in *.
  destruct (uint_digits i ltac:(lia)) as (ds & Hds & Hd & Hv & Hne). split_and!.
  - change (String "=" a) with ("=" +:+ a). apply tidy_app; [| done]. rewrite Hds. by apply tidy_chars.
  - unfold without. rewrite list_ascii_app. apply not_elem_of_app. split; [rewrite Hds; by apply chars_without |].
    cbn. by apply not_elem_of_cons.
  - unfold parsePeer. rewrite SplitN2_cons by (rewrite Hds; by apply chars_without). rewrite ParseUint_Itoa by lia.
    cbn [res_wrap res_bind]. rewrite (proj2 (Z.eqb_neq i 0)) by lia. rewrite TrimSpace_tidy by done.
    destruct Ht as [Ha _]. by rewrite (proj2 (String.eqb_neq a "") Ha).
Qed.

Lemma Split_peers ps : ps <> [] -> Forall peer_ok ps -> Split "," (show_peers ps) = map show_peer ps.
Proof.
  intros Hne H. induction H as [|p ps Hp Hps IH]; [done |]. destruct (show_peer_ok p Hp) as (_ & Hw & _).
  destruct ps as [|q ps]; [by apply Split_last |]. change (show_peers (p :: q :: ps)) with (show_peer p +:+ String "," (show_peers (q :: ps))).
  rewrite Split_cons by done. cbn [map]. f_equal. by apply IH.
Qed.

Lemma tidy_peers ps : ps <> [] -> Forall peer_ok ps -> tidy (show_peers ps).
Proof.
  intros Hne H. induction H as [|p ps Hp Hps IH]; [done |]. destruct (show_peer_ok p Hp) as (Ht & _).
  destruct ps as [|q ps]; [done |]. change (show_peers (p :: q :: ps)) with (show_peer p +:+ "," +:+ show_peers (q :: ps)).
  apply tidy_app; [done | by apply IH].
Qed.

Lemma peers_loop_show ps : forall addrs ids, Forall peer_ok ps ->
  peers_loop (map show_peer ps) addrs ids = Ok (fold_left (fun m p => <[p.1 := p.2]> m) ps addrs, ids ++ ps.*1).
Proof.
  induction ps as [|p ps IH]; intros addrs ids Hps; [cbn; by rewrite app_nil_r |]. apply Forall_cons in Hps as [Hp Hps].
  destruct (show_peer_ok p Hp) as (Ht & _ & Hpp). cbn [map peers_loop]. rewrite TrimSpace_tidy by done.
  rewrite (proj2 (String.eqb_neq _ _) (proj1 Ht)), Hpp. cbn [res_bind]. destruct p as [i a]. rewrite IH by done.
  cbn [fold_left fmap list_fmap fst snd]. by rewrite <- app_assoc.
Qed.

(** The list of peers round trips: written down as [id=addr] separated by
    commas it is read back as the same IDs in the same order, with the address
    given last for each.  An ID that occurs twice is kept twice. *)
Theorem peers_roundtrip ps :
  Forall peer_ok ps ->
  parsePeers (show_peers ps) = Ok (fold_left (fun m p => <[p.1 := p.2]> m) ps ∅, ps.*1).
Proof.
  intros Hps. destruct ps as [|p ps]; [done |]. unfold parsePeers. pose proof (tidy_peers (p :: ps) ltac:(done) Hps) as Ht.
  rewrite TrimSpace_tidy by done. rewrite (proj2 (String.eqb_neq _ _) (proj1 Ht)).
  rewrite Split_peers by done. by rewrite peers_loop_show.
Qed.

Lemma peers_roundtrip_witness :
  parsePeers (show_peers [(2, "127.0.0.1:7002"); (18446744073709551615, "b"); (2, "c")])
    = Ok ({[ 2 := "c"; 18446744073709551615 := "b" ]}, [2; 18446744073709551615; 2]).
Proof.
  rewrite (peers_roundtrip [(2, "127.0.0.1:7002"); (18446744073709551615, "b"); (2, "c")]).
  - vm_compute. reflexivity.
  - repeat constructor; try done; try (intros H; cbn in H; set_solver).
Defined.
