(* ===== verification/Engine.v ===== *)
(** * The storage engine (src/engine/engine.go)

    The engine ties the log, the memtable and the tables together.  Its files
    are a map from names to contents; its methods run between lock and unlock
    and are one step each; the goroutine of a background flush is a sequence
    of stages that interleave with them. *)

From Stdlib Require Import Strings.Byte Strings.String.
From stdpp Require Import sorting.
From S2P Require Import Prelude GoBytes GoSort GoFmt GoState Wal SkipList Memtable Bloom BlockCache SSTableFormat SSTableWriter SSTableReader SSTable.

(** ** The directory *)

(** A file: what survives a crash, and what was written but not synced. *)
Record file := mkFile { f_synced : bytes; f_cached : bytes }.
Abbreviation disk := (gmap string file).

Definition f_contents (f : file) : bytes := f_synced f ++ f_cached f.
Definition of_wal (f : Appender.walFile) : file := mkFile (Appender.synced f) (Appender.cached f).
Definition store_wal (w : Appender.WAL) (d : disk) : disk := <[Appender.path w := of_wal (Appender.file w)]> d.

(** Truncating a file to its leading part [data]. *)
Definition truncate (data : bytes) (f : file) : file :=
  mkFile (take (length data) (f_synced f)) (drop (length (f_synced f)) data).

Definition walName (n : Z) : string := Sprintf06 ".wal" n.
Definition sstName (n : Z) : string := Sprintf06 ".sst" n.
Definition restoreMarkerFileName : string := "RESTORE_MARKER".

(** [openWAL]: [faults] is the outcome of opening, an error or the faults the
    file's calls will meet.  Existing contents stay. *)
Definition openWAL (name : string) (faults : option (list (option nat))) : st disk Appender.WAL := fun d =>
  match faults with
  | None => (d, Err (Errorf "open"))
  | Some fs =>
      let f := default (mkFile [] []) (d !! name) in
      (<[name := f]> d,
       Ok (Appender.Open name true
             {| Appender.synced := f_synced f; Appender.cached := f_cached f; Appender.script := fs |}))
  end.

(** [os.Remove] *)
Definition removeFile (ok : bool) (name : string) : st disk unit := fun d =>
  match d !! name with
  | None => (d, Err (Errorf "remove: no such file"))
  | Some _ => if ok then (delete name d, Ok tt) else (d, Err (Errorf "remove"))
  end.

Definition close_wal (w : Appender.WAL) (d : disk) : disk := store_wal (fst (Appender.Close w)) d.

(** ** Options and state *)

(** The directory is implicit, and [SSTableBloomFPRate] enters only through
    the parameters of the bloom filter. *)
Record Options := mkOptions {
  MemtableSizeThreshold : Z;
  SSTableBlockSize : Z;
  BlockCacheSize : Z
}.

Definition defaultMemtableSizeMax : Z := 4 * 1024 * 1024.
Definition defaultBlockCacheSize : Z := 8 * 1024 * 1024.

Definition withDefaults (o : Options) : Options :=
  mkOptions (if MemtableSizeThreshold o <=? 0 then defaultMemtableSizeMax else MemtableSizeThreshold o)
    (SSTableBlockSize o)
    (if BlockCacheSize o =? 0 then defaultBlockCacheSize else BlockCacheSize o).

Record sstableEntry := mkTable { t_path : string; t_reader : Reader }.

(** Where the goroutine of a flush is in [runFlush]: writing and reopening the
    table, about to install the outcome, about to close the old log, about to
    remove it. *)
Inductive stage :=
  | Writing (frozen : Memtable)
  | Written (r : res Reader)
  | Closing
  | Removing.

Record flush := mkFlush { fl_stage : stage; fl_wal : Appender.WAL; fl_seq : Z }.

(** [flushes] are the goroutines that are alive, the oldest first; [flushWG]
    counts them and [flushDone] belongs to the last one. *)
Record Engine := mkEngine {
  opts : Options;
  w : Appender.WAL;
  mem : Memtable;
  immutable : option Memtable;
  flushErr : option error;
  ecache : cache;
  sstables : list sstableEntry;
  nextSeq : Z;
  nextFlushSeq : Z;
  nextWALSeq : Z;
  eclosed : bool;
  flushes : list flush
}.

Record world := mkWorld { dsk : disk; eng : Engine }.

(** ** Opening *)

(** What the operating system answers while a store is opened. *)
Record open_env := mkOpenEnv {
  oe_mkdir : bool;
  oe_marker : bool;
  oe_list_tables : bool;
  oe_list_wals : bool;
  oe_table_opens : string -> bool;
  oe_bad : string -> Z -> bool;
  oe_replay_fault : string -> option Z;
  oe_truncate_fails : string -> bool;
  oe_draws : list bool;
  oe_wal : option (list (option nat));
  oe_remove : string -> bool
}.

Definition readRestoreMarker (readable : bool) : st disk Z := fun d =>
  match d !! restoreMarkerFileName with
  | None => (d, Ok 0)
  | Some f =>
      if readable then
        match Atoi (TrimSpace (String.string_of_list_byte (f_contents f))) with
        | Some n => (d, Ok n)
        | None => (d, Err (Wrapf "engine: malformed restore marker" (Errorf "invalid syntax")))
        end
      else (d, Err (Wrapf "engine: reading restore marker" (Errorf "read")))
  end.

(** The numbers of the files with an extension, in increasing order: a name
    counts when printing the scanned number gives it back. *)
Definition file_number (ext : string) (minValidSeq : Z) (name : string) : option Z :=
  match Sscanf06 ext name with
  | Some n => if String.eqb (Sprintf06 ext n) name && negb (n <? minValidSeq) then Some n else None
  | None => None
  end.
Definition numbers (ext : string) (minValidSeq : Z) (d : disk) : list Z :=
  merge_sort Z.le (omap (file_number ext minValidSeq) (map_to_list d).*1).

Definition next_number (nums : list Z) : Z := match last nums with Some n => n + 1 | None => 0 end.

Definition source_of (opens : bool) (bad : Z -> bool) (name : string) (d : disk) : option source :=
  if opens then (fun f => mkSource (f_contents f) bad) <$> d !! name else None.

(** The loop of [discoverSSTables], over the numbers from the highest down. *)
Fixpoint open_tables (env : open_env) (d : disk) (nums : list Z) : res (list sstableEntry * Z) :=
  match nums with
  | [] => Ok ([], 0)
  | n :: nums =>
      let name := sstName n in
      let* r := res_wrap "engine: opening existing sstable"
                  (OpenWithCache name (source_of (oe_table_opens env name) (oe_bad env name) name d)) in
      let* '(ts, maxSeq) := open_tables env d nums in
      Ok (mkTable name r :: ts, if maxSeq <? r_maxSeq r then r_maxSeq r else maxSeq)
  end.

Definition discoverSSTables (env : open_env) (minValidSeq : Z) : st disk (list sstableEntry * Z * Z) := fun d =>
  if oe_list_tables env then
    let nums := numbers ".sst" minValidSeq d in
    (d, let* '(ts, maxSeq) := open_tables env d (reverse nums) in Ok (ts, next_number nums, maxSeq))
  else (d, Err (Wrapf "engine: listing" (Errorf "readdir"))).

Definition discoverWALs (env : open_env) (minValidSeq : Z) : st disk (list string * Z) := fun d =>
  if oe_list_wals env then
    let nums := numbers ".wal" minValidSeq d in
    (d, Ok (map walName nums, next_number nums))
  else (d, Err (Wrapf "engine: listing" (Errorf "readdir"))).

(** The body of the [for _, rec := range records] loop. *)
Definition apply_record (m : Memtable) (rec : Record.t) : res Memtable :=
  if bool_decide (Record.Type_ rec = Record.RecordDelete)
  then Memtable.Delete m (Record.Key rec) (Record.SeqNum rec)
  else Memtable.Put m (Record.Key rec) (Record.Value rec) (Record.SeqNum rec).

Fixpoint apply_records (m : Memtable) (maxSeq : Z) (recs : list Record.t) : res (Memtable * Z) :=
  match recs with
  | [] => Ok (m, maxSeq)
  | rec :: recs =>
      let* m := apply_record m rec in
      apply_records m (if maxSeq <? Record.SeqNum rec then Record.SeqNum rec else maxSeq) recs
  end.

(** [for _, path := range walPaths]; a replay truncates a torn tail. *)
Fixpoint replay_wals (env : open_env) (names : list string) (m : Memtable) (maxSeq : Z)
    : st disk (Memtable * Z) :=
  match names with
  | [] => ret (m, maxSeq)
  | name :: names =>
      let! d := reads id in
      let f := d !! name in
      let! '(records, _, data) := wrap "engine: replaying wal" (lift (Replay.Replay
        ((fun f => {| Replay.rs_data := f_contents f; Replay.rs_fault := oe_replay_fault env name;
                      Replay.rs_truncate_fails := oe_truncate_fails env name |}) <$> f))) in
      let! _ := modify (fun d => match f, data with
                                 | Some f, Some data => <[name := truncate data f]> d
                                 | _, _ => d
                                 end) in
      let! '(m, maxSeq) := lift (apply_records m maxSeq records) in
      replay_wals env names m maxSeq
  end.

Definition relog_record (e : entrySnapshot) : Record.t :=
  Record.mk (e_seq e) (if e_deleted e then Record.RecordDelete else Record.RecordPut) (e_key e) (e_value e).

(** [for it.SeekToFirst(); it.Valid(); it.Next()] over a memtable. *)
Definition mem_entries (m : Memtable) : res (list entrySnapshot) :=
  let* it := Memtable.NewIterator m in
  Memtable.drain (S (length (Memtable.entries it))) (Memtable.SeekToFirst it).

(** Appending to a log that is not part of an engine yet; on an error it is
    closed. *)
Definition append_or_close (w : Appender.WAL) (recs : list Record.t) : st disk Appender.WAL := fun d =>
  match Appender.AppendBatch w recs with
  | (w, None) => (store_wal w d, Ok w)
  | (w, Some e) => (close_wal w (store_wal w d), Err e)
  end.

Definition relog (w : Appender.WAL) (m : Memtable) : st disk Appender.WAL :=
  if 0 <? Memtable.Len m then
    let! es := lift (mem_entries m) in
    wrap "engine: re-logging recovered records" (append_or_close w (map relog_record es))
  else ret w.

Fixpoint remove_wals (env : open_env) (w : Appender.WAL) (names : list string) : st disk unit :=
  match names with
  | [] => ret tt
  | name :: names =>
      let! _ := wrap "engine: removing old wal after re-logging"
                  (on_error (close_wal w) (removeFile (oe_remove env name) name)) in
      remove_wals env w names
  end.

Definition Open (env : open_env) (o : Options) : st disk Engine :=
  let o := withDefaults o in
  if negb (oe_mkdir env) then fail (Wrapf "engine: creating directory" (Errorf "mkdir")) else
  let! minValidSeq := readRestoreMarker (oe_marker env) in
  let c := Some (BlockCache.NewBlockCache (BlockCacheSize o)) in
  let! '(sstables, nextFlushSeq, maxSeqFromTables) := discoverSSTables env minValidSeq in
  let! '(walPaths, nextWALSeq) := discoverWALs env minValidSeq in
  let! '(m, maxSeqFromWAL) := replay_wals env walPaths (Memtable.New (oe_draws env)) 0 in
  let nextSeq := inc64 (if maxSeqFromTables <? maxSeqFromWAL then maxSeqFromWAL else maxSeqFromTables) in
  let! w := wrap "engine: opening wal" (openWAL (walName nextWALSeq) (oe_wal env)) in
  let! w := relog w m in
  let! _ := remove_wals env w walPaths in
  ret (mkEngine o w m None None c sstables nextSeq nextFlushSeq (nextWALSeq + 1) false []).

(** ** Setters *)

Definition set_w (x : Appender.WAL) (e : Engine) : Engine :=
  mkEngine (opts e) x (mem e) (immutable e) (flushErr e) (ecache e) (sstables e) (nextSeq e) (nextFlushSeq e)
    (nextWALSeq e) (eclosed e) (flushes e).
Definition set_mem (x : Memtable) (e : Engine) : Engine :=
  mkEngine (opts e) (w e) x (immutable e) (flushErr e) (ecache e) (sstables e) (nextSeq e) (nextFlushSeq e)
    (nextWALSeq e) (eclosed e) (flushes e).
Definition set_immutable (x : option Memtable) (e : Engine) : Engine :=
  mkEngine (opts e) (w e) (mem e) x (flushErr e) (ecache e) (sstables e) (nextSeq e) (nextFlushSeq e)
    (nextWALSeq e) (eclosed e) (flushes e).
Definition set_flushErr (x : option error) (e : Engine) : Engine :=
  mkEngine (opts e) (w e) (mem e) (immutable e) x (ecache e) (sstables e) (nextSeq e) (nextFlushSeq e)
    (nextWALSeq e) (eclosed e) (flushes e).
Definition set_ecache (x : cache) (e : Engine) : Engine :=
  mkEngine (opts e) (w e) (mem e) (immutable e) (flushErr e) x (sstables e) (nextSeq e) (nextFlushSeq e)
    (nextWALSeq e) (eclosed e) (flushes e).
Definition set_sstables (x : list sstableEntry) (e : Engine) : Engine :=
  mkEngine (opts e) (w e) (mem e) (immutable e) (flushErr e) (ecache e) x (nextSeq e) (nextFlushSeq e)
    (nextWALSeq e) (eclosed e) (flushes e).
Definition set_nextSeq (x : Z) (e : Engine) : Engine :=
  mkEngine (opts e) (w e) (mem e) (immutable e) (flushErr e) (ecache e) (sstables e) x (nextFlushSeq e)
    (nextWALSeq e) (eclosed e) (flushes e).
Definition set_numbers (fs ws : Z) (e : Engine) : Engine :=
  mkEngine (opts e) (w e) (mem e) (immutable e) (flushErr e) (ecache e) (sstables e) (nextSeq e) fs
    ws (eclosed e) (flushes e).
Definition set_eclosed (x : bool) (e : Engine) : Engine :=
  mkEngine (opts e) (w e) (mem e) (immutable e) (flushErr e) (ecache e) (sstables e) (nextSeq e) (nextFlushSeq e)
    (nextWALSeq e) x (flushes e).
Definition set_flushes (x : list flush) (e : Engine) : Engine :=
  mkEngine (opts e) (w e) (mem e) (immutable e) (flushErr e) (ecache e) (sstables e) (nextSeq e) (nextFlushSeq e)
    (nextWALSeq e) (eclosed e) x.

Definition field {A} (f : Engine -> A) : st world A := reads (fun s => f (eng s)).
Definition update (f : Engine -> Engine) : st world unit := modify (fun s => mkWorld (dsk s) (f (eng s))).

(** A method of the directory as a method of the engine. *)
Definition on_disk {A} (m : st disk A) : st world A := fun s =>
  let '(d, r) := m (dsk s) in (mkWorld d (eng s), r).

(** ** Writing *)

Record BatchOp := mkOp { op_key : bytes; op_value : bytes; op_deleted : bool }.

(** The loop that numbers the operations. *)
Fixpoint number_ops (seq : Z) (ops : list BatchOp) : list Record.t * Z :=
  match ops with
  | [] => ([], seq)
  | op :: ops =>
      let '(recs, next) := number_ops (inc64 seq) ops in
      (Record.mk seq (if op_deleted op then Record.RecordDelete else Record.RecordPut) (op_key op) (op_value op)
         :: recs, next)
  end.

(** The loop that applies them to the memtable; [seqs[i]] is the number of the
    [i]-th record. *)
Fixpoint apply_ops (m : Memtable) (ops : list BatchOp) (recs : list Record.t) : res Memtable :=
  match ops, recs with
  | op :: ops, rec :: recs =>
      let* m := (if op_deleted op then Memtable.Delete m (op_key op) (Record.SeqNum rec)
                 else Memtable.Put m (op_key op) (op_value op) (Record.SeqNum rec)) in
      apply_ops m ops recs
  | _, _ => Ok m
  end.

(** [e.w.AppendBatch(records)]; the log changes also when it fails. *)
Definition append_batch (recs : list Record.t) : st world unit := fun s =>
  let '(x, err) := Appender.AppendBatch (w (eng s)) recs in
  (mkWorld (store_wal x (dsk s)) (set_w x (eng s)), match err with Some e => Err e | None => Ok tt end).

(** The file opened for the fresh memtable, and the memtable's random
    levels. *)
Record flush_env := mkFlushEnv { fe_wal : option (list (option nat)); fe_draws : list bool }.

Definition startFlushLocked (env : flush_env) : st world unit :=
  let! n := field nextWALSeq in
  let! newWAL := wrap "opening new wal for background flush" (on_disk (openWAL (walName n) (fe_wal env))) in
  update (fun e =>
    let frozen := mem e in
    let frozenWAL := w e in
    let flushSeq := nextFlushSeq e in
    set_flushes (flushes e ++ [mkFlush (Writing frozen) frozenWAL flushSeq])
      (set_numbers (flushSeq + 1) (n + 1)
        (set_w newWAL (set_mem (Memtable.New (fe_draws env)) (set_immutable (Some frozen) e))))).

(** The critical section of [ApplyBatch] once no flush is in the way;
    [waited] tells whether it had to wait for one. *)
Definition applyLocked (env : flush_env) (waited : bool) (ops : list BatchOp) : st world unit :=
  let! c := field eclosed in
  if waited && c then fail (Errorf "engine: closed while waiting for a background flush") else
  let! err := field flushErr in
  match err with
  | Some err => fail (Wrapf "engine: a previous background flush failed, refusing further writes" err)
  | None =>
  match ops with
  | [] => ret tt
  | _ =>
      let! seq := field nextSeq in
      let '(records, next) := number_ops seq ops in
      let! _ := update (set_nextSeq next) in
      let! _ := wrap "engine: wal append batch" (append_batch records) in
      let! m := field mem in
      let! m := lift (apply_ops m ops records) in
      let! _ := update (set_mem m) in
      let! threshold := field (fun e => MemtableSizeThreshold (opts e)) in
      if threshold <=? Memtable.ApproxSize m
      then wrap "engine: starting background flush" (startFlushLocked env)
      else ret tt
  end
  end.

(** [None]: the call is blocked in [waitForAnyFlushLocked]. *)
Definition unless_flushing {A} (m : st world A) (s : world) : option (world * res A) :=
  match immutable (eng s) with
  | Some _ => None
  | None => Some (m s)
  end.

Definition ApplyBatch (env : flush_env) (waited : bool) (ops : list BatchOp) : world -> option (world * res unit) :=
  unless_flushing (applyLocked env waited ops).
Definition Put (env : flush_env) (waited : bool) (k v : bytes) : world -> option (world * res unit) :=
  ApplyBatch env waited [mkOp k v false].
Definition Delete (env : flush_env) (waited : bool) (k : bytes) : world -> option (world * res unit) :=
  ApplyBatch env waited [mkOp k [] true].

(** ** Reading *)

Definition found_ (v : bytes) (deleted : bool) : bytes * bool := if deleted then ([], false) else (v, true).

(** The loop over the tables, newest first. *)
Fixpoint get_tables (c : cache) (ts : list sstableEntry) (k : bytes) : cache * res (bytes * bool) :=
  match ts with
  | [] => (c, Ok ([], false))
  | t :: ts =>
      match SSTableReader.Get c (t_reader t) k with
      | (c, Ok (v, _, deleted, true)) => (c, Ok (found_ v deleted))
      | (c, Ok (_, _, _, false)) => get_tables c ts k
      | (c, Err e) => (c, Err (Wrapf "engine: reading sstable" e))
      | (c, Panic) => (c, Panic)
      end
  end.

Definition Get (k : bytes) : st world (bytes * bool) :=
  let! c := field eclosed in
  if c : bool then fail (Errorf "engine: read on a closed engine") else
  let! m := field mem in
  let! '(v, _, deleted, found) := lift (Memtable.Get m k) in
  if found : bool then ret (found_ v deleted) else
  let! im := field immutable in
  let! '(v, _, deleted, found) :=
    lift (match im with Some m => Memtable.Get m k | None => Ok ([], 0, false, false) end) in
  if found : bool then ret (found_ v deleted) else
  fun s =>
    let '(c, r) := get_tables (ecache (eng s)) (sstables (eng s)) k in
    (mkWorld (dsk s) (set_ecache c (eng s)), r).

(** ** Flushing *)

Section bloom.
Context (float_bits : Z -> Z) (float_hashes : Z -> Z -> Z).

Definition entry_of (e : entrySnapshot) : Block.decodedEntry :=
  Block.mkEntry (e_key e) (e_value e) (e_seq e) (e_deleted e).

(** Creating a table file and adding entries up to the first error; the file
    is left as it is then. *)
Definition write_sst (name : string) (blockSize : Z) (file : option (list (option nat)))
    (es : list Block.decodedEntry) : st disk unit := fun d =>
  match NewWriter name blockSize file with
  | Err e => (d, Err (Wrapf "creating sstable writer" e))
  | Panic => (d, Panic)
  | Ok x =>
      let put x := <[name := of_wal (Appender.wr (out x))]> d in
      match add_all x es with
      | (x, Some e) => (put x, Err (Wrapf "writing sstable entry" e))
      | (x, None) =>
          let '(x, r) := Finish float_bits float_hashes x in
          (put x, let* _ := res_wrap "finishing sstable" r in Ok tt)
      end
  end.

Definition writeSSTableFromMemtable (m : Memtable) (name : string) (o : Options)
    (file : option (list (option nat))) : st disk unit :=
  let! es := lift (mem_entries m) in
  write_sst name (SSTableBlockSize o) file (map entry_of es).

(** What a flush meets: creating and writing the table, reopening it, reading
    it later, removing the old log. *)
Record run_env := mkRunEnv {
  re_table : option (list (option nat));
  re_opens : bool;
  re_bad : Z -> bool;
  re_remove : bool
}.

Definition reopen (env : run_env) (name : string) : st disk Reader := fun d =>
  (d, OpenWithCache name (source_of (re_opens env) (re_bad env) name d)).

Definition fail_flush (e : error) : Engine -> Engine := set_flushErr (Some (Wrapf "background flush" e)).

(** One stage of the goroutine at position [i]: between two stages anything
    else may happen.  A goroutine that is through is gone. *)
Definition runFlush (env : run_env) (i : nat) (s : world) : option (world * res unit) :=
  match flushes (eng s) !! i with
  | None => None
  | Some f =>
      let next st := set_flushes (<[i := mkFlush st (fl_wal f) (fl_seq f)]> (flushes (eng s))) in
      let done_ := set_flushes (delete i (flushes (eng s))) in
      Some (
        match fl_stage f with
        | Writing frozen =>
            let '(d, r) :=
              (let! _ := writeSSTableFromMemtable frozen (sstName (fl_seq f)) (opts (eng s)) (re_table env) in
               wrap "reopening flushed sstable" (reopen env (sstName (fl_seq f)))) (dsk s) in
            (mkWorld d (next (Written r) (eng s)), Ok tt)
        | Written (Ok r) =>
            (mkWorld (dsk s)
               (next Closing (set_immutable None
                  (set_sstables (mkTable (sstName (fl_seq f)) r :: sstables (eng s)) (eng s)))), Ok tt)
        | Written (Err e) => (mkWorld (dsk s) (done_ (set_immutable None (fail_flush e (eng s)))), Ok tt)
        | Written Panic => (s, Panic)
        | Closing =>
            let '(x, err) := Appender.Close (fl_wal f) in
            let d := store_wal x (dsk s) in
            match err with
            | Some e => (mkWorld d (done_ (fail_flush (Wrapf "closing old wal" e) (eng s))), Ok tt)
            | None =>
                (mkWorld d (set_flushes (<[i := mkFlush Removing x (fl_seq f)]> (flushes (eng s))) (eng s)), Ok tt)
            end
        | Removing =>
            match removeFile (re_remove env) (Appender.path (fl_wal f)) (dsk s) with
            | (d, Ok _) => (mkWorld d (done_ (eng s)), Ok tt)
            | (d, Err e) => (mkWorld d (done_ (fail_flush (Wrapf "removing old wal" e) (eng s))), Ok tt)
            | (d, Panic) => (mkWorld d (eng s), Panic)
            end
        end)
  end.

(** [Flush] up to its wait; [true] when it started a flush. *)
Definition Flush (env : flush_env) (waited : bool) : world -> option (world * res bool) :=
  fun s =>
  if negb waited && eclosed (eng s) then Some (s, Err (Errorf "engine: flush on a closed engine")) else
  unless_flushing (
    let! c := field eclosed in
    if waited && c then fail (Errorf "engine: closed while waiting for a background flush") else
    let! err := field flushErr in
    match err with
    | Some err => fail (Wrapf "engine: a previous background flush failed" err)
    | None =>
        let! m := field mem in
        if Memtable.Len m =? 0 then ret false
        else let! _ := startFlushLocked env in ret true
    end) s.

(** The rest of [Flush], once the goroutine it started is through. *)
Definition flushed : st world unit :=
  let! err := field flushErr in
  match err with
  | Some err => fail (Wrapf "engine: flush failed" err)
  | None => ret tt
  end.

(** ** Snapshots *)

Definition writeLenPrefixed (b : bytes) : bytes := put_u32 (len b) ++ b.

Definition readLenPrefixed (data : bytes) (off : Z) : res (bytes * Z) :=
  if len data - off <? 4 then Err (Errorf "engine: malformed snapshot data: truncated length prefix") else
  let* n := get_u32 data off in
  let off := off + 4 in
  if u32 (len data - off) <? n then Err (Errorf "engine: malformed snapshot data: declared length exceeds available") else
  let* val := slice data off (off + n) in
  Ok (val, off + n).

Record snapshotEntry := mkSnapshotEntry { se_key : bytes; se_value : bytes }.

(** [for off < len(data)]; a round consumes eight bytes or more. *)
Fixpoint decode_entries (fuel : nat) (data : bytes) (off : Z) : res (list snapshotEntry) :=
  match fuel with
  | O => Panic
  | S fuel =>
      if off <? len data then
        let* '(key, off) := readLenPrefixed data off in
        let* '(value, off) := readLenPrefixed data off in
        let* es := decode_entries fuel data off in
        Ok (mkSnapshotEntry key value :: es)
      else Ok []
  end.
Definition decodeSnapshotEntries (data : bytes) : res (list snapshotEntry) :=
  decode_entries (S (length data)) data 0.

(** Every key a table's iterator reaches; an error that stops it is not looked
    at. *)
Fixpoint collect_tables (c : cache) (ts : list sstableEntry) (keys : gset bytes) : res (cache * gset bytes) :=
  match ts with
  | [] => Ok (c, keys)
  | t :: ts =>
      let* '(c, es, _) := scan c (t_reader t) (S (length (s_data (r_f (t_reader t))))) in
      collect_tables c ts (keys ∪ list_to_set (Block.key <$> es))
  end.

Definition collect_mem (m : option Memtable) (keys : gset bytes) : res (gset bytes) :=
  match m with
  | None => Ok keys
  | Some m => let* es := mem_entries m in Ok (keys ∪ list_to_set (e_key <$> es))
  end.

(** The loop over the collected keys. *)
Fixpoint snapshot_loop (keys : list bytes) : st world bytes :=
  match keys with
  | [] => ret []
  | k :: keys =>
      let! '(v, found) := Get k in
      let! rest := snapshot_loop keys in
      ret (if found : bool then writeLenPrefixed k ++ writeLenPrefixed v ++ rest else rest)
  end.

(** [order] is the order in which Go walks the map of keys. *)
Definition Snapshot (order : list bytes -> list bytes) : st world bytes :=
  let! c := field eclosed in
  if c : bool then fail (Errorf "engine: snapshot of a closed engine") else
  let! m := field mem in
  let! keys := lift (collect_mem (Some m) ∅) in
  let! im := field immutable in
  let! keys := lift (collect_mem im keys) in
  let! keys := (fun s =>
    match collect_tables (ecache (eng s)) (sstables (eng s)) keys with
    | Ok (c, keys) => (mkWorld (dsk s) (set_ecache c (eng s)), Ok keys)
    | Err e => (s, Err e)
    | Panic => (s, Panic)
    end) in
  snapshot_loop (order (elements keys)).

(** ** Restoring *)

(** The outcomes of writing the marker: creating the temporary file (and the
    faults of its calls), removing it after a failure, renaming it. *)
Record marker_env := mkMarkerEnv {
  me_tmp : option (list (option nat));
  me_remove : bool;
  me_rename : bool
}.

Definition writeRestoreMarkerAtomically (env : marker_env) (minValidSeq : Z) : st disk unit := fun d =>
  let final := restoreMarkerFileName in
  let tmp := final +:+ ".tmp" in
  match me_tmp env with
  | None => (d, Err (Wrapf "engine: creating restore marker temp file" (Errorf "create")))
  | Some fs =>
      let f := {| Appender.synced := []; Appender.cached := []; Appender.script := fs |} in
      let abandon msg f := (fst (removeFile (me_remove env) tmp (<[tmp := of_wal f]> d)), Err (Wrapf msg (Errorf "io"))) in
      let '(f, _, ok) := Appender.fWrite f (String.list_byte_of_string (Itoa minValidSeq)) in
      if negb ok then abandon "engine: writing restore marker temp file"%string f else
      let '(f, ok) := Appender.fSync f in
      if negb ok then abandon "engine: syncing restore marker temp file"%string f else
      let '(f, ok) := Appender.fClose f in
      if negb ok then abandon "engine: closing restore marker temp file"%string f else
      if me_rename env then (<[final := of_wal f]> (delete tmp d), Ok tt)
      else (<[tmp := of_wal f]> d, Err (Wrapf "engine: replacing restore marker" (Errorf "rename")))
  end.

Record restore_env := mkRestoreEnv {
  rs_table : option (list (option nat));
  rs_opens : bool;
  rs_bad : Z -> bool;
  rs_wal : option (list (option nat));
  rs_marker : marker_env;
  rs_draws : list bool;
  rs_remove : string -> bool
}.

(** [removeFile] with its result ignored. *)
Definition try_remove (env : restore_env) (name : string) (d : disk) : disk :=
  fst (removeFile (rs_remove env name) name d).

(** Entry [i] of the snapshot becomes an entry with sequence number [i + 1]. *)
Fixpoint number_entries (i : Z) (es : list snapshotEntry) : list Block.decodedEntry :=
  match es with
  | [] => []
  | e :: es => Block.mkEntry (se_key e) (se_value e) (u64 (i + 1)) false :: number_entries (i + 1) es
  end.

Definition se_le (a b : snapshotEntry) : Prop := compare (se_key a) (se_key b) <= 0.
#[global] Instance se_le_dec : RelDecision se_le.
Proof. intros a b. unfold se_le. apply _. Defined.

Definition RestoreSnapshot (env : restore_env) (data : bytes) : st world unit :=
  let! c := field eclosed in
  if c : bool then fail (Errorf "engine: restore snapshot on a closed engine") else
  let! im := field immutable in
  match im with
  | Some _ => fail (Errorf "engine: cannot restore a snapshot while a background flush is already in progress")
  | None =>
  let! entries := wrap "engine: decoding snapshot data" (lift (decodeSnapshotEntries data)) in
  let entries := merge_sort se_le entries in
  let! newSeq := field (fun e => if nextFlushSeq e <? nextWALSeq e then nextWALSeq e else nextFlushSeq e) in
  let! o := field opts in
  let! _ := wrap "engine: snapshot sstable"
              (on_disk (write_sst (sstName newSeq) (SSTableBlockSize o) (rs_table env) (number_entries 0 entries))) in
  let! reader := wrap "engine: reopening snapshot sstable"
                   (on_disk (reopen (mkRunEnv None (rs_opens env) (rs_bad env) false) (sstName newSeq))) in
  let! newWAL := wrap "engine: opening fresh wal after snapshot restore"
                   (on_disk (openWAL (walName newSeq) (rs_wal env))) in
  let! _ := wrap "engine: committing snapshot restore"
              (on_disk (on_error (close_wal newWAL) (writeRestoreMarkerAtomically (rs_marker env) newSeq))) in
  let! oldSSTables := field sstables in
  let! oldWALPath := field (fun e => Appender.path (w e)) in
  let! _ := update (fun e =>
    set_flushErr None (set_numbers (newSeq + 1) (newSeq + 1)
      (set_mem (Memtable.New (rs_draws env)) (set_w newWAL
        (set_sstables [mkTable (sstName newSeq) reader] e))))) in
  on_disk (modify (fun d =>
    try_remove env oldWALPath (fold_left (fun d t => try_remove env (t_path t) d) oldSSTables d)))
  end.
End bloom.

(** ** Observing and closing *)

Record Stats := mkStats {
  MemtableSize : Z;
  MemtableEntries : Z;
  NumSSTables : Z;
  FlushInProgress : bool
}.

Definition stats (e : Engine) : Stats :=
  mkStats (Memtable.ApproxSize (mem e)) (Memtable.Len (mem e)) (len (sstables e))
    (match immutable e with Some _ => true | None => false end).

(** [Close] up to its wait: [true] when it goes on to wait. *)
Definition Close : st world bool :=
  let! c := field eclosed in
  if c : bool then ret false
  else let! _ := update (set_eclosed true) in ret true.

(** The rest of [Close], once every goroutine is through ([None]: blocked);
    closing a reader succeeds in the model. *)
Definition closed_down (s : world) : option (world * res unit) :=
  match flushes (eng s) with
  | _ :: _ => None
  | [] =>
      let '(x, err) := Appender.Close (w (eng s)) in
      Some (mkWorld (store_wal x (dsk s)) (set_w x (eng s)),
            match err with Some e => Err (Wrapf "engine: closing wal" e) | None => Ok tt end)
  end.
