(* ===== verification/EngineLayers.v ===== *)
(** * Reading through the layers

    Memtables and tables are layers: finite maps from keys to a value, a
    tombstone flag and a sequence number.  A lookup of the engine is a lookup
    in their left-biased union, whatever the block cache holds. *)

From Stdlib Require Import Strings.Byte.
From S2P Require Import Prelude GoBytes GoSort GoFmt GoState Wal SkipList Memtable Bloom BlockCache SSTableFormat SSTableWriter SSTableReader SSTable Engine.
Import Block.

(** ** Layers *)

Abbreviation layer := Memtable.table.

Definition flat (ls : list layer) : layer := foldr (fun l acc => l ∪ acc) ∅ ls.

(** What [Engine.Get] returns for a layer. *)
Definition answer_in (l : layer) (k : bytes) : bytes * bool :=
  match l !! k with
  | Some (v, deleted, _) => found_ v deleted
  | None => ([], false)
  end.

Definition entry_pair (e : decodedEntry) : bytes * (bytes * bool * Z) := (key e, (value e, deleted e, seq e)).
Definition table_layer (es : list decodedEntry) : layer := list_to_map (map entry_pair es).

Lemma lookup_entry_layer es k :
  lookup_entry es k = match table_layer es !! k with
                      | Some (v, d, sq) => (v, sq, d, true)
                      | None => not_found
                      end.
Proof.
  induction es as [|e es IH]; [done |]. simpl. unfold table_layer. simpl. case_bool_decide as Hk.
  - subst. by rewrite lookup_insert_eq.
  - rewrite lookup_insert_ne by done. apply IH.
Qed.

Lemma answer_hit (l1 l2 : layer) k v d sq : l1 !! k = Some (v, d, sq) -> answer_in (l1 ∪ l2) k = found_ v d.
Proof. intros H. unfold answer_in. by rewrite (lookup_union_Some_l _ _ _ _ H). Qed.
Lemma answer_miss (l1 l2 : layer) k : l1 !! k = None -> answer_in (l1 ∪ l2) k = answer_in l2 k.
Proof. intros H. unfold answer_in. by rewrite (lookup_union_r _ _ _ H). Qed.

(** ** The shared cache *)

Definition cache_wf (c : cache) : Prop := match c with Some c => BlockCache.cinv c | None => True end.

(** [c'] holds nothing new for the files outside [P]. *)
Definition cache_frame (P : string -> Prop) (c c' : cache) : Prop :=
  cache_wf c' /\
  match c, c' with
  | Some c, Some c' => forall f off e, ~ P f ->
      BlockCache.items c' !! (f, off) = Some e -> BlockCache.items c !! (f, off) = Some e
  | None, None => True
  | _, _ => False
  end.

Lemma cache_frame_refl P c : cache_wf c -> cache_frame P c c.
Proof. intros H. split; [done |]. by destruct c. Qed.

Lemma cache_frame_trans (P : string -> Prop) c1 c2 c3 :
  cache_frame P c1 c2 -> cache_frame P c2 c3 -> cache_frame P c1 c3.
Proof.
  intros [H1 H12] [H2 H23]. split; [done |]. destruct c1, c2, c3; try done.
  intros f off e Hf H. by apply H12, H23.
Qed.

Lemma cache_frame_weaken (P Q : string -> Prop) c c' :
  (forall f, P f -> Q f) -> cache_frame P c c' -> cache_frame Q c c'.
Proof.
  intros HPQ [H1 H2]. split; [done |]. destruct c, c'; try done. intros f off e Hf. apply H2. auto.
Qed.

#[local] Arguments BlockCache.put : simpl never.
#[local] Arguments BlockCache.get : simpl never.

Lemma readDataBlock_frame c r blk :
  cache_wf c -> cache_frame (eq (r_path r)) c (fst (readDataBlock c r blk)).
Proof.
  intros Hc. unfold readDataBlock. destruct c as [c|].
  - destruct (BlockCache.cache_get_spec c (r_path r) (offset blk) Hc) as (c1 & -> & Hc1 & Hit).
    assert (cache_frame (eq (r_path r)) (Some c) (Some c1)) as H1.
    { split; [done |]. intros f off e _. by rewrite Hit. }
    destruct (_ <$> _); [done |]. destruct (readChecksummed _ _ _) as [data| |]; [| done..].
    destruct (BlockCache.cache_put_spec c1 (r_path r) (offset blk) data Hc1) as (c2 & -> & Hc2 & Hput).
    split; [done |]. intros f off e Hf Hin. apply Hput in Hin as [Hin | [[= -> _] _]]; [by rewrite <- Hit | done].
  - unfold BlockCache.get, BlockCache.put. by destruct (readChecksummed _ _ _).
Qed.

Lemma Get_frame c r k :
  cache_wf c -> cache_frame (eq (r_path r)) c (fst (SSTableReader.Get c r k)).
Proof.
  intros Hc. unfold SSTableReader.Get. pose proof (cache_frame_refl (eq (r_path r)) c Hc) as Hid.
  destruct (Bloom.mayContain _ _) as [[]| |]; [| done..]. destruct (search _ _) as [i| |]; [| done..].
  destruct (_ =? _); [done |]. destruct (index _ _) as [blk| |]; [| done..].
  pose proof (readDataBlock_frame c r blk Hc) as Hf.
  by destruct (readDataBlock c r blk) as [c' [data| |]].
Qed.

Lemma loadBlock_frame c r it i c' it' :
  cache_wf c -> loadBlock c r it i = Ok (c', it') -> cache_frame (eq (r_path r)) c c'.
Proof.
  intros Hc. unfold loadBlock. destruct (_ || _); [intros [= <- <-]; by apply cache_frame_refl |].
  destruct (index _ _) as [blk| |]; cbn [res_bind]; [| done..].
  pose proof (readDataBlock_frame c r blk Hc) as Hf.
  destruct (readDataBlock c r blk) as [c1 [data| |]]; simpl in Hf; [| by intros [= <- <-] | done].
  destruct (decode_loop _ _ _); [by intros [= <- <-]..| done].
Qed.

Lemma drain_frame fuel : forall c r it c' es err,
  cache_wf c -> SSTableReader.drain fuel c r it = Ok (c', es, err) -> cache_frame (eq (r_path r)) c c'.
Proof.
  induction fuel as [|fuel IH]; intros c r it c' es err Hc; cbn [SSTableReader.drain]; [done |].
  destruct (SSTableReader.Valid it); [| intros [= <- _ _]; by apply cache_frame_refl].
  destruct (SSTableReader.Key it); cbn [res_bind]; [| done..].
  destruct (SSTableReader.Value it); cbn [res_bind]; [| done..].
  destruct (SSTableReader.SeqNum it); cbn [res_bind]; [| done..].
  destruct (SSTableReader.Deleted it); cbn [res_bind]; [| done..].
  destruct (SSTableReader.Next c r it) as [[c1 it1]| |] eqn:Hn; cbn [res_bind]; [| done..].
  assert (cache_frame (eq (r_path r)) c c1) as H1.
  { revert Hn. unfold SSTableReader.Next. destruct (it_err it); [intros [= <- _]; by apply cache_frame_refl |].
    cbv zeta. destruct (_ <=? _); [by apply loadBlock_frame | intros [= <- _]; by apply cache_frame_refl]. }
  destruct (SSTableReader.drain fuel c1 r it1) as [[[c2 es2] err2]| |] eqn:Hd; cbn [res_bind]; [| done..].
  intros [= <- _ _]. eapply cache_frame_trans; [exact H1 |]. eapply IH, Hd. apply H1.
Qed.

Lemma scan_frame c r fuel c' es err :
  cache_wf c -> scan c r fuel = Ok (c', es, err) -> cache_frame (eq (r_path r)) c c'.
Proof.
  intros Hc. unfold scan, SSTableReader.SeekToFirst.
  destruct (loadBlock c r _ 0) as [[c1 it1]| |] eqn:Hl; cbn [res_bind]; [| done..].
  apply loadBlock_frame in Hl; [| done]. intros Hd. eapply cache_frame_trans; [exact Hl |].
  eapply drain_frame, Hd. apply Hl.
Qed.

(** ** Open tables *)

(** What makes the blocks and the filter those of a finished table. *)
Record good_table (bs : list (list decodedEntry)) (bf : Bloom.bloomFilter) : Prop := {
  gt_nonempty : Forall (fun b => b <> []) bs;
  gt_sorted : sorted (key <$> concat bs);
  gt_seq : Forall (fun e => is_u64 (seq e)) (concat bs);
  gt_bloom : Bloom.wf bf;
  gt_may : forall k, k ∈ key <$> concat bs -> Bloom.mayContain bf k = Ok true;
  gt_size : len (table_image bs bf) <= Bloom.maxAlloc
}.

(** An open table with the entries [es], coherent with the cache. *)
Definition table_ok (c : cache) (t : sstableEntry) (es : list decodedEntry) : Prop :=
  exists bs bf bad, good_table bs bf /\ concat bs = es /\
    t_reader t = table_reader bs bf bad (t_path t) /\ coherent bs (t_path t) c.

Definition healthy_table (t : sstableEntry) : Prop := forall o, s_bad (r_f (t_reader t)) o = false.

Lemma table_ok_frame (P : string -> Prop) c c' t es :
  cache_frame P c c' -> ~ P (t_path t) -> table_ok c t es -> table_ok c' t es.
Proof.
  intros [Hwf Hfr] Hp (bs & bf & bad & Hg & He & Hr & Hc). exists bs, bf, bad. split_and!; try done.
  destruct c as [c|], c' as [c'|]; try done. destruct Hc as [_ Hc]. split; [done |].
  intros i b blk e Hb Hk Hin. eapply Hc; [done | done |]. by apply Hfr.
Qed.

Lemma tables_ok_frame (P : string -> Prop) c c' ts ess :
  cache_frame P c c' -> (forall t, t ∈ ts -> ~ P (t_path t)) -> Forall2 (table_ok c) ts ess -> Forall2 (table_ok c') ts ess.
Proof.
  intros Hf Hp H. induction H as [|t es ts ess Ht _ IH]; constructor.
  - eapply table_ok_frame; [done | apply Hp; by left | done].
  - apply IH. intros x Hx. apply Hp. by right.
Qed.

(** A lookup in one open table. *)
Lemma table_get c t es k :
  cache_wf c -> table_ok c t es ->
  exists c' a, SSTableReader.Get c (t_reader t) k = (c', a) /\ cache_frame (eq (t_path t)) c c' /\ table_ok c' t es /\
    (a = Ok (lookup_entry es k) \/ ((exists e, a = Err e) /\ ~ healthy_table t)).
Proof.
  intros Hc (bs & bf & bad & Hg & <- & Hr & Hco). pose proof (Get_frame c (t_reader t) k Hc) as Hfr. destruct Hg.
  destruct (Get_spec bs bf bad (t_path t) ltac:(done) ltac:(done) ltac:(done) ltac:(done) ltac:(done) ltac:(done) c k Hco)
    as (c' & a & Hget & Hco' & Ha). rewrite <- Hr in Hget.
  exists c', a. rewrite Hget in Hfr. simpl in Hfr. rewrite Hr in Hfr. simpl in Hfr. split_and!; [done | done | |].
  - exists bs, bf, bad. split_and!; done.
  - destruct Ha as [-> | [He [o Ho]]]; [by left | right]. split; [done |]. intros Hh. specialize (Hh o).
    rewrite Hr in Hh. simpl in Hh. congruence.
Qed.

(** The loop over the tables finds the first layer that has the key. *)
Lemma get_tables_spec k ts : forall ess c,
  cache_wf c -> NoDup (t_path <$> ts) -> Forall2 (table_ok c) ts ess ->
  exists c' a, get_tables c ts k = (c', a) /\ cache_frame (fun f => f ∈ t_path <$> ts) c c' /\
    Forall2 (table_ok c') ts ess /\
    (a = Ok (answer_in (flat (map table_layer ess)) k) \/ ((exists e, a = Err e) /\ ~ Forall healthy_table ts)).
Proof.
  induction ts as [|t ts IH]; intros ess c Hc Hnd Hok; inversion Hok as [|? es ? ess' Ht Hts]; subst; cbn [get_tables].
  { eexists _, _. split_and!; [done | by apply cache_frame_refl | done | by left]. }
  rewrite fmap_cons, NoDup_cons in Hnd. destruct Hnd as [Hnin Hnd].
  destruct (table_get c t es k Hc Ht) as (c1 & a & -> & Hf1 & Ht1 & Ha).
  assert (Forall2 (table_ok c1) ts ess') as Hts1.
  { eapply tables_ok_frame; [exact Hf1 | | done]. intros x Hx Heq. apply Hnin. rewrite Heq.
    apply list_elem_of_fmap. by exists x. }
  assert (cache_frame (fun f => f ∈ t_path <$> t :: ts) c c1) as Hf1'
    by (eapply cache_frame_weaken, Hf1; intros f <-; simpl; left).
  destruct Ha as [-> | [[e ->] Hh]].
  - rewrite lookup_entry_layer. simpl map. cbn [flat foldr]. destruct (table_layer es !! k) as [[[v d] sq]|] eqn:Hl.
    + eexists _, _. split_and!; [reflexivity | done | by constructor |]. left. by rewrite (answer_hit _ _ _ _ _ _ Hl).
    + destruct (IH ess' c1 (proj1 Hf1) Hnd Hts1) as (c2 & a & Hrun & Hf2 & Hts2 & Ha).
      cbv beta iota delta [not_found]. rewrite Hrun. eexists _, _. split; [reflexivity |]. split_and!.
      * eapply cache_frame_trans; [exact Hf1' |]. eapply cache_frame_weaken, Hf2. intros f Hfin. simpl. by right.
      * constructor; [| done]. eapply table_ok_frame; [exact Hf2 | exact Hnin | done].
      * rewrite answer_miss by done. destruct Ha as [-> | [He Hh]]; [by left | right]. split; [done |].
        intros Hall. by apply Forall_cons in Hall as [_ Hall].
  - eexists _, _. split_and!; [reflexivity | done | by constructor |]. right. split; [eauto |].
    intros Hall. by apply Forall_cons in Hall as [Hall _].
Qed.

(** ** Lookups of the engine *)

(** The layers of an engine: the memtable, the frozen one during a flush, and
    the tables from the newest. *)
Record layers (e : Engine) (m : layer) (im : option layer) (ess : list (list decodedEntry)) : Prop := {
  ly_mem : refines (mem e) m;
  ly_imm : match immutable e, im with
           | Some x, Some l => refines x l
           | None, None => True
           | _, _ => False
           end;
  ly_cache : cache_wf (ecache e);
  ly_paths : NoDup (t_path <$> sstables e);
  ly_tables : Forall2 (table_ok (ecache e)) (sstables e) ess
}.

Definition all_layers (m : layer) (im : option layer) (ess : list (list decodedEntry)) : layer :=
  m ∪ (default ∅ im ∪ flat (map table_layer ess)).

Lemma layers_ecache e m im ess c :
  layers e m im ess -> cache_wf c -> Forall2 (table_ok c) (sstables e) ess -> layers (set_ecache c e) m im ess.
Proof. intros [] Hc Ht. by constructor. Qed.

Lemma Get_layers s k m im ess :
  layers (eng s) m im ess -> eclosed (eng s) = false ->
  exists c a, Get k s = (mkWorld (dsk s) (set_ecache c (eng s)), a) /\
    layers (set_ecache c (eng s)) m im ess /\
    cache_frame (fun f => f ∈ t_path <$> sstables (eng s)) (ecache (eng s)) c /\
    (a = Ok (answer_in (all_layers m im ess) k) \/
     ((exists e, a = Err e) /\ ~ Forall healthy_table (sstables (eng s)))).
Proof.
  intros [Hm Him Hc Hp Ht] Hcl. unfold Get, st_bind, field, reads, lift, fail, ret. rewrite Hcl.
  rewrite (Get_refines _ _ k Hm).
  assert (set_ecache (ecache (eng s)) (eng s) = eng s) as Heta by (by destruct (eng s)).
  assert (layers (eng s) m im ess) as Hl by done.
  pose proof (cache_frame_refl (fun f => f ∈ t_path <$> sstables (eng s)) _ Hc) as Hid.
  unfold all_layers. destruct (m !! k) as [[[v d] sq]|] eqn:Hk.
  { exists (ecache (eng s)), (Ok (found_ v d)). rewrite Heta. split_and!; [by destruct s | done | done |].
    left. by rewrite (answer_hit _ _ _ _ _ _ Hk). }
  rewrite answer_miss by done. destruct (immutable (eng s)) as [x|], im as [l|]; try done; simpl.
  - rewrite (Get_refines _ _ k Him). destruct (l !! k) as [[[v d] sq]|] eqn:Hk'.
    { exists (ecache (eng s)), (Ok (found_ v d)). rewrite Heta. split_and!; [by destruct s | done | done |].
      left. by rewrite (answer_hit _ _ _ _ _ _ Hk'). }
    rewrite answer_miss by done.
    destruct (get_tables_spec k (sstables (eng s)) ess (ecache (eng s)) Hc Hp Ht) as (c & a & -> & Hf & Ht' & Ha).
    exists c, a. split_and!; [done | | done | done]. by apply layers_ecache; [| apply Hf |].
  - rewrite map_empty_union.
    destruct (get_tables_spec k (sstables (eng s)) ess (ecache (eng s)) Hc Hp Ht) as (c & a & -> & Hf & Ht' & Ha).
    exists c, a. split_and!; [done | | done | done]. by apply layers_ecache; [| apply Hf |].
Qed.
