(* ===== verification/EngineDisk.v ===== *)
(** * The directory of a store

    Which numbered files discovery finds, what the files of a store hold, and
    what a crash leaves of them. *)

From Stdlib Require Import Strings.Byte Strings.Ascii Strings.String.
From stdpp Require Import sorting.
From S2P Require Import Prelude GoBytes GoSort GoFmt GoState Wal SkipList Memtable Bloom BlockCache SSTableFormat SSTableWriter SSTableReader SSTable Engine EngineLayers.

(** ** Numbered files *)

Lemma scan_digits_bound w : forall acc s v r,
  0 <= acc -> scan_digits w acc s = (v, r) -> v < (acc + 1) * 10 ^ Z.of_nat w.
Proof.
  induction w as [|w IH]; intros acc s v r Hacc; cbn [scan_digits].
  { intros [= <- _]. change (10 ^ Z.of_nat 0) with 1. lia. }
  rewrite Nat2Z.inj_succ, Z.pow_succ_r by lia. assert (0 < 10 ^ Z.of_nat w) by (apply Z.pow_pos_nonneg; lia).
  destruct s as [|c s]; [intros [= <- _]; nia |].
  unfold char_digit. destruct ((48 <=? _) && _) eqn:E; [| intros [= <- _]; nia].
  apply andb_true_iff in E as [E1%Z.leb_le E2%Z.leb_le]. intros H'. apply IH in H'; [nia | lia].
Qed.

Lemma scan_digits_nonneg w : forall acc s v r, 0 <= acc -> scan_digits w acc s = (v, r) -> 0 <= v.
Proof.
  induction w as [|w IH]; intros acc s v r Hacc; cbn [scan_digits]; [by intros [= <- _] |].
  destruct s as [|c s]; [by intros [= <- _] |]. unfold char_digit.
  destruct ((48 <=? _) && _) eqn:E; [| by intros [= <- _]].
  apply andb_true_iff in E as [E1%Z.leb_le _]. apply IH. lia.
Qed.

Lemma scan_nat_bound w s v r : (w <= 6)%nat -> scan_nat w s = Some (v, r) -> 0 <= v < 10 ^ 6.
Proof.
  intros Hw H. assert (scan_digits w 0 s = (v, r)) as Hs.
  { revert H. unfold scan_nat. destruct w, s; try done. destruct (char_digit _); congruence. }
  split; [by eapply scan_digits_nonneg, Hs |]. apply scan_digits_bound in Hs; [| lia].
  assert (10 ^ Z.of_nat w <= 10 ^ 6) by (apply Z.pow_le_mono_r; lia). lia.
Qed.

(** A name of more than six digits is not recognised. *)
Lemma Sscanf06_bound ext name n : Sscanf06 ext name = Some n -> n < 10 ^ 6.
Proof.
  unfold Sscanf06. destruct (scan_int name) as [[m rest]|] eqn:E; [| done].
  destruct (String.prefix ext rest); [| done]. intros [= ->].
  assert (scan_nat 6 name = Some (n, rest) \/ (exists s, scan_nat 5 s = Some (n, rest)) \/
          (exists s, scan_nat 5 s = Some (- n, rest))) as [H | [[s H] | [s H]]].
  { unfold scan_int in E. destruct name as [|[[] [] [] [] [] [] [] []] name]; try (by left; exact E);
      [right; left; by eexists | right; right].
    exists name. destruct (scan_nat 5 name) as [[v r]|]; [| done]. injection E as <- <-. by rewrite Z.opp_involutive. }
  - apply scan_nat_bound in H; lia.
  - apply scan_nat_bound in H; lia.
  - apply scan_nat_bound in H; lia.
Qed.

Lemma file_number_spec ext min name n :
  0 <= min ->
  file_number ext min name = Some n <-> name = Sprintf06 ext n /\ min <= n < 10 ^ 6.
Proof.
  intros Hmin. unfold file_number. split.
  - destruct (Sscanf06 ext name) as [m|] eqn:E; [| done]. apply Sscanf06_bound in E.
    destruct (String.eqb_spec (Sprintf06 ext m) name) as [<- |]; [| done].
    destruct (Z.ltb_spec m min); [done |]. intros [= <-]. done.
  - intros [-> Hn]. rewrite Sscanf06_Sprintf06 by lia.
    replace (String.prefix ext ext) with true.
    + rewrite String.eqb_refl, (proj2 (Z.ltb_ge n min)) by lia. done.
    + symmetry. clear. induction ext as [|c ext IH]; [done |]. simpl. destruct (Ascii.ascii_dec c c); [exact IH | done].
Qed.

(** [l] lists, in increasing order, the files with an extension that count. *)
Definition has_files (ext : string) (min : Z) (d : disk) (l : list Z) : Prop :=
  StronglySorted Z.lt l /\ forall n, n ∈ l <-> min <= n < 10 ^ 6 /\ is_Some (d !! Sprintf06 ext n).

Lemma sorted_lt_weaken (l : list Z) : StronglySorted Z.lt l -> StronglySorted Z.le l /\ NoDup l.
Proof.
  induction 1 as [|n l _ [IH1 IH2] Hall]; [split; constructor |].
  rewrite Forall_forall in Hall. split; constructor; try done.
  - apply Forall_forall. intros x Hx. specialize (Hall x Hx). lia.
  - intros Hin. specialize (Hall n Hin). lia.
Qed.

Lemma sorted_lt_unique (l k : list Z) :
  StronglySorted Z.lt l -> StronglySorted Z.lt k -> (forall n, n ∈ l <-> n ∈ k) -> l = k.
Proof.
  intros [Hl Hnl]%sorted_lt_weaken [Hk Hnk]%sorted_lt_weaken Hiff.
  apply (StronglySorted_unique Z.le); [done | done |]. by apply NoDup_Permutation.
Qed.

Lemma numbers_spec ext min d l : 0 <= min -> has_files ext min d l -> numbers ext min d = l.
Proof.
  intros Hmin [Hs Hiff]. unfold numbers. set (raw := omap _ _).
  assert (forall n, n ∈ raw <-> n ∈ l) as Hraw.
  { intros n. rewrite Hiff. unfold raw. rewrite list_elem_of_omap. split.
    - intros (name & Hin & [-> Hn]%file_number_spec); [| done]. split; [done |].
      apply list_elem_of_fmap in Hin as ([x f] & -> & Hin). apply elem_of_map_to_list in Hin. by exists f.
    - intros [Hn [f Hf]]. exists (Sprintf06 ext n). split; [| by apply file_number_spec].
      apply list_elem_of_fmap. exists (Sprintf06 ext n, f). split; [done |]. by apply elem_of_map_to_list. }
  assert (NoDup raw) as Hnd.
  { unfold raw. assert (NoDup (map_to_list d).*1) as H by apply NoDup_fst_map_to_list. revert H.
    generalize ((map_to_list d).*1). intros names. induction names as [|x names IH]; [constructor |].
    rewrite NoDup_cons. intros [Hx Hnd]. simpl. destruct (file_number ext min x) as [n|] eqn:E; [| by apply IH].
    apply NoDup_cons. split; [| by apply IH]. rewrite list_elem_of_omap. intros (y & Hy & Ey).
    apply file_number_spec in E as [-> _]; [| done]. by apply file_number_spec in Ey as [-> _]. }
  pose proof (merge_sort_Permutation Z.le raw) as Hp.
  apply sorted_lt_unique; [| done |].
  - assert (StronglySorted Z.le (merge_sort Z.le raw)) as Hle by (apply StronglySorted_merge_sort; apply _).
    rewrite <- Hp in Hnd. clear -Hle Hnd. induction Hle as [|n k _ IH Hall]; constructor.
    + apply IH. by apply NoDup_cons in Hnd as [_ ?].
    + apply NoDup_cons in Hnd as [Hn _]. rewrite Forall_forall in *. intros x Hx. specialize (Hall x Hx).
      assert (n <> x) by (intros ->; done). lia.
  - intros n. by rewrite Hp.
Qed.

(** ** Names *)

Definition small (n : Z) : Prop := 0 <= n < 10 ^ 6.

Lemma Sprintf06_inj ext n m : small n -> small m -> Sprintf06 ext n = Sprintf06 ext m -> n = m.
Proof.
  intros Hn Hm Heq. assert (file_number ext 0 (Sprintf06 ext n) = Some n) as H1 by (by apply file_number_spec).
  assert (file_number ext 0 (Sprintf06 ext m) = Some m) as H2 by (by apply file_number_spec).
  rewrite Heq in H1. congruence.
Qed.

(** The names that are no numbered file of an extension. *)
Definition foreign (ext name : string) : Prop := forall n, small n -> name <> Sprintf06 ext n.

Lemma foreign_ext ext ext' n : small n -> String.prefix ext' ext = false -> foreign ext' (Sprintf06 ext n).
Proof.
  intros Hn Hp m Hm Heq. pose proof (Sscanf06_Sprintf06 ext ext' n Hn) as H1. rewrite Hp, Heq in H1.
  assert (file_number ext' 0 (Sprintf06 ext' m) = Some m) as H2 by (by apply file_number_spec).
  unfold file_number in H2. by rewrite H1 in H2.
Qed.
Lemma foreign_scan ext name : Sscanf06 ext name = None -> foreign ext name.
Proof.
  intros H m Hm ->. assert (file_number ext 0 (Sprintf06 ext m) = Some m) as H2 by (by apply file_number_spec).
  unfold file_number in H2. by rewrite H in H2.
Qed.

Lemma sst_foreign n : small n -> foreign ".wal" (sstName n).
Proof. intros H. by apply foreign_ext. Qed.
Lemma wal_foreign n : small n -> foreign ".sst" (walName n).
Proof. intros H. by apply foreign_ext. Qed.
Lemma marker_foreign ext : foreign ext restoreMarkerFileName /\ foreign ext (restoreMarkerFileName +:+ ".tmp").
Proof. split; by apply foreign_scan. Qed.

(** ** Discovery after a change *)

Section has_files.
Context (ext : string) (min : Z) (Hmin : 0 <= min).

Lemma has_files_foreign_insert d l name f :
  foreign ext name -> has_files ext min d l -> has_files ext min (<[name := f]> d) l.
Proof.
  intros Hf [Hs Hi]. split; [done |]. intros n. rewrite Hi. split; intros [Hn Hd]; (split; [done |]);
    [| revert Hd]; by rewrite lookup_insert_ne by (apply Hf; unfold small; lia).
Qed.
Lemma has_files_foreign_delete d l name :
  foreign ext name -> has_files ext min d l -> has_files ext min (delete name d) l.
Proof.
  intros Hf [Hs Hi]. split; [done |]. intros n. rewrite Hi. split; intros [Hn Hd]; (split; [done |]);
    [| revert Hd]; by rewrite lookup_delete_ne by (apply Hf; unfold small; lia).
Qed.

Lemma has_files_update d l n f :
  n ∈ l -> has_files ext min d l -> has_files ext min (<[Sprintf06 ext n := f]> d) l.
Proof.
  intros Hn [Hs Hi]. split; [done |]. intros m. rewrite Hi. apply Hi in Hn as [Hn Hd].
  split; intros [Hm Hd']; (split; [done |]).
  - rewrite lookup_insert_is_Some. destruct (decide (Sprintf06 ext n = Sprintf06 ext m)); auto.
  - rewrite lookup_insert_is_Some in Hd'. destruct Hd' as [Heq | [_ ?]]; [| done]. by rewrite <- Heq.
Qed.

Lemma has_files_snoc d l n f :
  min <= n < 10 ^ 6 -> (forall x, x ∈ l -> x < n) -> has_files ext min d l ->
  has_files ext min (<[Sprintf06 ext n := f]> d) (l ++ [n]).
Proof.
  intros Hn Hlt [Hs Hi]. split.
  - apply StronglySorted_app_2; [| done | by repeat constructor]. intros x y Hx ->%list_elem_of_singleton. auto.
  - intros m. rewrite elem_of_app, list_elem_of_singleton, Hi, lookup_insert_is_Some. split.
    + intros [[Hm Hd] | ->]; [| by split; [| left]].
      split; [done |]. destruct (decide (Sprintf06 ext n = Sprintf06 ext m)); auto.
    + intros [Hm [Heq | [_ Hd]]]; [right | by left]. symmetry. eapply Sprintf06_inj, Heq; unfold small; lia.
Qed.

Lemma has_files_delete d l n :
  has_files ext min d (n :: l) -> has_files ext min (delete (Sprintf06 ext n) d) l.
Proof.
  intros [Hs Hi]. apply StronglySorted_inv in Hs as [Hs Hall]. split; [done |]. intros m.
  assert (n ∈ n :: l) as Hn by left. apply Hi in Hn as [Hn _]. rewrite lookup_delete_is_Some. split.
  - intros Hm. assert (m ∈ n :: l) as H by (by right). apply Hi in H as [Hm' Hd]. split; [done |]. split; [| done].
    intros Heq. apply Sprintf06_inj in Heq; [| unfold small; lia..]. subst. rewrite Forall_forall in Hall.
    specialize (Hall m Hm). lia.
  - intros [Hm [Hne Hd]]. assert (m ∈ n :: l) as H by (by apply Hi). apply elem_of_cons in H as [-> | H]; done.
Qed.
End has_files.

(** ** What the files hold *)

(** A log of which the records [D] are durable and [A] were attempted. *)
Definition wal_file (d : disk) (n : Z) (D A : list Record.t) : Prop :=
  exists f, d !! walName n = Some f /\ Forall Record.wf A /\ f_contents f `prefix_of` Replay.encode_all A /\
    Replay.encode_all D `prefix_of` f_synced f /\ D `prefix_of` A.

Definition table_file (d : disk) (n : Z) (es : list Block.decodedEntry) : Prop :=
  exists bs bf, d !! sstName n = Some (mkFile (table_image bs bf) []) /\ good_table bs bf /\ concat bs = es.

Definition marker_file (d : disk) (min : Z) : Prop :=
  0 <= min < 2 ^ 63 /\
  match d !! restoreMarkerFileName with
  | None => min = 0
  | Some f => f = mkFile (String.list_byte_of_string (Itoa min)) []
  end.

(** The files that count: the tables, newest first, and the logs, oldest
    first. *)
Record described (d : disk) (min : Z) (tabs : list (Z * list Block.decodedEntry))
    (wals : list (Z * (list Record.t * list Record.t))) : Prop := {
  ds_marker : marker_file d min;
  ds_tabs : has_files ".sst" min d (reverse tabs.*1);
  ds_tab : Forall (fun t => table_file d t.1 t.2) tabs;
  ds_wals : has_files ".wal" min d wals.*1;
  ds_wal : Forall (fun x => wal_file d x.1 x.2.1 x.2.2) wals;
  ds_live : min = 0 \/ (wals <> [] /\ tabs <> [])
}.

(** What a crash may leave: every file keeps what was synced and some leading
    part of the rest. *)
Definition crash (d d' : disk) : Prop :=
  forall name, match d !! name, d' !! name with
               | None, None => True
               | Some f, Some f' => exists n, f' = mkFile (f_synced f ++ take n (f_cached f)) []
               | _, _ => False
               end.

Lemma crash_lookup d d' name f :
  crash d d' -> d !! name = Some f -> exists n, d' !! name = Some (mkFile (f_synced f ++ take n (f_cached f)) []).
Proof. intros H Hf. specialize (H name). rewrite Hf in H. destruct (d' !! name); [| done]. destruct H as [n ->]. eauto. Qed.

Lemma crash_is_Some d d' name : crash d d' -> is_Some (d' !! name) <-> is_Some (d !! name).
Proof. intros H. specialize (H name). destruct (d !! name), (d' !! name); try done; by split; eexists. Qed.

Lemma crash_has_files ext min d d' l : crash d d' -> has_files ext min d l -> has_files ext min d' l.
Proof. intros Hc [Hs Hi]. split; [done |]. intros n. by rewrite Hi, (crash_is_Some _ _ _ Hc). Qed.

Lemma crash_described d d' min tabs wals : crash d d' -> described d min tabs wals -> described d' min tabs wals.
Proof.
  intros Hc []. constructor; try done.
  - destruct ds_marker0 as [Hm Hf]. split; [done |]. specialize (Hc restoreMarkerFileName).
    destruct (d !! restoreMarkerFileName), (d' !! restoreMarkerFileName); try done. destruct Hc as [n ->]. subst. simpl.
    by rewrite take_nil, app_nil_r.
  - by eapply crash_has_files.
  - eapply Forall_impl; [exact ds_tab0 |]. intros [n es] (bs & bf & Hd & Hg & He). exists bs, bf. split_and!; try done.
    destruct (crash_lookup _ _ _ _ Hc Hd) as [k ->]. simpl. by rewrite take_nil, app_nil_r.
  - by eapply crash_has_files.
  - eapply Forall_impl; [exact ds_wal0 |]. intros [n [D A]] (f & Hd & Hwf & Hp & Hs & HDA).
    destruct (crash_lookup _ _ _ _ Hc Hd) as [k Hk]. eexists. split; [exact Hk |]. unfold f_contents in *. simpl in *.
    split_and!; [done | | by apply prefix_app_r | done]. rewrite app_nil_r. etrans; [| exact Hp].
    apply prefix_app, prefix_take.
Qed.
