(* ===== verification/EngineReplay.v ===== *)
(** * Records and layers

    What replaying the records of a log does to the memtable, and what the
    records written back at the end of a recovery replay to. *)

From Stdlib Require Import Strings.Byte Strings.String.
From S2P Require Import Prelude GoBytes GoSort GoFmt GoState Wal SkipList Memtable Bloom BlockCache SSTableFormat SSTableWriter SSTableReader SSTable Engine EngineLayers EngineDisk.

Abbreviation binding := (bytes * (bytes * bool * Z))%type.

Definition rec_pair (r : Record.t) : binding :=
  (Record.Key r, if bool_decide (Record.Type_ r = Record.RecordDelete)
                 then ([], true, Record.SeqNum r) else (Record.Value r, false, Record.SeqNum r)).

#[global] Arguments rec_pair : simpl never.

Definition replay_onto (l : layer) (recs : list Record.t) : layer :=
  fold_left (fun l r => <[(rec_pair r).1 := (rec_pair r).2]> l) recs l.
Definition replay_layer (recs : list Record.t) : layer := replay_onto ∅ recs.

Definition rec_keys (recs : list Record.t) : gset bytes := list_to_set (Record.Key <$> recs).

Lemma replay_onto_union recs : forall l, replay_onto l recs = replay_layer recs ∪ l.
Proof.
  induction recs as [|r recs IH] using rev_ind; intros l; [symmetry; apply (left_id_L ∅ (∪)) |].
  unfold replay_layer, replay_onto in *. rewrite !fold_left_app. cbn [fold_left].
  rewrite (IH l). by rewrite insert_union_l.
Qed.

Lemma replay_layer_app l1 l2 : replay_layer (l1 ++ l2) = replay_layer l2 ∪ replay_layer l1.
Proof. unfold replay_layer at 1, replay_onto. rewrite fold_left_app. apply replay_onto_union. Qed.

Lemma replay_layer_snoc l r : replay_layer (l ++ [r]) = <[(rec_pair r).1 := (rec_pair r).2]> (replay_layer l).
Proof. unfold replay_layer, replay_onto. by rewrite fold_left_app. Qed.

Lemma rec_keys_app l1 l2 : rec_keys (l1 ++ l2) = rec_keys l1 ∪ rec_keys l2.
Proof. unfold rec_keys. by rewrite fmap_app, list_to_set_app_L. Qed.

Lemma dom_replay recs : dom (replay_layer recs) = rec_keys recs.
Proof.
  induction recs as [|r recs IH] using rev_ind; [done |].
  rewrite replay_layer_snoc, rec_keys_app, dom_insert_L, IH. unfold rec_keys. simpl. set_solver.
Qed.

Lemma replay_None recs k : k ∉ rec_keys recs -> replay_layer recs !! k = None.
Proof. intros H. apply not_elem_of_dom. by rewrite dom_replay. Qed.
Lemma replay_Some recs k : k ∈ rec_keys recs -> is_Some (replay_layer recs !! k).
Proof. intros H. apply elem_of_dom. by rewrite dom_replay. Qed.

(** A binding comes from one of the records. *)
Lemma replay_from recs k x : replay_layer recs !! k = Some x -> exists r, r ∈ recs /\ rec_pair r = (k, x).
Proof.
  induction recs as [|r recs IH] using rev_ind; [done |]. rewrite replay_layer_snoc.
  destruct (decide ((rec_pair r).1 = k)) as [<- | Hne].
  - rewrite lookup_insert_eq. intros Hx. exists r. split; [set_solver |].
    replace x with (rec_pair r).2 by congruence. apply surjective_pairing.
  - rewrite lookup_insert_ne by done. intros (r' & Hr & Hp)%IH. exists r'. split; [set_solver | done].
Qed.

(** More records behind do not matter for the keys they do not have. *)
Lemma replay_app_other l1 l2 k : k ∉ rec_keys l2 -> replay_layer (l1 ++ l2) !! k = replay_layer l1 !! k.
Proof. intros H. rewrite replay_layer_app, lookup_union_r; [done |]. by apply replay_None. Qed.

(** ** Applying records *)

Lemma apply_record_spec m l r :
  refines m l -> exists m', apply_record m r = Ok m' /\ refines m' (<[(rec_pair r).1 := (rec_pair r).2]> l).
Proof.
  intros Hm. unfold apply_record, rec_pair. case_bool_decide.
  - by destruct (mexec_refines m l (MDelete (Record.Key r) (Record.SeqNum r)) Hm) as (m' & Hm' & ?); exists m'.
  - by destruct (mexec_refines m l (MPut (Record.Key r) (Record.Value r) (Record.SeqNum r)) Hm) as (m' & Hm' & ?); exists m'.
Qed.

Definition seqs_max (x : Z) (recs : list Record.t) : Z := fold_left (fun x r => Z.max x (Record.SeqNum r)) recs x.

Lemma apply_records_spec recs : forall m l x,
  refines m l ->
  exists m', apply_records m x recs = Ok (m', seqs_max x recs) /\ refines m' (replay_onto l recs).
Proof.
  induction recs as [|r recs IH]; intros m l x Hm; cbn [apply_records]; [by exists m |].
  destruct (apply_record_spec m l r Hm) as (m1 & -> & Hm1). cbn [res_bind].
  destruct (IH m1 _ (if x <? Record.SeqNum r then Record.SeqNum r else x) Hm1) as (m2 & -> & Hm2).
  exists m2. split; [| done]. unfold seqs_max. cbn [fold_left]. do 3 f_equal. destruct (Z.ltb_spec x (Record.SeqNum r)); lia.
Qed.

(** The operations of a batch do to the memtable what their records do. *)
Lemma apply_ops_spec ops : forall seq recs next m l,
  number_ops seq ops = (recs, next) -> refines m l ->
  exists m', apply_ops m ops recs = Ok m' /\ refines m' (replay_onto l recs).
Proof.
  induction ops as [|op ops IH]; intros seq recs next m l; cbn [number_ops].
  { intros [= <- _] Hm. by exists m. }
  destruct (number_ops (inc64 seq) ops) as [recs' next'] eqn:E. intros [= <- _] Hm. cbn [apply_ops].
  set (r := Record.mk _ _ _ _).
  assert (exists m1, (if op_deleted op then Memtable.Delete m (op_key op) (Record.SeqNum r)
                      else Memtable.Put m (op_key op) (op_value op) (Record.SeqNum r)) = Ok m1 /\
                     refines m1 (<[(rec_pair r).1 := (rec_pair r).2]> l)) as (m1 & -> & Hm1).
  { destruct (apply_record_spec m l r Hm) as (m1 & Ha & Hm1). exists m1. split; [| done]. rewrite <- Ha.
    unfold apply_record, r. simpl. by destruct (op_deleted op). }
  cbn [res_bind]. by apply (IH (inc64 seq) recs' next').
Qed.

(** ** Writing the memtable back *)

Lemma mem_entries_spec m l :
  refines m l -> exists es, mem_entries m = Ok es /\ sorted (e_key <$> es) /\ map as_pair es ≡ₚ map_to_list l.
Proof.
  intros Hm. destruct (NewIterator_refines m l Hm) as (it & Hit & _ & Hs & Hp). unfold mem_entries.
  rewrite Hit. cbn [res_bind]. exists (Memtable.entries it). split_and!; [| done | done].
  unfold Memtable.SeekToFirst. by rewrite drain_from by lia.
Qed.

(** A tombstone carries no value. *)
Definition tomb_wf (l : layer) : Prop := forall k v sq, l !! k = Some (v, true, sq) -> v = [].

Lemma replay_tomb_wf recs : tomb_wf (replay_layer recs).
Proof.
  intros k v sq (r & _ & Hp)%replay_from. unfold rec_pair in Hp. case_bool_decide; congruence.
Qed.

Lemma relog_pair l e : tomb_wf l -> as_pair e ∈ map_to_list l -> rec_pair (relog_record e) = as_pair e.
Proof.
  intros Hw He. destruct e as [k v d sq]. unfold as_pair in He. simpl in He. apply elem_of_map_to_list in He.
  unfold rec_pair, relog_record, as_pair. simpl. destruct d; simpl; [| done]. by rewrite (Hw _ _ _ He).
Qed.

Lemma relog_pairs l es :
  tomb_wf l -> map as_pair es ≡ₚ map_to_list l -> map rec_pair (map relog_record es) = map as_pair es.
Proof.
  intros Hw Hp. rewrite map_map. apply map_ext_in. intros e He%list_elem_of_In. eapply relog_pair; [done |].
  rewrite <- Hp. by apply list_elem_of_fmap_2.
Qed.

(** Records with different keys replay to their bindings. *)
Lemma replay_bindings recs :
  NoDup (map rec_pair recs).*1 -> replay_layer recs = list_to_map (map rec_pair recs).
Proof.
  induction recs as [|r recs IH] using rev_ind; [done |]. intros Hnd.
  rewrite replay_layer_snoc, map_app, list_to_map_app. rewrite map_app, fmap_app in Hnd.
  apply NoDup_app in Hnd as (Hnd & Hdis & _). rewrite IH by done. simpl.
  rewrite <- insert_union_r by (apply not_elem_of_list_to_map; intros Hin; apply (Hdis _ Hin); simpl; left).
  by rewrite (right_id_L ∅ (∪)).
Qed.

(** What was relogged, or a leading part of it, replays to a part of the
    memtable; all of it replays to the memtable. *)
Lemma relog_replay l es :
  tomb_wf l -> map as_pair es ≡ₚ map_to_list l ->
  replay_layer (map relog_record es) = l /\
  forall p, p `prefix_of` map relog_record es -> replay_layer p ⊆ l.
Proof.
  intros Hw Hp. pose proof (relog_pairs l es Hw Hp) as Hpairs.
  assert (NoDup (map rec_pair (map relog_record es)).*1) as Hnd.
  { rewrite Hpairs, Hp. apply NoDup_fst_map_to_list. }
  split.
  - rewrite replay_bindings, Hpairs by done. rewrite Hpairs in Hnd.
    rewrite (list_to_map_proper (M := gmap bytes) _ (map_to_list l)) by done. apply list_to_map_to_list.
  - intros p Hpre. apply map_subseteq_spec. intros k x (r & Hr & Hrp)%replay_from.
    assert (rec_pair r ∈ map rec_pair (map relog_record es)) as Hin.
    { apply list_elem_of_fmap_2. by eapply elem_of_prefix. }
    rewrite Hpairs, Hp, Hrp in Hin. by apply elem_of_map_to_list.
Qed.

Lemma payload_small sq ty k v r :
  Record.wf r -> is_u64 sq -> k = Record.Key r -> len v <= len (Record.Value r) -> Record.wf (Record.mk sq ty k v).
Proof. intros [_ Hl] Hs -> Hv. split; [done |]. rewrite Record.len_payload in *. simpl. lia. Qed.

(** What is relogged fits the format of the log. *)
Lemma relog_wf recs es :
  Forall Record.wf recs -> map as_pair es ≡ₚ map_to_list (replay_layer recs) ->
  Forall Record.wf (map relog_record es).
Proof.
  intros Hwf Hp. apply Forall_forall. intros r (e & -> & He)%list_elem_of_fmap.
  assert (as_pair e ∈ map_to_list (replay_layer recs)) as Hin by (rewrite <- Hp; by apply list_elem_of_fmap_2).
  destruct e as [k v d sq]. apply elem_of_map_to_list in Hin. apply replay_from in Hin as (r & Hr & Hrp).
  rewrite Forall_forall in Hwf. specialize (Hwf r Hr). unfold relog_record. simpl.
  unfold rec_pair in Hrp. case_bool_decide; injection Hrp as <- <- <- <-.
  - eapply payload_small; [done | apply Hwf | done |]. pose_len. change (len []) with 0. lia.
  - eapply payload_small; [done | apply Hwf | done | lia].
Qed.
