(* ===== verification/EngineSpec.v ===== *)
(** * What a directory recovers to

    The files of a store determine its contents up to what a crash may cut
    off the logs.  [recovers] says that every outcome agrees with an abstract
    map, except on the keys of writes that were reported as failed. *)

From Stdlib Require Import Strings.Byte Strings.String.
From S2P Require Import Prelude GoBytes GoSort GoFmt GoState Wal SkipList Memtable Bloom BlockCache SSTableFormat SSTableWriter SSTableReader SSTable Engine EngineLayers EngineDisk EngineReplay.

Abbreviation tables_t := (list (Z * list Block.decodedEntry)).
Abbreviation wals_t := (list (Z * (list Record.t * list Record.t))).

(** The outcomes of reading the logs: all that is durable, and nothing that
    was not attempted. *)
Definition between (wals : wals_t) (Rs : list (list Record.t)) : Prop :=
  Forall2 (fun x R => x.2.1 `prefix_of` R /\ R `prefix_of` x.2.2) wals Rs.

Definition tables_layer (tabs : tables_t) : layer := flat (map table_layer tabs.*2).

Definition recovers (tabs : tables_t) (wals : wals_t) (dirty : gset bytes) (M : layer) : Prop :=
  forall Rs, between wals Rs -> forall k, k ∉ dirty ->
    (replay_layer (concat Rs) ∪ tables_layer tabs) !! k = M !! k.

(** The logs after they have been read (and torn tails cut off). *)
Definition cut (wals : wals_t) (Rs : list (list Record.t)) : wals_t :=
  zip_with (fun x R => (x.1, (x.2.1, R))) wals Rs.

Lemma between_length wals Rs : between wals Rs -> length wals = length Rs.
Proof. apply Forall2_length. Qed.

Lemma cut_numbers wals Rs : between wals Rs -> (cut wals Rs).*1 = wals.*1.
Proof. induction 1 as [|x R wals Rs _ _ IH]; [done |]. cbn. f_equal. exact IH. Qed.

(** Reading again gives no more than was read before. *)
Lemma between_cut wals Rs Rs' :
  between wals Rs -> between (cut wals Rs) Rs' -> between wals Rs' /\ Forall2 prefix Rs' Rs.
Proof.
  intros H. revert Rs'. induction H as [|x R wals Rs [H1 H2] _ IH]; intros Rs' Hb; inversion Hb as [|? R' ? Rs2 [H3 H4] Hb']; subst.
  { split; constructor. }
  destruct (IH _ Hb') as [IH1 IH2]. simpl in *. split; constructor; try done. split; [done | by etrans].
Qed.

Lemma between_snoc wals x Rs :
  between (wals ++ [x]) Rs -> exists Rs1 R, Rs = Rs1 ++ [R] /\ between wals Rs1 /\ x.2.1 `prefix_of` R /\ R `prefix_of` x.2.2.
Proof.
  intros (Rs1 & Rs2 & H1 & H2 & ->)%Forall2_app_inv_l. inversion H2 as [|? R ? ? [H3 H4] H5]; subst.
  inversion H5; subst. by exists Rs1, R.
Qed.

Lemma between_drop j wals Rs : between wals Rs -> between (drop j wals) (drop j Rs).
Proof. apply Forall2_drop. Qed.

Lemma concat_snoc {A} (l : list (list A)) x : concat (l ++ [x]) = concat l ++ x.
Proof. rewrite concat_app. simpl. by rewrite app_nil_r. Qed.

Lemma rec_keys_concat_prefix Rs' Rs k :
  Forall2 prefix Rs' Rs -> k ∉ rec_keys (concat Rs) -> k ∉ rec_keys (concat Rs').
Proof.
  induction 1 as [|R' R Rs' Rs [more ->] _ IH]; [done |]. simpl. rewrite !rec_keys_app. set_solver.
Qed.

Lemma rec_keys_concat_drop j (Rs : list (list Record.t)) k :
  k ∉ rec_keys (concat Rs) -> k ∉ rec_keys (concat (drop j Rs)).
Proof.
  intros H. rewrite <- (take_drop j Rs), concat_app, rec_keys_app in H. set_solver.
Qed.

(** ** Steps of the recovery *)

Lemma recovers_open tabs wals dirty M n :
  recovers tabs wals dirty M -> recovers tabs (wals ++ [(n, ([], []))]) dirty M.
Proof.
  intros H Rs (Rs1 & R & -> & Hb & _ & HR)%between_snoc k Hk. simpl in HR.
  apply prefix_nil_inv in HR as ->. rewrite concat_snoc, app_nil_r. by apply H.
Qed.

Section relog.
Context (tabs : tables_t) (wals : wals_t) (dirty : gset bytes) (M : layer) (Hrec : recovers tabs wals dirty M).
Context (Rs : list (list Record.t)) (Hb : between wals Rs).
Context (es : list entrySnapshot) (Hes : map as_pair es ≡ₚ map_to_list (replay_layer (concat Rs))).

Lemma recovers_relogging n : recovers tabs (cut wals Rs ++ [(n, ([], map relog_record es))]) dirty M.
Proof.
  intros Rs' (Rs1 & P & -> & Hb1 & _ & HP)%between_snoc k Hk. simpl in HP.
  destruct (between_cut _ _ _ Hb Hb1) as [Hb1' _].
  destruct (relog_replay _ es (replay_tomb_wf _) Hes) as [_ Hsub]. specialize (Hsub P HP).
  rewrite concat_snoc, replay_layer_app. destruct (replay_layer P !! k) as [x|] eqn:Hx.
  - pose proof (lookup_weaken _ _ _ _ Hx Hsub) as Hx'. rewrite <- (Hrec Rs Hb k Hk).
    rewrite <- (assoc_L (∪)), (lookup_union_Some_l _ _ _ _ Hx). symmetry. by apply lookup_union_Some_l.
  - rewrite <- (assoc_L (∪)), lookup_union_r by done. by apply Hrec.
Qed.

Lemma recovers_relogged n j :
  recovers tabs (drop j (cut wals Rs) ++ [(n, (map relog_record es, map relog_record es))]) dirty M.
Proof.
  intros Rs' (Rs1 & P & -> & Hb1 & HP1 & HP2)%between_snoc k Hk. simpl in HP1, HP2.
  assert (P = map relog_record es) as -> by (by apply (anti_symm prefix)).
  destruct (relog_replay _ es (replay_tomb_wf _) Hes) as [Hall _].
  rewrite concat_snoc, replay_layer_app, Hall. rewrite <- (Hrec Rs Hb k Hk).
  destruct (replay_layer (concat Rs) !! k) as [x|] eqn:Hx.
  - rewrite <- (assoc_L (∪)), (lookup_union_Some_l _ _ _ _ Hx). symmetry. by apply lookup_union_Some_l.
  - rewrite <- (assoc_L (∪)), !lookup_union_r; [done | done | | done]. apply replay_None.
    apply not_elem_of_dom in Hx. rewrite dom_replay in Hx. apply (rec_keys_concat_drop j) in Hx.
    eapply rec_keys_concat_prefix, Hx.
    clear -Hb Hb1. revert Rs Hb Rs1 Hb1. generalize wals. intros ws. induction j as [|j IH] in ws |- *; intros Rs Hb Rs1 Hb1.
    + rewrite drop_0 in *. by eapply between_cut.
    + inversion Hb as [|x R wals' Rs' Hx Hb']; subst; simpl in *; [by inversion Hb1; constructor |]. by eapply IH.
Qed.
End relog.

(** ** Steps of a running store *)

(** A batch that was acknowledged: everything is durable, and its keys are no
    longer in doubt. *)
Lemma recovers_acked tabs wals dirty M n D A B :
  recovers tabs (wals ++ [(n, (D, A))]) dirty M -> D `prefix_of` A ->
  recovers tabs (wals ++ [(n, (A ++ B, A ++ B))]) (dirty ∖ rec_keys B) (replay_onto M B).
Proof.
  intros H HDA Rs (Rs1 & R & -> & Hb & HR1 & HR2)%between_snoc k Hk. simpl in HR1, HR2.
  assert (R = A ++ B) as -> by (by apply (anti_symm prefix)).
  rewrite concat_snoc, app_assoc, replay_layer_app, replay_onto_union, <- (assoc_L (∪)).
  destruct (decide (k ∈ rec_keys B)) as [HkB | HkB].
  - destruct (replay_Some B k HkB) as [x Hx]. by rewrite !(lookup_union_Some_l _ _ _ _ Hx).
  - rewrite !(lookup_union_r (replay_layer B)) by (by apply replay_None).
    rewrite <- (H (Rs1 ++ [A])); [by rewrite concat_snoc | | set_solver].
    apply Forall2_app; [done |]. by repeat constructor.
Qed.

(** A batch that failed: its keys are in doubt. *)
Lemma recovers_failed tabs wals dirty M n D A B :
  recovers tabs (wals ++ [(n, (D, A))]) dirty M -> D `prefix_of` A ->
  recovers tabs (wals ++ [(n, (D, A ++ B))]) (dirty ∪ rec_keys B) M.
Proof.
  intros H HDA Rs (Rs1 & R & -> & Hb & HR1 & HR2)%between_snoc k Hk. simpl in HR1, HR2. rewrite concat_snoc.
  assert (exists R0 B', R = R0 ++ B' /\ D `prefix_of` R0 /\ R0 `prefix_of` A /\ B' `prefix_of` B) as
    (R0 & B' & -> & H1 & H2 & [more ->]).
  { destruct (prefix_weak_total R A (A ++ B) HR2 (prefix_app_r _ _ _ (reflexivity A))) as [Hp | [B' ->]].
    - exists R, []. rewrite app_nil_r. split_and!; try done. apply prefix_nil.
    - exists A, B'. split_and!; try done. by apply prefix_app_inv in HR2. }
  rewrite rec_keys_app in Hk. rewrite <- (H (Rs1 ++ [R0])); [| | set_solver].
  - rewrite concat_snoc, app_assoc, replay_layer_app, <- (assoc_L (∪)), lookup_union_r; [done |].
    apply replay_None. set_solver.
  - apply Forall2_app; [done |]. by repeat constructor.
Qed.

(** A frozen memtable reaches a table: all its keys are durable in the log
    that is still there. *)
Lemma recovers_table tabs dirty M fn FD FA wals n es :
  recovers tabs ((fn, (FD, FA)) :: wals) dirty M -> dom (table_layer es) ⊆ rec_keys FD ->
  recovers ((n, es) :: tabs) ((fn, (FD, FA)) :: wals) dirty M.
Proof.
  intros H Hdom Rs Hb k Hk. rewrite <- (H Rs Hb k Hk). unfold tables_layer. simpl map. cbn [flat foldr].
  inversion Hb as [|? FR ? Rs' [HF1 HF2] Hb']; subst. simpl concat in *. simpl in HF1.
  destruct (replay_layer (FR ++ concat Rs') !! k) as [x|] eqn:Hx.
  - by rewrite !(lookup_union_Some_l _ _ _ _ Hx).
  - rewrite !(lookup_union_r (replay_layer (FR ++ concat Rs'))) by done. rewrite lookup_union_r; [done |].
    apply not_elem_of_dom. intros Hin%Hdom. apply not_elem_of_dom in Hx. rewrite dom_replay, rec_keys_app in Hx.
    destruct HF1 as [more ->]. rewrite rec_keys_app in Hx. set_solver.
Qed.

(** The log of a frozen memtable goes: what it held is in the table. *)
Lemma recovers_removed tabs dirty M x n D A m :
  recovers tabs (x :: [(n, (D, A))]) dirty M -> D `prefix_of` A -> dom m ⊆ rec_keys D -> x.2.1 `prefix_of` x.2.2 ->
  (forall k, k ∉ dirty -> (m ∪ tables_layer tabs) !! k = M !! k) ->
  recovers tabs [(n, (D, A))] dirty M.
Proof.
  intros H HDA Hdom Hx Hm Rs Hb k Hk. inversion Hb as [|? R ? Rs' [HR1 HR2] Hb']; subst. inversion Hb'; subst.
  simpl in HR1, HR2. simpl concat. rewrite app_nil_r.
  destruct (replay_layer R !! k) as [y|] eqn:Hy.
  - rewrite <- (H [x.2.1; R]); [| constructor; [done | by repeat constructor] | done]. simpl concat.
    rewrite app_nil_r, replay_layer_app, <- (assoc_L (∪)). by rewrite !(lookup_union_Some_l _ _ _ _ Hy).
  - rewrite lookup_union_r by done. rewrite <- (Hm k Hk), lookup_union_r; [done |].
    apply not_elem_of_dom. intros Hin%Hdom. apply not_elem_of_dom in Hy. rewrite dom_replay in Hy.
    destruct HR1 as [more ->]. rewrite rec_keys_app in Hy. set_solver.
Qed.
