(* ===== verification/EngineInv.v ===== *)
(** * The invariant of a running store

    It ties the engine in memory to its files: the open logs and tables, the
    stage of a background flush, and the abstract map both must agree with. *)

From Stdlib Require Import Strings.Byte Strings.String.
From stdpp Require Import sorting.
From S2P Require Import Prelude GoBytes GoSort GoFmt GoState Wal SkipList Memtable Bloom BlockCache SSTableFormat SSTableWriter SSTableReader SSTable Engine EngineLayers EngineDisk EngineReplay EngineSpec.

(** ** Open logs *)

Record wal_handle (d : disk) (x : Appender.WAL) (n : Z) (D A : list Record.t) : Prop := {
  wh_path : Appender.path x = walName n;
  wh_disk : d !! walName n = Some (of_wal (Appender.file x));
  wh_inv : Appender.winv [] A x;
  wh_durable : Replay.encode_all D `prefix_of` Appender.synced (Appender.file x);
  wh_prefix : D `prefix_of` A;
  wh_wf : Forall Record.wf A;
  wh_sync : Appender.syncOnWrite x = true
}.

Lemma wal_handle_file d x n D A : wal_handle d x n D A -> wal_file d n D A.
Proof. intros []. eexists. split; [exact wh_disk0 |]. split_and!; try done. by apply (Appender.winv_prefix [] A x). Qed.

Lemma wal_handle_elsewhere d d' x n D A :
  d' !! walName n = d !! walName n -> wal_handle d x n D A -> wal_handle d' x n D A.
Proof. intros Heq []. constructor; try done. by rewrite Heq. Qed.

Lemma write_records_path recs : forall x, Appender.path (fst (Appender.write_records x recs)) = Appender.path x.
Proof.
  induction recs as [|r recs IH]; intros x; [done |]. cbn [Appender.write_records].
  destruct (Appender.bWrite _ _) as [b []]; [by rewrite IH | done].
Qed.

Lemma AppendBatch_path x recs : Appender.path (fst (Appender.AppendBatch x recs)) = Appender.path x.
Proof.
  destruct recs as [|r recs]; [done |]. unfold Appender.AppendBatch. destruct (Appender.closed x); [done |].
  pose proof (write_records_path (r :: recs) x) as Hp.
  destruct (Appender.write_records x (r :: recs)) as [x1 []]; simpl in Hp |- *; [| done].
  destruct (Appender.bFlush _) as [b []]; simpl; [| done]. destruct (Appender.syncOnWrite x1); [| done].
  by destruct (Appender.fSync _) as [f []].
Qed.

Lemma Close_path x : Appender.path (fst (Appender.Close x)) = Appender.path x.
Proof.
  unfold Appender.Close. destruct (Appender.closed x); [done |]. simpl.
  destruct (Appender.bFlush _) as [b []]; simpl; [| done]. destruct (Appender.fSync _) as [f []]; simpl; [| done].
  by destruct (Appender.fClose _).
Qed.

Lemma store_wal_at x n d : Appender.path x = walName n -> store_wal x d = <[walName n := of_wal (Appender.file x)]> d.
Proof. intros H. unfold store_wal. by rewrite H. Qed.

(** Appending to an open log. *)
Lemma append_handle d x n D A B x' err :
  wal_handle d x n D A -> Forall Record.wf B -> Appender.AppendBatch x B = (x', err) ->
  Appender.path x' = walName n /\
  wal_handle (store_wal x' d) x' n D (A ++ B) /\
  (err = None -> B <> [] -> wal_handle (store_wal x' d) x' n (A ++ B) (A ++ B)).
Proof.
  intros [] HB Ha. pose proof (AppendBatch_path x B) as Hp. rewrite Ha, wh_path0 in Hp. simpl in Hp.
  destruct (Appender.AppendBatch_spec [] A B x x' err wh_inv0 Ha) as (Hi & Hs & Hso & Hall).
  assert (Forall Record.wf (A ++ B)) by (by apply Forall_app).
  rewrite (store_wal_at x' n) by done. split_and!; [done | |].
  - constructor; try done; [by rewrite lookup_insert_eq | by etrans | by apply prefix_app_r | congruence].
  - intros -> Hne. constructor; try done; [by rewrite lookup_insert_eq | by rewrite Hall | congruence].
Qed.

Lemma close_handle d x n D A x' err :
  wal_handle d x n D A -> Appender.Close x = (x', err) ->
  Appender.path x' = walName n /\ wal_handle (store_wal x' d) x' n D A.
Proof.
  intros [] Hc. pose proof (Close_path x) as Hp. rewrite Hc, wh_path0 in Hp. simpl in Hp.
  destruct (Appender.Close_spec [] A x x' err wh_inv0 Hc) as (Hi & Hs & Hso & _).
  rewrite (store_wal_at x' n) by done. split; [done |].
  constructor; try done; [by rewrite lookup_insert_eq | by etrans | congruence].
Qed.

(** A log opened under a name that did not exist. *)
Lemma open_handle d n fs :
  d !! walName n = None ->
  exists x, openWAL (walName n) (Some fs) d = (<[walName n := mkFile [] []]> d, Ok x) /\
    wal_handle (<[walName n := mkFile [] []]> d) x n [] [] /\
    (fs = [] -> healthy (Appender.writer x)) /\ Appender.closed x = false.
Proof.
  intros Hn. unfold openWAL. rewrite Hn. eexists. split; [reflexivity |]. split; [| by split; [intros -> |]].
  constructor; try done. by rewrite lookup_insert_eq.
Qed.

(** ** Changes of logs only *)

Definition wal_only (d d' : disk) : Prop := forall name, foreign ".wal" name -> d' !! name = d !! name.

Lemma wal_only_refl d : wal_only d d.
Proof. done. Qed.
Lemma wal_only_trans d1 d2 d3 : wal_only d1 d2 -> wal_only d2 d3 -> wal_only d1 d3.
Proof. intros H1 H2 name Hn. by rewrite H2, H1. Qed.
Lemma wal_only_insert d n f : small n -> wal_only d (<[walName n := f]> d).
Proof. intros Hn name Hf. apply lookup_insert_ne. intros Heq. by apply (Hf n). Qed.
Lemma wal_only_delete d n : small n -> wal_only d (delete (walName n) d).
Proof. intros Hn name Hf. apply lookup_delete_ne. intros Heq. by apply (Hf n). Qed.

Lemma described_wals d d' min tabs wals wals' :
  described d min tabs wals -> wal_only d d' -> has_files ".wal" min d' wals'.*1 ->
  Forall (fun x => wal_file d' x.1 x.2.1 x.2.2) wals' -> min = 0 \/ wals' <> [] -> described d' min tabs wals'.
Proof.
  intros [] Ho Hh Hw Hne. assert (0 <= min) as Hmin by apply ds_marker. constructor; try done.
  - destruct ds_marker as [? Hm]. split; [done |]. rewrite Ho; [done | apply marker_foreign].
  - destruct ds_tabs as [Hs Hi]. split; [done |]. intros n. rewrite Hi. split; intros [Hn Hd]; (split; [done |]).
    + rewrite Ho; [done |]. apply sst_foreign. unfold small. lia.
    + rewrite Ho in Hd; [done |]. apply sst_foreign. unfold small. lia.
  - assert (forall t, t ∈ tabs -> small t.1) as Hsm.
    { intros t Ht. assert (t.1 ∈ reverse tabs.*1) as Hin by (rewrite elem_of_reverse; by apply list_elem_of_fmap_2).
      apply ds_tabs in Hin as [Hn _]. unfold small. lia. }
    rewrite Forall_forall in *. intros t Ht. destruct (ds_tab t Ht) as (bs & bf & Hd & Hg & He). exists bs, bf.
    split_and!; try done. rewrite Ho; [done |]. by apply sst_foreign, Hsm.
  - destruct Hne, ds_live as [? | [_ ?]]; auto.
Qed.

Lemma described_small d min tabs wals n : described d min tabs wals -> n ∈ wals.*1 -> min <= n /\ small n.
Proof.
  intros [] Hn. destruct ds_marker as [Hm _]. apply ds_wals in Hn as [Hn _]. unfold small. lia.
Qed.
Lemma described_small_tab d min tabs wals n : described d min tabs wals -> n ∈ tabs.*1 -> min <= n /\ small n.
Proof.
  intros [] Hn. destruct ds_marker as [Hm _]. rewrite <- elem_of_reverse in Hn. apply ds_tabs in Hn as [Hn _].
  unfold small. lia.
Qed.

Lemma wal_file_elsewhere d d' n D A : d' !! walName n = d !! walName n -> wal_file d n D A -> wal_file d' n D A.
Proof. intros Heq (f & Hd & H). exists f. by rewrite Heq. Qed.

(** ** The invariant *)

Definition seqs_ok (l : layer) : Prop := map_Forall (fun _ x => is_u64 x.2) l.

(** The goroutine of a flush, if one is alive: the frozen layer that only the
    memory holds, the table on disk that is not installed yet, the old log. *)
Inductive flushing (e : Engine) (d : disk) (cb : Z) : option layer -> tables_t -> wals_t -> Prop :=
  | fl_none : flushes e = [] -> immutable e = None -> cb <= nextFlushSeq e -> flushing e d cb None [] []
  | fl_writing frozen x n fm fn FD FA :
      flushes e = [mkFlush (Writing frozen) x n] -> immutable e = Some frozen -> refines frozen fm -> seqs_ok fm ->
      wal_handle d x fn FD FA -> dom fm ⊆ rec_keys FD -> cb <= n < nextFlushSeq e ->
      flushing e d cb (Some fm) [] [(fn, (FD, FA))]
  | fl_written r frozen x n es fn FD FA :
      flushes e = [mkFlush (Written (Ok r)) x n] -> immutable e = Some frozen -> refines frozen (table_layer es) ->
      table_ok (ecache e) (mkTable (sstName n) r) es ->
      wal_handle d x fn FD FA -> cb <= n < nextFlushSeq e ->
      flushing e d cb (Some (table_layer es)) [(n, es)] [(fn, (FD, FA))]
  | fl_ending stg x n fn FD FA :
      flushes e = [mkFlush stg x n] -> (stg = Closing \/ stg = Removing) -> immutable e = None ->
      wal_handle d x fn FD FA -> cb <= nextFlushSeq e ->
      flushing e d cb None [] [(fn, (FD, FA))]
  | fl_abandoned x :
      flushes e = [] -> immutable e = None -> is_Some (flushErr e) -> cb <= nextFlushSeq e ->
      flushing e d cb None [] [x].

(** The cache holds blocks of tables with numbers below [cb] only. *)
Definition cache_below (cb : Z) (c : cache) : Prop :=
  match c with
  | None => True
  | Some c => forall f off e, BlockCache.items c !! (f, off) = Some e -> exists n, small n /\ n < cb /\ f = sstName n
  end.

Record einv_at (M : layer) (dirty : gset bytes) (s : world) (min : Z) (tabs : tables_t) (m : layer)
    (im : option layer) (extra : tables_t) (fw : wals_t) (cn : Z) (D A : list Record.t) (cb : Z) : Prop := {
  ei_layers : layers (eng s) m im tabs.*2;
  ei_paths : t_path <$> sstables (eng s) = sstName <$> tabs.*1;
  ei_disk : described (dsk s) min (extra ++ tabs) (fw ++ [(cn, (D, A))]);
  ei_recovers : recovers (extra ++ tabs) (fw ++ [(cn, (D, A))]) dirty M;
  ei_reads : forall k, k ∉ dirty -> all_layers m im tabs.*2 !! k = M !! k;
  ei_wal : wal_handle (dsk s) (w (eng s)) cn D A;
  ei_dom : dom m ⊆ rec_keys D;
  ei_seqs : seqs_ok m;
  ei_flush : flushing (eng s) (dsk s) cb im extra fw;
  ei_cache : cache_below cb (ecache (eng s));
  ei_old : Forall (fun x => x.1 < cn) fw;
  ei_tabs : Forall (fun x => x.1 < cb) tabs;
  ei_cn : cn < nextWALSeq (eng s);
  ei_min : min <= cb
}.

(** The store agrees with [M], except on the keys in [dirty], whose last
    write was reported as failed. *)
Definition einv (M : layer) (dirty : gset bytes) (s : world) : Prop :=
  exists min tabs m im extra fw cn D A cb, einv_at M dirty s min tabs m im extra fw cn D A cb.

Lemma einv_weaken M dirty dirty' s : dirty ⊆ dirty' -> einv M dirty s -> einv M dirty' s.
Proof.
  intros Hd (min & tabs & m & im & extra & fw & cn & D & A & cb & []).
  exists min, tabs, m, im, extra, fw, cn, D, A, cb. constructor; try done.
  - intros Rs Hb k Hk. apply ei_recovers0; [done | set_solver].
  - intros k Hk. apply ei_reads0. set_solver.
Qed.

Lemma einv_agree M M' dirty s : (forall k, k ∉ dirty -> M' !! k = M !! k) -> einv M dirty s -> einv M' dirty s.
Proof.
  intros Hd (min & tabs & m & im & extra & fw & cn & D & A & cb & []).
  exists min, tabs, m, im, extra, fw, cn, D, A, cb. constructor; try done.
  - intros Rs Hb k Hk. rewrite Hd by done. by apply ei_recovers0.
  - intros k Hk. rewrite Hd by done. by apply ei_reads0.
Qed.

(** A flush is not disturbed by changes elsewhere. *)
Lemma flushing_frame e d e' d' cb im extra fw :
  flushing e d cb im extra fw ->
  flushes e' = flushes e -> immutable e' = immutable e -> flushErr e' = flushErr e -> nextFlushSeq e' = nextFlushSeq e ->
  (forall n r es, cb <= n -> (n, es) ∈ extra -> table_ok (ecache e) (mkTable (sstName n) r) es ->
     table_ok (ecache e') (mkTable (sstName n) r) es) ->
  (forall x, x ∈ fw -> d' !! walName x.1 = d !! walName x.1) ->
  flushing e' d' cb im extra fw.
Proof.
  intros [] Hf Hi He Hn Ht Hw.
  - apply fl_none; [congruence | congruence | lia].
  - eapply fl_writing; [rewrite Hf; eassumption | rewrite Hi; eassumption | done | done | | done | lia].
    eapply wal_handle_elsewhere; [| done]. apply (Hw (fn, (FD, FA))). by left.
  - eapply fl_written; [rewrite Hf; eassumption | rewrite Hi; eassumption | done | apply Ht; [lia | by left | done] | | lia].
    eapply wal_handle_elsewhere; [| done]. apply (Hw (fn, (FD, FA))). by left.
  - eapply fl_ending; [rewrite Hf; eassumption | done | congruence | | lia].
    eapply wal_handle_elsewhere; [| done]. apply (Hw (fn, (FD, FA))). by left.
  - apply fl_abandoned; [congruence | congruence | by rewrite He | lia].
Qed.

(** The numbers of an invariant's files. *)
Lemma einv_small M dirty s min tabs m im extra fw cn D A cb :
  einv_at M dirty s min tabs m im extra fw cn D A cb ->
  small cn /\ min <= cn /\ Forall (fun x => small x.1) fw /\ Forall (fun t => small t.1) tabs /\ 0 <= min.
Proof.
  intros []. assert (forall n, n ∈ (fw ++ [(cn, (D, A))]).*1 -> min <= n /\ small n) as Hw
    by (intros; by eapply described_small).
  assert (forall n, n ∈ (extra ++ tabs).*1 -> min <= n /\ small n) as Ht by (intros; by eapply described_small_tab).
  rewrite fmap_app in Hw. setoid_rewrite fmap_app in Ht. split_and!.
  - apply Hw. cbn. set_solver.
  - apply Hw. cbn. set_solver.
  - apply Forall_forall. intros x Hx. apply Hw, elem_of_app. left. by apply list_elem_of_fmap_2.
  - apply Forall_forall. intros x Hx. apply Ht, elem_of_app. right. by apply list_elem_of_fmap_2.
  - apply (ds_marker _ _ _ _ ei_disk0).
Qed.

(** ** Reading *)

Lemma cache_below_frame cb ts ns c c' :
  cache_below cb c -> cache_frame (fun f => f ∈ t_path <$> ts) c c' ->
  t_path <$> ts = sstName <$> ns -> Forall (fun n => small n /\ n < cb) ns -> cache_below cb c'.
Proof.
  intros Hb [_ Hf] Hp Hn. destruct c as [c|], c' as [c'|]; try done. intros f off e Hin.
  destruct (decide (f ∈ t_path <$> ts)) as [Hy | Hy]; [| by apply Hf in Hin; [apply Hb in Hin |]].
  rewrite Hp in Hy. apply list_elem_of_fmap in Hy as (n & -> & Hnin). rewrite Forall_forall in Hn.
  destruct (Hn n Hnin). by exists n.
Qed.

(** A change of the cache by reading the installed tables. *)
Lemma einv_ecache M dirty s min tabs m im extra fw cn D A cb c :
  einv_at M dirty s min tabs m im extra fw cn D A cb ->
  cache_frame (fun f => f ∈ t_path <$> sstables (eng s)) (ecache (eng s)) c ->
  layers (set_ecache c (eng s)) m im tabs.*2 ->
  einv_at M dirty (mkWorld (dsk s) (set_ecache c (eng s))) min tabs m im extra fw cn D A cb.
Proof.
  intros He Hf Hl. pose proof (einv_small _ _ _ _ _ _ _ _ _ _ _ _ _ He) as (_ & _ & _ & Hsm & _). destruct He.
  constructor; simpl; try done.
  - eapply flushing_frame; [exact ei_flush0 | done | done | done | done | | done]. intros n r es Hn Hin Ht.
    eapply table_ok_frame; [exact Hf | | exact Ht]. simpl. rewrite ei_paths0.
    intros (k & Heq & Hk)%list_elem_of_fmap. apply list_elem_of_fmap in Hk as (t & -> & Ht').
    rewrite Forall_forall in Hsm, ei_tabs0. specialize (ei_tabs0 t Ht').
    apply Sprintf06_inj in Heq; [lia | | by apply Hsm].
    eapply (described_small_tab _ _ _ _ n ei_disk0). rewrite fmap_app. apply elem_of_app. left.
    by apply (list_elem_of_fmap_2 fst _ (n, es)).
  - eapply cache_below_frame; [exact ei_cache0 | exact Hf | exact ei_paths0 |]. apply Forall_forall.
    intros n (t & -> & Ht)%list_elem_of_fmap. rewrite Forall_forall in Hsm, ei_tabs0. auto.
Qed.

Lemma einv_Get M dirty s k :
  einv M dirty s -> eclosed (eng s) = false ->
  exists s' a, Get k s = (s', a) /\ einv M dirty s' /\ dsk s' = dsk s /\
    (exists c, eng s' = set_ecache c (eng s)) /\
    (a <> Panic) /\ (k ∉ dirty -> a = Ok (answer_in M k) \/ ((exists e, a = Err e) /\ ~ Forall healthy_table (sstables (eng s)))).
Proof.
  intros (min & tabs & m & im & extra & fw & cn & D & A & cb & He) Hcl.
  destruct (Get_layers s k m im tabs.*2 (ei_layers _ _ _ _ _ _ _ _ _ _ _ _ _ He) Hcl) as (c & a & Hget & Hl & Hf & Ha).
  eexists _, a. split; [exact Hget |]. split_and!; [| done | by eexists | |].
  - exists min, tabs, m, im, extra, fw, cn, D, A, cb. by apply einv_ecache.
  - by destruct Ha as [-> | [[e ->] _]].
  - intros Hk. destruct Ha as [-> | Ha]; [left | by right]. f_equal. unfold answer_in.
    by rewrite (ei_reads _ _ _ _ _ _ _ _ _ _ _ _ _ He k Hk).
Qed.
