(* ===== verification/EngineOpen.v ===== *)
(** * Recovery: opening a store

    Opening reads the tables and the logs, writes what the logs held into one
    fresh log and removes the old ones.  Whatever fails on the way, the
    directory still recovers to the same map; when nothing fails, the engine
    that comes up satisfies the invariant. *)

From Stdlib Require Import Strings.Byte Strings.String.
From stdpp Require Import sorting.
From S2P Require Import Prelude GoBytes GoSort GoFmt GoState Wal SkipList Memtable Bloom BlockCache SSTableFormat SSTableWriter SSTableReader SSTable Engine EngineLayers EngineDisk EngineReplay EngineSpec EngineInv.

(** An operating system in which nothing fails. *)
Definition fine (env : open_env) : Prop :=
  oe_mkdir env = true /\ oe_marker env = true /\ oe_list_tables env = true /\ oe_list_wals env = true /\
  (forall n, oe_table_opens env n = true) /\ (forall n o, oe_bad env n o = false) /\
  (forall n, oe_truncate_fails env n = false) /\ oe_wal env = Some [] /\ (forall n, oe_remove env n = true).

(** ** Marker and tables *)

Lemma readRestoreMarker_spec d min ok :
  marker_file d min ->
  readRestoreMarker ok d = (d, Ok min) \/ (ok = false /\ exists e, readRestoreMarker ok d = (d, Err e)).
Proof.
  intros [Hm Hf]. unfold readRestoreMarker. destruct (d !! restoreMarkerFileName) as [f|]; [| left; by subst].
  destruct ok; [left | right; by eauto]. subst f. unfold f_contents. simpl.
  by rewrite app_nil_r, String.string_of_list_byte_of_string, Atoi_Itoa.
Qed.

Lemma source_of_synced d name img bad :
  d !! name = Some (mkFile img []) -> source_of true bad name d = Some (mkSource img bad).
Proof. intros H. unfold source_of. rewrite H. unfold f_contents. simpl. by rewrite app_nil_r. Qed.

Lemma open_tables_spec env d max tabs :
  Forall (fun t => table_file d t.1 t.2) tabs ->
  match open_tables env d tabs.*1 with
  | Ok (ts, _) => t_path <$> ts = sstName <$> tabs.*1 /\
      Forall2 (table_ok (Some (BlockCache.NewBlockCache max))) ts tabs.*2 /\
      ((forall n o, oe_bad env n o = false) -> Forall healthy_table ts)
  | Err _ => ~ fine env
  | Panic => False
  end.
Proof.
  induction 1 as [|[n es] tabs Ht _ IH]; cbn [fmap list_fmap fst snd]; [by repeat constructor |].
  simpl in Ht. destruct Ht as (bs & bf & Hd & Hg & <-). cbn [open_tables]. destruct (oe_table_opens env (sstName n)) eqn:Ho.
  2:{ unfold source_of. cbn [OpenWithCache res_wrap res_bind]. intros Hf. destruct Hf as (_ & _ & _ & _ & Hf & _). by rewrite Hf in Ho. }
  rewrite (source_of_synced _ _ _ _ Hd). pose proof Hg as Hg'. destruct Hg'.
  destruct (Open_cases bs bf (oe_bad env (sstName n)) (sstName n)) as [-> | [[e ->] [o Hbad]]]; [done.. | |]; cycle 1.
  { cbn [res_wrap res_bind]. intros (_ & _ & _ & _ & _ & Hf & _). by rewrite Hf in Hbad. }
  cbn [res_wrap res_bind]. destruct (open_tables env d tabs.*1) as [[ts mx]|e|]; cbn [res_bind]; [| done | done].
  destruct IH as (Hp & Ht & Hh). split_and!.
  - cbn. f_equal. exact Hp.
  - constructor; [| done]. exists bs, bf, (oe_bad env (sstName n)). split_and!; try done.
    apply new_cache_coherent. right. by eexists.
  - intros Hb. constructor; [intros o; apply Hb | by apply Hh].
Qed.

(** ** Replaying the logs *)

Lemma loop_truncate_fails data b fuel : forall records off,
  let f := {| Replay.rs_data := data; Replay.rs_fault := None; Replay.rs_truncate_fails := b |} in
  Replay.replay_loop fuel f (len data) records off = Replay.replay_loop fuel (Replay.healthy data) (len data) records off \/
  (b = true /\ exists e, Replay.replay_loop fuel f (len data) records off = Err e).
Proof.
  induction fuel as [|fuel IH]; intros records off f; [by left |]. cbn [Replay.replay_loop].
  assert (forall r o, Replay.truncateAndReturn f r o (len data) = Replay.truncateAndReturn (Replay.healthy data) r o (len data) \/
    (b = true /\ exists e, Replay.truncateAndReturn f r o (len data) = Err e)) as Htr.
  { intros r o. unfold Replay.truncateAndReturn, f. simpl. destruct b; [right; eauto | by left]. }
  change (Replay.readFull f) with (Replay.readFull (Replay.healthy data)).
  destruct (Replay.readFull _ off _) as [h| | |n]; [| by left | apply Htr | destruct (_ && _); [apply Htr | by left]].
  destruct (get_u32 h 0) as [crc| |]; cbn [res_bind]; [| by left..].
  destruct (get_u32 h 4) as [ln| |]; cbn [res_bind]; [| by left..].
  destruct (_ <? ln); [apply Htr |].
  destruct (Replay.readFull _ (off + _) ln) as [p| | |n]; [| apply Htr..]. destruct (negb _); [apply Htr |].
  destruct (Record.decodePayload p); [apply IH | apply Htr | by left].
Qed.

Lemma Replay_prefix A data b :
  Forall Record.wf A -> data `prefix_of` Replay.encode_all A ->
  let f := {| Replay.rs_data := data; Replay.rs_fault := None; Replay.rs_truncate_fails := b |} in
  (exists st, Replay.Replay (Some f)
    = Ok (Replay.complete A (length data), st, Some (Replay.encode_all (Replay.complete A (length data))))) \/
  (b = true /\ exists e, Replay.Replay (Some f) = Err e).
Proof.
  intros Hwf Hp f. destruct (Durability.replay_prefix A data Hwf Hp) as [st Hr].
  unfold Replay.Replay, Replay.replayFrom in *. simpl Replay.rs_data in *.
  destruct (loop_truncate_fails data b (S (length data)) [] 0) as [Heq | [Hb [e He]]].
  - left. exists st. unfold f. by rewrite Heq.
  - right. split; [done |]. exists e. unfold f. by rewrite He.
Qed.

(** Cutting a torn tail off keeps what is durable. *)
Lemma truncate_file f D A R :
  f_contents f `prefix_of` Replay.encode_all A -> Replay.encode_all D `prefix_of` f_synced f -> D `prefix_of` A ->
  R = Replay.complete A (length (f_contents f)) ->
  D `prefix_of` R /\ R `prefix_of` A /\ f_contents (truncate (Replay.encode_all R) f) = Replay.encode_all R /\
  Replay.encode_all D `prefix_of` f_synced (truncate (Replay.encode_all R) f).
Proof.
  intros Hc HD HDA ->. set (R := Replay.complete _ _).
  assert (R `prefix_of` A) as HRA by apply Replay.complete_prefix.
  assert (D `prefix_of` R) as HDR.
  { apply Durability.complete_durable; [| done]. etrans; [exact HD |]. by apply prefix_app_r. }
  assert (Replay.encode_all R `prefix_of` f_contents f) as HRc.
  { destruct Hc as [rest Hc]. destruct HRA as [more HA].
    assert (length (Replay.encode_all R) <= length (f_contents f))%nat as Hlen.
    { unfold R. clear. generalize (length (f_contents f)). induction A as [|r A IH]; intros n; [simpl; lia |].
      cbn [Replay.complete]. destruct (Nat.leb_spec (length (Record.encode r)) n); [| simpl; lia].
      rewrite Replay.encode_all_cons, length_app. specialize (IH (n - length (Record.encode r))%nat). lia. }
    rewrite HA, Replay.encode_all_app in Hc. exists (drop (length (Replay.encode_all R)) (f_contents f)).
    rewrite <- (take_drop (length (Replay.encode_all R)) (f_contents f)) at 1. f_equal.
    apply (f_equal (take (length (Replay.encode_all R)))) in Hc. rewrite take_app_length, take_app_le in Hc by done.
    by symmetry. }
  split_and!; [done | done | |].
  - unfold f_contents, truncate in *. simpl. destruct HRc as [rest HRc].
    transitivity (take (length (Replay.encode_all R)) (f_synced f ++ f_cached f)).
    + rewrite take_app. f_equal. rewrite HRc in *.
      apply (f_equal (drop (length (f_synced f)))) in HRc. rewrite drop_app_length, drop_app in HRc. rewrite HRc.
      rewrite take_app_le by (rewrite length_drop; lia). symmetry. apply take_ge. rewrite length_drop. lia.
    + by rewrite HRc, take_app_length.
  - simpl. destruct HDR as [more HR]. destruct HD as [rest HD]. rewrite HR, Replay.encode_all_app, length_app, HD.
    rewrite take_app_ge by lia. by apply prefix_app_r.
Qed.

(** [d'] differs from [d] in the contents of the logs [ns] only. *)
Definition touched (ns : list Z) (d d' : disk) : Prop :=
  (forall name, name ∉ walName <$> ns -> d' !! name = d !! name) /\
  forall name, is_Some (d' !! name) <-> is_Some (d !! name).

Lemma touched_cons n ns d d1 d' :
  touched [n] d d1 -> touched ns d1 d' -> touched (n :: ns) d d'.
Proof.
  intros [H1 H2] [H3 H4]. split; [| intros name; by rewrite H4, H2]. intros name Hn. cbn in Hn.
  apply not_elem_of_cons in Hn as [Hn1 Hn2]. rewrite H3 by done. apply H1. cbn. set_solver.
Qed.

Lemma touched_weaken ns ns' d d' : ns ⊆ ns' -> touched ns d d' -> touched ns' d d'.
Proof. intros Hs [H1 H2]. split; [| done]. intros name Hn. apply H1. set_solver. Qed.

Lemma walName_not_in n ns : small n -> Forall small ns -> n ∉ ns -> walName n ∉ walName <$> ns.
Proof.
  intros Hn Hs Hni (m & Heq & Hm)%list_elem_of_fmap. rewrite Forall_forall in Hs.
  apply Sprintf06_inj in Heq; [congruence | done | by apply Hs].
Qed.

Lemma replay_wals_spec env todo : forall d m l x,
  (forall name, oe_replay_fault env name = None) ->
  Forall small todo.*1 -> NoDup todo.*1 -> Forall (fun y => wal_file d y.1 y.2.1 y.2.2) todo -> refines m l ->
  match replay_wals env (walName <$> todo.*1) m x d with
  | (d', Ok (m', _)) => exists Rs, between todo Rs /\ refines m' (replay_onto l (concat Rs)) /\
      Forall (fun y => wal_file d' y.1 y.2.1 y.2.2) (cut todo Rs) /\ touched todo.*1 d d'
  | (d', Err _) => Forall (fun y => wal_file d' y.1 y.2.1 y.2.2) todo /\ touched todo.*1 d d' /\ ~ fine env
  | (_, Panic) => False
  end.
Proof.
  induction todo as [|[n [D A]] todo IH]; intros d m l x Hnf Hsm Hnd Hw Hm.
  { exists []. split_and!; [constructor | done | constructor |]. by split. }
  cbn in Hsm, Hnd. apply Forall_cons in Hsm as [Hn Hsm]. apply NoDup_cons in Hnd as [Hni Hnd].
  apply Forall_cons in Hw as [(f & Hd & Hwf & Hc & HD & HDA) Hw]. simpl in Hd, Hwf, Hc, HD, HDA.
  cbn [fmap list_fmap fst snd replay_wals]. unfold st_bind at 1, reads at 1. cbv beta iota delta [id]. rewrite Hd.
  unfold st_bind at 1, wrap, lift at 1. simpl (_ <$> _). rewrite Hnf.
  pose proof (walName_not_in n todo.*1 Hn Hsm Hni) as Hname.
  destruct (Replay_prefix A (f_contents f) (oe_truncate_fails env (walName n)) Hwf Hc) as [[st ->] | [Hb [e ->]]]; cycle 1.
  { cbn [res_wrap]. split_and!.
    - constructor; [| done]. by exists f.
    - by split.
    - intros Hf. destruct Hf as (_ & _ & _ & _ & _ & _ & Hf & _). by rewrite Hf in Hb. }
  cbn [res_wrap]. unfold st_bind at 1, modify. cbv beta iota.
  set (R := Replay.complete A (length (f_contents f))).
  destruct (truncate_file f D A R Hc HD HDA eq_refl) as (HDR & HRA & Hcon & Hsy). clearbody R.
  set (d1 := <[walName n := _]> d).
  assert (Forall Record.wf R) as HwfR by (destruct HRA as [more ->]; by apply Forall_app in Hwf as [? _]).
  assert (d1 !! walName n = Some (truncate (Replay.encode_all R) f)) as Hd1 by (by unfold d1; rewrite lookup_insert_eq).
  assert (touched [n] d d1) as Ht1.
  { split; intros name; unfold d1; cbn.
    - intros Hne. apply lookup_insert_ne. set_solver.
    - destruct (decide (walName n = name)) as [<- | Hne]; [| by rewrite lookup_insert_ne].
      rewrite lookup_insert_eq, Hd. by split; eexists. }
  destruct (apply_records_spec R m l x Hm) as (m1 & Happ & Hm1).
  unfold st_bind at 1, lift. rewrite Happ.
  assert (Forall (fun y => wal_file d1 y.1 y.2.1 y.2.2) todo) as Hw1.
  { rewrite Forall_forall in *. intros y Hy. eapply wal_file_elsewhere, Hw, Hy. apply Ht1. cbn.
    intros Hin%list_elem_of_singleton. apply Hname. rewrite <- Hin.
    by apply list_elem_of_fmap_2, list_elem_of_fmap_2. }
  specialize (IH d1 m1 _ (seqs_max x R) Hnf Hsm Hnd Hw1 Hm1).
  destruct (replay_wals env (walName <$> todo.*1) m1 (seqs_max x R) d1) as [d' [[m' x']|e|]]; [| | done].
  - destruct IH as (Rs & Hb & Hm' & Hw' & Ht). exists (R :: Rs). split_and!.
    + constructor; [done | exact Hb].
    + simpl concat. unfold replay_onto in *. by rewrite fold_left_app.
    + constructor; [| exact Hw']. simpl. exists (truncate (Replay.encode_all R) f). rewrite (proj1 Ht) by done.
      split_and!; [done | done | by rewrite Hcon | done | done].
    + by eapply touched_cons.
  - destruct IH as (Hw' & Ht & Hf). split_and!; [| by eapply touched_cons | done]. constructor; [| done]. simpl.
    exists (truncate (Replay.encode_all R) f). rewrite (proj1 Ht) by done.
    split_and!; try done. rewrite Hcon. destruct HRA as [more ->]. rewrite Replay.encode_all_app. by apply prefix_app_r.
Qed.

(** ** Writing back and removing *)

Lemma write_records_healthy recs : forall x,
  healthy (Appender.writer x) -> exists x', Appender.write_records x recs = (x', true) /\ healthy (Appender.writer x').
Proof.
  induction recs as [|r recs IH]; intros x Hx; cbn [Appender.write_records]; [by exists x |].
  destruct (bWrite_healthy _ (Record.encode r) Hx) as (b & -> & Hb). by apply IH.
Qed.

Lemma AppendBatch_healthy x recs :
  healthy (Appender.writer x) -> Appender.closed x = false -> exists x', Appender.AppendBatch x recs = (x', None).
Proof.
  intros Hx Hc. destruct recs as [|r recs]; [by exists x |]. unfold Appender.AppendBatch. rewrite Hc.
  destruct (write_records_healthy (r :: recs) x Hx) as (x1 & -> & H1). simpl negb. cbv iota.
  destruct (bFlush_healthy _ H1) as (b & -> & [Hs _] & _). simpl negb. cbv iota.
  destruct (Appender.syncOnWrite _); [| by eexists]. unfold Appender.fSync, Appender.file. simpl. rewrite Hs. by eexists.
Qed.

Lemma next_number_spec ext min d l :
  has_files ext min d l -> 0 <= min -> min = 0 \/ l <> [] ->
  min <= next_number l /\ forall x, x ∈ l -> x < next_number l.
Proof.
  intros [Hs Hi] Hmin Hl. unfold next_number. destruct l as [|n l _] using rev_ind.
  { simpl. split; [destruct Hl; [lia | done] |]. intros x Hx. by apply not_elem_of_nil in Hx. }
  rewrite last_snoc. assert (n ∈ l ++ [n]) as Hn by set_solver. apply Hi in Hn as [Hn _]. split; [lia |].
  intros x [Hx | ->%list_elem_of_singleton]%elem_of_app; [| lia].
  apply StronglySorted_app in Hs as (Hs & _ & _). specialize (Hs x n Hx ltac:(set_solver)). lia.
Qed.

Section writing_back.
Context (min : Z) (tabs : tables_t) (nx : Z).

(** Adding the fresh log, or rewriting it. *)
Lemma described_last d d' ws x D A D' A' :
  described d min tabs (ws ++ [(nx, (D, A))]) -> wal_only d d' ->
  (forall name, name <> walName nx -> d' !! name = d !! name) -> wal_handle d' x nx D' A' ->
  described d' min tabs (ws ++ [(nx, (D', A'))]).
Proof.
  intros Hds Ho Hoth Hh. assert (forall n, n ∈ (ws ++ [(nx, (D, A))]).*1 -> min <= n /\ small n) as Hsm
    by (intros n; by eapply described_small).
  pose proof (ds_wals _ _ _ _ Hds) as [Hs Hi]. rewrite fmap_app in *. simpl in *.
  eapply described_wals; [exact Hds | done | | | right; by destruct ws].
  - rewrite fmap_app. simpl. split; [done |]. intros n. rewrite Hi. split; intros [Hn Hd]; (split; [done |]).
    + destruct (decide (walName n = walName nx)) as [Heq | Hne]; [| by rewrite Hoth].
      pose proof (wh_disk _ _ _ _ _ Hh) as Hx. unfold walName in Heq, Hx. rewrite Heq, Hx. by eexists.
    + destruct (decide (walName n = walName nx)) as [Heq | Hne]; [| by rewrite <- Hoth].
      assert (nx ∈ ws.*1 ++ [nx]) as Hin by set_solver. apply Hi in Hin as [_ Hin]. unfold walName in Heq. by rewrite Heq.
  - pose proof (ds_wal _ _ _ _ Hds) as Hw. apply Forall_app in Hw as [Hw _]. apply Forall_app. split.
    + rewrite Forall_forall in *. intros y Hy. eapply wal_file_elsewhere, Hw, Hy. apply Hoth. intros Heq.
      assert (y.1 ∈ ws.*1) as Hin by (by apply list_elem_of_fmap_2).
      apply Sprintf06_inj in Heq; [| apply Hsm; set_solver..].
      assert (NoDup (ws.*1 ++ [nx])) as Hnd by (by eapply sorted_lt_weaken). apply NoDup_app in Hnd as (_ & Hnd & _).
      apply (Hnd _ Hin). rewrite Heq. set_solver.
    + constructor; [| constructor]. simpl. by eapply wal_handle_file.
Qed.

Lemma store_wal_other x n d name :
  Appender.path x = walName n -> name <> walName n -> store_wal x d !! name = d !! name.
Proof. intros Hp Hn. rewrite (store_wal_at x n) by done. by apply lookup_insert_ne. Qed.
Lemma store_wal_only x n d : small n -> Appender.path x = walName n -> wal_only d (store_wal x d).
Proof. intros Hn Hp. rewrite (store_wal_at x n) by done. by apply wal_only_insert. Qed.

Lemma append_or_close_spec d x ws B :
  small nx -> B <> [] -> Forall Record.wf B ->
  described d min tabs (ws ++ [(nx, ([], []))]) -> wal_handle d x nx [] [] ->
  match append_or_close x B d with
  | (d', Ok x') => described d' min tabs (ws ++ [(nx, (B, B))]) /\ wal_handle d' x' nx B B
  | (d', Err _) => described d' min tabs (ws ++ [(nx, ([], B))]) /\
                   ~ (healthy (Appender.writer x) /\ Appender.closed x = false)
  | (_, Panic) => False
  end.
Proof.
  intros Hn HB Hwf Hds Hh. unfold append_or_close. destruct (Appender.AppendBatch x B) as [x' err] eqn:Ha.
  destruct (append_handle d x nx [] [] B x' err Hh Hwf Ha) as (Hp & Hh1 & Hh2). simpl app in *.
  assert (described (store_wal x' d) min tabs (ws ++ [(nx, ([], B))])) as Hds1.
  { eapply described_last; [exact Hds | by eapply store_wal_only | intros; by eapply store_wal_other | exact Hh1]. }
  destruct err as [e|].
  - unfold close_wal. destruct (Appender.Close x') as [x'' err'] eqn:Hc. simpl.
    destruct (close_handle _ _ _ _ _ _ _ Hh1 Hc) as (Hp' & Hh'). split.
    + eapply described_last; [exact Hds1 | by eapply store_wal_only | intros; by eapply store_wal_other | exact Hh'].
    + intros [H1 H2]. destruct (AppendBatch_healthy x B H1 H2) as [y Hy]. congruence.
  - specialize (Hh2 eq_refl HB). split; [| done].
    eapply described_last; [exact Hds | by eapply store_wal_only | intros; by eapply store_wal_other | exact Hh2].
Qed.

(** Removing the oldest log. *)
Lemma described_remove d n DA ws :
  described d min tabs ((n, DA) :: ws) -> ws <> [] -> described (delete (walName n) d) min tabs ws.
Proof.
  intros Hds Hne. pose proof (described_small _ _ _ _ n Hds ltac:(cbn; set_solver)) as [Hn1 Hn2].
  eapply described_wals; [exact Hds | by apply wal_only_delete | | | by right].
  - apply has_files_delete; [apply (ds_marker _ _ _ _ Hds) | apply (ds_wals _ _ _ _ Hds)].
  - pose proof (ds_wal _ _ _ _ Hds) as Hw. apply Forall_cons in Hw as [_ Hw].
    rewrite Forall_forall in *. intros y Hy. eapply wal_file_elsewhere, Hw, Hy. apply lookup_delete_ne. intros Heq.
    assert (y.1 ∈ ws.*1) as Hin by (by apply list_elem_of_fmap_2).
    apply Sprintf06_inj in Heq; [| done | eapply described_small; [exact Hds | cbn; set_solver]].
    destruct (ds_wals _ _ _ _ Hds) as [Hs _]. apply sorted_lt_weaken in Hs as [_ Hnd]. cbn in Hnd.
    apply NoDup_cons in Hnd as [Hni _]. by rewrite Heq in Hni.
Qed.

Lemma remove_wals_spec env x rl ws : forall d,
  described d min tabs (ws ++ [(nx, (rl, rl))]) -> wal_handle d x nx rl rl ->
  match remove_wals env x (walName <$> ws.*1) d with
  | (d', Ok _) => described d' min tabs [(nx, (rl, rl))] /\ wal_handle d' x nx rl rl
  | (d', Err _) => (exists j, described d' min tabs (drop j ws ++ [(nx, (rl, rl))])) /\ ~ fine env
  | (_, Panic) => False
  end.
Proof.
  induction ws as [|[n DA] ws IH]; intros d Hds Hh; [done |]. cbn [fmap list_fmap fst remove_wals].
  unfold st_bind, wrap, on_error, removeFile.
  assert (is_Some (d !! walName n)) as [f Hf].
  { apply (ds_wals _ _ _ _ Hds). cbn. set_solver. }
  rewrite Hf. pose proof (described_small _ _ _ _ n Hds ltac:(cbn; set_solver)) as [_ Hn].
  pose proof (described_small _ _ _ _ nx Hds ltac:(cbn; rewrite fmap_app; set_solver)) as [_ Hnx].
  destruct (oe_remove env (walName n)) eqn:Hr; cbn [res_wrap].
  - assert (n <> nx) as Hne.
    { destruct (ds_wals _ _ _ _ Hds) as [Hs _]. apply sorted_lt_weaken in Hs as [_ Hnd]. cbn in Hnd.
      apply NoDup_cons in Hnd as [Hni _]. rewrite fmap_app in Hni. set_solver. }
    specialize (IH (delete (walName n) d)). destruct (remove_wals env x (walName <$> ws.*1) (delete (walName n) d)) as [d' r].
    assert (described (delete (walName n) d) min tabs (ws ++ [(nx, (rl, rl))])) as Hds'
      by (eapply described_remove; [exact Hds | by destruct ws]).
    assert (wal_handle (delete (walName n) d) x nx rl rl) as Hh'.
    { eapply wal_handle_elsewhere, Hh. apply lookup_delete_ne. intros Heq. by apply Sprintf06_inj in Heq. }
    specialize (IH Hds' Hh'). destruct r as [[]|e|]; try done. destruct IH as [[j Hj] Hfe]. split; [by exists (S j) | done].
  - split.
    + exists O. rewrite drop_0. unfold close_wal. destruct (Appender.Close x) as [x' err] eqn:Hc. simpl.
      destruct (close_handle _ _ _ _ _ _ _ Hh Hc) as (Hp & Hh'). rewrite app_comm_cons.
      eapply described_last; [exact Hds | by eapply store_wal_only | intros; by eapply store_wal_other | exact Hh'].
    + intros (_ & _ & _ & _ & _ & _ & _ & _ & Hfe). by rewrite Hfe in Hr.
Qed.
End writing_back.

Lemma described_touched d d' min tabs wals wals' :
  described d min tabs wals -> touched wals.*1 d d' -> wals'.*1 = wals.*1 ->
  Forall (fun y => wal_file d' y.1 y.2.1 y.2.2) wals' -> described d' min tabs wals'.
Proof.
  intros Hds [Ht1 Ht2] Hn Hw. eapply described_wals; [exact Hds | | | done |].
  - intros name Hf. apply Ht1. intros (n & -> & Hin)%list_elem_of_fmap. eapply (Hf n); [| done].
    by eapply described_small.
  - destruct (ds_wals _ _ _ _ Hds) as [Hs Hi]. rewrite Hn. split; [done |]. intros n. by rewrite Hi, Ht2.
  - destruct (ds_live _ _ _ _ Hds) as [? | [Hne _]]; [by left | right]. destruct wals; [done |]. by destruct wals'.
Qed.

Lemma relog_spec min tabs nx d x ws m recs :
  refines m (replay_layer recs) -> Forall Record.wf recs -> small nx ->
  described d min tabs (ws ++ [(nx, ([], []))]) -> wal_handle d x nx [] [] ->
  exists es, map as_pair es ≡ₚ map_to_list (replay_layer recs) /\
    let rl := map relog_record es in
    match relog x m d with
    | (d', Ok x') => described d' min tabs (ws ++ [(nx, (rl, rl))]) /\ wal_handle d' x' nx rl rl
    | (d', Err _) => described d' min tabs (ws ++ [(nx, ([], rl))]) /\
                     ~ (healthy (Appender.writer x) /\ Appender.closed x = false)
    | (_, Panic) => False
    end.
Proof.
  intros Hm Hwf Hn Hds Hh. destruct (mem_entries_spec m _ Hm) as (es & He & _ & Hp). exists es. split; [done |].
  unfold relog. rewrite (proj1 (refines_size m _ Hm)). destruct (Z.ltb_spec 0 (Z.of_nat (size (replay_layer recs)))) as [Hpos | Hz].
  - unfold st_bind, lift. rewrite He. unfold wrap. pose proof (relog_wf _ _ Hwf Hp) as Hrwf.
    assert (map relog_record es <> []) as Hne.
    { intros H. apply map_eq_nil in H. subst es. simpl in Hp. apply Permutation_nil_l in Hp.
      rewrite <- length_map_to_list, <- Hp in Hpos. simpl in Hpos. lia. }
    pose proof (append_or_close_spec min tabs nx d x ws _ Hn Hne Hrwf Hds Hh) as Ha.
    by destruct (append_or_close x (map relog_record es) d) as [d' [x'|e|]].
  - assert (es = []) as ->; [| done]. rewrite <- length_map_to_list, <- (Permutation_length Hp), length_map in Hz.
    destruct es; [done | simpl in Hz; lia].
Qed.

(** ** Opening *)

Lemma seqs_ok_replay recs : Forall Record.wf recs -> seqs_ok (replay_layer recs).
Proof.
  intros Hwf k x (r & Hr & Hp)%replay_from. rewrite Forall_forall in Hwf. destruct (Hwf r Hr) as [Hs _].
  unfold rec_pair in Hp. case_bool_decide; injection Hp as <- <-; done.
Qed.

(** The engine that comes up. *)
Lemma opened_einv M dirty d min tabs nx rl o x m recs ts ns :
  refines m (replay_layer recs) -> Forall Record.wf recs ->
  (forall k, k ∉ dirty -> (replay_layer recs ∪ tables_layer tabs) !! k = M !! k) ->
  replay_layer rl = replay_layer recs ->
  described d min tabs [(nx, (rl, rl))] -> recovers tabs [(nx, (rl, rl))] dirty M -> wal_handle d x nx rl rl ->
  t_path <$> ts = sstName <$> tabs.*1 ->
  Forall2 (table_ok (Some (BlockCache.NewBlockCache (BlockCacheSize o)))) ts tabs.*2 ->
  einv M dirty (mkWorld d (mkEngine o x m None None (Some (BlockCache.NewBlockCache (BlockCacheSize o))) ts ns
    (next_number (reverse tabs.*1)) (nx + 1) false [])).
Proof.
  intros Hm Hwf Hreads Hrl Hds Hrec Hh Hpaths Htabs. set (nf := next_number _).
  destruct (next_number_spec ".sst" min d (reverse tabs.*1)) as [Hmin Hlt].
  { apply (ds_tabs _ _ _ _ Hds). } { apply (ds_marker _ _ _ _ Hds). }
  { destruct (ds_live _ _ _ _ Hds) as [? | [_ Hne]]; [by left | right]. intros H. apply Hne.
    apply (f_equal length) in H. rewrite length_reverse, length_fmap in H. by destruct tabs. }
  exists min, tabs, (replay_layer recs), None, [], [], nx, rl, rl, nf.
  constructor; simpl; try done.
  - constructor; simpl; try done; [apply BlockCache.NewBlockCache_inv |]. rewrite Hpaths.
    apply (NoDup_fmap_2_strong sstName).
    + intros a b Ha Hb Heq. apply Sprintf06_inj in Heq; [done | by eapply described_small_tab..].
    + destruct (ds_tabs _ _ _ _ Hds) as [Hs _]. apply sorted_lt_weaken in Hs as [_ Hnd].
      by rewrite reverse_Permutation in Hnd.
  - intros k Hk. rewrite <- Hreads by done. unfold all_layers. simpl. by rewrite (left_id_L ∅ (∪)).
  - by rewrite <- Hrl, dom_replay.
  - by apply seqs_ok_replay.
  - by constructor.
  - apply Forall_forall. intros t Ht. apply Hlt. rewrite elem_of_reverse. by apply list_elem_of_fmap_2.
  - lia.
Qed.

(** The next call of a method. *)
Ltac bind1 := unfold st_bind at 1; cbv beta iota.

(** What the logs of a disk can yield is well-formed. *)
Lemma between_wf d wals Rs :
  between wals Rs -> Forall (fun y => wal_file d y.1 y.2.1 y.2.2) (cut wals Rs) -> Forall Record.wf (concat Rs).
Proof.
  induction 1 as [|x R wals Rs _ _ IH]; intros Hw; [constructor |].
  apply Forall_cons in Hw as [(f & _ & Hwf & _) Hw]. simpl concat. apply Forall_app. split; [exact Hwf | by apply IH].
Qed.

(** A number behind all logs is free, and a new log there joins them. *)
Lemma new_log_free d min tabs ws nx :
  described d min tabs ws -> small nx -> min <= nx -> (forall y, y ∈ ws.*1 -> y < nx) -> d !! walName nx = None.
Proof.
  unfold small. intros Hds Hsx Hmin Hlt. destruct (d !! walName nx) eqn:E; [| done]. exfalso.
  assert (nx ∈ ws.*1) as Hin by (apply (ds_wals _ _ _ _ Hds); split; [lia | by eexists]). specialize (Hlt nx Hin). lia.
Qed.

Lemma new_log_described d min tabs ws nx x f :
  described d min tabs ws -> small nx -> min <= nx -> (forall y, y ∈ ws.*1 -> y < nx) ->
  wal_handle (<[walName nx := f]> d) x nx [] [] ->
  described (<[walName nx := f]> d) min tabs (ws ++ [(nx, ([], []))]).
Proof.
  intros Hds Hsx Hmin Hlt Hhx. unfold small in Hsx. eapply described_wals; [exact Hds | by apply wal_only_insert | | | right; by destruct ws].
  - rewrite fmap_app. apply has_files_snoc; [apply (ds_marker _ _ _ _ Hds) | lia | exact Hlt | apply (ds_wals _ _ _ _ Hds)].
  - apply Forall_app. split; [| constructor; [by eapply wal_handle_file | constructor]].
    pose proof (ds_wal _ _ _ _ Hds) as Hw. rewrite Forall_forall in *. intros y Hy.
    eapply wal_file_elsewhere, Hw, Hy. apply lookup_insert_ne. intros Heq.
    assert (y.1 ∈ ws.*1) as Hin by (by apply list_elem_of_fmap_2).
    apply Sprintf06_inj in Heq; [| done | by eapply described_small]. specialize (Hlt _ Hin). lia.
Qed.

(** The last stages: what was recovered is logged again and the old logs go. *)
Lemma open_tail env o d x m min tabs wals Rs nx dirty M ts ns :
  recovers tabs wals dirty M -> between wals Rs -> refines m (replay_layer (concat Rs)) -> Forall Record.wf (concat Rs) ->
  small nx -> described d min tabs (cut wals Rs ++ [(nx, ([], []))]) -> wal_handle d x nx [] [] ->
  (fine env -> healthy (Appender.writer x) /\ Appender.closed x = false) ->
  t_path <$> ts = sstName <$> tabs.*1 -> Forall2 (table_ok (Some (BlockCache.NewBlockCache (BlockCacheSize o)))) ts tabs.*2 ->
  match (let! w := relog x m in
         let! _ := remove_wals env w (walName <$> wals.*1) in
         ret (mkEngine o w m None None (Some (BlockCache.NewBlockCache (BlockCacheSize o))) ts ns (next_number (reverse tabs.*1)) (nx + 1) false [])) d with
  | (d', Ok e) => einv M dirty (mkWorld d' e) /\ eclosed e = false /\ flushes e = [] /\ flushErr e = None /\ sstables e = ts
  | (d', Err _) => (exists wals', described d' min tabs wals' /\ recovers tabs wals' dirty M) /\ ~ fine env
  | (_, Panic) => False
  end.
Proof.
  intros Hrec Hb Hm HwfR Hsx Hds Hhx Hfine Hpaths Htabs.
  bind1. destruct (relog_spec min tabs nx d x _ m _ Hm HwfR Hsx Hds Hhx) as (es & Hes & Hrl).
  cbv zeta in Hrl. destruct (relog x m d) as [d3 [x3|e|]]; [| | done]; cycle 1.
  { destruct Hrl as [Hds3 Hne]. split; [| intros Hf; by apply Hne, Hfine].
    eexists. split; [exact Hds3 |]. by apply recovers_relogging. }
  destruct Hrl as [Hds3 Hh3]. set (rl := map relog_record es) in *.
  bind1. pose proof (remove_wals_spec min tabs nx env x3 rl (cut wals Rs) d3 Hds3 Hh3) as Hrm.
  rewrite cut_numbers in Hrm by done.
  destruct (remove_wals env x3 (walName <$> wals.*1) d3) as [d4 [[]|e|]]; [| | done]; cycle 1.
  { destruct Hrm as [[j Hj] Hf]. split; [| done]. eexists. split; [exact Hj |]. by apply recovers_relogged. }
  destruct Hrm as [Hds4 Hh4]. unfold ret. split_and!; try done.
  eapply (opened_einv M dirty d4 min tabs nx rl o x3 m (concat Rs)); try done.
  - intros k Hk. by apply Hrec.
  - apply relog_replay; [apply replay_tomb_wf | done].
  - pose proof (recovers_relogged tabs wals dirty M Hrec Rs Hb es Hes nx (length (cut wals Rs))) as H.
    by rewrite drop_all in H.
Qed.

Lemma Open_spec env o d min tabs wals dirty M :
  described d min tabs wals -> recovers tabs wals dirty M -> (forall name, oe_replay_fault env name = None) ->
  next_number wals.*1 < 10 ^ 6 ->
  match Open env o d with
  | (d', Ok e) => einv M dirty (mkWorld d' e) /\ eclosed e = false /\ flushes e = [] /\ flushErr e = None /\
      (fine env -> Forall healthy_table (sstables e))
  | (d', Err _) => (exists wals', described d' min tabs wals' /\ recovers tabs wals' dirty M) /\ ~ fine env
  | (_, Panic) => False
  end.
Proof.
  intros Hds Hrec Hnf Hlim. set (nx := next_number wals.*1) in *.
  assert ((exists wals', described d min tabs wals' /\ recovers tabs wals' dirty M)) as Hsame by (by exists wals).
  destruct (ds_marker _ _ _ _ Hds) as [[Hmin _] _].
  destruct (next_number_spec ".wal" min d wals.*1) as [Hnx1 Hnx2]; [apply (ds_wals _ _ _ _ Hds) | done | |].
  { destruct (ds_live _ _ _ _ Hds) as [? | [Hne _]]; [by left | right]. by destruct wals. }
  fold nx in Hnx1, Hnx2. assert (small nx) as Hsx by (unfold small; lia).
  unfold Open. destruct (oe_mkdir env) eqn:Hmk; unfold negb; cbv beta iota.
  2:{ split; [done |]. intros [Hf _]. congruence. }
  bind1. destruct (readRestoreMarker_spec d min (oe_marker env)) as [-> | [Hma [e ->]]].
  { apply (ds_marker _ _ _ _ Hds). }
  2:{ split; [done |]. intros (_ & Hf & _). congruence. }
  bind1. unfold discoverSSTables. cbv beta iota. destruct (oe_list_tables env) eqn:Hlt.
  2:{ split; [done |]. intros (_ & _ & Hf & _). congruence. }
  rewrite (numbers_spec ".sst" min d _ Hmin (ds_tabs _ _ _ _ Hds)), reverse_involutive.
  pose proof (open_tables_spec env d (BlockCacheSize (withDefaults o)) tabs (ds_tab _ _ _ _ Hds)) as Hot.
  destruct (open_tables env d tabs.*1) as [[ts mx]|e|]; cbn [res_bind]; [| by split | done].
  destruct Hot as (Hpaths & Htabs & Hhealthy).
  bind1. unfold discoverWALs. cbv beta iota. destruct (oe_list_wals env) eqn:Hlw.
  2:{ split; [done |]. intros (_ & _ & _ & Hf & _). congruence. }
  rewrite (numbers_spec ".wal" min d _ Hmin (ds_wals _ _ _ _ Hds)). fold nx.
  bind1.
  pose proof (replay_wals_spec env wals d (Memtable.New (oe_draws env)) ∅ 0 Hnf) as Hrw.
  specialize (Hrw ltac:(apply Forall_forall; intros; by eapply described_small)).
  specialize (Hrw ltac:(destruct (ds_wals _ _ _ _ Hds) as [Hs _]; by apply sorted_lt_weaken in Hs as [_ ?])).
  specialize (Hrw (ds_wal _ _ _ _ Hds) (New_refines _)).
  change (map walName wals.*1) with (walName <$> wals.*1).
  destruct (replay_wals env (walName <$> wals.*1) _ 0 d) as [d1 [[m mw]|e|]]; [| | done]; cycle 1.
  { destruct Hrw as (Hw & Ht & Hf). split; [| done]. exists wals. split; [| done].
    by eapply described_touched. }
  destruct Hrw as (Rs & Hb & Hm & Hw & Ht).
  change (replay_onto ∅ (concat Rs)) with (replay_layer (concat Rs)) in Hm.
  assert (described d1 min tabs (cut wals Rs)) as Hds1 by (eapply described_touched; [done.. | by apply cut_numbers | done]).
  pose proof (between_wf d1 wals Rs Hb Hw) as HwfR.
  assert (forall y, y ∈ (cut wals Rs).*1 -> y < nx) as Hlast by (intros y Hy; rewrite cut_numbers in Hy by done; by apply Hnx2).
  pose proof (new_log_free d1 min tabs _ nx Hds1 Hsx ltac:(lia) Hlast) as Hfree.
  bind1. unfold wrap at 1. cbv beta iota. destruct (oe_wal env) as [fs|] eqn:How.
  2:{ cbn [openWAL res_wrap]. split; [| intros Hf; destruct Hf as (_&_&_&_&_&_&_&Hf&_); congruence].
      exists (cut wals Rs). split; [done |]. intros Rs' Hb'. destruct (between_cut _ _ _ Hb Hb') as [Hb'' _]. by apply Hrec. }
  destruct (open_handle d1 nx fs Hfree) as (x & Hox & Hhx & Hhealth & Hxc). rewrite Hox. cbn [res_wrap].
  set (d2 := <[walName nx := _]> d1) in *.
  assert (fine env -> healthy (Appender.writer x) /\ Appender.closed x = false) as Hfine.
  { intros (_&_&_&_&_&_&_&Hf&_). rewrite How in Hf. injection Hf as ->. split; [by apply Hhealth | done]. }
  pose proof (new_log_described d1 min tabs _ nx x _ Hds1 Hsx ltac:(lia) Hlast Hhx) as Hds2.
  match goal with |- context [mkEngine _ _ _ _ _ _ ts ?ns] =>
    pose proof (open_tail env (withDefaults o) d2 x m min tabs wals Rs nx dirty M ts ns Hrec Hb Hm HwfR Hsx Hds2 Hhx Hfine Hpaths Htabs) as Hend end.
  revert Hend. destruct (st_bind _ _ d2) as [d' [e|e|]]; try done. intros (? & ? & ? & ? & Hts).
  split_and!; try done. intros Hf. rewrite Hts. apply Hhealthy, Hf.
Qed.
