(* ===== verification/EngineWrite.v ===== *)
(** * Writing: batches and the start of a flush *)

From Stdlib Require Import Strings.Byte Strings.String.
From stdpp Require Import sorting.
From S2P Require Import Prelude GoBytes GoSort GoFmt GoState Wal SkipList Memtable Bloom BlockCache SSTableFormat SSTableWriter SSTableReader SSTable Engine EngineLayers EngineDisk EngineReplay EngineSpec EngineInv EngineOpen.

(** ** A batch in the log *)

Section batch.
Context (M : layer) (dirty : gset bytes) (s : world) (min : Z) (tabs : tables_t) (m : layer) (im : option layer).
Context (extra : tables_t) (fw : wals_t) (cn : Z) (D A : list Record.t) (cb : Z).
Context (He : einv_at M dirty s min tabs m im extra fw cn D A cb).
Context (B : list Record.t) (HB : Forall Record.wf B) (Hne : B <> []).

Lemma wal_store_frame x :
  Appender.path x = walName cn -> forall y, y ∈ fw -> store_wal x (dsk s) !! walName y.1 = dsk s !! walName y.1.
Proof.
  intros Hp y Hy. pose proof (einv_small _ _ _ _ _ _ _ _ _ _ _ _ _ He) as (Hcn & _ & Hfw & _). destruct He.
  eapply store_wal_other; [exact Hp |]. intros Heq. rewrite Forall_forall in Hfw, ei_old. specialize (ei_old y Hy).
  apply Sprintf06_inj in Heq; [lia | by apply Hfw | done].
Qed.

Lemma described_store x D' A' :
  Appender.path x = walName cn -> wal_handle (store_wal x (dsk s)) x cn D' A' ->
  described (store_wal x (dsk s)) min (extra ++ tabs) (fw ++ [(cn, (D', A'))]).
Proof.
  intros Hp Hh. pose proof (einv_small _ _ _ _ _ _ _ _ _ _ _ _ _ He) as (Hcn & _). destruct He.
  eapply described_last; [exact ei_disk | by eapply store_wal_only | intros; by eapply store_wal_other | exact Hh].
Qed.

Lemma failed_einv x e next :
  Appender.AppendBatch (w (eng s)) B = (x, Some e) ->
  einv_at M (dirty ∪ rec_keys B) (mkWorld (store_wal x (dsk s)) (set_w x (set_nextSeq next (eng s))))
    min tabs m im extra fw cn D (A ++ B) cb.
Proof.
  intros Ha. destruct (append_handle (dsk s) (w (eng s)) cn D A B x (Some e)) as (Hp & Hh & _); [apply He | done | done |].
  pose proof (described_store x D (A ++ B) Hp Hh) as Hds. pose proof (wal_store_frame x Hp) as Hfr.
  destruct He. constructor; simpl; try done.
  - by destruct ei_layers.
  - apply recovers_failed; [done | apply (wh_prefix _ _ _ _ _ ei_wal)].
  - intros k Hk. apply ei_reads. set_solver.
  - eapply flushing_frame; [exact ei_flush | done | done | done | done | done | done].
Qed.

Lemma acked_einv x next m' :
  Appender.AppendBatch (w (eng s)) B = (x, None) -> refines m' (replay_onto m B) ->
  einv_at (replay_onto M B) (dirty ∖ rec_keys B)
    (mkWorld (store_wal x (dsk s)) (set_mem m' (set_w x (set_nextSeq next (eng s)))))
    min tabs (replay_onto m B) im extra fw cn (A ++ B) (A ++ B) cb.
Proof.
  intros Ha Hm. destruct (append_handle (dsk s) (w (eng s)) cn D A B x None) as (Hp & _ & Hh); [apply He | done | done |].
  specialize (Hh eq_refl Hne).
  pose proof (described_store x _ _ Hp Hh) as Hds. pose proof (wal_store_frame x Hp) as Hfr.
  destruct He. constructor; simpl; try done.
  - destruct ei_layers. by constructor.
  - eapply recovers_acked; [done | apply (wh_prefix _ _ _ _ _ ei_wal)].
  - intros k Hk. rewrite !replay_onto_union. unfold all_layers. rewrite <- (assoc_L (∪)).
    destruct (decide (k ∈ rec_keys B)) as [HkB | HkB].
    + destruct (replay_Some B k HkB) as [y Hy]. by rewrite !(lookup_union_Some_l _ _ _ _ Hy).
    + rewrite !(lookup_union_r (replay_layer B)) by (by apply replay_None). apply ei_reads. set_solver.
  - rewrite replay_onto_union, dom_union_L, dom_replay, rec_keys_app.
    pose proof (wh_prefix _ _ _ _ _ ei_wal) as [more HA]. rewrite HA, rec_keys_app. set_solver.
  - rewrite replay_onto_union. apply map_Forall_union_2; [by apply seqs_ok_replay | done].
  - eapply flushing_frame; [exact ei_flush | done | done | done | done | done | done].
Qed.
End batch.

(** ** Starting a flush *)

(** The state a started flush leaves. *)
Definition started (s : world) (env : flush_env) (x : Appender.WAL) (d : disk) : world :=
  let e := eng s in
  mkWorld d (set_flushes (flushes e ++ [mkFlush (Writing (mem e)) (w e) (nextFlushSeq e)])
    (set_numbers (nextFlushSeq e + 1) (nextWALSeq e + 1)
      (set_w x (set_mem (Memtable.New (fe_draws env)) (set_immutable (Some (mem e)) e))))).

Lemma started_einv M dirty s min tabs m cn D A cb env x :
  einv_at M dirty s min tabs m None [] [] cn D A cb -> flushes (eng s) = [] -> nextWALSeq (eng s) < 10 ^ 6 ->
  cb <= nextFlushSeq (eng s) ->
  let d := <[walName (nextWALSeq (eng s)) := mkFile [] []]> (dsk s) in
  wal_handle d x (nextWALSeq (eng s)) [] [] ->
  einv_at M dirty (started s env x d) min tabs ∅ (Some m) [] [(cn, (D, A))] (nextWALSeq (eng s)) [] [] cb.
Proof.
  intros He Hfl Hlim Hcb d Hh. pose proof (einv_small _ _ _ _ _ _ _ _ _ _ _ _ _ He) as (Hcn & Hmin & _ & _ & Hmin0).
  assert (small (nextWALSeq (eng s))) as Hsn by (destruct He; unfold small in *; lia).
  destruct He. assert (wal_handle d (w (eng s)) cn D A) as Hold.
  { eapply wal_handle_elsewhere; [| exact ei_wal]. apply lookup_insert_ne. intros Heq.
    apply Sprintf06_inj in Heq; [lia | done | done]. }
  constructor; simpl; try done.
  - destruct ei_layers. constructor; try done. apply New_refines.
  - eapply described_wals; [exact ei_disk | by apply wal_only_insert | | | by right].
    + cbn. apply (has_files_snoc ".wal" min Hmin0 (dsk s) [cn]); [lia | | apply (ds_wals _ _ _ _ ei_disk)].
      by intros y ->%list_elem_of_singleton.
    + repeat constructor; simpl; by eapply wal_handle_file.
  - by apply (recovers_open _ [(cn, (D, A))]).
  - intros k Hk. rewrite <- ei_reads by done. unfold all_layers. simpl. by rewrite !(left_id_L ∅ (∪)).
  - rewrite Hfl. eapply fl_writing; [reflexivity | reflexivity | | done | done | done | simpl; lia].
    by destruct ei_layers.
  - by repeat constructor.
  - lia.
Qed.

(** No goroutine and no error: no flush of any kind is pending. *)
Lemma flushing_idle e d cb im extra fw :
  flushing e d cb im extra fw -> flushes e = [] -> flushErr e = None ->
  im = None /\ extra = [] /\ fw = [] /\ cb <= nextFlushSeq e.
Proof. intros [] Hf He; try congruence; [done |]. by destruct H1; congruence. Qed.

Lemma startFlushLocked_spec M dirty s env :
  einv M dirty s -> flushes (eng s) = [] -> flushErr (eng s) = None -> nextWALSeq (eng s) < 10 ^ 6 ->
  match startFlushLocked env s with
  | (s', Ok _) => einv M dirty s' /\ (exists f, flushes (eng s') = [f])
  | (s', Err _) => s' = s
  | (_, Panic) => False
  end.
Proof.
  intros (min & tabs & m & im & extra & fw & cn & D & A & cb & He) Hfl Herr Hlim.
  destruct (flushing_idle _ _ _ _ _ _ (ei_flush _ _ _ _ _ _ _ _ _ _ _ _ _ He) Hfl Herr) as (-> & -> & -> & Hcb).
  pose proof (einv_small _ _ _ _ _ _ _ _ _ _ _ _ _ He) as (_ & Hmin & _).
  unfold startFlushLocked. bind1. unfold field, reads. cbv beta iota. bind1. unfold wrap, on_disk.
  destruct (fe_wal env) as [fs|]; [| cbn [openWAL res_wrap]; by destruct s].
  assert (dsk s !! walName (nextWALSeq (eng s)) = None) as Hfree.
  { destruct (dsk s !! walName (nextWALSeq (eng s))) eqn:E; [| done]. exfalso.
    assert (nextWALSeq (eng s) ∈ [cn]) as Hin%list_elem_of_singleton.
    { apply (ds_wals _ _ _ _ (ei_disk _ _ _ _ _ _ _ _ _ _ _ _ _ He)). destruct He. split; [lia | by eexists]. }
    destruct He. lia. }
  destruct (open_handle (dsk s) (nextWALSeq (eng s)) fs Hfree) as (x & -> & Hh & _). cbn [res_wrap].
  unfold update, modify. cbn [dsk eng]. split.
  - exists min, tabs, ∅, (Some m), [], [(cn, (D, A))], (nextWALSeq (eng s)), [], [], cb.
    by apply (started_einv M dirty s min tabs m cn D A cb env x).
  - rewrite Hfl. by eexists.
Qed.

(** ** A batch *)

Definition op_keys (ops : list BatchOp) : gset bytes := list_to_set (op_key <$> ops).

Lemma number_ops_keys ops : forall seq recs next,
  number_ops seq ops = (recs, next) -> rec_keys recs = op_keys ops /\ (ops <> [] -> recs <> []).
Proof.
  induction ops as [|op ops IH]; intros seq recs next; cbn [number_ops]; [by intros [= <- _] |].
  destruct (number_ops (inc64 seq) ops) as [recs' next'] eqn:E. intros [= <- _]. destruct (IH _ _ _ E) as [IH' _].
  split; [| done]. unfold rec_keys, op_keys in *. cbn. by rewrite IH'.
Qed.

(** What a batch writes at the engine's next sequence number. *)
Definition batch_records (s : world) (ops : list BatchOp) : list Record.t := fst (number_ops (nextSeq (eng s)) ops).

Lemma applyLocked_spec M dirty s env waited ops :
  einv M dirty s -> Forall Record.wf (batch_records s ops) -> nextWALSeq (eng s) < 10 ^ 6 ->
  match applyLocked env waited ops s with
  | (s', Ok _) => (length (flushes (eng s')) <= 1)%nat ->
      einv (replay_onto M (batch_records s ops)) (dirty ∖ op_keys ops) s'
  | (s', Err _) => einv M (dirty ∪ op_keys ops) s'
  | (_, Panic) => False
  end.
Proof.
  intros He Hwf Hlim. unfold applyLocked. bind1. unfold field, reads. cbv beta iota.
  assert (einv M (dirty ∪ op_keys ops) s) as Hsame by (eapply einv_weaken, He; set_solver).
  destruct (waited && _); [done |]. bind1. destruct (flushErr (eng s)) as [err|] eqn:Herr; [done |].
  destruct ops as [|op ops]; [intros _; simpl; unfold op_keys, replay_onto; simpl; by rewrite difference_empty_L |].
  set (all := op :: ops) in *. bind1. unfold batch_records in *. fold all.
  destruct (number_ops (nextSeq (eng s)) all) as [recs next] eqn:Hnum. simpl fst in *.
  destruct (number_ops_keys all _ _ _ Hnum) as [Hkeys Hne]. rewrite <- Hkeys in *. specialize (Hne ltac:(done)).
  bind1. unfold update, modify. cbv beta iota. bind1. unfold wrap, append_batch. cbn [eng dsk].
  change (w (set_nextSeq next (eng s))) with (w (eng s)).
  destruct He as (min & tabs & m & im & extra & fw & cn & D & A & cb & He).
  destruct (Appender.AppendBatch (w (eng s)) recs) as [x [err|]] eqn:Ha; cbn [res_wrap]; cbv beta iota.
  { exists min, tabs, m, im, extra, fw, cn, D, (A ++ recs), cb. by eapply failed_einv. }
  bind1. cbn [eng dsk]. change (mem (set_w x (set_nextSeq next (eng s)))) with (mem (eng s)).
  destruct (apply_ops_spec all _ _ _ (mem (eng s)) m Hnum) as (m' & Hops & Hm'); [by destruct He as [[] ?] |].
  bind1. unfold lift. rewrite Hops. bind1. cbn [eng dsk].
  pose proof (acked_einv M dirty s min tabs m im extra fw cn D A cb He recs Hwf Hne x next m' Ha Hm') as Hacked.
  set (s1 := mkWorld _ _) in Hacked.
  assert (einv (replay_onto M recs) (dirty ∖ rec_keys recs) s1) as Hs1
    by (by exists min, tabs, (replay_onto m recs), im, extra, fw, cn, (A ++ recs), (A ++ recs), cb).
  assert (forall s2, einv (replay_onto M recs) (dirty ∖ rec_keys recs) s2 -> einv M (dirty ∪ rec_keys recs) s2) as Hdirty.
  { intros s2 H2. eapply einv_agree; [| eapply einv_weaken, H2; set_solver]. intros k Hk.
    rewrite replay_onto_union, lookup_union_r; [done |]. apply replay_None. set_solver. }
  bind1. change (mkWorld (store_wal x (dsk s)) (set_mem m' (set_w x (set_nextSeq next (eng s))))) with s1.
  destruct (_ <=? ApproxSize m'); [| by intros _].
  destruct (flushes (eng s)) as [|f fs] eqn:Hfl.
  - pose proof (startFlushLocked_spec _ _ s1 env Hs1 Hfl Herr Hlim) as Hst.
    destruct (startFlushLocked env s1) as [s2 [[]|e|]]; cbn [res_wrap]; [by intros _; apply Hst | subst; by apply Hdirty | done].
  - unfold startFlushLocked. bind1. unfold field, reads. cbv beta iota. bind1. unfold wrap, on_disk, openWAL.
    destruct (fe_wal env) as [fs'|]; cbn [res_wrap]; [| by apply Hdirty]. unfold update, modify. cbn [res_wrap eng].
    intros Hlen. exfalso. cbn [flushes set_flushes set_numbers set_w set_mem set_immutable] in Hlen.
    change (flushes (eng s1)) with (flushes (eng s)) in Hlen. rewrite Hfl, length_app in Hlen. simpl in Hlen. lia.
Qed.
