(* ===== verification/EngineFlush.v ===== *)
(** * The stages of a background flush, and closing *)

From Stdlib Require Import Strings.Byte Strings.String.
From stdpp Require Import sorting.
From S2P Require Import Prelude GoBytes GoSort GoFmt GoState Wal SkipList Memtable Bloom BlockCache SSTableFormat SSTableWriter SSTableReader SSTable Engine EngineLayers EngineDisk EngineReplay EngineSpec EngineInv EngineOpen EngineWrite.

(** ** The table file *)

Lemma seal_cached x x' meta : seal x = (x', Ok meta) -> Appender.cached (Appender.wr (out x')) = [].
Proof.
  unfold seal. destruct (Appender.bFlush (out x)) as [b []]; simpl; [| done].
  unfold Appender.fSync. destruct (Appender.script (Appender.wr b)) as [|[k|] sc]; simpl; [| done |];
    unfold Appender.fClose; simpl; [by intros [= <- _] |].
  destruct sc as [|[k|] sc]; simpl; [by intros [= <- _] | done | by intros [= <- _]].
Qed.

Lemma Finish_cached fb fh x x' meta :
  Finish fb fh x = (x', Ok meta) -> Appender.cached (Appender.wr (out x')) = [].
Proof.
  unfold Finish. destruct (closed x); [done |]. destruct (flushBlock _) as [x1 [e|]]; [done |].
  destruct (let* bf := _ in _) as [bf| |]; [| done | done].
  destruct (writeChecksummed x1 _) as [[x2 n2] [e|]]; [done |].
  destruct (writeChecksummed x2 _) as [[x3 n3] [e|]]; [done |].
  destruct (Appender.bWrite _ _) as [b []]; [apply seal_cached | done].
Qed.

Lemma write_sst_ok fb fh name bsz file es d d' :
  write_sst fb fh name bsz file es d = (d', Ok tt) ->
  exists meta data, write_table fb fh name bsz file es = Ok (meta, data) /\ d' = <[name := mkFile data []]> d.
Proof.
  unfold write_sst, write_table. destruct (NewWriter name bsz file) as [x| |]; cbn [res_bind]; [| done | done].
  destruct (add_all x es) as [x1 [e|]]; [done |]. destruct (Finish fb fh x1) as [x2 [meta| |]] eqn:Hf; [| done | done].
  cbn [res_wrap res_bind]. intros [= <-]. exists meta, (file_of x2). split; [done |].
  apply Finish_cached in Hf. unfold of_wal, file_of. by rewrite Hf.
Qed.

(** Files stay below what can be allocated. *)
Definition fits (d : disk) : Prop := map_Forall (fun _ f => len (f_contents f) <= Bloom.maxAlloc) d.

Section flushing.
Context (fb : Z -> Z) (fh : Z -> Z -> Z) (Hfb : forall n, 0 <= fb n <= Bloom.maxAlloc).

Lemma Finish_no_panic x : no_panic (snd (Finish fb fh x)).
Proof.
  unfold Finish. destruct (closed x); [done |]. destruct (flushBlock (set_closed x)) as [y [e|]]; [done |].
  destruct (Bloom.newBloomFilter_spec fb fh (len (keys y)) (Hfb _)) as (b0 & -> & Hb0). cbn [res_bind].
  destruct (Bloom.bloom_add_all (keys y) b0 Hb0) as (b & -> & _).
  destruct (writeChecksummed y _) as [[y2 n2] [e|]]; [done |]. destruct (writeChecksummed y2 _) as [[y3 n3] [e|]]; [done |].
  destruct (Appender.bWrite _ _) as [b4 []]; [| done]. unfold seal.
  destruct (Appender.bFlush _) as [b5 []]; simpl; [| done]. destruct (Appender.fSync _) as [f5 []]; simpl; [| done].
  by destruct (Appender.fClose _) as [f6 []].
Qed.

Lemma write_sst_no_panic name bsz file es d d' : write_sst fb fh name bsz file es d <> (d', Panic).
Proof.
  unfold write_sst. destruct file as [fs|]; simpl; [| done]. destruct (add_all _ es) as [x [e|]]; [done |].
  pose proof (Finish_no_panic x) as Hn. by destruct (Finish fb fh x) as [x2 [meta|e|]].
Qed.

Lemma write_sst_good name bsz file es d d' :
  write_sst fb fh name bsz file es d = (d', Ok tt) -> Forall (fun e => is_u64 (Block.seq e)) es -> fits d' ->
  exists bs bf, d' = <[name := mkFile (table_image bs bf) []]> d /\ good_table bs bf /\ concat bs = es.
Proof.
  intros Hw Hseq Hfit. destruct (write_sst_ok _ _ _ _ _ _ _ _ Hw) as (meta & data & Ht & ->).
  destruct (written _ _ _ _ _ _ _ _ (Hfb _) Ht) as (bs & bf & <- & Hne & Hso & Hwf & Hmay & -> & _).
  exists bs, bf. split_and!; [done | | done]. constructor; try done.
  specialize (Hfit name (mkFile (table_image bs bf) [])). rewrite lookup_insert_eq in Hfit. specialize (Hfit eq_refl).
  unfold f_contents in Hfit. simpl in Hfit. by rewrite app_nil_r in Hfit.
Qed.

(** The entries of a memtable as a table. *)
Lemma frozen_entries m l :
  refines m l -> seqs_ok l ->
  exists es, mem_entries m = Ok es /\ table_layer (map entry_of es) = l /\
    Forall (fun e => is_u64 (Block.seq e)) (map entry_of es).
Proof.
  intros Hm Hs. destruct (mem_entries_spec m l Hm) as (es & He & _ & Hp). exists es.
  assert (map entry_pair (map entry_of es) = map as_pair es) as Hpairs.
  { rewrite map_map. apply map_ext. by intros []. }
  split_and!; [done | |].
  - unfold table_layer. rewrite Hpairs. rewrite (list_to_map_proper (M := gmap bytes) _ (map_to_list l)).
    + apply list_to_map_to_list.
    + rewrite Hp. apply NoDup_fst_map_to_list.
    + done.
  - apply Forall_forall. intros x (e & -> & Hin)%list_elem_of_fmap.
    assert (as_pair e ∈ map_to_list l) as Hl by (rewrite <- Hp; by apply list_elem_of_fmap_2).
    destruct e as [k v d sq]. apply elem_of_map_to_list in Hl. apply (Hs _ _ Hl).
Qed.

Lemma described_table d min tabs wals n bs bf :
  described d min tabs wals -> min <= n < 10 ^ 6 -> Forall (fun t => t.1 < n) tabs -> good_table bs bf ->
  described (<[sstName n := mkFile (table_image bs bf) []]> d) min ((n, concat bs) :: tabs) wals.
Proof.
  intros Hds Hn Hlt Hg. assert (forall t, t ∈ tabs.*1 -> small t) as Hsm by (intros; by eapply described_small_tab).
  destruct Hds. destruct ds_marker as [[Hmin Hmax] Hm]. assert (small n) as Hsn by (unfold small; lia).
  constructor.
  - split; [done |]. rewrite lookup_insert_ne; [done |]. intros Heq. by apply (proj1 (marker_foreign ".sst") n).
  - rewrite fmap_cons, reverse_cons. apply has_files_snoc; [done | done | | done]. intros x Hx.
    rewrite elem_of_reverse in Hx. apply list_elem_of_fmap in Hx as (t & -> & Ht). rewrite Forall_forall in Hlt. by apply Hlt.
  - constructor.
    + exists bs, bf. simpl. by rewrite lookup_insert_eq.
    + rewrite Forall_forall in *. intros t Ht. destruct (ds_tab t Ht) as (bs' & bf' & Hd & Hr). exists bs', bf'.
      rewrite lookup_insert_ne; [done |]. intros Heq. specialize (Hlt t Ht).
      apply Sprintf06_inj in Heq; [lia | done | by apply Hsm, list_elem_of_fmap_2].
  - apply has_files_foreign_insert; [done | by apply sst_foreign | done].
  - assert (forall x, x ∈ wals.*1 -> small x) as Hws by (intros x Hx; apply ds_wals in Hx as [? _]; unfold small; lia).
    rewrite Forall_forall in *. intros x Hx. eapply wal_file_elsewhere, ds_wal, Hx. apply lookup_insert_ne. intros Heq.
    eapply (sst_foreign n Hsn x.1); [by apply Hws, list_elem_of_fmap_2 | done].
  - destruct ds_live as [? | [? _]]; [by left | right]. done.
Qed.

(** A table that the cache has nothing of is coherent with it. *)
Lemma coherent_below bs n cb c :
  cache_wf c -> cache_below cb c -> small n -> cb <= n -> coherent bs (sstName n) c.
Proof.
  intros Hc Hb Hn Hcb. destruct c as [c|]; [| done]. split; [done |]. intros i b blk e _ _ Hin.
  apply Hb in Hin as (k & Hk & Hlt & Heq). apply Sprintf06_inj in Heq; [lia | done | done].
Qed.

(** ** Stages *)

Lemma flush_at e d cb im extra fw i f :
  flushing e d cb im extra fw -> flushes e !! i = Some f -> i = O /\ flushes e = [f].
Proof.
  intros [] Hf; rewrite H in Hf; destruct i as [|i]; try done; simpl in Hf; [by injection Hf as <- |..];
    try (by destruct i); by injection Hf as <-.
Qed.

(** Writing and reopening the table. *)
Lemma flush_writing M dirty s env s' r frozen x n :
  einv M dirty s -> flushes (eng s) = [mkFlush (Writing frozen) x n] -> n < 10 ^ 6 ->
  runFlush fb fh env 0 s = Some (s', r) -> fits (dsk s') ->
  (forall e, flushes (eng s') <> [mkFlush (Written (Err e)) x n]) -> r = Ok tt /\ einv M dirty s'.
Proof.
  intros (min & tabs & m & im & extra & fw & cn & D & A & cb & He) Hfl Hn Hrun Hfit Hgood.
  pose proof (ei_flush _ _ _ _ _ _ _ _ _ _ _ _ _ He) as Hf. inversion Hf; try congruence; subst im extra fw;
    [| by destruct H0; congruence]. rewrite Hfl in H. injection H as <- <- <-.
  pose proof (einv_small _ _ _ _ _ _ _ _ _ _ _ _ _ He) as (_ & _ & _ & _ & Hmin0).
  assert (small n) as Hsn by (destruct He; unfold small; lia).
  destruct (frozen_entries frozen fm ltac:(done) ltac:(done)) as (es & Hes & Hlay & Hseq).
  unfold runFlush in Hrun. rewrite Hfl in Hrun. simpl in Hrun. unfold st_bind, writeSSTableFromMemtable, wrap, reopen in Hrun.
  unfold st_bind, lift in Hrun. rewrite Hes in Hrun.
  destruct (write_sst fb fh (sstName n) _ _ _ (dsk s)) as [d1 rw] eqn:Hw. destruct rw as [[]|e|].
  2:{ injection Hrun as <- <-. exfalso. by apply (Hgood e). }
  2:{ exfalso. by eapply write_sst_no_panic. }
  assert (fits d1) as Hfit1 by (injection Hrun as <- _; done).
  destruct (write_sst_good _ _ _ _ _ _ Hw Hseq Hfit1) as (bs & bf & -> & Hg & Hcon).
  set (d1 := <[sstName n := _]> (dsk s)) in *.
  assert (d1 !! sstName n = Some (mkFile (table_image bs bf) [])) as Hd1 by (unfold d1; by rewrite lookup_insert_eq).
  destruct (re_opens env) eqn:Hop.
  2:{ injection Hrun as <- <-. exfalso. by eapply Hgood. }
  rewrite (source_of_synced _ _ _ _ Hd1) in Hrun. pose proof Hg as Hg'. destruct Hg'.
  destruct (Open_cases bs bf (re_bad env) (sstName n)) as [Ho | [[e Ho] _]]; [done.. | |]; rewrite Ho in Hrun.
  2:{ injection Hrun as <- <-. exfalso. by eapply Hgood. }
  injection Hrun as <- <-. split; [done |].
  assert (forall k, small k -> d1 !! walName k = dsk s !! walName k) as Hwals.
  { intros k Hk. apply lookup_insert_ne. intros Heq. by eapply (sst_foreign n Hsn k). }
  exists min, tabs, m, (Some fm), [(n, map entry_of es)], [(fn, (FD, FA))], cn, D, A, cb.
  pose proof (einv_small _ _ _ _ _ _ _ _ _ _ _ _ _ He) as (Hcn & _ & Hfn & _). apply Forall_cons in Hfn as [Hfn _].
  destruct He. constructor; simpl; try done.
  - by destruct ei_layers; constructor.
  - rewrite <- Hcon. apply described_table; [done | lia | | done].
    eapply Forall_impl; [exact ei_tabs |]. simpl. lia.
  - apply recovers_table; [done |]. by rewrite Hlay.
  - eapply wal_handle_elsewhere; [| exact ei_wal]. by apply Hwals.
  - rewrite <- Hlay. eapply fl_written; [done | done | by rewrite Hlay | | | done].
    + exists bs, bf, (re_bad env). split_and!; try done. simpl.
      eapply coherent_below; [by destruct ei_layers | done | done | lia].
    + eapply wal_handle_elsewhere; [| eassumption]. by apply Hwals.
Qed.

(** Installing it. *)
Lemma flush_install M dirty s env s' r rd x n :
  einv M dirty s -> flushes (eng s) = [mkFlush (Written (Ok rd)) x n] ->
  runFlush fb fh env 0 s = Some (s', r) -> r = Ok tt /\ einv M dirty s'.
Proof.
  intros (min & tabs & m & im & extra & fw & cn & D & A & cb & He) Hfl Hrun.
  pose proof (ei_flush _ _ _ _ _ _ _ _ _ _ _ _ _ He) as Hf. inversion Hf; try congruence; subst im extra fw;
    [| by destruct H0; congruence]. rewrite Hfl in H. injection H as <- <- <-.
  unfold runFlush in Hrun. rewrite Hfl in Hrun. simpl in Hrun. injection Hrun as <- <-. split; [done |].
  assert (small n) as Hsn.
  { destruct He. eapply (described_small_tab _ _ _ _ n ei_disk). cbn. set_solver. }
  pose proof (einv_small _ _ _ _ _ _ _ _ _ _ _ _ _ He) as (_ & _ & _ & Hsm & _).
  exists min, ((n, es) :: tabs), m, None, [], [(fn, (FD, FA))], cn, D, A, (n + 1).
  destruct He. constructor; simpl; try done.
  - destruct ei_layers. constructor; simpl; try done; [| by constructor].
    apply NoDup_cons. split; [| done]. intros Hin. change (sstName n ∈ t_path <$> sstables (eng s)) in Hin.
    rewrite ei_paths in Hin. apply list_elem_of_fmap in Hin as (k & Heq & Hk). apply list_elem_of_fmap in Hk as (t & -> & Ht). rewrite Forall_forall in Hsm, ei_tabs. specialize (ei_tabs t Ht).
    apply Sprintf06_inj in Heq; [lia | done | by apply Hsm].
  - cbn. f_equal. exact ei_paths.
  - intros k Hk. rewrite <- ei_reads by done. unfold all_layers. simpl. by rewrite (left_id_L ∅ (∪)).
  - eapply fl_ending; [reflexivity | by left | done | eassumption | simpl; lia].
  - destruct (ecache (eng s)); [| done]. intros f off e Hin. apply ei_cache in Hin as (k & Hk & Hlt & ->).
    exists k. split_and!; [done | lia | done].
  - constructor; [simpl; lia |]. eapply Forall_impl; [exact ei_tabs |]. simpl. lia.
  - lia.
Qed.

(** The old log is the oldest one: a change of its file. *)
Lemma described_old d min tabs fn FD FA cur x :
  described d min tabs ((fn, (FD, FA)) :: cur) -> Appender.path x = walName fn ->
  wal_handle (store_wal x d) x fn FD FA -> described (store_wal x d) min tabs ((fn, (FD, FA)) :: cur).
Proof.
  intros Hds Hp Hh. pose proof (described_small _ _ _ _ fn Hds ltac:(cbn; set_solver)) as [Hmin Hfn].
  eapply described_wals; [exact Hds | by eapply store_wal_only | | | by right].
  - rewrite (store_wal_at x fn) by done. apply has_files_update; [cbn; set_solver | apply (ds_wals _ _ _ _ Hds)].
  - pose proof (ds_wal _ _ _ _ Hds) as Hw. apply Forall_cons in Hw as [_ Hw]. constructor; [by eapply wal_handle_file |].
    rewrite Forall_forall in *. intros y Hy. eapply wal_file_elsewhere, Hw, Hy.
    eapply store_wal_other; [exact Hp |]. intros Heq.
    assert (y.1 ∈ cur.*1) as Hin by (by apply list_elem_of_fmap_2).
    apply Sprintf06_inj in Heq; [| eapply described_small; [exact Hds | cbn; set_solver] | done].
    destruct (ds_wals _ _ _ _ Hds) as [Hs _]. apply sorted_lt_weaken in Hs as [_ Hnd]. cbn in Hnd.
    apply NoDup_cons in Hnd as [Hni _]. by rewrite Heq in Hin.
Qed.

(** Closing the old log, and removing it. *)
Lemma flush_ending M dirty s env s' r stg x n :
  einv M dirty s -> flushes (eng s) = [mkFlush stg x n] -> stg = Closing \/ stg = Removing ->
  runFlush fb fh env 0 s = Some (s', r) -> r = Ok tt /\ einv M dirty s'.
Proof.
  intros (min & tabs & m & im & extra & fw & cn & D & A & cb & He) Hfl Hstg Hrun.
  pose proof (einv_small _ _ _ _ _ _ _ _ _ _ _ _ _ He) as (Hcn & _ & Hfw & _).
  pose proof (ei_flush _ _ _ _ _ _ _ _ _ _ _ _ _ He) as Hf. inversion Hf; try congruence; subst im extra fw;
    [by destruct Hstg; congruence | by destruct Hstg; congruence |]. rewrite Hfl in H. injection H as <- <- <-.
  apply Forall_cons in Hfw as [Hfn _]. simpl in Hfn.
  unfold runFlush in Hrun. rewrite Hfl in Hrun. simpl in Hrun. destruct Hstg as [-> | ->].
  - destruct (Appender.Close x) as [x' err] eqn:Hc. destruct (close_handle _ _ _ _ _ _ _ H2 Hc) as (Hp & Hh).
    assert (wal_handle (store_wal x' (dsk s)) (w (eng s)) cn D A) as Hcur.
    { destruct He. eapply wal_handle_elsewhere, ei_wal. eapply store_wal_other; [exact Hp |].
      intros Heq. apply Forall_cons in ei_old as [Hlt _]. simpl in Hlt. apply Sprintf06_inj in Heq; [lia | done | done]. }
    assert (exists fe fl, s' = mkWorld (store_wal x' (dsk s)) (set_flushes fl (set_flushErr fe (eng s))) /\
      ((fl = [] /\ is_Some fe) \/ fl = [mkFlush Removing x' n])) as (fe & fl & -> & Hfls).
    { destruct err as [e|]; injection Hrun as <- <-.
      - eexists _, _. split; [reflexivity |]. left. split; [done | by eexists].
      - eexists (flushErr (eng s)), _. split; [| right; reflexivity]. by destruct (eng s). }
    split; [by destruct err; injection Hrun as <- <- |].
    exists min, tabs, m, None, [], [(fn, (FD, FA))], cn, D, A, cb. destruct He. constructor; simpl; try done.
    + by destruct ei_layers; constructor.
    + by apply described_old.
    + destruct Hfls as [[-> Hfe] | ->]; [by apply fl_abandoned |].
      eapply fl_ending; [reflexivity | by right | done | exact Hh | done].
  - unfold removeFile in Hrun. rewrite (wh_path _ _ _ _ _ H2) in Hrun. rewrite (wh_disk _ _ _ _ _ H2) in Hrun.
    destruct (re_remove env); injection Hrun as <- <-; (split; [done |]).
    + exists min, tabs, m, None, [], [], cn, D, A, cb.
      assert (fn <> cn) as Hne by (destruct He; apply Forall_cons in ei_old as [Hlt _]; simpl in Hlt; lia).
      destruct He. constructor; simpl; try done.
      * by destruct ei_layers; constructor.
      * by eapply described_remove.
      * eapply recovers_removed; [exact ei_recovers | apply (wh_prefix _ _ _ _ _ ei_wal) | done | apply (wh_prefix _ _ _ _ _ H2) |].
        intros k Hk. rewrite <- ei_reads by done. unfold all_layers. simpl. by rewrite (left_id_L ∅ (∪)).
      * eapply wal_handle_elsewhere, ei_wal. apply lookup_delete_ne. intros Heq. by apply Sprintf06_inj in Heq.
      * by apply fl_none.
    + exists min, tabs, m, None, [], [(fn, (FD, FA))], cn, D, A, cb. destruct He. constructor; simpl; try done.
      * by destruct ei_layers; constructor.
      * by apply fl_abandoned.
Qed.

(** Any stage of a flush whose table could be written. *)
Lemma runFlush_spec M dirty s env i s' r :
  einv M dirty s -> nextFlushSeq (eng s) <= 10 ^ 6 -> runFlush fb fh env i s = Some (s', r) -> fits (dsk s') ->
  Forall (fun f => forall e, fl_stage f <> Written (Err e)) (flushes (eng s')) -> r = Ok tt /\ einv M dirty s'.
Proof.
  intros He Hlim Hrun Hfit Hgood. destruct (flushes (eng s) !! i) as [f|] eqn:Hf.
  2:{ unfold runFlush in Hrun. by rewrite Hf in Hrun. }
  pose proof He as (min & tabs & m & im & extra & fw & cn & D & A & cb & He').
  pose proof (ei_flush _ _ _ _ _ _ _ _ _ _ _ _ _ He') as Hfl.
  destruct (flush_at _ _ _ _ _ _ _ _ Hfl Hf) as [-> Heq]. destruct f as [stg x n].
  destruct stg as [frozen|[rd|e|]| |].
  - eapply flush_writing; [done | done | | done | done |].
    + inversion Hfl; try congruence; rewrite Heq in H; injection H as <- <- <-; [lia | by destruct H0].
    + intros e He2. rewrite He2 in Hgood. apply Forall_cons in Hgood as [Hg _]. by apply (Hg e).
  - by eapply flush_install.
  - inversion Hfl; congruence || (destruct H0; congruence).
  - inversion Hfl; congruence || (destruct H0; congruence).
  - eapply flush_ending; eauto.
  - eapply flush_ending; eauto.
Qed.
End flushing.

(** ** Explicit flushes and closing *)

Lemma Flush_einv M dirty s env waited s' r :
  einv M dirty s -> nextWALSeq (eng s) < 10 ^ 6 -> (length (flushes (eng s')) <= 1)%nat ->
  Flush env waited s = Some (s', r) -> einv M dirty s' /\ r <> Panic.
Proof.
  intros He Hlim Hlen. unfold Flush. destruct (negb waited && _); [by intros [= <- <-] |].
  unfold unless_flushing. destruct (immutable (eng s)) eqn:Him; [done |]. intros [= Hrun]. revert Hrun.
  bind1. unfold field, reads. cbv beta iota. destruct (waited && _); [by intros [= <- <-] |]. bind1.
  destruct (flushErr (eng s)) eqn:Herr; [by intros [= <- <-] |]. bind1.
  destruct (_ =? 0); [by intros [= <- <-] |]. bind1. destruct (flushes (eng s)) as [|f fs] eqn:Hfl.
  - pose proof (startFlushLocked_spec M dirty s env He Hfl Herr Hlim) as Hst.
    destruct (startFlushLocked env s) as [s2 [[]|e|]]; [| | done]; intros [= <- <-]; [by destruct Hst | by subst].
  - intros Hrun. unfold startFlushLocked, st_bind, field, reads, wrap, on_disk, openWAL, update, modify, ret in Hrun.
    destruct (fe_wal env) as [fs'|]; cbn [res_wrap] in Hrun; injection Hrun as <- <-; [| by destruct s].
    exfalso. simpl in Hlen. rewrite Hfl, length_app in Hlen. simpl in Hlen. lia.
Qed.

Lemma close_einv M dirty s : einv M dirty s -> exists s', Close s = (s', Ok (negb (eclosed (eng s)))) /\ einv M dirty s'.
Proof.
  intros (min & tabs & m & im & extra & fw & cn & D & A & cb & He). unfold Close. bind1. unfold field, reads. cbv beta iota.
  destruct (eclosed (eng s)); [eexists; split; [reflexivity |]; by exists min, tabs, m, im, extra, fw, cn, D, A, cb |].
  eexists. split; [reflexivity |]. exists min, tabs, m, im, extra, fw, cn, D, A, cb.
  destruct He. constructor; simpl; try done; [by destruct ei_layers; constructor |].
  eapply flushing_frame; [exact ei_flush | done | done | done | done | done | done].
Qed.

Lemma closed_down_einv M dirty s s' r :
  einv M dirty s -> closed_down s = Some (s', r) -> einv M dirty s' /\ r <> Panic.
Proof.
  intros (min & tabs & m & im & extra & fw & cn & D & A & cb & He). unfold closed_down.
  destruct (flushes (eng s)) eqn:Hfl; [| done]. destruct (Appender.Close (w (eng s))) as [x err] eqn:Hc.
  intros [= <- <-]. split; [| by destruct err].
  destruct (close_handle (dsk s) (w (eng s)) cn D A x err) as (Hp & Hh); [apply He | done |].
  pose proof (described_store _ _ _ _ _ _ _ _ _ _ _ _ _ He x D A Hp Hh) as Hds.
  pose proof (wal_store_frame _ _ _ _ _ _ _ _ _ _ _ _ _ He x Hp) as Hfr.
  exists min, tabs, m, im, extra, fw, cn, D, A, cb.
  destruct He. constructor; simpl; try done; [by destruct ei_layers; constructor |].
  eapply flushing_frame; [exact ei_flush | done | done | done | done | done | done].
Qed.
