(* ===== verification/EngineSnapshot.v ===== *)
(** * Snapshots and their restoration

    The format of a snapshot, what [Snapshot] writes, and the state that
    [RestoreSnapshot] commits to. *)

From Stdlib Require Import Strings.Byte Strings.String.
From stdpp Require Import sorting.
From S2P Require Import Prelude GoBytes GoSort GoFmt GoState Wal SkipList Memtable Bloom BlockCache SSTableFormat SSTableWriter SSTableReader SSTable Engine EngineLayers EngineDisk EngineReplay EngineSpec EngineInv EngineOpen EngineWrite EngineFlush.

(** ** The format *)

Definition snapshot_bytes (es : list snapshotEntry) : bytes :=
  concat (map (fun e => writeLenPrefixed (se_key e) ++ writeLenPrefixed (se_value e)) es).

Lemma len_writeLenPrefixed b : len (writeLenPrefixed b) = 4 + len b.
Proof. unfold writeLenPrefixed. autorewrite with len. lia. Qed.

(** The check of the available length is made modulo [2^32]. *)
Lemma readLenPrefixed_at pre b suf :
  len b < 2 ^ 32 ->
  readLenPrefixed (pre ++ writeLenPrefixed b ++ suf) (len pre) =
    if u32 (len b + len suf) <? len b then Err (Errorf "engine: malformed snapshot data: declared length exceeds available")
    else Ok (b, len pre + len (writeLenPrefixed b)).
Proof.
  intros Hb. pose proof (len_nonneg b) as Hb0. pose proof (len_nonneg suf) as Hs0. unfold readLenPrefixed, writeLenPrefixed.
  rewrite <- !app_assoc. rewrite get_u32_at by done. rewrite (proj2 (Z.ltb_ge _ _)) by (rewrite !len_app, len_put_u32; lia).
  cbn [res_bind]. rewrite (u32_small (len b)) by (unfold is_u32; lia).
  replace (len (pre ++ put_u32 (len b) ++ b ++ suf) - (len pre + 4)) with (len b + len suf)
    by (rewrite !len_app, len_put_u32; lia).
  destruct (_ <? _); [done |]. rewrite (app_assoc pre). replace (len pre + 4) with (len (pre ++ put_u32 (len b)))
    by (rewrite len_app, len_put_u32; lia).
  rewrite slice_mid. cbn [res_bind]. rewrite !len_app, len_put_u32. f_equal. f_equal. lia.
Qed.

Lemma decode_entries_bytes es : forall fuel pre,
  len (snapshot_bytes es) < 2 ^ 32 -> (length es < fuel)%nat ->
  decode_entries fuel (pre ++ snapshot_bytes es) (len pre) = Ok es.
Proof.
  induction es as [|e es IH]; intros fuel pre Hlen Hf; (destruct fuel as [|fuel]; [lia |]); cbn [decode_entries].
  { unfold snapshot_bytes. simpl. by rewrite app_nil_r, Z.ltb_irrefl. }
  assert (snapshot_bytes (e :: es) = writeLenPrefixed (se_key e) ++ writeLenPrefixed (se_value e) ++ snapshot_bytes es) as Heq
    by (unfold snapshot_bytes; simpl; by rewrite <- app_assoc).
  rewrite Heq in *.
  rewrite !len_app, !len_writeLenPrefixed in Hlen.
  pose proof (len_nonneg (se_key e)). pose proof (len_nonneg (se_value e)). pose proof (len_nonneg (snapshot_bytes es)).
  pose proof (len_nonneg pre).
  rewrite (proj2 (Z.ltb_lt _ _)) by (rewrite !len_app, !len_writeLenPrefixed; lia).
  rewrite readLenPrefixed_at by lia. rewrite (proj2 (Z.ltb_ge _ _)).
  2:{ rewrite len_app, len_writeLenPrefixed. rewrite u32_small by (unfold is_u32; lia). lia. }
  cbn [res_bind]. rewrite <- len_app, (app_assoc pre).
  rewrite readLenPrefixed_at by lia. rewrite (proj2 (Z.ltb_ge _ _)) by (rewrite u32_small; [lia |]; unfold is_u32; lia).
  cbn [res_bind]. rewrite <- len_app, (app_assoc (pre ++ _)). rewrite IH by (simpl in Hf; unfold len in *; lia).
  cbn [res_bind]. by destruct e.
Qed.

Lemma snapshot_bytes_length es : (length es <= length (snapshot_bytes es))%nat.
Proof.
  induction es as [|e es IH]; [done |]. unfold snapshot_bytes in *. cbn [map concat]. rewrite !length_app.
  assert (4 <= length (writeLenPrefixed (se_key e)))%nat by (unfold writeLenPrefixed; rewrite length_app, length_put_u32; lia).
  cbn [length]. lia.
Qed.

Lemma decode_snapshot_bytes es :
  len (snapshot_bytes es) < 2 ^ 32 -> decodeSnapshotEntries (snapshot_bytes es) = Ok es.
Proof.
  intros H. unfold decodeSnapshotEntries. pose proof (snapshot_bytes_length es).
  rewrite (decode_entries_bytes es _ []); [done | done | lia].
Qed.

(** Any data is decoded or rejected: the rounds are enough and no slice is
    out of range. *)
Lemma readLenPrefixed_total data off :
  0 <= off <= len data ->
  match readLenPrefixed data off with
  | Ok (b, off') => off + 4 <= off' <= len data
  | Err _ => True
  | Panic => False
  end.
Proof.
  intros Hoff. unfold readLenPrefixed. destruct (Z.ltb_spec (len data - off) 4); [done |].
  pose proof (get_u32_no_panic data off ltac:(lia) ltac:(lia)) as Hn.
  destruct (get_u32 data off) as [n| |] eqn:Hg; cbn [res_bind]; [| done..].
  apply get_u32_inv in Hg. unfold is_u32 in Hg. pose proof (u32_le (len data - (off + 4)) ltac:(lia)).
  destruct (Z.ltb_spec (u32 (len data - (off + 4))) n); [done |].
  rewrite slice_ok by lia. cbn [res_bind]. lia.
Qed.

Lemma decode_entries_total data : forall fuel off,
  0 <= off <= len data -> (length data - Z.to_nat off < fuel)%nat -> no_panic (decode_entries fuel data off).
Proof.
  induction fuel as [|fuel IH]; intros off Hoff Hf; [lia |]. cbn [decode_entries].
  destruct (Z.ltb_spec off (len data)); [| done].
  pose proof (readLenPrefixed_total data off Hoff) as H1. destruct (readLenPrefixed data off) as [[k off1]| |]; cbn [res_bind]; [| done..].
  pose proof (readLenPrefixed_total data off1 ltac:(lia)) as H2. destruct (readLenPrefixed data off1) as [[v off2]| |]; cbn [res_bind]; [| done..].
  apply no_panic_bind; [apply IH; unfold len in *; lia | done].
Qed.

(** ** Collecting the keys *)

Lemma dom_table_layer es : dom (table_layer es) = list_to_set (Block.key <$> es).
Proof.
  unfold table_layer. rewrite dom_list_to_map_L. f_equal. induction es as [|e es IH]; [done |]. cbn. f_equal. exact IH.
Qed.

Lemma collect_mem_spec m l keys : refines m l -> collect_mem (Some m) keys = Ok (keys ∪ dom l).
Proof.
  intros Hm. unfold collect_mem. destruct (mem_entries_spec m l Hm) as (es & -> & _ & Hp). cbn [res_bind]. do 2 f_equal.
  apply set_eq. intros k. rewrite elem_of_list_to_set, elem_of_dom, list_elem_of_fmap. split.
  - intros (e & -> & He). assert (as_pair e ∈ map_to_list l) as Hin by (rewrite <- Hp; by apply list_elem_of_fmap_2).
    apply elem_of_map_to_list in Hin. by eexists.
  - intros [x Hx]. apply elem_of_map_to_list in Hx. rewrite <- Hp in Hx.
    apply list_elem_of_fmap in Hx as (e & Heq & He). exists e. by injection Heq.
Qed.

(** A scan of one open table. *)
Lemma table_scan_keys c t es :
  cache_wf c -> table_ok c t es ->
  exists c' es' err, scan c (t_reader t) (S (length (s_data (r_f (t_reader t))))) = Ok (c', es', err) /\
    cache_frame (eq (t_path t)) c c' /\ table_ok c' t es /\ (healthy_table t -> es' = es).
Proof.
  intros Hc (bs & bf & bad & Hg & <- & Hr & Hco). pose proof Hg as Hg'. destruct Hg'.
  assert (length (concat bs) < S (length (s_data (r_f (t_reader t)))))%nat as Hfuel.
  { rewrite Hr. simpl. pose proof (concat_size bs). destruct (image_parts bs bf) as (foot & -> & _).
    rewrite length_app. unfold len in *. lia. }
  destruct (scan_spec bs bf bad (t_path t) ltac:(done) ltac:(done) ltac:(done) ltac:(done) ltac:(done) c _ Hco Hfuel)
    as (c' & es' & err & Hs & Hco' & Hsc).
  rewrite <- Hr in Hs. exists c', es', err. split_and!; [done | | |].
  - eapply cache_frame_weaken, scan_frame; [| done | exact Hs]. rewrite Hr. simpl. done.
  - exists bs, bf, bad. by split_and!.
  - intros Hh. destruct Hsc as [[_ ->] | (_ & _ & o & Ho)]; [done |]. specialize (Hh o). rewrite Hr in Hh. simpl in Hh. congruence.
Qed.

Lemma collect_tables_spec ts : forall ess c keys,
  cache_wf c -> NoDup (t_path <$> ts) -> Forall2 (table_ok c) ts ess ->
  exists c' keys', collect_tables c ts keys = Ok (c', keys') /\ cache_frame (fun f => f ∈ t_path <$> ts) c c' /\
    Forall2 (table_ok c') ts ess /\
    (Forall healthy_table ts -> keys' = keys ∪ dom (flat (map table_layer ess))).
Proof.
  induction ts as [|t ts IH]; intros ess c keys Hc Hnd Hok; inversion Hok as [|? es ? ess' Ht Hts]; subst; cbn [collect_tables].
  { eexists _, _. split_and!; [done | by apply cache_frame_refl | done |]. simpl. set_solver. }
  rewrite fmap_cons, NoDup_cons in Hnd. destruct Hnd as [Hnin Hnd].
  destruct (table_scan_keys c t es Hc Ht) as (c1 & es1 & err & -> & Hf1 & Ht1 & Hk). cbn [res_bind].
  assert (Forall2 (table_ok c1) ts ess') as Hts1.
  { eapply tables_ok_frame; [exact Hf1 | | done]. intros x Hx Heq. apply Hnin. rewrite Heq.
    apply list_elem_of_fmap. by exists x. }
  destruct (IH ess' c1 (keys ∪ list_to_set (Block.key <$> es1)) (proj1 Hf1) Hnd Hts1) as (c2 & keys' & -> & Hf2 & Hts2 & Hk2).
  eexists _, _. split_and!; [done | | |].
  - eapply cache_frame_trans; [eapply cache_frame_weaken, Hf1; intros f <-; simpl; left |].
    eapply cache_frame_weaken, Hf2. intros f Hfin. simpl. by right.
  - constructor; [| done]. eapply table_ok_frame; [exact Hf2 | exact Hnin | done].
  - intros [Hh Hhs]%Forall_cons. rewrite (Hk2 Hhs), (Hk Hh), <- dom_table_layer. simpl. rewrite dom_union_L. set_solver.
Qed.

(** ** The loop over the keys *)

Definition live (L : layer) (k : bytes) : option snapshotEntry :=
  match answer_in L k with
  | (v, true) => Some (mkSnapshotEntry k v)
  | (_, false) => None
  end.

Lemma snapshot_loop_spec m im ess ks : forall s,
  layers (eng s) m im ess -> eclosed (eng s) = false ->
  exists c a, snapshot_loop ks s = (mkWorld (dsk s) (set_ecache c (eng s)), a) /\ no_panic a /\
    (Forall healthy_table (sstables (eng s)) -> a = Ok (snapshot_bytes (omap (live (all_layers m im ess)) ks))) /\
    layers (set_ecache c (eng s)) m im ess /\
    cache_frame (fun f => f ∈ t_path <$> sstables (eng s)) (ecache (eng s)) c.
Proof.
  induction ks as [|k ks IH]; intros s Hl Hcl; cbn [snapshot_loop].
  { exists (ecache (eng s)), (Ok []). assert (set_ecache (ecache (eng s)) (eng s) = eng s) as -> by (by destruct (eng s)).
    split_and!; [by destruct s | done | done | done |]. by apply cache_frame_refl, Hl. }
  bind1. destruct (Get_layers s k m im ess Hl Hcl) as (c1 & a & -> & Hl1 & Hf1 & Ha).
  destruct Ha as [-> | [[e ->] Hn]]; [| by exists c1, (Err e); split_and!; try done; intros Hhs].
  destruct (IH (mkWorld (dsk s) (set_ecache c1 (eng s))) Hl1 Hcl) as (c2 & a & Hrun & Hnp & Hh & Hl2 & Hf2).
  simpl in Hrun, Hl2, Hf2, Hh. destruct (answer_in (all_layers m im ess) k) as [v f] eqn:Ha. bind1. rewrite Hrun.
  assert (live (all_layers m im ess) k = if f then Some (mkSnapshotEntry k v) else None) as Hlk
    by (unfold live; by rewrite Ha; destruct f).
  pose proof (cache_frame_trans _ _ _ _ Hf1 Hf2) as Hf12.
  destruct a as [rest|e|]; [| by exists c2, (Err e); split_and!; try done; intros Hhs; specialize (Hh Hhs) | done].
  eexists c2, _. split; [reflexivity |]. split_and!; [done | | done | done].
  intros Hhs. specialize (Hh Hhs). injection Hh as ->. cbn [omap list_omap]. rewrite Hlk. destruct f; [| done].
  unfold snapshot_bytes. cbn [map concat se_key se_value]. by rewrite <- app_assoc.
Qed.

(** ** [Snapshot] *)

Lemma Snapshot_layers s order m im ess :
  layers (eng s) m im ess -> eclosed (eng s) = false ->
  exists c a ks, Snapshot order s = (mkWorld (dsk s) (set_ecache c (eng s)), a) /\ no_panic a /\
    (Forall healthy_table (sstables (eng s)) ->
       ks = dom (all_layers m im ess) /\
       a = Ok (snapshot_bytes (omap (live (all_layers m im ess)) (order (elements ks))))) /\
    layers (set_ecache c (eng s)) m im ess /\
    cache_frame (fun f => f ∈ t_path <$> sstables (eng s)) (ecache (eng s)) c.
Proof.
  intros Hl Hcl. unfold Snapshot. bind1. unfold field, reads. rewrite Hcl. bind1. bind1. unfold lift.
  rewrite (collect_mem_spec _ m) by apply Hl. cbv beta iota. bind1. bind1.
  assert (collect_mem (immutable (eng s)) (∅ ∪ dom m) = Ok (dom m ∪ dom (default ∅ im : layer))) as ->.
  { destruct Hl as [_ Him _ _ _]. destruct (immutable (eng s)) as [x|], im as [l|]; try done; simpl.
    - change (collect_mem (Some x) (∅ ∪ dom m) = Ok (dom m ∪ dom l)). rewrite (collect_mem_spec _ l _ Him). f_equal. set_solver.
    - f_equal. rewrite dom_empty_L. set_solver. }
  bind1. destruct Hl as [Hm Him Hc Hp Ht] eqn:Heq. clear Heq.
  destruct (collect_tables_spec _ _ _ (dom m ∪ dom (default ∅ im : layer)) Hc Hp Ht) as (c1 & keys & -> & Hf1 & Ht1 & Hk).
  set (s1 := mkWorld (dsk s) (set_ecache c1 (eng s))).
  assert (layers (eng s1) m im ess) as Hl1 by (by apply layers_ecache; [| apply Hf1 |]).
  destruct (snapshot_loop_spec m im ess (order (elements keys)) s1 Hl1 Hcl) as (c2 & a & -> & Hnp & Hh & Hl2 & Hf2).
  exists c2, a, keys. simpl in *. split_and!; [done | done | | done | by eapply cache_frame_trans].
  intros Hhs. split; [| by apply Hh]. rewrite (Hk Hhs). unfold all_layers. rewrite !dom_union_L. set_solver.
Qed.

Lemma live_entries L ks :
  NoDup ks -> dom L ⊆ list_to_set ks ->
  NoDup (se_key <$> omap (live L) ks) /\
  forall k v, mkSnapshotEntry k v ∈ omap (live L) ks <-> answer_in L k = (v, true).
Proof.
  assert (forall k e, live L k = Some e -> se_key e = k /\ answer_in L k = (se_value e, true)) as Hlive.
  { intros k e. unfold live. destruct (answer_in L k) as [v []]; [by intros [= <-] | done]. }
  intros Hnd Hdom. split.
  - clear Hdom. induction Hnd as [|k ks Hni Hnd IH]; [constructor |]. simpl. destruct (live L k) as [e|] eqn:He; [| done].
    simpl. constructor; [| done]. intros (e' & Hk & He')%list_elem_of_fmap. apply list_elem_of_omap in He' as (k' & Hin & He').
    apply Hlive in He as [<- _]. apply Hlive in He' as [<- _]. congruence.
  - intros k v. rewrite list_elem_of_omap. split.
    + intros (k' & _ & [Hk Ha]%Hlive). simpl in *. by subst.
    + intros Ha. exists k. split; [| unfold live; by rewrite Ha].
      assert (k ∈ dom L) as Hk by (apply elem_of_dom; unfold answer_in in Ha; destruct (L !! k); [by eexists | done]).
      apply Hdom in Hk. by rewrite elem_of_list_to_set in Hk.
Qed.

Lemma einv_Snapshot M dirty s order :
  einv M dirty s -> eclosed (eng s) = false -> (forall l, order l ≡ₚ l) ->
  exists s' a, Snapshot order s = (s', a) /\ einv M dirty s' /\ dsk s' = dsk s /\ no_panic a /\
    (Forall healthy_table (sstables (eng s)) -> exists es, a = Ok (snapshot_bytes es) /\ NoDup (se_key <$> es) /\
       forall k v, k ∉ dirty -> mkSnapshotEntry k v ∈ es <-> answer_in M k = (v, true)).
Proof.
  intros (min & tabs & m & im & extra & fw & cn & D & A & cb & He) Hcl Hord.
  destruct (Snapshot_layers s order m im tabs.*2 (ei_layers _ _ _ _ _ _ _ _ _ _ _ _ _ He) Hcl)
    as (c & a & ks & Hrun & Hnp & Hh & Hl & Hf).
  eexists _, a. split; [exact Hrun |]. split_and!; [| done | done |].
  - exists min, tabs, m, im, extra, fw, cn, D, A, cb. by apply einv_ecache.
  - intros Hhs. destruct (Hh Hhs) as [-> ->]. set (L := all_layers m im tabs.*2) in *.
    destruct (live_entries L (order (elements (dom L)))) as [Hnd Hin].
    + rewrite Hord. apply NoDup_elements.
    + intros k Hk. rewrite elem_of_list_to_set, Hord. by apply elem_of_elements.
    + eexists. split_and!; [reflexivity | done |]. intros k v Hk. rewrite Hin. unfold answer_in, L.
      by rewrite (ei_reads _ _ _ _ _ _ _ _ _ _ _ _ _ He k Hk).
Qed.
