(* ===== verification/EngineRestore.v ===== *)
(** * Restoring a snapshot *)

From Stdlib Require Import Strings.Byte Strings.String.
From stdpp Require Import sorting.
From S2P Require Import Prelude GoBytes GoSort GoFmt GoState Wal SkipList Memtable Bloom BlockCache SSTableFormat SSTableWriter SSTableReader SSTable Engine EngineLayers EngineDisk EngineReplay EngineSpec EngineInv EngineOpen EngineWrite EngineFlush EngineSnapshot.

(** ** The table of a snapshot *)

Lemma number_entries_keys es : forall i, Block.key <$> number_entries i es = se_key <$> es.
Proof. induction es as [|e es IH]; intros i; [done |]. cbn. f_equal. apply IH. Qed.

Lemma number_entries_seq es : forall i, Forall (fun e => is_u64 (Block.seq e)) (number_entries i es).
Proof. induction es as [|e es IH]; intros i; constructor; [apply u64_range | apply IH]. Qed.

Lemma number_entries_answer es k v : forall i,
  NoDup (se_key <$> es) -> answer_in (table_layer (number_entries i es)) k = (v, true) <-> mkSnapshotEntry k v ∈ es.
Proof.
  induction es as [|e es IH]; intros i Hnd.
  { split; [done | by intros ?%not_elem_of_nil]. }
  rewrite fmap_cons, NoDup_cons in Hnd. destruct Hnd as [Hni Hnd]. rewrite elem_of_cons.
  specialize (IH (i + 1) Hnd). unfold answer_in, table_layer in *. cbn [number_entries map list_to_map foldr entry_pair].
  cbn. destruct (decide (se_key e = k)) as [<- | Hne].
  - rewrite lookup_insert_eq. simpl. split.
    + intros [= <-]. left. by destruct e.
    + intros [<- | Hin]; [done |]. exfalso. apply Hni. apply (list_elem_of_fmap_2 se_key) in Hin. done.
  - rewrite lookup_insert_ne by done. rewrite <- IH. split; [by right |]. intros [Heq | ?]; [| done]. by rewrite <- Heq in Hne.
Qed.

#[global] Instance se_le_total : Total se_le.
Proof. intros a b. unfold se_le. rewrite (compare_antisym (se_key a)). lia. Qed.
#[global] Instance se_le_trans : Transitive se_le.
Proof.
  intros a b c [H1 | H1]%key_le_cases H2; unfold se_le; [| by rewrite H1].
  apply Z.lt_le_incl. exact (key_lt_le_trans _ _ _ H1 H2).
Qed.

Lemma sorted_strict es : StronglySorted se_le es -> NoDup (se_key <$> es) -> sorted (se_key <$> es).
Proof.
  induction 1 as [|e es _ IH Hall]; [constructor |]. rewrite fmap_cons, NoDup_cons. intros [Hni Hnd]. constructor; [by apply IH |].
  apply Forall_forall. intros k (e' & -> & He)%list_elem_of_fmap. rewrite Forall_forall in Hall. specialize (Hall e' He).
  destruct (proj1 (key_le_cases _ _) Hall) as [? | Heq]; [done |]. exfalso. apply Hni. rewrite Heq. by apply list_elem_of_fmap_2.
Qed.

(** The state a snapshot stands for. *)
Definition restored (es : list snapshotEntry) : layer := table_layer (number_entries 0 (merge_sort se_le es)).

Lemma merged_NoDup es : NoDup (se_key <$> es) -> NoDup (se_key <$> merge_sort se_le es).
Proof. by rewrite merge_sort_Permutation. Qed.

Lemma merged_sorted es : NoDup (se_key <$> es) -> sorted (se_key <$> merge_sort se_le es).
Proof. intros Hnd. apply sorted_strict; [apply StronglySorted_merge_sort; apply _ | by apply merged_NoDup]. Qed.

Lemma restored_answer es k v :
  NoDup (se_key <$> es) -> answer_in (restored es) k = (v, true) <-> mkSnapshotEntry k v ∈ es.
Proof.
  intros Hnd. unfold restored. rewrite number_entries_answer by (by apply merged_NoDup). by rewrite merge_sort_Permutation.
Qed.

(** ** The marker *)

Lemma marker_written env n d d' :
  writeRestoreMarkerAtomically env n d = (d', Ok tt) ->
  d' = <[restoreMarkerFileName := mkFile (String.list_byte_of_string (Itoa n)) []]> (delete (restoreMarkerFileName +:+ ".tmp") d).
Proof.
  unfold writeRestoreMarkerAtomically. destruct (me_tmp env) as [fs|]; [| done]. unfold Appender.fWrite. simpl Appender.script.
  destruct fs as [|[k|] fs]; cbn -[restoreMarkerFileName String.append]; [| done |].
  - destruct (me_rename env); [by intros [= <-] | done].
  - unfold Appender.fSync. simpl Appender.script. destruct fs as [|[k|] fs]; cbn -[restoreMarkerFileName String.append]; [| done |].
    + destruct (me_rename env); [by intros [= <-] | done].
    + unfold Appender.fClose. simpl Appender.script. destruct fs as [|[k|] fs]; cbn -[restoreMarkerFileName String.append]; [| done |];
        (destruct (me_rename env); [by intros [= <-] | done]).
Qed.

Lemma marker_total env n d :
  snd (writeRestoreMarkerAtomically env n d) <> Panic /\
  (me_tmp env = Some [] -> me_rename env = true -> snd (writeRestoreMarkerAtomically env n d) = Ok tt).
Proof.
  unfold writeRestoreMarkerAtomically. split.
  - destruct (me_tmp env) as [fs|]; [| done]. destruct (Appender.fWrite _ _) as [[f ?] []]; [| done]. simpl negb. cbv iota.
    destruct (Appender.fSync f) as [f2 []]; [| done]. simpl negb. cbv iota. destruct (Appender.fClose f2) as [f3 []]; [| done].
    simpl negb. cbv iota. by destruct (me_rename env).
  - intros -> ->. done.
Qed.

(** ** Removing what the marker supersedes *)

Definition cleanup (env : restore_env) (ts : list sstableEntry) (old : string) (d : disk) : disk :=
  try_remove env old (fold_left (fun d t => try_remove env (t_path t) d) ts d).

Lemma try_remove_lookup env old d name :
  try_remove env old d !! name = d !! name \/ (name = old /\ try_remove env old d !! name = None).
Proof.
  unfold try_remove, removeFile. destruct (d !! old) eqn:Ho; [| by left]. destruct (rs_remove env old); simpl; [| by left].
  destruct (decide (name = old)) as [-> |]; [right; by rewrite lookup_delete_eq | left; by rewrite lookup_delete_ne].
Qed.

Lemma cleanup_lookup env ts old d name :
  cleanup env ts old d !! name = d !! name \/
  ((name = old \/ name ∈ t_path <$> ts) /\ cleanup env ts old d !! name = None).
Proof.
  assert (forall d, fold_left (fun d t => try_remove env (t_path t) d) ts d !! name = d !! name \/
    (name ∈ t_path <$> ts /\ fold_left (fun d t => try_remove env (t_path t) d) ts d !! name = None)) as Hts.
  { induction ts as [|t ts IH]; intros d0; cbn [fold_left]; [by left |].
    destruct (IH (try_remove env (t_path t) d0)) as [-> | [Hin ->]]; [| right; split; [by right | done]].
    destruct (try_remove_lookup env (t_path t) d0 name) as [-> | [-> ->]]; [by left | right]. split; [by left | done]. }
  unfold cleanup. destruct (try_remove_lookup env old (fold_left (fun d t => try_remove env (t_path t) d) ts d) name) as [-> | [-> ->]].
  - destruct (Hts d) as [-> | [Hin ->]]; [by left | right; auto].
  - right; auto.
Qed.

(** ** The committed directory *)

Lemma described_single d n es :
  small n -> d !! restoreMarkerFileName = Some (mkFile (String.list_byte_of_string (Itoa n)) []) -> table_file d n es ->
  d !! walName n = Some (mkFile [] []) ->
  (forall k, n < k < 10 ^ 6 -> d !! sstName k = None /\ d !! walName k = None) ->
  described d n [(n, es)] [(n, ([], []))].
Proof.
  intros Hn Hm Ht Hw Hfree. unfold small in Hn.
  assert (forall ext, (forall k, n < k < 10 ^ 6 -> d !! Sprintf06 ext k = None) -> is_Some (d !! Sprintf06 ext n) ->
    has_files ext n d [n]) as Hone.
  { intros ext Hf Hs. split; [by repeat constructor |]. intros k. rewrite list_elem_of_singleton. split.
    - intros ->. split; [lia | done].
    - intros [Hk [x Hx]]. destruct (decide (n = k)); [done |]. rewrite Hf in Hx; [done | lia]. }
  constructor.
  - split; [lia |]. by rewrite Hm.
  - apply Hone; [intros k Hk; by apply Hfree |]. destruct Ht as (bs & bf & Hd & _). by eexists.
  - by repeat constructor.
  - apply Hone; [intros k Hk; by apply Hfree | by eexists].
  - repeat constructor. eexists. split; [exact Hw |]. split_and!; done.
  - right. done.
Qed.

Definition next_seq (e : Engine) : Z := if nextFlushSeq e <? nextWALSeq e then nextWALSeq e else nextFlushSeq e.

(** Without a goroutine nothing on disk is numbered as high as the next
    files. *)
Lemma quiet_free M dirty s min tabs m im extra fw cn D A cb :
  einv_at M dirty s min tabs m im extra fw cn D A cb -> flushes (eng s) = [] ->
  immutable (eng s) = None /\ im = None /\ extra = [] /\ cb <= next_seq (eng s) /\ cn < next_seq (eng s) /\ 0 <= next_seq (eng s) /\
  forall k, next_seq (eng s) <= k < 10 ^ 6 -> dsk s !! sstName k = None /\ dsk s !! walName k = None.
Proof.
  intros He Hfl. pose proof (einv_small _ _ _ _ _ _ _ _ _ _ _ _ _ He) as (Hcn & Hmc & _ & _ & Hmin).
  assert (immutable (eng s) = None /\ im = None /\ extra = [] /\ cb <= nextFlushSeq (eng s)) as (Him & -> & -> & Hcb).
  { destruct (ei_flush _ _ _ _ _ _ _ _ _ _ _ _ _ He); try congruence; by split_and!. }
  assert (nextFlushSeq (eng s) <= next_seq (eng s) /\ nextWALSeq (eng s) <= next_seq (eng s)) as [H1 H2]
    by (unfold next_seq; destruct (Z.ltb_spec (nextFlushSeq (eng s)) (nextWALSeq (eng s))); lia).
  destruct He. split_and!; try done; [lia.. |].
  intros k Hk. split.
  - destruct (dsk s !! sstName k) eqn:E; [| done]. assert (k ∈ reverse tabs.*1) as Hin.
    { apply (ds_tabs _ _ _ _ ei_disk). split; [lia | by eexists]. }
    rewrite elem_of_reverse in Hin. apply list_elem_of_fmap in Hin as (t & -> & Ht). rewrite Forall_forall in ei_tabs.
    specialize (ei_tabs t Ht). lia.
  - destruct (dsk s !! walName k) eqn:E; [| done]. assert (k ∈ (fw ++ [(cn, (D, A))]).*1) as Hin.
    { apply (ds_wals _ _ _ _ ei_disk). split; [lia | by eexists]. }
    apply list_elem_of_fmap in Hin as (x & -> & Hx). apply elem_of_app in Hx as [Hx | ->%list_elem_of_singleton].
    + rewrite Forall_forall in ei_old. specialize (ei_old x Hx). lia.
    + simpl in Hk. lia.
Qed.

(** The directory once the marker is in place. *)
Definition commit_disk (n : Z) (img : bytes) (d : disk) : disk :=
  <[restoreMarkerFileName := mkFile (String.list_byte_of_string (Itoa n)) []]>
    (delete (restoreMarkerFileName +:+ ".tmp") (<[walName n := mkFile [] []]> (<[sstName n := mkFile img []]> d))).

Lemma numbered_distinct ext k :
  small k -> Sprintf06 ext k <> restoreMarkerFileName /\ Sprintf06 ext k <> (restoreMarkerFileName +:+ ".tmp").
Proof. intros Hk. split; intros Heq; symmetry in Heq; by apply (marker_foreign ext) in Heq. Qed.

Lemma commit_lookup n img d k :
  small n -> small k ->
  commit_disk n img d !! sstName k = (if decide (k = n) then Some (mkFile img []) else d !! sstName k) /\
  commit_disk n img d !! walName k = (if decide (k = n) then Some (mkFile [] []) else d !! walName k).
Proof.
  intros Hn Hk. destruct (numbered_distinct ".sst" k Hk) as [S1 S2]. destruct (numbered_distinct ".wal" k Hk) as [W1 W2].
  unfold commit_disk, sstName, walName in *. split.
  - rewrite lookup_insert_ne, lookup_delete_ne, lookup_insert_ne by (try done; intros Heq; by apply (wal_foreign n Hn k)).
    destruct (decide (k = n)) as [-> | Hne]; [by rewrite lookup_insert_eq |]. rewrite lookup_insert_ne; [done |].
    intros Heq. by apply Sprintf06_inj in Heq.
  - rewrite lookup_insert_ne, lookup_delete_ne by done.
    destruct (decide (k = n)) as [-> | Hne]; [by rewrite lookup_insert_eq |].
    rewrite !lookup_insert_ne; [done | |]; intros Heq; [by apply (sst_foreign n Hn k) | by apply Sprintf06_inj in Heq].
Qed.

(** The engine after the commit. *)
Section commit.
Context (M : layer) (dirty : gset bytes) (s : world) (min : Z) (tabs : tables_t) (m : layer) (im : option layer).
Context (extra : tables_t) (fw : wals_t) (cn : Z) (D A : list Record.t) (cb : Z).
Context (He : einv_at M dirty s min tabs m im extra fw cn D A cb) (Hfl : flushes (eng s) = []).
Let n := next_seq (eng s).
Context (Hn : n < 10 ^ 6).

Lemma cleanup_keeps env d k name :
  n <= k < 10 ^ 6 -> name = sstName k \/ name = walName k \/ name = restoreMarkerFileName ->
  cleanup env (sstables (eng s)) (Appender.path (w (eng s))) d !! name = d !! name.
Proof.
  intros Hk Hname. destruct (quiet_free _ _ _ _ _ _ _ _ _ _ _ _ _ He Hfl) as (_ & _ & _ & Hcb & Hcn & Hn0 & _). fold n in Hcb, Hcn, Hn0.
  pose proof (einv_small _ _ _ _ _ _ _ _ _ _ _ _ _ He) as (Hscn & _ & _ & Hst & _).
  assert (small k) as Hsk by (unfold small; lia).
  destruct (cleanup_lookup env (sstables (eng s)) (Appender.path (w (eng s))) d name) as [-> | [[Heq | Heq] _]]; [done | exfalso..].
  - rewrite (wh_path _ _ _ _ _ (ei_wal _ _ _ _ _ _ _ _ _ _ _ _ _ He)) in Heq. subst name.
    destruct Hname as [Hk' | [Hk' | Hk']].
    + symmetry in Hk'. by apply (sst_foreign k Hsk cn).
    + apply Sprintf06_inj in Hk'; [lia | done | done].
    + by apply (proj1 (numbered_distinct ".wal" cn Hscn)).
  - rewrite (ei_paths _ _ _ _ _ _ _ _ _ _ _ _ _ He) in Heq. apply list_elem_of_fmap in Heq as (j & -> & Hj).
    apply list_elem_of_fmap in Hj as (t & -> & Ht). rewrite Forall_forall in Hst. specialize (Hst t Ht).
    pose proof (ei_tabs _ _ _ _ _ _ _ _ _ _ _ _ _ He) as Hlt. rewrite Forall_forall in Hlt. specialize (Hlt t Ht). simpl in *.
    destruct Hname as [Hk' | [Hk' | Hk']].
    + apply Sprintf06_inj in Hk'; [lia | done | done].
    + symmetry in Hk'. by apply (wal_foreign k Hsk t.1).
    + by apply (proj1 (numbered_distinct ".sst" t.1 Hst)).
Qed.

Lemma committed_einv env bs bf bad x :
  good_table bs bf -> Appender.path x = walName n -> Appender.winv [] [] x -> Appender.syncOnWrite x = true ->
  of_wal (Appender.file x) = mkFile [] [] ->
  einv (table_layer (concat bs)) ∅ (mkWorld
    (cleanup env (sstables (eng s)) (Appender.path (w (eng s))) (commit_disk n (table_image bs bf) (dsk s)))
    (set_flushErr None (set_numbers (n + 1) (n + 1) (set_mem (Memtable.New (rs_draws env)) (set_w x
      (set_sstables [mkTable (sstName n) (table_reader bs bf bad (sstName n))] (eng s))))))).
Proof.
  intros Hg Hp Hi Hs Hx. set (d3 := commit_disk _ _ _).
  destruct (quiet_free _ _ _ _ _ _ _ _ _ _ _ _ _ He Hfl) as (Him & _ & _ & Hcb & Hcn & Hn0 & Hfree). fold n in Hcb, Hcn, Hn0, Hfree.
  assert (small n) as Hsn by (unfold small; lia). pose proof (fun k => commit_lookup n (table_image bs bf) (dsk s) k Hsn) as Hlook.
  fold d3 in Hlook. set (d4 := cleanup _ _ _ _).
  assert (forall k, n <= k < 10 ^ 6 -> d4 !! sstName k = d3 !! sstName k /\ d4 !! walName k = d3 !! walName k) as H34
    by (intros k Hk; split; eapply cleanup_keeps; eauto).
  assert (d4 !! walName n = Some (mkFile [] [])) as Hw4
    by (rewrite (proj2 (H34 n ltac:(lia))), (proj2 (Hlook n Hsn)); by rewrite decide_True).
  assert (table_file d4 n (concat bs)) as Ht4.
  { exists bs, bf. rewrite (proj1 (H34 n ltac:(lia))), (proj1 (Hlook n Hsn)). by rewrite decide_True. }
  assert (recovers [(n, concat bs)] [(n, ([], []))] ∅ (table_layer (concat bs))) as Hrec.
  { intros Rs Hb k _. inversion Hb as [|? R ? Rs' [_ HR] Hb']; subst. inversion Hb'; subst. simpl in HR.
    apply prefix_nil_inv in HR as ->. unfold tables_layer. cbn. unfold replay_layer, replay_onto. simpl.
    by rewrite (left_id_L ∅ (∪)), (right_id_L ∅ (∪)). }
  exists n, [(n, concat bs)], ∅, None, [], [], n, [], [], (n + 1).
  assert (cache_wf (ecache (eng s))) as Hcw by (destruct He as [[] ?]; done).
  constructor; simpl; try done.
  - constructor; simpl; try done; [apply New_refines | by rewrite Him | apply NoDup_singleton |].
    repeat constructor. exists bs, bf, bad. split_and!; try done. simpl. eapply coherent_below; [done | apply He | done | done].
  - apply described_single; [done | | done | done |].
    + unfold d4. rewrite (cleanup_keeps env _ n) by (auto; lia). unfold d3, commit_disk. by rewrite lookup_insert_eq.
    + intros k Hk. destruct (H34 k ltac:(lia)) as [-> ->]. destruct (Hlook k ltac:(unfold small; lia)) as [-> ->].
      rewrite !decide_False by lia. apply Hfree. lia.
  - intros k _. unfold all_layers. simpl. by rewrite !(left_id_L ∅ (∪)), (right_id_L ∅ (∪)).
  - constructor; try done; [by rewrite Hx, Hw4 | apply prefix_nil].
  - apply fl_none; simpl; [done | done | lia].
  - pose proof (ei_cache _ _ _ _ _ _ _ _ _ _ _ _ _ He) as Hbelow. destruct (ecache (eng s)); [| done].
    intros f off e Hin. apply Hbelow in Hin as (j & Hj & Hlt & ->). exists j. split_and!; [done | lia | done].
  - repeat constructor. simpl. lia.
  - lia.
  - lia.
Qed.
End commit.

(** ** [RestoreSnapshot] *)

(** An environment in which no step fails. *)
Definition fine_restore (env : restore_env) : Prop :=
  rs_table env = Some [] /\ rs_opens env = true /\ (forall o, rs_bad env o = false) /\ is_Some (rs_wal env) /\
  me_tmp (rs_marker env) = Some [] /\ me_rename (rs_marker env) = true.

Section restore.
Context (fb : Z -> Z) (fh : Z -> Z -> Z) (Hfb : forall n, 0 <= fb n <= Bloom.maxAlloc).

Lemma write_sst_fine name bsz es d : sorted (Block.key <$> es) -> snd (write_sst fb fh name bsz (Some []) es d) = Ok tt.
Proof.
  intros Hs. unfold write_sst. cbn [NewWriter]. pose proof (new_writer_inv name bsz []) as Hi.
  destruct (add_all_healthy es [] [] (new_writer name bsz []) Hi eq_refl ltac:(done) Hs) as (x & Ha & Hh).
  rewrite Ha. destruct (add_all_spec es [] [] _ _ Hi eq_refl Ha) as (bs & cur & Hw & Hcl & Heq). simpl in Heq.
  by destruct (Finish_healthy fb fh bs cur x ltac:(by rewrite Heq) Hw Hh Hcl) as (x' & meta & ->).
Qed.

(** The snapshot's table is written and reopened, or the call fails. *)
Lemma snapshot_table env n bsz es d :
  NoDup (se_key <$> es) ->
  match write_sst fb fh (sstName n) bsz (rs_table env) (number_entries 0 (merge_sort se_le es)) d with
  | (d1, Ok _) => fits d1 ->
      exists bs bf, d1 = <[sstName n := mkFile (table_image bs bf) []]> d /\ good_table bs bf /\
        table_layer (concat bs) = restored es /\
        match reopen (mkRunEnv None (rs_opens env) (rs_bad env) false) (sstName n) d1 with
        | (d2, Ok r) => d2 = d1 /\ r = table_reader bs bf (rs_bad env) (sstName n)
        | (d2, Err _) => ~ fine_restore env
        | (d2, Panic) => False
        end
  | (_, Err _) => ~ fine_restore env
  | (_, Panic) => False
  end.
Proof.
  intros Hnd. set (l := number_entries 0 _).
  assert (sorted (Block.key <$> l)) as Hs by (unfold l; rewrite number_entries_keys; by apply merged_sorted).
  destruct (write_sst fb fh (sstName n) bsz (rs_table env) l d) as [d1 [[]|e|]] eqn:Hw.
  - intros Hfit. destruct (write_sst_good fb fh Hfb _ _ _ _ _ _ Hw (number_entries_seq _ _) Hfit) as (bs & bf & -> & Hg & Hcon).
    exists bs, bf. split_and!; [done | done | by rewrite Hcon |]. unfold reopen. cbn [re_opens re_bad].
    destruct (rs_opens env) eqn:Hop; [| intros (_ & ? & _); congruence].
    rewrite (source_of_synced _ _ (table_image bs bf)) by (by rewrite lookup_insert_eq). pose proof Hg as Hg'. destruct Hg'.
    destruct (Open_cases bs bf (rs_bad env) (sstName n)) as [-> | [[e ->] [o Ho]]]; [done.. |].
    intros (_ & _ & Hb & _). specialize (Hb o). congruence.
  - intros (Ht & _). rewrite Ht in Hw. pose proof (write_sst_fine (sstName n) bsz l d Hs) as Hok. rewrite Hw in Hok. done.
  - by eapply write_sst_no_panic.
Qed.

Lemma RestoreSnapshot_spec M dirty s env es :
  einv M dirty s -> eclosed (eng s) = false -> flushes (eng s) = [] -> next_seq (eng s) < 10 ^ 6 ->
  len (snapshot_bytes es) < 2 ^ 32 -> NoDup (se_key <$> es) ->
  fits (fst (write_sst fb fh (sstName (next_seq (eng s))) (SSTableBlockSize (opts (eng s))) (rs_table env)
               (number_entries 0 (merge_sort se_le es)) (dsk s))) ->
  match RestoreSnapshot fb fh env (snapshot_bytes es) s with
  | (s', Ok _) => einv (restored es) ∅ s' /\ eclosed (eng s') = false /\ flushes (eng s') = [] /\ flushErr (eng s') = None /\
      (fine_restore env -> Forall healthy_table (sstables (eng s')))
  | (_, Err _) => ~ fine_restore env
  | (_, Panic) => False
  end.
Proof.
  intros (min & tabs & m & im & extra & fw & cn & D & A & cb & He) Hcl Hfl Hlim Hlen Hnd Hfit.
  destruct (quiet_free _ _ _ _ _ _ _ _ _ _ _ _ _ He Hfl) as (Him & _ & _ & _ & _ & Hn0 & Hfree).
  set (n := next_seq (eng s)) in *. unfold RestoreSnapshot. bind1. unfold field, reads. rewrite Hcl. bind1. rewrite Him. bind1.
  unfold wrap, lift. rewrite (decode_snapshot_bytes es Hlen). cbn [res_wrap]. bind1. bind1.
  change (if nextFlushSeq (eng s) <? nextWALSeq (eng s) then nextWALSeq (eng s) else nextFlushSeq (eng s)) with n.
  bind1. unfold on_disk at 1.
  pose proof (snapshot_table env n (SSTableBlockSize (opts (eng s))) es (dsk s) Hnd) as Ht.
  destruct (write_sst _ _ _ _ _ _ (dsk s)) as [d1 [[]|e|]]; cbn [res_wrap]; [| exact Ht | exact Ht].
  destruct (Ht Hfit) as (bs & bf & -> & Hg & Hlay & Hre). bind1. unfold on_disk at 1. cbn [dsk eng].
  destruct (reopen _ _ _) as [d2 [r|e|]]; cbn [res_wrap]; [| done | done]. destruct Hre as [-> ->].
  bind1. unfold on_disk at 1. cbn [dsk eng].
  destruct (rs_wal env) as [fs|] eqn:Hrw.
  2:{ cbn [openWAL res_wrap]. intros (_ & _ & _ & [? Hf] & _). congruence. }
  assert (small n) as Hsn by (unfold small; lia).
  assert (<[sstName n := mkFile (table_image bs bf) []]> (dsk s) !! walName n = None) as Hnone.
  { rewrite lookup_insert_ne; [apply Hfree; lia |]. intros Heq. by apply (sst_foreign n Hsn n). }
  destruct (open_handle _ n fs Hnone) as (x & -> & Hh & _ & _). cbn [res_wrap]. bind1. unfold on_disk at 1. cbn [dsk eng].
  unfold on_error. pose proof (marker_total (rs_marker env) n (<[walName n := mkFile [] []]> (<[sstName n := mkFile (table_image bs bf) []]> (dsk s)))) as [Hmp Hmf].
  destruct (writeRestoreMarkerAtomically _ _ _) as [d3 [[]|e|]] eqn:Hmk; cbn [res_wrap]; [| | done].
  2:{ intros (_ & _ & _ & _ & Hf1 & Hf2). specialize (Hmf Hf1 Hf2). done. }
  apply marker_written in Hmk as ->. bind1. bind1. bind1. unfold update, modify, on_disk. cbn [dsk eng].
  rewrite <- Hlay. split_and!; try done.
  - eapply (committed_einv M dirty s min tabs m im extra fw cn D A cb He Hfl Hlim env bs bf (rs_bad env) x Hg); try apply Hh.
    pose proof (wh_disk _ _ _ _ _ Hh) as Hd. rewrite lookup_insert_eq in Hd. symmetry. exact (inj Some _ _ Hd).
  - intros (_ & _ & Hb & _). repeat constructor. intros o. apply Hb.
Qed.
End restore.
