(* ===== verification/EngineRun.v ===== *)
(** * Runs of a store

    A store is a running engine or just its directory.  The steps are the
    engine's methods, the stages of its flush goroutine, crashes and restarts;
    beside them an abstract map is updated, and the set of keys whose last
    write was reported as failed. *)

From Stdlib Require Import Strings.Byte Strings.String.
From stdpp Require Import sorting.
From S2P Require Import Prelude GoBytes GoSort GoFmt GoState Wal SkipList Memtable Bloom BlockCache SSTableFormat SSTableWriter SSTableReader SSTable Engine EngineLayers EngineDisk EngineReplay EngineSpec EngineInv EngineOpen EngineWrite EngineFlush EngineSnapshot EngineRestore.

(** ** The abstract store *)

Abbreviation kv := (gmap bytes bytes).

Definition kv_get (K : kv) (k : bytes) : bytes * bool :=
  match K !! k with Some v => (v, true) | None => ([], false) end.
Definition kv_op (K : kv) (op : BatchOp) : kv :=
  if op_deleted op then delete (op_key op) K else <[op_key op := op_value op]> K.
Definition kv_batch (K : kv) (ops : list BatchOp) : kv := fold_left kv_op ops K.
Definition kv_of (es : list snapshotEntry) : kv := list_to_map (map (fun e => (se_key e, se_value e)) es).

Definition agrees (M : layer) (K : kv) : Prop := forall k, answer_in M k = kv_get K k.

Lemma agrees_batch ops : forall seq recs next M K,
  number_ops seq ops = (recs, next) -> agrees M K -> agrees (replay_onto M recs) (kv_batch K ops).
Proof.
  induction ops as [|op ops IH]; intros seq recs next M K; cbn [number_ops]; [by intros [= <- _] |].
  destruct (number_ops (inc64 seq) ops) as [recs' next'] eqn:E. intros [= <- _] HM.
  unfold replay_onto, kv_batch in *. cbn [fold_left]. eapply IH; [exact E |]. intros k.
  unfold answer_in, kv_get, kv_op, rec_pair. cbn. destruct (op_deleted op); cbn.
  - rewrite bool_decide_eq_true_2 by done. cbn. destruct (decide (op_key op = k)) as [<- | Hne].
    + by rewrite lookup_insert_eq, lookup_delete_eq.
    + rewrite lookup_insert_ne, lookup_delete_ne by done. apply HM.
  - rewrite bool_decide_eq_false_2 by done. cbn. destruct (decide (op_key op = k)) as [<- | Hne].
    + by rewrite !lookup_insert_eq.
    + rewrite !lookup_insert_ne by done. apply HM.
Qed.

Lemma kv_of_lookup es k v :
  NoDup (se_key <$> es) -> kv_of es !! k = Some v <-> mkSnapshotEntry k v ∈ es.
Proof.
  intros Hnd. unfold kv_of. rewrite <- elem_of_list_to_map.
  - rewrite list_elem_of_fmap. split; [by intros ([] & [= -> ->] & ?) | by exists (mkSnapshotEntry k v)].
  - replace (map (fun e => (se_key e, se_value e)) es).*1 with (se_key <$> es); [done |].
    induction es as [|e es IH]; [done |]. cbn. f_equal. apply IH. by apply NoDup_cons in Hnd as [_ ?].
Qed.

Lemma agrees_restored es : NoDup (se_key <$> es) -> agrees (restored es) (kv_of es).
Proof.
  intros Hnd k. unfold kv_get. destruct (kv_of es !! k) as [v|] eqn:E.
  - apply restored_answer; [done |]. by apply kv_of_lookup.
  - destruct (answer_in (restored es) k) as [v f] eqn:Ha. destruct f.
    + apply restored_answer, kv_of_lookup in Ha; [| done..]. congruence.
    + unfold answer_in in Ha. destruct (restored es !! k) as [[[v' []] sq]|]; by simplify_eq/=.
Qed.

Lemma kv_of_agrees es M K :
  NoDup (se_key <$> es) -> agrees M K -> (forall k v, mkSnapshotEntry k v ∈ es <-> answer_in M k = (v, true)) ->
  forall k, kv_get (kv_of es) k = kv_get K k.
Proof.
  intros Hnd HM Hes k. rewrite <- HM. unfold kv_get. destruct (kv_of es !! k) as [v|] eqn:E.
  - symmetry. by apply Hes, kv_of_lookup.
  - destruct (answer_in M k) as [v f] eqn:Ha. destruct f.
    + apply Hes, kv_of_lookup in Ha; [| done]. congruence.
    + unfold answer_in in Ha. destruct (M !! k) as [[[v' []] sq]|]; by simplify_eq/=.
Qed.

(** ** Steps *)

Inductive store :=
  | Up (s : world)
  | Down (d : disk).

(** The next log's name has six digits. *)
Definition free_number (d : disk) : Prop :=
  forall min, snd (readRestoreMarker true d) = Ok min -> next_number (numbers ".wal" min d) < 10 ^ 6.

(** Replaying meets no read errors. *)
Definition readable (env : open_env) : Prop := forall name, oe_replay_fault env name = None.

(** No table write has failed. *)
Definition unfailed (e : Engine) : Prop := Forall (fun f => forall err, fl_stage f <> Written (Err err)) (flushes e).

Section run.
Context (fb : Z -> Z) (fh : Z -> Z -> Z) (Hfb : forall n, 0 <= fb n <= Bloom.maxAlloc).

(** Every method of the engine, the stages of its flush goroutine, failing and
    half-done [Open]s, crashes between two steps.  Left out, since the code does
    not keep its promises there (see [EngineFindings]): a table write that fails
    or is interrupted by a crash, a flush that starts while the goroutine of the
    one before is still alive, a [RestoreSnapshot] that fails, read errors while
    logs are replayed, file numbers with seven digits. *)
Inductive step : store -> kv -> gset bytes -> store -> kv -> gset bytes -> Prop :=
  | step_open env o d d' r K dirty :
      readable env -> free_number d -> Open env o d = (d', r) ->
      step (Down d) K dirty (match r with Ok e => Up (mkWorld d' e) | _ => Down d' end) K dirty
  | step_get k s s' r K dirty : Get k s = (s', r) -> step (Up s) K dirty (Up s') K dirty
  | step_applied env waited ops s s' K dirty :
      Forall Record.wf (batch_records s ops) -> nextWALSeq (eng s) < 10 ^ 6 ->
      ApplyBatch env waited ops s = Some (s', Ok tt) -> (length (flushes (eng s')) <= 1)%nat ->
      step (Up s) K dirty (Up s') (kv_batch K ops) (dirty ∖ op_keys ops)
  | step_refused env waited ops s s' e K dirty :
      Forall Record.wf (batch_records s ops) -> nextWALSeq (eng s) < 10 ^ 6 ->
      ApplyBatch env waited ops s = Some (s', Err e) ->
      step (Up s) K dirty (Up s') K (dirty ∪ op_keys ops)
  | step_flush env waited s s' r K dirty :
      nextWALSeq (eng s) < 10 ^ 6 -> Flush env waited s = Some (s', r) -> (length (flushes (eng s')) <= 1)%nat ->
      step (Up s) K dirty (Up s') K dirty
  | step_run env i s s' r K dirty :
      nextFlushSeq (eng s) <= 10 ^ 6 -> runFlush fb fh env i s = Some (s', r) -> fits (dsk s') -> unfailed (eng s') ->
      step (Up s) K dirty (Up s') K dirty
  | step_snapshot order s s' r K dirty :
      (forall l, order l ≡ₚ l) -> Snapshot order s = (s', r) -> step (Up s) K dirty (Up s') K dirty
  | step_restore env es s s' K dirty :
      flushes (eng s) = [] -> next_seq (eng s) < 10 ^ 6 -> len (snapshot_bytes es) < 2 ^ 32 -> NoDup (se_key <$> es) ->
      fits (fst (write_sst fb fh (sstName (next_seq (eng s))) (SSTableBlockSize (opts (eng s))) (rs_table env)
                   (number_entries 0 (merge_sort se_le es)) (dsk s))) ->
      RestoreSnapshot fb fh env (snapshot_bytes es) s = (s', Ok tt) ->
      step (Up s) K dirty (Up s') (kv_of es) ∅
  | step_close s s' r K dirty : Close s = (s', r) -> step (Up s) K dirty (Up s') K dirty
  | step_closed s s' r K dirty : closed_down s = Some (s', r) -> step (Up s) K dirty (Up s') K dirty
  | step_exit s K dirty : step (Up s) K dirty (Down (dsk s)) K dirty
  | step_crash d d' K dirty : crash d d' -> step (Down d) K dirty (Down d') K dirty.

(** Reachable from an empty directory. *)
Inductive reach : store -> kv -> gset bytes -> Prop :=
  | reach_new : reach (Down ∅) ∅ ∅
  | reach_step x K dirty x' K' dirty' : reach x K dirty -> step x K dirty x' K' dirty' -> reach x' K' dirty'.

(** ** The invariant *)

Definition inv (x : store) (K : kv) (dirty : gset bytes) : Prop :=
  exists M, agrees M K /\
    match x with
    | Up s => einv M dirty s
    | Down d => exists min tabs wals, described d min tabs wals /\ recovers tabs wals dirty M
    end.

Lemma inv_new : inv (Down ∅) ∅ ∅.
Proof.
  exists ∅. split; [done |]. exists 0, [], []. split.
  - assert (forall ext, has_files ext 0 ∅ []) as Hnone.
    { intros ext. split; [constructor |]. intros n. rewrite elem_of_nil. split; [done |]. intros [_ [f Hf]]. done. }
    constructor; try done; by first [left | split].
  - intros Rs Hb k _. inversion Hb; subst. done.
Qed.

Lemma free_number_spec d min tabs wals : described d min tabs wals -> free_number d -> next_number wals.*1 < 10 ^ 6.
Proof.
  intros Hds Hf. destruct (readRestoreMarker_spec d min true (ds_marker _ _ _ _ Hds)) as [Hm | [? _]]; [| done].
  specialize (Hf min). rewrite Hm in Hf. specialize (Hf eq_refl).
  rewrite (numbers_spec ".wal" min d wals.*1) in Hf; [done | apply (ds_marker _ _ _ _ Hds) | apply (ds_wals _ _ _ _ Hds)].
Qed.

Lemma einv_down M dirty s : einv M dirty s -> exists min tabs wals, described (dsk s) min tabs wals /\ recovers tabs wals dirty M.
Proof. intros (min & tabs & m & im & extra & fw & cn & D & A & cb & He). destruct He. eauto. Qed.

Lemma closed_snapshot M dirty s order s' r :
  einv M dirty s -> (forall l, order l ≡ₚ l) -> Snapshot order s = (s', r) -> einv M dirty s'.
Proof.
  intros He Hord. destruct (eclosed (eng s)) eqn:Hcl.
  - unfold Snapshot. bind1. unfold field, reads. rewrite Hcl. by intros [= <- _].
  - destruct (einv_Snapshot M dirty s order He Hcl Hord) as (s2 & a & -> & He2 & _). by intros [= <- _].
Qed.

Lemma closed_get M dirty s k s' r : einv M dirty s -> Get k s = (s', r) -> einv M dirty s'.
Proof.
  intros He. destruct (eclosed (eng s)) eqn:Hcl.
  - unfold Get. bind1. unfold field, reads. rewrite Hcl. by intros [= <- _].
  - destruct (einv_Get M dirty s k He Hcl) as (s2 & a & -> & He2 & _). by intros [= <- _].
Qed.

Lemma open_restore env data s s' : RestoreSnapshot fb fh env data s = (s', Ok tt) -> eclosed (eng s) = false.
Proof. unfold RestoreSnapshot. bind1. unfold field, reads. by destruct (eclosed (eng s)). Qed.

Lemma inv_step x K dirty x' K' dirty' : inv x K dirty -> step x K dirty x' K' dirty' -> inv x' K' dirty'.
Proof.
  intros (M & HM & Hx) Hs. destruct Hs.
  - destruct Hx as (min & tabs & wals & Hds & Hrec).
    pose proof (Open_spec env o d min tabs wals dirty M Hds Hrec H (free_number_spec _ _ _ _ Hds H0)) as Hspec.
    rewrite H1 in Hspec. exists M. split; [done |]. destruct r; [by destruct Hspec | | done].
    destruct Hspec as [(wals' & Hds' & Hrec') _]. by exists min, tabs, wals'.
  - exists M. split; [done |]. by eapply closed_get.
  - exists (replay_onto M (batch_records s ops)). split.
    { unfold batch_records. destruct (number_ops (nextSeq (eng s)) ops) as [recs next] eqn:E. by eapply agrees_batch. }
    unfold ApplyBatch, unless_flushing in H1. destruct (immutable (eng s)); [done |]. injection H1 as H1.
    pose proof (applyLocked_spec M dirty s env waited ops Hx H H0) as Hspec. rewrite H1 in Hspec. by apply Hspec.
  - exists M. split; [done |]. unfold ApplyBatch, unless_flushing in H1. destruct (immutable (eng s)); [done |]. injection H1 as H1.
    pose proof (applyLocked_spec M dirty s env waited ops Hx H H0) as Hspec. by rewrite H1 in Hspec.
  - exists M. split; [done |]. by eapply (Flush_einv M dirty s env waited).
  - exists M. split; [done |]. by eapply (runFlush_spec fb fh Hfb M dirty s env i).
  - exists M. split; [done |]. by eapply closed_snapshot.
  - exists (restored es). split; [by apply agrees_restored |].
    pose proof (RestoreSnapshot_spec fb fh Hfb M dirty s env es Hx (open_restore _ _ _ _ H4) H H0 H1 H2 H3) as Hspec.
    rewrite H4 in Hspec. by destruct Hspec.
  - exists M. split; [done |]. destruct (close_einv M dirty s Hx) as (s2 & Hc & He2). rewrite H in Hc. by injection Hc as -> _.
  - exists M. split; [done |]. by eapply closed_down_einv.
  - exists M. split; [done |]. by apply einv_down.
  - exists M. split; [done |]. destruct Hx as (min & tabs & wals & Hds & Hrec). exists min, tabs, wals.
    split; [by eapply crash_described | done].
Qed.

Lemma inv_reach x K dirty : reach x K dirty -> inv x K dirty.
Proof. induction 1; [apply inv_new | by eapply inv_step]. Qed.
(** The files of a store. *)
Definition files_of (x : store) : disk := match x with Up s => dsk s | Down d => d end.

Lemma inv_recovers x K dirty d env o :
  inv x K dirty -> crash (files_of x) d -> fine env -> readable env -> free_number d ->
  exists d' e, Open env o d = (d', Ok e) /\ eclosed e = false /\ Forall healthy_table (sstables e) /\ inv (Up (mkWorld d' e)) K dirty.
Proof.
  intros (M & HM & Hx) Hc Hfine Hr Hfree.
  assert (exists min tabs wals, described d min tabs wals /\ recovers tabs wals dirty M) as (min & tabs & wals & Hds & Hrec).
  { destruct x as [s|d0]; [apply einv_down in Hx |]; destruct Hx as (min & tabs & wals & Hds & Hrec); exists min, tabs, wals;
      (split; [by eapply crash_described | done]). }
  pose proof (Open_spec env o d min tabs wals dirty M Hds Hrec Hr (free_number_spec _ _ _ _ Hds Hfree)) as Hspec.
  destruct (Open env o d) as [d' [e|err|]]; [| by destruct Hspec | done].
  destruct Hspec as (He & Hcl & _ & _ & Hh). exists d', e. split_and!; [done | done | by apply Hh |]. by exists M.
Qed.

Lemma inv_get s K dirty k :
  inv (Up s) K dirty -> eclosed (eng s) = false -> k ∉ dirty ->
  exists s' a, Get k s = (s', a) /\
    (a = Ok (kv_get K k) \/ ((exists e, a = Err e) /\ ~ Forall healthy_table (sstables (eng s)))).
Proof.
  intros (M & HM & He) Hcl Hk. destruct (einv_Get M dirty s k He Hcl) as (s' & a & Hget & _ & _ & _ & _ & Ha).
  exists s', a. split; [done |]. rewrite <- HM. by apply Ha.
Qed.

(** Stages of the only goroutine, one after the other. *)
Fixpoint run_all (envs : list run_env) (s : world) : world :=
  match envs with
  | [] => s
  | env :: envs => match runFlush fb fh env 0 s with Some (s', _) => run_all envs s' | None => s end
  end.

Lemma run_all_idle envs s : flushes (eng s) = [] -> run_all envs s = s.
Proof. intros H. destruct envs as [|env envs]; [done |]. cbn [run_all]. unfold runFlush. by rewrite H. Qed.

Lemma removing_done env s f :
  flushes (eng s) = [f] -> fl_stage f = Removing ->
  exists s' r, runFlush fb fh env 0 s = Some (s', r) /\ flushes (eng s') = [] /\ immutable (eng s') = immutable (eng s).
Proof.
  intros Hf Hst. unfold runFlush. rewrite Hf. cbn. rewrite Hst. unfold removeFile.
  destruct (dsk s !! _); [destruct (re_remove env) |]; eexists _, _; (split; [reflexivity | done]).
Qed.

Lemma run_all_cons env envs s s' r : runFlush fb fh env 0 s = Some (s', r) -> run_all (env :: envs) s = run_all envs s'.
Proof. intros H. cbn [run_all]. by rewrite H. Qed.

Lemma closing_done env1 env2 envs s f :
  flushes (eng s) = [f] -> fl_stage f = Closing ->
  flushes (eng (run_all (env1 :: env2 :: envs) s)) = [] /\
  immutable (eng (run_all (env1 :: env2 :: envs) s)) = immutable (eng s).
Proof.
  intros Hf Hst. destruct (Appender.Close (fl_wal f)) as [x err] eqn:Hc.
  assert (exists s1 r, runFlush fb fh env1 0 s = Some (s1, r) /\ immutable (eng s1) = immutable (eng s) /\
    (flushes (eng s1) = [] \/ flushes (eng s1) = [mkFlush Removing x (fl_seq f)])) as (s1 & r & Hr & Him & Hs1).
  { unfold runFlush. rewrite Hf. cbn. rewrite Hst, Hc. destruct err; eexists _, _; (split; [reflexivity | auto]). }
  rewrite (run_all_cons _ _ _ _ _ Hr). destruct Hs1 as [Hs1 | Hs1]; [by rewrite run_all_idle |].
  destruct (removing_done env2 s1 _ Hs1 eq_refl) as (s2 & r2 & Hr2 & H2 & H3).
  rewrite (run_all_cons _ _ _ _ _ Hr2), run_all_idle by done. by rewrite H3.
Qed.

Lemma written_done env1 env2 env3 envs s f r :
  flushes (eng s) = [f] -> fl_stage f = Written r -> r <> Panic ->
  flushes (eng (run_all (env1 :: env2 :: env3 :: envs) s)) = [] /\
  immutable (eng (run_all (env1 :: env2 :: env3 :: envs) s)) = None.
Proof.
  intros Hf Hst Hr.
  assert (exists s1 r, runFlush fb fh env1 0 s = Some (s1, r) /\ immutable (eng s1) = None /\
    (flushes (eng s1) = [] \/ flushes (eng s1) = [mkFlush Closing (fl_wal f) (fl_seq f)])) as (s1 & r1 & Hr1 & Him & Hs1).
  { unfold runFlush. rewrite Hf. cbn. rewrite Hst. destruct r; [.. | done]; eexists _, _; (split; [reflexivity | auto]). }
  rewrite (run_all_cons _ _ _ _ _ Hr1). destruct Hs1 as [Hs1 | Hs1]; [by rewrite run_all_idle |].
  rewrite <- Him. by apply (closing_done env2 env3 envs s1 _ Hs1).
Qed.

(** However the steps of a flush turn out, four of them finish it. *)
Lemma inv_flush_done s K dirty e1 e2 e3 e4 :
  inv (Up s) K dirty -> fits (dsk (run_all [e1] s)) ->
  flushes (eng (run_all [e1; e2; e3; e4] s)) = [] /\ immutable (eng (run_all [e1; e2; e3; e4] s)) = None.
Proof.
  intros (M & _ & min & tabs & m & im & extra & fw & cn & D & A & cb & He) Hfit.
  destruct (ei_flush _ _ _ _ _ _ _ _ _ _ _ _ _ He) as [Hf Him | frozen x n fm fn FD FA Hf Him Href Hseq _ _ Hn
    | rd frozen x n es fn FD FA Hf _ _ _ _ _ | stg x n fn FD FA Hf Hst Him _ _ | x Hf Him _ _].
  - by rewrite run_all_idle.
  - destruct (frozen_entries frozen fm Href Hseq) as (es & Hes & _ & Hsq).
    assert (exists s1 r, runFlush fb fh e1 0 s = Some (s1, Ok tt) /\ r <> Panic /\
      flushes (eng s1) = [mkFlush (Written r) x n]) as (s1 & r & Hr & Hp & Hs1).
    { unfold runFlush. rewrite Hf. cbn. unfold st_bind, writeSSTableFromMemtable, wrap, reopen.
      unfold st_bind, lift. rewrite Hes. cbn [run_all] in Hfit. revert Hfit. unfold runFlush. rewrite Hf. cbn.
      unfold st_bind, writeSSTableFromMemtable, wrap, reopen. unfold st_bind, lift. rewrite Hes.
      destruct (write_sst fb fh (sstName n) _ _ _ (dsk s)) as [d1 rw] eqn:Hw. destruct rw as [[]|e|].
      - intros Hfit. cbn in Hfit. destruct (write_sst_good fb fh Hfb _ _ _ _ _ _ Hw Hsq Hfit) as (bs & bf & -> & Hg & _).
        eexists _, _. split; [reflexivity |]. split; [| reflexivity]. destruct (re_opens e1); [| done].
        rewrite (source_of_synced _ _ (table_image bs bf)) by (by rewrite lookup_insert_eq). destruct Hg.
        by destruct (Open_cases bs bf (re_bad e1) (sstName n)) as [-> | [[e ->] _]].
      - intros _. eexists _, _. split; [reflexivity |]. split; [| reflexivity]. done.
      - exfalso. by eapply write_sst_no_panic. }
    rewrite (run_all_cons _ _ _ _ _ Hr). by eapply (written_done e2 e3 e4 []).
  - by eapply (written_done e1 e2 e3 [e4]).
  - destruct Hst as [-> | ->]; [rewrite <- Him; by eapply (closing_done e1 e2 [e3; e4]) |].
    destruct (removing_done e1 s _ Hf eq_refl) as (s1 & r & Hr & H2 & H3).
    rewrite (run_all_cons _ _ _ _ _ Hr), run_all_idle by done. by rewrite H3.
  - by rewrite run_all_idle.
Qed.
End run.
