(* ===== verification/EngineProps.v ===== *)
(** * What the storage engine promises *)

From Stdlib Require Import Strings.Byte Strings.String.
From stdpp Require Import sorting.
From S2P Require Import Prelude GoBytes GoSort GoFmt GoState Wal SkipList Memtable Bloom BlockCache SSTableFormat SSTableWriter SSTableReader SSTable Engine EngineLayers EngineDisk EngineReplay EngineSpec EngineInv EngineOpen EngineWrite EngineFlush EngineSnapshot EngineRestore EngineRun.

(** ** A small run *)

Definition no_faults : option (list (option nat)) := Some [].
Definition fine_open : open_env :=
  mkOpenEnv true true true true (fun _ => true) (fun _ _ => false) (fun _ => None) (fun _ => false) [] no_faults (fun _ => true).
Definition fine_flush : flush_env := mkFlushEnv no_faults [].
Definition fine_run : run_env := mkRunEnv no_faults true (fun _ => false) true.
Definition sized_bits (_ : Z) : Z := 64.
Definition demo_opts : Options := mkOptions 0 0 0.

(** The state after a step that is known to happen. *)
Definition taken {A} (s : world) (x : option (world * res A)) : world := match x with Some (s', _) => s' | None => s end.
Definition started (o : Options) (d : disk) : world :=
  match Open fine_open o d with
  | (d', Ok e) => mkWorld d' e
  | (d', _) => mkWorld d' (mkEngine o (Appender.Open "" true {| Appender.synced := []; Appender.cached := []; Appender.script := [] |})
                            (Memtable.New []) None None None [] 0 0 0 true [])
  end.

Definition run_steps (n : nat) (s : world) : world := run_all sized_bits demo_hashes (replicate n fine_run) s.
Definition put (k v : bytes) (s : world) : world := taken s (Put fine_flush false k v s).
Definition del (k : bytes) (s : world) : world := taken s (Delete fine_flush false k s).
Definition flush_start (s : world) : world := taken s (Flush fine_flush false s).

Definition ka : bytes := [x61].
Definition kb : bytes := [x62].

(** A write, a flush of it, an overwrite and a second key. *)
Definition run1 : world := put ka [x31] (started demo_opts ∅).
Definition run2 : world := run_steps 4 (flush_start run1).
Definition run3 : world := put kb [x33] (put ka [x32] run2).

Example run3_reads :
  (snd (Get ka run3), snd (Get kb run3), length (sstables (eng run3))) = (Ok ([x32], true), Ok ([x33], true), 1%nat).
Proof. vm_compute. reflexivity. Qed.

Abbreviation reached := (reach sized_bits demo_hashes).

Lemma sized_bits_ok n : 0 <= sized_bits n <= Bloom.maxAlloc.
Proof. vm_compute. split; congruence. Qed.

Lemma free_none : free_number ∅.
Proof. intros min H. vm_compute in H. injection H as <-. vm_compute. reflexivity. Qed.

Lemma started_reach : reached (Up (started demo_opts ∅)) ∅ ∅.
Proof.
  eapply reach_step; [apply reach_new |].
  assert (Up (started demo_opts ∅) = match snd (Open fine_open demo_opts ∅) with
    | Ok e => Up (mkWorld (fst (Open fine_open demo_opts ∅)) e) | _ => Down (fst (Open fine_open demo_opts ∅)) end) as ->
    by (vm_compute; reflexivity).
  eapply (step_open _ _ fine_open demo_opts); [by intros ? | apply free_none |]. apply surjective_pairing.
Qed.

(** One step of a concrete run; the side conditions are computed. *)
Ltac computed := vm_compute; first [reflexivity | repeat split; congruence | repeat constructor; congruence].

Lemma reach_put s k v K dirty :
  reached (Up s) K dirty -> Forall Record.wf (batch_records s [mkOp k v false]) -> nextWALSeq (eng s) < 10 ^ 6 ->
  Put fine_flush false k v s = Some (put k v s, Ok tt) -> (length (flushes (eng (put k v s))) <= 1)%nat ->
  reached (Up (put k v s)) (<[k := v]> K) (dirty ∖ {[k]}).
Proof.
  intros Hr Hwf Hn Hp Hl. eapply reach_step; [exact Hr |].
  replace {[k]} with (op_keys [mkOp k v false]) by (unfold op_keys; cbn; set_solver).
  change (<[k := v]> K) with (kv_batch K [mkOp k v false]). by eapply (step_applied _ _ fine_flush false).
Qed.

Lemma run1_reach : reached (Up run1) {[ka := [x31]]} ∅.
Proof.
  replace (∅ : gset bytes) with ((∅ : gset bytes) ∖ {[ka]}) by set_solver.
  apply (reach_put (started demo_opts ∅) ka [x31] ∅ ∅ started_reach); [| computed..].
  repeat constructor; computed.
Qed.

Lemma reach_flush s K dirty r :
  reached (Up s) K dirty -> nextWALSeq (eng s) < 10 ^ 6 -> Flush fine_flush false s = Some (flush_start s, r) ->
  (length (flushes (eng (flush_start s))) <= 1)%nat -> reached (Up (flush_start s)) K dirty.
Proof. intros Hr Hn Hf Hl. eapply reach_step; [exact Hr |]. by eapply (step_flush _ _ fine_flush false). Qed.

Lemma reach_run s K dirty r :
  reached (Up s) K dirty -> nextFlushSeq (eng s) <= 10 ^ 6 ->
  runFlush sized_bits demo_hashes fine_run 0 s = Some (run_steps 1 s, r) ->
  bool_decide (fits (dsk (run_steps 1 s))) = true -> unfailed (eng (run_steps 1 s)) -> reached (Up (run_steps 1 s)) K dirty.
Proof. intros Hr Hn Hf Hfit Hu. eapply reach_step; [exact Hr |]. apply bool_decide_eq_true_1 in Hfit. by eapply step_run. Qed.

Lemma run2_reach : reached (Up run2) {[ka := [x31]]} ∅.
Proof.
  assert (reached (Up (flush_start run1)) {[ka := [x31]]} ∅) as H0
    by (eapply reach_flush; [exact run1_reach | computed..]).
  assert (run2 = run_steps 1 (run_steps 1 (run_steps 1 (run_steps 1 (flush_start run1))))) as -> by (vm_compute; reflexivity).
  do 4 (eapply reach_run; [| computed..]). exact H0.
Qed.

Lemma run3_reach : reached (Up run3) {[kb := [x33]; ka := [x32]]} ∅.
Proof.
  assert (reached (Up (put ka [x32] run2)) (<[ka := [x32]]> {[ka := [x31]]}) (∅ ∖ {[ka]})) as H1.
  { apply (reach_put run2 ka [x32] _ _ run2_reach); [repeat constructor; computed | computed..]. }
  replace (∅ : gset bytes) with (((∅ : gset bytes) ∖ {[ka]}) ∖ {[kb]}) by set_solver.
  replace ({[kb := [x33]; ka := [x32]]} : kv) with (<[kb := [x33]]> (<[ka := [x32]]> ({[ka := [x31]]} : kv)))
    by (by rewrite insert_singleton_eq).
  apply (reach_put (put ka [x32] run2) kb [x33] _ _ H1); [repeat constructor; computed | computed..].
Qed.

(** ** Reading *)

(** C11: The engine is a map.  After any run of batches (failed ones included),
    flushes, background stages, snapshots, restores, crashes and restarts in
    which no table write fails or is cut off by a crash, no restore fails, replaying
    a log meets no read error, no flush starts before the one before has ended,
    and sizes and file numbers stay within the formats ([EngineRun.step]), [Get]
    of an engine that is not closed answers as the abstract map to which the acknowledged batches were applied,
    for every key whose last write was not reported as failed; only a table
    whose blocks cannot be read makes it fail instead. *)
Theorem engine_refines_map fb fh s K dirty k :
  (forall n, 0 <= fb n <= Bloom.maxAlloc) -> reach fb fh (Up s) K dirty -> eclosed (eng s) = false -> k ∉ dirty ->
  exists s' a, Get k s = (s', a) /\
    (a = Ok (kv_get K k) \/ ((exists e, a = Err e) /\ ~ Forall healthy_table (sstables (eng s)))).
Proof. intros Hfb Hr Hcl Hk. eapply inv_get; [by eapply inv_reach | done | done]. Qed.

Lemma engine_refines_map_witness :
  exists s' a, Get ka run3 = (s', a) /\
    (a = Ok (kv_get {[kb := [x33]; ka := [x32]]} ka) \/ ((exists e, a = Err e) /\ ~ Forall healthy_table (sstables (eng run3)))).
Proof.
  apply (engine_refines_map sized_bits demo_hashes run3 _ ∅ ka sized_bits_ok run3_reach); [vm_compute; reflexivity | set_solver].
Defined.

(** ** Recovering *)

(** A crash leaves synced files as they are. *)
Lemma crash_synced d : bool_decide (map_Forall (fun _ f => f_cached f = []) d) = true -> crash d d.
Proof.
  intros Hs%bool_decide_eq_true_1 name. destruct (d !! name) as [f|] eqn:E; [| done]. specialize (Hs name f E).
  destruct f as [sy ca]. simpl in *. subst. exists 0%nat. by rewrite app_nil_r.
Qed.

(** C10: Crash recovery.  Take the files of a store between any two steps of
    such a run (no failed or interrupted table write, no failed restore, no read
    error in replay, no overlapping flushes, sizes and file numbers within the
    formats), running or stopped (also after an [Open] that failed
    half way), let a crash keep of every file what was synced and a prefix of
    the rest, and open them where no call fails: [Open] succeeds, and [Get]
    answers as the abstract map for every key whose last write was not reported
    as failed, so no acknowledged write is lost and none is resurrected. *)
Theorem engine_crash_recovery fb fh x K dirty d env o :
  (forall n, 0 <= fb n <= Bloom.maxAlloc) -> reach fb fh x K dirty -> crash (files_of x) d ->
  fine env -> readable env -> free_number d ->
  exists d' e, Open env o d = (d', Ok e) /\
    forall k, k ∉ dirty -> exists s', Get k (mkWorld d' e) = (s', Ok (kv_get K k)).
Proof.
  intros Hfb Hr Hc Hf Hread Hfree.
  destruct (inv_recovers x K dirty d env o (inv_reach _ _ Hfb _ _ _ Hr) Hc Hf Hread Hfree) as (d' & e & Ho & Hcl & Hh & Hi).
  exists d', e. split; [done |]. intros k Hk. destruct (inv_get _ K dirty k Hi Hcl Hk) as (s' & a & Hg & [-> | [_ Hn]]); [| done].
  by exists s'.
Qed.

Lemma engine_crash_recovery_witness :
  exists d' e, Open fine_open demo_opts (dsk run3) = (d', Ok e) /\
    forall k, k ∉ (∅ : gset bytes) -> exists s', Get k (mkWorld d' e) = (s', Ok (kv_get {[kb := [x33]; ka := [x32]]} k)).
Proof.
  apply (engine_crash_recovery sized_bits demo_hashes (Up run3) _ ∅ (dsk run3) fine_open demo_opts sized_bits_ok run3_reach).
  - apply crash_synced. vm_compute. reflexivity.
  - repeat split.
  - by intros ?.
  - intros min H. vm_compute in H. injection H as <-. vm_compute. reflexivity.
Defined.

(** ** Progress *)

(** C23: A background flush ends.  However its table write, its log's closing
    and removal turn out, at most four stages of the goroutine later it is
    gone and no frozen memtable is left, so no writer waits for it forever. *)
Theorem flush_completes fb fh s K dirty e1 e2 e3 e4 env waited ops :
  (forall n, 0 <= fb n <= Bloom.maxAlloc) -> reach fb fh (Up s) K dirty -> fits (dsk (run_all fb fh [e1] s)) ->
  let s' := run_all fb fh [e1; e2; e3; e4] s in
  flushes (eng s') = [] /\ immutable (eng s') = None /\ is_Some (ApplyBatch env waited ops s').
Proof.
  intros Hfb Hr Hfit s'. destruct (inv_flush_done fb fh Hfb s K dirty e1 e2 e3 e4 (inv_reach _ _ Hfb _ _ _ Hr) Hfit) as [H1 H2].
  split_and!; [done | done |]. unfold ApplyBatch, unless_flushing. subst s'. rewrite H2. by eexists.
Qed.

Lemma flush_completes_witness :
  let s' := run_all sized_bits demo_hashes [fine_run; fine_run; fine_run; fine_run] (flush_start run1) in
  ApplyBatch fine_flush false [] (flush_start run1) = None /\
  flushes (eng s') = [] /\ immutable (eng s') = None /\ is_Some (ApplyBatch fine_flush false [] s').
Proof.
  split; [vm_compute; reflexivity |].
  apply (flush_completes sized_bits demo_hashes (flush_start run1) {[ka := [x31]]} ∅); [apply sized_bits_ok | |].
  - eapply reach_flush; [exact run1_reach | computed..].
  - apply (bool_decide_unpack (fits (dsk (run_all sized_bits demo_hashes [fine_run] (flush_start run1))))). vm_compute. exact I.
Defined.

(** ** Snapshots *)

(** The snapshot decoder is total: every byte string is decoded or
    rejected with an error, never a panic.  What [Snapshot] writes decodes to
    the entries it wrote, as long as it is shorter than 4 GiB (the decoder
    compares lengths as 32-bit numbers). *)
Theorem snapshot_codec data es :
  no_panic (decodeSnapshotEntries data) /\
  (len (snapshot_bytes es) < 2 ^ 32 -> decodeSnapshotEntries (snapshot_bytes es) = Ok es).
Proof.
  split; [| apply decode_snapshot_bytes]. unfold decodeSnapshotEntries. apply decode_entries_total; [pose_len | simpl]; lia.
Qed.

Lemma snapshot_codec_witness :
  decodeSnapshotEntries (snapshot_bytes [mkSnapshotEntry ka [x31]; mkSnapshotEntry kb []]) =
    Ok [mkSnapshotEntry ka [x31]; mkSnapshotEntry kb []].
Proof. apply (snapshot_codec []). vm_compute. reflexivity. Defined.

(** C22: Restoring what [Snapshot] returned.  A snapshot taken of a store
    without failed writes, restored into any other idle store in an environment
    where no call fails, succeeds, and the other store then answers every [Get]
    as the first one, whatever it held before. *)
Theorem snapshot_restore fb fh s K order t Kt dirty env :
  (forall n, 0 <= fb n <= Bloom.maxAlloc) -> reach fb fh (Up s) K ∅ -> eclosed (eng s) = false ->
  Forall healthy_table (sstables (eng s)) -> (forall l, order l ≡ₚ l) ->
  reach fb fh (Up t) Kt dirty -> eclosed (eng t) = false -> flushes (eng t) = [] -> next_seq (eng t) < 10 ^ 6 ->
  fine_restore env ->
  exists s' data, Snapshot order s = (s', Ok data) /\
    (len data < 2 ^ 32 ->
     (forall es, decodeSnapshotEntries data = Ok es ->
        fits (fst (write_sst fb fh (sstName (next_seq (eng t))) (SSTableBlockSize (opts (eng t))) (rs_table env)
                     (number_entries 0 (merge_sort se_le es)) (dsk t)))) ->
     exists t', RestoreSnapshot fb fh env data t = (t', Ok tt) /\
       forall k, exists t'', Get k t' = (t'', Ok (kv_get K k))).
Proof.
  intros Hfb Hs Hcl Hh Hord Ht Hclt Hfl Hn Hfine.
  destruct (inv_reach _ _ Hfb _ _ _ Hs) as (M & HM & He). destruct (inv_reach _ _ Hfb _ _ _ Ht) as (Mt & _ & Het).
  destruct (einv_Snapshot M ∅ s order He Hcl Hord) as (s' & a & Hsn & _ & _ & _ & Ha).
  destruct (Ha Hh) as (es & -> & Hnd & Hes). exists s', (snapshot_bytes es). split; [done |]. intros Hlen Hfit.
  pose proof (RestoreSnapshot_spec fb fh Hfb Mt dirty t env es Het Hclt Hfl Hn Hlen Hnd
                (Hfit es (decode_snapshot_bytes es Hlen))) as Hspec.
  destruct (RestoreSnapshot fb fh env (snapshot_bytes es) t) as [t' [[]|e|]]; [| by destruct Hspec | done].
  destruct Hspec as (Het' & Hcl' & _ & _ & Hh'). exists t'. split; [done |]. intros k.
  destruct (inv_get t' (kv_of es) ∅ k) as (t'' & a & Hg & [-> | [_ Hbad]]); [| done | set_solver | | by exfalso; auto].
  - exists (restored es). split; [by apply agrees_restored | done].
  - exists t''. rewrite Hg. do 2 f_equal. eapply kv_of_agrees; [done | done |]. intros k' v. apply Hes. set_solver.
Qed.

Definition fine_restoring : restore_env :=
  mkRestoreEnv no_faults true (fun _ => false) no_faults (mkMarkerEnv no_faults true true) [] (fun _ => true).

Definition demo_snapshot : bytes := match snd (Snapshot id run3) with Ok data => data | _ => [] end.

Lemma snapshot_restore_witness :
  exists t', RestoreSnapshot sized_bits demo_hashes fine_restoring demo_snapshot run1 = (t', Ok tt) /\
    forall k, exists t'', Get k t' = (t'', Ok (kv_get {[kb := [x33]; ka := [x32]]} k)).
Proof.
  destruct (snapshot_restore sized_bits demo_hashes run3 {[kb := [x33]; ka := [x32]]} id run1 {[ka := [x31]]} ∅ fine_restoring
              sized_bits_ok run3_reach) as (s' & data & Hs & Hr).
  - vm_compute. reflexivity.
  - vm_compute. repeat constructor.
  - done.
  - exact run1_reach.
  - vm_compute. reflexivity.
  - vm_compute. reflexivity.
  - vm_compute. reflexivity.
  - repeat split. by eexists.
  - assert (data = demo_snapshot) as -> by (unfold demo_snapshot; by rewrite Hs).
    apply Hr; [vm_compute; reflexivity |]. intros es Hes. vm_compute in Hes. injection Hes as <-.
    eapply (bool_decide_unpack _). vm_compute. exact I.
Defined.
