(* ===== verification/EngineFindings.v ===== *)
(** * Where the engine departs from its documentation

    Concrete runs of the model, each outside one of the conditions under which
    the theorems about runs hold: they show that the condition is needed. *)

From Stdlib Require Import Strings.Byte Strings.String.
From stdpp Require Import sorting.
From S2P Require Import Prelude GoBytes GoSort GoFmt GoState Wal SkipList Memtable Bloom BlockCache SSTableFormat SSTableWriter SSTableReader SSTable Engine EngineLayers EngineDisk EngineReplay EngineSpec EngineInv EngineOpen EngineWrite EngineFlush EngineSnapshot EngineRestore EngineRun EngineProps.

(** The answer of a lookup after opening a directory again. *)
Definition reopened (d : disk) (k : bytes) : res (bytes * bool) :=
  match Open fine_open demo_opts d with
  | (d', Ok e) => snd (Get k (mkWorld d' e))
  | (_, Err e) => Err e
  | (_, Panic) => Panic
  end.

Definition stage_of (env : run_env) (i : nat) (s : world) : world := taken s (runFlush sized_bits demo_hashes env i s).

(** ** A second flush while the first one's log is still there *)

(** The first goroutine has installed its table but not yet removed its log;
    the second flush is then started and runs to its end. *)
Definition overlap : world :=
  let s := stage_of fine_run 0 (stage_of fine_run 0 (flush_start run1)) in
  let s := flush_start (put ka [x32] s) in
  Nat.iter 4 (stage_of fine_run 1) s.

(** Two goroutines are alive at once; the running engine answers with the
    overwrite, but after a restart the first log is replayed over both tables
    and the overwritten value is back. *)
Theorem overlapping_flush_resurrects :
  length (flushes (eng (flush_start (put ka [x32] (stage_of fine_run 0 (stage_of fine_run 0 (flush_start run1))))))) = 2%nat /\
  snd (Get ka overlap) = Ok ([x32], true) /\ reopened (dsk overlap) ka = Ok ([x31], true).
Proof. vm_compute. repeat split. Qed.

(** ** A table that was written in part *)

Definition torn_run : run_env := mkRunEnv (Some [Some 20%nat]) true (fun _ => false) true.
Definition torn : world := stage_of torn_run 0 (flush_start run1).

(** A leading part of the table is on disk, as after a crash during the flush,
    and the log is intact: opening fails for good instead of replaying. *)
Theorem torn_table_blocks_open :
  is_Some (dsk torn !! sstName 0) /\ is_Some (dsk torn !! walName 0) /\
  is_ok (reopened (dsk torn) ka) = false /\ is_ok (reopened (delete (sstName 0) (dsk torn)) ka) = true.
Proof. vm_compute. split_and!; first [by eexists | reflexivity]. Qed.

(** ** A flush that failed *)

(** The acknowledged write is answered as absent, without an error. *)
Theorem failed_flush_hides_writes :
  snd (Get ka torn) = Ok ([x31], true) /\ snd (Get ka (stage_of torn_run 0 torn)) = Ok ([], false).
Proof. vm_compute. split; reflexivity. Qed.

(** ** A snapshot of an unreadable table *)

Definition unreadable : world :=
  Nat.iter 4 (stage_of (mkRunEnv no_faults true (fun o => o =? 0) true) 0) (flush_start run1).

(** [Get] reports the read error, [Snapshot] leaves the key out. *)
Theorem snapshot_drops_unreadable :
  is_ok (snd (Get ka unreadable)) = false /\ snd (Snapshot id unreadable) = Ok [].
Proof. vm_compute. split; reflexivity. Qed.

(** ** A restore that did not commit *)

Definition uncommitted : world * res unit :=
  RestoreSnapshot sized_bits demo_hashes
    (mkRestoreEnv no_faults true (fun _ => false) no_faults (mkMarkerEnv no_faults true false) [] (fun _ => true))
    (snapshot_bytes [mkSnapshotEntry kb [x39]]) run2.

(** The marker was never replaced and the running engine is unchanged, but the
    next start takes the abandoned table for the newest one. *)
Theorem aborted_restore_leaks :
  is_ok (snd uncommitted) = false /\ snd (Get kb (fst uncommitted)) = Ok ([], false) /\
  dsk (fst uncommitted) !! restoreMarkerFileName = None /\ reopened (dsk (fst uncommitted)) kb = Ok ([x39], true).
Proof. vm_compute. split_and!; reflexivity. Qed.

(** ** The millionth log *)

Definition last_log : disk :=
  {[walName 999999 := mkFile (Record.encode (Record.mk 1 Record.RecordPut ka [x31])) []]}.

(** A name with seven digits is not discovered: the first start moves the data
    there, the second start has lost it. *)
Theorem millionth_log_lost :
  reopened last_log ka = Ok ([x31], true) /\ reopened (fst (Open fine_open demo_opts last_log)) ka = Ok ([], false).
Proof. vm_compute. split; reflexivity. Qed.

(** ** A batch that was applied and reported as failed *)

Definition tiny_opts : Options := mkOptions 1 0 0.

Theorem applied_batch_reported_failed :
  match Put (mkFlushEnv None []) false ka [x31] (started tiny_opts ∅) with
  | Some (s, r) => is_ok r = false /\ snd (Get ka s) = Ok ([x31], true) /\ reopened (dsk s) ka = Ok ([x31], true)
  | None => False
  end.
Proof. vm_compute. split_and!; reflexivity. Qed.

(** ** Snapshots of 4 GiB *)

(** The remaining length is converted to 32 bits before it is compared, so a
    well-formed snapshot is rejected when it wraps below the key's length. *)
Theorem snapshot_4GiB_rejected e :
  len (se_key e) < 2 ^ 32 -> u32 (len (se_key e) + len (writeLenPrefixed (se_value e))) < len (se_key e) ->
  exists err, decodeSnapshotEntries (snapshot_bytes [e]) = Err err.
Proof.
  intros Hk Hw. unfold decodeSnapshotEntries, snapshot_bytes. cbn [map concat]. rewrite app_nil_r. cbn [decode_entries].
  pose proof (len_nonneg (se_key e)). pose proof (len_nonneg (writeLenPrefixed (se_value e))).
  rewrite (proj2 (Z.ltb_lt _ _)) by (rewrite len_app, len_writeLenPrefixed; lia).
  rewrite (readLenPrefixed_at [] _ _ Hk : readLenPrefixed (writeLenPrefixed (se_key e) ++ _) 0 = _).
  rewrite (proj2 (Z.ltb_lt _ _)) by done. cbn [res_bind]. by eexists.
Qed.
