(* ===== verification/Naive.v ===== *)
(** * The baseline of the benchmarks (src/bench/naive.go)

    One file per key, written and synced by every [Put].  The directory and
    the calls on files are those of the storage engine; the [RWMutex] makes
    every method one step. *)

From Stdlib Require Import Strings.Byte Strings.Ascii Strings.String.
From S2P Require Import Prelude GoBytes GoState GoFmt Engine EngineDisk.

(** ** The store *)

(** [fmt.Sprintf("%x", key)] *)
Definition hex_digit (n : N) : ascii :=
  default "0"%char (String.get (N.to_nat n) "0123456789abcdef").
Definition hex_byte (b : byte) (rest : string) : string :=
  String (hex_digit (Byte.to_N b / 16)) (String (hex_digit (Byte.to_N b mod 16)) rest).
Definition hex (key : bytes) (rest : string) : string := foldr hex_byte rest key.

Definition keyPath (key : bytes) : string := hex key ".kv".

(** How the calls on the file come out: whether it opens, after how many bytes
    a write stops (if it does), whether the sync and the close succeed. *)
Record put_env := mkPutEnv { pe_open : bool; pe_write : option nat; pe_sync : bool; pe_close : bool }.

(** [os.MkdirAll]; the files in the directory stay. *)
Definition OpenNaiveStore (mkdir : bool) : st disk unit :=
  if mkdir then ret tt else fail (Wrapf "bench: creating naive store directory" (Errorf "mkdir")).

Definition openFileForWrite (ok : bool) (path : string) : st disk unit :=
  if ok then modify (insert path (mkFile [] [])) else fail (Errorf "open").

(** [f.Write], [f.Sync] and [f.Close] of the file that was just opened. *)
Definition write_file (stops : option nat) (path : string) (data : bytes) : st disk unit := fun d =>
  let part := match stops with Some n => take n data | None => data end in
  (alter (fun f => mkFile (f_synced f) (f_cached f ++ part)) path d,
   match stops with Some _ => Err (Errorf "write") | None => Ok tt end).
Definition sync_file (ok : bool) (path : string) : st disk unit :=
  if ok then modify (alter (fun f => mkFile (f_contents f) []) path) else fail (Errorf "fsync").
Definition close_file (ok : bool) : st disk unit := if ok then ret tt else fail (Errorf "close").

Definition Put (env : put_env) (key value : bytes) : st disk unit :=
  let path := keyPath key in
  let! _ := wrap "bench: naive put: opening file" (openFileForWrite (pe_open env) path) in
  let! _ := wrap "bench: naive put: writing" (write_file (pe_write env) path value) in
  let! _ := wrap "bench: naive put: fsync" (sync_file (pe_sync env) path) in
  close_file (pe_close env).

(** [os.ReadFile] finds the file or not, or fails in another way (an unreadable
    disk, a name that is too long). *)
Definition Get (readable : bool) (key : bytes) : st disk (bytes * bool) := fun d =>
  if readable then
    match d !! keyPath key with
    | None => (d, Ok ([], false))
    | Some f => (d, Ok (f_contents f, true))
    end
  else (d, Err (Wrapf "bench: naive get" (Errorf "read"))).

(** A file that does not exist is no error, every other failure of
    [os.Remove] is one. *)
Definition Delete (ok : bool) (key : bytes) : st disk unit := fun d =>
  if ok then
    match d !! keyPath key with
    | None => (d, Ok tt)
    | Some _ => (delete (keyPath key) d, Ok tt)
    end
  else (d, Err (Wrapf "bench: naive delete" (Errorf "remove"))).

(** ** File names *)

Lemma hex_byte_inj b b' r r' : hex_byte b r = hex_byte b' r' -> b = b' /\ r = r'.
Proof.
  set (val c := match String.index 0 (String c "") "0123456789abcdef" with Some n => N.of_nat n | None => 0%N end).
  assert (forall b, Byte.of_N (16 * val (hex_digit (Byte.to_N b / 16)) + val (hex_digit (Byte.to_N b mod 16)))%N = Some b) as Hv
    by (intros x; destruct x; vm_compute; reflexivity).
  unfold hex_byte. intros [= H1 H2 H3]. split; [| done].
  pose proof (Hv b) as Hb. rewrite H1, H2, Hv in Hb. congruence.
Qed.

Lemma keyPath_inj key key' : keyPath key = keyPath key' -> key = key'.
Proof.
  unfold keyPath. revert key'. induction key as [|b key IH]; intros [|b' key'] H; cbn [hex foldr] in H.
  - done.
  - unfold hex_byte in H. injection H as H _. exfalso. revert H. by destruct b'.
  - unfold hex_byte in H. injection H as H _. exfalso. revert H. by destruct b.
  - apply hex_byte_inj in H as [-> H]. by rewrite (IH key' H).
Qed.

(** ** What the store promises *)

Inductive op := OpPut (env : put_env) (key value : bytes) | OpDelete (ok : bool) (key : bytes).

Definition exec_op (o : op) : st disk unit :=
  match o with OpPut env key value => Put env key value | OpDelete ok key => Delete ok key end.
Definition op_key_ (o : op) : bytes := match o with OpPut _ key _ | OpDelete _ key => key end.
Definition op_result (o : op) : option bytes := match o with OpPut _ _ value => Some value | OpDelete _ _ => None end.

(** The calls one after the other, with the map of what was acknowledged and
    the keys of which the last call failed. *)
Record run_state := mkRunState { files : disk; acked : gmap bytes bytes; failed : gset bytes }.
Definition run_op (s : run_state) (o : op) : run_state :=
  let '(d, r) := exec_op o (files s) in
  match r with
  | Ok _ => mkRunState d (partial_alter (fun _ => op_result o) (op_key_ o) (acked s)) (failed s ∖ {[op_key_ o]})
  | _ => mkRunState d (acked s) (failed s ∪ {[op_key_ o]})
  end.

(** Acknowledged keys are on the disk, synced. *)
Definition naive_inv (s : run_state) : Prop :=
  forall key, key ∉ failed s -> files s !! keyPath key = (fun v => mkFile v []) <$> acked s !! key.

Lemma exec_frame o d d' r key : exec_op o d = (d', r) -> key <> op_key_ o -> d' !! keyPath key = d !! keyPath key.
Proof.
  intros H Hk. assert (keyPath (op_key_ o) <> keyPath key) as Hp by (intros Heq; by apply keyPath_inj in Heq).
  destruct o as [[op wr sy cl] k v|ok k]; cbn [exec_op op_key_] in *.
  - unfold Put in H. cbn in H. destruct op, wr, sy, cl; cbn in H; injection H as <- _;
      repeat (rewrite lookup_alter_ne by done); by rewrite ?lookup_insert_ne by done.
  - unfold Delete in H. destruct ok; [destruct (d !! keyPath k) |]; injection H as <- _; [| done | done].
    by rewrite lookup_delete_ne.
Qed.

Lemma exec_ok o d d' : exec_op o d = (d', Ok tt) -> d' !! keyPath (op_key_ o) = (fun v => mkFile v []) <$> op_result o.
Proof.
  destruct o as [[op wr sy cl] k v|ok k]; cbn [exec_op op_key_ op_result].
  - unfold Put. cbn. destruct op, wr, sy, cl; cbn; try done. intros [= <-]. by rewrite !lookup_alter_eq, lookup_insert_eq.
  - unfold Delete. destruct ok; [| done]. destruct (d !! keyPath k) eqn:Hd; intros [= <-]; [| done].
    by rewrite lookup_delete_eq.
Qed.

Lemma run_op_inv s o : naive_inv s -> naive_inv (run_op s o).
Proof.
  intros Hi. unfold run_op. destruct (exec_op o (files s)) as [d r] eqn:He. destruct r as [[]|e|]; intros key Hk; cbn in *.
  1: destruct (decide (key = op_key_ o)) as [->|Hn].
  - by rewrite lookup_partial_alter_eq, (exec_ok o _ _ He).
  - rewrite lookup_partial_alter_ne by done. rewrite (exec_frame o _ _ _ key He Hn). apply Hi. set_solver.
  - rewrite (exec_frame o _ _ _ key He) by set_solver. apply Hi. set_solver.
  - rewrite (exec_frame o _ _ _ key He) by set_solver. apply Hi. set_solver.
Qed.

(** C40: The baseline is durable.  After any calls of [Put] and [Delete] on an empty
    directory, with any of the file operations failing, and a crash, [Get] of
    every key whose last call did not fail answers the value last acknowledged
    for it, or an error when reading fails for another reason than a missing
    file. *)
Theorem naive_refines_map ops d key readable :
  let s := fold_left run_op ops (mkRunState ∅ ∅ ∅) in
  crash (files s) d -> key ∉ failed s ->
  Get readable key d = (d, Ok (default [] (acked s !! key), bool_decide (is_Some (acked s !! key)))) \/
  readable = false /\ is_ok (snd (Get readable key d)) = false.
Proof.
  intros s Hc Hk. assert (naive_inv s) as Hi.
  { subst s. assert (naive_inv (mkRunState ∅ ∅ ∅)) as H0 by (intros x _; cbn; by rewrite !lookup_empty).
    revert H0. clear. generalize (mkRunState ∅ ∅ ∅). induction ops as [|o ops IH]; intros s0 H0; [done |].
    cbn [fold_left]. apply IH. by apply run_op_inv. }
  specialize (Hi key Hk). unfold Get. destruct readable; [left | by right]. destruct (acked s !! key) as [v|] eqn:Ha; cbn [fmap option_fmap option_map] in Hi.
  - destruct (crash_lookup _ _ _ _ Hc Hi) as [n Hd]. rewrite Hd.
    cbn. by rewrite take_nil, !app_nil_r.
  - destruct (d !! keyPath key) eqn:Hd; [| done]. exfalso.
    assert (is_Some (d !! keyPath key)) as Hs by done. apply (crash_is_Some _ _ _ Hc) in Hs. rewrite Hi in Hs. by destruct Hs.
Qed.

Definition smooth : put_env := mkPutEnv true None true true.
Definition full : put_env := mkPutEnv true (Some 1%nat) true true.
Definition demo_ops : list op :=
  [OpPut smooth [x61; xff] [x31]; OpPut smooth [x62] [x32; x33]; OpDelete true [x62]; OpPut full [x63] [x34; x35]; OpDelete true [x64]].

Lemma naive_refines_map_witness :
  Get true [x61; xff] (<[keyPath [x63] := mkFile [] []]> (<[keyPath [x61; xff] := mkFile [x31] []]> ∅)) =
  (<[keyPath [x63] := mkFile [] []]> (<[keyPath [x61; xff] := mkFile [x31] []]> ∅), Ok ([x31], true)).
Proof.
  destruct (naive_refines_map demo_ops (<[keyPath [x63] := mkFile [] []]> (<[keyPath [x61; xff] := mkFile [x31] []]> ∅)) [x61; xff] true) as [H|[H _]].
  - intros name. destruct (decide (name = keyPath [x63])) as [->|H1]; [vm_compute; by exists 0%nat |].
    destruct (decide (name = keyPath [x61; xff])) as [->|H2]; [vm_compute; by exists 0%nat |].
    rewrite !(lookup_insert_ne _ _ name), lookup_empty by done.
    change (files (fold_left run_op demo_ops (mkRunState ∅ ∅ ∅))) with
      (<[keyPath [x63] := mkFile [] [x34]]> (<[keyPath [x61; xff] := mkFile [x31] []]> ∅) : disk).
    by rewrite !(lookup_insert_ne _ _ name), lookup_empty by done.
  - vm_compute. set_solver.
  - exact H.
  - discriminate H.
Defined.

(** A [Put] that overwrites truncates the file first: when it is interrupted the
    value acknowledged before is gone too, and the store answers with a
    leading part of the new value as if it had been written. *)
Lemma interrupted_put_loses_old d key old new n :
  d !! keyPath key = Some (mkFile old []) ->
  let '(d', r) := Put (mkPutEnv true (Some n) true true) key new d in
  is_ok r = false /\ snd (Get true key d') = Ok (take n new, true).
Proof.
  intros Hd. unfold Put, openFileForWrite, write_file, wrap, st_bind, modify. cbn. split; [done |].
  unfold Get. by rewrite lookup_alter_eq, lookup_insert_eq.
Qed.
