(* ===== verification/Server.v ===== *)
(** * The server of one node (src/server/server.go)

    One goroutine owns the Raft node: it reacts to ticks, messages, proposals,
    read requests and its batch timer, persists and sends after each of them,
    applies committed entries to the engine and answers the waiting clients.
    Raft node and engine are used through the interfaces below.  A result
    channel is a number; what is sent on it is recorded in [replies]. *)

From Stdlib Require Import Strings.Byte Strings.String.
From S2P Require Import Prelude GoBytes GoState RaftTypes Command Engine.

(** ** Interfaces *)

(** The interface [raftNode].  [Env] is what the operating system answers
    during [Persist].  A call that fails leaves the node as it was, except
    [Persist]. *)
Class raftNode (N Env : Type) := {
  rn_Tick : N -> res N;
  rn_Step : Message.t -> N -> res N;
  rn_ProposeBatch : list bytes -> N -> res (N * list Z);
  rn_RequestReadIndex : Z -> N -> res N;
  rn_CreateSnapshot : Z -> bytes -> N -> res N;
  rn_Status : N -> Status.t;
  rn_Entries : Z -> Z -> N -> res (list LogEntry.t);
  rn_Persist : Env -> N -> N * res (list Message.t * list ReadState.t * option Snapshot.t)
}.

(** The methods of the engine that the server calls.  A call of [ApplyBatch]
    returns after any flush it has to wait for. *)
Class kvEngine (E Env : Type) := {
  en_ApplyBatch : Env -> list BatchOp -> E -> E * res unit;
  en_Get : bytes -> E -> E * res (bytes * bool);
  en_Snapshot : Env -> E -> E * res bytes;
  en_RestoreSnapshot : Env -> bytes -> E -> E * res unit
}.

(** ** State *)

Abbreviation chan := Z.

Record proposeRequest := mkRequest { rq_data : bytes; rq_ch : chan }.
Record pendingPropose := mkPending { pp_data : bytes; pp_ch : chan }.

(** What is sent on a result channel: an [applyResult] or a
    [readIndexResult]. *)
Inductive reply :=
  | Applied (ch : chan) (err : option error)
  | ReadIndexed (ch : chan) (index : Z) (err : option error).
Definition reply_ch (r : reply) : chan := match r with Applied ch _ => ch | ReadIndexed ch _ _ => ch end.

Record Server (N E : Type) := mkServer {
  node : N;
  sv_eng : E;
  batchWindow : Z;
  maxBatchSize : Z;
  lastApplied : Z;
  waiters : gmap Z pendingPropose;
  snapshotThreshold : Z;
  lastSnapshotIndex : Z;
  pendingReadIndexes : gmap Z chan;
  nextReadCtx : Z;
  cachedStatus : Status.t;
  (* locals of Run *)
  pending : list proposeRequest;
  armed : bool;
  done_ : bool;
  (* what has left the server *)
  sent : list Message.t;
  replies : list reply
}.
Arguments mkServer {N E}.
Arguments node {N E}.
Arguments sv_eng {N E}.
Arguments batchWindow {N E}.
Arguments maxBatchSize {N E}.
Arguments lastApplied {N E}.
Arguments waiters {N E}.
Arguments snapshotThreshold {N E}.
Arguments lastSnapshotIndex {N E}.
Arguments pendingReadIndexes {N E}.
Arguments nextReadCtx {N E}.
Arguments cachedStatus {N E}.
Arguments pending {N E}.
Arguments armed {N E}.
Arguments done_ {N E}.
Arguments sent {N E}.
Arguments replies {N E}.

Definition proposeChBufferSize : Z := 256.
Definition defaultBatchWindow : Z := 500000.
Definition defaultMaxBatchSize : Z := 64.
Definition defaultSnapshotThreshold : Z := 10000.

Section setters.
Context {N E : Type}.

Definition with_node (x : N) (s : Server N E) : Server N E :=
  mkServer x (sv_eng s) (batchWindow s) (maxBatchSize s) (lastApplied s) (waiters s) (snapshotThreshold s)
    (lastSnapshotIndex s) (pendingReadIndexes s) (nextReadCtx s) (cachedStatus s) (pending s) (armed s) (done_ s)
    (sent s) (replies s).
Definition with_eng (x : E) (s : Server N E) : Server N E :=
  mkServer (node s) x (batchWindow s) (maxBatchSize s) (lastApplied s) (waiters s) (snapshotThreshold s)
    (lastSnapshotIndex s) (pendingReadIndexes s) (nextReadCtx s) (cachedStatus s) (pending s) (armed s) (done_ s)
    (sent s) (replies s).
Definition with_applied (x : Z) (s : Server N E) : Server N E :=
  mkServer (node s) (sv_eng s) (batchWindow s) (maxBatchSize s) x (waiters s) (snapshotThreshold s)
    (lastSnapshotIndex s) (pendingReadIndexes s) (nextReadCtx s) (cachedStatus s) (pending s) (armed s) (done_ s)
    (sent s) (replies s).
Definition with_waiters (x : gmap Z pendingPropose) (s : Server N E) : Server N E :=
  mkServer (node s) (sv_eng s) (batchWindow s) (maxBatchSize s) (lastApplied s) x (snapshotThreshold s)
    (lastSnapshotIndex s) (pendingReadIndexes s) (nextReadCtx s) (cachedStatus s) (pending s) (armed s) (done_ s)
    (sent s) (replies s).
Definition with_lastSnapshot (x : Z) (s : Server N E) : Server N E :=
  mkServer (node s) (sv_eng s) (batchWindow s) (maxBatchSize s) (lastApplied s) (waiters s) (snapshotThreshold s)
    x (pendingReadIndexes s) (nextReadCtx s) (cachedStatus s) (pending s) (armed s) (done_ s)
    (sent s) (replies s).
Definition with_reads (x : gmap Z chan) (ctx : Z) (s : Server N E) : Server N E :=
  mkServer (node s) (sv_eng s) (batchWindow s) (maxBatchSize s) (lastApplied s) (waiters s) (snapshotThreshold s)
    (lastSnapshotIndex s) x ctx (cachedStatus s) (pending s) (armed s) (done_ s)
    (sent s) (replies s).
Definition with_status (x : Status.t) (s : Server N E) : Server N E :=
  mkServer (node s) (sv_eng s) (batchWindow s) (maxBatchSize s) (lastApplied s) (waiters s) (snapshotThreshold s)
    (lastSnapshotIndex s) (pendingReadIndexes s) (nextReadCtx s) x (pending s) (armed s) (done_ s)
    (sent s) (replies s).
Definition with_pending (x : list proposeRequest) (a : bool) (s : Server N E) : Server N E :=
  mkServer (node s) (sv_eng s) (batchWindow s) (maxBatchSize s) (lastApplied s) (waiters s) (snapshotThreshold s)
    (lastSnapshotIndex s) (pendingReadIndexes s) (nextReadCtx s) (cachedStatus s) x a (done_ s)
    (sent s) (replies s).
(** [Run] returns: its locals are gone. *)
Definition with_done (s : Server N E) : Server N E :=
  mkServer (node s) (sv_eng s) (batchWindow s) (maxBatchSize s) (lastApplied s) (waiters s) (snapshotThreshold s)
    (lastSnapshotIndex s) (pendingReadIndexes s) (nextReadCtx s) (cachedStatus s) [] false true
    (sent s) (replies s).
Definition with_out (ms : list Message.t) (rs : list reply) (s : Server N E) : Server N E :=
  mkServer (node s) (sv_eng s) (batchWindow s) (maxBatchSize s) (lastApplied s) (waiters s) (snapshotThreshold s)
    (lastSnapshotIndex s) (pendingReadIndexes s) (nextReadCtx s) (cachedStatus s) (pending s) (armed s) (done_ s)
    (sent s ++ ms) (replies s ++ rs).

Definition SetBatchWindow (d : Z) (s : Server N E) : Server N E :=
  mkServer (node s) (sv_eng s) d (maxBatchSize s) (lastApplied s) (waiters s) (snapshotThreshold s)
    (lastSnapshotIndex s) (pendingReadIndexes s) (nextReadCtx s) (cachedStatus s) (pending s) (armed s) (done_ s)
    (sent s) (replies s).
Definition SetMaxBatchSize (n : Z) (s : Server N E) : Server N E :=
  mkServer (node s) (sv_eng s) (batchWindow s) n (lastApplied s) (waiters s) (snapshotThreshold s)
    (lastSnapshotIndex s) (pendingReadIndexes s) (nextReadCtx s) (cachedStatus s) (pending s) (armed s) (done_ s)
    (sent s) (replies s).
Definition SetSnapshotThreshold (n : Z) (s : Server N E) : Server N E :=
  mkServer (node s) (sv_eng s) (batchWindow s) (maxBatchSize s) (lastApplied s) (waiters s) n
    (lastSnapshotIndex s) (pendingReadIndexes s) (nextReadCtx s) (cachedStatus s) (pending s) (armed s) (done_ s)
    (sent s) (replies s).
Definition SeedAppliedIndex (index : Z) (s : Server N E) : Server N E :=
  with_lastSnapshot index (with_applied index s).
End setters.

(** ** Commands *)

Definition decodeAndValidateCommand (entry : LogEntry.t) : res Command.command :=
  let* cmd := res_wrap "server: decoding committed entry" (Command.decodeCommand (LogEntry.Data entry)) in
  if negb (bool_decide (Command.Type_ cmd = Command.cmdPut)) && negb (bool_decide (Command.Type_ cmd = Command.cmdDelete))
  then Err (Errorf "server: unknown command type")
  else Ok cmd.

(** The loop that decodes every entry, keeping the errors apart. *)
Fixpoint decode_all (entries : list LogEntry.t) : res (list (Command.command + error)) :=
  match entries with
  | [] => Ok []
  | entry :: entries =>
      match decodeAndValidateCommand entry with
      | Panic => Panic
      | Ok cmd => let* rest := decode_all entries in Ok (inl cmd :: rest)
      | Err e => let* rest := decode_all entries in Ok (inr e :: rest)
      end
  end.

Definition op_of (cmd : Command.command) : BatchOp :=
  mkOp (Command.Key cmd) (Command.Value cmd) (bool_decide (Command.Type_ cmd = Command.cmdDelete)).
Definition ops_of (ds : list (Command.command + error)) : list BatchOp :=
  omap (fun d => match d with inl cmd => Some (op_of cmd) | inr _ => None end) ds.

(** ** The loop of [Run] *)

Section server.
Context {N NE E EE : Type} `{!raftNode N NE} `{!kvEngine E EE}.
Implicit Types s : Server N E.
Abbreviation sv := (st (Server N E)).

Definition sfield {A} (f : Server N E -> A) : sv A := reads f.
Definition sset (f : Server N E -> Server N E) : sv unit := modify f.
Definition send_reply (r : reply) : sv unit := sset (with_out [] [r]).

(** A call on the engine. *)
Definition call {A} (f : E -> E * res A) : sv (res A) := fun s =>
  let '(e, r) := f (sv_eng s) in
  (with_eng e s, match r with Panic => Panic | r => Ok r end).
Definition err_of {A} (r : res A) : option error := match r with Err e => Some e | _ => None end.

Definition New (n : N) (e : E) : Server N E :=
  mkServer n e defaultBatchWindow defaultMaxBatchSize 0 ∅ defaultSnapshotThreshold 0 ∅ 1 (rn_Status n) [] false false [] [].

(** The loop over the applied entries: it advances [lastApplied] and answers
    the waiter of each index. *)
Fixpoint answer_loop (batchErr : option error) (entries : list LogEntry.t) (ds : list (Command.command + error)) : sv unit :=
  match entries, ds with
  | entry :: entries, d :: ds =>
      let! _ := sset (with_applied (LogEntry.Index entry)) in
      let res := match d with
                 | inr e => Some e
                 | inl _ => match batchErr with Some e => Some (Wrapf "server: applying entry" e) | None => None end
                 end in
      let! ws := sfield waiters in
      let! _ := match ws !! LogEntry.Index entry with
                | Some p =>
                    let! _ := sset (with_waiters (delete (LogEntry.Index entry) ws)) in
                    if bool_decide (pp_data p = LogEntry.Data entry) then send_reply (Applied (pp_ch p) res)
                    else send_reply (Applied (pp_ch p)
                           (Some (Errorf "server: proposal was superseded before committing (leadership likely changed); retry")))
                | None => ret tt
                end in
      answer_loop batchErr entries ds
  | _, _ => ret tt
  end.

Definition applyCommitted (env : EE) : sv unit :=
  let! n := sfield node in
  let! last := sfield lastApplied in
  if Status.CommitIndex (rn_Status n) <=? last then ret tt else
  let! entries := lift (rn_Entries last (Status.CommitIndex (rn_Status n)) n) in
  match entries with
  | [] => ret tt
  | _ =>
      let! ds := lift (decode_all entries) in
      let! r := match ops_of ds with
                | [] => ret (Ok tt)
                | ops => call (en_ApplyBatch env ops)
                end in
      answer_loop (err_of r) entries ds
  end.

Definition maybeSnapshot (env : EE) : sv unit :=
  let! threshold := sfield snapshotThreshold in
  let! applied := sfield lastApplied in
  let! last := sfield lastSnapshotIndex in
  if threshold <=? 0 then ret tt
  else if applied <=? last then ret tt
  else if u64 (applied - last) <? threshold then ret tt
  else
    let! r := call (en_Snapshot env) in
    match r with
    | Ok data =>
        let! n := sfield node in
        match rn_CreateSnapshot applied data n with
        | Ok n =>
            let! _ := sset (with_node n) in
            sset (with_lastSnapshot applied)
        | Err _ => ret tt
        | Panic => lift Panic
        end
    | _ => ret tt
    end.

(** One entry by itself; [Put] and [Delete] of the engine are batches of one
    operation. *)
Definition applyEntry (env : EE) (entry : LogEntry.t) : sv (option error) :=
  match decodeAndValidateCommand entry with
  | Panic => lift Panic
  | Err e => ret (Some e)
  | Ok cmd =>
      if bool_decide (Command.Type_ cmd = Command.cmdPut) then
        let! r := call (en_ApplyBatch env [mkOp (Command.Key cmd) (Command.Value cmd) false]) in
        ret (match r with Err e => Some (Wrapf "server: applying put for entry" e) | _ => None end)
      else
        let! r := call (en_ApplyBatch env [mkOp (Command.Key cmd) [] true]) in
        ret (match r with Err e => Some (Wrapf "server: applying delete for entry" e) | _ => None end)
  end.

Definition refreshCachedStatus : sv unit :=
  let! n := sfield node in
  sset (with_status (rn_Status n)).

(** Answering the reads a majority has confirmed. *)
Fixpoint resolve_reads (rs : list ReadState.t) : sv unit :=
  match rs with
  | [] => ret tt
  | r :: rs =>
      let! reads := sfield pendingReadIndexes in
      let! next := sfield nextReadCtx in
      let! _ := match reads !! ReadState.Context r with
                | Some ch =>
                    let! _ := sset (with_reads (delete (ReadState.Context r) reads) next) in
                    send_reply (ReadIndexed ch (ReadState.Index r) None)
                | None => ret tt
                end in
      resolve_reads rs
  end.

(** [if snapshotToApply != nil]: a failure is only printed. *)
Definition restore_received (env : EE) (snapshotToApply : option Snapshot.t) : sv unit :=
  match snapshotToApply with
  | Some snap =>
      let! r := call (en_RestoreSnapshot env (Snapshot.Data snap)) in
      match r with
      | Ok _ => sset (fun s => with_lastSnapshot (Snapshot.LastIncludedIndex snap)
                                 (with_applied (Snapshot.LastIncludedIndex snap) s))
      | _ => ret tt
      end
  | None => ret tt
  end.

(** What the disk and the engine meet during one [pump]. *)
Record pump_env := mkPumpEnv { pe_persist : NE; pe_restore : EE; pe_apply : EE; pe_snapshot : EE }.

Definition pump (env : pump_env) : sv unit :=
  let! n := sfield node in
  let '(n, out) := rn_Persist (pe_persist env) n in
  let! _ := sset (with_node n) in
  match out with
  | Panic => lift Panic
  | Err _ => ret tt
  | Ok (msgs, readStates, snapshotToApply) =>
      let! _ := restore_received (pe_restore env) snapshotToApply in
      let! _ := sset (with_out msgs []) in
      let! _ := applyCommitted (pe_apply env) in
      let! _ := maybeSnapshot (pe_snapshot env) in
      let! _ := resolve_reads readStates in
      refreshCachedStatus
  end.

(** Registering the waiters of a batch; [indices[i]] panics when it is out of
    range. *)
Fixpoint register (reqs : list proposeRequest) (indices : list Z) : sv unit :=
  match reqs, indices with
  | [], _ => ret tt
  | r :: reqs, i :: indices =>
      let! _ := sset (fun s => with_waiters (<[i := mkPending (rq_data r) (rq_ch r)]> (waiters s)) s) in
      register reqs indices
  | _ :: _, [] => lift Panic
  end.

Definition failPending (reqs : list proposeRequest) (err : error) : sv unit :=
  sset (with_out [] (map (fun r => Applied (rq_ch r) (Some err)) reqs)).

Definition submitBatch (env : pump_env) (reqs : list proposeRequest) : sv unit :=
  match reqs with
  | [] => ret tt
  | _ =>
      let! n := sfield node in
      match rn_ProposeBatch (map rq_data reqs) n with
      | Panic => lift Panic
      | Err e => failPending reqs e
      | Ok (n, indices) =>
          let! _ := sset (with_node n) in
          let! _ := register reqs indices in
          pump env
      end
  end.

(** The order in which the map is walked does not matter: every request has
    its own channel. *)
Definition failPendingReadIndexes (err : error) : sv unit :=
  let! reads := sfield pendingReadIndexes in
  let! next := sfield nextReadCtx in
  let! _ := sset (with_out [] (map (fun x => ReadIndexed x.2 0 (Some err)) (map_to_list reads))) in
  sset (with_reads ∅ next).

(** What [select] picks. *)
Inductive event :=
  | Ticked
  | Received (m : option Message.t)
  | Proposed (r : proposeRequest)
  | ReadRequested (ch : chan)
  | BatchTimer
  | StopRequested.

Definition stopped : error := Errorf "server: stopped".

Definition run_event (env : pump_env) (ev : event) : sv unit :=
  match ev with
  | Ticked =>
      let! n := sfield node in
      let! n := lift (rn_Tick n) in
      let! _ := sset (with_node n) in
      pump env
  | Received None =>
      let! reqs := sfield pending in
      let! _ := failPending reqs stopped in
      sset with_done
  | Received (Some m) =>
      let! n := sfield node in
      let! n := lift (rn_Step m n) in
      let! _ := sset (with_node n) in
      pump env
  | Proposed r =>
      let! old := sfield pending in
      let! a := sfield armed in
      let! window := sfield batchWindow in
      let! max := sfield maxBatchSize in
      let reqs := old ++ [r] in
      if (window <=? 0) || (max <=? len reqs) then
        let! _ := sset (with_pending [] false) in
        submitBatch env reqs
      else sset (with_pending reqs (if len reqs =? 1 then true else a))
  | ReadRequested ch =>
      let! n := sfield node in
      let! ctx := sfield nextReadCtx in
      let! reads := sfield pendingReadIndexes in
      let! _ := sset (with_reads reads (inc64 ctx)) in
      match rn_RequestReadIndex ctx n with
      | Panic => lift Panic
      | Err e => send_reply (ReadIndexed ch 0 (Some e))
      | Ok n =>
          let! _ := sset (with_node n) in
          let! _ := sset (with_reads (<[ctx := ch]> reads) (inc64 ctx)) in
          pump env
      end
  | BatchTimer =>
      let! a := sfield armed in
      if a : bool then
        let! reqs := sfield pending in
        let! _ := sset (with_pending [] false) in
        submitBatch env reqs
      else ret tt
  | StopRequested =>
      let! reqs := sfield pending in
      let! _ := failPending reqs stopped in
      let! _ := failPendingReadIndexes stopped in
      sset with_done
  end.

(** The loop of [Run]: events until the server is done. *)
Fixpoint Run (evs : list (pump_env * event)) : sv unit :=
  match evs with
  | [] => ret tt
  | (env, ev) :: evs =>
      let! d := sfield done_ in
      if d : bool then ret tt
      else let! _ := run_event env ev in Run evs
  end.

(** [time.NewTicker] panics for an interval that is not positive. *)
Definition newTicker (tickInterval : Z) : res unit := if tickInterval <=? 0 then Panic else Ok tt.

(** The whole of [Run], with the loop above. *)
Definition Run_ticking (tickInterval : Z) (evs : list (pump_env * event)) : sv unit :=
  let! _ := lift (newTicker tickInterval) in Run evs.

(** ** The callers' side *)

(** How a caller's wait ends. *)
Inductive woken := WResult (r : reply) | WTimeout | WDone.

(** [None] stands for a nil error. *)
Definition propose_result (queued : bool) (wk : woken) : option error :=
  if queued then
    match wk with
    | WResult (Applied _ err) => err
    | WResult (ReadIndexed _ _ err) => err
    | WTimeout => Some (Errorf "server: propose timed out waiting for commit")
    | WDone => Some stopped
    end
  else Some stopped.

Definition Put (key value : bytes) (ch : chan) : proposeRequest :=
  mkRequest (Command.encodeCommand (Command.mk Command.cmdPut key value)) ch.
Definition Delete (key : bytes) (ch : chan) : proposeRequest :=
  mkRequest (Command.encodeCommand (Command.mk Command.cmdDelete key [])) ch.
Definition Get (key : bytes) : sv (bytes * bool) := fun s =>
  let '(e, r) := en_Get key (sv_eng s) in (with_eng e s, r).

Definition LinearizableGet (queued : bool) (wk : woken) (key : bytes) : sv (bytes * bool) :=
  if queued then
    match wk with
    | WResult (ReadIndexed _ _ None) => Get key
    | WResult (ReadIndexed _ _ (Some e)) => fail e
    | WResult (Applied _ _) => lift Panic
    | WTimeout => fail (Errorf "server: linearizable read timed out waiting for read-index confirmation")
    | WDone => fail stopped
    end
  else fail stopped.

Definition status_ (s : Server N E) : Status.t := cachedStatus s.
End server.
