(* ===== verification/ServerHTTP.v ===== *)
(** * The HTTP interface (src/server/http.go, src/cmd/kvstore/handlers.go)

    Requests and responses as records, the handlers over an interface to the
    server.  [Handler] routes as [http.ServeMux] does for paths it does not
    rewrite itself.  An error's text leaves out the numbers and names that are
    formatted into it, as everywhere in this library. *)

From Stdlib Require Import Strings.Byte Strings.String.
From S2P Require Import Prelude GoBytes GoFmt GoState RaftTypes.

(** ** Requests and responses *)

(** [rq_Body] is what [io.ReadAll] returns for the body, [rq_Query] the parsed
    query. *)
Record Request := mkReq {
  Method : string;
  Path : string;
  Query : list (string * string);
  Body : res bytes
}.

Record Response := mkResp {
  StatusCode : Z;
  Header : list (string * string);
  Content : bytes
}.

Definition bytes_of (s : string) : bytes := list_byte_of_string s.

(** [url.Values.Get]: the first value, or the empty string. *)
Fixpoint Values_Get (q : list (string * string)) (k : string) : string :=
  match q with
  | [] => ""
  | (x, v) :: q => if String.eqb x k then v else Values_Get q k
  end.

(** [strings.HasPrefix], [strings.TrimPrefix], [strings.Contains] *)
Fixpoint cut_prefix (p s : string) : option string :=
  match p, s with
  | EmptyString, _ => Some s
  | String a p, String b s => if Ascii.eqb a b then cut_prefix p s else None
  | String _ _, EmptyString => None
  end.
Definition TrimPrefix (s p : string) : string := match cut_prefix p s with Some r => r | None => s end.
Fixpoint Contains (s sub : string) : bool :=
  match cut_prefix sub s with
  | Some _ => true
  | None => match s with EmptyString => false | String _ s => Contains s sub end
  end.

Fixpoint Error_ (e : error) : string :=
  match e with
  | ErrNotLeader => "raft: not the leader"
  | Errorf msg => msg
  | Wrapf msg c => msg +:+ ": " +:+ Error_ c
  end.

Definition newline : string := String (Ascii.ascii_of_nat 10) EmptyString.
Definition quote : string := String (Ascii.ascii_of_nat 34) EmptyString.

(** [http.Error], after the headers already set. *)
Definition http_Error (h : list (string * string)) (msg : string) (code : Z) : Response :=
  mkResp code (h ++ [("Content-Type", "text/plain; charset=utf-8"); ("X-Content-Type-Options", "nosniff")])
    (bytes_of (msg +:+ newline)).

Definition StatusOK : Z := 200.
Definition StatusNoContent : Z := 204.
Definition StatusBadRequest : Z := 400.
Definition StatusNotFound : Z := 404.
Definition StatusMethodNotAllowed : Z := 405.
Definition StatusInternalServerError : Z := 500.
Definition StatusServiceUnavailable : Z := 503.
Definition StatusGatewayTimeout : Z := 504.

(** ** The server behind the handlers *)

(** The methods of [*server.Server] the handlers call. *)
Class kvServer (S : Type) := {
  ks_Get : bytes -> st S (bytes * bool);
  ks_LinearizableGet : bytes -> st S (bytes * bool);
  ks_Put : bytes -> bytes -> st S unit;
  ks_Delete : bytes -> st S unit;
  ks_Status : S -> Status.t
}.

(** ** The body of [/status] *)

Record statusResponse := mkStatusResponse {
  ID : Z;
  Term : Z;
  RoleName : string;
  LeaderID : Z;
  CommitIndex : Z;
  LastLogIndex : Z
}.

(** One member of a JSON object. *)
Definition json_field (name value : string) : string := quote +:+ name +:+ quote +:+ ":" +:+ value.
Definition json_status (r : statusResponse) : string :=
  "{" +:+ json_field "id" (Itoa (ID r)) +:+ "," +:+ json_field "term" (Itoa (Term r)) +:+ ","
  +:+ json_field "role" (quote +:+ RoleName r +:+ quote) +:+ "," +:+ json_field "leader" (Itoa (LeaderID r)) +:+ ","
  +:+ json_field "commit_index" (Itoa (CommitIndex r)) +:+ "," +:+ json_field "last_log_index" (Itoa (LastLogIndex r))
  +:+ "}" +:+ newline.

Section handlers.
Context {S : Type} `{!kvServer S}.

(** A call whose error the handler turns into a response. *)
Definition answer_call {A} (m : st S A) (ok : A -> Response) (err : S -> error -> Response) : st S Response := fun s =>
  match m s with
  | (s, Ok a) => (s, Ok (ok a))
  | (s, Err e) => (s, Ok (err s e))
  | (s, Panic) => (s, Panic)
  end.

Definition found_response (x : bytes * bool) : Response :=
  if x.2 then mkResp StatusOK [("Content-Type", "application/octet-stream")] x.1
  else http_Error [] "not found" StatusNotFound.
Definition no_content : Response := mkResp StatusNoContent [] [].

Definition handleStatus : st S Response := fun s =>
  let st := ks_Status s in
  let resp := mkStatusResponse (Status.ID st) (Status.Term st) (role_string (Status.role st)) (Status.Leader st)
                (Status.CommitIndex st) (Status.LastLogIndex st) in
  (s, Ok (mkResp StatusOK [("Content-Type", "application/json")] (bytes_of (json_status resp)))).

(** ** src/server/http.go *)

Definition writeRaftError (s : S) (err : error) : Response :=
  if is_not_leader err then
    let leader := Status.Leader (ks_Status s) in
    http_Error (if leader =? 0 then [] else [("X-Raft-Leader-Id", Itoa leader)]) "not leader" StatusServiceUnavailable
  else if Contains (Error_ err) "timed out" then http_Error [] (Error_ err) StatusGatewayTimeout
  else http_Error [] (Error_ err) StatusInternalServerError.

Definition handleGet (r : Request) (key : string) : st S Response :=
  answer_call (if String.eqb (Values_Get (Query r) "linearizable") "true" then ks_LinearizableGet (bytes_of key)
               else ks_Get (bytes_of key)) found_response writeRaftError.

Definition handlePut (r : Request) (key : string) : st S Response :=
  match Body r with
  | Err e => ret (http_Error [] ("reading request body: " +:+ Error_ e) StatusBadRequest)
  | Panic => lift Panic
  | Ok value => answer_call (ks_Put (bytes_of key) value) (fun _ => no_content) writeRaftError
  end.

Definition handleDelete (key : string) : st S Response :=
  answer_call (ks_Delete (bytes_of key)) (fun _ => no_content) writeRaftError.

Definition handleKV (r : Request) : st S Response :=
  let key := TrimPrefix (Path r) "/kv/" in
  if String.eqb key "" then ret (http_Error [] "missing key" StatusBadRequest)
  else if String.eqb (Method r) "GET" then handleGet r key
  else if String.eqb (Method r) "PUT" then handlePut r key
  else if String.eqb (Method r) "DELETE" then handleDelete key
  else ret (http_Error [("Allow", "GET, PUT, DELETE")] "method not allowed" StatusMethodNotAllowed).

Definition Handler (r : Request) : st S Response :=
  match cut_prefix "/kv/" (Path r) with
  | Some _ => handleKV r
  | None => if String.eqb (Path r) "/status" then handleStatus
            else ret (http_Error [] "404 page not found" StatusNotFound)
  end.

End handlers.

(** ** src/cmd/kvstore/handlers.go *)

Module Api.
Section handlers.
Context {S : Type} `{!kvServer S}.

Definition writeProposeError (s : S) (err : error) : Response :=
  if is_not_leader err then
    let leader := Status.Leader (ks_Status s) in
    http_Error (if leader =? 0 then [] else [("X-Raft-Leader-Id", Itoa leader)]) "not leader" StatusServiceUnavailable
  else if Contains (Error_ err) "timed out" then http_Error [] (Error_ err) StatusGatewayTimeout
  else http_Error [] (Error_ err) StatusInternalServerError.

Definition handleGet (key : string) : st S Response :=
  answer_call (ks_Get (bytes_of key)) found_response
    (fun _ err => http_Error [] ("get: " +:+ Error_ err) StatusInternalServerError).

Definition handlePut (r : Request) (key : string) : st S Response :=
  match Body r with
  | Err e => ret (http_Error [] ("reading request body: " +:+ Error_ e) StatusBadRequest)
  | Panic => lift Panic
  | Ok value => answer_call (ks_Put (bytes_of key) value) (fun _ => no_content) writeProposeError
  end.

Definition handleDelete (key : string) : st S Response :=
  answer_call (ks_Delete (bytes_of key)) (fun _ => no_content) writeProposeError.

Definition handleKV (r : Request) : st S Response :=
  let key := TrimPrefix (Path r) "/kv/" in
  if String.eqb key "" then ret (http_Error [] "missing key" StatusBadRequest)
  else if String.eqb (Method r) "GET" then handleGet key
  else if String.eqb (Method r) "PUT" then handlePut r key
  else if String.eqb (Method r) "DELETE" then handleDelete key
  else ret (http_Error [("Allow", "GET, PUT, DELETE")] "method not allowed" StatusMethodNotAllowed).

Definition handleStatus : st S Response := fun s =>
  let st := ks_Status s in
  let resp := mkStatusResponse (Status.ID st) (Status.Term st) (role_string (Status.role st)) (Status.Leader st)
                (Status.CommitIndex st) (Status.LastLogIndex st) in
  (s, Ok (mkResp StatusOK [("Content-Type", "application/json")] (bytes_of (json_status resp)))).

Definition routes (r : Request) : st S Response :=
  match cut_prefix "/kv/" (Path r) with
  | Some _ => handleKV r
  | None => if String.eqb (Path r) "/status" then handleStatus
            else ret (http_Error [] "404 page not found" StatusNotFound)
  end.
End handlers.
End Api.
