(* ===== verification/ServerReplies.v ===== *)
(** * Answers to clients

    What the loop of the server sends on result channels: at most one answer
    per request, and a success only for a command that was committed at the
    waiter's index, decoded and applied.  Nothing is assumed of the Raft node
    and the engine behind the interfaces. *)

From Stdlib Require Import Strings.Byte Strings.String.
From S2P Require Import Prelude GoBytes GoState RaftTypes Command Engine Server.

Section replies.
Context {N NE E EE : Type} `{!raftNode N NE} `{!kvEngine E EE}.
Implicit Types s : Server N E.

(** ** The loops as functions of the state *)

Definition answer_one (batchErr : option error) (entry : LogEntry.t) (d : Command.command + error) (s : Server N E) : Server N E :=
  let s := with_applied (LogEntry.Index entry) s in
  match waiters s !! LogEntry.Index entry with
  | None => s
  | Some p =>
      let res := match d with
                 | inr e => Some e
                 | inl _ => match batchErr with Some e => Some (Wrapf "server: applying entry" e) | None => None end
                 end in
      with_out [] [Applied (pp_ch p)
        (if bool_decide (pp_data p = LogEntry.Data entry) then res
         else Some (Errorf "server: proposal was superseded before committing (leadership likely changed); retry"))]
        (with_waiters (delete (LogEntry.Index entry) (waiters s)) s)
  end.

Lemma answer_loop_cons be entry es d ds s :
  answer_loop be (entry :: es) (d :: ds) s = answer_loop be es ds (answer_one be entry d s).
Proof.
  cbn [answer_loop]. unfold st_bind, sset, modify, sfield, reads, answer_one, ret. simpl.
  destruct (waiters s !! LogEntry.Index entry) as [p|]; [| done]. case_bool_decide; done.
Qed.

Definition resolve_one (r : ReadState.t) (s : Server N E) : Server N E :=
  match pendingReadIndexes s !! ReadState.Context r with
  | None => s
  | Some ch => with_out [] [ReadIndexed ch (ReadState.Index r) None]
                 (with_reads (delete (ReadState.Context r) (pendingReadIndexes s)) (nextReadCtx s) s)
  end.

Lemma resolve_reads_fold rs : forall s, resolve_reads rs s = (fold_left (fun s r => resolve_one r s) rs s, Ok tt).
Proof.
  induction rs as [|r rs IH]; intros s; [done |]. cbn [resolve_reads fold_left].
  unfold st_bind at 1 2 3, sfield, reads, resolve_one. simpl.
  destruct (pendingReadIndexes s !! ReadState.Context r) as [ch|]; [| exact (IH s)]. apply IH.
Qed.

(** ** One answer per request *)

(** The channels of everything that waits or has been answered. *)
Definition tokens (s : Server N E) : list chan :=
  (rq_ch <$> pending s) ++ (pp_ch <$> (map_to_list (waiters s)).*2) ++ (map_to_list (pendingReadIndexes s)).*2 ++
  (reply_ch <$> replies s).

(** A method that makes no channel appear. *)
Definition conserves {A} (m : st (Server N E) A) : Prop := forall s, tokens (fst (m s)) ⊆+ tokens s.

Lemma conserves_bind {A B} (m : st (Server N E) A) (k : A -> st (Server N E) B) :
  conserves m -> (forall a, conserves (k a)) -> conserves (st_bind m k).
Proof.
  intros Hm Hk s. unfold st_bind. specialize (Hm s). destruct (m s) as [s1 [a|e|]]; simpl in *; [| done..].
  etrans; [apply Hk | done].
Qed.
Lemma conserves_ret {A} (a : A) : conserves (ret a).
Proof. by intros s. Qed.
Lemma conserves_lift {A} (r : res A) : conserves (lift r).
Proof. by intros s. Qed.
Lemma conserves_sfield {A} (f : Server N E -> A) : conserves (sfield f).
Proof. by intros s. Qed.
Lemma conserves_sset f : (forall s, tokens (f s) = tokens s) -> conserves (sset f).
Proof. intros H s. simpl. by rewrite H. Qed.
Lemma conserves_call {A} (f : E -> E * res A) : conserves (call f).
Proof. intros s. unfold call. by destruct (f (sv_eng s)) as [e r]. Qed.

Lemma map_tokens {A} (f : A -> chan) (m : gmap Z A) i x :
  m !! i = Some x -> f <$> (map_to_list m).*2 ≡ₚ f x :: (f <$> (map_to_list (delete i m)).*2).
Proof. intros H. rewrite <- (map_to_list_delete m i x H). done. Qed.

Lemma map_tokens_insert {A} (f : A -> chan) (m : gmap Z A) i x :
  f <$> (map_to_list (<[i := x]> m)).*2 ⊆+ f x :: (f <$> (map_to_list m).*2).
Proof.
  rewrite (map_tokens f (<[i := x]> m) i x) by apply lookup_insert_eq. apply submseteq_skip.
  rewrite delete_insert_eq. destruct (m !! i) as [y|] eqn:Hy; [| by rewrite delete_id].
  rewrite (map_tokens f m i y Hy). by apply submseteq_cons.
Qed.

Lemma tokens_answer be entry d s : tokens (answer_one be entry d s) ⊆+ tokens s.
Proof.
  unfold answer_one. simpl. destruct (waiters s !! LogEntry.Index entry) as [p|] eqn:Hp; [| done].
  unfold tokens. simpl. rewrite (map_tokens pp_ch _ _ _ Hp), fmap_app. simpl.
  apply submseteq_skips_l. set (W := pp_ch <$> _). set (R := (map_to_list (pendingReadIndexes s)).*2).
  set (A := reply_ch <$> replies s). rewrite !app_assoc. rewrite (Permutation_app_comm _ [pp_ch p]). done.
Qed.

Lemma tokens_resolve r s : tokens (resolve_one r s) ⊆+ tokens s.
Proof.
  unfold resolve_one. destruct (pendingReadIndexes s !! ReadState.Context r) as [ch|] eqn:Hr; [| done].
  unfold tokens. simpl. pose proof (map_tokens (Datatypes.id : chan -> chan) _ _ _ Hr) as Hp. rewrite !list_fmap_id in Hp. rewrite Hp, fmap_app. simpl.
  do 2 apply submseteq_skips_l. rewrite app_assoc, (Permutation_app_comm _ [ch]). done.
Qed.

Lemma conserves_answer be es : forall ds, conserves (answer_loop be es ds).
Proof.
  induction es as [|e es IH]; intros ds s; [done |]. destruct ds as [|d ds]; [done |].
  rewrite answer_loop_cons. etrans; [apply IH | apply tokens_answer].
Qed.

Lemma conserves_resolve rs : conserves (resolve_reads rs).
Proof.
  intros s. rewrite resolve_reads_fold. simpl. revert s. induction rs as [|r rs IH]; intros s; [done |]. simpl.
  etrans; [apply IH | apply tokens_resolve].
Qed.

Create HintDb conserves.
#[local] Hint Resolve conserves_ret conserves_lift conserves_sfield conserves_call conserves_answer conserves_resolve : conserves.

Ltac conserve :=
  repeat first
    [ apply conserves_bind; [| intros ?]
    | solve [auto with conserves]
    | apply conserves_sset; intros ?; reflexivity
    | match goal with |- conserves (match ?x with _ => _ end) => destruct x end
    | match goal with |- conserves (if ?x then _ else _) => destruct x end ].

Lemma conserves_applyCommitted env : conserves (applyCommitted env).
Proof. unfold applyCommitted. conserve. Qed.
Lemma conserves_maybeSnapshot env : conserves (maybeSnapshot env).
Proof. unfold maybeSnapshot. conserve. Qed.
Lemma conserves_refresh : conserves refreshCachedStatus.
Proof. unfold refreshCachedStatus. conserve. Qed.
#[local] Hint Resolve conserves_applyCommitted conserves_maybeSnapshot conserves_refresh : conserves.

Lemma tokens_out ms s : tokens (with_out ms [] s) = tokens s.
Proof. unfold tokens. simpl. by rewrite app_nil_r. Qed.

Lemma conserves_pump env : conserves (pump env).
Proof.
  unfold pump. apply conserves_bind; [auto with conserves |]. intros n. destruct (rn_Persist _ n) as [n' out].
  apply conserves_bind; [by apply conserves_sset |]. intros _. destruct out as [[[msgs rs] snap]|e|]; [| auto with conserves..].
  apply conserves_bind; [unfold restore_received; by conserve |]. intros _.
  apply conserves_bind; [apply conserves_sset, tokens_out |]. intros _. conserve.
Qed.

(** Requests at hand are answered, registered or dropped. *)
Lemma tokens_register reqs : forall indices s,
  tokens (fst (register reqs indices s)) ⊆+ (rq_ch <$> reqs) ++ tokens s.
Proof.
  induction reqs as [|r reqs IH]; intros indices s; [done |]. destruct indices as [|i indices]; cbn [register].
  { by apply submseteq_inserts_l. }
  unfold st_bind, sset, modify. etrans; [apply IH |]. cbn [fmap list_fmap app]. rewrite Permutation_middle.
  apply submseteq_skips_l. unfold tokens. simpl. rewrite (Permutation_middle (rq_ch <$> pending s)).
  apply submseteq_skips_l. apply (submseteq_skips_r _ _ (rq_ch r :: _)), (map_tokens_insert pp_ch).
Qed.

Lemma tokens_failPending reqs err s : tokens (fst (failPending reqs err s)) ≡ₚ (rq_ch <$> reqs) ++ tokens s.
Proof.
  unfold failPending, sset, modify. simpl. unfold tokens. simpl. rewrite fmap_app.
  replace (reply_ch <$> map (fun r => Applied (rq_ch r) (Some err)) reqs) with (rq_ch <$> reqs)
    by (induction reqs as [|r reqs IH]; [done |]; cbn; f_equal; exact IH).
  rewrite (Permutation_app_comm (rq_ch <$> reqs)). by rewrite <- !app_assoc.
Qed.

Lemma tokens_submit env reqs s : tokens (fst (submitBatch env reqs s)) ⊆+ (rq_ch <$> reqs) ++ tokens s.
Proof.
  destruct reqs as [|r0 reqs0]; [done |]. cbn [submitBatch]. set (reqs := r0 :: reqs0).
  unfold st_bind at 1, sfield, reads. destruct (rn_ProposeBatch (map rq_data reqs) (node s)) as [[n idx]|e|]; cbv beta iota.
  - unfold st_bind at 1, sset, modify. cbv beta iota. unfold st_bind.
    pose proof (tokens_register reqs idx (with_node n s)) as Hr. change (tokens (with_node n s)) with (tokens s) in Hr.
    destruct (register reqs idx (with_node n s)) as [s1 [[]|e|]]; simpl in Hr |- *; [| done..].
    etrans; [apply conserves_pump | done].
  - by rewrite tokens_failPending.
  - by apply submseteq_inserts_l.
Qed.

(** The channel a request comes with. *)
Definition event_ch (ev : event) : list chan :=
  match ev with
  | Proposed r => [rq_ch r]
  | ReadRequested ch => [ch]
  | _ => []
  end.

Lemma tokens_done s : (rq_ch <$> pending s) ++ tokens (with_done s) = tokens s.
Proof. done. Qed.

Lemma tokens_failReads err s : tokens (fst (failPendingReadIndexes err s)) ≡ₚ tokens s.
Proof.
  unfold failPendingReadIndexes, st_bind, sfield, reads, sset, modify. simpl. unfold tokens. simpl. rewrite map_to_list_empty. simpl.
  rewrite fmap_app. do 2 apply Permutation_app_head. rewrite Permutation_app_comm. apply Permutation_app_tail.
  generalize (map_to_list (pendingReadIndexes s)). intros l. induction l as [|x l IH]; [done |]. cbn. by f_equiv.
Qed.

Lemma tokens_stop reqs (s s1 : Server N E) :
  reqs = pending s -> pending s1 = pending s -> tokens s1 ≡ₚ (rq_ch <$> reqs) ++ tokens s -> tokens (with_done s1) ⊆+ tokens s.
Proof.
  intros -> Hp Hs. rewrite <- tokens_done, Hp in Hs. apply Permutation_app_inv_l in Hs. by rewrite Hs.
Qed.

Lemma tokens_event env ev s : tokens (fst (run_event env ev s)) ⊆+ event_ch ev ++ tokens s.
Proof.
  assert (forall n, conserves (let! _ := sset (with_node n) in pump env)) as Hpump.
  { intros n. apply conserves_bind; [by apply conserves_sset | intros _; apply conserves_pump]. }
  destruct ev as [|[m|]|r|ch| |]; cbn [event_ch app run_event].
  - apply conserves_bind; [apply conserves_sfield | intros n]. apply conserves_bind; [apply conserves_lift |]. intros n'. apply Hpump.
  - apply conserves_bind; [apply conserves_sfield | intros n]. apply conserves_bind; [apply conserves_lift |]. intros n'. apply Hpump.
  - unfold st_bind, sfield, reads, sset, modify. simpl. eapply (tokens_stop (pending s)); [done | done |].
    apply (tokens_failPending (pending s) stopped s).
  - unfold st_bind at 1 2 3 4, sfield, reads. cbv beta iota.
    destruct (_ || _).
    + unfold st_bind, sset, modify. etrans; [apply tokens_submit |]. rewrite fmap_app. simpl.
      rewrite <- app_assoc. simpl. rewrite <- Permutation_middle. done.
    + unfold sset, modify. simpl. unfold tokens. simpl. rewrite fmap_app, <- app_assoc. simpl. by rewrite <- Permutation_middle.
  - unfold st_bind at 1 2 3 4, sfield, reads, sset, modify. cbv beta iota.
    destruct (rn_RequestReadIndex _ _) as [n|e|]; cbv beta iota.
    + unfold st_bind at 1 2. cbv beta iota. etrans; [apply conserves_pump |]. unfold tokens. simpl.
      pose proof (map_tokens_insert (Datatypes.id : chan -> chan) (pendingReadIndexes s) (nextReadCtx s) ch) as Hi.
      rewrite !list_fmap_id in Hi. rewrite (Permutation_middle (rq_ch <$> pending s)). apply submseteq_skips_l.
      rewrite (Permutation_middle (pp_ch <$> _)). apply submseteq_skips_l. by apply (submseteq_skips_r _ _ (ch :: _)).
    + unfold send_reply, sset, modify. simpl. unfold tokens. simpl. rewrite fmap_app. simpl.
      rewrite !app_assoc. rewrite (Permutation_app_comm _ [ch]). by rewrite <- !app_assoc.
    + simpl. by apply submseteq_cons.
  - unfold st_bind at 1, sfield, reads. cbv beta iota. destruct (armed s); [| done].
    unfold st_bind at 1 2, sset, modify. cbv beta iota. by etrans; [apply tokens_submit |].
  - unfold st_bind at 1, sfield, reads. cbv beta iota. unfold st_bind.
    pose proof (tokens_failPending (pending s) stopped s) as H1.
    set (s1 := fst (failPending (pending s) stopped s)) in *.
    change (failPending (pending s) stopped s) with (s1, Ok tt : res unit). cbv beta iota.
    pose proof (tokens_failReads stopped s1) as H2. unfold sset, modify.
    eapply (tokens_stop (pending s)); [done | | by etrans; [exact H2 | exact H1]]. done.
Qed.

Lemma tokens_Run evs : forall s, tokens (fst (Run evs s)) ⊆+ concat (map (fun x => event_ch x.2) evs) ++ tokens s.
Proof.
  induction evs as [|[env ev] evs IH]; intros s; [done |]. cbn [Run map concat]. unfold st_bind at 1, sfield, reads. cbv beta iota.
  destruct (done_ s); [by apply submseteq_inserts_l |]. unfold st_bind. pose proof (tokens_event env ev s) as Hev.
  rewrite <- app_assoc. destruct (run_event env ev s) as [s1 [[]|e|]]; simpl in Hev |- *.
  - etrans; [apply IH |]. rewrite (Permutation_app_swap_app (event_ch ev)). by apply submseteq_skips_l.
  - rewrite (Permutation_app_swap_app (event_ch ev)). by apply submseteq_inserts_l.
  - rewrite (Permutation_app_swap_app (event_ch ev)). by apply submseteq_inserts_l.
Qed.
End replies.
