(* ===== verification/ServerSteps.v ===== *)
(** * What an event does to the node and the outbox

    The loop of src/server/server.go seen from the Raft node and the network:
    an event makes at most one call on the node and then pumps, the pump saves
    the node and sends what the save releases, and only a snapshot touches the
    node after that.  Nothing is assumed of the node and the engine. *)

From Stdlib Require Import Strings.Byte Strings.String.
From S2P Require Import Prelude GoBytes GoState RaftTypes Command Engine Server ServerReplies.

Section steps.
Context {N NE E EE : Type} `{!raftNode N NE} `{!kvEngine E EE}.
Implicit Types s : Server N E.

(** The batch an event submits. *)
Definition submits (ev : event) s : list proposeRequest :=
  match ev with
  | Proposed r => if (batchWindow s <=? 0) || (maxBatchSize s <=? len (pending s ++ [r])) then pending s ++ [r] else []
  | BatchTimer => if armed s then pending s else []
  | _ => []
  end.

(** ** Calls that leave node and outbox alone *)

Definition still s s' : Prop := node s' = node s /\ sent s' = sent s.

#[local] Instance still_trans : Transitive still.
Proof. intros s1 s2 s3 [? ?] [? ?]. split; congruence. Qed.

Lemma still_replies rs s : still s (with_out [] rs s).
Proof. split; [done |]. simpl. by rewrite app_nil_r. Qed.

Lemma answer_loop_still be es : forall ds s s' r, answer_loop be es ds s = (s', r) -> still s s'.
Proof.
  induction es as [|e es IH]; intros ds s s' r; [by intros [= <- _] |]. destruct ds as [|d ds]; [by intros [= <- _] |].
  rewrite answer_loop_cons. intros H. etransitivity; [| by eapply IH]. unfold answer_one. destruct (waiters _ !! _); [| done].
  etransitivity; [| apply still_replies]. done.
Qed.

Lemma applyCommitted_still env s s' r : applyCommitted env s = (s', r) -> still s s'.
Proof.
  unfold applyCommitted. unfold st_bind at 1 2, sfield, reads. cbv beta iota. destruct (_ <=? _); [by intros [= <- _] |].
  unfold st_bind at 1, lift. destruct (rn_Entries _ _ _) as [[|e es]|err|]; [by intros [= <- _] | | by intros [= <- _]..].
  unfold st_bind at 1. destruct (decode_all (e :: es)) as [ds|err|]; [| by intros [= <- _]..]. unfold st_bind.
  destruct (ops_of ds) as [|o ops]; [apply answer_loop_still |]. unfold call.
  destruct (en_ApplyBatch env _ _) as [e1 [[]|err|]]; [| | by intros [= <- _]]; intros H; by apply answer_loop_still in H.
Qed.

Lemma restore_still env snap s s' r : restore_received env snap s = (s', r) -> still s s'.
Proof.
  unfold restore_received. destruct snap as [sn|]; [| by intros [= <- _]]. unfold st_bind, call.
  destruct (en_RestoreSnapshot _ _ _) as [e [[]|err|]]; by intros [= <- _].
Qed.

Lemma resolve_still rs : forall s, still s (fold_left (fun s r => resolve_one r s) rs s).
Proof.
  induction rs as [|r rs IH]; intros s; [done |]. cbn [fold_left]. etransitivity; [| apply IH].
  unfold resolve_one. destruct (pendingReadIndexes s !! _); [| done]. etransitivity; [| apply still_replies]. done.
Qed.

(** ** The pump *)

(** A snapshot of the application is handed to the node, or nothing is. *)
Definition compacts (n n' : N) : Prop := n' = n \/ exists index data, rn_CreateSnapshot index data n = Ok n'.

Lemma maybeSnapshot_steps env s s' r : maybeSnapshot env s = (s', r) -> sent s' = sent s /\ compacts (node s) (node s').
Proof.
  assert (forall e, sent (with_eng e s) = sent s /\ compacts (node s) (node (with_eng e s))) as Hsame by (split; [done | by left]).
  unfold maybeSnapshot. unfold st_bind at 1 2 3, sfield, reads. cbv beta iota. destruct (_ <=? 0); [intros [= <- _]; split; [done | by left] |].
  destruct (_ <=? _); [intros [= <- _]; split; [done | by left] |]. destruct (_ <? _); [intros [= <- _]; split; [done | by left] |].
  unfold st_bind, call. destruct (en_Snapshot env (sv_eng s)) as [e1 [data|err|]]; [| intros [= <- _]; apply Hsame..].
  change (node (with_eng e1 s)) with (node s).
  destruct (rn_CreateSnapshot _ _ _) as [n|err|] eqn:Hc; intros [= <- _]; [| apply Hsame..].
  split; [done |]. right. by eexists _, _.
Qed.

Lemma pump_steps env s s' : pump env s = (s', Ok tt) ->
  exists n out, rn_Persist (pe_persist env) (node s) = (n, out) /\
    match out with
    | Ok (ms, _, _) => sent s' = sent s ++ ms /\ compacts n (node s')
    | Err _ => node s' = n /\ sent s' = sent s
    | Panic => False
    end.
Proof.
  unfold pump. unfold st_bind at 1, sfield, reads. cbv beta iota. destruct (rn_Persist (pe_persist env) (node s)) as [n out] eqn:Hp.
  intros H. exists n, out. split; [done |]. revert H. unfold st_bind at 1, sset, modify. cbv beta iota.
  destruct out as [[[ms rs] snap]|e|]; [| by intros [= <-] | done].
  unfold st_bind at 1. destruct (restore_received _ snap _) as [s1 [[]|e|]] eqn:H1; [| done..]. apply restore_still in H1 as [Hn1 Ho1].
  unfold st_bind at 1. cbv beta iota. unfold st_bind at 1.
  destruct (applyCommitted _ _) as [s2 [[]|e|]] eqn:H2; [| done..]. apply applyCommitted_still in H2 as [Hn2 Ho2].
  unfold st_bind at 1. destruct (maybeSnapshot _ s2) as [s3 [[]|e|]] eqn:H3; [| done..]. apply maybeSnapshot_steps in H3 as [Ho3 Hc].
  unfold st_bind at 1. rewrite resolve_reads_fold. unfold refreshCachedStatus, st_bind, sfield, reads, sset, modify.
  destruct (resolve_still rs s3) as [Hn4 Ho4]. intros [= <-]. simpl in *. split; [congruence |].
  rewrite Hn4. replace n with (node s2) by congruence. done.
Qed.

(** ** Events *)

(** A batch that is not empty is proposed. *)
Definition proposes (rq : list proposeRequest) (n : N) : option (res N) :=
  match rq with
  | [] => None
  | _ => Some (let* '(n, _) := rn_ProposeBatch (map rq_data rq) n in Ok n)
  end.

(** The call an event makes on the node. *)
Definition calls (ev : event) s : option (res N) :=
  match ev with
  | Ticked => Some (rn_Tick (node s))
  | Received (Some m) => Some (rn_Step m (node s))
  | Proposed _ | BatchTimer => proposes (submits ev s) (node s)
  | ReadRequested _ => Some (rn_RequestReadIndex (nextReadCtx s) (node s))
  | _ => None
  end.

(** The node is [n] now, and the pump runs. *)
Definition pumped (env : pump_env) s (n : N) s' : Prop :=
  exists s1, node s1 = n /\ sent s1 = sent s /\ pump env s1 = (s', Ok tt).

Lemma register_still rq : forall indices s s' r, register rq indices s = (s', r) -> still s s'.
Proof.
  induction rq as [|q rq IH]; intros indices s s' r; [by intros [= <- _] |]. destruct indices as [|i indices]; cbn [register]; [by intros [= <- _] |].
  unfold st_bind, sset, modify. intros H. etransitivity; [| by eapply IH]. done.
Qed.

Lemma submit_steps env rq s s' : submitBatch env rq s = (s', Ok tt) ->
  match rq with
  | [] => still s s'
  | rq => match rn_ProposeBatch (map rq_data rq) (node s) with Ok (n, _) => pumped env s n s' | Err _ => still s s' | Panic => False end
  end.
Proof.
  destruct rq as [|r0 rq0]; [by intros [= <-] |]. cbn [submitBatch]. set (rq := r0 :: rq0). unfold st_bind at 1, sfield, reads. cbv beta iota.
  destruct (rn_ProposeBatch (map rq_data rq) (node s)) as [[n idx]|e|] eqn:Hp; [| | done].
  - unfold st_bind at 1, sset, modify. cbv beta iota. unfold st_bind.
    destruct (register rq idx (with_node n s)) as [s1 [[]|e|]] eqn:Hr; [| done..]. apply register_still in Hr as [Hn Ho].
    intros H. by exists s1.
  - intros [= <-]. apply still_replies.
Qed.

Lemma event_steps env ev s s' : run_event env ev s = (s', Ok tt) ->
  match calls ev s with
  | Some (Ok n) => pumped env s n s'
  | Some Panic => False
  | _ => still s s'
  end.
Proof.
  assert (forall rq a, submitBatch env rq (with_pending [] a s) = (s', Ok tt) ->
    match proposes rq (node s) with
    | Some (Ok n) => pumped env s n s' | Some Panic => False | _ => still s s' end) as Hsub.
  { intros rq a H%submit_steps. destruct rq as [|r rq]; [done |]. cbn [proposes].
    change (node (with_pending [] a s)) with (node s) in H. by destruct (rn_ProposeBatch _ _) as [[n ix]|e|]. }
  assert (forall n, (let! _ := sset (with_node n) in pump env) s = (s', Ok tt) -> pumped env s n s') as Hpump.
  { intros n H. by exists (with_node n s). }
  destruct ev as [|[m|]|r|ch| |]; cbn [run_event calls].
  - unfold st_bind at 1 2, sfield, reads, lift. cbv beta iota. destruct (rn_Tick (node s)); [apply Hpump | done..].
  - unfold st_bind at 1 2, sfield, reads, lift. cbv beta iota. destruct (rn_Step m (node s)); [apply Hpump | done..].
  - unfold st_bind, sfield, reads, sset, modify. intros [= <-]. split; [done | simpl; by rewrite app_nil_r].
  - unfold st_bind at 1 2 3 4, sfield, reads. cbv beta iota. cbn [submits]. destruct (_ || _); [intros H; exact (Hsub _ _ H) |].
    unfold sset, modify. by intros [= <-].
  - unfold st_bind at 1 2 3 4, sfield, reads, sset, modify. cbv beta iota.
    destruct (rn_RequestReadIndex (nextReadCtx s) (node s)) as [n|e|]; [| | done].
    + unfold st_bind at 1 2. cbv beta iota. intros H. eexists. split_and!; [| | exact H]; done.
    + unfold send_reply, sset, modify. intros [= <-]. etransitivity; [| apply still_replies]. done.
  - unfold st_bind at 1, sfield, reads. cbv beta iota. cbn [submits]. destruct (armed s); [| by intros [= <-]].
    unfold st_bind at 1 2, sset, modify. intros H. exact (Hsub _ _ H).
  - unfold st_bind, sfield, reads, failPending, failPendingReadIndexes, sset, modify. intros [= <-].
    split; [done | simpl; by rewrite !app_nil_r].
Qed.
End steps.
