(* ===== verification/ServerLog.v ===== *)
(** * The server as a replicated state machine

    What the server promises when the Raft node behind its interface follows a
    committed log and the engine keeps a map: the engine holds the commands of
    the log up to [lastApplied], a client is told of success only for an entry
    of the log that was applied, and a confirmed read finds the engine at
    least as far as its index. *)

From Stdlib Require Import Strings.Byte Strings.String.
From S2P Require Import Prelude GoBytes GoState RaftTypes Command Engine EngineSnapshot EngineRun Server ServerReplies ServerSteps.

(** ** The map of a log *)

Definition ops_at (es : list LogEntry.t) : list BatchOp :=
  match decode_all es with Ok ds => ops_of ds | _ => [] end.

Lemma decodeAndValidate_no_panic entry : no_panic (decodeAndValidateCommand entry).
Proof.
  unfold decodeAndValidateCommand. pose proof (Command.decodeCommand_no_panic (LogEntry.Data entry)) as H.
  destruct (Command.decodeCommand _) as [cmd|e|]; cbn [res_wrap res_bind]; [by destruct (_ && _) | done | done].
Qed.

Lemma decode_all_total es : exists ds, decode_all es = Ok ds /\ length ds = length es.
Proof.
  induction es as [|e es (ds & IH & Hl)]; [by exists [] |]. cbn [decode_all]. pose proof (decodeAndValidate_no_panic e) as H.
  destruct (decodeAndValidateCommand e) as [cmd|err|]; [| | done]; rewrite IH; cbn [res_bind]; eexists;
    (split; [reflexivity | simpl; by rewrite Hl]).
Qed.

Lemma ops_at_app l k : ops_at (l ++ k) = ops_at l ++ ops_at k.
Proof.
  unfold ops_at. destruct (decode_all_total l) as (dl & Hl & _), (decode_all_total k) as (dk & Hk & _).
  assert (decode_all (l ++ k) = Ok (dl ++ dk)) as ->; [| rewrite Hl, Hk; apply omap_app].
  revert dl Hl. induction l as [|e l IH]; intros dl; cbn [decode_all app]; [by intros [= <-] |].
  destruct (decode_all_total l) as (dl' & Hl' & _). rewrite Hl' in IH |- *. rewrite (IH dl' eq_refl).
  destruct (decodeAndValidateCommand e); cbn [res_bind]; by intros [= <-].
Qed.

(** A batch overwrites the keys it names and keeps the others. *)
Lemma kv_batch_lookup ops : forall K1 K2 k,
  (k ∈ op_key <$> ops \/ K1 !! k = K2 !! k) -> kv_batch K1 ops !! k = kv_batch K2 ops !! k.
Proof.
  induction ops as [|o ops IH]; intros K1 K2 k Hk; [by destruct Hk as [?%elem_of_nil|] |]. unfold kv_batch in *. cbn [fold_left].
  apply IH. destruct (decide (k = op_key o)) as [->|Hne].
  - right. unfold kv_op. destruct (op_deleted o); [by rewrite !lookup_delete_eq | by rewrite !lookup_insert_eq].
  - destruct Hk as [Hk | Hk]; [left; set_solver |]. right. unfold kv_op.
    destruct (op_deleted o); [by rewrite !lookup_delete_ne | by rewrite !lookup_insert_ne].
Qed.
Lemma kv_batch_other ops : forall K k, k ∉ op_key <$> ops -> kv_batch K ops !! k = K !! k.
Proof.
  induction ops as [|o ops IH]; intros K k Hk; [done |]. unfold kv_batch in *. cbn [fold_left]. rewrite IH by set_solver.
  assert (k <> op_key o) by set_solver. unfold kv_op. destruct (op_deleted o); [by rewrite lookup_delete_ne | by rewrite lookup_insert_ne].
Qed.

Section log.
Context (L : list LogEntry.t) (hz : Z).

(** The map after the first [n] entries. *)
Definition kv_at (n : Z) : kv := kv_batch ∅ (ops_at (take (Z.to_nat n) L)).

(** The entries in [(a, b]]. *)
Definition span (a b : Z) : list LogEntry.t := take (Z.to_nat (b - a)) (drop (Z.to_nat a) L).

Lemma kv_at_span a b : 0 <= a <= b -> kv_at b = kv_batch (kv_at a) (ops_at (span a b)).
Proof.
  intros H. unfold kv_at, span, kv_batch. rewrite <- fold_left_app, <- ops_at_app. do 2 f_equal.
  replace (Z.to_nat b) with (Z.to_nat a + Z.to_nat (b - a))%nat by lia. by rewrite take_take_drop.
Qed.

(** A map that becomes that of the log when the entries behind [a] are applied
    and the horizon [hz] is passed: a restarted node applies entries again whose
    effects its engine already holds, so until it has passed all of them the
    engine may be ahead in places.  With horizon 0 there is one such map. *)
Definition fuzzy (a : Z) (K : kv) : Prop := forall b, a <= b -> hz <= b -> kv_batch K (ops_at (span a b)) = kv_at b.

Lemma fuzzy_exact a K : hz <= a -> fuzzy a K -> K = kv_at a.
Proof.
  intros Ha Hf. rewrite <- (Hf a) by lia. unfold span. by rewrite Z.sub_diag.
Qed.
Lemma fuzzy_kv_at a : 0 <= a -> fuzzy a (kv_at a).
Proof. intros Ha b Hab _. symmetry. apply kv_at_span. lia. Qed.
Lemma fuzzy_apply a c K : 0 <= a <= c -> fuzzy a K -> fuzzy c (kv_batch K (ops_at (span a c))).
Proof.
  intros Hac Hf b Hcb Hb. rewrite <- (Hf b) by lia. unfold kv_batch. rewrite <- fold_left_app, <- ops_at_app. do 2 f_equal.
  unfold span. replace (Z.to_nat (b - a)) with (Z.to_nat (c - a) + Z.to_nat (b - c))%nat by lia.
  rewrite <- take_take_drop, drop_drop. do 3 f_equal. lia.
Qed.

(** What an engine holds that has applied the first [m] entries before, on a
    node that starts over. *)
Lemma fuzzy_replay m : m <= hz -> fuzzy 0 (kv_at m).
Proof.
  intros Hm b Hb HH. apply map_eq. intros k.
  replace (span 0 b) with (take (Z.to_nat b) L) by (unfold span; by rewrite Z.sub_0_r, drop_0).
  destruct (decide (k ∈ op_key <$> ops_at (take (Z.to_nat b) L))) as [Hin|Hno]; [apply kv_batch_lookup; by left |].
  rewrite kv_batch_other by done. unfold kv_at. rewrite !kv_batch_other; [done | done |].
  replace (Z.to_nat b) with (Z.to_nat m + (Z.to_nat b - Z.to_nat m))%nat in Hno by lia.
  rewrite <- take_take_drop, ops_at_app in Hno. set_solver.
Qed.

(** A snapshot that stands for a map and fits a record of the node's log. *)
Definition snapshotMax : Z := 2 ^ 32 - 38.
Definition image (data : bytes) (K : kv) : Prop :=
  exists es, data = snapshot_bytes es /\ NoDup (se_key <$> es) /\ len data < snapshotMax /\ forall k, kv_get (kv_of es) k = kv_get K k.

(** ** The promises behind the interfaces *)

(** The node follows the log [L], in the executions in which what it holds as
    committed agrees with [L]: [fl_agree n a] says so of a node behind which the
    application has reached index [a], and [fl_msg n] which messages its peers
    send.  [fl_any n a]: the application has reached index [a], possibly short of
    a snapshot the node is yet to report; [fl_ready n a]: the node holds every
    entry behind [a]. *)
Class follows (N NE : Type) `{!raftNode N NE} (fl_any fl_ready fl_agree : N -> Z -> Prop) (fl_msg : N -> Message.t -> Prop) := {
  fl_weaken n a : fl_ready n a -> fl_any n a;
  fl_Tick n n' a : fl_any n a -> rn_Tick n = Ok n' -> fl_agree n' a -> fl_any n' a;
  fl_Step n n' m a : fl_any n a -> fl_msg n m -> rn_Step m n = Ok n' -> fl_agree n' a -> fl_any n' a;
  fl_ProposeBatch n n' ds ix a : fl_any n a -> rn_ProposeBatch ds n = Ok (n', ix) -> fl_agree n' a -> fl_any n' a;
  fl_RequestReadIndex n n' ctx a : fl_any n a -> rn_RequestReadIndex ctx n = Ok n' -> fl_agree n' a -> fl_any n' a;
  fl_Persist n n' env a out : fl_any n a -> rn_Persist env n = (n', out) ->
    match out with
    | Ok (_, rs, None) => fl_ready n' a /\ Forall (fun r => ReadState.Index r <= Status.CommitIndex (rn_Status n')) rs
    | Ok (_, rs, Some sn) =>
        fl_ready n' (Snapshot.LastIncludedIndex sn) /\ a <= Snapshot.LastIncludedIndex sn /\
        (exists K, image (Snapshot.Data sn) K /\ fuzzy (Snapshot.LastIncludedIndex sn) K) /\
        Forall (fun r => ReadState.Index r <= Status.CommitIndex (rn_Status n')) rs
    | _ => fl_any n' a
    end;
  fl_Entries n a : fl_ready n a -> a < Status.CommitIndex (rn_Status n) ->
    rn_Entries a (Status.CommitIndex (rn_Status n)) n = Ok (span a (Status.CommitIndex (rn_Status n))) /\
    fl_ready n (Status.CommitIndex (rn_Status n)) /\ Status.CommitIndex (rn_Status n) <= len L;
  fl_CreateSnapshot n n' a data K : fl_ready n a -> image data K -> fuzzy a K -> rn_CreateSnapshot a data n = Ok n' ->
    fl_ready n' a /\ rn_Status n' = rn_Status n
}.

(** The engine keeps a map; a write or a restore that fails ends the run (see
    [ServerCareful] for runs of the real engine). *)
Class keeps_map (E EE : Type) `{!kvEngine E EE} (rep : E -> kv -> Prop) := {
  km_ApplyBatch e K env ops : rep e K ->
    match en_ApplyBatch env ops e with
    | (e', Ok _) => rep e' (kv_batch K ops) | (_, Err _) => False | (_, Panic) => True
    end;
  km_Get e K k : rep e K -> match en_Get k e with (e', Ok a) => rep e' K /\ a = kv_get K k | (e', Err _) => rep e' K | _ => True end;
  km_Snapshot e K env : rep e K ->
    match en_Snapshot env e with
    | (e', Ok data) => rep e' K /\ image data K | (e', Err _) => rep e' K | (_, Panic) => True
    end;
  km_Restore e K K' env data : rep e K -> image data K' ->
    match en_RestoreSnapshot env data e with
    | (e', Ok _) => rep e' K' | (_, Err _) => False | (_, Panic) => True
    end
}.
End log.

Lemma fuzzy_mono L hz hz' a K : hz <= hz' -> fuzzy L hz a K -> fuzzy L hz' a K.
Proof. intros Hz Hf b Ha Hb. apply Hf; lia. Qed.

(** A node that starts over from the beginning, with an engine that had come to
    index [a] before. *)
Lemma fuzzy_restart L hz hz' a K : 0 <= a <= hz' -> hz <= hz' -> fuzzy L hz a K -> fuzzy L hz' 0 K.
Proof.
  intros Ha Hz Hf b Hb Hhb. apply map_eq. intros k.
  replace (span L 0 b) with (take (Z.to_nat b) L) by (unfold span; by rewrite Z.sub_0_r, drop_0).
  destruct (decide (k ∈ op_key <$> ops_at (take (Z.to_nat b) L))) as [Hin|Hno]; [apply kv_batch_lookup; by left |].
  rewrite kv_batch_other by done. rewrite <- (Hf b) by lia. rewrite kv_batch_other; [done |].
  replace (Z.to_nat b) with (Z.to_nat a + Z.to_nat (b - a))%nat in Hno by lia.
  rewrite <- take_take_drop, ops_at_app in Hno. unfold span. set_solver.
Qed.

(** ** The invariant of the loop *)

(** [m] leads from [P] to [Q] whenever it returns. *)
Definition leads {S A} (P : S -> Prop) (m : st S A) (Q : A -> S -> Prop) : Prop :=
  forall s s' a, P s -> m s = (s', Ok a) -> Q a s'.

Lemma leads_bind {S A B} (P : S -> Prop) (m : st S A) (k : A -> st S B) (R : A -> S -> Prop) Q :
  leads P m R -> (forall a, leads (R a) (k a) Q) -> leads P (st_bind m k) Q.
Proof.
  intros Hm Hk s s' b HP. unfold st_bind. destruct (m s) as [s1 [a|e|]] eqn:E; [| done..]. eapply Hk. by eapply Hm.
Qed.
Lemma leads_ret {S A} (P : S -> Prop) (a : A) Q : (forall s, P s -> Q a s) -> leads P (ret a) Q.
Proof. intros H s s' b HP [= <- <-]. auto. Qed.
Lemma leads_modify {S} (P : S -> Prop) f Q : (forall s, P s -> Q tt (f s)) -> leads P (modify f) Q.
Proof. intros H s s' b HP [= <- <-]. auto. Qed.
Lemma leads_reads {S A} (P : S -> Prop) (f : S -> A) : leads P (reads f) (fun a s => P s /\ a = f s).
Proof. intros s s' b HP [= <- <-]. auto. Qed.
Lemma leads_lift {S A} (P : S -> Prop) (r : res A) : leads P (lift r) (fun a s => P s /\ r = Ok a).
Proof. intros s s' b HP [= <- ->]. auto. Qed.
Lemma leads_weaken {S A} (P P' : S -> Prop) (m : st S A) (Q Q' : A -> S -> Prop) :
  leads P m Q -> (forall s, P' s -> P s) -> (forall a s, Q a s -> Q' a s) -> leads P' m Q'.
Proof. intros H HP HQ s s' a Hs E. eapply HQ, H, E. auto. Qed.

Section loop.
Context {N NE E EE : Type} `{!raftNode N NE} `{!kvEngine E EE}.
Context (L : list LogEntry.t) (hz : Z) (HL : forall i e, L !! i = Some e -> LogEntry.Index e = Z.of_nat i + 1).
Context (any ready_ agree : N -> Z -> Prop) (okmsg : N -> Message.t -> Prop) (rep : E -> kv -> Prop).
Context `{!follows L hz N NE any ready_ agree okmsg} `{!keeps_map E EE rep}.
Context (reqs : list proposeRequest).
Implicit Types s : Server N E.

(** What holds of the waiting clients and of the answers given. *)
Record book (s : Server N E) : Prop := {
  bk_pos : 0 <= lastApplied s;
  bk_wait : map_Forall (fun _ p => mkRequest (pp_data p) (pp_ch p) ∈ reqs) (waiters s);
  bk_pend : Forall (fun r => r ∈ reqs) (pending s);
  bk_acked : forall ch, Applied ch None ∈ replies s ->
    exists i entry, L !! i = Some entry /\ Z.of_nat i < lastApplied s /\ mkRequest (LogEntry.Data entry) ch ∈ reqs;
  bk_reads : forall ch i, ReadIndexed ch i None ∈ replies s -> i <= lastApplied s
}.

Definition engine_ok s : Prop := exists K, rep (sv_eng s) K /\ fuzzy L hz (lastApplied s) K.
Definition app_ok s : Prop := book s /\ engine_ok s.
Definition quiet s : Prop := app_ok s /\ any (node s) (lastApplied s).
Definition ready_at s : Prop := app_ok s /\ ready_ (node s) (lastApplied s).
Definition caught_up s : Prop := ready_at s /\ Status.CommitIndex (rn_Status (node s)) <= lastApplied s.

Lemma ready_quiet s : ready_at s -> quiet s.
Proof. intros [Ha Hr]. split; [done |]. by eapply fl_weaken. Qed.

(** Only the fields of the books matter; [lastApplied] may move on. *)
Lemma book_frame s s' :
  book s -> lastApplied s <= lastApplied s' -> waiters s' = waiters s -> pending s' = pending s -> replies s' = replies s -> book s'.
Proof.
  intros [] Hle Hw Hp Hr. constructor; rewrite ?Hw, ?Hp, ?Hr; try done; [lia | |].
  - intros ch Hch. destruct (bk_acked0 ch Hch) as (i & e & Hi & Hlt & Hq). exists i, e. split_and!; [done | lia | done].
  - intros ch i Hch. specialize (bk_reads0 ch i Hch). lia.
Qed.

(** ** Answering *)

Lemma book_answer be entry d s j :
  book s -> L !! j = Some entry -> lastApplied s = Z.of_nat j ->
  book (answer_one be entry d s) /\ lastApplied (answer_one be entry d s) = Z.of_nat j + 1 /\
  sv_eng (answer_one be entry d s) = sv_eng s /\ node (answer_one be entry d s) = node s.
Proof.
  intros Hb Hj Hl. pose proof (HL _ _ Hj) as Hi. unfold answer_one. simpl.
  assert (book (with_applied (LogEntry.Index entry) s)) as Hb1 by (eapply book_frame; [exact Hb | simpl; lia | done..]).
  destruct (waiters s !! LogEntry.Index entry) as [p|] eqn:Hp; [| by split_and!].
  split_and!; [| done..]. destruct Hb1. constructor; simpl in *; try done.
  - intros i q Hq. apply lookup_delete_Some in Hq as [_ Hq]. by apply (bk_wait0 i).
  - intros ch [Hch | Hch]%elem_of_app; [by apply bk_acked0 |]. apply list_elem_of_singleton in Hch.
    injection Hch as -> Hr. case_bool_decide as Hd; [| done]. exists j, entry. split_and!; [done | lia |].
    specialize (bk_wait0 _ _ Hp). simpl in bk_wait0. by rewrite Hd in bk_wait0.
  - intros ch i [Hch | Hch]%elem_of_app; [by eapply bk_reads0 |]. by apply list_elem_of_singleton in Hch.
Qed.

Lemma book_answer_loop be es : forall ds s j,
  book s -> (forall i e, es !! i = Some e -> L !! (j + i)%nat = Some e) -> lastApplied s = Z.of_nat j -> length ds = length es ->
  exists s', answer_loop be es ds s = (s', Ok tt) /\ book s' /\ lastApplied s' = Z.of_nat (j + length es) /\
    sv_eng s' = sv_eng s /\ node s' = node s.
Proof.
  induction es as [|e es IH]; intros ds s j Hb Hes Hl Hlen.
  { exists s. split_and!; try done. simpl. rewrite Hl. lia. }
  destruct ds as [|d ds]; [done |]. rewrite answer_loop_cons.
  destruct (book_answer be e d s j Hb) as (Hb1 & Hl1 & He1 & Hn1); [| done |].
  { specialize (Hes 0%nat e eq_refl). by rewrite Nat.add_0_r in Hes. }
  destruct (IH ds (answer_one be e d s) (S j)) as (s' & Hrun & Hb' & Hl' & He' & Hn'); try done.
  - intros i x Hx. replace (S j + i)%nat with (j + S i)%nat by lia. by apply Hes.
  - lia.
  - by injection Hlen.
  - exists s'. split_and!; try done; [rewrite Hl'; simpl; lia | congruence | congruence].
Qed.

(** ** The methods *)

Lemma span_lookup a b i e : 0 <= a -> span L a b !! i = Some e -> L !! (Z.to_nat a + i)%nat = Some e.
Proof. intros Ha H. unfold span in H. apply lookup_take_Some in H as [H _]. by rewrite lookup_drop in H. Qed.

Lemma span_length a b : 0 <= a <= b -> b <= len L -> Z.of_nat (length (span L a b)) = b - a.
Proof. intros Ha Hb. unfold span. rewrite length_take, length_drop. unfold len in Hb. lia. Qed.

Lemma applyCommitted_log env : leads ready_at (applyCommitted env) (fun _ s => caught_up s).
Proof.
  intros s s' [] [[Hb (K & Hr & HK)] Hn]. unfold applyCommitted. unfold st_bind at 1 2, sfield, reads. cbv beta iota.
  set (c := Status.CommitIndex (rn_Status (node s))). destruct (Z.leb_spec c (lastApplied s)) as [Hle | Hlt].
  { intros [= <-]. split; [| done]. split; [| done]. split; [done |]. by exists K. }
  destruct (fl_Entries L hz (node s) (lastApplied s) Hn Hlt) as (He & Hn' & Hc). fold c in He, Hn', Hc.
  unfold st_bind at 1, lift. rewrite He. pose proof (bk_pos s Hb) as Hpos.
  pose proof (span_length (lastApplied s) c ltac:(lia) Hc) as Hlen.
  destruct (span L (lastApplied s) c) as [|x l] eqn:Hspan; [simpl in Hlen; lia |]. rewrite <- Hspan in *. clear x l Hspan.
  set (es := span L (lastApplied s) c) in *. destruct (decode_all_total es) as (ds & Hds & Hdl).
  unfold st_bind at 1. rewrite Hds. unfold st_bind at 1.
  assert (fuzzy L hz c (kv_batch K (ops_of ds))) as Hkv.
  { replace (ops_of ds) with (ops_at es) by (unfold ops_at; by rewrite Hds). apply fuzzy_apply; [lia | done]. }
  assert (exists s1 r, match ops_of ds with [] => ret (Ok tt) | ops => call (en_ApplyBatch env ops) end s = (s1, r) /\
    (r = Panic \/ (exists r', r = Ok r') /\ s1 = with_eng (sv_eng s1) s /\ rep (sv_eng s1) (kv_batch K (ops_of ds)))) as (s1 & r & -> & Hs1).
  { destruct (ops_of ds) as [|o ops] eqn:Hops.
    - eexists _, _. split; [reflexivity |]. right. split_and!; [by eexists | by destruct s | done].
    - unfold call. pose proof (km_ApplyBatch (sv_eng s) _ env (o :: ops) Hr) as Hk.
      destruct (en_ApplyBatch env (o :: ops) (sv_eng s)) as [e1 [[]|err|]]; [| done |]; eexists _, _; (split; [reflexivity |]).
      + right. split_and!; [by eexists | done | done].
      + by left. }
  destruct Hs1 as [-> | ([r' ->] & Hs1 & Hr1)]; [done |]. intros Hrun.
  assert (book s1) as Hb1 by (rewrite Hs1; eapply book_frame; [exact Hb | simpl; lia | done..]).
  destruct (book_answer_loop (err_of r') es ds s1 (Z.to_nat (lastApplied s)) Hb1) as (s2 & Hs2 & Hb2 & Hl2 & He2 & Hn2).
  - intros i e Hi. by apply (span_lookup (lastApplied s) c).
  - rewrite Hs1. simpl. lia.
  - done.
  - rewrite Hs2 in Hrun. injection Hrun as <-. assert (lastApplied s2 = c) as Hl by lia.
    assert (node s2 = node s) as Hnode by (rewrite Hn2, Hs1; done).
    unfold caught_up, ready_at, app_ok, engine_ok. rewrite Hnode, Hl, He2. split_and!; [done | | done | done]. by eexists.
Qed.

Lemma maybeSnapshot_applied env s s' r : maybeSnapshot env s = (s', r) -> lastApplied s' = lastApplied s.
Proof.
  unfold maybeSnapshot. unfold st_bind at 1 2 3, sfield, reads. cbv beta iota.
  destruct (_ <=? 0); [by intros [= <- _] |]. destruct (_ <=? _); [by intros [= <- _] |]. destruct (_ <? _); [by intros [= <- _] |].
  unfold st_bind, call. destruct (en_Snapshot env (sv_eng s)) as [e1 [data|err|]]; [| by intros [= <- _]..].
  destruct (rn_CreateSnapshot _ _ _); by intros [= <- _].
Qed.

Lemma maybeSnapshot_log env : leads caught_up (maybeSnapshot env) (fun _ s => caught_up s).
Proof.
  intros s s' [] Hcu. pose proof Hcu as [[[Hb (K & Hr & HK)] Hn] Hc]. unfold maybeSnapshot. unfold st_bind at 1 2 3, sfield, reads. cbv beta iota.
  destruct (_ <=? 0); [by intros [= <-] |]. destruct (_ <=? _); [by intros [= <-] |]. destruct (_ <? _); [by intros [= <-] |].
  unfold st_bind at 1, call. pose proof (km_Snapshot (sv_eng s) _ env Hr) as Hk.
  assert (forall e', rep e' K -> caught_up (with_eng e' s)) as Hsame.
  { intros e' He'. split; [| done]. split; [| done]. split; [eapply book_frame; [exact Hb | simpl; lia | done..] |]. by exists K. }
  destruct (en_Snapshot env (sv_eng s)) as [e1 [data|err|]]; [| intros [= <-]; by apply Hsame | done].
  destruct Hk as [Hk Hi]. unfold st_bind at 1. cbv beta iota. change (node (with_eng e1 s)) with (node s).
  destruct (rn_CreateSnapshot (lastApplied s) data (node s)) as [n|err|] eqn:Hcs; [| intros [= <-]; by apply Hsame | done].
  destruct (fl_CreateSnapshot L hz (node s) n (lastApplied s) data K Hn Hi HK Hcs) as [Hn' Hst].
  unfold st_bind, sset, modify. intros [= <-]. split; [| simpl; by rewrite Hst].
  split; [| done]. split; [eapply book_frame; [exact Hb | simpl; lia | done..] |]. by exists K.
Qed.

Lemma resolve_log rs s :
  caught_up s -> Forall (fun r => ReadState.Index r <= lastApplied s) rs -> caught_up (fold_left (fun s r => resolve_one r s) rs s).
Proof.
  revert s. induction rs as [|r rs IH]; intros s Hs Hrs; [done |]. apply Forall_cons in Hrs as [Hr Hrs]. cbn [fold_left].
  assert (caught_up (resolve_one r s) /\ lastApplied (resolve_one r s) = lastApplied s) as [H1 H2].
  { unfold resolve_one. destruct (pendingReadIndexes s !! ReadState.Context r) as [ch|]; [| done]. split; [| done].
    destruct Hs as [[[Hb He] Hn] Hc]. split; [| done]. split; [| done]. split; [| done]. destruct Hb. constructor; simpl; try done.
    - intros c [Hch | Hch]%elem_of_app; [by apply bk_acked0 | by apply list_elem_of_singleton in Hch].
    - intros c i [Hch | Hch]%elem_of_app; [by eapply bk_reads0 |]. apply list_elem_of_singleton in Hch. by injection Hch as -> ->. }
  apply IH; [done |]. by rewrite H2.
Qed.

Lemma restore_log env s n msgs rs snap ee s1 :
  book s -> engine_ok s -> any (node s) (lastApplied s) ->
  rn_Persist env (node s) = (n, Ok (msgs, rs, snap)) -> restore_received ee snap (with_node n s) = (s1, Ok tt) ->
  ready_at s1 /\ Forall (fun r => ReadState.Index r <= Status.CommitIndex (rn_Status (node s1))) rs.
Proof.
  intros Hb (K & Hr & HK) Hn Hp. pose proof (fl_Persist L hz _ _ _ _ _ Hn Hp) as Hout. unfold restore_received. destruct snap as [sn|].
  - destruct Hout as (Hready & Hle & (K' & Him & HK') & Hrs). unfold st_bind, call. simpl sv_eng.
    pose proof (km_Restore (sv_eng s) _ _ ee (Snapshot.Data sn) Hr Him) as Hk.
    destruct (en_RestoreSnapshot _ _ (sv_eng s)) as [e1 [[]|err|]]; [| done | done]. unfold sset, modify. intros [= <-].
    split; [| done]. split; [| done]. split; [eapply book_frame; [exact Hb | simpl; lia | done..] |]. by exists K'.
  - destruct Hout as [Hready Hrs]. intros [= <-]. split; [| done]. split; [| done].
    split; [eapply book_frame; [exact Hb | simpl; lia | done..] |]. by exists K.
Qed.

Lemma pump_log env : leads quiet (pump env) (fun _ s => quiet s).
Proof.
  intros s s' [] [[Hb Hr] Hn]. unfold pump. unfold st_bind at 1, sfield, reads. cbv beta iota.
  destruct (rn_Persist (pe_persist env) (node s)) as [n out] eqn:Hp. pose proof (fl_Persist L hz _ _ _ _ _ Hn Hp) as Hout.
  unfold st_bind at 1, sset, modify. cbv beta iota.
  assert (book (with_node n s)) as Hb1 by (eapply book_frame; [exact Hb | simpl; lia | done..]).
  destruct out as [[[msgs rs] snap]|e|]; [| by intros [= <-] | done].
  unfold st_bind at 1. destruct (restore_received (pe_restore env) snap (with_node n s)) as [s1 [[]|e|]] eqn:H1; [| done | done].
  destruct (restore_log _ _ _ _ _ _ _ _ Hb Hr Hn Hp H1) as [Hready Hrs]. unfold st_bind at 1. cbv beta iota.
  assert (ready_at (with_out msgs [] s1)) as Hready2.
  { destruct Hready as [[Hb2 Hr2] Hn2]. split; [| done]. split; [| done].
    eapply book_frame; [exact Hb2 | simpl; lia | done | done |]. simpl. by rewrite app_nil_r. }
  unfold st_bind at 1. destruct (applyCommitted (pe_apply env) (with_out msgs [] s1)) as [s2 [[]|e|]] eqn:H2; [| done | done].
  pose proof (applyCommitted_log _ _ _ _ Hready2 H2) as Hc2.
  assert (rn_Status (node s2) = rn_Status (node s1)) as Hst.
  { apply applyCommitted_still in H2 as [-> _]. done. }
  unfold st_bind at 1. destruct (maybeSnapshot (pe_snapshot env) s2) as [s3 [[]|e|]] eqn:H3; [| done | done].
  pose proof (maybeSnapshot_log _ _ _ _ Hc2 H3) as Hc3.
  assert (lastApplied s3 = lastApplied s2) as Hl3 by (by apply maybeSnapshot_applied in H3).
  unfold st_bind at 1. rewrite resolve_reads_fold. unfold refreshCachedStatus, st_bind, sfield, reads, sset, modify.
  assert (caught_up (fold_left (fun s r => resolve_one r s) rs s3)) as Hc4.
  { apply resolve_log; [done |]. eapply Forall_impl; [exact Hrs |]. intros r Hr'. destruct Hc2 as [_ Hc2].
    rewrite Hl3. rewrite Hst in Hc2. simpl in Hr'. lia. }
  intros [= <-]. destruct Hc4 as [[[Hb4 Hr4] Hn4] _]. apply ready_quiet. split; [| done]. split; [| done].
  eapply book_frame; [exact Hb4 | simpl; lia | done..].
Qed.

Lemma quiet_node n s : quiet s -> any n (lastApplied s) -> quiet (with_node n s).
Proof. intros [[Hb Hr] _] Hn. split; [| done]. split; [| done]. eapply book_frame; [exact Hb | simpl; lia | done..]. Qed.

(** Answers that are errors. *)
Lemma quiet_errors ms rs s :
  quiet s -> Forall (fun r => match r with Applied _ None => False | ReadIndexed _ _ None => False | _ => True end) rs ->
  quiet (with_out ms rs s).
Proof.
  intros [[Hb Hr] Hn] Hrs. rewrite Forall_forall in Hrs. split; [| done]. split; [| done]. destruct Hb. constructor; simpl; try done.
  - intros ch [Hch | Hch]%elem_of_app; [by apply bk_acked0 | by apply Hrs in Hch].
  - intros ch i [Hch | Hch]%elem_of_app; [by eapply bk_reads0 | by apply Hrs in Hch].
Qed.

Lemma register_quiet rq : forall indices s s',
  quiet s -> Forall (fun r => r ∈ reqs) rq -> register rq indices s = (s', Ok tt) -> quiet s'.
Proof.
  induction rq as [|r rq IH]; intros indices s s' Hq Hrq; [by intros [= <-] |]. apply Forall_cons in Hrq as [Hr Hrq].
  destruct indices as [|i indices]; cbn [register]; [done |]. unfold st_bind, sset, modify. apply IH; [| done].
  destruct Hq as [[Hb He] Hn]. split; [| done]. split; [| done]. destruct Hb. constructor; simpl; try done.
  apply map_Forall_insert_2; [by destruct r | done].
Qed.

Lemma quiet_pending rq a s : quiet s -> Forall (fun r => r ∈ reqs) rq -> quiet (with_pending rq a s).
Proof. intros [[[] He] Hn] Hrq. split; [| done]. split; [| done]. by constructor. Qed.

Lemma failPending_quiet rq err s : quiet s -> quiet (fst (failPending rq err s)).
Proof.
  intros Hq. unfold failPending, sset, modify. simpl. apply quiet_errors; [done |]. apply Forall_forall.
  by intros x (r & -> & _)%list_elem_of_fmap.
Qed.

Lemma submit_quiet env rq s s' :
  quiet s -> Forall (fun r => r ∈ reqs) rq ->
  (rq <> [] -> forall n ix, rn_ProposeBatch (map rq_data rq) (node s) = Ok (n, ix) -> agree n (lastApplied s)) -> submitBatch env rq s = (s', Ok tt) -> quiet s'.
Proof.
  intros Hq Hrq Hag. destruct rq as [|r0 rq0]; [by intros [= <-] |]. cbn [submitBatch]. set (rq := r0 :: rq0) in *.
  unfold st_bind at 1, sfield, reads. cbv beta iota.
  destruct (rn_ProposeBatch (map rq_data rq) (node s)) as [[n idx]|e|] eqn:Hp; [| | done].
  - unfold st_bind at 1, sset, modify. cbv beta iota. unfold st_bind.
    destruct (register rq idx (with_node n s)) as [s1 [[]|e|]] eqn:Hr; [| done | done]. apply pump_log.
    eapply register_quiet; [| exact Hrq | exact Hr]. apply quiet_node; [done |]. by eapply (fl_ProposeBatch L hz); [apply Hq | exact Hp | eapply Hag].
  - intros [= <-]. by apply (failPending_quiet rq e s).
Qed.

Lemma done_quiet s : quiet s -> quiet (with_done s).
Proof. intros [[[] He] Hn]. split; [| done]. split; [| done]. by constructor. Qed.

(** The node still agrees with the log after what an event makes it do. *)
Definition event_agrees (ev : event) s : Prop :=
  (forall m, ev = Received (Some m) -> okmsg (node s) m) /\
  forall n, calls ev s = Some (Ok n) -> agree n (lastApplied s).

Fixpoint agreeable (evs : list (pump_env * event)) s : Prop :=
  match evs with
  | [] => True
  | (env, ev) :: evs => done_ s = true \/ event_agrees ev s /\ agreeable evs (fst (run_event env ev s))
  end.

Lemma agreeable_app evs1 evs2 s : agreeable (evs1 ++ evs2) s -> agreeable evs1 s.
Proof.
  revert s. induction evs1 as [|[env ev] evs1 IH]; intros s; [done |]. cbn [agreeable app].
  intros [?|[? ?]]; [by left |]. right. split; [done | by apply IH].
Qed.

Lemma event_quiet env ev s s' :
  quiet s -> event_agrees ev s -> (forall r, ev = Proposed r -> r ∈ reqs) -> run_event env ev s = (s', Ok tt) -> quiet s'.
Proof.
  intros Hq Hag Hreq. pose proof Hq as [[Hb Hr] Hn].
  assert (calls ev s = proposes (submits ev s) (node s) ->
    submits ev s <> [] -> forall n ix, rn_ProposeBatch (map rq_data (submits ev s)) (node s) = Ok (n, ix) -> agree n (lastApplied s)) as Hbatch.
  { intros Hc Hne n ix Hp. apply Hag. rewrite Hc. unfold proposes. rewrite Hp. by destruct (submits ev s). }
  assert (forall n, any n (lastApplied s) -> (let! _ := sset (with_node n) in pump env) s = (s', Ok tt) -> quiet s') as Hpump.
  { intros n Hn'. unfold st_bind, sset, modify. apply pump_log. by apply quiet_node. }
  destruct ev as [|[m|]|r|ch| |]; cbn [run_event].
  - unfold st_bind at 1 2, sfield, reads, lift. cbv beta iota. destruct (rn_Tick (node s)) as [n|e|] eqn:Ht; [| done | done].
    apply Hpump. eapply (fl_Tick L hz); [done | done | apply Hag; cbn [calls]; by rewrite Ht].
  - unfold st_bind at 1 2, sfield, reads, lift. cbv beta iota. destruct (rn_Step m (node s)) as [n|e|] eqn:Ht; [| done | done].
    apply Hpump. eapply (fl_Step L hz); [done | by apply Hag | done | apply Hag; cbn [calls]; by rewrite Ht].
  - unfold st_bind, sfield, reads, sset, modify. intros [= <-]. by apply done_quiet, (failPending_quiet (pending s) stopped s).
  - unfold st_bind at 1 2 3 4, sfield, reads. cbv beta iota.
    assert (Forall (fun r => r ∈ reqs) (pending s ++ [r])) as Hp by (apply Forall_app; split; [apply Hb | by repeat constructor; apply Hreq]).
    specialize (Hbatch eq_refl). cbn [submits] in Hbatch. destruct (_ || _).
    + unfold st_bind, sset, modify. apply submit_quiet; [by apply quiet_pending | done | exact Hbatch].
    + unfold sset, modify. intros [= <-]. by apply quiet_pending.
  - unfold st_bind at 1 2 3 4, sfield, reads, sset, modify. cbv beta iota.
    assert (forall x c, quiet (with_reads x c s)) as Hreads.
    { intros x c. split; [| done]. split; [| done]. eapply book_frame; [exact Hb | simpl; lia | done..]. }
    destruct (rn_RequestReadIndex (nextReadCtx s) (node s)) as [n|e|] eqn:Hri; [| | done].
    + unfold st_bind at 1 2. cbv beta iota. apply pump_log.
      assert (quiet (with_node n s)) as [[Hb1 Hr1] Hn1] by (apply quiet_node; [done |]; eapply (fl_RequestReadIndex L hz); [done | done | apply Hag; cbn [calls]; by rewrite Hri]).
      split; [| done]. split; [| done]. eapply book_frame; [exact Hb1 | simpl; lia | done..].
    + unfold send_reply, sset, modify. intros [= <-]. apply quiet_errors; [apply Hreads | by repeat constructor].
  - unfold st_bind at 1, sfield, reads. cbv beta iota. specialize (Hbatch eq_refl). cbn [submits] in Hbatch.
    destruct (armed s); [| by intros [= <-]].
    unfold st_bind at 1 2, sset, modify. cbv beta iota. apply submit_quiet; [by apply quiet_pending | apply Hb | exact Hbatch].
  - unfold st_bind at 1, sfield, reads. cbv beta iota. unfold st_bind.
    pose proof (failPending_quiet (pending s) stopped s Hq) as H1. set (s1 := fst (failPending (pending s) stopped s)) in *.
    change (failPending (pending s) stopped s) with (s1, Ok tt : res unit). cbv beta iota.
    unfold failPendingReadIndexes, st_bind, sfield, reads, sset, modify. intros [= <-]. apply done_quiet.
    assert (quiet (with_out [] (map (fun x => ReadIndexed x.2 0 (Some stopped)) (map_to_list (pendingReadIndexes s1))) s1)) as [[Hb2 Hr2] Hn2].
    { apply quiet_errors; [done |]. apply Forall_forall. by intros x (y & -> & _)%list_elem_of_fmap. }
    split; [| done]. split; [| done]. eapply book_frame; [exact Hb2 | simpl; lia | done..].
Qed.

Lemma Run_quiet evs : forall s s',
  quiet s -> agreeable evs s -> (forall r, Proposed r ∈ evs.*2 -> r ∈ reqs) -> Run evs s = (s', Ok tt) -> quiet s'.
Proof.
  induction evs as [|[env ev] evs IH]; intros s s' Hq Hag Hreq; [by intros [= <-] |]. cbn [Run]. unfold st_bind at 1, sfield, reads. cbv beta iota.
  destruct (done_ s) eqn:Hd; [by intros [= <-] |]. destruct Hag as [Hag | [Hag1 Hag2]]; [by rewrite Hd in Hag |].
  unfold st_bind. destruct (run_event env ev s) as [s1 [[]|e|]] eqn:H1; [| done | done].
  apply IH; [| exact Hag2 | intros r Hr; apply Hreq; by right]. eapply event_quiet; [exact Hq | exact Hag1 | | exact H1]. intros r ->. apply Hreq. by left.
Qed.

(** Where a server starts: nothing is waiting, and the engine holds the map of
    the log up to [lastApplied], up to what it had applied before. *)
Definition starts s : Prop :=
  waiters s = ∅ /\ pending s = [] /\ replies s = [] /\ 0 <= lastApplied s /\ engine_ok s /\ ready_ (node s) (lastApplied s).

(** A new node with an empty engine, and one that has applied [m] entries
    before and starts over. *)
Lemma New_starts n e : ready_ n 0 -> rep e ∅ -> starts (New n e).
Proof. intros Hn He. split_and!; try done. exists ∅. split; [done |]. apply (fuzzy_kv_at L hz 0). done. Qed.
Lemma New_starts_over n e m : ready_ n 0 -> m <= hz -> rep e (kv_at L m) -> starts (New n e).
Proof. intros Hn Hm He. split_and!; try done. exists (kv_at L m). split; [done |]. by apply fuzzy_replay. Qed.
Lemma Seed_starts n e a K : 0 <= a -> ready_ n a -> rep e K -> fuzzy L hz a K -> starts (SeedAppliedIndex a (New n e)).
Proof. intros Ha Hn He HK. split_and!; try done. by exists K. Qed.

Lemma starts_quiet s : starts s -> quiet s.
Proof.
  intros (Hw & Hp & Hr & Ha & He & Hn). apply ready_quiet. split; [| done]. split; [| done].
  constructor; rewrite ?Hw, ?Hp, ?Hr; try done.
  - by intros ch ?%elem_of_nil.
  - by intros ch i ?%elem_of_nil.
Qed.
End loop.
