(* ===== verification/ServerCareful.v ===== *)
(** * Runs in which no call on the engine fails

    The server goes on when a call on its engine fails: src/server/server.go
    counts the entries of a failed batch as applied, and skips a snapshot that
    could not be restored.  What the server promises about the engine's contents
    therefore holds in the runs in which this does not happen.  Such a run is
    one that goes the same way with a careful engine, which stops the loop
    instead of returning a failure. *)

From Stdlib Require Import Strings.Byte Strings.String.
From S2P Require Import Prelude GoBytes GoState RaftTypes Command Engine Server ServerReplies ServerSteps ServerLog.

Section careful.
Context {N NE E CE EE : Type} `{!raftNode N NE}.
Context (careful : kvEngine E CE) (engine : kvEngine E EE) (real : CE -> EE).

(** The careful engine answers as the engine does, or stops. *)
Class cautious : Prop := {
  ca_ApplyBatch : forall env ops s s' r, en_ApplyBatch env ops s = (s', r) -> r <> Panic -> en_ApplyBatch (real env) ops s = (s', r);
  ca_Get : forall k s, en_Get (kvEngine := careful) k s = en_Get (kvEngine := engine) k s;
  ca_Snapshot : forall env s s' r, en_Snapshot env s = (s', r) -> r <> Panic -> en_Snapshot (real env) s = (s', r);
  ca_RestoreSnapshot : forall env data s s' r,
    en_RestoreSnapshot env data s = (s', r) -> r <> Panic -> en_RestoreSnapshot (real env) data s = (s', r)
}.

Definition lowered (env : @pump_env NE CE) : @pump_env NE EE :=
  mkPumpEnv (pe_persist env) (real (pe_restore env)) (real (pe_apply env)) (real (pe_snapshot env)).

(** ** The loop with either engine *)

(** Where the first computation returns, the second one returns the same. *)
Definition within {S A} (m m' : st S A) : Prop := forall s s' a, m s = (s', Ok a) -> m' s = (s', Ok a).

Lemma within_refl {S A} (m : st S A) : within m m.
Proof. by intros s s' a. Qed.

Lemma within_bind {S A B} (m m' : st S A) (k k' : A -> st S B) :
  within m m' -> (forall a, within (k a) (k' a)) -> within (st_bind m k) (st_bind m' k').
Proof.
  intros Hm Hk s s' b. unfold st_bind. destruct (m s) as [s1 [a|e|]] eqn:Hx; [| done..].
  rewrite (Hm _ _ _ Hx). apply Hk.
Qed.

Lemma within_call {A} (f g : E -> E * res A) :
  (forall e e' r, f e = (e', r) -> r <> Panic -> g e = (e', r)) -> within (S := Server N E) (call f) (call g).
Proof.
  intros Hfg s s' a. unfold call. destruct (f (sv_eng s)) as [e r] eqn:Hf. intros H.
  rewrite (Hfg _ _ _ Hf); [done |]. by intros ->.
Qed.

Context {Hcautious : cautious}.

Lemma within_applyCommitted env :
  within (S := Server N E) (applyCommitted (kvEngine0 := careful) env) (applyCommitted (kvEngine0 := engine) (real env)).
Proof.
  unfold applyCommitted. apply within_bind; [apply within_refl |]. intros n. apply within_bind; [apply within_refl |]. intros last.
  destruct (_ <=? _); [apply within_refl |]. apply within_bind; [apply within_refl |]. intros [|e es]; [apply within_refl |].
  apply within_bind; [apply within_refl |]. intros ds. apply within_bind; [| intros r; apply within_refl].
  destruct (ops_of ds); [apply within_refl |]. apply within_call. intros. by apply ca_ApplyBatch.
Qed.

Lemma within_maybeSnapshot env :
  within (S := Server N E) (maybeSnapshot (kvEngine0 := careful) env) (maybeSnapshot (kvEngine0 := engine) (real env)).
Proof.
  unfold maybeSnapshot. do 3 (apply within_bind; [apply within_refl | intros ?]).
  do 3 (destruct (_ : bool); [apply within_refl |]). apply within_bind; [| intros r; apply within_refl].
  apply within_call. intros. by apply ca_Snapshot.
Qed.

Lemma within_restore env snap :
  within (S := Server N E) (restore_received (kvEngine0 := careful) env snap) (restore_received (kvEngine0 := engine) (real env) snap).
Proof.
  unfold restore_received. destruct snap as [sn|]; [| apply within_refl]. apply within_bind; [| intros r; apply within_refl].
  apply within_call. intros. by apply ca_RestoreSnapshot.
Qed.

Lemma within_pump env : within (S := Server N E) (pump (kvEngine0 := careful) env) (pump (kvEngine0 := engine) (lowered env)).
Proof.
  unfold pump. apply within_bind; [apply within_refl |]. intros n. cbn [pe_persist lowered]. destruct (rn_Persist _ n) as [n' out].
  apply within_bind; [apply within_refl | intros _]. destruct out as [[[ms rs] snap]|e|]; [| apply within_refl..].
  apply within_bind; [apply within_restore | intros _]. apply within_bind; [apply within_refl | intros _].
  apply within_bind; [apply within_applyCommitted | intros _]. apply within_bind; [apply within_maybeSnapshot | intros _].
  apply within_refl.
Qed.

Lemma within_submitBatch env rq :
  within (S := Server N E) (submitBatch (kvEngine0 := careful) env rq) (submitBatch (kvEngine0 := engine) (lowered env) rq).
Proof.
  unfold submitBatch. destruct rq as [|r rq]; [apply within_refl |]. apply within_bind; [apply within_refl |]. intros n.
  destruct (rn_ProposeBatch _ n) as [[n' ix]|e|]; [| apply within_refl..].
  do 2 (apply within_bind; [apply within_refl | intros _]). apply within_pump.
Qed.

Lemma within_run_event env ev :
  within (S := Server N E) (run_event (kvEngine0 := careful) env ev) (run_event (kvEngine0 := engine) (lowered env) ev).
Proof.
  destruct ev as [|[m|]|r|ch| |]; cbn [run_event]; try apply within_refl.
  - do 3 (apply within_bind; [apply within_refl | intros ?]). apply within_pump.
  - do 3 (apply within_bind; [apply within_refl | intros ?]). apply within_pump.
  - do 4 (apply within_bind; [apply within_refl | intros ?]). destruct (_ || _); [| apply within_refl].
    apply within_bind; [apply within_refl | intros _]. apply within_submitBatch.
  - do 4 (apply within_bind; [apply within_refl | intros ?]). destruct (rn_RequestReadIndex _ _); [| apply within_refl..].
    do 2 (apply within_bind; [apply within_refl | intros ?]). apply within_pump.
  - apply within_bind; [apply within_refl |]. intros a. destruct a; [| apply within_refl].
    do 2 (apply within_bind; [apply within_refl | intros ?]). apply within_submitBatch.
Qed.

(** ** Events and runs that are spared *)

(** In this event no call on the engine fails or leaves the limits that the
    careful engine watches. *)
Definition spared (env : @pump_env NE EE) (ev : event) (s : Server N E) : Prop :=
  exists env', env = lowered env' /\ snd (run_event (kvEngine0 := careful) env' ev s) = Ok tt.

Fixpoint spared_run (evs : list (@pump_env NE EE * event)) (s : Server N E) : Prop :=
  match evs with
  | [] => True
  | (env, ev) :: evs => done_ s = true \/ spared env ev s /\ spared_run evs (fst (run_event (kvEngine0 := engine) env ev s))
  end.

Lemma spared_event env ev s s' :
  spared env ev s -> run_event (kvEngine0 := engine) env ev s = (s', Ok tt) ->
  exists env', env = lowered env' /\ run_event (kvEngine0 := careful) env' ev s = (s', Ok tt).
Proof.
  intros (env' & -> & H) Hr. exists env'. split; [done |].
  destruct (run_event (kvEngine0 := careful) env' ev s) as [s1 r] eqn:Hx. simpl in H. subst r.
  apply within_run_event in Hx. rewrite Hr in Hx. by injection Hx as <-.
Qed.

Lemma spared_run_app evs1 evs2 s : spared_run (evs1 ++ evs2) s -> spared_run evs1 s.
Proof.
  revert s. induction evs1 as [|[env ev] evs1 IH]; intros s; [done |]. cbn [spared_run app].
  intros [?|[? ?]]; [by left |]. right. split; [done | by apply IH].
Qed.

(** A spared run is a run with the careful engine: the same states, and the
    node agrees with the same logs. *)
Lemma spared_careful evs : forall s, spared_run evs s ->
  exists cevs s', cevs.*2 `prefix_of` evs.*2 /\
    Run (kvEngine0 := careful) cevs s = (s', Ok tt) /\ Run (kvEngine0 := engine) evs s = (s', Ok tt) /\
    forall agree okmsg, agreeable (kvEngine0 := engine) agree okmsg evs s -> agreeable (kvEngine0 := careful) agree okmsg cevs s.
Proof.
  induction evs as [|[env ev] evs IH]; intros s; [by exists [], s |]. cbn [spared_run Run agreeable].
  intros [Hd | [(env' & -> & He) Hs]]; [exists [], s; cbn [Run]; unfold st_bind, sfield, reads; rewrite Hd; split_and!; try done; apply prefix_nil |].
  destruct (run_event (kvEngine0 := careful) env' ev s) as [s1 r] eqn:Hx. simpl in He. subst r. pose proof Hx as Hx'.
  apply within_run_event in Hx'. rewrite Hx' in Hs. destruct (IH s1 Hs) as (cevs & s' & Hp & Hc & Hr & Hag).
  destruct (done_ s) eqn:Hd.
  { exists [], s. cbn [Run]. unfold st_bind, sfield, reads. rewrite Hd. split_and!; try done. apply prefix_nil. }
  exists ((env', ev) :: cevs), s'. cbn [Run]. unfold st_bind, sfield, reads. rewrite Hd, Hx, Hx'. split_and!; [by apply prefix_cons | done | done |].
  intros agree okmsg [? | [H1 H2]]; [congruence |]. cbn [agreeable]. right. rewrite Hx. split; [done | by apply Hag].
Qed.

Lemma careful_spared cevs : forall s, snd (Run (kvEngine0 := careful) cevs s) = Ok tt -> spared_run (map (fun x => (lowered x.1, x.2)) cevs) s.
Proof.
  induction cevs as [|[env ev] cevs IH]; intros s; [done |]. cbn [Run map spared_run]. unfold st_bind, sfield, reads.
  destruct (done_ s); [by left | right]. destruct (run_event (kvEngine0 := careful) env ev s) as [s1 [[]|e|]] eqn:Hx; [| done..].
  cbn [fst snd]. split; [exists env; split; [done | by rewrite Hx] |]. apply within_run_event in Hx. rewrite Hx. by apply IH.
Qed.
End careful.
