(* ===== verification/ServerImpl.v ===== *)
(** * The parts behind the server's interfaces

    The Raft node of [RaftNode] and the engine of [Engine] as implementations
    of the interfaces, with every failure passed on to the server; and beside
    the engine a careful one that stops where a call fails, with the proof that
    it keeps its side of the interface: its runs refine a map. *)

From Stdlib Require Import Strings.Byte Strings.String.
From stdpp Require Import sorting.
From S2P Require Import Prelude GoBytes GoSort GoFmt GoState Wal SkipList Memtable Bloom BlockCache SSTableFormat SSTableWriter SSTableReader SSTable Engine EngineLayers EngineDisk EngineReplay EngineSpec EngineInv EngineOpen EngineWrite EngineFlush EngineSnapshot EngineRestore EngineRun RaftTypes RaftStorage Raft RaftNode Command Server ServerReplies ServerSteps ServerLog ServerCareful.

(** ** The Raft node *)

(** What a call of [Persist] meets; a left-over temporary file can be removed. *)
Record node_env := mkNodeEnv { ne_env : compaction_env; ne_clean : tmp_left ne_env = [] }.

#[global] Instance node_raftNode : raftNode Node node_env := {
  rn_Tick n := let* r := Raft.Tick (n_r n) in Ok {| n_r := r; n_storage := n_storage n |};
  rn_Step m n := let* r := Raft.Step (n_r n) m in Ok {| n_r := r; n_storage := n_storage n |};
  rn_ProposeBatch ds n :=
    let* '(r, indices) := Raft.ProposeBatch (n_r n) ds in Ok ({| n_r := r; n_storage := n_storage n |}, indices);
  rn_RequestReadIndex ctx n := let* r := Raft.RequestReadIndex (n_r n) ctx in Ok {| n_r := r; n_storage := n_storage n |};
  rn_CreateSnapshot index data n :=
    let* r := Raft.CreateSnapshot (n_r n) index data in Ok {| n_r := r; n_storage := n_storage n |};
  rn_Status n := Raft.status (n_r n);
  rn_Entries start end_ n := Raft.Entries (n_r n) start end_;
  rn_Persist env n := RaftNode.Persist (ne_env env) n
}.

(** ** The engine *)

Section engine.
Context (fb : Z -> Z) (fh : Z -> Z -> Z) (Hfb : forall n, 0 <= fb n <= Bloom.maxAlloc).

(** What a call of the engine meets: the stages that the flush goroutine goes
    through before the call has the lock, opening a log, the order of the map
    walk, the calls of a restore. *)
Record calls_env := mkCalls {
  ce_flush : flush_env;
  ce_runs : list run_env;
  ce_order : list bytes -> list bytes;
  ce_restore : restore_env
}.

Definition flushing (s : world) : bool := match immutable (Engine.eng s) with Some _ => true | None => false end.

Fixpoint flush_on (envs : list run_env) (s : world) : world * res unit :=
  match envs with
  | [] => (s, Ok tt)
  | env :: envs =>
      match runFlush fb fh env 0 s with
      | None => flush_on envs s
      | Some (s', Panic) => (s', Panic)
      | Some (s', _) => flush_on envs s'
      end
  end.

(** [ApplyBatch] waits for a flush in progress; when that goes through fewer
    stages than it takes, the call does not return. *)
Definition apply_batch (env : calls_env) (ops : list BatchOp) : st world unit := fun s =>
  (let! _ := flush_on (ce_runs env) in
   fun s1 => default (s1, Panic) (ApplyBatch (ce_flush env) (flushing s) ops s1)) s.
Definition take_snapshot (env : calls_env) : st world bytes :=
  let! _ := flush_on (ce_runs env) in Engine.Snapshot (ce_order env).
Definition restore_snapshot (env : calls_env) (data : bytes) : st world unit :=
  let! _ := flush_on (ce_runs env) in RestoreSnapshot fb fh (ce_restore env) data.

#[local] Instance world_kvEngine : kvEngine world calls_env := {
  en_ApplyBatch := apply_batch;
  en_Get k s := Engine.Get k s;
  en_Snapshot := take_snapshot;
  en_RestoreSnapshot := restore_snapshot
}.

(** ** The careful engine *)

(** What a call meets in which the tables that a flush writes can be read, the
    walk of a map visits every key, and the calls of a restore succeed. *)
Record steady_env := mkSteady {
  se_calls : calls_env;
  se_perm : forall l, ce_order se_calls l ≡ₚ l;
  se_readable : Forall (fun r => forall o, re_bad r o = false) (ce_runs se_calls);
  se_fine : fine_restore (ce_restore se_calls)
}.

(** The same stages, as long as no table write fails and the numbers of the
    files have six digits; [None] stops the run. *)
Fixpoint careful_flush (envs : list run_env) (s : world) : option world :=
  match envs with
  | [] => Some s
  | env :: envs =>
      match runFlush fb fh env 0 s with
      | None => careful_flush envs s
      | Some (s', Ok _) =>
          if bool_decide (nextFlushSeq (Engine.eng s) <= 10 ^ 6) && bool_decide (fits (dsk s')) &&
             forallb (fun f => match fl_stage f with Written (Err _) => false | _ => true end) (flushes (Engine.eng s'))
          then careful_flush envs s' else None
      | _ => None
      end
  end.

(** The calls themselves, as long as they succeed, records and tables stay
    within their formats, and no second flush is started before the first has
    ended. *)
Definition careful_apply (env : steady_env) (ops : list BatchOp) (s : world) : world * res unit :=
  match careful_flush (ce_runs (se_calls env)) s with
  | None => (s, Panic)
  | Some s1 =>
      if forallb (fun r => bool_decide (is_u64 (Record.SeqNum r)) && (len (Record.payload r) <? 2 ^ 32)) (batch_records s1 ops) &&
         (nextWALSeq (Engine.eng s1) <? 10 ^ 6)
      then
        match ApplyBatch (ce_flush (se_calls env)) (flushing s) ops s1 with
        | Some (s2, Ok _) => if (length (flushes (Engine.eng s2)) <=? 1)%nat then (s2, Ok tt) else (s2, Panic)
        | Some (s2, _) => (s2, Panic)
        | None => (s1, Panic)
        end
      else (s1, Panic)
  end.

Definition careful_snapshot (env : steady_env) (s : world) : world * res bytes :=
  match careful_flush (ce_runs (se_calls env)) s with
  | None => (s, Panic)
  | Some s1 =>
      match Engine.Snapshot (ce_order (se_calls env)) s1 with
      | (s', Ok data) => if len data <? snapshotMax then (s', Ok data) else (s', Panic)
      | x => x
      end
  end.

Definition careful_restore (env : steady_env) (data : bytes) (s : world) : world * res unit :=
  match careful_flush (ce_runs (se_calls env)) s with
  | None => (s, Panic)
  | Some s1 =>
      match flushes (Engine.eng s1), decodeSnapshotEntries data with
      | [], Ok es =>
          if (next_seq (Engine.eng s1) <? 10 ^ 6) &&
             bool_decide (fits (fst (write_sst fb fh (sstName (next_seq (Engine.eng s1))) (SSTableBlockSize (opts (Engine.eng s1)))
               (rs_table (ce_restore (se_calls env))) (number_entries 0 (merge_sort se_le es)) (dsk s1))))
          then RestoreSnapshot fb fh (ce_restore (se_calls env)) data s1
          else (s1, Panic)
      | _, _ => (s1, Panic)
      end
  end.

#[local] Instance careful_kvEngine : kvEngine world steady_env := {
  en_ApplyBatch := careful_apply;
  en_Get k s := Engine.Get k s;
  en_Snapshot := careful_snapshot;
  en_RestoreSnapshot := careful_restore
}.

(** It answers as the engine does, or stops. *)
Lemma careful_flush_on envs : forall s s', careful_flush envs s = Some s' -> flush_on envs s = (s', Ok tt).
Proof.
  induction envs as [|env envs IH]; intros s s'; cbn [careful_flush flush_on]; [by intros [= <-] |].
  destruct (runFlush fb fh env 0 s) as [[s1 [u|e|]]|]; [| done | done | apply IH]. destruct (_ && _); [apply IH | done].
Qed.

Lemma world_cautious : cautious careful_kvEngine world_kvEngine se_calls.
Proof.
  constructor; [| done | |].
  - intros env ops s s' r. cbn [en_ApplyBatch careful_kvEngine world_kvEngine]. unfold careful_apply, apply_batch, st_bind.
    destruct (careful_flush _ s) as [s1|] eqn:Hf; [| by intros [= _ <-]]. rewrite (careful_flush_on _ _ _ Hf).
    destruct (_ && _); [| by intros [= _ <-]]. destruct (ApplyBatch _ _ _ _) as [[s2 [[]|e|]]|]; [| by intros [= _ <-]..].
    destruct (_ <=? _)%nat; [by intros [= <- <-] | by intros [= _ <-]].
  - intros env s s' r. cbn [en_Snapshot careful_kvEngine world_kvEngine]. unfold careful_snapshot, take_snapshot, st_bind.
    destruct (careful_flush _ s) as [s1|] eqn:Hf; [| by intros [= _ <-]]. rewrite (careful_flush_on _ _ _ Hf).
    destruct (Engine.Snapshot _ s1) as [s2 [data|e|]]; [| by intros [= <- <-]..]. destruct (_ <? _); [by intros [= <- <-] | by intros [= _ <-]].
  - intros env data s s' r. cbn [en_RestoreSnapshot careful_kvEngine world_kvEngine]. unfold careful_restore, restore_snapshot, st_bind.
    destruct (careful_flush _ s) as [s1|] eqn:Hf; [| by intros [= _ <-]]. rewrite (careful_flush_on _ _ _ Hf).
    destruct (flushes (Engine.eng s1)); [| by intros [= _ <-]]. destruct (decodeSnapshotEntries data); [| by intros [= _ <-]..].
    destruct (_ && _); [done | by intros [= _ <-]].
Qed.

(** ** The map it keeps *)

Definition healthy_stage (f : flush) : Prop :=
  match fl_stage f with Written (Ok r) => forall o, s_bad (r_f r) o = false | _ => True end.

Definition keeps (s : world) (K : kv) : Prop :=
  reach fb fh (Up s) K ∅ /\ eclosed (Engine.eng s) = false /\ Forall healthy_table (sstables (Engine.eng s)) /\
  Forall healthy_stage (flushes (Engine.eng s)).

(** What an operation leaves alone. *)
Lemma startFlush_frame env s s' r :
  startFlushLocked env s = (s', r) ->
  eclosed (Engine.eng s') = eclosed (Engine.eng s) /\ sstables (Engine.eng s') = sstables (Engine.eng s) /\
  (Forall healthy_stage (flushes (Engine.eng s)) -> Forall healthy_stage (flushes (Engine.eng s'))).
Proof.
  unfold startFlushLocked. bind1. unfold field, reads. cbv beta iota. bind1. unfold wrap, on_disk.
  destruct (openWAL _ _ (dsk s)) as [d [x|e|]]; cbn [res_wrap]; [| by intros [= <- _]..].
  unfold update, modify. intros [= <- _]. split_and!; try done. intros H. simpl. apply Forall_app. split; [done |]. by repeat constructor.
Qed.

Lemma applyLocked_frame env waited ops s s' r :
  applyLocked env waited ops s = (s', r) ->
  eclosed (Engine.eng s') = eclosed (Engine.eng s) /\ sstables (Engine.eng s') = sstables (Engine.eng s) /\
  (Forall healthy_stage (flushes (Engine.eng s)) -> Forall healthy_stage (flushes (Engine.eng s'))).
Proof.
  unfold applyLocked. bind1. unfold field, reads. cbv beta iota. destruct (waited && _); [by intros [= <- _] |]. bind1.
  destruct (flushErr (Engine.eng s)); [by intros [= <- _] |]. destruct ops as [|op ops]; [by intros [= <- _] |]. bind1.
  destruct (number_ops _ _) as [recs next]. bind1. unfold update, modify. cbv beta iota. bind1. unfold wrap, append_batch. cbn [Engine.eng dsk].
  destruct (Appender.AppendBatch _ recs) as [x [err|]]; cbn [res_wrap]; [by intros [= <- _] |]. bind1. bind1. unfold lift.
  destruct (apply_ops _ _ recs) as [m|e|]; [| by intros [= <- _]..]. bind1. bind1. cbn [Engine.eng].
  destruct (_ <=? _); [| by intros [= <- _]].
  destruct (startFlushLocked env _) as [s2 r2] eqn:Hs. intros [= <- _]. by apply startFlush_frame in Hs.
Qed.

Lemma OpenWithCache_source name src r : OpenWithCache name (Some src) = Ok r -> r_f r = src.
Proof.
  unfold OpenWithCache. destruct (_ <? _); [done |]. intros H. do 8 (apply res_bind_ok in H as (? & _ & H)).
  revert H. destruct (negb _); [done |]. intros H. do 4 (apply res_bind_ok in H as (? & _ & H)). by injection H as <-.
Qed.

Lemma runFlush_frame env i s s' r :
  runFlush fb fh env i s = Some (s', r) -> (forall o, re_bad env o = false) ->
  eclosed (Engine.eng s') = eclosed (Engine.eng s) /\
  (Forall healthy_table (sstables (Engine.eng s)) -> Forall healthy_stage (flushes (Engine.eng s)) ->
   Forall healthy_table (sstables (Engine.eng s')) /\ Forall healthy_stage (flushes (Engine.eng s'))).
Proof.
  unfold runFlush. destruct (flushes (Engine.eng s) !! i) as [f|] eqn:Hf; [| done]. intros Hrun Hbad.
  assert (forall fs, Forall healthy_stage fs -> Forall healthy_stage (delete i fs)) as Hdel by (intros; by apply Forall_delete).
  assert (forall g fs, healthy_stage g -> Forall healthy_stage fs -> Forall healthy_stage (<[i := g]> fs)) as Hins
    by (intros; by apply Forall_insert).
  destruct (fl_stage f) as [m|[rd|e|]| |] eqn:Hst; cbv zeta in Hrun.
  - destruct (st_bind _ _ (dsk s)) as [d rr] eqn:Hw. injection Hrun as <- _. split; [done |]. intros Ht Hs. split; [done |].
    simpl. apply Hins; [| done]. unfold healthy_stage. simpl. destruct rr as [rd| |]; [| done..].
    revert Hw. unfold st_bind. destruct (writeSSTableFromMemtable _ _ _ _ _ _ _) as [d1 [[]| |]]; [| done..].
    unfold wrap, reopen. destruct (source_of _ _ _ d1) as [src|] eqn:Hsrc; [| done].
    destruct (OpenWithCache _ _) as [rd'| |] eqn:Ho; [| done..]. cbn [res_wrap]. intros [= _ <-].
    apply OpenWithCache_source in Ho as ->. unfold source_of in Hsrc. destruct (re_opens env); [| done].
    destruct (d1 !! _); [| done]. by injection Hsrc as <-.
  - injection Hrun as <- _. split; [done |]. intros Ht Hs. simpl. split; [| by apply Hins].
    constructor; [| done]. rewrite Forall_forall in Hs. specialize (Hs f ltac:(by eapply list_elem_of_lookup_2)).
    unfold healthy_stage in Hs. rewrite Hst in Hs. exact Hs.
  - injection Hrun as <- _. split; [done |]. intros Ht Hs. simpl. auto.
  - by injection Hrun as <- _.
  - destruct (Appender.Close (fl_wal f)) as [x [e|]]; injection Hrun as <- _; (split; [done |]); intros Ht Hs; simpl; auto.
    split; [done |]. by apply Hins.
  - destruct (removeFile _ _ (dsk s)) as [d [[]|e|]]; injection Hrun as <- _; (split; [done |]); intros Ht Hs; simpl; auto.
Qed.

Lemma careful_flush_keeps K envs : forall s s',
  keeps s K -> Forall (fun r => forall o, re_bad r o = false) envs -> careful_flush envs s = Some s' -> keeps s' K.
Proof.
  induction envs as [|env envs IH]; intros s s' Hk Hb; cbn [careful_flush]; [by intros [= <-] |].
  apply Forall_cons in Hb as [Hb Hbs]. destruct (runFlush fb fh env 0 s) as [[s1 [[]|e|]]|] eqn:Hr; [| done | done | by apply IH].
  destruct (bool_decide _) eqn:H1; [| done]. destruct (bool_decide (fits (dsk s1))) eqn:H2; [| done]. simpl.
  destruct (forallb _ _) eqn:H3; [| done]. apply IH; [| done]. destruct Hk as (Hre & Hcl & Ht & Hs).
  destruct (runFlush_frame env 0 s s1 _ Hr Hb) as [Hc1 Hh1]. destruct (Hh1 Ht Hs) as [Ht1 Hs1].
  split_and!; [| congruence | done | done]. eapply reach_step; [exact Hre |].
  apply bool_decide_eq_true_1 in H1, H2. eapply step_run; [exact H1 | exact Hr | exact H2 |].
  unfold unfailed. apply Forall_forall. intros g Hg err Hw.
  rewrite list_elem_of_In in Hg. rewrite forallb_forall in H3. specialize (H3 g Hg). by rewrite Hw in H3.
Qed.

Lemma apply_keeps K env ops s :
  keeps s K ->
  match careful_apply env ops s with (s', Ok _) => keeps s' (kv_batch K ops) | (_, Err _) => False | (_, Panic) => True end.
Proof.
  intros Hk. unfold careful_apply. destruct (careful_flush _ s) as [s1|] eqn:Hw; [| done].
  apply (careful_flush_keeps K) in Hw as (Hre & Hcl & Ht & Hs); [| done | apply se_readable]. destruct (forallb _ _) eqn:Hwf; [| done].
  destruct (Z.ltb_spec (nextWALSeq (Engine.eng s1)) (10 ^ 6)) as [Hn |]; [| done]. simpl.
  destruct (ApplyBatch _ _ ops s1) as [[s2 [[]|e|]]|] eqn:Ha; [| done..].
  destruct (Nat.leb_spec (length (flushes (Engine.eng s2))) 1) as [Hl |]; [| done].
  pose proof Ha as Ha'. unfold ApplyBatch, unless_flushing in Ha'. destruct (immutable (Engine.eng s1)); [done |].
  injection Ha' as Ha'. apply applyLocked_frame in Ha' as (Hc & Hst & Hfl).
  split_and!; [| congruence | by rewrite Hst | by apply Hfl].
  eapply reach_step; [exact Hre |]. replace (∅ : gset bytes) with ((∅ : gset bytes) ∖ op_keys ops) at 2 by set_solver.
  eapply step_applied; [| exact Hn | exact Ha | exact Hl]. apply Forall_forall. intros x Hx. rewrite forallb_forall in Hwf.
  apply list_elem_of_In in Hx. specialize (Hwf x Hx). apply andb_prop in Hwf as [H1 H2]. apply bool_decide_eq_true_1 in H1.
  apply Z.ltb_lt in H2. by split.
Qed.

Lemma get_keeps K k s :
  keeps s K -> match Engine.Get k s with (s', Ok a) => keeps s' K /\ a = kv_get K k | (s', Err _) => keeps s' K | _ => True end.
Proof.
  intros (Hre & Hcl & Ht & Hs). pose proof (inv_reach fb fh Hfb _ _ _ Hre) as (M & HM & He).
  destruct (einv_Get M ∅ s k He Hcl) as (s' & a & Hg & He' & Hd & (c & Hc) & Hnp & Ha).
  assert (keeps s' K) as Hk.
  { split_and!; [| by rewrite Hc | by rewrite Hc | by rewrite Hc]. eapply reach_step; [exact Hre |]. by eapply step_get. }
  rewrite Hg. destruct a as [a|e|]; [| done | done]. split; [done |].
  destruct (Ha ltac:(set_solver)) as [Heq | [[e ?] _]]; [| done]. injection Heq as ->. apply HM.
Qed.

Lemma snapshot_keeps K env s :
  keeps s K ->
  match careful_snapshot env s with (s', Ok data) => keeps s' K /\ image data K | (s', Err _) => keeps s' K | (_, Panic) => True end.
Proof.
  intros Hk. unfold careful_snapshot. destruct (careful_flush _ s) as [s1|] eqn:Hw; [| done].
  apply (careful_flush_keeps K) in Hw as (Hre & Hcl & Ht & Hs); [| done | apply se_readable].
  pose proof (inv_reach fb fh Hfb _ _ _ Hre) as (M & HM & min & tabs & m & im & extra & fw & cn & D & A & cb & He).
  destruct (Snapshot_layers s1 (ce_order (se_calls env)) m im tabs.*2 (ei_layers _ _ _ _ _ _ _ _ _ _ _ _ _ He) Hcl)
    as (c & a & ks & Hrun & _ & _ & _ & _).
  assert (einv M ∅ s1) as He' by (by exists min, tabs, m, im, extra, fw, cn, D, A, cb).
  destruct (einv_Snapshot M ∅ s1 (ce_order (se_calls env)) He' Hcl (se_perm env)) as (s' & a' & Hrun' & _ & _ & _ & Hes).
  rewrite Hrun in Hrun'. injection Hrun' as <- <-. destruct (Hes Ht) as (es & -> & Hnd & Hin).
  assert (keeps (mkWorld (dsk s1) (set_ecache c (Engine.eng s1))) K) as Hk1.
  { split_and!; try done. eapply reach_step; [exact Hre |]. eapply step_snapshot; [apply (se_perm env) | exact Hrun]. }
  rewrite Hrun. destruct (Z.ltb_spec (len (snapshot_bytes es)) snapshotMax) as [Hl |]; [| done].
  split; [done |]. exists es. split_and!; [done | done | done |]. eapply kv_of_agrees; [done | done |]. intros k v. apply Hin. set_solver.
Qed.

Lemma kv_get_ext (K K' : kv) : (forall k, kv_get K k = kv_get K' k) -> K = K'.
Proof.
  intros H. apply map_eq. intros k. specialize (H k). unfold kv_get in H. destruct (K !! k), (K' !! k); by simplify_eq.
Qed.

Lemma restore_within K K' env data es s :
  keeps s K -> image data K' -> fine_restore env -> flushes (Engine.eng s) = [] -> decodeSnapshotEntries data = Ok es ->
  next_seq (Engine.eng s) < 10 ^ 6 ->
  fits (fst (write_sst fb fh (sstName (next_seq (Engine.eng s))) (SSTableBlockSize (opts (Engine.eng s)))
    (rs_table env) (number_entries 0 (merge_sort se_le es)) (dsk s))) ->
  exists s', RestoreSnapshot fb fh env data s = (s', Ok tt) /\ keeps s' K'.
Proof.
  intros (Hre & Hcl & Ht & Hs) (es' & -> & Hnd & Hlen & Heq) Hfine Hfl Hdec Hn Hfit. apply kv_get_ext in Heq as <-.
  assert (len (snapshot_bytes es') < 2 ^ 32) as Hlen' by (unfold snapshotMax in Hlen; lia).
  rewrite (decode_snapshot_bytes es' Hlen') in Hdec. injection Hdec as <-.
  pose proof (inv_reach fb fh Hfb _ _ _ Hre) as (M & HM & He).
  pose proof (RestoreSnapshot_spec fb fh Hfb M ∅ s env es' He Hcl Hfl Hn Hlen' Hnd Hfit) as Hspec.
  destruct (RestoreSnapshot fb fh env (snapshot_bytes es') s) as [s' [[]|e|]] eqn:Hr; [| by destruct Hspec | done].
  destruct Hspec as (_ & Hcl' & Hfl' & _ & Hh). exists s'. split; [done |]. split_and!; [| done | by apply Hh | by rewrite Hfl'].
  eapply reach_step; [exact Hre |]. by eapply step_restore.
Qed.

Lemma restore_keeps K K' env data s :
  keeps s K -> image data K' ->
  match careful_restore env data s with (s', Ok _) => keeps s' K' | (_, Err _) => False | (_, Panic) => True end.
Proof.
  intros Hk Hi. unfold careful_restore. destruct (careful_flush _ s) as [s1|] eqn:Hw; [| done].
  apply (careful_flush_keeps K) in Hw; [| done | apply se_readable]. destruct (flushes (Engine.eng s1)) as [|f fs] eqn:Hfl; [| done].
  destruct (decodeSnapshotEntries data) as [es|e|] eqn:Hdec; [| done | done].
  destruct (Z.ltb_spec (next_seq (Engine.eng s1)) (10 ^ 6)) as [Hn |]; [| done]. cbn [andb].
  destruct (bool_decide _) eqn:Hfit; [| done]. apply bool_decide_eq_true_1 in Hfit.
  by destruct (restore_within K K' _ data es s1 Hw Hi (se_fine env) Hfl Hdec Hn Hfit) as (s' & -> & ?).
Qed.

(** The careful engine discharges its side of the interface. *)
#[local] Instance careful_keeps_map : keeps_map world steady_env keeps.
Proof.
  constructor.
  - intros s K env ops Hk. apply (apply_keeps K env ops s Hk).
  - intros s K k Hk. apply (get_keeps K k s Hk).
  - intros s K env Hk. apply (snapshot_keeps K env s Hk).
  - intros s K K' env data Hk Hi. apply (restore_keeps K K' env data s Hk Hi).
Qed.
End engine.
