(* ===== verification/ServerNode.v ===== *)
(** * The Raft node behind the server's interface

    The node of [RaftNode] keeps the promises of [follows]: along every run in
    which what it holds as committed agrees with one log, it hands the server
    the entries of that log in order, a snapshot only as a jump ahead, and reads
    only at committed indexes.  That the committed entries of the nodes of a
    cluster agree is the business of the consensus protocol; what the theorems
    on the server ask of it is [agrees] and [okmsg], which [CmdCluster] derives
    from the safety of the cluster. *)

From Stdlib Require Import Strings.Byte Strings.String.
From S2P Require Import Prelude GoBytes GoState Wal Engine EngineSnapshot EngineRun Server ServerReplies ServerSteps ServerLog ServerImpl RaftTypes RaftStorage Raft RaftLog RaftInv RaftVote RaftStable RaftSend RaftApp RaftNode.
Import RaftStorage.Codec.

Section node.
Context (L : list LogEntry.t) (hz : Z) (cfg : Config.t).

(** The committed entries of the node are those of the log, and a snapshot it
    is about to report lies ahead of the application and stands for the map. *)
Record agrees (r : Raft) (a : Z) : Prop := {
  ag_term : currentTerm r < maxTerm;
  ag_data : Forall (fun e => len (LogEntry.Data e) < dataMax) (log r);
  ag_room : firstLogIndex r + len (log r) <= maxIndex;
  ag_last : commitIndex r <= lastLogIndex r;
  ag_len : commitIndex r <= len L;
  ag_log : forall i, firstLogIndex r < i <= commitIndex r -> entry_at r i = L !! Z.to_nat (i - 1);
  ag_snap : forall sn, pendingSnapshotToApply r = Some sn ->
    a <= Snapshot.LastIncludedIndex sn /\ exists K, image (Snapshot.Data sn) K /\ fuzzy L hz (Snapshot.LastIncludedIndex sn) K
}.

(** What the peers' messages are like. *)
Definition okmsg (n : Node) (m : Message.t) : Prop := from_others cfg m /\ keeps_committed (n_r n) m.

Definition reported (r : Raft) (a : Z) : Prop :=
  match pendingSnapshotToApply r with Some sn => sn = snapshot r | None => firstLogIndex r <= a end.

(** A snapshot the application can go on from. *)
Definition snap_ok (sn : Snapshot.t) : Prop :=
  Snapshot.LastIncludedIndex sn = 0 \/
  Snapshot.LastIncludedIndex sn <= len L /\ exists K, image (Snapshot.Data sn) K /\ fuzzy L hz (Snapshot.LastIncludedIndex sn) K.

(** What a crash leaves on the node's disk is enough to go on from. *)
Definition durable (n : Node) : Prop :=
  Config.ID cfg = id (n_r n) /\ snap_ok (snapshot (n_r n)) /\
  exists d t, node_inv (from_others cfg) d t n /\ snapshots snap_ok d t.

Record node_any (n : Node) (a : Z) : Prop := {
  na_inv : inv (n_r n);
  na_agrees : agrees (n_r n) a;
  na_reads : reads_bound (n_r n);
  na_pos : 0 <= a;
  na_reported : reported (n_r n) a;
  na_durable : durable n
}.
Definition node_ready (n : Node) (a : Z) : Prop := node_any n a /\ pendingSnapshotToApply (n_r n) = None.
Definition node_agree (n : Node) (a : Z) : Prop := agrees (n_r n) a.

Lemma snapshot_ok r a sn : inv r -> agrees r a -> pendingSnapshotToApply r = Some sn -> sn = snapshot r -> snap_ok (snapshot r).
Proof.
  intros Hi Hag Hp ->. right. destruct (ag_snap _ _ Hag _ Hp) as [_ HK]. split; [| done].
  rewrite (inv_snapshot _ Hi). pose proof (inv_commit _ Hi). pose proof (ag_len _ _ Hag). lia.
Qed.

(** An operation of the node, as long as it agrees with the log afterwards. *)
Lemma exec_any n o r' a :
  node_any n a -> exec (n_r n) o = Ok r' -> tells (n_r n) r' -> op_ok (n_r n) o -> op_wf o -> (forall m, o = OStep m -> from_others cfg m) ->
  agrees r' a -> node_any {| n_r := r'; n_storage := n_storage n |} a.
Proof.
  intros [Hi Hag Hrd Ha Hrep (Hid & Hsn & d & t & Hn & Hd)] Hrun [Hc Hs Hb] Hok Hwf Hnet Hag'.
  assert (forall m, from_others cfg m -> Message.From m <> 0) as Hfrom by (intros m Hm; apply Hm).
  destruct (node_exec (from_others cfg) Hfrom d t n o r' Hn (ag_term _ _ Hag) Hok Hwf Hnet Hrun) as [Hn' (Hid' & _)].
  pose proof (sd_inv _ (ni_send _ _ _ _ Hn')) as Hi'. cbn [n_r] in Hi'.
  assert (reported r' a) as Hrep'.
  { unfold reported in *. destruct Hs as [[Hsn' Hp] | [-> _]]; [| done]. rewrite Hp. destruct (pendingSnapshotToApply (n_r n)); [congruence |].
    by rewrite <- (inv_snapshot _ Hi'), Hsn', (inv_snapshot _ Hi). }
  constructor; cbn [n_r]; try done; [auto |]. split_and!; [cbn [n_r]; congruence | cbn [n_r] | by exists d, t].
  destruct Hs as [[-> _] | [Hp _]]; [done |]. by eapply snapshot_ok.
Qed.

Lemma append_proposals_log datas : forall r r' ix,
  append_proposals r datas = (r', ix) -> exists l, log r' = log r ++ l /\ map LogEntry.Data l = datas.
Proof.
  induction datas as [|d datas IH]; intros r r' ix; cbn [append_proposals].
  { intros [= <- _]. exists []. by rewrite app_nil_r. }
  destruct (append_proposals _ datas) as [r2 ind] eqn:E. intros [= <- _]. destruct (IH _ _ _ E) as (l & -> & Hl).
  eexists. simpl. rewrite <- app_assoc. split; [reflexivity |]. simpl. by rewrite Hl.
Qed.

Lemma ProposeBatch_log r datas r' ix :
  ProposeBatch r datas = Ok (r', ix) -> exists l, log r' = log r ++ l /\ map LogEntry.Data l = datas.
Proof.
  unfold ProposeBatch. destruct (negb _); [done |]. destruct (append_proposals r datas) as [r1 ind] eqn:Hp.
  intros H. bind_ok H r2 H2. injection H as <- _. apply broadcast_frame in H2.
  assert (log (if len (peers r2) =? 0 then maybeAdvanceCommitIndex r2 else r2) = log r1) as ->; [| by eapply append_proposals_log].
  transitivity (log r2); [destruct (_ =? 0); [by rewrite (proj1 (maybeAdvance_frame r2)) | done] | by rewrite H2].
Qed.

Lemma agrees_Advance r a : inv r -> agrees r a -> forall b, agrees (Advance r) b.
Proof.
  intros Hi []. intros b. assert (log (Advance r) = log r /\ commitIndex (Advance r) = commitIndex r /\ pendingSnapshotToApply (Advance r) = None /\ currentTerm (Advance r) = currentTerm r) as (Hl & Hc & Hp & Ht)
    by (unfold Advance; destruct r; simpl; by destruct (_ <=? _)).
  constructor; unfold entry_at in *; unfold firstLogIndex, lastLogIndex in *; rewrite ?Hl, ?Hc, ?Hp, ?Ht; done.
Qed.

(** [Persist] reports what the node holds and advances, or changes only the
    files. *)
Lemma Persist_cases env n n' out : inv (n_r n) -> RaftNode.Persist env n = (n', out) ->
  (n_r n' = n_r n /\ is_ok out = false) \/
  n_r n' = Advance (n_r n) /\ exists ms, out = Ok (ms, readStates (n_r n), pendingSnapshotToApply (n_r n)).
Proof.
  intros Hi. unfold RaftNode.Persist. rewrite ready_spec by done. cbn [Ready.Snapshot Ready.HardState Ready.UnstableEntries
    Ready.FirstUnstableIndex Ready.Messages Ready.ReadStates Ready.SnapshotToApply].
  repeat match goal with
  | |- context [match ?x with _ => _ end] => lazymatch x with RaftNode.n_r _ => fail | _ => destruct x end
  end; intros [= <- <-]; cbn [n_r]; first [by left | right; split; [done | by eexists]].
Qed.

(** The entries between what was applied and the commit index. *)
Lemma Entries_span r a : inv r -> agrees r a -> firstLogIndex r <= a -> 0 <= a < commitIndex r ->
  Raft.Entries r a (commitIndex r) = Ok (span L a (commitIndex r)).
Proof.
  intros Hi [] Hf Ha. rewrite Entries_ok by (done || lia). cbv zeta. rewrite Z.max_l, Z.min_l by lia. f_equal.
  pose proof (last_first r Hi) as Hl. pose proof (inv_first r Hi) as H0. unfold len in *.
  apply list_eq. intros j. unfold span. destruct (decide (j < Z.to_nat (commitIndex r - a))%nat) as [Hj|Hj].
  - rewrite !lookup_take_lt, !lookup_drop by done. specialize (ag_log0 (a + 1 + Z.of_nat j) ltac:(lia)). unfold entry_at in ag_log0.
    rewrite (proj2 (Z.ltb_ge _ _)) in ag_log0 by lia.
    replace (Z.to_nat (a - firstLogIndex r + 1) + j)%nat with (Z.to_nat (a + 1 + Z.of_nat j - firstLogIndex r)) by lia.
    rewrite ag_log0. f_equal. lia.
  - rewrite !lookup_take_ge by lia. done.
Qed.

Lemma CreateSnapshot_agrees r a data r' : inv r -> agrees r a -> pendingSnapshotToApply r = None ->
  Raft.CreateSnapshot r a data = Ok r' -> agrees r' a /\ pendingSnapshotToApply r' = None /\ firstLogIndex r' = a.
Proof.
  intros Hi [] Hp Hrun. pose proof (CreateSnapshot_inv _ _ _ _ Hi Hrun) as [Hi' Hll]. pose proof (last_first r Hi) as Hl.
  apply CreateSnapshot_spec in Hrun as (Hix & Hla & Hlog & _ & _ & Heq); [| done].
  assert (firstLogIndex r' = a) as Hf by (unfold firstLogIndex; by rewrite Hlog).
  assert (commitIndex r' = commitIndex r) as Hc by (by rewrite Heq).
  assert (pendingSnapshotToApply r' = None) as Hp' by (by rewrite Heq).
  split; [| done]. pose proof (last_first r' Hi') as Hl'. constructor; rewrite ?Hc, ?Hp'; [by rewrite Heq | | lia | lia | done | | done].
  { rewrite Hlog. constructor; [done |]. by apply Forall_drop. }
  intros i Hir. rewrite Hf in Hir. rewrite <- ag_log0 by lia. unfold entry_at. rewrite Hf.
  rewrite !(proj2 (Z.ltb_ge _ _)) by lia. rewrite Hlog.
  replace (Z.to_nat (i - a)) with (S (Z.to_nat (i - a - 1))) by lia. rewrite lookup_cons, lookup_drop. f_equal. lia.
Qed.

Lemma node_Persist n n' env a out : node_any n a -> tmp_left env = [] -> RaftNode.Persist env n = (n', out) ->
  match out with
  | Ok (_, rs, None) => node_ready n' a /\ Forall (fun r => ReadState.Index r <= commitIndex (n_r n')) rs
  | Ok (_, rs, Some sn) =>
      node_ready n' (Snapshot.LastIncludedIndex sn) /\ a <= Snapshot.LastIncludedIndex sn /\
      (exists K, image (Snapshot.Data sn) K /\ fuzzy L hz (Snapshot.LastIncludedIndex sn) K) /\
      Forall (fun r => ReadState.Index r <= commitIndex (n_r n')) rs
  | _ => node_any n' a
  end.
Proof.
  intros [Hi Hag [Hrd Hpd] Ha Hrep (Hid & Hsnap & d & t & Hn & Hd)] Ht H.
  pose proof (Persist_spec (from_others cfg) d t n env n' out Hn Ht H) as Hspec.
  destruct (Persist_cases env n n' out Hi H) as [(Hr & Hout) | (Hr & ms & ->)].
  { destruct out as [o|e|]; [done | | done]. destruct Hspec as (_ & d' & t' & Hn' & Hsn').
    constructor; rewrite ?Hr; try done. split_and!; rewrite ?Hr; try done. exists d', t'. split; [done |]. apply Hsn'; [by split | done]. }
  destruct Hspec as (_ & _ & _ & items & [_ Hst] & Hn').
  pose proof (agrees_Advance (n_r n) a Hi Hag) as Hadv.
  assert (commitIndex (Advance (n_r n)) = commitIndex (n_r n) /\ readStates (Advance (n_r n)) = [] /\ pendingSnapshotToApply (Advance (n_r n)) = None /\
    pendingReads (Advance (n_r n)) = pendingReads (n_r n) /\ firstLogIndex (Advance (n_r n)) = firstLogIndex (n_r n) /\
    id (Advance (n_r n)) = id (n_r n) /\ snapshot (Advance (n_r n)) = snapshot (n_r n)) as (Hc & Hrs & Hp & Hpr & Hf & Hid' & Hsn')
    by (unfold Advance; destruct (n_r n); simpl; by destruct (_ <=? _)).
  assert (forall b, 0 <= b -> firstLogIndex (n_r n) <= b -> node_ready n' b) as Hready.
  { intros b Hb Hfb. split; [| by rewrite Hr]. constructor; unfold reported, reads_bound; rewrite ?Hr, ?Hp, ?Hf, ?Hrs, ?Hpr, ?Hc; try done.
    - by apply inv_Advance.
    - split_and!; rewrite ?Hr, ?Hid', ?Hsn'; try done. exists items, items. split; [done |].
      apply between_same. by rewrite Hst. }
  rewrite Hr, Hc. unfold reported in Hrep. destruct (pendingSnapshotToApply (n_r n)) as [sn|] eqn:Hsn; [| by split; [apply Hready |]].
  destruct (ag_snap _ _ Hag sn Hsn) as [Hsa HK]. subst sn. rewrite (inv_snapshot _ Hi) in *.
  split_and!; [apply Hready; [apply inv_first, Hi | lia] | done | done | done].
Qed.

#[global] Instance node_follows : follows L hz Node node_env node_any node_ready node_agree okmsg.
Proof.
  constructor.
  - by intros n a [H _].
  - intros n n' a Hn. cbn [rn_Tick node_raftNode]. intros H. bind_ok H r Hr. injection H as <-.
    apply (exec_any n OTick); try done. by apply tells_Tick.
  - intros n n' m a Hn [Hm Hk]. cbn [rn_Step node_raftNode]. intros H. bind_ok H r Hr. injection H as <-.
    pose proof Hn as [Hi Hag _ _ _ _]. pose proof Hm as [[Hw Hwf] _]. apply (exec_any n (OStep m)); try done; [| by intros x [= <-]].
    eapply tells_Step; [done | done | by apply (ag_last _ _ Hag) | done | done].
  - intros n n' ds ix a Hn. cbn [rn_ProposeBatch node_raftNode]. intros H. bind_ok H x Hr. destruct x as [r ix']. injection H as <- _. intros Hag.
    pose proof Hn as [Hi _ _ _ _ _]. destruct (ProposeBatch_log _ _ _ _ Hr) as (l & Hl & Hd). pose proof (ag_room _ _ Hag) as Hroom.
    pose proof (ag_data _ _ Hag) as Hdata. cbn [n_r] in Hroom, Hdata.
    apply (exec_any n (OPropose ds)); try done; [by simpl; rewrite Hr | by eapply tells_ProposeBatch | |].
    + simpl. rewrite (last_first _ Hi). apply (f_equal len) in Hd. rewrite len_map in Hd.
      replace (firstLogIndex r) with (firstLogIndex (n_r n)) in Hroom; [rewrite Hl, len_app, Hd in Hroom; lia |].
      unfold firstLogIndex. rewrite Hl. pose proof (inv_nonempty _ Hi). by destruct (log (n_r n)).
    + simpl. rewrite <- Hd. rewrite Hl in Hdata. apply Forall_app in Hdata as [_ Hdata]. by apply Forall_fmap.
  - intros n n' ctx a Hn. cbn [rn_RequestReadIndex node_raftNode]. intros H. bind_ok H r Hr. injection H as <-.
    apply (exec_any n (ORead ctx)); try done; [by simpl; rewrite Hr | by eapply tells_RequestReadIndex].
  - intros n n' env a out Hn. cbn [rn_Persist rn_Status node_raftNode status Status.CommitIndex]. by apply node_Persist, ne_clean.
  - intros n a [[Hi Hag Hrd Ha Hrep Hd] Hp] Hlt. cbn [rn_Entries rn_Status node_raftNode status Status.CommitIndex] in *.
    unfold reported in Hrep. rewrite Hp in Hrep.
    split_and!; [apply Entries_span; auto; lia | | by apply (ag_len _ _ Hag)].
    split; [| done]. constructor; try done; [| lia | unfold reported; rewrite Hp; lia].
    destruct Hag. constructor; try done. intros sn Hsn. congruence.
  - intros n n' a data K [Hn Hp] HK Hf. cbn [rn_CreateSnapshot rn_Status node_raftNode]. pose proof Hn as [Hi Hag Hrd Ha Hrep Hd].
    intros H. bind_ok H r Hr. injection H as <-. destruct (CreateSnapshot_agrees _ _ _ _ Hi Hag Hp Hr) as (Hag' & Hp' & Hf').
    destruct (CreateSnapshot_inv _ _ _ _ Hi Hr) as [Hi' Hl']. pose proof Hr as Hr0.
    apply CreateSnapshot_spec in Hr as (Hidx & _ & _ & _ & Hsn & Heq); [| done].
    split; [| unfold status; cbn [n_r]; rewrite Hl'; by rewrite Heq].
    split; [| done]. destruct Hd as (Hid & Hsnap & d & t & Hni & Hds).
    destruct HK as (es & Hes & Hnd & Hlen & Hkv).
    assert (forall m, from_others cfg m -> Message.From m <> 0) as Hfrom by (intros m Hm; apply Hm).
    assert (exec (n_r n) (OSnapshot a data) = Ok r) as Hrun by (by simpl; rewrite Hr0).
    destruct (node_exec (from_others cfg) Hfrom d t n (OSnapshot a data) r Hni (ag_term _ _ Hag) I Hlen ltac:(done) Hrun) as [Hn' (Hid' & _)].
    constructor; cbn [n_r]; try done; [by rewrite Heq | unfold reported; rewrite Hp'; lia |].
    split_and!; [cbn [n_r]; congruence | cbn [n_r]; rewrite Hsn; right; simpl | by exists d, t].
    split; [pose proof (ag_len _ _ Hag); lia |]. exists K. split; [by exists es | done].
Qed.
End node.

(** ** Restarting *)

Lemma snap_ok_mono L hz hz' sn : hz <= hz' -> snap_ok L hz sn -> snap_ok L hz' sn.
Proof.
  intros Hz [?|(Hl & K & Hi & Hf)]; [by left | right]. split; [done |]. exists K. split; [done |]. by eapply fuzzy_mono.
Qed.

Lemma durable_mono L hz hz' cfg n : hz <= hz' -> durable L hz cfg n -> durable L hz' cfg n.
Proof.
  intros Hz (Hid & Hs & d & t & Hn & Hd). split_and!; [done | by eapply snap_ok_mono |]. exists d, t. split; [done |].
  revert Hd. apply between_impl. intros st. by apply snap_ok_mono.
Qed.

(** The snapshot handed to the caller is the one the node starts from. *)
Lemma OpenNode_snap cfg p f opens faults draws n snap : OpenNode cfg p f opens faults draws = Ok (n, snap) ->
  snap = if 0 <? Snapshot.LastIncludedIndex (snapshot (n_r n)) then Some (snapshot (n_r n)) else None.
Proof.
  unfold OpenNode. intros H. bind_ok H x Hs. destruct x as [st [[hs lg] sn]]. bind_ok H r Hr.
  destruct (0 <? Snapshot.LastIncludedIndex sn) eqn:Hz; injection H as <- <-; cbn [n_r]; [simpl; by rewrite Hz |].
  apply New_fields in Hr as (_ & _ & _ & _ & Hsn & _). assert (snapshot (restoreState hs lg r) = snapshot r) as ->.
  { unfold restoreState. cbv zeta. by repeat case_match. }
  by rewrite Hsn.
Qed.

Lemma restored_quiet cfg draws r0 st : New cfg draws = Ok r0 ->
  pendingSnapshotToApply (restored r0 st) = None /\ readStates (restored r0 st) = [] /\ pendingReads (restored r0 st) = ∅.
Proof.
  intros H. assert (pendingSnapshotToApply r0 = None /\ readStates r0 = [] /\ pendingReads r0 = ∅) as (H1 & H2 & H3).
  { revert H. unfold New. destruct (Config.validate cfg); [done |]. intros [= <-]. rewrite resetElectionTimeout_frame. done. }
  unfold restored, restoreState. cbv zeta. destruct (0 <? Snapshot.LastIncludedIndex _); destruct (0 <? len _); destruct (_ <? _); done.
Qed.

(** Whatever state a node starts from, it is ready behind its snapshot. *)
Lemma restored_ready L hz cfg draws r0 items n :
  New cfg draws = Ok r0 -> n_r n = restored r0 (state_of items) -> node_inv (from_others cfg) items items n ->
  rec_ok (state_of items) -> HardState.Term (d_hs (state_of items)) < maxTerm -> snap_ok L hz (d_snap (state_of items)) ->
  snapshot (n_r n) = d_snap (state_of items) /\
  forall a, Snapshot.LastIncludedIndex (d_snap (state_of items)) <= a -> node_ready L hz cfg n a.
Proof.
  intros Hnew Hr Hni Hro Ht Hsn.
  destruct (restored_fields cfg draws r0 _ Hnew Hro) as (Hid & _ & _ & _ & Hh & _ & Hlg & Hs & _ & Hc & _ & Hl).
  destruct (restored_quiet cfg draws r0 (state_of items) Hnew) as (Hp & Hrs & Hpr). rewrite <- Hr in *.
  pose proof (sd_inv _ (ni_send _ _ _ _ Hni)) as Hi. pose proof (last_first _ Hi) as Hlf. pose proof (inv_snapshot _ Hi) as Hf. rewrite Hs in Hf.
  destruct Hro. set (idx := Snapshot.LastIncludedIndex (d_snap (state_of items))) in *. split; [done |]. intros a Ha. split; [| done].
  pose proof (len_nonneg (d_log (state_of items))) as Hlen.
  assert (idx <= len L) as HL by (pose proof (len_nonneg L); destruct Hsn as [H0 | [H0 _]]; fold idx in H0; lia).
  constructor; try done.
  - constructor; rewrite ?Hc, ?Hp; try done; try lia.
    + apply (f_equal HardState.Term) in Hh. simpl in Hh. lia.
    + rewrite Hlg. constructor; [unfold sentinel; by destruct (_ <? _) |]. eapply Forall_impl; [exact ro_entries |]. intros e He. apply He.
  - unfold reads_bound. by rewrite Hrs, Hpr.
  - lia.
  - unfold reported. rewrite Hp. lia.
  - split_and!; [done | by rewrite Hs |]. exists items, items. split; [done |]. by apply between_same.
Qed.

(** A node that starts without a file. *)
Lemma node_first L cfg p faults draws n snap :
  is_u64 (Config.ID cfg) -> OpenNode cfg p None true faults draws = Ok (n, snap) -> snap = None /\ node_ready L 0 cfg n 0.
Proof.
  intros Hid Ho. pose proof (OpenNode_snap _ _ _ _ _ _ _ _ Ho) as ->.
  destruct (node_start cfg p (from_others cfg) faults draws n _ Hid ltac:(by intros m (_ & _ & ?)) Ho) as (Hni & _).
  assert (exists r0, New cfg draws = Ok r0 /\ n_r n = restored r0 (state_of [])) as (r0 & Hnew & Hr).
  { revert Ho. unfold OpenNode, OpenStorage. simpl. intros H. bind_ok H r0 Hnew. injection H as <- _. exists r0. split; [done |]. reflexivity. }
  destruct (restored_ready L 0 cfg draws r0 [] n Hnew Hr Hni) as [Hs Hready]; [| done | by left |].
  { constructor; unfold maxIndex, hard_wf, is_u64; simpl; try done. }
  rewrite Hs. split; [done |]. by apply Hready.
Qed.

(** A node that starts from what a crash has left. *)
Lemma node_restart L hz cfg p n k faults draws r0 :
  durable L hz cfg n -> currentTerm (n_r n) < maxTerm -> New cfg draws = Ok r0 ->
  exists n' snap, OpenNode cfg p (Some (Replay.healthy (Durability.crash_image (disk (n_storage n)) k))) true faults draws = Ok (n', snap) /\
    match snap with
    | None => node_ready L hz cfg n' 0
    | Some sn => 0 < Snapshot.LastIncludedIndex sn /\ node_ready L hz cfg n' (Snapshot.LastIncludedIndex sn) /\
        exists K, image (Snapshot.Data sn) K /\ fuzzy L hz (Snapshot.LastIncludedIndex sn) K
    end.
Proof.
  intros (Hid & _ & d & t & Hn & Hd) Ht Hnew.
  destruct (OpenNode_crash (from_others cfg) d t n cfg p k faults draws r0 Hn Hnew Hid) as (items & n' & snap & Ho & Hpd & Hpt & Hr & (Hro & _ & Hle) & Hni).
  exists n', snap. split; [done |]. rewrite (OpenNode_snap _ _ _ _ _ _ _ _ Ho).
  assert (HardState.Term (d_hs (state_of items)) < maxTerm) as Ht' by (destruct Hle as [Hle|[Hle _]]; simpl in Hle; lia).
  pose proof (Hd items Hpd Hpt) as Hsn.
  destruct (restored_ready L hz cfg draws r0 items n' Hnew Hr Hni Hro Ht' Hsn) as [Hs Hready]. rewrite Hs.
  destruct (Z.ltb_spec 0 (Snapshot.LastIncludedIndex (d_snap (state_of items)))).
  - destruct Hsn as [? | [_ HK]]; [lia |]. split_and!; [done | by apply Hready | done].
  - apply Hready. lia.
Qed.

(** ** Agreement, checked *)

(** [agrees] and [agreeable], computed along a run without messages or
    snapshots. *)
Definition agrees_b (L : list LogEntry.t) (r : Raft) : bool :=
  (currentTerm r <? maxTerm) && forallb (fun e => len (LogEntry.Data e) <? dataMax) (log r) &&
  (firstLogIndex r + len (log r) <=? maxIndex) && (commitIndex r <=? lastLogIndex r) && (commitIndex r <=? len L) &&
  forallb (fun i => bool_decide (entry_at r i = L !! Z.to_nat (i - 1))) (seqZ (firstLogIndex r + 1) (commitIndex r - firstLogIndex r)) &&
  match pendingSnapshotToApply r with None => true | Some _ => false end.

Lemma agrees_b_sound L hz r a : agrees_b L r = true -> agrees L hz r a.
Proof.
  unfold agrees_b. rewrite !andb_true_iff, !Z.leb_le, Z.ltb_lt. intros ((((((H1 & H2) & H3) & H4) & H5) & H6) & H7).
  constructor; try done.
  - apply Forall_forall. intros e He. rewrite forallb_forall in H2. specialize (H2 e). rewrite <- list_elem_of_In in H2. specialize (H2 He). by apply Z.ltb_lt.
  - intros i Hi. rewrite forallb_forall in H6. specialize (H6 i). rewrite <- list_elem_of_In, elem_of_seqZ in H6.
    specialize (H6 ltac:(lia)). by apply (bool_decide_eq_true_1 _) in H6.
  - intros sn Hsn. by rewrite Hsn in H7.
Qed.

Section check.
Context (L : list LogEntry.t) {E EE : Type} `{!kvEngine E EE}.

Definition event_b (ev : event) (s : Server Node E) : bool :=
  match ev with Received (Some _) => false | _ => true end &&
  match calls ev s with Some (Ok n) => agrees_b L (n_r n) | _ => true end.
Fixpoint agreeable_b (evs : list (@pump_env node_env EE * event)) (s : Server Node E) : bool :=
  match evs with
  | [] => true
  | (env, ev) :: evs => done_ s || (event_b ev s && agreeable_b evs (fst (run_event env ev s)))
  end.

Lemma agreeable_b_sound hz ok evs s : agreeable_b evs s = true -> agreeable (node_agree L hz) ok evs s.
Proof.
  revert s. induction evs as [|[env ev] evs IH]; intros s; [done |]. cbn [agreeable_b agreeable].
  rewrite orb_true_iff, andb_true_iff. intros [?|[He ?]]; [by left | right]. split; [| by apply IH].
  unfold event_b in He. apply andb_true_iff in He as [Hm Hc]. split; [by intros m -> |].
  intros n Hn. rewrite Hn in Hc. by apply agrees_b_sound.
Qed.
End check.
