(* ===== verification/ServerProps.v ===== *)
(** * What the server promises *)

From Stdlib Require Import Strings.Byte Strings.String.
From stdpp Require Import sorting.
From S2P Require Import Prelude GoBytes GoSort GoFmt GoState Wal SkipList Memtable Bloom BlockCache SSTableFormat SSTableWriter SSTableReader SSTable Engine EngineLayers EngineDisk EngineReplay EngineSpec EngineInv EngineOpen EngineWrite EngineFlush EngineSnapshot EngineRestore EngineRun EngineProps RaftTypes RaftStorage Raft RaftNode Command Server ServerReplies ServerSteps ServerLog ServerImpl.

(** ** Small stand-ins for the witnesses *)

(** A node whose log is given and whose commit index moves on with the
    clock. *)
Definition toy_log : list LogEntry.t :=
  [LogEntry.mk 1 1 (rq_data (Server.Put ka [x31] 0)); LogEntry.mk 1 2 (rq_data (Server.Delete ka 0))].

#[local] Instance toy_node : raftNode Z unit := {
  rn_Tick n := Ok (if n <? 2 then n + 1 else n);
  rn_Step _ n := Ok n;
  rn_ProposeBatch ds n := Ok (n, imap (fun i _ => n + 1 + Z.of_nat i) ds);
  rn_RequestReadIndex _ n := Ok n;
  rn_CreateSnapshot _ _ n := Ok n;
  rn_Status n := Status.mk 1 1 Leader 1 n 2;
  rn_Entries a b n := Ok (span toy_log a b);
  rn_Persist _ n := (n, Ok ([], [], None))
}.

Definition toy_ok (n : Z) (_ : Z) : Prop := 0 <= n <= 2.

#[local] Instance toy_follows : follows toy_log 0 Z unit toy_ok toy_ok (fun _ _ => True) (fun _ _ => True).
Proof.
  constructor; unfold toy_ok.
  - done.
  - intros n n' _ Hn [= <-] _. destruct (Z.ltb_spec n 2); lia.
  - by intros n n' m _ Hn _ [= <-] _.
  - by intros n n' ds ix _ Hn [= <- _] _.
  - by intros n n' c _ Hn [= <-] _.
  - intros n n' [] a out Hn [= <- <-]. by split.
  - intros n a Hn Hc. simpl in *. split_and!; [done | lia | lia |]. unfold len. simpl. lia.
  - by intros n n' a data K Hn _ _ [= <-].
Qed.

Lemma toy_index i e : toy_log !! i = Some e -> LogEntry.Index e = Z.of_nat i + 1.
Proof. destruct i as [|[|i]]; [by intros [= <-] | by intros [= <-] | by destruct i]. Qed.

#[local] Instance demo_engine : kvEngine world steady_env := careful_kvEngine sized_bits demo_hashes.
#[local] Instance demo_keeps : keeps_map world steady_env (keeps sized_bits demo_hashes).
Proof. apply (careful_keeps_map sized_bits demo_hashes sized_bits_ok). Qed.

Lemma fine_restoring_ok : fine_restore fine_restoring.
Proof. repeat split. by eexists. Qed.

Definition fine_calls : calls_env := mkCalls fine_flush [fine_run; fine_run; fine_run; fine_run] (fun l => l) fine_restoring.
Definition demo_calls : steady_env :=
  mkSteady fine_calls (fun l => Permutation_refl l) (ltac:(by repeat constructor)) fine_restoring_ok.
Definition demo_env : @pump_env unit steady_env := mkPumpEnv tt demo_calls demo_calls demo_calls.

Lemma started_keeps : keeps sized_bits demo_hashes (started demo_opts ∅) ∅.
Proof. split_and!; [apply started_reach | vm_compute; reflexivity | vm_compute; constructor | vm_compute; constructor]. Qed.

(** A client puts a value: the proposal waits for the batch timer, the entry
    commits with the next tick. *)
Definition demo_events : list (pump_env * event) :=
  [(demo_env, Proposed (Server.Put ka [x31] 7)); (demo_env, BatchTimer); (demo_env, Ticked); (demo_env, ReadRequested 8)].
Definition demo_server : Server Z world := fst (Run demo_events (Server.New 0 (started demo_opts ∅))).

Example demo_server_run :
  snd (Run demo_events (Server.New 0 (started demo_opts ∅))) = Ok tt /\ replies demo_server = [Applied 7 None] /\
  Server.lastApplied demo_server = 1 /\ snd (Server.Get ka demo_server) = Ok ([x31], true).
Proof. vm_compute. split_and!; reflexivity. Qed.

Lemma run_returns {S A} (m : st S A) x a : snd (m x) = Ok a -> m x = (fst (m x), Ok a).
Proof. intros H. rewrite (surjective_pairing (m x)) at 1. by rewrite H. Qed.

(** ** Answers *)

(** C16: Every request is answered at most once.  Whatever the Raft node and
    the engine do, along any sequence of events whose requests come with
    distinct result channels, no channel is sent a second answer and none is
    sent one that was not asked for, so a send on a channel of capacity one
    never blocks the loop. *)
Theorem server_answers_once {N NE E EE : Type} `{!raftNode N NE} `{!kvEngine E EE} (n : N) (e : E) evs :
  NoDup (concat (map (fun x => event_ch x.2) evs)) ->
  let s := fst (Run evs (Server.New n e)) in
  NoDup (reply_ch <$> replies s) /\
  forall ch, ch ∈ reply_ch <$> replies s -> ch ∈ concat (map (fun x => event_ch x.2) evs).
Proof.
  intros Hnd s. pose proof (tokens_Run evs (Server.New n e)) as Ht. fold s in Ht.
  replace (tokens (Server.New n e)) with ([] : list chan) in Ht by (unfold tokens; simpl; by rewrite !map_to_list_empty).
  rewrite app_nil_r in Ht. assert (reply_ch <$> replies s ⊆+ concat (map (fun x => event_ch x.2) evs)) as Hr.
  { etrans; [| exact Ht]. unfold tokens. by do 3 apply submseteq_inserts_l. }
  split.
  { apply submseteq_Permutation in Hr as [rest Hp]. rewrite Hp in Hnd. by apply NoDup_app in Hnd as [? _]. }
  intros ch Hch. by eapply elem_of_submseteq.
Qed.

Lemma server_answers_once_witness :
  NoDup (reply_ch <$> replies demo_server) /\
  forall ch, ch ∈ reply_ch <$> replies demo_server -> ch ∈ concat (map (fun x => event_ch x.2) demo_events).
Proof.
  apply (server_answers_once (0 : Z) (started demo_opts ∅) demo_events). apply (bool_decide_unpack _). vm_compute. exact I.
Defined.

(** ** The replicated state machine *)

(** The proposals among events. *)
Definition proposals {NE EE} (evs : list (@pump_env NE EE * event)) : list proposeRequest :=
  omap (fun x => match x.2 with Proposed r => Some r | _ => None end) evs.

Lemma proposals_spec {NE EE} (evs : list (@pump_env NE EE * event)) r : r ∈ proposals evs <-> Proposed r ∈ evs.*2.
Proof.
  unfold proposals. rewrite list_elem_of_omap, list_elem_of_fmap. split.
  - intros ([env ev] & Hin & Hev). exists (env, ev). split; [| done]. simpl in *. by destruct ev; simplify_eq.
  - intros ([env ev] & Heq & Hin). exists (env, ev). split; [done |]. simpl in *. by subst.
Qed.

(** ** Facts the theorems share *)

Section run.
Context {N NE E EE : Type} `{!raftNode N NE} `{!kvEngine E EE} (L : list LogEntry.t) (hz : Z).
Context (any ready_ agree : N -> Z -> Prop) (okmsg : N -> Message.t -> Prop) (rep : E -> kv -> Prop).
Context `{!follows L hz N NE any ready_ agree okmsg} `{!keeps_map E EE rep}.
Context (HL : forall i e, L !! i = Some e -> LogEntry.Index e = Z.of_nat i + 1).
Context (s0 : Server N E) (Hs0 : starts L hz ready_ rep s0).

Lemma run_quiet evs s : agreeable agree okmsg evs s0 -> Run evs s0 = (s, Ok tt) -> quiet L hz any rep (proposals evs) s.
Proof.
  intros Hag Hrun. apply (Run_quiet L hz HL any ready_ agree okmsg rep (proposals evs) evs s0 s); [by eapply starts_quiet | done | | done].
  intros r Hin. by apply proposals_spec.
Qed.

Lemma run_rep evs s : agreeable agree okmsg evs s0 -> Run evs s0 = (s, Ok tt) -> hz <= Server.lastApplied s -> rep (sv_eng s) (kv_at L (Server.lastApplied s)).
Proof. intros Hag [[_ (K & Hr & HK)] _]%run_quiet Hz; [| done]. by rewrite (fuzzy_exact L hz _ K Hz HK) in Hr. Qed.

Lemma run_acked evs s ch :
  agreeable agree okmsg evs s0 -> Run evs s0 = (s, Ok tt) -> Applied ch None ∈ replies s ->
  exists i entry, L !! i = Some entry /\ Z.of_nat i < Server.lastApplied s /\ Proposed (mkRequest (LogEntry.Data entry) ch) ∈ evs.*2.
Proof.
  intros Hag [[Hb _] _]%run_quiet Hch; [| done]. destruct (bk_acked _ _ _ Hb ch Hch) as (i & entry & Hi & Hlt & Hin). exists i, entry.
  split_and!; [done | done |]. by apply proposals_spec.
Qed.

Lemma run_reads evs s ch i :
  agreeable agree okmsg evs s0 -> Run evs s0 = (s, Ok tt) -> ReadIndexed ch i None ∈ replies s -> i <= Server.lastApplied s.
Proof. intros Hag [[Hb _] _]%run_quiet; [| done]. apply (bk_reads _ _ _ Hb). Qed.

Lemma run_Get evs s k s' a :
  agreeable agree okmsg evs s0 -> Run evs s0 = (s, Ok tt) -> hz <= Server.lastApplied s -> Server.Get k s = (s', Ok a) ->
  a = kv_get (kv_at L (Server.lastApplied s)) k.
Proof.
  intros Hag Hrun Hz. pose proof (run_rep evs s Hag Hrun Hz) as Hr. unfold Server.Get. pose proof (km_Get (sv_eng s) _ k Hr) as Hk.
  destruct (en_Get k (sv_eng s)) as [e1 [a1|err|]]; [| done | done]. intros [= <- <-]. apply Hk.
Qed.
End run.

Lemma server_Get_frame {N E EE : Type} `{!kvEngine E EE} k (s s' : Server N E) r :
  Server.Get k s = (s', r) -> Server.lastApplied s' = Server.lastApplied s /\ replies s' = replies s.
Proof. unfold Server.Get. destruct (en_Get k (sv_eng s)) as [e1 r1]. by intros [= <- _]. Qed.

Lemma put_op entry k v ch : 9 + len k + len v < 2 ^ 32 ->
  LogEntry.Data entry = rq_data (Server.Put k v ch) -> ops_at [entry] = [mkOp k v false].
Proof.
  intros Hsz Hd. unfold ops_at. cbn [decode_all]. unfold decodeAndValidateCommand. rewrite Hd. simpl rq_data.
  by rewrite Command.decode_encodeCommand.
Qed.
Lemma delete_op entry k ch : 9 + len k < 2 ^ 32 ->
  LogEntry.Data entry = rq_data (Server.Delete k ch) -> ops_at [entry] = [mkOp k [] true].
Proof.
  intros Hsz Hd. unfold ops_at. cbn [decode_all]. unfold decodeAndValidateCommand. rewrite Hd. simpl rq_data.
  rewrite Command.decode_encodeCommand; [done |]. simpl. len_lia.
Qed.

(** C13: The server is a replicated state machine.  Behind its interfaces let
    the Raft node follow a log and the engine keep a map; let what the node holds
    as committed agree with the log along the run, and let the server start on an engine that reflects the log, be it empty, restored from a
    snapshot, or one that had applied up to [hz] entries before a restart and
    applies them again.  Then along any run of the event loop, once that horizon
    is passed (0 on a first start), the engine holds exactly the map of the log
    up to [lastApplied] and [Get] answers from that map; at all times a client is
    told of success only when the entry it proposed is in the log at an index
    already applied, and a read is confirmed only at an index already applied. *)
Theorem server_follows_log {N NE E EE : Type} `{!raftNode N NE} `{!kvEngine E EE} (L : list LogEntry.t) (hz : Z)
    (any ready_ agree : N -> Z -> Prop) (okmsg : N -> Message.t -> Prop) (rep : E -> kv -> Prop)
    `{!follows L hz N NE any ready_ agree okmsg} `{!keeps_map E EE rep}
    (s0 : Server N E) evs s :
  (forall i e, L !! i = Some e -> LogEntry.Index e = Z.of_nat i + 1) -> starts L hz ready_ rep s0 ->
  agreeable agree okmsg evs s0 -> Run evs s0 = (s, Ok tt) ->
  (hz <= Server.lastApplied s -> rep (sv_eng s) (kv_at L (Server.lastApplied s)) /\
     forall k s' a, Server.Get k s = (s', Ok a) -> a = kv_get (kv_at L (Server.lastApplied s)) k) /\
  (forall ch, Applied ch None ∈ replies s -> exists i entry, L !! i = Some entry /\ Z.of_nat i < Server.lastApplied s /\
     Proposed (mkRequest (LogEntry.Data entry) ch) ∈ evs.*2) /\
  (forall ch i, ReadIndexed ch i None ∈ replies s -> i <= Server.lastApplied s).
Proof.
  intros HL Hs0 Hag Hrun. split_and!.
  - intros Hz. split; [by eapply (run_rep L hz any ready_ agree okmsg rep) |]. intros k s' a. by apply (run_Get L hz any ready_ agree okmsg rep HL s0 Hs0 evs).
  - intros ch. by eapply (run_acked L hz any ready_ agree okmsg rep HL s0 Hs0).
  - intros ch i. by eapply (run_reads L hz any ready_ agree okmsg rep HL s0 Hs0).
Qed.

Lemma demo_starts : starts toy_log 0 toy_ok (keeps sized_bits demo_hashes) (Server.New 0 (started demo_opts ∅)).
Proof. eapply New_starts; [unfold toy_ok; lia | apply started_keeps]. Qed.

Lemma toy_agreeable evs (s : Server Z world) : agreeable (fun _ _ => True) (fun _ _ => True) evs s.
Proof.
  revert s. induction evs as [|[env ev] evs IH]; intros s; [done |]. right. split; [done | apply IH].
Qed.

Lemma server_follows_log_witness :
  (0 <= Server.lastApplied demo_server ->
     keeps sized_bits demo_hashes (sv_eng demo_server) (kv_at toy_log (Server.lastApplied demo_server)) /\
     forall k s' a, Server.Get k demo_server = (s', Ok a) -> a = kv_get (kv_at toy_log (Server.lastApplied demo_server)) k) /\
  (forall ch, Applied ch None ∈ replies demo_server ->
     exists i entry, toy_log !! i = Some entry /\ Z.of_nat i < Server.lastApplied demo_server /\
     Proposed (mkRequest (LogEntry.Data entry) ch) ∈ demo_events.*2) /\
  (forall ch i, ReadIndexed ch i None ∈ replies demo_server -> i <= Server.lastApplied demo_server).
Proof.
  apply (server_follows_log toy_log 0 toy_ok toy_ok (fun _ _ => True) (fun _ _ => True) (keeps sized_bits demo_hashes) (Server.New 0 (started demo_opts ∅)) demo_events).
  - exact toy_index.
  - exact demo_starts.
  - apply toy_agreeable.
  - unfold demo_server. apply run_returns. vm_compute. reflexivity.
Defined.

(** Replicas converge.  Two servers that follow the same committed log,
    whatever their engines, restarts, events, batches and snapshots were, answer
    every lookup the same once they have applied the same number of entries and
    passed the horizon of their restarts. *)
Theorem replicas_converge {N NE E EE : Type} `{!raftNode N NE} `{!kvEngine E EE} (L : list LogEntry.t) (hz : Z)
    (any ready_ agree : N -> Z -> Prop) (okmsg : N -> Message.t -> Prop) (rep : E -> kv -> Prop)
    `{!follows L hz N NE any ready_ agree okmsg} `{!keeps_map E EE rep}
    (s01 s02 : Server N E) evs1 evs2 s1 s2 :
  (forall i e, L !! i = Some e -> LogEntry.Index e = Z.of_nat i + 1) ->
  starts L hz ready_ rep s01 -> starts L hz ready_ rep s02 ->
  agreeable agree okmsg evs1 s01 -> agreeable agree okmsg evs2 s02 ->
  Run evs1 s01 = (s1, Ok tt) -> Run evs2 s02 = (s2, Ok tt) ->
  Server.lastApplied s1 = Server.lastApplied s2 -> hz <= Server.lastApplied s1 ->
  forall k s1' s2' a1 a2, Server.Get k s1 = (s1', Ok a1) -> Server.Get k s2 = (s2', Ok a2) -> a1 = a2.
Proof.
  intros HL Hs1 Hs2 Ha1 Ha2 Hr1 Hr2 Heq Hz k s1' s2' a1 a2 Hg1 Hg2.
  rewrite (run_Get L hz any ready_ agree okmsg rep HL s01 Hs1 evs1 s1 k s1' a1 Ha1 Hr1 Hz Hg1).
  rewrite (run_Get L hz any ready_ agree okmsg rep HL s02 Hs2 evs2 s2 k s2' a2 Ha2 Hr2 ltac:(lia) Hg2). by rewrite Heq.
Qed.

Definition demo_server2 : Server Z world := fst (Run [(demo_env, Ticked)] (Server.New 0 (started demo_opts ∅))).

Lemma replicas_converge_witness :
  exists a1 a2, snd (Server.Get ka demo_server) = Ok a1 /\ snd (Server.Get ka demo_server2) = Ok a2 /\ a1 = a2.
Proof.
  exists ([x31], true), ([x31], true). split_and!; [vm_compute; reflexivity | vm_compute; reflexivity |].
  apply (replicas_converge toy_log 0 toy_ok toy_ok (fun _ _ => True) (fun _ _ => True) (keeps sized_bits demo_hashes)
    (Server.New 0 (started demo_opts ∅)) (Server.New 0 (started demo_opts ∅))
    demo_events [(demo_env, Ticked)] demo_server demo_server2 toy_index demo_starts demo_starts (toy_agreeable _ _) (toy_agreeable _ _)) with
    (k := ka) (s1' := fst (Server.Get ka demo_server)) (s2' := fst (Server.Get ka demo_server2)).
  - unfold demo_server. apply run_returns. vm_compute. reflexivity.
  - unfold demo_server2. apply run_returns. vm_compute. reflexivity.
  - vm_compute. reflexivity.
  - vm_compute. discriminate.
  - apply run_returns. vm_compute. reflexivity.
  - apply run_returns. vm_compute. reflexivity.
Defined.

(** What success means to a client.  When [Put key value] is told that it
    succeeded, the committed log holds, at an index the engine has applied, an
    entry that is this very write: decoding it yields the one operation that
    sets the key to the value. *)
Theorem acknowledged_put {N NE E EE : Type} `{!raftNode N NE} `{!kvEngine E EE} (L : list LogEntry.t) (hz : Z)
    (any ready_ agree : N -> Z -> Prop) (okmsg : N -> Message.t -> Prop) (rep : E -> kv -> Prop)
    `{!follows L hz N NE any ready_ agree okmsg} `{!keeps_map E EE rep}
    (s0 : Server N E) evs s k v ch :
  (forall i e, L !! i = Some e -> LogEntry.Index e = Z.of_nat i + 1) -> starts L hz ready_ rep s0 ->
  agreeable agree okmsg evs s0 -> Run evs s0 = (s, Ok tt) -> 9 + len k + len v < 2 ^ 32 ->
  (forall r, Proposed r ∈ evs.*2 -> rq_ch r = ch -> r = Server.Put k v ch) ->
  Applied ch None ∈ replies s ->
  exists i entry, L !! i = Some entry /\ Z.of_nat i < Server.lastApplied s /\ ops_at [entry] = [mkOp k v false].
Proof.
  intros HL Hs0 Hag Hrun Hsz Huniq Hch.
  destruct (run_acked L hz any ready_ agree okmsg rep HL s0 Hs0 evs s ch Hag Hrun Hch) as (i & entry & Hi & Hlt & Hin).
  exists i, entry. split_and!; [done | done |]. apply (put_op entry k v ch Hsz).
  apply Huniq in Hin; [| done]. by injection Hin.
Qed.

Lemma acknowledged_put_witness :
  exists i entry, toy_log !! i = Some entry /\ Z.of_nat i < Server.lastApplied demo_server /\ ops_at [entry] = [mkOp ka [x31] false].
Proof.
  apply (acknowledged_put toy_log 0 toy_ok toy_ok (fun _ _ => True) (fun _ _ => True) (keeps sized_bits demo_hashes) (Server.New 0 (started demo_opts ∅)) demo_events demo_server ka [x31] 7).
  - exact toy_index.
  - exact demo_starts.
  - apply toy_agreeable.
  - unfold demo_server. apply run_returns. vm_compute. reflexivity.
  - vm_compute. reflexivity.
  - intros r Hr _. unfold demo_events in Hr. cbn in Hr. set_solver.
  - assert (replies demo_server = [Applied 7 None]) as -> by (vm_compute; reflexivity). by left.
Defined.
