(* ===== verification/ServerHTTPProps.v ===== *)
(** * What an HTTP client can rely on

    The handlers over the event loop: a handler that proposes puts its request
    on the loop's channel and waits while the loop goes on with other events;
    it wakes up with the answer on its channel, at its timeout, or because the
    server is done. *)

From Stdlib Require Import Strings.Byte Strings.String.
From S2P Require Import Prelude GoBytes GoFmt GoState Wal SkipList Memtable Bloom BlockCache SSTableFormat SSTableWriter SSTableReader SSTable Engine EngineLayers EngineDisk EngineReplay EngineSpec EngineInv EngineOpen EngineWrite EngineFlush EngineSnapshot EngineRestore EngineRun EngineProps RaftTypes RaftStorage Raft RaftNode Command Server ServerReplies ServerSteps ServerLog ServerImpl ServerNode ServerProps ServerHTTP.

(** ** The two sets of handlers *)

(** C36: The handlers of the command (src/cmd/kvstore/handlers.go) and those of
    the server package answer alike.  For every server behind them and every
    request that does not ask for a linearizable read, they make the same calls
    and give the same response, except that they word and classify an error of a
    local read differently. *)
Theorem api_agrees {S : Type} `{!kvServer S} (r : Request) (s : S) :
  Values_Get (Query r) "linearizable" <> "true" ->
  Api.routes r s = Handler r s \/
  exists e s', ks_Get (bytes_of (TrimPrefix (Path r) "/kv/")) s = (s', Err e) /\
    Handler r s = (s', Ok (writeRaftError s' e)) /\
    Api.routes r s = (s', Ok (http_Error [] ("get: " +:+ Error_ e) StatusInternalServerError)).
Proof.
  intros Hlin. unfold Api.routes, Handler. destruct (cut_prefix "/kv/" (Path r)); [| by left].
  unfold Api.handleKV, handleKV. destruct (String.eqb _ ""); [by left |].
  destruct (String.eqb (Method r) "GET"); [| by left]. unfold Api.handleGet, handleGet.
  rewrite (proj2 (String.eqb_neq _ _) Hlin). unfold answer_call.
  destruct (ks_Get (bytes_of (TrimPrefix (Path r) "/kv/")) s) as [s' [a|e|]]; [by left | right | by left].
  by exists e, s'.
Qed.

(** ** The server's methods as a handler sees them *)

Definition same_type (x y : reply) : Prop :=
  match x, y with Applied _ _, Applied _ _ | ReadIndexed _ _ _, ReadIndexed _ _ _ => True | _, _ => False end.
#[global] Instance same_type_dec x y : Decision (same_type x y).
Proof. destruct x, y; apply _. Defined.

Section calls.
Context {N NE E EE : Type} `{!raftNode N NE} `{!kvEngine E EE}.

(** One call: its result channel, what the loop does until the caller wakes up,
    and how the two [select]s come out. *)
Record wait := mkWait {
  w_ch : chan;
  w_env : @pump_env NE EE;
  w_events : list (@pump_env NE EE * event);
  w_queued : bool;
  w_timeout : bool
}.

(** What wakes the caller when the loop has come to [s]; a channel carries
    answers of one type. *)
Definition wakes (mine : reply) (w : wait) (s : Server N E) : woken :=
  if w_timeout w then WTimeout
  else match filter (fun r => same_type mine r /\ reply_ch r = w_ch w) (replies s) with
       | r :: _ => WResult r
       | [] => if done_ s then WDone else WTimeout
       end.

(** The loop with the caller's request in front. *)
Definition loop (w : wait) (ev : event) : st (Server N E) unit :=
  if w_queued w then Run ((w_env w, ev) :: w_events w) else Run (w_events w).

(** [propose] *)
Definition propose (w : wait) (r : proposeRequest) : st (Server N E) unit := fun s =>
  match loop w (Proposed r) s with
  | (s, Ok _) => (s, match propose_result (w_queued w) (wakes (Applied 0 None) w s) with None => Ok tt | Some e => Err e end)
  | (s, _) => (s, Panic)
  end.

#[global] Instance server_calls (w : wait) : kvServer (Server N E) := {
  ks_Get := Server.Get;
  ks_LinearizableGet key := fun s =>
    match loop w (ReadRequested (w_ch w)) s with
    | (s, Ok _) => LinearizableGet (w_queued w) (wakes (ReadIndexed 0 0 None) w s) key s
    | (s, _) => (s, Panic)
    end;
  ks_Put key value := propose w (Server.Put key value (w_ch w));
  ks_Delete key := propose w (Server.Delete key (w_ch w));
  ks_Status := status_
}.

Lemma Run_done evs s : done_ s = true -> Run evs s = (s, Ok tt).
Proof. intros Hd. destruct evs as [|[env ev] evs]; [done |]. cbn [Run]. unfold st_bind, sfield, reads. by rewrite Hd. Qed.

Lemma Run_app evs1 evs2 s : Run (evs1 ++ evs2) s = (let! _ := Run evs1 in Run evs2) s.
Proof.
  revert s. induction evs1 as [|[env ev] evs1 IH]; intros s; [done |]. cbn [Run app]. unfold st_bind, sfield, reads.
  destruct (done_ s) eqn:Hd; [symmetry; by apply (Run_done evs2) |].
  destruct (run_event env ev s) as [s1 [[]|e|]]; [| done | done]. apply IH.
Qed.

(** The call as one more run of the loop. *)
Definition loop_events (w : wait) (ev : event) : list (@pump_env NE EE * event) :=
  if w_queued w then (w_env w, ev) :: w_events w else w_events w.
Lemma loop_Run w ev s : loop w ev s = Run (loop_events w ev) s.
Proof. unfold loop, loop_events. by destruct (w_queued w). Qed.

Lemma Run_loop s0 evs s w ev s' :
  Run evs s0 = (s, Ok tt) -> loop w ev s = (s', Ok tt) -> Run (evs ++ loop_events w ev) s0 = (s', Ok tt).
Proof. intros H1 H2. rewrite Run_app. unfold st_bind. by rewrite H1, <- loop_Run. Qed.

(** A caller that is told of success was sent it. *)
Lemma propose_ok w r s s' : propose w r s = (s', Ok tt) ->
  w_queued w = true /\ loop w (Proposed r) s = (s', Ok tt) /\ Applied (w_ch w) None ∈ replies s'.
Proof.
  unfold propose. destruct (loop w (Proposed r) s) as [s1 [[]|e|]]; [| done | done].
  unfold propose_result. destruct (w_queued w); [| done]. unfold wakes. destruct (w_timeout w); [done |].
  destruct (filter _ (replies s1)) as [|x l] eqn:Hf; [by destruct (done_ s1) |].
  assert (x ∈ filter (fun r => same_type (Applied 0 None) r /\ reply_ch r = w_ch w) (replies s1)) as Hx by (rewrite Hf; by left).
  apply list_elem_of_filter in Hx as [[Ht Hch] Hin]. destruct x as [ch [err|]|ch i err]; [done | | done].
  intros [= <-]. simpl in Hch. by subst ch.
Qed.

Lemma read_ok w key s s' a : ks_LinearizableGet (kvServer := server_calls w) key s = (s', Ok a) ->
  exists s1 i, loop w (ReadRequested (w_ch w)) s = (s1, Ok tt) /\ ReadIndexed (w_ch w) i None ∈ replies s1 /\ Server.Get key s1 = (s', Ok a).
Proof.
  cbn [ks_LinearizableGet server_calls]. destruct (loop w _ s) as [s1 [[]|e|]]; [| done | done].
  unfold LinearizableGet. destruct (w_queued w); [| done]. unfold wakes. destruct (w_timeout w); [done |].
  destruct (filter _ (replies s1)) as [|x l] eqn:Hf; [by destruct (done_ s1) |].
  assert (x ∈ filter (fun r => same_type (ReadIndexed 0 0 None) r /\ reply_ch r = w_ch w) (replies s1)) as Hx by (rewrite Hf; by left).
  apply list_elem_of_filter in Hx as [[Ht Hch] Hin]. destruct x as [ch err|ch i [err|]]; [done | done |].
  simpl in Hch. subst ch. intros H. by exists s1, i.
Qed.
End calls.

(** ** What a response means *)

Lemma cut_prefix_app p s : cut_prefix p (p +:+ s) = Some s.
Proof. induction p as [|c p IH]; [done |]. simpl. by rewrite Ascii.eqb_refl. Qed.

(** The request for a key. *)
Lemma Handler_key {S : Type} `{!kvServer S} (r : Request) (key : string) :
  key <> "" -> Path r = "/kv/" +:+ key -> Handler r =
    (if String.eqb (Method r) "GET" then handleGet r key
     else if String.eqb (Method r) "PUT" then handlePut r key
     else if String.eqb (Method r) "DELETE" then handleDelete key
     else ret (http_Error [("Allow", "GET, PUT, DELETE")] "method not allowed" StatusMethodNotAllowed)).
Proof.
  intros Hk Hp. unfold Handler, handleKV, TrimPrefix. rewrite Hp, cut_prefix_app. by rewrite (proj2 (String.eqb_neq _ _) Hk).
Qed.

Lemma writeRaftError_code {S : Type} `{!kvServer S} (s : S) e : StatusCode (writeRaftError s e) ∈ [500; 503; 504].
Proof. unfold writeRaftError. destruct (is_not_leader e); [| destruct (Contains _ _)]; set_solver. Qed.

(** A write answered with 204 made its call and the call returned nil. *)
Lemma answer_204 {S : Type} `{!kvServer S} (m : st S unit) s s' resp :
  answer_call m (fun _ => no_content) writeRaftError s = (s', Ok resp) -> StatusCode resp = StatusNoContent -> m s = (s', Ok tt).
Proof.
  unfold answer_call. destruct (m s) as [s1 [[]|e|]]; [by intros [= -> _] | | done]. intros [= -> <-] Hc.
  pose proof (writeRaftError_code s' e) as Hin. rewrite Hc in Hin. unfold StatusNoContent in Hin. set_solver.
Qed.

(** The operation a request stands for. *)
Definition request_op (r : Request) (key : string) : option BatchOp :=
  if String.eqb (Method r) "PUT" then match Body r with Ok v => Some (mkOp (bytes_of key) v false) | _ => None end
  else if String.eqb (Method r) "DELETE" then Some (mkOp (bytes_of key) [] true) else None.

(** What a request asks of the loop, if it asks anything. *)
Definition request_event (r : Request) (key : string) (ch : chan) : option event :=
  if String.eqb (Method r) "GET" then
    if String.eqb (Values_Get (Query r) "linearizable") "true" then Some (ReadRequested ch) else None
  else if String.eqb (Method r) "PUT" then
    match Body r with Ok v => Some (Proposed (Server.Put (bytes_of key) v ch)) | _ => None end
  else if String.eqb (Method r) "DELETE" then Some (Proposed (Server.Delete (bytes_of key) ch)) else None.

(** What the loop goes through while the request is served. *)
Definition request_events {NE EE} (w : @wait NE EE) (r : Request) (key : string) : list (@pump_env NE EE * event) :=
  match request_event r key (w_ch w) with Some ev => loop_events w ev | None => [] end.

Section log.
Context {N NE E EE : Type} `{!raftNode N NE} `{!kvEngine E EE} (L : list LogEntry.t) (hz : Z).
Context (any ready_ agree : N -> Z -> Prop) (okmsg : N -> Message.t -> Prop) (rep : E -> kv -> Prop).
Context `{!follows L hz N NE any ready_ agree okmsg} `{!keeps_map E EE rep}.
Context (HL : forall i e, L !! i = Some e -> LogEntry.Index e = Z.of_nat i + 1).
Context (s0 : Server N E) (Hs0 : starts L hz ready_ rep s0).

(** What a caller that proposed finds in the log. *)
Lemma propose_logged evs s w q s' :
  agreeable agree okmsg (evs ++ loop_events w (Proposed q)) s0 -> Run evs s0 = (s, Ok tt) -> rq_ch q = w_ch w ->
  (forall x, Proposed x ∈ (evs ++ w_events w).*2 -> rq_ch x <> w_ch w) -> propose w q s = (s', Ok tt) ->
  exists i entry, L !! i = Some entry /\ Z.of_nat i < Server.lastApplied s' /\ LogEntry.Data entry = rq_data q.
Proof.
  intros Hag Hrun Hq Huniq Hp. apply propose_ok in Hp as (Hqd & Hloop & Hin).
  destruct (run_acked L hz any ready_ agree okmsg rep HL s0 Hs0 _ s' (w_ch w) Hag (Run_loop s0 evs s w _ s' Hrun Hloop) Hin) as (i & entry & Hi & Hlt & Hev).
  exists i, entry. split_and!; [done | done |]. unfold loop_events in Hev. rewrite Hqd in Hev.
  rewrite fmap_app in Hev. apply elem_of_app in Hev as [Hev | Hev].
  - exfalso. apply (Huniq _ ltac:(rewrite fmap_app; apply elem_of_app; left; exact Hev)). done.
  - rewrite fmap_cons in Hev. apply elem_of_cons in Hev as [Hev | Hev]; [by injection Hev as <- |].
    exfalso. apply (Huniq _ ltac:(rewrite fmap_app; apply elem_of_app; right; exact Hev)). done.
Qed.

(** C14: A client that is told 204 can rely on its write.  Behind the handlers let
    the event loop run on a Raft node that follows a committed log, agreeing with
    it before and while the request is served, and on an engine that keeps a map
    (its calls succeed, or stop the loop).  Let the request's channel be its own
    and its size be below 4 GiB.  When a PUT or DELETE of a key is answered with
    204 No Content, the log holds, at an index the engine has applied, an entry
    that is exactly this operation. *)
Theorem http_write_committed evs s w key r op s' resp :
  agreeable agree okmsg (evs ++ request_events w r key) s0 -> Run evs s0 = (s, Ok tt) -> (forall x, Proposed x ∈ (evs ++ w_events w).*2 -> rq_ch x <> w_ch w) ->
  key <> "" -> Path r = "/kv/" +:+ key -> request_op r key = Some op -> 9 + len (op_key op) + len (op_value op) < 2 ^ 32 ->
  Handler (kvServer0 := server_calls w) r s = (s', Ok resp) -> StatusCode resp = StatusNoContent ->
  exists i entry, L !! i = Some entry /\ Z.of_nat i < Server.lastApplied s' /\ ops_at [entry] = [op].
Proof.
  intros Hag Hrun Huniq Hk Hp Hop Hsz. rewrite (Handler_key r key Hk Hp). unfold request_op in Hop. unfold request_events, request_event in Hag.
  destruct (String.eqb_spec (Method r) "GET") as [Hg|_]; [by rewrite Hg in Hop |].
  destruct (String.eqb_spec (Method r) "PUT") as [_|_].
  - unfold handlePut. destruct (Body r) as [v|err|]; [| done | done]. injection Hop as <-. intros H1 H2.
    pose proof (answer_204 (kvServer0 := server_calls w) _ _ _ _ H1 H2) as Hc.
    destruct (propose_logged evs s w (Server.Put (bytes_of key) v (w_ch w)) s' Hag Hrun eq_refl Huniq Hc) as (i & entry & Hi & Hlt & Hd). exists i, entry.
    split_and!; [done | done |]. by eapply put_op.
  - destruct (String.eqb_spec (Method r) "DELETE") as [_|_]; [| done]. injection Hop as <-. unfold handleDelete. intros H1 H2.
    pose proof (answer_204 (kvServer0 := server_calls w) _ _ _ _ H1 H2) as Hc.
    destruct (propose_logged evs s w (Server.Delete (bytes_of key) (w_ch w)) s' Hag Hrun eq_refl Huniq Hc) as (i & entry & Hi & Hlt & Hd). exists i, entry.
    split_and!; [done | done |]. eapply delete_op; [| exact Hd]. cbn [op_key op_value] in Hsz. len_lia.
Qed.

(** C15: What a GET answers, once the server has applied again what it had
    applied before its last restart; node and engine are as above.  200 carries the value, and 404 says the absence, of
    the key in the map of the committed log up to what the engine has applied;
    with [?linearizable=true] a majority has moreover confirmed, during the
    request, a read index that the engine has reached.  Every other answer is
    an error that says so. *)
Theorem http_get_reads_log evs s w key r s' resp :
  agreeable agree okmsg (evs ++ request_events w r key) s0 -> Run evs s0 = (s, Ok tt) ->
  key <> "" -> Path r = "/kv/" +:+ key -> Method r = "GET" ->
  Handler (kvServer0 := server_calls w) r s = (s', Ok resp) -> hz <= Server.lastApplied s' ->
  (StatusCode resp = StatusOK /\ kv_get (kv_at L (Server.lastApplied s')) (bytes_of key) = (Content resp, true) \/
   StatusCode resp = StatusNotFound /\ (kv_get (kv_at L (Server.lastApplied s')) (bytes_of key)).2 = false \/
   StatusCode resp ∈ [500; 503; 504]) /\
  (StatusCode resp ∉ [500; 503; 504] -> Values_Get (Query r) "linearizable" = "true" ->
   exists i, ReadIndexed (w_ch w) i None ∈ replies s' /\ i <= Server.lastApplied s').
Proof.
  intros Hag Hrun Hk Hp Hm. unfold request_events, request_event in Hag. rewrite Hm in Hag. rewrite (Handler_key r key Hk Hp), Hm. cbn [String.eqb Ascii.eqb Bool.eqb]. unfold handleGet.
  assert (forall m, (forall s' a, m s = (s', Ok a) -> exists evs1 s1, agreeable agree okmsg evs1 s0 /\ Run evs1 s0 = (s1, Ok tt) /\ Server.Get (bytes_of key) s1 = (s', Ok a)) ->
    answer_call m found_response (writeRaftError (kvServer0 := server_calls w)) s = (s', Ok resp) -> hz <= Server.lastApplied s' ->
    StatusCode resp = StatusOK /\ kv_get (kv_at L (Server.lastApplied s')) (bytes_of key) = (Content resp, true) \/
    StatusCode resp = StatusNotFound /\ (kv_get (kv_at L (Server.lastApplied s')) (bytes_of key)).2 = false \/
    StatusCode resp ∈ [500; 503; 504]) as Hans.
  { intros m Hmem. unfold answer_call. destruct (m s) as [s1 [[v f]|err|]] eqn:Hms; [| | done].
    - intros [= -> <-] Hz. destruct (Hmem s' (v, f) eq_refl) as (evs1 & s2 & Hag2 & Hrun2 & Hg).
      destruct (server_Get_frame _ _ _ _ Hg) as [Hl _]. rewrite Hl in Hz |- *.
      rewrite <- (run_Get L hz any ready_ agree okmsg rep HL s0 Hs0 evs1 s2 _ _ _ Hag2 Hrun2 Hz Hg). destruct f; [by left | by right; left].
    - intros [= -> <-] _. right. right. apply writeRaftError_code. }
  destruct (String.eqb_spec (Values_Get (Query r) "linearizable") "true") as [Hlin|Hlin].
  - intros Hr Hz. split.
    + refine (Hans _ _ Hr Hz). intros s1 a (s2 & i & Hloop & _ & Hg)%read_ok. exists (evs ++ loop_events w (ReadRequested (w_ch w))), s2.
      split_and!; [done | by eapply Run_loop | done].
    + intros Hok _. revert Hr. unfold answer_call.
      destruct (ks_LinearizableGet (bytes_of key) s) as [s1 [a|err|]] eqn:Hms; [| | done].
      * intros [= -> _]. apply read_ok in Hms as (s2 & i & Hloop & Hin & Hg). pose proof (Run_loop s0 evs s w _ s2 Hrun Hloop) as Hrun2.
        destruct (server_Get_frame _ _ _ _ Hg) as [-> ->]. exists i. split; [done |]. by eapply (run_reads L hz any ready_ agree okmsg rep HL s0 Hs0).
      * intros [= -> <-]. destruct Hok. apply writeRaftError_code.
  - intros Hr Hz. split; [| done]. refine (Hans _ _ Hr Hz). intros s1 a Hg. exists evs, s.
    split_and!; [| done | done]. by apply agreeable_app in Hag.
Qed.
End log.

(** ** Runs over a node that commits with the clock *)

#[local] Existing Instances toy_node toy_follows demo_engine demo_keeps.

Definition demo_wait : wait := mkWait 7 demo_env [(demo_env, BatchTimer); (demo_env, Ticked)] true false.
Definition demo_put : Request := mkReq "PUT" "/kv/a" [] (Ok [x31]).
Definition demo_get : Request := mkReq "GET" "/kv/a" [] (Ok []).
Definition demo_start : Server Z world := Server.New 0 (started demo_opts ∅).
#[local] Abbreviation answered s r := (Handler (kvServer0 := server_calls demo_wait) r s).
Definition demo_after : Server Z world := fst (answered demo_start demo_put).
Definition response_of (x : res Response) : Response := match x with Ok r => r | _ => mkResp 0 [] [] end.

Example demo_answers :
  StatusCode (response_of (snd (answered demo_start demo_put))) = 204 /\
  StatusCode (response_of (snd (answered demo_start demo_get))) = 404 /\
  StatusCode (response_of (snd (answered demo_after demo_get))) = 200 /\
  Content (response_of (snd (answered demo_after demo_get))) = [x31] /\
  Content (response_of (snd (answered demo_start (mkReq "GET" "/status" [] (Ok []))))) =
    bytes_of ("{" +:+ json_field "id" "1" +:+ "," +:+ json_field "term" "1" +:+ "," +:+ json_field "role" (quote +:+ "Leader" +:+ quote) +:+ ","
      +:+ json_field "leader" "1" +:+ "," +:+ json_field "commit_index" "0" +:+ "," +:+ json_field "last_log_index" "2" +:+ "}" +:+ newline).
Proof. vm_compute. split_and!; reflexivity. Qed.

Lemma run_response {S} (m : st S Response) x : is_ok (snd (m x)) = true -> m x = (fst (m x), Ok (response_of (snd (m x)))).
Proof. by destruct (m x) as [s' [r|err|]]. Qed.

Lemma api_agrees_witness :
  Api.routes (kvServer0 := server_calls demo_wait) demo_put demo_start = answered demo_start demo_put \/
  exists e s', Server.Get [x61] demo_start = (s', Err e) /\
    answered demo_start demo_put = (s', Ok (writeRaftError (kvServer0 := server_calls demo_wait) s' e)) /\
    Api.routes (kvServer0 := server_calls demo_wait) demo_put demo_start = (s', Ok (http_Error [] ("get: " +:+ Error_ e) StatusInternalServerError)).
Proof. apply (api_agrees (kvServer0 := server_calls demo_wait) demo_put demo_start). done. Defined.

(** ** Requests to a cluster of one *)

(** The node of [RaftNode] alone in its cluster: two ticks elect it, and a batch
    it proposes is committed at once. *)
Definition alone_cfg : Config.t := Config.mk 1 [] 2 1.
Definition alone_log : list LogEntry.t := [LogEntry.mk 1 1 (rq_data (Server.Put ka [x31] 0))].
Definition alone_node : Node :=
  match OpenNode alone_cfg "raft.wal" None true [] [] with Ok (n, _) => n | _ => sample_start end.
Definition alone_start : Server Node world := Server.New alone_node (started demo_opts ∅).
Definition alone_env : @pump_env node_env steady_env := mkPumpEnv (mkNodeEnv sample_env eq_refl) demo_calls demo_calls demo_calls.
Definition alone_ticks : list (@pump_env node_env steady_env * event) := replicate 3 (alone_env, Ticked).
Definition alone_wait : wait := mkWait 7 alone_env [(alone_env, BatchTimer)] true false.
Definition alone_lin_get : Request := mkReq "GET" "/kv/a" [("linearizable", "true")] (Ok []).

Lemma alone_index i e : alone_log !! i = Some e -> LogEntry.Index e = Z.of_nat i + 1.
Proof. destruct i as [|i]; [by intros [= <-] | by destruct i]. Qed.

Lemma alone_starts : starts alone_log 0 (node_ready alone_log 0 alone_cfg) (keeps sized_bits demo_hashes) alone_start.
Proof.
  apply New_starts; [| apply started_keeps].
  destruct (OpenNode alone_cfg "raft.wal" None true [] []) as [[n snap]|e|] eqn:Ho; [| vm_compute in Ho; discriminate Ho | vm_compute in Ho; discriminate Ho].
  assert (alone_node = n) as -> by (unfold alone_node; by rewrite Ho).
  eapply (node_first alone_log alone_cfg _ _ _ _ snap); [vm_compute; split; congruence | exact Ho].
Qed.

(** The leader before the request, and after the PUT. *)
Definition alone_leads : Server Node world := fst (Run alone_ticks alone_start).
Definition alone_put_events : list (@pump_env node_env steady_env * event) :=
  alone_ticks ++ [(alone_env, Proposed (Server.Put ka [x31] 7)); (alone_env, BatchTimer)].
Definition alone_after : Server Node world := fst (Run alone_put_events alone_start).
#[local] Abbreviation asked s r := (Handler (kvServer0 := server_calls alone_wait) r s).

Example alone_answers :
  StatusCode (response_of (snd (asked alone_leads demo_put))) = 204 /\
  StatusCode (response_of (snd (asked alone_after alone_lin_get))) = 200 /\
  Content (response_of (snd (asked alone_after alone_lin_get))) = [x31].
Proof. vm_compute. split_and!; reflexivity. Qed.

Lemma http_write_committed_witness :
  exists i entry, alone_log !! i = Some entry /\ Z.of_nat i < Server.lastApplied (fst (asked alone_leads demo_put)) /\
    ops_at [entry] = [mkOp [x61] [x31] false].
Proof.
  apply (http_write_committed alone_log 0 (node_any alone_log 0 alone_cfg) (node_ready alone_log 0 alone_cfg) (node_agree alone_log 0)
      (okmsg alone_cfg) (keeps sized_bits demo_hashes) alone_index alone_start alone_starts) with
    (evs := alone_ticks) (s := alone_leads) (w := alone_wait) (key := "a") (r := demo_put) (resp := response_of (snd (asked alone_leads demo_put))).
  - apply agreeable_b_sound. vm_compute. reflexivity.
  - unfold alone_leads. apply run_returns. vm_compute. reflexivity.
  - intros x Hx. cbn in Hx. set_solver.
  - done.
  - reflexivity.
  - reflexivity.
  - vm_compute. reflexivity.
  - apply (run_response (Handler (kvServer0 := server_calls alone_wait) demo_put) alone_leads). vm_compute. reflexivity.
  - vm_compute. reflexivity.
Defined.

(** A linearizable read of the value. *)
Lemma http_get_reads_log_witness :
  let s' := fst (asked alone_after alone_lin_get) in
  let resp := response_of (snd (asked alone_after alone_lin_get)) in
  (StatusCode resp = StatusOK /\ kv_get (kv_at alone_log (Server.lastApplied s')) [x61] = (Content resp, true) \/
   StatusCode resp = StatusNotFound /\ (kv_get (kv_at alone_log (Server.lastApplied s')) [x61]).2 = false \/
   StatusCode resp ∈ [500; 503; 504]) /\
  (StatusCode resp ∉ [500; 503; 504] -> Values_Get (Query alone_lin_get) "linearizable" = "true" ->
   exists i, ReadIndexed 7 i None ∈ replies s' /\ i <= Server.lastApplied s').
Proof.
  cbv zeta.
  apply (http_get_reads_log alone_log 0 (node_any alone_log 0 alone_cfg) (node_ready alone_log 0 alone_cfg) (node_agree alone_log 0)
      (okmsg alone_cfg) (keeps sized_bits demo_hashes) alone_index alone_start alone_starts) with
    (evs := alone_put_events) (s := alone_after) (w := alone_wait) (key := "a") (r := alone_lin_get).
  - apply agreeable_b_sound. vm_compute. reflexivity.
  - unfold alone_after. apply run_returns. vm_compute. reflexivity.
  - done.
  - reflexivity.
  - reflexivity.
  - apply (run_response (Handler (kvServer0 := server_calls alone_wait) alone_lin_get) alone_after). vm_compute. reflexivity.
  - vm_compute. discriminate.
Defined.
