(* ===== verification/CmdMain.v ===== *)
(** * The process (src/cmd/kvstore/main.go)

    How the command puts the parts together: the components are opened in
    order, each failure closes what was opened before it, the server is
    configured and runs until it is told to stop, and everything is closed.
    The directory [dataDir] holds the node's log [raft.wal] and the engine's
    files. *)

From Stdlib Require Import Strings.Byte Strings.String.
From S2P Require Import Prelude GoBytes GoState GoFmt CmdConfig Wal SSTable Engine EngineProps Server ServerReplies ServerImpl ServerProps Transport RaftTypes RaftStorage Raft RaftNode.

(** ** The world of the process *)

Inductive component := CListener | CRaft | CTransport | CEngine.

#[global] Instance component_eq : EqDecision component.
Proof. solve_decision. Defined.

(** A component came up, or its [Close] ([Shutdown] for the listener) was
    called. *)
Inductive lifecycle := Opened (c : component) | Closed (c : component).

#[global] Instance lifecycle_eq : EqDecision lifecycle.
Proof. solve_decision. Defined.

(** The engine's files, the node's log, and what has been opened and closed, in
    that order. *)
Record process := mkProcess {
  p_kv : Engine.disk;
  p_raft : option bytes;
  p_calls : list lifecycle
}.

Definition opened (c : component) : st process unit :=
  modify (fun p => mkProcess (p_kv p) (p_raft p) (p_calls p ++ [Opened c])).
Definition close_all (cs : list component) (p : process) : process :=
  mkProcess (p_kv p) (p_raft p) (p_calls p ++ map Closed cs).
Definition with_kv (d : Engine.disk) (p : process) : process := mkProcess d (p_raft p) (p_calls p).

(** The components of which [Close] is still to be called. *)
Definition outstanding (calls : list lifecycle) : list component :=
  fold_left (fun open x => match x with Opened c => c :: open | Closed c => filter (fun d => d <> c) open end) calls [].

(** What the operating system answers while the components are opened. *)
Record build_env := mkBuildEnv {
  be_mkdir : bool;
  be_fault : option Z;
  be_truncate_fails : bool;
  be_wal : bool;
  be_wal_faults : list (option nat);
  be_draws : list Z;
  be_listen : bool;
  be_open : open_env;
  be_restore : restore_env
}.

Definition raft_config (cfg : config) : Config.t :=
  Config.mk (CmdConfig.id cfg) (peerIDs cfg) (electionTicks cfg) (heartbeatTicks cfg).

Definition raft_source (env : build_env) (f : option bytes) : option Replay.replaySource :=
  (fun data => {| Replay.rs_data := data; Replay.rs_fault := be_fault env; Replay.rs_truncate_fails := be_truncate_fails env |}) <$> f.

Section bloom.
Context (fb : Z -> Z) (fh : Z -> Z -> Z).

(** [engine.Open] with only the directory set, on the process's files. *)
Definition open_engine (env : open_env) : st process world := fun p =>
  match Engine.Open env (mkOptions 0 0 0) (p_kv p) with
  | (d, Ok e) => (with_kv d p, Ok (mkWorld d e))
  | (d, Err err) => (with_kv d p, Err err)
  | (d, Panic) => (with_kv d p, Panic)
  end.

(** [eng.Close()] with its result ignored; it waits for a flush. *)
Definition close_engine (w : world) : Engine.disk :=
  match Engine.Close w with
  | (w, Ok true) => match closed_down w with Some (w, _) => dsk w | None => dsk w end
  | (w, _) => dsk w
  end.

Definition restore_engine (env : restore_env) (data : bytes) (w : world) : st process world := fun p =>
  match Engine.RestoreSnapshot fb fh env data w with
  | (w, Ok _) => (with_kv (dsk w) p, Ok w)
  | (w, Err err) => (with_kv (close_engine w) p, Err err)
  | (w, Panic) => (with_kv (dsk w) p, Panic)
  end.

Definition buildComponents (env : build_env) (cfg : config) : st process (Node * Transport * world * Z) := fun p =>
  (let! _ := wrap "creating data directory" (if be_mkdir env then ret tt else fail (Errorf "mkdir")) in
   let! '(raftNode, snap) :=
     wrap "opening raft node"
       (lift (OpenNode (raft_config cfg) "raft.wal" (raft_source env (p_raft p)) (be_wal env) (be_wal_faults env) (be_draws env))) in
   let! _ := opened CRaft in
   let! tr := on_error (close_all [CRaft])
     (wrap "starting transport" (if be_listen env then ret (Transport.Listen (CmdConfig.peerAddrs cfg)) else fail (Errorf "listen"))) in
   let! _ := opened CTransport in
   let! eng := on_error (close_all [CTransport; CRaft]) (wrap "opening storage engine" (open_engine (be_open env))) in
   let! _ := opened CEngine in
   match snap with
   | Some sn =>
       let! eng := on_error (close_all [CEngine; CTransport; CRaft])
         (wrap "restoring persisted snapshot into the engine" (restore_engine (be_restore env) (Snapshot.Data sn) eng)) in
       ret (raftNode, tr, eng, Snapshot.LastIncludedIndex sn)
   | None => ret (raftNode, tr, eng, 0)
   end) p.

(** [raftNode.Close()] with its result ignored: what is then in the file. *)
Definition close_node (n : Node) : bytes :=
  let f := match at_path (n_storage n) with
           | Some f => f
           | None => Appender.file (fst (Appender.Close (RaftStorage.w (n_storage n))))
           end in
  Appender.synced f ++ Appender.cached f.

(** ** The server *)

(** [server.New] and the two settings made before [Run]. *)
Definition configured (cfg : config) (n : Node) (w : world) (appliedIndex : Z) : Server Node world :=
  let srv := Server.New n w in
  let srv := if 0 <? CmdConfig.snapshotThreshold cfg then SetSnapshotThreshold (CmdConfig.snapshotThreshold cfg) srv else srv in
  if 0 <? appliedIndex then SeedAppliedIndex appliedIndex srv else srv.

#[local] Instance process_engine : kvEngine world calls_env := world_kvEngine fb fh.

(** From the start to the end: [evs] is what the loop goes through until a
    signal arrives or the HTTP server fails; [Stop] waits for it.  [shutdown]
    is what the loop meets on its way out.  [Run] has no error result; when it
    panics the process is gone. *)
Definition runServer (env : build_env) (cfg : config)
    (evs : list (@pump_env node_env calls_env * event)) (shutdown : @pump_env node_env calls_env) : st process unit :=
  let! '(n, tr, w, appliedIndex) := on_error (close_all [CListener]) (buildComponents env cfg) in
  fun p =>
    match Server.Run_ticking (tickInterval cfg) (evs ++ [(shutdown, StopRequested)]) (configured cfg n w appliedIndex) with
    | (srv, Ok _) =>
        (close_all [CListener; CTransport; CRaft; CEngine]
           (mkProcess (close_engine (sv_eng srv)) (Some (close_node (node srv))) (p_calls p)),
         Ok tt)
    | (_, _) => (p, Panic)
    end.

(** The exit code: 1 when the arguments are refused, the listener cannot be
    bound or the components do not open, 0 after an orderly stop; [None] is a
    crash. *)
Definition realMain (parsed : res flags) (listens : bool) (env : build_env)
    (evs : list (@pump_env node_env calls_env * event)) (shutdown : @pump_env node_env calls_env) (p : process) : process * option Z :=
  match parseArgs parsed with
  | Err _ => (p, Some 1)
  | Panic => (p, None)
  | Ok cfg =>
      if listens then
        match (let! _ := opened CListener in runServer env cfg evs shutdown) p with
        | (p, Ok _) => (p, Some 0)
        | (p, Err _) => (p, Some 1)
        | (p, Panic) => (p, None)
        end
      else (p, Some 1)
  end.
End bloom.

(** ** Nothing stays open *)

Section cleanup.
Context (fb : Z -> Z) (fh : Z -> Z -> Z).

(** A failed build closes what it had opened, the last first; a successful one
    has opened the three components. *)
Lemma build_calls env cfg p :
  match buildComponents fb fh env cfg p with
  | (p', Ok _) => p_calls p' = p_calls p ++ [Opened CRaft; Opened CTransport; Opened CEngine]
  | (p', Err _) => exists cs, cs `prefix_of` [CRaft; CTransport; CEngine] /\ p_calls p' = p_calls p ++ map Opened cs ++ map Closed (reverse cs)
  | (_, Panic) => True
  end.
Proof.
  destruct p as [kv rf calls]. unfold buildComponents, st_bind, wrap, on_error, opened, modify, lift.
  destruct (be_mkdir env); cbn; [| exists []; split; [by eexists | by rewrite app_nil_r]].
  destruct (OpenNode _ _ _ _ _ _) as [[n snap]|e|]; cbn; [| exists []; split; [by eexists | by rewrite app_nil_r] | done].
  destruct (be_listen env); cbn; [| exists [CRaft]; split; [by eexists | by rewrite <- app_assoc]].
  unfold open_engine. cbn [p_kv]. destruct (Engine.Open (be_open env) _ kv) as [d [e|e|]]; cbn;
    [| exists [CRaft; CTransport]; split; [by eexists | by rewrite <- !app_assoc] | done].
  destruct snap as [sn|]; cbn; [| by rewrite <- !app_assoc]. unfold restore_engine.
  destruct (Engine.RestoreSnapshot _ _ _ _ _) as [w [u|err|]]; cbn; [by rewrite <- !app_assoc | | done].
  exists [CRaft; CTransport; CEngine]. split; [by eexists | by rewrite <- !app_assoc].
Qed.

(** C34: The process closes what it opens.  Whatever the arguments, whichever
    step of starting up fails, and whatever calls on the node and the engine
    fail while it serves: when the process ends with an exit code, every
    component that came up (listener, Raft node, transport, engine) has had its
    [Close] called, after it came up and exactly once; the code is 0 exactly when
    the arguments were accepted, the listener was bound and every component
    opened. *)
Theorem process_cleans_up parsed listens env evs shutdown d rf p code :
  realMain fb fh parsed listens env evs shutdown (mkProcess d rf []) = (p, Some code) ->
  outstanding (p_calls p) = [] /\ NoDup (p_calls p) /\ (forall c, Closed c ∈ p_calls p -> Opened c ∈ p_calls p) /\
  (code = 0 <-> exists cfg x, parseArgs parsed = Ok cfg /\ listens = true /\
     snd (buildComponents fb fh env cfg (mkProcess d rf [Opened CListener])) = Ok x).
Proof.
  assert (forall P : Prop, (P -> False) -> (1 = 0 <-> P)) as Hno by (intros P HP; split; [lia | by intros ?%HP]).
  assert (forall cs, cs `prefix_of` [CRaft; CTransport; CEngine] -> let calls := Opened CListener :: map Opened cs ++ map Closed (reverse cs) ++ [Closed CListener] in
    outstanding calls = [] /\ NoDup calls /\ forall c, Closed c ∈ calls -> Opened c ∈ calls) as Hfail.
  { intros cs Hcs calls. assert (cs ∈ [[]; [CRaft]; [CRaft; CTransport]; [CRaft; CTransport; CEngine]]) as Hin.
    { destruct Hcs as [k Hk]. destruct cs as [|c1 [|c2 [|c3 [|c4 cs]]]]; simplify_eq/=; set_solver. }
    split_and!; [| apply (bool_decide_unpack _) | intros c; apply (bool_decide_unpack _)]; unfold calls; clear -Hin;
      repeat (apply elem_of_cons in Hin as [-> | Hin]; [by try destruct c |]); by apply elem_of_nil in Hin. }
  assert (outstanding [] = [] /\ NoDup ([] : list lifecycle) /\ forall c, Closed c ∈ ([] : list lifecycle) -> Opened c ∈ ([] : list lifecycle)) as Hnil
    by (split_and!; [done | apply NoDup_nil_2 | by intros c ?%elem_of_nil]).
  unfold realMain. destruct (parseArgs parsed) as [cfg|e|]; [| intros [= <- <-]; destruct Hnil as (?&?&?); split_and!; [done | done | done |]; apply Hno; naive_solver | done].
  destruct listens; [| intros [= <- <-]; destruct Hnil as (?&?&?); split_and!; [done | done | done |]; apply Hno; naive_solver].
  unfold st_bind at 1, opened, modify. cbn [p_kv p_raft p_calls app]. unfold runServer, st_bind at 1, on_error.
  pose proof (build_calls env cfg (mkProcess d rf [Opened CListener])) as Hb. cbn [p_calls] in Hb.
  destruct (buildComponents fb fh env cfg (mkProcess d rf [Opened CListener])) as [p1 [x|e|]] eqn:Hbuild; [| | done].
  - destruct x as [[[n tr] w] a]. destruct (Server.Run_ticking _ _ _) as [srv [u|e|]]; [| done | done].
    intros [= <- <-]. cbn [p_calls close_all]. rewrite Hb. split_and!.
    + reflexivity.
    + by apply (bool_decide_unpack _).
    + intros c _. destruct c; by apply (bool_decide_unpack _).
    + split; [| done]. intros _. exists cfg, (n, tr, w, a). split_and!; [done | done |]. by rewrite Hbuild.
  - destruct Hb as (cs & Hcs & Hb). intros [= <- <-]. cbn [p_calls close_all]. rewrite Hb. destruct (Hfail cs Hcs) as (H1 & H2 & H3).
    cbn [app map] in *. rewrite <- app_assoc. split_and!; [done | done | done |].
    apply Hno. intros (c & x & [= <-] & _ & Hx). by rewrite Hbuild in Hx.
Qed.
End cleanup.

(** The arguments may ask for ticks that [Run] panics on. *)
Lemma no_tick_panics fb fh env evs shutdown d rf f cfg :
  parseArgs (Ok f) = Ok cfg -> tickInterval cfg <= 0 -> is_ok (snd (buildComponents fb fh env cfg (mkProcess d rf [Opened CListener]))) = true ->
  snd (realMain fb fh (Ok f) true env evs shutdown (mkProcess d rf [])) = None.
Proof.
  intros Hp Ht Hb. unfold realMain. rewrite Hp. unfold st_bind at 1, opened, modify. cbn [p_kv p_raft p_calls app]. unfold runServer, st_bind at 1, on_error.
  destruct (buildComponents _ _ _ _ _) as [p1 [[[[n tr] w] a]|e|]]; [| done..]. unfold Server.Run_ticking, newTicker. by rewrite (proj2 (Z.leb_le _ _) Ht).
Qed.

Definition main_flags : flags := mkFlags 1 ":7001" ":8001" "" "./data" 2 1 100000000 0.
Definition main_build (listens : bool) : build_env := mkBuildEnv true None false true [] [] listens fine_open fine_restoring.
Definition main_env : @pump_env node_env calls_env := mkPumpEnv (mkNodeEnv sample_env eq_refl) fine_calls fine_calls fine_calls.
#[local] Abbreviation main_run listens :=
  (realMain sized_bits demo_hashes (Ok main_flags) true (main_build listens) [(main_env, Ticked)] main_env (mkProcess ∅ None [])).

(** A run to the end, and one in which the port of the transport is taken. *)
Lemma process_cleans_up_witness :
  snd (main_run true) = Some 0 /\ outstanding (p_calls (fst (main_run true))) = [] /\ snd (main_run false) = Some 1 /\ outstanding (p_calls (fst (main_run false))) = [].
Proof.
  assert (forall b, (exists c, snd (main_run b) = Some c) -> outstanding (p_calls (fst (main_run b))) = []) as H.
  { intros b [c Hc]. apply (process_cleans_up sized_bits demo_hashes (Ok main_flags) true (main_build b) [(main_env, Ticked)] main_env ∅ None (fst (main_run b)) c).
    rewrite <- Hc. apply surjective_pairing. }
  split_and!; [vm_compute; reflexivity | apply H; exists 0; vm_compute; reflexivity | vm_compute; reflexivity | apply H; exists 1; vm_compute; reflexivity].
Defined.
