(* ===== verification/CmdLife.v ===== *)
(** * The lives of a process

    A node of the cluster as its disks see it: the process starts from what is
    on them, serves, and ends between two calls on its engine, in a crash that
    keeps what was synced and a prefix of the rest; then it starts again.  As
    long as what its Raft node holds as committed agrees with one log and no call
    on the engine fails, every life starts and serves the map of that log. *)

From Stdlib Require Import Strings.Byte Strings.String.
From stdpp Require Import sorting.
From S2P Require Import Prelude GoBytes GoState GoFmt CmdConfig Wal Bloom SSTableFormat SSTable Engine EngineDisk EngineInv EngineOpen EngineFlush EngineSnapshot EngineRestore EngineRun EngineProps Server ServerReplies ServerSteps ServerLog ServerCareful ServerImpl ServerProps RaftTypes RaftStorage Raft RaftLog RaftVote RaftApp RaftNode ServerNode CmdMain.

Section life.
Context (fb : Z -> Z) (fh : Z -> Z -> Z) (Hfb : forall n, 0 <= fb n <= Bloom.maxAlloc).
Context (cfg : config) (Hid : is_u64 (CmdConfig.id cfg)) (Hvalid : Config.validate (raft_config cfg) = None).
Context (L : list LogEntry.t) (HL : forall i e, L !! i = Some e -> LogEntry.Index e = Z.of_nat i + 1).

#[local] Instance life_careful : kvEngine world steady_env := careful_kvEngine fb fh.
#[local] Instance life_keeps : keeps_map world steady_env (ServerImpl.keeps fb fh) := careful_keeps_map fb fh Hfb.
#[local] Instance life_engine : kvEngine world calls_env := world_kvEngine fb fh.

(** A run of the loop in which no call on the engine fails, no table write of
    its flushes fails, no second flush starts before the first has ended, and
    files and records stay within the limits of the engine's theorems. *)
Abbreviation unharmed := (spared_run (careful_kvEngine fb fh) (world_kvEngine fb fh) se_calls).

(** A start in which no call of the operating system fails, within the limits
    of the engine's theorems. *)
Record good_boot (env : build_env) (rf : option bytes) (kd : Engine.disk) : Prop := {
  gb_mkdir : be_mkdir env = true;
  gb_fault : be_fault env = None;
  gb_truncate : be_truncate_fails env = false;
  gb_wal : be_wal env = true;
  gb_listen : be_listen env = true;
  gb_open : fine (be_open env) /\ readable (be_open env) /\ free_number kd;
  gb_restore : fine_restore (be_restore env);
  gb_limits : forall d e n sn es,
    Engine.Open (be_open env) (mkOptions 0 0 0) kd = (d, Ok e) ->
    OpenNode (raft_config cfg) "raft.wal" (raft_source env rf) (be_wal env) (be_wal_faults env) (be_draws env) = Ok (n, Some sn) ->
    decodeSnapshotEntries (Snapshot.Data sn) = Ok es ->
    next_seq e < 10 ^ 6 /\
    fits (fst (write_sst fb fh (sstName (next_seq e)) (SSTableBlockSize (opts e)) (rs_table (be_restore env))
                 (number_entries 0 (merge_sort se_le es)) d))
}.

(** The disks that the lives up to now have left, with the index the engine has
    reached at most.  A life ends in the state [s], or within the next event,
    when the node has saved [s'] and the engine is still at [s]; no crash falls
    inside a call on the engine. *)
Inductive left_behind : Z -> option bytes -> Engine.disk -> Prop :=
  | left_new : left_behind 0 None ∅
  | left_crash hz rf kd env p n tr w a evs s evs' s' k kd' :
      left_behind hz rf kd -> good_boot env rf kd ->
      buildComponents fb fh env cfg (mkProcess kd rf []) = (p, Ok (n, tr, w, a)) ->
      agreeable (node_agree L hz) (okmsg (raft_config cfg)) (evs ++ evs') (configured cfg n w a) -> (length evs' <= 1)%nat ->
      Server.Run evs (configured cfg n w a) = (s, Ok tt) ->
      Server.Run (evs ++ evs') (configured cfg n w a) = (s', Ok tt) -> unharmed (evs ++ evs') (configured cfg n w a) ->
      crash (dsk (sv_eng s)) kd' ->
      left_behind (Z.max hz (Server.lastApplied s))
        (Some (Durability.crash_image (RaftStorage.disk (n_storage (node s'))) k)) kd'.

(** ** What the disks hold *)

Definition raft_left (hz : Z) (rf : option bytes) : Prop :=
  match rf with
  | None => hz = 0
  | Some data => exists n k, durable L hz (raft_config cfg) n /\ currentTerm (n_r n) < maxTerm /\
      data = Durability.crash_image (RaftStorage.disk (n_storage n)) k
  end.
Definition kv_left (hz : Z) (kd : Engine.disk) : Prop := exists K, reach fb fh (Down kd) K ∅ /\ fuzzy L hz 0 K.

Lemma New_valid draws : exists r, Raft.New (raft_config cfg) draws = Ok r.
Proof. unfold Raft.New. rewrite Hvalid. eauto. Qed.

(** The node opens, ready behind the snapshot it hands over. *)
Lemma open_node env hz rf kd : raft_left hz rf -> good_boot env rf kd ->
  exists n snap,
    OpenNode (raft_config cfg) "raft.wal" (raft_source env rf) (be_wal env) (be_wal_faults env) (be_draws env) = Ok (n, snap) /\
    match snap with
    | None => node_ready L hz (raft_config cfg) n 0
    | Some sn => 0 < Snapshot.LastIncludedIndex sn /\ node_ready L hz (raft_config cfg) n (Snapshot.LastIncludedIndex sn) /\
        exists K, image (Snapshot.Data sn) K /\ fuzzy L hz (Snapshot.LastIncludedIndex sn) K
    end.
Proof.
  intros Hr []. rewrite gb_wal0. destruct (New_valid (be_draws env)) as [r0 Hnew]. destruct rf as [data|]; cbn [raft_left raft_source fmap option_fmap option_map] in *.
  - destruct Hr as (n & k & Hd & Ht & ->). rewrite gb_fault0, gb_truncate0. by eapply node_restart.
  - subst hz. assert (exists n snap, OpenNode (raft_config cfg) "raft.wal" None true (be_wal_faults env) (be_draws env) = Ok (n, snap)) as (n & snap & Ho).
    { unfold OpenNode, OpenStorage. simpl. rewrite Hnew. cbn [res_bind]. eauto. }
    exists n, snap. split; [done |]. by destruct (node_first L (raft_config cfg) _ _ _ _ _ Hid Ho) as [-> ?].
Qed.

(** The engine opens with its map. *)
Lemma open_kv env hz kd : kv_left hz kd -> fine env -> readable env -> free_number kd ->
  exists d e K, Engine.Open env (mkOptions 0 0 0) kd = (d, Ok e) /\ ServerImpl.keeps fb fh (mkWorld d e) K /\ flushes e = [] /\ fuzzy L hz 0 K.
Proof.
  intros (K & Hre & HK) Hf Hr Hfree. pose proof (inv_reach fb fh Hfb _ _ _ Hre) as (M & HM & min & tabs & wals & Hds & Hrec).
  pose proof (Open_spec env (mkOptions 0 0 0) kd min tabs wals ∅ M Hds Hrec Hr (free_number_spec _ _ _ _ Hds Hfree)) as Hspec.
  destruct (Engine.Open env (mkOptions 0 0 0) kd) as [d [e|err|]] eqn:Ho; [| by destruct Hspec | done].
  destruct Hspec as (_ & Hcl & Hfl & _ & Hh). exists d, e, K. split_and!; [done | | done | done].
  split_and!; [| done | by apply Hh | simpl; by rewrite Hfl]. eapply reach_step; [exact Hre |]. by apply (step_open fb fh env (mkOptions 0 0 0) kd d (Ok e)).
Qed.

(** ** Starting *)

Lemma build_ok env hz rf kd : raft_left hz rf -> kv_left hz kd -> good_boot env rf kd ->
  exists p n tr w a, buildComponents fb fh env cfg (mkProcess kd rf []) = (p, Ok (n, tr, w, a)) /\
    starts L hz (node_ready L hz (raft_config cfg)) (ServerImpl.keeps fb fh) (configured cfg n w a).
Proof.
  intros Hr Hk Hb. destruct (open_node env hz rf kd Hr Hb) as (n & snap & Ho & Hn). pose proof Hb as [].
  destruct gb_open0 as (Hfine & Hread & Hfree). destruct (open_kv (be_open env) hz kd Hk Hfine Hread Hfree) as (d & e & K & He & HK & Hfl & Hfz).
  assert (forall w a K', 0 <= a -> node_ready L hz (raft_config cfg) n a -> ServerImpl.keeps fb fh w K' -> fuzzy L hz a K' ->
    starts L hz (node_ready L hz (raft_config cfg)) (ServerImpl.keeps fb fh) (configured cfg n w a)) as Hst.
  { intros w a K' Ha Hna Hw HK'. unfold configured.
    destruct (0 <? CmdConfig.snapshotThreshold cfg); destruct (Z.ltb_spec 0 a);
      (split_and!; [done | done | done | simpl; lia | exists K'; split; [done |] | ]); simpl; try done;
      by replace a with 0 in * by lia. }
  unfold buildComponents, st_bind, wrap, on_error, opened, modify, lift. rewrite gb_mkdir0. cbn [res_wrap ret p_raft]. rewrite Ho. cbn [res_wrap].
  rewrite gb_listen0. cbn [res_wrap ret p_kv]. unfold open_engine. cbn [p_kv]. rewrite He. cbn [res_wrap].
  destruct snap as [sn|]; [| eexists _, n, _, _, 0; split; [reflexivity |]; by apply (Hst _ _ K)].
  destruct Hn as (Hpos & Hn & K' & Hi & HK'). unfold restore_engine.
  pose proof Hi as (es & Hes & _ & Hlen & _). assert (decodeSnapshotEntries (Snapshot.Data sn) = Ok es) as Hdec.
  { rewrite Hes in *. apply decode_snapshot_bytes. unfold snapshotMax in Hlen. lia. }
  destruct (gb_limits0 d e n sn es He Ho Hdec) as [Hseq Hfit].
  destruct (restore_within fb fh Hfb K K' (be_restore env) (Snapshot.Data sn) es (mkWorld d e) HK Hi gb_restore0 Hfl Hdec Hseq Hfit) as (w & -> & Hw).
  cbn [res_wrap]. eexists _, n, _, w, _. split; [reflexivity |]. by apply (Hst _ _ K'); [lia | ..].
Qed.

(** ** Running *)

(** What the careful engine shows of a run in which no call failed. *)
Lemma run_unharmed hz s0 evs s :
  starts L hz (node_ready L hz (raft_config cfg)) (ServerImpl.keeps fb fh) s0 ->
  agreeable (node_agree L hz) (okmsg (raft_config cfg)) evs s0 -> Server.Run evs s0 = (s, Ok tt) -> unharmed evs s0 ->
  exists cevs, cevs.*2 `prefix_of` evs.*2 /\ agreeable (node_agree L hz) (okmsg (raft_config cfg)) cevs s0 /\
    Server.Run (kvEngine0 := life_careful) cevs s0 = (s, Ok tt).
Proof.
  intros Hst Hag Hrun Hun. destruct (spared_careful (careful_kvEngine fb fh) (world_kvEngine fb fh) se_calls (Hcautious := world_cautious fb fh) evs s0 Hun)
    as (cevs & s' & Hp & Hc & Hr & Hagc). assert (s' = s) as -> by (unfold life_engine in Hrun; congruence).
  exists cevs. split_and!; [done | by apply Hagc | done].
Qed.

Lemma run_unharmed_quiet hz s0 evs s :
  starts L hz (node_ready L hz (raft_config cfg)) (ServerImpl.keeps fb fh) s0 ->
  agreeable (node_agree L hz) (okmsg (raft_config cfg)) evs s0 -> Server.Run evs s0 = (s, Ok tt) -> unharmed evs s0 ->
  exists reqs, ServerLog.quiet L hz (node_any L hz (raft_config cfg)) (ServerImpl.keeps fb fh) reqs s.
Proof.
  intros Hst Hag Hrun Hun. destruct (run_unharmed hz s0 evs s Hst Hag Hrun Hun) as (cevs & _ & Hagc & Hrunc).
  eexists. exact (run_quiet L hz _ _ _ _ _ HL _ Hst cevs s Hagc Hrunc).
Qed.

(** ** Ending *)

Lemma crash_kv hz s kd' reqs : ServerLog.quiet L hz (node_any L hz (raft_config cfg)) (ServerImpl.keeps fb fh) reqs s -> 0 <= hz ->
  crash (dsk (sv_eng s)) kd' -> kv_left (Z.max hz (Server.lastApplied s)) kd'.
Proof.
  intros [[Hb (K & (Hre & _) & HK)] _] Hz Hc. exists K. split.
  - eapply reach_step; [| by apply step_crash, Hc]. eapply reach_step; [exact Hre |]. apply step_exit.
  - eapply fuzzy_restart; [| | exact HK]; [pose proof (bk_pos _ _ _ Hb); lia | lia].
Qed.

Lemma crash_raft hz hz' s k reqs : ServerLog.quiet L hz (node_any L hz (raft_config cfg)) (ServerImpl.keeps fb fh) reqs s -> hz <= hz' ->
  raft_left hz' (Some (Durability.crash_image (RaftStorage.disk (n_storage (node s))) k)).
Proof.
  intros [_ [_ Hag _ _ _ Hd]] Hz. exists (node s), k. split_and!; [by eapply durable_mono | apply (ag_term _ _ _ _ Hag) | done].
Qed.

Lemma left_ok hz rf kd : left_behind hz rf kd -> 0 <= hz /\ raft_left hz rf /\ kv_left hz kd.
Proof.
  induction 1 as [|hz rf kd env p n tr w a evs s evs' s' k kd' _ (Hz & Hr & Hk) Hb Hbuild Hag _ Hrun Hrun' Hun Hc].
  { split_and!; [done | done |]. exists ∅. split; [constructor |]. by apply (fuzzy_kv_at L 0 0). }
  destruct (build_ok env hz rf kd Hr Hk Hb) as (p2 & n2 & tr2 & w2 & a2 & Hbuild2 & Hst). rewrite Hbuild in Hbuild2.
  injection Hbuild2 as <- <- <- <- <-.
  destruct (run_unharmed_quiet hz _ evs s Hst (agreeable_app _ _ _ _ _ Hag) Hrun (spared_run_app _ _ _ _ _ _ Hun)) as [reqs Hq].
  destruct (run_unharmed_quiet hz _ (evs ++ evs') s' Hst Hag Hrun' Hun) as [reqs' Hq'].
  split_and!; [lia | eapply crash_raft; [exact Hq' | lia] | by eapply crash_kv].
Qed.

(** C9: One node, across all its lives.  Let the process run and crash any number
    of times between calls on its engine, with its Raft node agreeing with one
    log in each life and no call on the engine failing.  Then the next start in
    which no system call fails succeeds, and whatever the loop goes through from
    there, again as long as the node agrees and no call on the engine fails: once
    the engine has applied what it had applied before, every [Get] answers as the
    map of the log up to [lastApplied], and success was told only for requests
    that are in the log at an applied index. *)
Theorem process_follows_log hz rf kd env :
  left_behind hz rf kd -> good_boot env rf kd ->
  exists p n tr w a, buildComponents fb fh env cfg (mkProcess kd rf []) = (p, Ok (n, tr, w, a)) /\
    forall evs s, agreeable (node_agree L hz) (okmsg (raft_config cfg)) evs (configured cfg n w a) ->
      Server.Run evs (configured cfg n w a) = (s, Ok tt) -> unharmed evs (configured cfg n w a) ->
      (hz <= Server.lastApplied s -> forall k s' v, Server.Get k s = (s', Ok v) -> v = kv_get (kv_at L (Server.lastApplied s)) k) /\
      (forall ch, Applied ch None ∈ replies s ->
        exists i entry, L !! i = Some entry /\ Z.of_nat i < Server.lastApplied s /\ Proposed (mkRequest (LogEntry.Data entry) ch) ∈ evs.*2).
Proof.
  intros (Hz & Hr & Hk)%left_ok Hb. destruct (build_ok env hz rf kd Hr Hk Hb) as (p & n & tr & w & a & Hbuild & Hst).
  exists p, n, tr, w, a. split; [done |]. intros evs s Hag Hrun Hun.
  destruct (run_unharmed hz _ evs s Hst Hag Hrun Hun) as (cevs & [more Hp] & Hagc & Hrunc). split.
  - intros Hl k s' v. exact (run_Get L hz _ _ _ _ _ HL _ Hst cevs s k s' v Hagc Hrunc Hl).
  - intros ch Hch. destruct (run_acked L hz _ _ _ _ _ HL _ Hst cevs s ch Hagc Hrunc Hch) as (i & entry & Hi & Hlt & Hin).
    exists i, entry. split_and!; [done | done |]. rewrite Hp. apply elem_of_app. by left.
Qed.
End life.

(** ** Two lives of a cluster of one *)

Definition solo_cfg : config := mkConfig 1 ":7001" ":8001" ∅ [] "./data" 2 1 1 0.
Definition solo_log : list LogEntry.t :=
  [LogEntry.mk 1 1 (rq_data (Server.Put ka [x31] 0)); LogEntry.mk 2 2 (rq_data (Server.Put ka [x32] 0))].
Definition solo_boot : build_env := mkBuildEnv true None false true [] [] true fine_open fine_restoring.
Definition solo_steady : @pump_env node_env steady_env := mkPumpEnv (mkNodeEnv sample_env eq_refl) demo_calls demo_calls demo_calls.
Definition solo_env : @pump_env node_env calls_env := lowered se_calls solo_steady.
Definition solo_careful (v : bytes) : list (@pump_env node_env steady_env * event) :=
  map (fun ev => (solo_steady, ev)) [Ticked; Ticked; Ticked; Proposed (Server.Put ka v 7); BatchTimer].
Definition solo_events (v : bytes) : list (@pump_env node_env calls_env * event) :=
  map (fun x => (lowered se_calls x.1, x.2)) (solo_careful v).

Definition solo_start (rf : option bytes) (kd : Engine.disk) : Server Node world :=
  match buildComponents sized_bits demo_hashes solo_boot solo_cfg (mkProcess kd rf []) with
  | (_, Ok (n, _, w, a)) => configured solo_cfg n w a
  | _ => configured solo_cfg sample_start (started demo_opts ∅) 0
  end.

#[local] Instance solo_engine : kvEngine world calls_env := world_kvEngine sized_bits demo_hashes.
#[local] Abbreviation solo_life1 := (Server.Run (solo_events [x31]) (solo_start None ∅)).
Definition solo_state : Server Node world := Eval vm_compute in fst solo_life1.

(** A crash that loses everything that was not synced. *)
Definition crashed (d : Engine.disk) : Engine.disk := (fun f => mkFile (f_synced f) []) <$> d.
Lemma crashed_crash d : crash d (crashed d).
Proof. intros name. unfold crashed. rewrite lookup_fmap. destruct (d !! name) as [f|]; [| done]. exists 0%nat. by rewrite app_nil_r. Qed.

Definition solo_raft : option bytes := Some (Durability.crash_image (RaftStorage.disk (n_storage (node solo_state))) 0).
Definition solo_kv : Engine.disk := crashed (dsk (sv_eng solo_state)).

Lemma solo_boots rf kd :
  free_number kd ->
  (forall n sn, OpenNode (raft_config solo_cfg) "raft.wal" (raft_source solo_boot rf) true [] [] <> Ok (n, Some sn)) ->
  good_boot sized_bits demo_hashes solo_cfg solo_boot rf kd.
Proof.
  intros Hf Hn. constructor; try done. intros d e n sn es _ Ho. by apply Hn in Ho.
Qed.

Lemma solo_log_index i e : solo_log !! i = Some e -> LogEntry.Index e = Z.of_nat i + 1.
Proof. destruct i as [|[|i]]; [by intros [= <-] | by intros [= <-] | by destruct i]. Qed.

Lemma free_unmarked d : d !! restoreMarkerFileName = None -> (next_number (numbers ".wal" 0 d) <? 10 ^ 6) = true -> free_number d.
Proof. intros Hm Hn min. unfold readRestoreMarker. rewrite Hm. intros [= <-]. by apply Z.ltb_lt. Qed.
Lemma solo_free1 : free_number ∅.
Proof. apply free_unmarked; vm_compute; reflexivity. Qed.
Lemma solo_free2 : free_number solo_kv.
Proof. apply free_unmarked; vm_compute; reflexivity. Qed.

(** After the first life. *)
Lemma solo_left : left_behind sized_bits demo_hashes solo_cfg solo_log 1 solo_raft solo_kv.
Proof.
  pose proof (solo_boots None ∅ solo_free1) as Hb. specialize (Hb ltac:(intros n sn; vm_compute; discriminate)).
  destruct (buildComponents sized_bits demo_hashes solo_boot solo_cfg (mkProcess ∅ None [])) as [p [[[[n tr] w] a]|e|]] eqn:Hbuild;
    [| vm_compute in Hbuild; discriminate | vm_compute in Hbuild; discriminate].
  assert (configured solo_cfg n w a = solo_start None ∅) as Hc by (unfold solo_start; by rewrite Hbuild).
  assert (solo_life1 = (solo_state, Ok tt)) as Hrun by (vm_compute; reflexivity).
  pose proof (left_crash sized_bits demo_hashes solo_cfg solo_log 0 None ∅ solo_boot p n tr w a (solo_events [x31]) solo_state [] solo_state 0 solo_kv) as Hl.
  rewrite app_nil_r, Hc in Hl. apply Hl.
  - constructor.
  - exact Hb.
  - exact Hbuild.
  - apply agreeable_b_sound. vm_compute. reflexivity.
  - simpl. lia.
  - exact Hrun.
  - exact Hrun.
  - apply (careful_spared _ _ _ (Hcautious := world_cautious sized_bits demo_hashes)). vm_compute. reflexivity.
  - apply crashed_crash.
Qed.

Lemma process_follows_log_witness :
  exists p n tr w a, buildComponents sized_bits demo_hashes solo_boot solo_cfg (mkProcess solo_kv solo_raft []) = (p, Ok (n, tr, w, a)) /\
    forall evs s, agreeable (node_agree solo_log 1) (okmsg (raft_config solo_cfg)) evs (configured solo_cfg n w a) ->
      Server.Run evs (configured solo_cfg n w a) = (s, Ok tt) ->
      spared_run (careful_kvEngine sized_bits demo_hashes) (world_kvEngine sized_bits demo_hashes) se_calls evs (configured solo_cfg n w a) ->
      (1 <= Server.lastApplied s -> forall k s' v, Server.Get k s = (s', Ok v) -> v = kv_get (kv_at solo_log (Server.lastApplied s)) k) /\
      (forall ch, Applied ch None ∈ replies s ->
        exists i entry, solo_log !! i = Some entry /\ Z.of_nat i < Server.lastApplied s /\ Proposed (mkRequest (LogEntry.Data entry) ch) ∈ evs.*2).
Proof.
  apply (process_follows_log sized_bits demo_hashes sized_bits_ok solo_cfg ltac:(done) eq_refl solo_log solo_log_index 1 solo_raft solo_kv solo_boot solo_left).
  apply solo_boots; [apply solo_free2 |]. intros n sn. vm_compute. discriminate.
Defined.

(** The second life in full: the node replays its log, commits one more entry
    and has caught up. *)
Example solo_second_life :
  let s := fst (Server.Run (solo_events [x32]) (solo_start solo_raft solo_kv)) in
  snd (Server.Run (solo_events [x32]) (solo_start solo_raft solo_kv)) = Ok tt /\
  agreeable_b solo_log (solo_events [x32]) (solo_start solo_raft solo_kv) = true /\
  snd (Server.Run (kvEngine0 := careful_kvEngine sized_bits demo_hashes) (solo_careful [x32]) (solo_start solo_raft solo_kv)) = Ok tt /\
  Server.lastApplied s = 2 /\ replies s = [Applied 7 None] /\ snd (Server.Get ka s) = Ok ([x32], true).
Proof. vm_compute. split_and!; reflexivity. Qed.
