(* ===== verification/ServerFindings.v ===== *)
(** * Where the server departs from its documentation

    Runs of the loop over the real Raft node and the real engine, with calls
    of the engine that fail. *)

From Stdlib Require Import Strings.Byte Strings.String.
From stdpp Require Import sorting.
From S2P Require Import Prelude GoBytes GoSort GoFmt GoState Wal SkipList Memtable Bloom BlockCache SSTableFormat SSTableWriter SSTableReader SSTable Engine EngineLayers EngineDisk EngineReplay EngineSpec EngineInv EngineOpen EngineWrite EngineFlush EngineSnapshot EngineRestore EngineRun EngineProps RaftTypes RaftStorage Raft RaftInv RaftNode Command Server ServerReplies ServerSteps ServerLog ServerImpl.

(** The loop over the real node and the real engine; no flush goes on while it
    runs. *)
#[local] Instance plain_engine : kvEngine world calls_env := world_kvEngine sized_bits demo_hashes.

Definition idle_calls : calls_env := mkCalls fine_flush [] (fun l => l) fine_restoring.
Definition calm : @pump_env node_env calls_env := mkPumpEnv (mkNodeEnv sample_env eq_refl) idle_calls idle_calls idle_calls.

(** A write as a log entry. *)
Definition put_entry (i : Z) (k v : bytes) : LogEntry.t :=
  LogEntry.mk 1 i (Command.encodeCommand (Command.mk Command.cmdPut k v)).
Definition append (prev prevTerm : Z) (es : list LogEntry.t) (commit : Z) : Message.t :=
  Message.stamp 1 1 (Message.append_request 2 prev prevTerm es commit 0).

(** ** A snapshot that could not be restored *)

Definition install (i : Z) (data : bytes) : Message.t :=
  Message.mk MsgInstallSnapshot 1 2 1 0 0 false 0 0 [] 0 false 0 0 (Snapshot.mk i 1 data).

(** A follower receives a snapshot up to index 5 while its engine is busy
    with a flush, and then entry 6. *)
Definition skipped : Server Node world * res unit :=
  Run [(calm, Received (Some (install 5 (snapshot_bytes [mkSnapshotEntry kb [x39]]))))]
      (Server.New sample_start (flush_start run1)).
Definition skipped_on : Server Node world * res unit :=
  let s := with_eng (run_steps 4 (sv_eng (fst skipped))) (fst skipped) in
  Run [(calm, Received (Some (append 5 1 [put_entry 6 ka [x32]] 6)))] s.

(** The restore is refused and not repeated; the next entry is applied on top
    of the old state, [lastApplied] passes the snapshot, and its keys are
    missing from then on. *)
Theorem failed_restore_is_skipped :
  snd skipped = Ok tt /\ Server.lastApplied (fst skipped) = 0 /\
  snd skipped_on = Ok tt /\ Server.lastApplied (fst skipped_on) = 6 /\
  snd (Server.Get ka (fst skipped_on)) = Ok ([x32], true) /\ snd (Server.Get kb (fst skipped_on)) = Ok ([], false).
Proof. vm_compute. split_and!; reflexivity. Qed.

(** ** An entry that could not be applied *)

(** An engine whose log fails the first write, once. *)
Definition flaky : world :=
  match Open (mkOpenEnv true true true true (fun _ => true) (fun _ _ => false) (fun _ => None) (fun _ => false) []
                (Some [Some 0%nat]) (fun _ => true)) demo_opts ∅ with
  | (d, Ok e) => mkWorld d e
  | (d, _) => run1
  end.

Definition unapplied : Server Node world * res unit :=
  Run [(calm, Received (Some (append 0 0 [put_entry 1 ka [x31]] 1)))] (Server.New sample_start flaky).

(** The committed entry counts as applied although the engine does not have
    it: nothing applies it again. *)
Theorem failed_apply_is_skipped :
  snd unapplied = Ok tt /\ Server.lastApplied (fst unapplied) = 1 /\
  Status.CommitIndex (cachedStatus (fst unapplied)) = 1 /\ snd (Server.Get ka (fst unapplied)) = Ok ([], false).
Proof. vm_compute. split_and!; reflexivity. Qed.

(** ** A snapshot that arrives late *)

Definition rolled_back : Server Node world * res unit :=
  Run [(calm, Received (Some (append 0 0 [put_entry 1 ka [x31]; put_entry 2 ka [x32]; put_entry 3 kb [x33]] 3)));
       (calm, Received (Some (install 2 (snapshot_bytes [mkSnapshotEntry ka [x32]]))))]
      (Server.New sample_start (started demo_opts ∅)).

(** Three committed entries are applied; a snapshot of the first two that
    comes after them replaces log and engine, and the third write is gone
    while the commit index still covers it. *)
Theorem late_snapshot_rolls_back :
  snd rolled_back = Ok tt /\ Server.lastApplied (fst rolled_back) = 2 /\
  Status.CommitIndex (cachedStatus (fst rolled_back)) = 3 /\ snd (Server.Get kb (fst rolled_back)) = Ok ([], false).
Proof. vm_compute. split_and!; reflexivity. Qed.
