(* ===== verification/CmdCluster.v ===== *)
(** * A cluster of processes

    The whole system: every process of src/cmd/kvstore runs the loop of
    src/server on its Raft node and its engine, the nodes' messages travel over
    a network that may lose, delay, repeat and reorder them, processes crash
    and start again from their disks.  As long as no node has compacted its log
    and no call on an engine fails, all processes serve one log. *)

From Stdlib Require Import Strings.Byte Strings.String.
From stdpp Require Import functions.
From S2P Require Import RaftCluster RaftView RaftMoves RaftSafety RaftAgree.
From S2P Require Import Prelude GoBytes GoState GoFmt CmdConfig Wal Bloom SSTableFormat SSTable Engine EngineDisk EngineInv EngineOpen EngineFlush EngineSnapshot EngineRestore EngineRun EngineProps Server ServerReplies ServerSteps ServerLog ServerCareful ServerImpl ServerProps RaftTypes RaftStorage Raft RaftLog RaftInv RaftVote RaftStable RaftSend RaftApp RaftNode ServerNode CmdMain CmdLife.

Section cluster.
Context (fb : Z -> Z) (fh : Z -> Z -> Z) (Hfb : forall n, 0 <= fb n <= Bloom.maxAlloc).
Context (ids : list Z) (election heartbeat : Z).
Context (ids_nodup : NoDup ids) (ids_wf : Forall (fun i => is_u64 i /\ i <> 0) ids) (two : 2 <= len ids).
Context (cfg : Z -> CmdConfig.config).
Context (Hcfg : forall i, i ∈ ids -> raft_config (cfg i) = RaftCluster.config ids election heartbeat i).
Context (Hvalid : forall i, i ∈ ids -> Config.validate (raft_config (cfg i)) = None).

#[local] Instance cluster_careful : kvEngine world steady_env := careful_kvEngine fb fh.
#[local] Instance cluster_keeps : keeps_map world steady_env (ServerImpl.keeps fb fh) := careful_keeps_map fb fh Hfb.
#[local] Instance cluster_engine : kvEngine world calls_env := world_kvEngine fb fh.

Abbreviation process := (Server Node world).
Abbreviation raft s := (n_r (node s)).

(** ** The system *)

(** [wire] holds every message ever sent.  [horizon] is what a process had
    applied before its last start, [asked] what its clients have proposed. *)
Record system := mkSystem {
  procs : Z -> process;
  wire : list Message.t;
  horizon : Z -> Z;
  asked : Z -> list proposeRequest
}.

Definition update (f : system) (i : Z) (s : process) (ms : list Message.t) (hz : Z) (rq : list proposeRequest) : system :=
  mkSystem (<[i := s]> (procs f)) (wire f ++ ms) (<[i := hz]> (horizon f)) (<[i := asked f i ++ rq]> (asked f)).

(** The node has not compacted its log, and its term is in range. *)
Definition plain (n : Node) : Prop := firstLogIndex (n_r n) = 0 /\ currentTerm (n_r n) < maxTerm.

(** What is proposed fits a record and the log. *)
Definition in_range (ev : event) (s : process) : Prop :=
  Forall (fun r => len (rq_data r) < Codec.dataMax) (submits ev s) /\
  lastLogIndex (raft s) + len (submits ev s) < maxIndex.

(** Process [i] handles an event, and no call on its engine fails or leaves the
    limits of the engine's theorems in it; the network delivers a message only to
    the one it is for. *)
Record handles (wire : list Message.t) (i : Z) (env : @pump_env node_env calls_env) (ev : event) (s s' : process) (ms : list Message.t) : Prop := {
  h_runs : done_ s = false;
  h_wire : forall m, ev = Received (Some m) -> m ∈ wire /\ Message.To m = i;
  h_range : in_range ev s;
  h_event : run_event env ev s = (s', Ok tt);
  h_spared : spared (careful_kvEngine fb fh) se_calls env ev s;
  h_sent : sent s' = sent s ++ ms;
  h_plain : plain (node s')
}.

Definition requested (ev : event) : list proposeRequest := match ev with Proposed r => [r] | _ => [] end.

(** A process crashes between two events, or in the middle of one, when its node
    has been saved and the engine is still as it was; no crash falls inside a
    call on the engine. *)
Inductive dies (f : system) (i : Z) : process -> list Message.t -> list proposeRequest -> Prop :=
  | dies_idle : dies f i (procs f i) [] []
  | dies_busy env ev s ms : handles (wire f) i env ev (procs f i) s ms -> dies f i s ms (requested ev).

Inductive fstep : system -> system -> Prop :=
  | f_event f i env ev s' ms :
      i ∈ ids -> handles (wire f) i env ev (procs f i) s' ms ->
      fstep f (update f i s' ms (horizon f i) (requested ev))
  | f_get f i k s' r :
      i ∈ ids -> Server.Get k (procs f i) = (s', r) -> r <> Panic ->
      fstep f (update f i s' [] (horizon f i) [])
  | f_crash f i s ms rq k kd env p n tr w a :
      i ∈ ids -> dies f i s ms rq -> crash (dsk (sv_eng (procs f i))) kd ->
      let rf := Some (Durability.crash_image (RaftStorage.disk (n_storage (node s))) k) in
      good_boot fb fh (cfg i) env rf kd ->
      buildComponents fb fh env (cfg i) (mkProcess kd rf []) = (p, Ok (n, tr, w, a)) -> plain n ->
      fstep f (update f i (configured (cfg i) n w a) ms (Z.max (horizon f i) (Server.lastApplied (procs f i))) rq).

(** All start on empty disks. *)
Definition fresh (f : system) : Prop :=
  wire f = [] /\ forall i, i ∈ ids -> horizon f i = 0 /\ asked f i = [] /\
    exists env p n tr w a, good_boot fb fh (cfg i) env None ∅ /\
      buildComponents fb fh env (cfg i) (mkProcess ∅ None []) = (p, Ok (n, tr, w, a)) /\ procs f i = configured (cfg i) n w a.

(** A run, the latest state first. *)
Inductive history : list system -> Prop :=
  | hist_start f : fresh f -> history [f]
  | hist_step f f' fs : history (f :: fs) -> fstep f f' -> history (f' :: f :: fs).

(** ** The nodes of the system *)

Abbreviation tracked := (tracked ids election heartbeat).
Abbreviation settled := (settled ids).
Abbreviation wal := (fun _ : Z => "raft.wal"%string).

(** A node agrees with every log that has what it holds as committed. *)
Lemma tracked_agrees w v i L hz a :
  tracked w v -> i ∈ ids -> currentTerm (n_r (nodes w i)) < maxTerm -> pendingSnapshotToApply (n_r (nodes w i)) = None ->
  committed_log (n_r (nodes w i)) `prefix_of` L -> agrees L hz (n_r (nodes w i)) a.
Proof.
  intros Ht Hi Hterm Hp [k HL]. pose proof (tracked_commit ids election heartbeat w v i Ht Hi) as Hc.
  destruct (tracked_node _ _ _ w v i Ht Hi) as [Hinv [D Hn]]. pose proof (n_head _ _ _ _ _ Hn) as Hh.
  destruct (t_nodes _ _ _ _ _ Ht) as [D' HD]. destruct (HD i Hi) as (_ & d & t & Hni & _).
  pose proof (w_entries _ (sd_wf _ (ni_send _ _ _ _ Hni))) as Hwf.
  set (r := n_r (nodes w i)) in *. pose proof (RaftMoves.shape_first r Hh) as Hf.
  pose proof (RaftMoves.shape_last r Hinv Hh) as Hl. pose proof (last_first r Hinv) as Hlf. pose proof (inv_bound r Hinv).
  assert (len (committed_log r) = commitIndex r) as Hlen.
  { unfold committed_log, len in *. rewrite length_take. lia. }
  constructor; try done.
  - eapply Forall_impl; [exact Hwf |]. intros e He. apply He.
  - lia.
  - lia.
  - rewrite HL, len_app. pose proof (len_nonneg k). lia.
  - intros x Hx. rewrite Hf in Hx. unfold len in Hlen. rewrite HL, lookup_app_l by lia.
    unfold committed_log. rewrite lookup_take_lt by lia. apply option_eq. intros e. by apply entry_body; [| lia].
  - intros sn Hsn. congruence.
Qed.

(** The call of an event as an operation of the node. *)
Lemma calls_exec w v i ev (s : process) n :
  tracked w v -> i ∈ ids -> nodes w i = node s -> currentTerm (raft s) < maxTerm ->
  (forall m, ev = Received (Some m) -> m ∈ net w) -> in_range ev s -> calls ev s = Some (Ok n) ->
  n = {| n_r := n_r n; n_storage := n_storage (node s) |} /\ tells (raft s) (n_r n) /\
  exists o, admissible (RaftCluster.sent w) (raft s) o /\ exec (raft s) o = Ok (n_r n).
Proof.
  intros Ht Hi Hw Hterm Hwire [Hdata Hroom] Hcall.
  destruct (tracked_node _ _ _ w v i Ht Hi) as [Hinv _]. rewrite Hw in Hinv.
  assert (forall rq, proposes rq (node s) = Some (Ok n) -> Forall (fun r => len (rq_data r) < Codec.dataMax) rq ->
    lastLogIndex (raft s) + len rq < maxIndex ->
    n = {| n_r := n_r n; n_storage := n_storage (node s) |} /\ tells (raft s) (n_r n) /\
    exists o, admissible (RaftCluster.sent w) (raft s) o /\ exec (raft s) o = Ok (n_r n)) as Hprop.
  { intros rq Hp Hd Hl. destruct rq as [|r rq]; [done |]. cbn [proposes rn_ProposeBatch node_raftNode] in Hp.
    destruct (ProposeBatch (raft s) (map rq_data (r :: rq))) as [[r' ix]|e|] eqn:HP; [| done..].
    cbn [res_bind] in Hp. injection Hp as <-. split_and!; [done | by eapply tells_ProposeBatch |].
    exists (OPropose (map rq_data (r :: rq))). split; [| by simpl in *; rewrite HP].
    split; [by rewrite len_map | by apply Forall_fmap]. }
  destruct ev as [|[m|]|r|ch| |]; cbn [calls] in Hcall; try done; try by apply (Hprop _ Hcall).
  - cbn [rn_Tick node_raftNode] in Hcall. destruct (Tick (raft s)) as [r'|e|] eqn:Hr; [| done..]. injection Hcall as <-.
    split_and!; [done | by apply tells_Tick |]. by exists OTick.
  - specialize (Hwire m eq_refl). cbn [rn_Step node_raftNode] in Hcall.
    destruct (Step (raft s) m) as [r'|e|] eqn:Hr; [| done..]. injection Hcall as <-.
    destruct (tracked_message ids election heartbeat ids_wf w v m Ht Hwire) as ([Hm _] & _).
    pose proof (tracked_keeps ids election heartbeat w v i m Ht Hi Hwire) as Hk.
    destruct (tracked_node _ _ _ w v i Ht Hi) as [_ [D Hn]]. pose proof (tracked_commit ids election heartbeat w v i Ht Hi) as Hc.
    rewrite Hw in Hk, Hn, Hc. split_and!; [done | | by exists (OStep m)].
    apply (tells_Step _ m); try done. rewrite (RaftMoves.shape_last _ Hinv (n_head _ _ _ _ _ Hn)). lia.
  - cbn [rn_RequestReadIndex node_raftNode] in Hcall.
    destruct (RequestReadIndex (raft s) (nextReadCtx s)) as [r'|e|] eqn:Hr; [| done..]. injection Hcall as <-.
    split_and!; [done | by eapply tells_RequestReadIndex |]. exists (ORead (nextReadCtx s)). split; [done |]. simpl. by rewrite Hr.
Qed.

Lemma tracked_exec w v i o r' :
  tracked w v -> i ∈ ids -> admissible (RaftCluster.sent w) (n_r (nodes w i)) o -> exec (n_r (nodes w i)) o = Ok r' -> inv r'.
Proof.
  intros Ht Hi Ha Hr. destruct (t_nodes _ _ _ _ _ Ht) as [D HD]. destruct (HD i Hi) as (_ & d & t & Hni & _).
  assert (forall m, RaftCluster.sent w m -> good m /\ Message.From m <> 0) as Hgood.
  { intros m Hm. by destruct (tracked_message ids election heartbeat ids_wf w v m Ht Hm) as (? & ? & _). }
  destruct (admissible_ok _ Hgood _ _ Ha) as (Hok & Hwf & _).
  apply (sd_inv r'), (exec_sendable _ o _ Hok Hwf (ni_send _ _ _ _ Hni) Hr).
Qed.

(** What a pump that leaves the log alone has done. *)
Lemma pump_plain (env : @pump_env node_env calls_env) (s s' : process) ms :
  inv (raft s) -> pump env s = (s', Ok tt) -> sent s' = sent s ++ ms -> firstLogIndex (raft s') = 0 ->
  (firstLogIndex (raft s) = 0 /\ currentTerm (raft s') = currentTerm (raft s)) /\
  (pendingSnapshotToApply (raft s) = None -> pendingSnapshotToApply (raft s') = None) /\
  forall c p net, nstep c p net (node s) (node s') ms.
Proof.
  intros Hi Hp Hs Hf. apply pump_steps in Hp as (n & out & Hp & Hout). cbn [rn_Persist node_raftNode] in Hp.
  assert (is_ok out = false \/ n_r n = Advance (raft s) /\ exists ms rs sn, out = Ok (ms, rs, sn)) as Hcase.
  { destruct (Persist_cases _ _ _ _ Hi Hp) as [[_ ?] | [? [x ->]]]; [by left | right]. split; [done |]. by eexists _, _, _. }
  pose proof (ne_clean (pe_persist env)) as Hclean. destruct out as [[[ms' rs] sn]|e|]; [| | done].
  - destruct Hcase as [? | [Hr _]]; [done |]. destruct Hout as [Hs' Hc].
    assert (ms' = ms) as -> by (rewrite Hs in Hs'; by apply app_inv_head in Hs').
    assert (log (Advance (raft s)) = log (raft s) /\ currentTerm (Advance (raft s)) = currentTerm (raft s) /\
      pendingSnapshotToApply (Advance (raft s)) = None) as (Hl & Ht & Hpn) by (unfold Advance; by destruct (_ <=? _)).
    assert (node s' = n) as Hn.
    { destruct Hc as [? | (index & data & Hc)]; [done |]. exfalso. cbn [rn_CreateSnapshot node_raftNode] in Hc.
      destruct (CreateSnapshot (n_r n) index data) as [r'|e|] eqn:Hcs; [| done..]. injection Hc as Hc. rewrite <- Hc in Hf. simpl in Hf.
      pose proof (inv_Advance _ Hi) as Hia. rewrite <- Hr in Hia. apply CreateSnapshot_spec in Hcs as ((Hlt & _) & _ & Hlog & _); [| done].
      unfold firstLogIndex in Hf at 1. rewrite Hlog in Hf. simpl in Hf. pose proof (inv_first _ Hia). lia. }
    rewrite Hn in *. rewrite Hr in *. unfold firstLogIndex in *. rewrite Hl in Hf. split_and!; try done.
    intros c p net. by eapply ns_persist.
  - destruct Hout as [Hn Hs']. assert (ms = []) as ->.
    { rewrite Hs in Hs'. apply (app_inv_head (sent s)). by rewrite app_nil_r. }
    destruct (Persist_cases _ _ _ _ Hi Hp) as [[Hr _] | [_ [x ?]]]; [| done]. rewrite Hn in *. rewrite Hr in *. split_and!; try done.
    intros c p net. by eapply ns_persist_fail.
Qed.

(** An event as steps of the node's cluster: the moment after the call fixes the
    stretch of the log that the process has to agree with. *)
Lemma event_tracked w v i env ev (s s' : process) ms :
  tracked w v -> i ∈ ids -> nodes w i = node s -> plain (node s) -> pendingSnapshotToApply (raft s) = None ->
  handles (net w) i env ev s s' ms ->
  exists w' v' c, grows ids v v' /\ tracked w' v' /\ nodes w' i = node s' /\ (forall j, j <> i -> nodes w' j = nodes w j) /\
    net w' = net w ++ ms /\ settled v' c /\ pendingSnapshotToApply (raft s') = None /\
    forall L hz, c `prefix_of` L -> event_agrees (node_agree L hz) (okmsg (raft_config (cfg i))) ev s.
Proof.
  intros Ht Hi Hw [Hf Hterm] Hpn [_ Hwire Hrange Hev _ Hs [Hf' Hterm']]. apply event_steps in Hev.
  assert (forall m, ev = Received (Some m) -> okmsg (raft_config (cfg i)) (node s) m) as Hmsg.
  { intros m Hm. destruct (Hwire m Hm) as [Hin Hto]. split.
    - destruct (tracked_message ids election heartbeat ids_wf w v m Ht Hin) as (? & ? & ?). split_and!; [done | done |].
      rewrite (Hcfg i Hi). simpl. congruence.
    - rewrite <- Hw. by apply (tracked_keeps ids election heartbeat w v). }
  destruct (calls ev s) as [[n|e|]|] eqn:Hcall; [| | done |].
  2, 3: destruct Hev as [Hn Hsame]; assert (ms = []) as -> by (rewrite Hsame in Hs; apply (app_inv_head (sent s)); by rewrite app_nil_r);
    exists w, v, []; rewrite Hn, app_nil_r; split_and!; try done;
    [apply grows_refl | apply settled_nil | intros L hz _; split; [done |]; rewrite Hcall; by intros ? [=]].
  destruct Hev as (s1 & Hn1 & Ho1 & Hpump).
  destruct (calls_exec w v i ev s n Ht Hi Hw Hterm (fun m Hm => proj1 (Hwire m Hm)) Hrange Hcall) as (Heq & Htells & o & Hadm & Hrun).
  assert (inv (n_r n)) as Hinv by (rewrite <- Hw in Hadm, Hrun; by apply (tracked_exec w v i o)).
  rewrite <- Hn1 in Hinv. rewrite <- Ho1 in Hs. destruct (pump_plain env s1 s' ms Hinv Hpump Hs Hf') as ([Hf1 Ht1] & Hpn1 & Hstep).
  rewrite Hn1 in *. pose proof (tells_pending _ _ Htells Hinv Hf1 Hpn) as Hpn'.
  destruct (tracked_nstep ids election heartbeat wal ids_nodup ids_wf two w v i n []) as (v1 & Hg1 & Htr1); try done.
  { rewrite Hw, Heq. apply (ns_op _ _ _ _ o); done. }
  set (w1 := advance w i n []) in *. assert (nodes w1 i = n) as Hw1 by apply fn_lookup_insert.
  destruct (tracked_nstep ids election heartbeat wal ids_nodup ids_wf two w1 v1 i (node s') ms) as (v2 & Hg2 & Htr2); try done.
  { rewrite Hw1. apply Hstep. }
  exists (advance w1 i (node s') ms), v2, (committed_log (n_r n)). split_and!; try done.
  - by eapply grows_trans.
  - apply fn_lookup_insert.
  - intros j Hj. unfold advance. simpl. by rewrite !fn_lookup_insert_ne.
  - unfold advance. simpl. by rewrite app_nil_r.
  - apply (settled_grows ids v1); [done |]. rewrite <- Hw1. by apply (committed_settled ids election heartbeat w1).
  - by apply Hpn1.
  - intros L hz HL. split; [done |]. rewrite Hcall. intros n' [= <-]. unfold node_agree. rewrite <- Hw1 in *.
    apply (tracked_agrees w1 v1); try done. lia.
Qed.

(** ** Starting and ending *)

(** The node that a start opens. *)
Lemma build_node env c kd rf p n tr w a :
  buildComponents fb fh env c (mkProcess kd rf []) = (p, Ok (n, tr, w, a)) ->
  exists snap, OpenNode (raft_config c) "raft.wal" (raft_source env rf) (be_wal env) (be_wal_faults env) (be_draws env) = Ok (n, snap).
Proof.
  unfold buildComponents, st_bind, wrap, on_error, opened, modify, lift. destruct (be_mkdir env); cbn; [| done].
  destruct (OpenNode _ _ _ _ _ _) as [[n' snap]|e|]; cbn; [| done..]. destruct (be_listen env); cbn; [| done].
  unfold open_engine. cbn [p_kv]. destruct (Engine.Open (be_open env) _ kd) as [d [e|e|]]; cbn; [| done..].
  destruct snap as [sn|]; cbn; [| intros [= _ <- _ _ _]; by eexists]. unfold restore_engine.
  destruct (Engine.RestoreSnapshot _ _ _ _ _) as [w' [u|err|]]; cbn; [| done..]. intros [= _ <- _ _ _]. by eexists.
Qed.

Lemma configured_node c n w a : node (configured c n w a) = n.
Proof. unfold configured. by destruct (_ <? _); destruct (_ <? _). Qed.

(** What is on the disks of a process that follows [L] is enough to start. *)
Lemma boots i L hz rf kd env p n tr w a :
  i ∈ ids -> raft_left (cfg i) L hz rf -> kv_left fb fh L hz kd -> good_boot fb fh (cfg i) env rf kd ->
  buildComponents fb fh env (cfg i) (mkProcess kd rf []) = (p, Ok (n, tr, w, a)) ->
  starts L hz (node_ready L hz (raft_config (cfg i))) (ServerImpl.keeps fb fh) (configured (cfg i) n w a).
Proof.
  intros Hi Hr Hk Hb Hbuild. assert (is_u64 (CmdConfig.id (cfg i))) as Hid.
  { pose proof (f_equal Config.ID (Hcfg i Hi)) as Heq. simpl in Heq. rewrite Heq. by apply (ids_nonzero ids ids_wf). }
  destruct (build_ok fb fh Hfb (cfg i) Hid (Hvalid i Hi) L env hz rf kd Hr Hk Hb) as (p2 & n2 & tr2 & w2 & a2 & Hb2 & Hst).
  rewrite Hbuild in Hb2. by injection Hb2 as <- <- <- <- <-.
Qed.

(** ** What every process does *)

(** Process [i] follows the log [L]. *)
Definition serves (L : list LogEntry.t) (f : system) (i : Z) : Prop :=
  0 <= horizon f i /\
  ServerLog.quiet L (horizon f i) (node_any L (horizon f i) (raft_config (cfg i))) (ServerImpl.keeps fb fh) (asked f i) (procs f i).

Lemma quiet_more L hz any reqs rq (s : process) :
  ServerLog.quiet L hz any (ServerImpl.keeps fb fh) reqs s -> ServerLog.quiet L hz any (ServerImpl.keeps fb fh) (reqs ++ rq) s.
Proof.
  intros [[[] He] Hn]. split; [| done]. split; [| done]. constructor; try done.
  - intros i q Hq. apply elem_of_app. left. by apply (bk_wait i).
  - eapply Forall_impl; [exact bk_pend |]. intros x Hx. apply elem_of_app. by left.
  - intros ch Hch. destruct (bk_acked ch Hch) as (i & e & ? & ? & ?). exists i, e. split_and!; [done | done |]. apply elem_of_app. by left.
Qed.

Lemma get_quiet L hz any reqs (s s' : process) k r :
  ServerLog.quiet L hz any (ServerImpl.keeps fb fh) reqs s -> Server.Get k s = (s', r) -> r <> Panic ->
  ServerLog.quiet L hz any (ServerImpl.keeps fb fh) reqs s' /\ still s s'.
Proof.
  intros [[Hb (K & Hr & HK)] Hn]. unfold Server.Get. pose proof (km_Get (sv_eng s) K k Hr) as Hk.
  destruct (en_Get k (sv_eng s)) as [e x]. intros [= <- <-] Hx. split; [| done]. split; [| done].
  split; [eapply book_frame; [exact Hb | simpl; lia | done..] |]. exists K. split; [| done]. simpl.
  destruct x; [apply Hk | apply Hk | done].
Qed.

(** The nodes of a system as a cluster, with what is settled there. *)
Record mirrored (f : system) (w : RaftCluster.world) (v : view) : Prop := {
  m_tracked : tracked w v;
  m_net : net w = wire f;
  m_nodes : forall i, i ∈ ids -> nodes w i = node (procs f i) /\ plain (node (procs f i)) /\
    pendingSnapshotToApply (raft (procs f i)) = None
}.

(** One process and the network change. *)
Lemma mirrored_update f w v i s ms hz rq w' v' :
  mirrored f w v -> tracked w' v' -> nodes w' i = node s -> (forall j, j <> i -> nodes w' j = nodes w j) -> net w' = net w ++ ms ->
  plain (node s) -> pendingSnapshotToApply (raft s) = None -> mirrored (update f i s ms hz rq) w' v'.
Proof.
  intros [Ht Hnet Hn] Ht' Hi Hj Hnet' Hp Hpn. constructor; [done | simpl; congruence |].
  intros j Hin. simpl. destruct (decide (j = i)) as [->|Hne]; [by rewrite fn_lookup_insert |].
  rewrite fn_lookup_insert_ne, Hj by done. by apply Hn.
Qed.

Lemma serves_update f i s ms hz rq L :
  (forall j, j ∈ ids -> serves L f j) ->
  0 <= hz -> ServerLog.quiet L hz (node_any L hz (raft_config (cfg i))) (ServerImpl.keeps fb fh) (asked f i ++ rq) s ->
  forall j, j ∈ ids -> serves L (update f i s ms hz rq) j.
Proof.
  intros Hall Hz Hq j Hj. unfold serves. simpl. destruct (decide (j = i)) as [->|Hne]; [by rewrite !fn_lookup_insert |].
  rewrite !fn_lookup_insert_ne by done. by apply Hall.
Qed.

(** ** Every step *)

Lemma serves_event f w v i env ev s ms :
  mirrored f w v -> i ∈ ids -> handles (wire f) i env ev (procs f i) s ms ->
  exists w' v' c, grows ids v v' /\ (forall hz rq, mirrored (update f i s ms hz rq) w' v') /\ settled v' c /\
    forall L, numbered L -> c `prefix_of` L -> serves L f i ->
      ServerLog.quiet L (horizon f i) (node_any L (horizon f i) (raft_config (cfg i))) (ServerImpl.keeps fb fh) (asked f i ++ requested ev) s.
Proof.
  intros Hm Hi Hh. pose proof Hm as [Ht Hnet Hn]. destruct (Hn i Hi) as (Hw & Hp & Hpn). rewrite <- Hnet in Hh.
  destruct (event_tracked w v i env ev (procs f i) s ms Ht Hi Hw Hp Hpn Hh) as (w' & v' & c & Hg & Ht' & Hi' & Hj & Hnet' & Hc & Hpn' & Hag).
  exists w', v', c. split_and!; [done | | done |].
  - intros hz rq. exact (mirrored_update f w v i s ms hz rq w' v' Hm Ht' Hi' Hj Hnet' (h_plain _ _ _ _ _ _ _ Hh) Hpn').
  - intros L HL Hpre [_ Hq].
    destruct (spared_event _ _ _ (Hcautious := world_cautious fb fh) env ev (procs f i) s (h_spared _ _ _ _ _ _ _ Hh) (h_event _ _ _ _ _ _ _ Hh)) as (env' & _ & Hev).
    apply (event_quiet L (horizon f i) HL _ _ _ _ _ _ env' ev (procs f i)); [by apply quiet_more | by apply Hag | | exact Hev].
    intros r ->. apply elem_of_app. right. by left.
Qed.

Lemma open_pending c p src opens faults draws n snap :
  OpenNode c p src opens faults draws = Ok (n, snap) -> pendingSnapshotToApply (n_r n) = None.
Proof.
  unfold OpenNode. intros H. bind_ok H x Hs. destruct x as [st [[hs lg] sn]]. bind_ok H r Hr.
  assert (pendingSnapshotToApply r = None) as Hp.
  { revert Hr. unfold Raft.New. destruct (Config.validate c); [done |]. intros [= <-]. by rewrite resetElectionTimeout_frame. }
  assert (forall r', pendingSnapshotToApply (restoreState hs lg r') = pendingSnapshotToApply r') as Hre.
  { intros r'. unfold restoreState. cbv zeta. by repeat case_match. }
  destruct (0 <? _); injection H as <- _; cbn [n_r]; [change (pendingSnapshotToApply (restoreState hs lg r) = None) |]; by rewrite Hre.
Qed.

(** A start as a step of the node's cluster. *)
Lemma boot_tracked w v i (s : process) k env kd p n tr e a :
  tracked w v -> i ∈ ids -> nodes w i = node s ->
  let rf := Some (Durability.crash_image (RaftStorage.disk (n_storage (node s))) k) in
  good_boot fb fh (cfg i) env rf kd -> buildComponents fb fh env (cfg i) (mkProcess kd rf []) = (p, Ok (n, tr, e, a)) -> plain n ->
  exists v', grows ids v v' /\ tracked (advance w i n []) v' /\ pendingSnapshotToApply (n_r n) = None.
Proof.
  intros Ht Hi Hw rf [] Hbuild [Hf _]. destruct (build_node _ _ _ _ _ _ _ _ _ Hbuild) as [snap Ho].
  pose proof (open_pending _ _ _ _ _ _ _ _ Ho) as Hpn. rewrite gb_wal, (Hcfg i Hi) in Ho.
  unfold rf, raft_source in Ho. cbn [fmap option_fmap option_map] in Ho. rewrite gb_fault, gb_truncate in Ho.
  destruct (tracked_nstep ids election heartbeat wal ids_nodup ids_wf two w v i n []) as (v' & Hg & Ht'); try done.
  { rewrite Hw. by eapply ns_crash. }
  by exists v'.
Qed.

Lemma serves_crash f w v i s ms rq k kd env p n tr e a :
  mirrored f w v -> i ∈ ids -> dies f i s ms rq -> crash (dsk (sv_eng (procs f i))) kd ->
  let rf := Some (Durability.crash_image (RaftStorage.disk (n_storage (node s))) k) in
  let hz := Z.max (horizon f i) (Server.lastApplied (procs f i)) in
  good_boot fb fh (cfg i) env rf kd -> buildComponents fb fh env (cfg i) (mkProcess kd rf []) = (p, Ok (n, tr, e, a)) -> plain n ->
  exists w' v' c, grows ids v v' /\ mirrored (update f i (configured (cfg i) n e a) ms hz rq) w' v' /\ settled v' c /\
    forall L, numbered L -> c `prefix_of` L -> serves L f i ->
      0 <= hz /\ ServerLog.quiet L hz (node_any L hz (raft_config (cfg i))) (ServerImpl.keeps fb fh) (asked f i ++ rq) (configured (cfg i) n e a).
Proof.
  intros Hm Hi Hdies Hcrash rf hz Hb Hbuild Hpl.
  assert (exists w1 v1 c, grows ids v v1 /\ (forall hz rq, mirrored (update f i s ms hz rq) w1 v1) /\ settled v1 c /\
    forall L, numbered L -> c `prefix_of` L -> serves L f i ->
      exists reqs, ServerLog.quiet L (horizon f i) (node_any L (horizon f i) (raft_config (cfg i))) (ServerImpl.keeps fb fh) reqs s)
    as (w1 & v1 & c & Hg1 & Hm1 & Hc1 & Hq1).
  { destruct Hdies as [|env' ev s ms Hh].
    - exists w, v, []. split_and!; [apply grows_refl | | apply settled_nil | intros L _ _ [_ Hq]; by eexists].
      pose proof Hm as [? ? Hn]. destruct (Hn i Hi) as (? & ? & ?). intros hz' rq. eapply mirrored_update; try done. by rewrite app_nil_r.
    - destruct (serves_event f w v i env' ev s ms Hm Hi Hh) as (w1 & v1 & c & ? & ? & ? & Hq). exists w1, v1, c. split_and!; try done.
      intros L HL Hpre Hs. eexists. by apply Hq. }
  specialize (Hm1 hz rq). pose proof Hm1 as [Ht1 _ Hn1]. destruct (Hn1 i Hi) as (Hw1 & _). simpl in Hw1. rewrite fn_lookup_insert in Hw1.
  destruct (boot_tracked w1 v1 i s k env kd p n tr e a Ht1 Hi Hw1 Hb Hbuild Hpl) as (v2 & Hg2 & Ht2 & Hpn).
  exists (advance w1 i n []), v2, c. split_and!.
  - by eapply grows_trans.
  - pose proof (mirrored_update _ _ _ i (configured (cfg i) n e a) [] hz rq (advance w1 i n []) v2 Hm1 Ht2) as Hm2.
    rewrite configured_node in Hm2. specialize (Hm2 ltac:(apply fn_lookup_insert)). destruct Hm2 as [? Hnet2 Hn2]; try done.
    { intros j Hj. by apply fn_lookup_insert_ne. }
    constructor; [done | rewrite Hnet2; simpl; by rewrite app_nil_r |]. intros j Hj. destruct (Hn2 j Hj) as (H1 & H2 & H3). simpl in *.
    destruct (decide (j = i)) as [->|Hne]; [by rewrite !fn_lookup_insert in * | by rewrite !fn_lookup_insert_ne in * by done].
  - by apply (settled_grows ids v1).
  - intros L HL Hpre Hs. pose proof Hs as [Hz Hq0]. destruct (Hq1 L HL Hpre Hs) as [reqs Hq]. split; [lia |].
    pose proof (crash_raft fb fh (cfg i) L (horizon f i) hz s k reqs Hq ltac:(lia)) as Hraft.
    pose proof (crash_kv fb fh (cfg i) L (horizon f i) (procs f i) kd (asked f i) Hq0 Hz Hcrash) as Hkv.
    pose proof (boots i L hz rf kd env p n tr e a Hi Hraft Hkv Hb Hbuild) as Hst.
    eapply starts_quiet; [| exact Hst]. apply node_follows.
Qed.

Lemma fstep_serves f w v f' :
  mirrored f w v -> fstep f f' ->
  exists w' v' c, grows ids v v' /\ mirrored f' w' v' /\ settled v' c /\
    forall L, numbered L -> c `prefix_of` L -> (forall i, i ∈ ids -> serves L f i) -> forall i, i ∈ ids -> serves L f' i.
Proof.
  intros Hm. destruct 1 as [f i env ev s' ms Hi Hh | f i k s' r Hi Hget Hr | f i s ms rq k kd env p n tr e a Hi Hd Hc rf Hb Hbuild Hp].
  - destruct (serves_event f w v i env ev s' ms Hm Hi Hh) as (w' & v' & c & Hg & Hm' & Hset & Hq). exists w', v', c.
    split_and!; [done | done | done |]. intros L HL Hpre Hs. apply serves_update; [done | apply (Hs i Hi) |]. by apply Hq; [| | apply Hs].
  - assert (still (procs f i) s') as [Hn _].
    { revert Hget. unfold Server.Get. destruct (en_Get k (sv_eng (procs f i))). by intros [= <- _]. }
    pose proof Hm as [Ht Hnet Hnodes]. destruct (Hnodes i Hi) as (Hw & Hpl & Hpn). exists w, v, [].
    split_and!; [apply grows_refl | | apply settled_nil |].
    + rewrite <- Hn in Hw, Hpl, Hpn. eapply mirrored_update; try done. by rewrite app_nil_r.
    + intros L HL _ Hs. apply serves_update; [done | apply (Hs i Hi) |]. apply quiet_more.
      eapply get_quiet; [apply (Hs i Hi) | done | done].
  - destruct (serves_crash f w v i s ms rq k kd env p n tr e a Hm Hi Hd Hc Hb Hbuild Hp) as (w' & v' & c & Hg & Hm' & Hset & Hq).
    exists w', v', c. split_and!; [done | done | done |]. intros L HL Hpre Hs. destruct (Hq L HL Hpre (Hs i Hi)). by apply serves_update.
Qed.

Lemma serves_fresh f :
  fresh f -> exists w v, mirrored f w v /\ forall L, numbered L -> forall i, i ∈ ids -> serves L f i.
Proof.
  intros [Hwire Hall].
  assert (forall i, i ∈ ids -> exists faults draws snap, OpenNode (RaftCluster.config ids election heartbeat i) "raft.wal" None true faults draws = Ok (node (procs f i), snap)) as Hopen.
  { intros i Hi. destruct (Hall i Hi) as (_ & _ & env & p & n & tr & w & a & [] & Hbuild & ->). rewrite configured_node.
    destruct (build_node _ _ _ _ _ _ _ _ _ Hbuild) as [snap Ho]. rewrite gb_wal, (Hcfg i Hi) in Ho. by eexists _, _, _. }
  set (w := {| nodes := fun i => node (procs f i); net := []; elected := [] |}).
  destruct (tracked_init ids election heartbeat wal ids_wf w) as [v Ht]; [by split_and! |]. exists w, v. split.
  - constructor; [done | done |]. intros i Hi. destruct (Hopen i Hi) as (faults & draws & snap & Ho). split; [done |].
    split; [| by eapply open_pending]. apply open_fresh in Ho as (_ & Hterm & _ & Hlog & _).
    unfold plain, firstLogIndex. by rewrite Hlog, Hterm.
  - intros L HL i Hi. destruct (Hall i Hi) as (Hz & Hask & env & p & n & tr & e & a & Hb & Hbuild & Hproc).
    unfold serves. rewrite Hz, Hask, Hproc. split; [done |].
    assert (is_u64 (CmdConfig.id (cfg i))) as Hid.
    { pose proof (f_equal Config.ID (Hcfg i Hi)) as Heq. simpl in Heq. rewrite Heq. by apply (ids_nonzero ids ids_wf). }
    destruct (left_ok fb fh Hfb (cfg i) Hid (Hvalid i Hi) L HL 0 None ∅ (left_new _ _ _ _)) as (_ & Hraft & Hkv).
    pose proof (boots i L 0 None ∅ env p n tr e a Hi Hraft Hkv Hb Hbuild) as Hst.
    eapply starts_quiet; [| exact Hst]. apply node_follows.
Qed.

Lemma history_serves fs :
  history fs -> exists f w v C, head fs = Some f /\ mirrored f w v /\ Forall (settled v) C /\
    forall L, numbered L -> Forall (fun c => c `prefix_of` L) C -> forall g, g ∈ fs -> forall i, i ∈ ids -> serves L g i.
Proof.
  induction 1 as [f Hf | f f' fs _ (g & w & v & C & Hg & Hm & HC & Hs) Hstep].
  - destruct (serves_fresh f Hf) as (w & v & Hm & Hs). exists f, w, v, []. split_and!; try done.
    intros L HL _ g ->%list_elem_of_singleton. by apply Hs.
  - injection Hg as <-. destruct (fstep_serves f w v f' Hm Hstep) as (w' & v' & c & Hg & Hm' & Hc & Hs').
    exists f', w', v', (c :: C). split_and!; try done.
    + constructor; [done |]. eapply Forall_impl; [exact HC |]. intros x. by apply settled_grows.
    + intros L HL [Hpre HpreC]%Forall_cons g [-> | Hin]%elem_of_cons; [| by apply Hs].
      apply Hs'; [done | done |]. apply Hs; [done | done |]. by left.
Qed.

(** One log for all processes and all moments of a run. *)
Lemma history_log fs :
  history fs -> exists L, numbered L /\ forall f, f ∈ fs -> forall i, i ∈ ids -> serves L f i.
Proof.
  intros (f & w & v & C & _ & Hm & HC & Hs)%history_serves.
  destruct (settled_cover ids v C (t_view _ _ _ _ _ (m_tracked _ _ _ Hm)) HC) as (L & HL & Hpre). exists L. split; [done |].
  by apply Hs.
Qed.

(** C1: The cluster serves one log.  Let every process of a cluster of at least
    two start on empty disks, and let events, reads, messages lost, delayed,
    repeated or reordered, failed saves of the nodes, crashes and restarts happen
    in any order, as long as no process has compacted its log, no call on an
    engine fails or is interrupted by a crash, and restarts meet no failing
    system call.  Then there is one log such that at every moment of the run and
    in every process: once the process has applied what it had applied before its
    last start, a [Get] answers as the map of that log up to the applied index; a
    client was told of success only when what it proposed is in that log at an
    applied index; and a read was confirmed only at an applied index. *)
Theorem cluster_serves_one_log fs :
  history fs ->
  exists L, numbered L /\ forall f i, f ∈ fs -> i ∈ ids ->
    (horizon f i <= Server.lastApplied (procs f i) -> forall k s' v,
       Server.Get k (procs f i) = (s', Ok v) -> v = kv_get (kv_at L (Server.lastApplied (procs f i))) k) /\
    (forall ch, Applied ch None ∈ replies (procs f i) ->
       exists n entry, L !! n = Some entry /\ Z.of_nat n < Server.lastApplied (procs f i) /\
         mkRequest (LogEntry.Data entry) ch ∈ asked f i) /\
    (forall ch ix, ReadIndexed ch ix None ∈ replies (procs f i) -> ix <= Server.lastApplied (procs f i)).
Proof.
  intros (L & HL & Hall)%history_log. exists L. split; [done |]. intros f i Hf Hi.
  destruct (Hall f Hf i Hi) as [_ [[Hb (K & Hr & HK)] _]]. split_and!; [| apply Hb | apply Hb].
  intros Hz k s' v. rewrite (fuzzy_exact L _ _ K Hz HK) in Hr. unfold Server.Get.
  pose proof (km_Get (sv_eng (procs f i)) _ k Hr) as Hk. destruct (en_Get k (sv_eng (procs f i))) as [e [x|err|]]; [| done..].
  intros [= <- <-]. apply Hk.
Qed.
End cluster.

(** ** Runs of a schedule *)

Section schedule.
Context (fb : Z -> Z) (fh : Z -> Z -> Z) (ids : list Z) (cfg : Z -> CmdConfig.config).

#[local] Instance schedule_careful : kvEngine world steady_env := careful_kvEngine fb fh.
#[local] Instance schedule_engine : kvEngine world calls_env := world_kvEngine fb fh.

Inductive action :=
  | FDo (i : Z) (ev : event)
  | FDeliver (i : Z) (k : nat)
  | FCrash (i : Z).

Definition plain_b (n : Node) : bool := (firstLogIndex (n_r n) =? 0) && (currentTerm (n_r n) <? maxTerm).
Definition range_b (ev : event) (s : Server Node world) : bool :=
  forallb (fun r => len (rq_data r) <? Codec.dataMax) (submits ev s) &&
  (lastLogIndex (n_r (node s)) + len (submits ev s) <? maxIndex).

Definition do_event (f : system) (i : Z) (ev : event) : option system :=
  let s := procs f i in
  if bool_decide (i ∈ ids) && negb (done_ s) && range_b ev s then
    match run_event solo_steady ev s with
    | (s', Ok tt) =>
        if plain_b (node s')
        then Some (update f i s' (drop (length (sent s)) (sent s')) (horizon f i) (requested ev)) else None
    | _ => None
    end
  else None.

(** A start without failures, from files that hold no snapshot. *)
Definition boot (i : Z) (rf : option bytes) (kd : Engine.disk) : option (Server Node world) :=
  if bool_decide (kd !! restoreMarkerFileName = None) && (next_number (numbers ".wal" 0 kd) <? 10 ^ 6) then
    match OpenNode (raft_config (cfg i)) "raft.wal" (raft_source solo_boot rf) true [] [],
          buildComponents fb fh solo_boot (cfg i) (mkProcess kd rf []) with
    | Ok (_, None), (_, Ok (n, _, w, a)) => if plain_b n then Some (configured (cfg i) n w a) else None
    | _, _ => None
    end
  else None.

Definition do_crash (f : system) (i : Z) : option system :=
  let s := procs f i in
  if bool_decide (i ∈ ids) then
    match boot i (Some (Durability.crash_image (RaftStorage.disk (n_storage (node s))) 0)) (crashed (dsk (sv_eng s))) with
    | Some s' => Some (update f i s' [] (Z.max (horizon f i) (Server.lastApplied s)) [])
    | None => None
    end
  else None.

Definition act (f : system) (a : action) : option system :=
  match a with
  | FDo i (Received (Some _)) => None
  | FDo i ev => do_event f i ev
  | FDeliver i k =>
      match wire f !! k with
      | Some m => if Message.To m =? i then do_event f i (Received (Some m)) else None
      | None => None
      end
  | FCrash i => do_crash f i
  end.

(** All the states of the run, the latest first. *)
Fixpoint run (f : system) (fs : list system) (acts : list action) : option (list system) :=
  match acts with
  | [] => Some (f :: fs)
  | a :: acts => match act f a with Some f' => run f' (f :: fs) acts | None => None end
  end.

Lemma run_extends acts : forall f fs fs', run f fs acts = Some fs' -> exists new, fs' = new ++ f :: fs.
Proof.
  induction acts as [|a acts IH]; intros f fs fs'; cbn [run]; [intros [= <-]; by exists [] |].
  destruct (act f a) as [f'|]; [| done]. intros H. destruct (IH _ _ _ H) as [new ->]. exists (new ++ [f']). by rewrite <- app_assoc.
Qed.

Lemma plain_b_sound n : plain_b n = true -> plain n.
Proof. unfold plain_b. rewrite andb_true_iff, Z.eqb_eq, Z.ltb_lt. done. Qed.

Lemma boot_sound i rf kd s : boot i rf kd = Some s ->
  exists p n tr w a, good_boot fb fh (cfg i) solo_boot rf kd /\
    buildComponents fb fh solo_boot (cfg i) (mkProcess kd rf []) = (p, Ok (n, tr, w, a)) /\ plain n /\ s = configured (cfg i) n w a.
Proof.
  unfold boot. destruct (_ && _) eqn:Hk; [| done]. apply andb_true_iff in Hk as [Hm%bool_decide_eq_true Hn].
  destruct (OpenNode _ _ _ _ _ _) as [[n0 [sn|]]|e|] eqn:Ho; [done | | done..].
  destruct (buildComponents _ _ _ _ _) as [p [[[[n tr] w] a]|e|]] eqn:Hb; [| done..].
  destruct (plain_b n) eqn:Hp; [| done]. intros [= <-]. exists p, n, tr, w, a. split_and!; [| done | by apply plain_b_sound | done].
  constructor; try done; [split_and!; [done | done | by apply free_unmarked] |].
  intros d e n' sn es _ Ho'. cbn [be_wal be_wal_faults be_draws solo_boot] in Ho'. congruence.
Qed.

Lemma event_sent (env : @pump_env node_env calls_env) ev (s s' : Server Node world) :
  run_event env ev s = (s', Ok tt) -> sent s' = sent s ++ drop (length (sent s)) (sent s').
Proof.
  intros H%event_steps. assert (exists ms, sent s' = sent s ++ ms) as [ms ->]; [| by rewrite drop_app_length].
  destruct (calls ev s) as [[n|e|]|]; [| | done |]; [| destruct H as [_ ->]; exists []; by rewrite app_nil_r..].
  destruct H as (s1 & _ & Ho & H%pump_steps). destruct H as (n' & out & _ & Hout). rewrite <- Ho.
  destruct out as [[[ms ?] ?]|e|]; [exists ms; apply Hout | exists []; rewrite app_nil_r; apply Hout | done].
Qed.

(** A step in which nothing fails: a process handles an event, and every call of
    its save and of its engine succeeds ([solo_env]).  No process crashes. *)
Definition smooth (f f' : system) : Prop :=
  exists i ev s' ms, i ∈ ids /\ handles fb fh (wire f) i solo_env ev (procs f i) s' ms /\
    f' = update f i s' ms (horizon f i) (requested ev).

(** A run of such steps, the latest state first, from empty disks without any
    write fault to come ([solo_boot]). *)
Inductive smooth_run : list system -> Prop :=
  | smooth_start f :
      wire f = [] ->
      (forall i, i ∈ ids -> horizon f i = 0 /\ asked f i = [] /\ exists p n tr w a,
         buildComponents fb fh solo_boot (cfg i) (mkProcess ∅ None []) = (p, Ok (n, tr, w, a)) /\ procs f i = configured (cfg i) n w a) ->
      smooth_run [f]
  | smooth_next f f' fs : smooth_run (f :: fs) -> smooth f f' -> smooth_run (f' :: f :: fs).

Lemma smooth_step f f' : smooth f f' -> fstep fb fh ids cfg f f'.
Proof. intros (i & ev & s' & ms & Hi & Hh & ->). by eapply f_event. Qed.

Lemma do_event_sound f i ev f' :
  (forall m, ev = Received (Some m) -> m ∈ wire f /\ Message.To m = i) -> do_event f i ev = Some f' -> smooth f f'.
Proof.
  intros Hw. unfold do_event. destruct (_ && _) eqn:Hb; [| done]. apply andb_true_iff in Hb as [[Hi Hd]%andb_true_iff Hr].
  apply bool_decide_eq_true in Hi. apply negb_true_iff in Hd.
  destruct (run_event solo_steady ev (procs f i)) as [s' [[]|e|]] eqn:Hev; [| done..]. destruct (plain_b (node s')) eqn:Hp; [| done].
  assert (spared (careful_kvEngine fb fh) se_calls solo_env ev (procs f i)) as Hsp by (exists solo_steady; split; [done | exact (f_equal snd Hev)]).
  apply (within_run_event _ _ _ (Hcautious := world_cautious fb fh)) in Hev.
  intros [= <-]. eexists i, ev, s', _. split_and!; [done | | reflexivity]. constructor; try done; [| by apply (event_sent solo_env ev) | by apply plain_b_sound].
  apply andb_true_iff in Hr as [Hr1 Hr2%Z.ltb_lt]. split; [| done]. apply Forall_forall. intros r Hin.
  rewrite forallb_forall in Hr1. apply Z.ltb_lt, Hr1. by apply list_elem_of_In.
Qed.

Definition no_crash (a : action) : bool := match a with FCrash _ => false | _ => true end.

Lemma act_smooth f a f' : no_crash a = true -> act f a = Some f' -> smooth f f'.
Proof.
  destruct a as [i ev | i k | i]; cbn [act]; [| | done]; intros _.
  - intros H. apply (do_event_sound f i ev); [| by destruct ev as [|[]| | | |]]. intros m ->. done.
  - destruct (wire f !! k) as [m|] eqn:Hm; [| done]. destruct (Z.eqb_spec (Message.To m) i) as [Ht|]; [| done].
    apply do_event_sound. intros m' [= <-]. split; [by eapply list_elem_of_lookup_2 | done].
Qed.

Lemma act_sound f a f' : act f a = Some f' -> fstep fb fh ids cfg f f'.
Proof.
  destruct (no_crash a) eqn:Hc; [intros H; by apply smooth_step, (act_smooth f a) |]. destruct a as [| | i]; [done..|]. cbn [act].
  unfold do_crash. case_bool_decide as Hi; [| done].
  destruct (boot i _ _) as [s|] eqn:Hb; [| done]. intros [= <-]. apply boot_sound in Hb as (p & n & tr & w & a & Hgood & Hbuild & Hp & ->).
  eapply f_crash; [done | apply dies_idle | apply crashed_crash | exact Hgood | exact Hbuild | done].
Qed.

Lemma run_smooth acts : forall f fs fs', forallb no_crash acts = true -> smooth_run (f :: fs) -> run f fs acts = Some fs' -> smooth_run fs'.
Proof.
  induction acts as [|a acts IH]; intros f fs fs' Hc Hh; cbn [run]; [by intros [= <-] |]. apply andb_true_iff in Hc as [Ha Hc].
  destruct (act f a) as [f'|] eqn:E; [| done]. apply IH; [done |]. eapply smooth_next; [done | by apply (act_smooth f a)].
Qed.

Lemma run_history acts : forall f fs fs', history fb fh ids cfg (f :: fs) -> run f fs acts = Some fs' -> history fb fh ids cfg fs'.
Proof.
  induction acts as [|a acts IH]; intros f fs fs' Hh; cbn [run]; [by intros [= <-] |].
  destruct (act f a) as [f'|] eqn:Ha; [| done]. apply IH. eapply hist_step; [done | by apply (act_sound f a)].
Qed.
End schedule.

(** ** Two processes *)

Definition duo_ids : list Z := [1; 2].
Definition duo_cfg (i : Z) : CmdConfig.config :=
  mkConfig i ":7001" ":8001" ∅ (filter (fun p => p <> i) duo_ids) "./data" 2 1 1 0.
Definition duo_boot (i : Z) : Server Node world :=
  default (solo_start None ∅) (boot sized_bits demo_hashes duo_cfg i None ∅).
Definition duo_start : system :=
  let s1 := duo_boot 1 in
  let s2 := duo_boot 2 in
  mkSystem (fun i => if i =? 1 then s1 else s2) [] (fun _ => 0) (fun _ => []).

(** Process 1 is elected, a client puts a value there, process 2 stores it,
    learns that it is committed, crashes, and learns it again. *)
Definition duo_acts : list action :=
  [FDo 1 Ticked; FDo 1 Ticked; FDeliver 2 0; FDeliver 1 1; FDeliver 2 2; FDeliver 1 3;
   FDo 1 (Proposed (Server.Put ka [x31] 7)); FDo 1 BatchTimer; FDeliver 2 5; FDeliver 1 6; FDo 1 Ticked; FDeliver 2 7;
   FCrash 2; FDo 1 Ticked; FDeliver 2 9; FDeliver 1 10].
#[local] Abbreviation duo_run := (run sized_bits demo_hashes duo_ids duo_cfg duo_start [] duo_acts).

#[local] Existing Instance solo_engine.
Definition duo_facts (f : system) :=
  (replies (procs f 1), (Server.lastApplied (procs f 1), Server.lastApplied (procs f 2)), horizon f 2, snd (Server.Get ka (procs f 2))).

Lemma duo_view :
  (fun fs => duo_facts <$> head fs) <$> duo_run = Some (Some ([Applied 7 None], (1, 1), 1, Ok ([x31], true))).
Proof. vm_compute. reflexivity. Qed.

Lemma duo_ids_nodup : NoDup duo_ids.
Proof. by apply (bool_decide_eq_true_1 (NoDup duo_ids)); vm_compute. Qed.
Lemma duo_ids_wf : Forall (fun i => is_u64 i /\ i <> 0) duo_ids.
Proof. repeat (apply Forall_cons; split); try (unfold is_u64; lia). apply Forall_nil. done. Qed.
Lemma duo_cases i : i ∈ duo_ids -> i = 1 \/ i = 2.
Proof. unfold duo_ids. rewrite !elem_of_cons, elem_of_nil. tauto. Qed.

Lemma duo_valid i : i ∈ duo_ids -> Config.validate (raft_config (duo_cfg i)) = None.
Proof. intros [-> | ->]%duo_cases; vm_compute; reflexivity. Qed.

Lemma duo_boots :
  boot sized_bits demo_hashes duo_cfg 1 None ∅ = Some (duo_boot 1) /\ boot sized_bits demo_hashes duo_cfg 2 None ∅ = Some (duo_boot 2).
Proof. split; vm_compute; reflexivity. Qed.

Lemma duo_fresh : fresh sized_bits demo_hashes duo_ids duo_cfg duo_start.
Proof.
  split; [reflexivity |]. intros i Hi. split; [reflexivity |]. split; [reflexivity |].
  assert (boot sized_bits demo_hashes duo_cfg i None ∅ = Some (procs duo_start i)) as Hb.
  { destruct duo_boots as [H1 H2]. apply duo_cases in Hi as [-> | ->]; [exact H1 | exact H2]. }
  apply boot_sound in Hb as (p & n & tr & w & a & Hgood & Hbuild & _ & Heq). exists solo_boot, p, n, tr, w, a. auto.
Qed.

Lemma duo_smooth : smooth_run sized_bits demo_hashes duo_ids duo_cfg [duo_start].
Proof.
  apply smooth_start; [reflexivity |]. intros i Hi. split; [reflexivity |]. split; [reflexivity |].
  assert (boot sized_bits demo_hashes duo_cfg i None ∅ = Some (procs duo_start i)) as Hb.
  { destruct duo_boots as [H1 H2]. apply duo_cases in Hi as [-> | ->]; [exact H1 | exact H2]. }
  apply boot_sound in Hb as (p & n & tr & w & a & _ & Hbuild & _ & Heq). by exists p, n, tr, w, a.
Qed.

(** The state the run ends in. *)
Lemma duo_end : exists f fs, history sized_bits demo_hashes duo_ids duo_cfg (f :: fs) /\
  duo_facts f = ([Applied 7 None], (1, 1), 1, Ok ([x31], true)).
Proof.
  destruct (fmap_Some_1 _ _ _ duo_view) as (fs & Hrun & Hv). destruct fs as [|f fs]; [discriminate Hv |].
  exists f, fs. split; [exact (run_history _ _ _ _ _ _ _ _ (hist_start _ _ _ _ _ duo_fresh) Hrun) |].
  apply (inj Some) in Hv. exact (eq_sym Hv).
Qed.

(** The restarted process answers with the value that the first one has
    acknowledged, from the log that both serve. *)
Lemma cluster_serves_one_log_witness :
  exists f L, numbered L /\ Applied 7 None ∈ replies (procs f 1) /\ horizon f 2 = 1 /\
    snd (Server.Get ka (procs f 2)) = Ok ([x31], true) /\ kv_get (kv_at L 1) ka = ([x31], true) /\
    exists entry, L !! 0%nat = Some entry /\ mkRequest (LogEntry.Data entry) 7 ∈ asked f 1.
Proof.
  destruct duo_end as (f & fs & Hh & Hf).
  destruct (cluster_serves_one_log sized_bits demo_hashes sized_bits_ok duo_ids 2 1 duo_ids_nodup duo_ids_wf ltac:(done)
    duo_cfg ltac:(intros; reflexivity) duo_valid (f :: fs) Hh) as (L & HL & Hall).
  unfold duo_facts in Hf. injection Hf as Hrep Hl1 Hl2 Hz Hget. exists f, L.
  assert (f ∈ f :: fs) as Hin by (by left).
  assert (1 ∈ duo_ids /\ 2 ∈ duo_ids) as [H1 H2] by (unfold duo_ids; set_solver).
  destruct (Hall f 1 Hin H1) as (_ & Hack & _). destruct (Hall f 2 Hin H2) as (Hg & _).
  rewrite Hrep in Hack |- *. specialize (Hack 7 ltac:(by left)). rewrite Hl1 in Hack. rewrite Hl2, Hz in Hg.
  split_and!; [done | by left | done | done | |].
  - symmetry. apply (Hg ltac:(lia) ka (fst (Server.Get ka (procs f 2)))). by apply run_returns.
  - destruct Hack as (n & entry & Hn & Hlt & Hreq). exists entry. replace n with 0%nat in Hn by lia. done.
Defined.
