(* ===== verification/CmdFindings.v ===== *)
(** * Where the system departs from its documentation

    Runs of the cluster of [CmdCluster]: the loops, nodes and engines of the
    code over a network that works. *)

From Stdlib Require Import Strings.Byte Strings.String.
From S2P Require Import RaftCluster.
From S2P Require Import Prelude GoBytes GoState CmdConfig SSTable Engine EngineRun EngineProps Server ServerReplies ServerSteps ServerLog ServerCareful ServerImpl ServerProps RaftTypes Raft RaftNode CmdMain CmdLife CmdCluster.

#[local] Existing Instance solo_engine.

(** ** A confirmed read that misses an acknowledged write *)

(** A client puts a value at process 1, which leads; process 2 stores the entry,
    and the client is told of success. *)
Definition acknowledges : list action := take 10 duo_acts.
(** Process 2, which has not heard of the commit, is elected; a client asks it
    for a linearizable read, and process 1 confirms that process 2 leads. *)
Definition confirms : list action :=
  [FDo 2 Ticked; FDo 2 Ticked; FDeliver 1 7; FDeliver 2 8; FDeliver 1 9; FDeliver 2 10; FDo 2 (ReadRequested 9); FDeliver 1 12; FDeliver 2 13].

#[local] Abbreviation duo := (run sized_bits demo_hashes duo_ids duo_cfg).

Definition stale_facts (fs : list system) :=
  match fs with
  | f0 :: older =>
      Some ((asked f0 1, replies (procs f0 1), replies (procs f0 2), map_to_list (pendingReadIndexes (procs f0 2))),
            (fun fs => (fun f => (replies (procs f 2), snd (LinearizableGet true (WResult (ReadIndexed 9 0 None)) ka (procs f 2)))) <$> head fs)
              <$> duo f0 older confirms)
  | [] => None
  end.

Lemma stale_view :
  stale_facts <$> duo duo_start [] acknowledges =
  Some (Some (([Server.Put ka [x31] 7], [Applied 7 None], [], []), Some (Some ([ReadIndexed 9 0 None], Ok ([], false))))).
Proof. vm_compute. reflexivity. Qed.

(** C8: A linearizable read can miss a write.  Two processes, in a run in which
    every call on a disk and an engine succeeds and no process crashes: at one moment the client of process 1 has been told
    that its write succeeded, and nobody has asked process 2 for a read; later
    process 2 confirms a read, and LinearizableGet finds the key absent.  A leader
    that has not committed an entry of its own term does not know what is
    committed, and RequestReadIndex answers with what it knows. *)
Theorem confirmed_read_misses_write :
  exists later f0 older,
    smooth_run sized_bits demo_hashes duo_ids duo_cfg (later ++ f0 :: older) /\
    asked f0 1 = [Server.Put ka [x31] 7] /\ Applied 7 None ∈ replies (procs f0 1) /\
    replies (procs f0 2) = [] /\ pendingReadIndexes (procs f0 2) = ∅ /\
    exists f1, head (later ++ f0 :: older) = Some f1 /\ ReadIndexed 9 0 None ∈ replies (procs f1 2) /\
      snd (LinearizableGet true (WResult (ReadIndexed 9 0 None)) ka (procs f1 2)) = Ok ([], false).
Proof.
  destruct (fmap_Some_1 _ _ _ stale_view) as (fs & Hrun & Hv). destruct fs as [|f0 older]; [discriminate Hv |].
  apply (inj Some), pair_eq in Hv as [H0 H1]. apply pair_eq in H0 as [H0 Hp]. apply pair_eq in H0 as [H0 Hr2]. apply pair_eq in H0 as [Ha Hr1].
  destruct (fmap_Some_1 _ _ _ (eq_sym H1)) as (fs & Hrun1 & Hv1).
  pose proof (run_smooth _ _ _ _ acknowledges _ _ _ eq_refl duo_smooth Hrun) as Hh.
  pose proof (run_smooth _ _ _ _ confirms _ _ _ eq_refl Hh Hrun1) as Hh1. destruct (run_extends _ _ _ _ _ _ _ _ Hrun1) as [later Heq].
  exists later, f0, older. rewrite Heq in Hh1, Hv1.
  destruct (fmap_Some_1 _ _ _ (eq_sym Hv1)) as (f1 & Hf1 & Hv2). apply pair_eq in Hv2 as [Hr Hg].
  split; [exact Hh1 |]. split; [exact (eq_sym Ha) |]. rewrite <- Hr1, <- Hr2.
  split; [by left |]. split; [reflexivity |]. split; [by apply map_to_list_empty_iff |].
  exists f1. split; [exact Hf1 |]. rewrite <- Hr. split; [by left | exact (eq_sym Hg)].
Qed.
